(* ===== verification/_CoqProject ===== *)
-Q . S2P
Prelude.v
Hashes.v
WorkingTree.v
WriteBuffer.v
Codec.v
ObjectStore.v
TreeSerialize.v
History.v
Refs.v
Checkpoint.v
KvCodec.v
JsonText.v
JsonGrammar.v
Telemetry.v
TelemetryProps.v
AgentState.v
StateFs.v
AgentService.v
AgentSessions.v
RuntimeState.v
Supervisor.v
SupervisorRuns.v
ProcessControl.v
Peers.v
BranchMerge.v
Gc.v
GcMark.v
GcFuel.v
GcSweep.v
BranchRouter.v
RouterInv.v
RouterAnswers.v
CgroupWatch.v
Handles.v
Bootstrap.v
Daemon.v
DaemonTables.v
DaemonProps.v
DaemonGc.v
RuntimeOps.v
RuntimeProps.v
FuseAdapter.v
FuseSpec.v
FuseRefines.v
FuseSession.v
FuseFaults.v
DaemonRuns.v
ControlProtocol.v
JsonAcceptor.v
ControlDemo.v
ControlReplies.v
ControlProps.v
ControlSessions.v
ControlSocket.v
RuntimeClient.v
WireText.v
RuntimeWire.v
