(* ===== verification/Prelude.v ===== *)
(** * ContextFS (AgentVFS): a verification library of its daemon

    ContextFS mounts a copy-on-write view of a source directory for software
    agents. A daemon keeps one path map per branch, takes the source directory
    into the main branch, serves file system calls, buffers the writes of open
    files, stores file contents, directories and commits as content-addressed
    objects, publishes a branch by moving a reference, merges branches, reclaims
    what nothing needs any more, supervises the runtimes of agents (snapshots
    and restores of running processes), and answers commands on a control
    socket. This library models that program, the C++ code of [src/src/cas/]
    and [src/src/runtime/], and proves what makes it correct.

    ** Files

    Each file models the sources it names, one definition per function or class,
    under the name the code gives it (an operation whose name would clash
    carries its class as a prefix: [wt_], [wb_], [os_], ...).

    The content-addressed core:

    - [Prelude]: this header, bytes and strings, machine-width integers,
      results, byte codecs, ordered string maps.
    - [Hashes] (hash.h): the 32-byte digest, its hex names, the strict and the
      lenient parser.
    - [WorkingTree] (working_tree.{h,cpp}): the two-layer path map of a branch;
      the abstract contract is the map of live paths, [Spec.step].
    - [WriteBuffer] (write_buffer.{h,cpp}): the dirty runs of an open file;
      the contract is the file [pwrite] and [ftruncate] would have produced.
    - [Codec] (tree_serialize.cpp, commit.cpp): the byte formats of directories
      and commits.
    - [ObjectStore] (object_store.{h,cpp}): the objects on disk, the pending
      set, durability and what a crash leaves, and publication as two steps that
      threads interleave.
    - [TreeSerialize] (tree_serialize.cpp): a path map as a Merkle tree and
      back, over the class [TreeStore] the object store implements.
    - [History] (gc.cpp, branch_merge.cpp): reading commits from the store; the
      ancestor relation and the counting measure of history walks.
    - [Refs] (refs.{h,cpp}, branch_name.{h,cpp}): branch references as files.
    - [Checkpoint] (checkpoint.{h,cpp}): publishing a branch, rolling it back.
    - [BranchMerge] (branch_merge.{h,cpp}): three-way merge, against the
      independent rule [three_way]; the merge base; the merge commit.
    - [Gc], [GcMark], [GcFuel], [GcSweep] (gc.{h,cpp}): the collector; the
      definitions, then marking against the specification [needed], then
      termination, then sweeping and verification.

    Records and agent states:

    - [KvCodec], [AgentState], [RuntimeState] (agent_state.{h,cpp},
      runtime_state.{h,cpp}): the escaped key-value records kept as blobs.
    - [StateFs] (agent_state_service.cpp): the directory state/, its entries,
      their barriers, a crash.
    - [AgentService], [AgentSessions] (agent_state_service.{h,cpp}): appending a
      state, describing, resolving and restoring sessions, across crashes.

    The daemon:

    - [BranchRouter], [RouterInv], [RouterAnswers] (branch_router.{h,cpp},
      routing_fence.cpp): from a process to its branch, as a machine of single
      steps that threads, the kernel and the event thread interleave.
    - [CgroupWatch] (cgroup_watch.{h,cpp}): the inotify watch on control groups.
    - [Handles] (daemon.{h,cpp}): open files and their flushing.
    - [Bootstrap] (bootstrap.{h,cpp}, inode_map.{h,cpp}): taking in the source,
      on demand and by the background walk.
    - [Daemon], [DaemonTables], [DaemonProps], [DaemonGc] (daemon.{h,cpp},
      branch_context.h): branches, checkpoints, merge, collection, start-up;
      the invariant of the tables; restarts; a collection beside other threads.
    - [FuseAdapter], [FuseSpec], [FuseRefines], [FuseSession], [FuseFaults],
      [DaemonRuns] (platform/linux/fuse_adapter.cpp, fuse_read_buffer.cpp,
      fast_control.h): the file system callbacks; the session file system they
      implement; what failures leave; runs of the whole daemon.

    Runtimes and telemetry:

    - [Supervisor], [SupervisorRuns] (runtime_supervisor.{h,cpp}): runtimes,
      templates, boundaries, pending snapshots and restores.
    - [ProcessControl] (runtime_process_posix.cpp,
      runtime_process_unsupported.cpp): signals and process groups.
    - [RuntimeOps], [RuntimeProps] (daemon.cpp): snapshot and restore of a
      runtime, with gaps between the steps in which connections act.
    - [Telemetry], [TelemetryProps] (telemetry_*.{h,cpp}): events, verdicts, the
      registry of backends.

    The control socket:

    - [JsonText], [JsonGrammar], [JsonAcceptor] (control_protocol.cpp): the text
      the daemon reads and writes, against a grammar of flat objects and an
      acceptor of JSON that are independent of the code.
    - [Peers] (control_protocol.cpp, control_socket.cpp): who is at the other
      end, and what the process table says of it.
    - [ControlProtocol] (control_protocol.cpp): every command, from the line to
      the reply; [ControlDemo], a server for the witnesses; [ControlReplies],
      [ControlProps], [ControlSessions], its theorems.
    - [ControlSocket] (control_socket.cpp): a connection: its lines, its peer.

    The other end, in the agent's processes:

    - [RuntimeClient] (runtime/runtime_client.cpp, runtime/runtime_io.h,
      runtime/agentvfs_run.cpp): the cooperative runtime (boundaries, the parked
      template and its polls, the restored process) and the launcher.
    - [WireText], [RuntimeWire]: the messages it sends, read by the daemon, and
      both ends together.

    The interfaces: [TreeStore] with its laws lets trees be serialized over any
    store; [meanwhile], the gaps of [RuntimeOps] and [others] of
    [ControlProtocol] stand for what other threads do between two locked
    sections; [exec_call] is a callback after the bootstrap took its paths in,
    [callback] the whole of it.

    ** How the code's effects appear

    A mutex-protected method is one state-passing function; an operation that
    gives up the mutex in the middle is several steps, or takes what happens in
    between as an argument. System calls are outcomes taken from an environment
    record ([WriteEnv], [FsyncEnv], ...), so every failure branch of the code is
    a branch of the model. Out parameters with a [bool] and an error string are
    [result]s. The decoders' unchecked reads past the buffer are the outcome
    [OutOfBounds]. BLAKE3 is vendored code and a parameter; what is assumed of
    it is [collision_free] on the inputs in use, never injectivity at large.
    Integers are [N] with their reduction modulo [2^w] written where the code
    stores them; [ssize_t] and clock values are [Z].

    ** What the theorems show

    - Refinement of a contract: path map ([working_tree_refines]), write buffer
      ([buffer_refines_file], as long as no extension follows a shrink below the
      base), callbacks ([callbacks_refine_session], for sequences that fit),
      merge ([merge_trees_three_way]).
    - Round trips: hex names, tree and commit bodies, key-value records, whole
      trees through the store, checkpoint and rollback, records in replies.
    - Invariants of every reachable state: the store keeps each object under its
      own hash, the router's caches never change an answer, the daemon's tables
      and the supervisor's agree.
    - Safety: what a checkpoint published survives a crash, a failed callback
      changes nothing (when the reads of base contents work), the collector
      removes nothing that is needed (when the reads of its keep-last walk
      work), messages of a runtime count only from the right process.
    - Both ends of a connection: what a runtime sends is what the daemon reads,
      a restored process goes on exactly as the daemon's active one, a parked
      template ends ([RuntimeWire]).
    - Termination: marking, the merge-base search, the rebuilding of a tree and
      the router's resolution end, with bounds the files derive.
    - Where the code does not do what it means to, the theorem states what it
      does and names the missing guard as its hypothesis.

    ** Fuel

    Loops that the code bounds only by the data take fuel. [Gc] takes it from
    the number of objects and their sizes and [gc_mark_terminates] shows it is
    always enough; [find_common_ancestor] from [History.weight]; rebuilding a
    tree takes it as an argument with an explicit lower bound. The label walk's
    [label_depth] is the code's own limit, as is the router's [step_limit].

    ** Not modelled

    Mark and sweep of a collection are one step of the store (other threads act
    before it, after the roots are collected). [statfs] and the registration
    with libfuse, the macOS and Windows adapters, the telemetry backends (eBPF,
    fanotify, ptrace, LD_PRELOAD, bpftime, Lua, Wasm), the command line tools,
    [main.cpp] and the client of the fast control ioctls translate kernel events
    or arguments and are mostly system calls; starting and stopping the control
    socket and its accept loop is I/O; BLAKE3 under [include/] is vendored.
    Wall-clock time, directory iteration order and [std::random_device] names
    come from the environment records. *)

From stdpp Require Export gmap strings list sorting vector.
From Stdlib Require Export NArith Ascii.
From Stdlib Require String.

#[global] Open Scope N_scope.

(** ** Bytes and [std::string]

    A byte ([uint8_t], or [char] inside a [std::string]) is an [ascii]; a
    [std::string] and a [std::vector<uint8_t>] are both lists of bytes, which
    is what the casts between them in the sources amount to. *)

Abbreviation byte := ascii (only parsing).
Abbreviation bytes := (list ascii) (only parsing).
Abbreviation str := (list ascii) (only parsing).

Declare Scope ctx_scope.
Delimit Scope ctx_scope with ctx.

(** [lit "text"] is the byte list of a C string literal. *)
Definition lit (s : string) : str := String.list_ascii_of_string s.

(** Unsigned integers are [N]; storing one in a [w]-bit variable keeps it
    modulo [2^w]. *)
Definition u8 (n : N) : N := n mod 2 ^ 8.
Definition u16 (n : N) : N := n mod 2 ^ 16.
Definition u32 (n : N) : N := n mod 2 ^ 32.
Definition u64 (n : N) : N := n mod 2 ^ 64.

(** ** Results

    A function of the sources that returns [bool] and fills an [std::string&
    error] is a [result]: [Ok] carries its out parameters, [Err] the message. *)
Inductive result (A : Type) : Type :=
| Ok (a : A)
| Err (msg : str).

Arguments Ok {A} a.
Arguments Err {A} msg.

#[global] Instance result_eq_dec `{EqDecision A} : EqDecision (result A).
Proof. solve_decision. Defined.

Definition is_ok {A} (r : result A) : bool :=
  match r with Ok _ => true | Err _ => false end.

Definition rbind {A B} (r : result A) (f : A -> result B) : result B :=
  match r with Ok a => f a | Err e => Err e end.

Notation "'let*' x := r 'in' k" := (rbind r (fun x => k))
  (at level 10, x pattern, r at level 100, k at level 200) : ctx_scope.
#[global] Open Scope ctx_scope.

(** ** Byte order of keys

    [std::string] comparison is lexicographic on unsigned bytes
    ([std::char_traits<char>::compare]), and [std::map<std::string, _>]
    iterates in that order. *)
Fixpoint str_ltb (a b : str) : bool :=
  match a, b with
  | _, [] => false
  | [], _ :: _ => true
  | x :: a', y :: b' =>
      if N_of_ascii x <? N_of_ascii y then true
      else if N_of_ascii y <? N_of_ascii x then false
      else str_ltb a' b'
  end.

Definition str_lt (a b : str) : Prop := str_ltb a b = true.
Definition str_le (a b : str) : Prop := str_ltb b a = false.

#[global] Instance str_lt_dec : RelDecision str_lt :=
  fun a b => bool_eq_dec (str_ltb a b) true.
#[global] Instance str_le_dec : RelDecision str_le :=
  fun a b => bool_eq_dec (str_ltb b a) false.

(** [std::map] contents in iteration order. *)
Definition key_le {V} (x y : str * V) : Prop := str_le x.1 y.1.
Definition key_lt {V} (x y : str * V) : Prop := str_lt x.1 y.1.

#[global] Instance key_le_dec {V} : RelDecision (@key_le V) :=
  fun x y => str_le_dec x.1 y.1.

Definition entries {V} (m : gmap str V) : list (str * V) :=
  merge_sort key_le (map_to_list m).

(** [compare(0, prefix.size(), prefix) == 0]. *)
Fixpoint has_prefix (p s : str) : bool :=
  match p, s with
  | [], _ => true
  | _ :: _, [] => false
  | x :: p', y :: s' => bool_decide (x = y) && has_prefix p' s'
  end.

(** [std::string::find(c)]: index of the first occurrence. *)
Fixpoint find_char (c : ascii) (s : str) : option nat :=
  match s with
  | [] => None
  | x :: s' => if decide (x = c) then Some 0%nat else S <$> find_char c s'
  end.

(** [std::string::rfind(c)]: index of the last occurrence. *)
Fixpoint rfind_char (c : ascii) (s : str) : option nat :=
  match s with
  | [] => None
  | x :: s' =>
      match rfind_char c s' with
      | Some i => Some (S i)
      | None => if decide (x = c) then Some 0%nat else None
      end
  end.

Definition slash : ascii := "/"%char.
Definition newline : ascii := ascii_of_N 10.

(** ** Little-endian integers ([memcpy] of a [uintN_t] on the supported
    targets). *)
Fixpoint le_encode (w : nat) (n : N) : bytes :=
  match w with
  | O => []
  | S w' => ascii_of_N (n mod 256) :: le_encode w' (n / 256)
  end.

Fixpoint le_decode (l : bytes) : N :=
  match l with
  | [] => 0
  | b :: l' => N_of_ascii b + 256 * le_decode l'
  end.

(** [memcpy(dst, src + pos, n)]: [None] when the range leaves the buffer,
    where the program's behaviour is undefined. *)
Definition slice (l : bytes) (pos n : nat) : option bytes :=
  if decide (pos + n <= length l)%nat then Some (take n (drop pos l)) else None.

(** ** Tactics *)

Create HintDb ctx discriminated.
Create Rewrite HintDb ctx.

(** Split the goal on every [match]/[if] of the goal and of the hypotheses,
    simplifying equations as they appear. *)
Ltac split_cases :=
  repeat (case_match || case_decide || case_bool_decide || simplify_eq/=).

(** Destruct the scrutinee of a [match] in a hypothesis. *)
Ltac case_in H :=
  repeat match type of H with
  | context [match ?x with _ => _ end] => destruct x eqn:?; simplify_eq/=
  end.

Ltac inv_ok :=
  repeat match goal with
  | H : rbind ?r _ = Ok _ |- _ => destruct r eqn:?; simpl in H; [|discriminate]
  | H : Ok _ = Ok _ |- _ => injection H as H; subst
  | H : Err _ = Ok _ |- _ => discriminate
  | H : Ok _ = Err _ |- _ => discriminate
  end.

(** ** Bytes *)

Lemma N_of_ascii_lt b : N_of_ascii b < 256.
Proof. apply N_ascii_bounded. Qed.

Lemma N_of_ascii_inj a b : N_of_ascii a = N_of_ascii b -> a = b.
Proof. intros H. by rewrite <- (ascii_N_embedding a), H, ascii_N_embedding. Qed.

Lemma le_encode_length w n : length (le_encode w n) = w.
Proof. revert n. induction w as [|w IH]; intros n; simpl; [done|]. by rewrite IH. Qed.

Lemma le_decode_encode w n :
  le_decode (le_encode w n) = n mod 256 ^ N.of_nat w.
Proof.
  revert n. induction w as [|w IH]; intros n; cbn [le_encode le_decode].
  - by rewrite N.mod_1_r.
  - rewrite IH, N_ascii_embedding by (apply N.mod_lt; lia).
    rewrite Nat2N.inj_succ, N.pow_succ_r'.
    rewrite N.Div0.mod_mul_r. lia.
Qed.

Lemma le_decode_encode_small w n :
  n < 256 ^ N.of_nat w -> le_decode (le_encode w n) = n.
Proof. intros H. rewrite le_decode_encode. by apply N.mod_small. Qed.

Lemma le_decode_bound l : le_decode l < 256 ^ N.of_nat (length l).
Proof.
  induction l as [|b l IH]; cbn [le_decode length]; [done|].
  rewrite Nat2N.inj_succ, N.pow_succ_r'. pose proof (N_of_ascii_lt b). lia.
Qed.

Lemma drop_past {A} (pre : list A) c post : drop (length pre + 1) (pre ++ c :: post) = post.
Proof. rewrite <- drop_drop, drop_app_length. done. Qed.

Lemma slice_app pre mid post :
  slice (pre ++ mid ++ post) (length pre) (length mid) = Some mid.
Proof.
  unfold slice. rewrite decide_True by (rewrite !length_app; lia).
  by rewrite drop_app_length, take_app_length.
Qed.

Lemma slice_at l pre mid post pos n :
  l = pre ++ mid ++ post -> pos = length pre -> n = length mid ->
  slice l pos n = Some mid.
Proof. intros -> -> ->. apply slice_app. Qed.

Lemma slice_length l pos n r : slice l pos n = Some r -> length r = n.
Proof.
  unfold slice. case_decide; [|done]. intros [= <-].
  rewrite length_take, length_drop. lia.
Qed.

Lemma slice_is_Some l pos n :
  is_Some (slice l pos n) <-> (pos + n <= length l)%nat.
Proof. unfold slice. case_decide; split; intros H'; [done|by eauto|by destruct H'|done]. Qed.

(** ** The key order *)

Lemma str_ltb_irrefl a : str_ltb a a = false.
Proof. induction a as [|x a IH]; simpl; [done|]. by rewrite N.ltb_irrefl. Qed.

Lemma str_ltb_trans a b c :
  str_ltb a b = true -> str_ltb b c = true -> str_ltb a c = true.
Proof.
  revert b c. induction a as [|x a IH]; intros [|y b] [|z c]; simpl; try done.
  destruct (N.ltb_spec (N_of_ascii x) (N_of_ascii y)),
    (N.ltb_spec (N_of_ascii y) (N_of_ascii z)),
    (N.ltb_spec (N_of_ascii y) (N_of_ascii x)),
    (N.ltb_spec (N_of_ascii z) (N_of_ascii y)),
    (N.ltb_spec (N_of_ascii x) (N_of_ascii z)),
    (N.ltb_spec (N_of_ascii z) (N_of_ascii x)); try lia; try done.
  eauto.
Qed.

Lemma str_ltb_total a b : str_ltb a b = false -> str_ltb b a = false -> a = b.
Proof.
  revert b. induction a as [|x a IH]; intros [|y b]; simpl; try done.
  destruct (N.ltb_spec (N_of_ascii x) (N_of_ascii y)),
    (N.ltb_spec (N_of_ascii y) (N_of_ascii x)); try lia; try done.
  intros ??. f_equal; [apply N_of_ascii_inj; lia|eauto].
Qed.

#[global] Instance str_lt_strict : StrictOrder str_lt.
Proof.
  split.
  - intros a H. unfold str_lt in H. by rewrite str_ltb_irrefl in H.
  - intros a b c. apply str_ltb_trans.
Qed.

Lemma str_lt_asym a b : str_ltb a b = true -> str_ltb b a = false.
Proof.
  intros H. destruct (str_ltb b a) eqn:E; [|done].
  pose proof (str_ltb_trans _ _ _ H E) as C. by rewrite str_ltb_irrefl in C.
Qed.

Lemma str_lt_ne a b : str_ltb a b = true -> a <> b.
Proof. intros H ->. by rewrite str_ltb_irrefl in H. Qed.

Lemma str_le_lt_or_eq a b : str_le a b <-> str_lt a b \/ a = b.
Proof.
  unfold str_le, str_lt. split.
  - intros H. destruct (str_ltb a b) eqn:E; [by left|right; by apply str_ltb_total].
  - intros [H| ->]; [by apply str_lt_asym|apply str_ltb_irrefl].
Qed.

#[global] Instance key_le_total {V} : Total (@key_le V).
Proof.
  intros x y. unfold key_le, str_le.
  destruct (str_ltb y.1 x.1) eqn:E; [right; by apply str_lt_asym|by left].
Qed.

#[global] Instance key_le_trans {V} : Transitive (@key_le V).
Proof.
  intros x y z. unfold key_le. rewrite !str_le_lt_or_eq.
  intros [H1|H1] [H2|H2]; [left; by transitivity y.1| | |].
  - rewrite H2 in H1. by left.
  - rewrite <- H1 in H2. by left.
  - right. congruence.
Qed.

#[global] Instance key_lt_trans {V} : Transitive (@key_lt V).
Proof. intros x y z. unfold key_lt. by transitivity y.1. Qed.

(** ** Ordered enumerations

    [ksorted l] is the invariant of a [std::map]'s iteration: keys strictly
    ascending. *)
Abbreviation ksorted l := (StronglySorted key_lt l).

Lemma ksorted_cons {V} (x : str * V) l :
  ksorted (x :: l) <-> Forall (key_lt x) l /\ ksorted l.
Proof. apply StronglySorted_cons. Qed.

Lemma ksorted_unique {V} (l1 l2 : list (str * V)) :
  ksorted l1 -> ksorted l2 -> (forall x, x ∈ l1 <-> x ∈ l2) -> l1 = l2.
Proof.
  intros H1 H2 He.
  assert (forall l, @StronglySorted (str * V) key_lt l -> NoDup l) as Hnd.
  { intros l. induction 1 as [|x l Hl IH HF]; constructor; [|done].
    intros Hx. rewrite Forall_forall in HF. specialize (HF _ Hx).
    unfold key_lt in HF. by apply (irreflexivity str_lt) in HF. }
  apply (StronglySorted_unique_strong key_lt); [|done|done|].
  - intros x1 x2 _ _ Ha Hb. unfold key_lt in *.
    pose proof (transitivity Ha Hb) as C. by apply (irreflexivity str_lt) in C.
  - apply NoDup_Permutation; auto.
Qed.

Lemma entries_perm {V} (m : gmap str V) : entries m ≡ₚ map_to_list m.
Proof. apply merge_sort_Permutation. Qed.

Lemma elem_of_entries {V} (m : gmap str V) k v :
  (k, v) ∈ entries m <-> m !! k = Some v.
Proof. by rewrite entries_perm, elem_of_map_to_list. Qed.

Lemma entries_keys_NoDup {V} (m : gmap str V) : NoDup (entries m).*1.
Proof. rewrite entries_perm. apply NoDup_fst_map_to_list. Qed.

Lemma key_le_to_lt {V} (l : list (str * V)) :
  NoDup l.*1 -> StronglySorted key_le l -> ksorted l.
Proof.
  intros Hnd. induction 1 as [|x l Hl IH HF]; [constructor|].
  rewrite fmap_cons in Hnd. apply NoDup_cons in Hnd as [Hx Hnd].
  constructor; [auto|]. rewrite Forall_forall in *. intros y Hy.
  specialize (HF y Hy). unfold key_le, key_lt in *.
  apply str_le_lt_or_eq in HF as [|HF]; [done|].
  destruct Hx. rewrite HF. apply list_elem_of_fmap. eauto.
Qed.

Lemma entries_sorted {V} (m : gmap str V) : ksorted (entries m).
Proof.
  apply key_le_to_lt; [apply entries_keys_NoDup|].
  apply Sorted_StronglySorted; [apply _|]. apply Sorted_merge_sort, _.
Qed.

(** A strictly sorted list holding exactly the bindings of [m] is its
    enumeration. *)
Lemma entries_unique {V} (m : gmap str V) l :
  ksorted l -> (forall k v, (k, v) ∈ l <-> m !! k = Some v) -> l = entries m.
Proof.
  intros Hs Hl. apply ksorted_unique; [done|apply entries_sorted|].
  intros [k v]. by rewrite Hl, elem_of_entries.
Qed.

Lemma ksorted_filter {V} (P : str * V -> Prop) `{forall x, Decision (P x)} l :
  ksorted l -> ksorted (filter P l).
Proof.
  induction 1 as [|x l Hl IH HF]; [constructor|].
  rewrite filter_cons. case_decide; [|done]. constructor; [done|].
  rewrite Forall_forall in *. intros y [_ Hy]%list_elem_of_filter. eauto.
Qed.

#[export] Hint Resolve entries_sorted entries_keys_NoDup : ctx.

(** ** Characters and prefixes *)

Lemma find_char_None c s : find_char c s = None <-> c ∉ s.
Proof.
  induction s as [|x s IH]; simpl.
  - split; [intros _; apply not_elem_of_nil|done].
  - case_decide; subst.
    + split; [done|]. intros Hn. destruct Hn. by left.
    + rewrite fmap_None, IH, not_elem_of_cons. naive_solver.
Qed.

Lemma find_char_Some c s i :
  find_char c s = Some i ->
  exists pre post, s = pre ++ c :: post /\ length pre = i /\ c ∉ pre.
Proof.
  revert i. induction s as [|x s IH]; intros i; simpl; [done|]. case_decide; subst.
  - intros [= <-]. exists [], s. repeat split. apply not_elem_of_nil.
  - intros [j [Hj ->]]%fmap_Some. destruct (IH _ Hj) as (pre & post & -> & Hl & Hn).
    exists (x :: pre), post. repeat split; [simpl; lia|].
    rewrite not_elem_of_cons. split; [congruence|done].
Qed.

Lemma find_char_app c pre post :
  c ∉ pre -> find_char c (pre ++ c :: post) = Some (length pre).
Proof.
  induction pre as [|x pre IH]; simpl; intros Hn.
  - by rewrite decide_True.
  - rewrite not_elem_of_cons in Hn. destruct Hn as [Hx Hn].
    rewrite decide_False by congruence. by rewrite IH.
Qed.

Lemma rfind_char_None c s : rfind_char c s = None <-> c ∉ s.
Proof.
  induction s as [|x s IH]; simpl.
  - split; [intros _; apply not_elem_of_nil|done].
  - rewrite not_elem_of_cons. destruct (rfind_char c s) eqn:E.
    + split; [done|]. intros [_ Hn]. apply IH in Hn. done.
    + destruct IH as [IH _]. specialize (IH eq_refl). case_decide; naive_solver.
Qed.

Lemma rfind_char_app c pre post :
  c ∉ post -> rfind_char c (pre ++ c :: post) = Some (length pre).
Proof.
  intros Hn. induction pre as [|x pre IH]; simpl.
  - apply rfind_char_None in Hn. rewrite Hn. by rewrite decide_True.
  - by rewrite IH.
Qed.

Lemma rfind_char_Some c s i :
  rfind_char c s = Some i ->
  exists pre post, s = pre ++ c :: post /\ length pre = i /\ c ∉ post.
Proof.
  revert i. induction s as [|x s IH]; intros i; simpl; [done|].
  destruct (rfind_char c s) as [j|] eqn:E.
  - intros [= <-]. destruct (IH _ eq_refl) as (pre & post & -> & Hl & Hn).
    exists (x :: pre), post. repeat split; [simpl; lia|done].
  - case_decide; [|done]. intros [= <-]. subst. exists [], s.
    apply rfind_char_None in E. done.
Qed.

Lemma has_prefix_spec p s : has_prefix p s = true <-> p `prefix_of` s.
Proof.
  revert s. induction p as [|x p IH]; intros [|y s]; simpl.
  - split; [intros _; apply prefix_nil|done].
  - split; [intros _; apply prefix_nil|done].
  - split; [done|intros H%prefix_nil_not; done].
  - rewrite andb_true_iff, bool_decide_eq_true, IH. split.
    + intros [-> H]. by apply prefix_cons.
    + intros H. split; [by eapply prefix_cons_inv_1|by eapply prefix_cons_inv_2].
Qed.

Lemma has_prefix_app p s : has_prefix p (p ++ s) = true.
Proof. apply has_prefix_spec. by apply prefix_app_r. Qed.
