(* ===== verification/Hashes.v ===== *)
(** * Object identifiers ([src/cas/hash.h])

    The 32-byte BLAKE3 digest that names an object, its lower-case hex form
    used in paths and records, and the two parsers the sources have: the
    lenient [hex_to_hash] (a sequence of [sscanf("%2x")]) and the strict one. *)

From S2P Require Import Prelude.
From Stdlib Require Eqdep_dec.

(** [std::array<uint8_t, 32>]. *)
Abbreviation Hash := (vec ascii 32).

Definition ZERO_HASH : Hash := vreplicate 32 zero.

Definition hash_bytes (h : Hash) : bytes := vec_to_list h.

Fixpoint to_vec (n : nat) (l : bytes) : option (vec ascii n) :=
  match n, l with
  | O, [] => Some [#]
  | S n', x :: l' => v ← to_vec n' l'; Some (x ::: v)
  | _, _ => None
  end.

(** [memcpy(hash.data(), body.data() + pos, 32)]. *)
Definition read_hash (body : bytes) (pos : nat) : option Hash :=
  slice body pos 32 ≫= to_vec 32.

Definition hex_char (n : N) : ascii :=
  if n <? 10 then ascii_of_N (48 + n) else ascii_of_N (87 + n).

(** [snprintf("%02x")]. *)
Definition byte_to_hex (b : ascii) : str :=
  [hex_char (N_of_ascii b / 16); hex_char (N_of_ascii b mod 16)].

Definition hash_to_hex (h : Hash) : str := mjoin (byte_to_hex <$> hash_bytes h).

Definition hex_val (c : ascii) : option N :=
  let n := N_of_ascii c in
  if (48 <=? n) && (n <=? 57) then Some (n - 48)
  else if (97 <=? n) && (n <=? 102) then Some (n - 87)
  else if (65 <=? n) && (n <=? 70) then Some (n - 55)
  else None.

(** [std::strlen] of the [c_str()] of a string. *)
Definition strlen (s : str) : nat := default (length s) (find_char zero s).

(** [isspace] in the "C" locale. *)
Definition is_space (c : ascii) : bool :=
  let n := N_of_ascii c in (n =? 32) || ((9 <=? n) && (n <=? 13)).

Fixpoint skip_space (s : str) : str :=
  match s with
  | c :: s' => if is_space c then skip_space s' else s
  | [] => []
  end.

(** [sscanf(s, "%2x", &val)]: leading white space is skipped, then at most two
    characters are consumed: a sign and one digit, or one or two digits. The
    two characters [0x] are the prefix of a hexadecimal constant and no
    conversion, a failure. The result is the value as [unsigned]. *)
Definition scan_2x (s : str) : option N :=
  match skip_space s with
  | c1 :: s' =>
      if bool_decide (c1 = "+"%char) then (head s' ≫= hex_val)
      else if bool_decide (c1 = "-"%char) then
        (fun d => u32 (2 ^ 32 - d)) <$> ((head s' ≫= hex_val))
      else
        match hex_val c1 with
        | None => None
        | Some d1 =>
            match head s' with
            | None => Some d1
            | Some c2 =>
                if bool_decide (d1 = 0 /\ (c2 = "x"%char \/ c2 = "X"%char)) then None
                else match hex_val c2 with
                     | Some d2 => Some (d1 * 16 + d2)
                     | None => Some d1
                     end
            end
        end
  | [] => None
  end.

Definition hex_to_hash (hex : str) : option Hash :=
  if decide (strlen hex < 64)%nat then None
  else
    l ← mapM (fun i => ascii_of_N ∘ u8 <$> scan_2x (drop (2 * i) hex)) (seq 0 32);
    to_vec 32 l.

Definition is_hex_char (c : ascii) : bool :=
  let n := N_of_ascii c in
  ((48 <=? n) && (n <=? 57)) || ((97 <=? n) && (n <=? 102)) || ((65 <=? n) && (n <=? 70)).

Definition is_hex_hash (hex : str) : bool :=
  bool_decide (length hex = 64%nat) && forallb is_hex_char hex.

Definition hex_to_hash_strict (hex : str) : option Hash :=
  if is_hex_hash hex then hex_to_hash hex else None.

Definition shard_path (h : Hash) : str :=
  match hash_bytes h with
  | b :: _ => byte_to_hex b ++ [slash] ++ hash_to_hex h
  | [] => hash_to_hex h
  end.

(** ASCII lower-casing, the reading of upper-case hex digits. *)
Definition lower_hex (c : ascii) : ascii :=
  let n := N_of_ascii c in
  if (65 <=? n) && (n <=? 70) then ascii_of_N (n + 32) else c.

(** ** Vectors and hashes *)

Lemma to_vec_list n (v : vec ascii n) : to_vec n (vec_to_list v) = Some v.
Proof. induction v as [|x n v IH]; simpl; [done|]. by rewrite IH. Qed.

#[global] Instance Hash_countable : Countable Hash :=
  inj_countable (@vec_to_list ascii 32) (to_vec 32) (to_vec_list 32).

Lemma to_vec_Some n l v : to_vec n l = Some v -> vec_to_list v = l.
Proof.
  revert l. induction v as [|x n v IH]; intros [|y l]; simpl; try done.
  intros [w [Hw [= Hx Hv]]]%bind_Some.
  apply (Eqdep_dec.inj_pair2_eq_dec _ Nat.eq_dec) in Hv. subst. by rewrite (IH l).
Qed.

Lemma to_vec_length n l : is_Some (to_vec n l) <-> length l = n.
Proof.
  split.
  - intros [v Hv%to_vec_Some]. subst. apply length_vec_to_list.
  - intros <-. induction l as [|x l [v IH]]; simpl; [by eauto|]. rewrite IH. by eauto.
Qed.

#[global] Arguments to_vec : simpl never.

Lemma hash_bytes_length h : length (hash_bytes h) = 32%nat.
Proof. apply length_vec_to_list. Qed.

Lemma hash_bytes_inj h1 h2 : hash_bytes h1 = hash_bytes h2 -> h1 = h2.
Proof. apply vec_to_list_inj2. Qed.

Lemma read_hash_at l pre h post pos :
  l = pre ++ hash_bytes h ++ post -> pos = length pre ->
  read_hash l pos = Some h.
Proof.
  intros -> ->. unfold read_hash.
  rewrite (slice_at _ pre (hash_bytes h) post) by (by rewrite ?hash_bytes_length).
  simpl. apply to_vec_list.
Qed.

Lemma read_hash_is_Some l pos : (pos + 32 <= length l)%nat -> is_Some (read_hash l pos).
Proof.
  intros H. unfold read_hash. apply slice_is_Some in H as [r Hr]. rewrite Hr. simpl.
  apply to_vec_length. by eapply slice_length.
Qed.

(** ** Hexadecimal *)

Lemma ascii_cases (P : ascii -> Prop) :
  (forall n, n < 256 -> P (ascii_of_N n)) -> forall c, P c.
Proof.
  intros H c. rewrite <- (ascii_N_embedding c). apply H, N_of_ascii_lt.
Qed.

(** Facts about one byte or one nibble are checked on all of them. *)
Lemma forall_below (k : nat) (f : N -> bool) :
  forallb f (N.of_nat <$> seq 0 k) = true -> forall n, n < N.of_nat k -> f n = true.
Proof.
  rewrite forallb_forall. intros H n Hn. apply H.
  apply list_elem_of_In, list_elem_of_fmap. exists (N.to_nat n).
  rewrite N2Nat.id. split; [done|]. apply elem_of_seq. lia.
Qed.

Lemma hex_char_val n : n < 16 ->
  hex_val (hex_char n) = Some n /\ is_hex_char (hex_char n) = true /\
  is_space (hex_char n) = false /\ lower_hex (hex_char n) = hex_char n /\
  hex_char n <> zero.
Proof.
  intros Hn.
  assert (bool_decide (hex_val (hex_char n) = Some n /\ is_hex_char (hex_char n) = true /\
    is_space (hex_char n) = false /\ lower_hex (hex_char n) = hex_char n /\
    hex_char n <> zero) = true) as H; [|by apply bool_decide_eq_true in H].
  revert n Hn. by apply (forall_below 16).
Qed.

Lemma hex_val_bound c n : hex_val c = Some n -> n < 16.
Proof.
  unfold hex_val. intros H.
  repeat match type of H with
  | (if ?b then _ else _) = _ => destruct b eqn:?
  end; simplify_eq; rewrite andb_true_iff, !N.leb_le in *; lia.
Qed.

(** What a hex digit is to the scanner: neither space nor sign nor NUL. *)
Lemma is_hex_char_facts c : is_hex_char c = true ->
  is_space c = false /\ c <> "+"%char /\ c <> "-"%char /\ c <> "x"%char /\
  c <> "X"%char /\ c <> zero /\
  exists n, hex_val c = Some n /\ lower_hex c = hex_char n.
Proof.
  intros Hc.
  assert (implb (is_hex_char c) (negb (is_space c) &&
    bool_decide (c <> "+"%char /\ c <> "-"%char /\ c <> "x"%char /\ c <> "X"%char /\ c <> zero) &&
    match hex_val c with Some n => bool_decide (lower_hex c = hex_char n) | None => false end)
    = true) as H.
  { clear Hc. revert c. apply ascii_cases. by apply (forall_below 256). }
  rewrite Hc in H. simpl in H. apply andb_true_iff in H as [H Hv].
  apply andb_true_iff in H as [Hs Hne]. apply negb_true_iff in Hs.
  apply bool_decide_eq_true in Hne. destruct (hex_val c) as [n|]; [|done].
  apply bool_decide_eq_true in Hv.
  destruct Hne as (? & ? & ? & ? & ?). split_and!; eauto.
Qed.

Lemma byte_hex_digits b :
  ascii_of_N (N_of_ascii b / 16 * 16 + N_of_ascii b mod 16) = b.
Proof.
  rewrite (N.mul_comm _ 16), <- N.div_mod by done. apply ascii_N_embedding.
Qed.

Lemma nibbles b : N_of_ascii b / 16 < 16 /\ N_of_ascii b mod 16 < 16.
Proof.
  pose proof (N_of_ascii_lt b). split; [apply N.Div0.div_lt_upper_bound; lia|by apply N.mod_lt].
Qed.

Lemma hash_to_hex_length h : length (hash_to_hex h) = 64%nat.
Proof.
  unfold hash_to_hex. change 64%nat with (2 * 32)%nat. rewrite <- (hash_bytes_length h).
  induction (hash_bytes h) as [|b l IH]; [done|].
  rewrite fmap_cons. simpl in *. rewrite IH. lia.
Qed.

Lemma hash_to_hex_is_hex h : is_hex_hash (hash_to_hex h) = true.
Proof.
  unfold is_hex_hash. rewrite hash_to_hex_length. simpl.
  unfold hash_to_hex. induction (hash_bytes h) as [|b l IH]; [done|].
  rewrite fmap_cons. simpl. destruct (nibbles b) as [H1 H2].
  apply hex_char_val in H1 as (_ & -> & _), H2 as (_ & -> & _). done.
Qed.

Lemma strlen_hex s : forallb is_hex_char s = true -> strlen s = length s.
Proof.
  intros H. unfold strlen. replace (find_char zero s) with (@None nat); [done|].
  symmetry. apply find_char_None. intros Hin%list_elem_of_In.
  rewrite forallb_forall in H. by specialize (H _ Hin).
Qed.

(** Reading two hex digits. *)
Lemma scan_2x_digits c1 c2 s d1 d2 :
  is_hex_char c1 = true -> is_hex_char c2 = true ->
  hex_val c1 = Some d1 -> hex_val c2 = Some d2 ->
  scan_2x (c1 :: c2 :: s) = Some (d1 * 16 + d2).
Proof.
  intros H1 H2 E1 E2. apply is_hex_char_facts in H1 as (Hs & Hp & Hm & _).
  apply is_hex_char_facts in H2 as (_ & _ & _ & Hx & HX & _).
  unfold scan_2x. simpl. rewrite Hs. rewrite !bool_decide_eq_false_2 by done.
  rewrite E1. simpl. rewrite bool_decide_eq_false_2 by tauto. by rewrite E2.
Qed.

(** The pairs of digits of a strict hex string, read one after the other. *)
Fixpoint read_pairs (n : nat) (s : str) : option bytes :=
  match n with
  | O => Some []
  | S n' => v ← scan_2x s; l ← read_pairs n' (drop 2 s); Some (ascii_of_N (u8 v) :: l)
  end.

Lemma read_pairs_mapM n k s :
  mapM (fun i => ascii_of_N ∘ u8 <$> scan_2x (drop (2 * i) s)) (seq k n) =
  read_pairs n (drop (2 * k) s).
Proof.
  revert k. induction n as [|n IH]; intros k; [done|].
  cbn [seq read_pairs mapM]. rewrite IH, drop_drop.
  replace (2 * S k)%nat with (2 * k + 2)%nat by lia.
  by destruct (scan_2x (drop (2 * k) s)).
Qed.

Lemma hex_to_hash_pairs s :
  (64 <= strlen s)%nat -> hex_to_hash s = read_pairs 32 s ≫= to_vec 32.
Proof.
  intros H. unfold hex_to_hash. rewrite decide_False by lia.
  by rewrite read_pairs_mapM.
Qed.

Lemma read_pairs_hex l s :
  read_pairs (length l) (mjoin (byte_to_hex <$> l) ++ s) = Some l.
Proof.
  induction l as [|b l IH]; [done|].
  rewrite fmap_cons. destruct (nibbles b) as [H1 H2].
  apply hex_char_val in H1 as (V1 & X1 & _), H2 as (V2 & X2 & _).
  change (read_pairs (length (b :: l)) (mjoin (byte_to_hex b :: (byte_to_hex <$> l)) ++ s))
    with (v ← scan_2x (hex_char (N_of_ascii b / 16) :: hex_char (N_of_ascii b mod 16) ::
            (mjoin (byte_to_hex <$> l) ++ s));
          l' ← read_pairs (length l) (mjoin (byte_to_hex <$> l) ++ s);
          Some (ascii_of_N (u8 v) :: l')).
  erewrite scan_2x_digits by done. rewrite IH. cbn. do 2 f_equal. unfold u8. rewrite N.mod_small; [apply byte_hex_digits|].
  pose proof (N_of_ascii_lt b). rewrite (N.mul_comm _ 16), <- N.div_mod by done. done.
Qed.

Lemma read_pairs_lower s n l :
  forallb is_hex_char s = true -> length s = (2 * n)%nat -> read_pairs n s = Some l ->
  mjoin (byte_to_hex <$> l) = lower_hex <$> s.
Proof.
  revert s l. induction n as [|n IH]; intros s l Hs Hlen Hl.
  { destruct s; [|done]. by simplify_eq/=. }
  destruct s as [|c1 [|c2 s]]; [done|simpl in Hlen; lia|]. simpl in Hlen.
  cbn [forallb] in Hs. rewrite !andb_true_iff in Hs. destruct Hs as (H1 & H2 & Hs).
  pose proof (is_hex_char_facts _ H1) as (_ & _ & _ & _ & _ & _ & d1 & V1 & L1).
  pose proof (is_hex_char_facts _ H2) as (_ & _ & _ & _ & _ & _ & d2 & V2 & L2).
  cbn [read_pairs] in Hl. rewrite (scan_2x_digits _ _ _ d1 d2) in Hl by done.
  change (drop 2 (c1 :: c2 :: s)) with s in Hl.
  destruct (read_pairs n s) as [l'|] eqn:E; [|done].
  injection Hl as <-. rewrite !fmap_cons.
  change (mjoin (?x :: ?y)) with (x ++ mjoin y).
  rewrite (IH s l') by (done || lia). rewrite L1, L2.
  pose proof (hex_val_bound _ _ V1). pose proof (hex_val_bound _ _ V2).
  unfold byte_to_hex, u8.
  rewrite N.mod_small by (change (2 ^ 8) with 256; lia).
  rewrite N_ascii_embedding by lia.
  rewrite N.div_add_l, N.div_small, N.add_0_r by lia.
  rewrite N.add_comm, N.Div0.mod_add, N.mod_small by lia. done.
Qed.

Lemma read_pairs_total s n :
  forallb is_hex_char s = true -> length s = (2 * n)%nat ->
  exists l, read_pairs n s = Some l /\ length l = n.
Proof.
  revert s. induction n as [|n IH]; intros s Hx Hl; [by exists []|].
  destruct s as [|c1 [|c2 s]]; [done|simpl in Hl; lia|]. simpl in Hl.
  cbn [forallb] in Hx. rewrite !andb_true_iff in Hx. destruct Hx as (H1 & H2 & Hs).
  pose proof (is_hex_char_facts _ H1) as (_ & _ & _ & _ & _ & _ & d1 & V1 & _).
  pose proof (is_hex_char_facts _ H2) as (_ & _ & _ & _ & _ & _ & d2 & V2 & _).
  destruct (IH s) as (l & Hr & Hll); [done|lia|].
  cbn [read_pairs]. rewrite (scan_2x_digits _ _ _ d1 d2) by done.
  change (drop 2 (c1 :: c2 :: s)) with s. rewrite Hr.
  eexists. split; [done|]. simpl. lia.
Qed.

Lemma hex_to_hash_hex h : hex_to_hash (hash_to_hex h) = Some h.
Proof.
  pose proof (hash_to_hex_is_hex h) as Hx. unfold is_hex_hash in Hx.
  apply andb_true_iff in Hx as [Hl Hx]. apply bool_decide_eq_true in Hl.
  rewrite hex_to_hash_pairs by (rewrite strlen_hex; [lia|done]).
  pose proof (read_pairs_hex (hash_bytes h) []) as H.
  rewrite hash_bytes_length, app_nil_r in H. unfold hash_to_hex. rewrite H. simpl.
  apply to_vec_list.
Qed.

Lemma hex_to_hash_strict_hex h : hex_to_hash_strict (hash_to_hex h) = Some h.
Proof. unfold hex_to_hash_strict. by rewrite hash_to_hex_is_hex, hex_to_hash_hex. Qed.

Lemma hash_to_hex_inj h1 h2 : hash_to_hex h1 = hash_to_hex h2 -> h1 = h2.
Proof.
  intros H. pose proof (hex_to_hash_strict_hex h1) as H1.
  rewrite H, hex_to_hash_strict_hex in H1. congruence.
Qed.

Lemma hex_to_hash_strict_canonical s h :
  hex_to_hash_strict s = Some h <->
  is_hex_hash s = true /\ hash_to_hex h = lower_hex <$> s.
Proof.
  unfold hex_to_hash_strict. destruct (is_hex_hash s) eqn:E; [|by split; [|intros [? _]]].
  unfold is_hex_hash in E. apply andb_true_iff in E as [Hl Hx].
  apply bool_decide_eq_true in Hl.
  rewrite hex_to_hash_pairs by (rewrite strlen_hex; [lia|done]).
  destruct (read_pairs_total s 32 Hx Hl) as (l & Hr & Hll).
  rewrite Hr. simpl.
  pose proof (read_pairs_lower s 32 l Hx Hl Hr) as Hlow.
  split.
  - intros Hv%to_vec_Some. split; [done|]. unfold hash_to_hex, hash_bytes. by rewrite Hv.
  - intros [_ Hh]. apply to_vec_length in Hll as [v Hv]. rewrite Hv. f_equal.
    apply hash_to_hex_inj. rewrite Hh, <- Hlow. apply to_vec_Some in Hv.
    unfold hash_to_hex, hash_bytes. by rewrite Hv.
Qed.

#[export] Hint Rewrite hex_to_hash_hex hex_to_hash_strict_hex hash_to_hex_length : ctx.

(** ** Properties *)

(** Printing a hash in hexadecimal is injective and both parsers read it
    back; the strict parser accepts exactly the 64-digit names and its value
    prints as the lower-case form of its input, so two accepted names denote
    the same hash only when they differ in letter case alone. *)
Theorem hash_hex_canonical h :
  hex_to_hash (hash_to_hex h) = Some h /\
  hex_to_hash_strict (hash_to_hex h) = Some h /\
  (forall h', hash_to_hex h' = hash_to_hex h -> h' = h) /\
  (forall s, hex_to_hash_strict s = Some h <->
     is_hex_hash s = true /\ hash_to_hex h = lower_hex <$> s).
Proof.
  split; [apply hex_to_hash_hex|]. split; [apply hex_to_hash_strict_hex|].
  split; [intros h'; apply hash_to_hex_inj|intros s; apply hex_to_hash_strict_canonical].
Qed.
