(* ===== verification/WorkingTree.v ===== *)
(** * The copy-on-write path map of a branch ([src/cas/working_tree.{h,cpp}])

    [WorkingTree] is the two-layer map: a shared immutable base and a private
    delta that shadows it. Each public method takes the mutex for its whole
    body, so one method is one atomic step and the model is a state-passing
    function per method. [Spec] is the abstract contract: a branch is a finite
    map from paths to live entries; [Reach] the states a tree can be in. *)

From S2P Require Import Prelude Hashes.

(** [enum class EntryKind : uint8_t]; a value cast from a byte may be none of
    the four names. *)
Inductive EntryKind : Type :=
| Blob
| Tree
| Symlink
| Deleted
| OtherKind (b : N).

#[global] Instance EntryKind_eq_dec : EqDecision EntryKind.
Proof. solve_decision. Defined.

Record WorkingTreeEntry : Type := mkEntry {
  e_kind : EntryKind;
  e_hash : Hash;
  e_mode : N;
}.

#[global] Instance WorkingTreeEntry_eq_dec : EqDecision WorkingTreeEntry.
Proof. solve_decision. Defined.

Abbreviation EntryMap := (gmap str WorkingTreeEntry).

Record WorkingTree : Type := mkWT {
  base_ : option EntryMap;
  delta_ : EntryMap;
  source_origin_paths_ : gset str;
  base_authoritative_ : bool;
}.

Definition empty_tree : WorkingTree := mkWT None ∅ ∅ false.

Record WorkingTreeMemoryStats : Type := mkStats {
  base_entries : nat;
  base_shared_by : Z;
  delta_entries : nat;
  delta_tombstones : nat;
}.

Definition is_deleted (e : WorkingTreeEntry) : bool := bool_decide (e_kind e = Deleted).

Definition whiteout : WorkingTreeEntry := mkEntry Deleted ZERO_HASH 0.

(** ** Operations *)

Definition lookup_raw_locked (t : WorkingTree) (path : str) : option WorkingTreeEntry :=
  match (if decide (delta_ t = ∅) then None else delta_ t !! path) with
  | Some e => Some e
  | None => base_ t ≫= lookup path
  end.

Definition wt_lookup (t : WorkingTree) (path : str) : option WorkingTreeEntry :=
  match lookup_raw_locked t path with
  | Some e => if is_deleted e then None else Some e
  | None => None
  end.

Definition lookup_raw (t : WorkingTree) (path : str) : option WorkingTreeEntry :=
  lookup_raw_locked t path.

Definition set_delta (t : WorkingTree) (d : EntryMap) : WorkingTree :=
  mkWT (base_ t) d (source_origin_paths_ t) (base_authoritative_ t).

Definition wt_insert (t : WorkingTree) (path : str) (e : WorkingTreeEntry) : WorkingTree :=
  set_delta t (<[path := e]> (delta_ t)).

Definition insert_source (t : WorkingTree) (path : str) (e : WorkingTreeEntry) : WorkingTree :=
  mkWT (base_ t) (<[path := e]> (delta_ t))
    (if base_authoritative_ t then {[path]} ∪ source_origin_paths_ t
     else source_origin_paths_ t)
    (base_authoritative_ t).

Definition in_base (t : WorkingTree) (path : str) : bool :=
  match base_ t ≫= lookup path with
  | Some e => negb (is_deleted e)
  | None => false
  end.

Definition remove_locked (t : WorkingTree) (path : str) : WorkingTree :=
  if base_authoritative_ t && negb (in_base t path) &&
     bool_decide (path ∉ source_origin_paths_ t)
  then set_delta t (delete path (delta_ t))
  else set_delta t (<[path := whiteout]> (delta_ t)).

Definition wt_remove (t : WorkingTree) (path : str) : WorkingTree := remove_locked t path.

Definition rename_entry (t : WorkingTree) (old_path new_path : str) : WorkingTree :=
  match lookup_raw_locked t old_path with
  | None => t
  | Some entry =>
      let t := remove_locked t old_path in
      if is_deleted entry then remove_locked t new_path
      else set_delta t (<[new_path := entry]> (delta_ t))
  end.

(** [std::map::lower_bound] and the scan [while (has prefix) ++it]. *)
Fixpoint lower_bound {V} (k : str) (l : list (str * V)) : list (str * V) :=
  match l with
  | [] => []
  | x :: l' => if str_ltb x.1 k then lower_bound k l' else l
  end.

Fixpoint scan_prefix {V} (p : str) (l : list (str * V)) : list (str * V) :=
  match l with
  | [] => []
  | x :: l' => if has_prefix p x.1 then x :: scan_prefix p l' else []
  end.

Definition prefix_range {V} (p : str) (m : gmap str V) : list (str * V) :=
  scan_prefix p (lower_bound p (entries m)).

(** A directory path with its trailing separator. *)
Definition with_slash (p : str) : str :=
  if bool_decide (p <> [] /\ last p <> Some slash) then p ++ [slash] else p.

Definition insert_all {V} (l : list (str * V)) (m : gmap str V) : gmap str V :=
  fold_left (fun m x => <[x.1 := x.2]> m) l m.

Definition rename_collect (t : WorkingTree) (old_prefix : str) : EntryMap :=
  let scan := with_slash old_prefix in
  let to_move := match base_ t with
                 | Some b => insert_all (prefix_range scan b) ∅
                 | None => ∅
                 end in
  let to_move := insert_all (prefix_range scan (delta_ t)) to_move in
  match lookup_raw_locked t old_prefix with
  | Some e => <[old_prefix := e]> to_move
  | None => to_move
  end.

Definition moved_path (old_prefix new_prefix path : str) : str :=
  if decide (path = old_prefix) then new_prefix
  else new_prefix ++ drop (length old_prefix) path.

Definition rename_step (old_prefix new_prefix : str) (t : WorkingTree)
    (x : str * WorkingTreeEntry) : WorkingTree :=
  let t := remove_locked t x.1 in
  let new_path := moved_path old_prefix new_prefix x.1 in
  if is_deleted x.2 then remove_locked t new_path
  else set_delta t (<[new_path := x.2]> (delta_ t)).

Definition rename_dir (t : WorkingTree) (old_prefix new_prefix : str) : WorkingTree :=
  fold_left (rename_step old_prefix new_prefix) (entries (rename_collect t old_prefix)) t.

(** The sequence of calls [fn(path, entry)] of the two-pointer walk. *)
Fixpoint merge_layers {V} (b : list (str * V)) : list (str * V) -> list (str * V) :=
  fix go (d : list (str * V)) : list (str * V) :=
    match b, d with
    | [], [] => []
    | [], x :: d' => x :: go d'
    | y :: b', [] => y :: merge_layers b' []
    | y :: b', x :: d' =>
        if str_ltb x.1 y.1 then x :: go d'
        else if str_ltb y.1 x.1 then y :: merge_layers b' d
        else x :: merge_layers b' d'
    end.

Definition merged_for_each_locked (t : WorkingTree) : list (str * WorkingTreeEntry) :=
  merge_layers (entries (default ∅ (base_ t))) (entries (delta_ t)).

Definition list_dir_emit (prefix : str) (x : str * WorkingTreeEntry) :
    list (str * WorkingTreeEntry) :=
  if is_deleted x.2 then []
  else match find_char slash (drop (length prefix) x.1) with
       | Some _ => []
       | None => [x]
       end.

Fixpoint list_dir_loop (prefix : str) (b : list (str * WorkingTreeEntry)) :
    list (str * WorkingTreeEntry) -> list (str * WorkingTreeEntry) :=
  fix go (d : list (str * WorkingTreeEntry)) : list (str * WorkingTreeEntry) :=
    match b, d with
    | [], [] => []
    | [], x :: d' =>
        if has_prefix prefix x.1 then list_dir_emit prefix x ++ go d' else []
    | y :: b', [] =>
        if has_prefix prefix y.1 then list_dir_emit prefix y ++ list_dir_loop prefix b' []
        else []
    | y :: b', x :: d' =>
        let d_ok := has_prefix prefix x.1 in
        let b_ok := has_prefix prefix y.1 in
        if negb d_ok && negb b_ok then []
        else if d_ok && (negb b_ok || str_ltb x.1 y.1) then
          list_dir_emit prefix x ++ go d'
        else if b_ok && (negb d_ok || str_ltb y.1 x.1) then
          list_dir_emit prefix y ++ list_dir_loop prefix b' d
        else list_dir_emit prefix x ++ list_dir_loop prefix b' d'
    end.

Definition list_dir (t : WorkingTree) (dir_path : str) : list (str * WorkingTreeEntry) :=
  let prefix := with_slash dir_path in
  list_dir_loop prefix
    (lower_bound prefix (entries (default ∅ (base_ t))))
    (lower_bound prefix (entries (delta_ t))).

Definition wt_clear (t : WorkingTree) : WorkingTree := mkWT None ∅ ∅ false.

Definition for_each (t : WorkingTree) : list (str * WorkingTreeEntry) :=
  filter (fun x => is_deleted x.2 = false) (merged_for_each_locked t).

Definition for_each_including_deleted (t : WorkingTree) : list (str * WorkingTreeEntry) :=
  merged_for_each_locked t.

Definition wt_size (t : WorkingTree) : nat := length (for_each t).

Definition clone (t : WorkingTree) : WorkingTree :=
  mkWT (base_ t) (delta_ t) (source_origin_paths_ t) (base_authoritative_ t).

Definition set_base (t : WorkingTree) (m : EntryMap) : WorkingTree :=
  mkWT (Some m) ∅ ∅ true.

Definition fold_into_base (t : WorkingTree) : WorkingTree :=
  let merged := match base_ t with
                | Some b => if decide (b = ∅) then delta_ t
                            else insert_all (entries (delta_ t)) b
                | None => delta_ t
                end in
  mkWT (Some merged) ∅ ∅ true.

Definition begin_source_walk (t : WorkingTree) : WorkingTree :=
  mkWT (base_ t) (delta_ t) (source_origin_paths_ t) false.

Definition count_deleted (m : EntryMap) : nat :=
  length (filter (fun x => is_deleted x.2 = true) (entries m)).

(** [use_count] is the reference count of the shared base, a fact about the
    other trees of the process. *)
Definition memory_stats (use_count : Z) (t : WorkingTree) : WorkingTreeMemoryStats :=
  mkStats
    (match base_ t with Some b => size b | None => 0%nat end)
    (match base_ t with Some _ => use_count | None => 0%Z end)
    (size (delta_ t))
    (count_deleted (delta_ t)).

(** ** Views

    [raw] is the merged map, whiteouts included; [live] what a lookup sees. *)
Definition raw (t : WorkingTree) : EntryMap := delta_ t ∪ default ∅ (base_ t).

Definition live_of (m : EntryMap) : EntryMap := filter (fun x => is_deleted x.2 = false) m.

Definition live (t : WorkingTree) : EntryMap := live_of (raw t).

(** A live direct child of the directory whose path with separator is [p]. *)
Definition direct_child (p : str) (x : str * WorkingTreeEntry) : Prop :=
  is_deleted x.2 = false /\ has_prefix p x.1 = true /\ slash ∉ drop (length p) x.1.

#[global] Instance direct_child_dec p x : Decision (direct_child p x).
Proof. unfold direct_child. apply _. Defined.

(** The paths [rename_dir] moves. *)
Definition under (old_prefix path : str) : bool :=
  bool_decide (path = old_prefix) || has_prefix (with_slash old_prefix) path.

Definition dir_path (p : str) : Prop := p <> [] /\ last p <> Some slash.

(** The contract on live maps. Renaming a path that is not live either does
    nothing or, when the path carries a whiteout, removes the destination;
    so does a path of a renamed directory. *)
Module Spec.

Inductive op : Type :=
| OInsert (p : str) (e : WorkingTreeEntry)
| OInsertSource (p : str) (e : WorkingTreeEntry)
| ORemove (p : str)
| ORename (o n : str)
| ORenameDir (o n : str)
| OClear
| OClone
| OSetBase (m : EntryMap)
| OFold
| OBeginWalk.

Definition put (p : str) (e : WorkingTreeEntry) (s : EntryMap) : EntryMap :=
  if is_deleted e then delete p s else <[p := e]> s.

Inductive step : EntryMap -> op -> EntryMap -> Prop :=
| SInsert s p e : step s (OInsert p e) (put p e s)
| SInsertSource s p e : step s (OInsertSource p e) (put p e s)
| SRemove s p : step s (ORemove p) (delete p s)
| SRename s o n e : s !! o = Some e -> step s (ORename o n) (<[n := e]> (delete o s))
| SRenameAbsent s o n : s !! o = None -> step s (ORename o n) s
| SRenameWhiteout s o n : s !! o = None -> step s (ORename o n) (delete n s)
| SRenameDir s o n s' :
    (forall p, under o p = true -> s' !! p = None) ->
    (forall p, under n p = true ->
       match s !! (o ++ drop (length n) p) with
       | Some e => s' !! p = Some e
       | None => s' !! p = s !! p \/ s' !! p = None
       end) ->
    (forall p, under o p = false -> under n p = false -> s' !! p = s !! p) ->
    step s (ORenameDir o n) s'
| SClear s : step s OClear ∅
| SClone s : step s OClone s
| SSetBase s m : step s (OSetBase m) (live_of m)
| SFold s : step s OFold s
| SBeginWalk s : step s OBeginWalk s.

End Spec.

Definition exec (t : WorkingTree) (o : Spec.op) : WorkingTree :=
  match o with
  | Spec.OInsert p e => wt_insert t p e
  | Spec.OInsertSource p e => insert_source t p e
  | Spec.ORemove p => wt_remove t p
  | Spec.ORename o n => rename_entry t o n
  | Spec.ORenameDir o n => rename_dir t o n
  | Spec.OClear => wt_clear t
  | Spec.OClone => clone t
  | Spec.OSetBase m => set_base t m
  | Spec.OFold => fold_into_base t
  | Spec.OBeginWalk => begin_source_walk t
  end.

(** A directory is renamed to a place neither inside nor above it. *)
Definition op_ok (o : Spec.op) : Prop :=
  match o with
  | Spec.ORenameDir o n => dir_path o /\ dir_path n /\ under o n = false /\ under n o = false
  | _ => True
  end.

(** A direct child of the directory [d]. *)
Definition child_of (d : str) (x : str * WorkingTreeEntry) : Prop :=
  has_prefix (with_slash d) x.1 = true /\ slash ∉ drop (length (with_slash d)) x.1.

#[global] Instance child_of_dec d x : Decision (child_of d x).
Proof. unfold child_of. apply _. Defined.

(** What the queries of a tree show is the map [m]: lookups, the raw lookup up
    to whiteouts, the walk and the listing of a directory in key order, the
    number of entries. *)
Definition shows (t : WorkingTree) (m : EntryMap) : Prop :=
  (forall p, wt_lookup t p = m !! p) /\
  (forall p, m !! p = match lookup_raw t p with
                      | Some e => if is_deleted e then None else Some e
                      | None => None
                      end) /\
  for_each t = entries m /\ wt_size t = size m /\
  (forall d, list_dir t d = filter (child_of d) (entries m)).

(** Runs, with the set of paths seen in the live source directory since the
    tree was last replaced by a snapshot. *)
Definition track (S : gset str) (o : Spec.op) : gset str :=
  match o with
  | Spec.OInsertSource p _ => {[p]} ∪ S
  | Spec.OClear | Spec.OSetBase _ => ∅
  | _ => S
  end.

Inductive reach : gset str -> WorkingTree -> Prop :=
| reach_empty : reach ∅ empty_tree
| reach_step S t o : reach S t -> reach (track S o) (exec t o).

(** ** Lookups and views *)

Lemma base_lookup t p : base_ t ≫= lookup p = default ∅ (base_ t) !! p.
Proof. destruct (base_ t); simpl; [done|]. by rewrite lookup_empty. Qed.

Lemma lookup_raw_locked_raw t p : lookup_raw_locked t p = raw t !! p.
Proof.
  unfold lookup_raw_locked, raw. rewrite base_lookup. case_decide as Hd.
  - by rewrite Hd, map_empty_union.
  - rewrite lookup_union. by destruct (delta_ t !! p), (default ∅ (base_ t) !! p).
Qed.

Lemma lookup_live_of m p :
  live_of m !! p =
  match m !! p with Some e => if is_deleted e then None else Some e | None => None end.
Proof.
  unfold live_of. rewrite map_lookup_filter. destruct (m !! p) as [e|]; simpl; [|done].
  unfold guard. case_decide as H; simpl in *.
  - by rewrite H.
  - by destruct (is_deleted e).
Qed.

Lemma wt_lookup_live t p : wt_lookup t p = live t !! p.
Proof. unfold wt_lookup, live. by rewrite lookup_live_of, lookup_raw_locked_raw. Qed.

Lemma live_of_insert m p e : live_of (<[p := e]> m) = Spec.put p e (live_of m).
Proof.
  apply map_eq. intros q. rewrite lookup_live_of. unfold Spec.put.
  destruct (decide (p = q)) as [->|Hne].
  - rewrite lookup_insert_eq. destruct (is_deleted e).
    + by rewrite lookup_delete_eq.
    + by rewrite lookup_insert_eq.
  - rewrite lookup_insert_ne by done. destruct (is_deleted e).
    + by rewrite lookup_delete_ne, lookup_live_of by done.
    + by rewrite lookup_insert_ne, lookup_live_of by done.
Qed.

Lemma raw_insert t p e :
  raw (set_delta t (<[p := e]> (delta_ t))) = <[p := e]> (raw t).
Proof. unfold raw. simpl. by rewrite insert_union_l. Qed.

Lemma live_set t p e :
  live (set_delta t (<[p := e]> (delta_ t))) = Spec.put p e (live t).
Proof. unfold live. by rewrite raw_insert, live_of_insert. Qed.

Lemma live_insert t p e : live (wt_insert t p e) = Spec.put p e (live t).
Proof. apply live_set. Qed.

Lemma live_insert_source t p e : live (insert_source t p e) = Spec.put p e (live t).
Proof. rewrite <- live_set. done. Qed.

(** Either branch of [remove_locked] hides the path and nothing else. *)
Lemma live_remove t p : live (remove_locked t p) = delete p (live t).
Proof.
  unfold remove_locked. destruct (base_authoritative_ t && _ && _) eqn:E.
  - rewrite !andb_true_iff in E. destruct E as [[_ Hb] _]. apply negb_true_iff in Hb.
    apply map_eq. intros q. unfold live. rewrite lookup_live_of.
    unfold raw. simpl. rewrite lookup_union.
    destruct (decide (p = q)) as [->|Hne].
    + rewrite !lookup_delete_eq, (left_id None _). unfold in_base in Hb.
      rewrite base_lookup in Hb. destruct (default ∅ (base_ t) !! q) as [e|]; [|done].
      apply negb_false_iff in Hb. by rewrite Hb.
    + rewrite !lookup_delete_ne, lookup_live_of, lookup_union by done. done.
  - by rewrite live_set.
Qed.

Lemma remove_locked_frame t p :
  base_ (remove_locked t p) = base_ t /\
  source_origin_paths_ (remove_locked t p) = source_origin_paths_ t /\
  base_authoritative_ (remove_locked t p) = base_authoritative_ t.
Proof. unfold remove_locked. by case_match. Qed.

(** What [remove] leaves behind: a whiteout while lookup misses still fall
    through to the source directory, and afterwards only for the paths the base
    or the source directory still has. *)
Lemma raw_remove_at t p :
  raw (remove_locked t p) !! p =
  if base_authoritative_ t && negb (in_base t p) && bool_decide (p ∉ source_origin_paths_ t)
  then base_ t ≫= lookup p else Some whiteout.
Proof.
  unfold remove_locked, raw. rewrite base_lookup. case_match; simpl; rewrite lookup_union.
  - by rewrite lookup_delete_eq, (left_id None _).
  - rewrite lookup_insert_eq. by destruct (default ∅ (base_ t) !! p).
Qed.

Lemma raw_remove_ne t p q : p <> q -> raw (remove_locked t p) !! q = raw t !! q.
Proof.
  intros H. unfold remove_locked, raw. case_match; simpl; rewrite !lookup_union.
  - by rewrite lookup_delete_ne.
  - by rewrite lookup_insert_ne.
Qed.

#[export] Hint Rewrite lookup_raw_locked_raw wt_lookup_live live_insert
  live_insert_source live_remove live_set : ctx.

(** ** Ordered walks *)

Lemma elem_of_insert_all {V} (l : list (str * V)) m k :
  NoDup l.*1 ->
  insert_all l m !! k =
  match (list_to_map l : gmap str V) !! k with Some v => Some v | None => m !! k end.
Proof.
  revert m. induction l as [|[k' v'] l IH]; intros m Hnd; simpl.
  - by rewrite lookup_empty.
  - rewrite fmap_cons in Hnd. apply NoDup_cons in Hnd as [Hx Hnd].
    rewrite (IH _ Hnd). destruct (decide (k' = k)) as [->|Hne].
    + rewrite lookup_insert_eq.
      rewrite (not_elem_of_list_to_map_1 l k) by done. by rewrite lookup_insert_eq.
    + by rewrite !lookup_insert_ne by done.
Qed.

Lemma list_to_map_entries {V} (m : gmap str V) : list_to_map (entries m) = m.
Proof.
  rewrite (list_to_map_proper (entries m) (map_to_list m)).
  - apply list_to_map_to_list.
  - apply entries_keys_NoDup.
  - apply entries_perm.
Qed.

Lemma insert_all_entries {V} (m b : gmap str V) : insert_all (entries m) b = m ∪ b.
Proof.
  apply map_eq. intros k.
  rewrite elem_of_insert_all, list_to_map_entries, lookup_union by apply entries_keys_NoDup.
  by destruct (m !! k), (b !! k).
Qed.

Lemma merge_layers_nil_l {V} (d : list (str * V)) : merge_layers [] d = d.
Proof. induction d as [|x d IH]; simpl; [done|]. simpl in IH. by rewrite IH. Qed.

Lemma merge_layers_nil_r {V} (b : list (str * V)) : merge_layers b [] = b.
Proof. induction b as [|x b IH]; simpl; [done|]. by rewrite IH. Qed.

Lemma ksorted_head_lt {V} (x : str * V) l k v :
  ksorted (x :: l) -> (k, v) ∈ l -> str_ltb x.1 k = true.
Proof. intros [HF _]%ksorted_cons Hin. rewrite Forall_forall in HF. apply (HF _ Hin). Qed.

(** Membership and order of the two-pointer merge. *)
Lemma elem_of_merge_layers {V} (b d : list (str * V)) k v :
  ksorted b -> ksorted d ->
  (k, v) ∈ merge_layers b d <-> (k, v) ∈ d \/ ((k, v) ∈ b /\ k ∉ d.*1).
Proof.
  revert d. induction b as [|y b IHb]; intros d Hb Hd.
  { rewrite merge_layers_nil_l. set_solver. }
  induction d as [|x d IHd].
  { rewrite merge_layers_nil_r. set_solver. }
  pose proof (proj2 (proj1 (ksorted_cons _ _) Hb)) as Hb'.
  pose proof (proj2 (proj1 (ksorted_cons _ _) Hd)) as Hd'.
  assert (forall z, z ∈ b.*1 -> str_ltb y.1 z = true) as By.
  { intros z ([z' w] & -> & Hz)%list_elem_of_fmap. by eapply ksorted_head_lt. }
  assert (forall z, z ∈ d.*1 -> str_ltb x.1 z = true) as Dx.
  { intros z ([z' w] & -> & Hz)%list_elem_of_fmap. by eapply ksorted_head_lt. }
  assert (forall w, (k, w) ∈ b -> k ∈ b.*1) as Bk by (intros w Hw; by apply (list_elem_of_fmap_2 fst) in Hw).
  cbn [merge_layers].
  destruct (str_ltb x.1 y.1) eqn:E1; [|destruct (str_ltb y.1 x.1) eqn:E2].
  - change ((k, v) ∈ x :: merge_layers (y :: b) d <-> (k, v) ∈ x :: d \/ ((k, v) ∈ y :: b /\ k ∉ (x :: d).*1)).
    rewrite elem_of_cons, (IHd Hd'), fmap_cons, not_elem_of_cons, (elem_of_cons d).
    assert ((k, v) ∈ y :: b -> k <> x.1) as Hne; [|naive_solver].
    intros [<-|Hin]%elem_of_cons ->; [by rewrite str_ltb_irrefl in E1|].
    apply Bk, By in Hin. apply str_lt_asym in Hin. by rewrite E1 in Hin.
  - rewrite elem_of_cons, (IHb (x :: d) Hb' Hd), fmap_cons, not_elem_of_cons, (elem_of_cons b).
    assert (y = (k, v) -> k <> x.1 /\ k ∉ d.*1) as Hne; [|naive_solver].
    intros ->. simpl in *. split; [by apply str_lt_ne|]. intros Hin%Dx.
    pose proof (str_ltb_trans _ _ _ E2 Hin) as C. by rewrite str_ltb_irrefl in C.
  - pose proof (str_ltb_total _ _ E1 E2) as Heq.
    rewrite elem_of_cons, (IHb d Hb' Hd'), fmap_cons, not_elem_of_cons, (elem_of_cons d), (elem_of_cons b).
    assert ((k, v) ∈ b -> k <> x.1) as Hne; [|rewrite Heq in *; destruct y; simpl in *; naive_solver].
    intros Hin%Bk%By ->. rewrite <- Heq in Hin. by rewrite str_ltb_irrefl in Hin.
Qed.

Lemma ksorted_merge_layers {V} (b d : list (str * V)) :
  ksorted b -> ksorted d -> ksorted (merge_layers b d).
Proof.
  revert d. induction b as [|y b IHb]; intros d Hb Hd.
  { by rewrite merge_layers_nil_l. }
  induction d as [|x d IHd].
  { by rewrite merge_layers_nil_r. }
  pose proof (proj1 (ksorted_cons _ _) Hb) as [Fb Hb'].
  pose proof (proj1 (ksorted_cons _ _) Hd) as [Fd Hd'].
  rewrite Forall_forall in Fb, Fd.
  cbn [merge_layers].
  destruct (str_ltb x.1 y.1) eqn:E1; [|destruct (str_ltb y.1 x.1) eqn:E2];
    apply ksorted_cons; (split; [|by auto]); apply Forall_forall; intros [k v] Hin.
  - apply (elem_of_merge_layers (y :: b) d) in Hin as [Hin|[[->|Hin]%elem_of_cons _]]; [by apply Fd|done| |done|done].
    apply Fb in Hin. unfold key_lt in *. by transitivity y.1.
  - apply (elem_of_merge_layers b (x :: d)) in Hin as [[->|Hin]%elem_of_cons|[Hin _]]; [done| |by apply Fb|done|done].
    apply Fd in Hin. unfold key_lt in *. by transitivity x.1.
  - pose proof (str_ltb_total _ _ E1 E2) as Heq.
    apply (elem_of_merge_layers b d) in Hin as [Hin|[Hin _]]; [by apply Fd| |done|done].
    apply Fb in Hin. unfold key_lt in *. by rewrite Heq.
Qed.

Lemma merge_layers_entries {V} (b d : gmap str V) :
  merge_layers (entries b) (entries d) = entries (d ∪ b).
Proof.
  apply entries_unique; [by apply ksorted_merge_layers; apply entries_sorted|].
  intros k v. rewrite elem_of_merge_layers by apply entries_sorted.
  rewrite !elem_of_entries, lookup_union_Some_raw.
  assert (k ∉ (entries d).*1 <-> d !! k = None) as Hk; [|naive_solver].
  by rewrite (not_elem_of_list_to_map (M:=gmap str)), list_to_map_entries.
Qed.

Lemma merged_for_each_raw t : merged_for_each_locked t = entries (raw t).
Proof. apply merge_layers_entries. Qed.

(** ** Prefix ranges *)

Lemma has_prefix_not_lt p k : has_prefix p k = true -> str_ltb k p = false.
Proof.
  revert k. induction p as [|x p IH]; intros [|y k]; simpl; try done.
  rewrite andb_true_iff, bool_decide_eq_true. intros [-> H].
  rewrite N.ltb_irrefl. by apply IH.
Qed.

(** The keys with a given prefix are contiguous from its lower bound on. *)
Lemma has_prefix_convex p k k' :
  str_ltb k p = false -> has_prefix p k = false -> str_ltb k k' = true ->
  has_prefix p k' = false.
Proof.
  revert k k'. induction p as [|x p IH]; intros [|y k] [|z k']; simpl; try done.
  destruct (N.ltb_spec (N_of_ascii y) (N_of_ascii x)); [done|].
  destruct (N.ltb_spec (N_of_ascii x) (N_of_ascii y)).
  - intros _ _. destruct (N.ltb_spec (N_of_ascii y) (N_of_ascii z)).
    + intros _. rewrite bool_decide_eq_false_2; [done|]. intros <-. lia.
    + destruct (N.ltb_spec (N_of_ascii z) (N_of_ascii y)); [done|]. intros _.
      rewrite bool_decide_eq_false_2; [done|]. intros <-. lia.
  - assert (x = y) as -> by (apply N_of_ascii_inj; lia). intros Hl Hp.
    rewrite bool_decide_eq_true_2 in Hp by done. simpl in Hp.
    destruct (N.ltb_spec (N_of_ascii y) (N_of_ascii z)).
    + intros _. rewrite bool_decide_eq_false_2; [done|]. intros <-. lia.
    + destruct (N.ltb_spec (N_of_ascii z) (N_of_ascii y)); [done|]. intros Hk.
      destruct (decide (y = z)) as [->|]; [|by rewrite bool_decide_eq_false_2].
      rewrite bool_decide_eq_true_2 by done. simpl. eauto.
Qed.

Lemma scan_prefix_filter {V} (p : str) (l : list (str * V)) :
  ksorted l -> Forall (fun x => str_ltb x.1 p = false) l ->
  scan_prefix p l = filter (fun x => has_prefix p x.1 = true) l.
Proof.
  induction l as [|x l IH]; [done|]. intros [HF Hs]%ksorted_cons Hge.
  apply Forall_cons in Hge as [Hx Hge]. simpl. rewrite filter_cons.
  destruct (has_prefix p x.1) eqn:E.
  - rewrite decide_True by done. by rewrite IH.
  - rewrite decide_False by done. clear IH. induction l as [|y l IH]; [done|].
    apply Forall_cons in HF as [Hy HF]. apply Forall_cons in Hge as [_ Hge].
    apply ksorted_cons in Hs as [_ Hs]. rewrite filter_cons.
    rewrite (has_prefix_convex p x.1 y.1) by done. rewrite decide_False by done. auto.
Qed.

Lemma prefix_range_filter {V} (p : str) (m : gmap str V) :
  prefix_range p m = filter (fun x => has_prefix p x.1 = true) (entries m).
Proof.
  unfold prefix_range. pose proof (entries_sorted m) as Hs.
  induction (entries m) as [|x l IH]; [done|]. simpl.
  pose proof (proj1 (ksorted_cons _ _) Hs) as [HF Hs'].
  destruct (str_ltb x.1 p) eqn:E.
  - rewrite filter_cons, IH by done. destruct (has_prefix p x.1) eqn:Hp.
    + apply has_prefix_not_lt in Hp. congruence.
    + by rewrite decide_False.
  - apply scan_prefix_filter; [done|]. apply Forall_cons. split; [done|].
    rewrite Forall_forall in *. intros y Hy. specialize (HF y Hy). unfold key_lt in HF.
    destruct (str_ltb y.1 p) eqn:E'; [|done].
    pose proof (str_ltb_trans _ _ _ HF E'). congruence.
Qed.

Lemma filter_entries {V} (P : str * V -> Prop) `{forall x, Decision (P x)} (m : gmap str V) :
  filter P (entries m) = entries (filter P m).
Proof.
  apply entries_unique; [apply ksorted_filter, entries_sorted|].
  intros k v. rewrite list_elem_of_filter, elem_of_entries, map_lookup_filter_Some. tauto.
Qed.

Lemma filter_key_union {V} (f : str -> bool) (a b : gmap str V) :
  filter (fun x => f x.1 = true) a ∪ filter (fun x => f x.1 = true) b =
  filter (fun x => f x.1 = true) (a ∪ b).
Proof.
  apply map_eq. intros k. apply option_eq. intros v.
  rewrite lookup_union_Some_raw, !map_lookup_filter_Some, map_lookup_filter_None,
    lookup_union_Some_raw. simpl.
  destruct (a !! k); naive_solver.
Qed.

(** ** Directory listings *)

Lemma list_dir_loop_cons p y b x d :
  list_dir_loop p (y :: b) (x :: d) =
  let d_ok := has_prefix p x.1 in
  let b_ok := has_prefix p y.1 in
  if negb d_ok && negb b_ok then []
  else if d_ok && (negb b_ok || str_ltb x.1 y.1) then
    list_dir_emit p x ++ list_dir_loop p (y :: b) d
  else if b_ok && (negb d_ok || str_ltb y.1 x.1) then
    list_dir_emit p y ++ list_dir_loop p b (x :: d)
  else list_dir_emit p x ++ list_dir_loop p b d.
Proof. reflexivity. Qed.

Lemma merge_layers_cons {V} (y : str * V) b x d :
  merge_layers (y :: b) (x :: d) =
  if str_ltb x.1 y.1 then x :: merge_layers (y :: b) d
  else if str_ltb y.1 x.1 then y :: merge_layers b (x :: d)
  else x :: merge_layers b d.
Proof. reflexivity. Qed.

Lemma list_dir_loop_merge p b d :
  list_dir_loop p b d =
  mjoin (list_dir_emit p <$> merge_layers (scan_prefix p b) (scan_prefix p d)).
Proof.
  revert d. induction b as [|y b IHb]; intros d.
  - simpl scan_prefix. rewrite merge_layers_nil_l.
    induction d as [|x d IHd]; [done|]. simpl. destruct (has_prefix p x.1); [|done].
    simpl in IHd. by rewrite IHd.
  - induction d as [|x d IHd].
    + simpl. rewrite IHb. destruct (has_prefix p y.1); [|done]. simpl.
      by rewrite merge_layers_nil_r.
    + rewrite list_dir_loop_cons, IHd, !IHb. clear IHd IHb. simpl scan_prefix.
      destruct (has_prefix p x.1), (has_prefix p y.1); cbn [negb andb orb]; cbv zeta iota; try done.
      rewrite merge_layers_cons. by destruct (str_ltb x.1 y.1), (str_ltb y.1 x.1).
Qed.

Lemma list_dir_emit_filter p (l : list (str * WorkingTreeEntry)) :
  mjoin (list_dir_emit p <$> filter (fun x => has_prefix p x.1 = true) l) =
  filter (direct_child p) l.
Proof.
  induction l as [|x l IH]; [done|]. rewrite !filter_cons.
  destruct (decide (has_prefix p x.1 = true)) as [Hp|Hp].
  - rewrite fmap_cons. change (mjoin (?a :: ?b)) with (a ++ mjoin b). rewrite IH.
    unfold list_dir_emit.
    destruct (decide (direct_child p x)) as [(Hd & _ & Hs)|Hn].
    + apply find_char_None in Hs. by rewrite Hd, Hs.
    + destruct (is_deleted x.2) eqn:Ed; [done|].
      destruct (find_char slash (drop (length p) x.1)) eqn:E; [done|].
      apply find_char_None in E. by destruct Hn.
  - rewrite (decide_False (P := direct_child p x)) by (by intros (_ & ? & _)). apply IH.
Qed.

Lemma list_dir_entries t d :
  list_dir t d = filter (direct_child (with_slash d)) (entries (raw t)).
Proof.
  unfold list_dir. rewrite list_dir_loop_merge.
  fold (prefix_range (with_slash d) (default ∅ (base_ t))).
  fold (prefix_range (with_slash d) (delta_ t)).
  rewrite !prefix_range_filter, !filter_entries, merge_layers_entries.
  rewrite (filter_key_union (has_prefix (with_slash d))), <- !filter_entries.
  apply list_dir_emit_filter.
Qed.

(** ** Renaming a directory *)

Lemma with_slash_dir p : dir_path p -> with_slash p = p ++ [slash].
Proof. intros H. unfold with_slash. by rewrite bool_decide_eq_true_2. Qed.

Lemma under_spec o k :
  dir_path o -> under o k = true <-> k = o \/ exists r, k = o ++ slash :: r.
Proof.
  intros Ho. unfold under. rewrite with_slash_dir by done.
  rewrite orb_true_iff, bool_decide_eq_true, has_prefix_spec. split.
  - intros [->|[r ->]]; [by left|]. right. exists r. by rewrite <- app_assoc.
  - intros [->|[r ->]]; [by left|]. right. exists r. by rewrite <- app_assoc.
Qed.

Lemma under_app o k : dir_path o -> under o k = true -> k = o ++ drop (length o) k.
Proof.
  intros Ho [->|[r ->]]%under_spec; [|by rewrite drop_app_length|done].
  by rewrite drop_all, app_nil_r.
Qed.

Lemma under_swap o n k :
  dir_path o -> dir_path n -> under o k = true -> under n (n ++ drop (length o) k) = true.
Proof.
  intros Ho Hn [->|[r ->]]%under_spec; [|rewrite drop_app_length|done]; apply under_spec; try done.
  - left. by rewrite drop_all, app_nil_r.
  - eauto.
Qed.

(** Two directories that contain the same path are nested. *)
Lemma under_nested o n k :
  dir_path o -> dir_path n -> under o k = true -> under n k = true ->
  under o n = true \/ under n o = true.
Proof.
  intros Ho Hn Hok Hnk.
  assert (forall a b : str, forall r s, dir_path a -> dir_path b ->
    a ++ slash :: r = b ++ slash :: s -> (length a <= length b)%nat -> under a b = true) as Hlem.
  { intros a b r s Ha Hb He Hle. apply under_spec; [done|].
    apply app_eq_inv in He as [(k' & -> & Hk)|(k' & -> & Hk)].
    - destruct k' as [|c k']; simpl in Hk; simplify_eq; [left; by rewrite app_nil_r|].
      rewrite length_app in Hle. simpl in Hle. lia.
    - destruct k' as [|c k']; simpl in Hk; simplify_eq; [left; by rewrite app_nil_r|eauto]. }
  apply under_spec in Hok as [->|[r ->]]; [by right| |done].
  apply under_spec in Hnk as [<-|[s Hs]]; [left; apply under_spec; eauto| |done].
  destruct (decide (length o <= length n)%nat).
  - left. by eapply Hlem.
  - right. eapply Hlem; [done..|by symmetry|lia].
Qed.

Lemma rename_collect_lookup t o k :
  rename_collect t o !! k = if under o k then raw t !! k else None.
Proof.
  unfold rename_collect.
  assert (insert_all (prefix_range (with_slash o) (delta_ t))
            match base_ t with
            | Some b => insert_all (prefix_range (with_slash o) b) ∅
            | None => ∅
            end = filter (fun x => has_prefix (with_slash o) x.1 = true) (raw t)) as ->.
  { rewrite prefix_range_filter, filter_entries, insert_all_entries.
    unfold raw. rewrite <- (filter_key_union (has_prefix (with_slash o))). f_equal.
    destruct (base_ t) as [b|]; simpl; [|by rewrite map_filter_empty].
    by rewrite prefix_range_filter, filter_entries, insert_all_entries, (right_id_L ∅ (∪)). }
  rewrite lookup_raw_locked_raw. unfold under.
  assert (filter (λ x, has_prefix (with_slash o) x.1 = true) (raw t) !! k =
          if has_prefix (with_slash o) k then raw t !! k else None) as Hf.
  { rewrite map_lookup_filter. destruct (raw t !! k); simpl; [|by case_match].
    unfold guard. case_decide; by case_match. }
  destruct (decide (o = k)) as [->|Hne].
  - rewrite bool_decide_eq_true_2 by done. simpl.
    destruct (raw t !! k) eqn:E; [by rewrite lookup_insert_eq|]. rewrite Hf, ?E. by case_match.
  - rewrite bool_decide_eq_false_2 by done. simpl. rewrite <- Hf.
    destruct (raw t !! o); [by rewrite lookup_insert_ne|done].
Qed.

Lemma live_rename_step o n t k e :
  live (rename_step o n t (k, e)) = Spec.put (moved_path o n k) e (delete k (live t)).
Proof.
  unfold rename_step. simpl. unfold Spec.put. destruct (is_deleted e) eqn:E.
  - by rewrite !live_remove.
  - rewrite live_set, live_remove. unfold Spec.put. by rewrite E.
Qed.

Lemma lookup_put m p e q :
  Spec.put p e m !! q =
  if decide (p = q) then (if is_deleted e then None else Some e) else m !! q.
Proof.
  unfold Spec.put. case_decide; subst; destruct (is_deleted e);
    by rewrite ?lookup_delete_eq, ?lookup_insert_eq, ?lookup_delete_ne, ?lookup_insert_ne.
Qed.

(** The effect of a batch of moves whose destinations are distinct and are not
    themselves moved. *)
Lemma live_rename_fold o n l t p :
  NoDup l.*1 ->
  (forall k, k ∈ l.*1 -> moved_path o n k ∉ l.*1) ->
  (forall k k', k ∈ l.*1 -> k' ∈ l.*1 -> moved_path o n k = moved_path o n k' -> k = k') ->
  (forall k e, (k, e) ∈ l -> p = moved_path o n k ->
     live (fold_left (rename_step o n) l t) !! p = if is_deleted e then None else Some e) /\
  ((forall k, k ∈ l.*1 -> p <> moved_path o n k) ->
     live (fold_left (rename_step o n) l t) !! p =
     if decide (p ∈ l.*1) then None else live t !! p).
Proof.
  revert t. induction l as [|[k e] l IH]; intros t Hnd Hdis Hinj.
  { split; [intros k e Hin; by apply not_elem_of_nil in Hin|]. intros _.
    rewrite decide_False; [done|]. apply not_elem_of_nil. }
  cbn [fold_left]. rewrite fmap_cons in *. cbn [fst] in *. rewrite NoDup_cons in Hnd. destruct Hnd as [Hk Hnd].
  destruct (IH (rename_step o n t (k, e))) as [IH1 IH2]; clear IH; [done| | |].
  { intros k' Hk' Hm. by apply (Hdis k'); right. }
  { intros k1 k2 H1 H2. by apply Hinj; right. }
  rewrite live_rename_step, lookup_put in IH2. split.
  - intros k' e' [[= -> ->]|Hin]%elem_of_cons Hp; [|by eauto].
    assert (forall k', k' ∈ l.*1 -> p <> moved_path o n k') as Hno.
    { intros k' Hk' Hp'. apply Hk. replace k with k'; [done|]. apply Hinj; [by right|by left|congruence]. }
    rewrite (IH2 Hno). subst p.
    rewrite decide_False, decide_True; [done|done|]. intros Hm. apply (Hdis k); [by left|by right].
  - intros Hno. rewrite IH2 by (intros k' Hk'; apply Hno; by right).
    rewrite (decide_False (P := moved_path _ _ _ = _)) by (intros <-; by eapply Hno; [left|]).
    destruct (decide (p = k)) as [->|Hne].
    + rewrite lookup_delete_eq, (decide_True (P := k ∈ k :: _)) by by left. by case_decide.
    + rewrite lookup_delete_ne by done. case_decide as Hd.
      * rewrite decide_True; [done|by right].
      * rewrite decide_False; [done|]. by intros [?|?]%elem_of_cons.
Qed.

Lemma moved_path_under o n k :
  dir_path o -> under o k = true -> moved_path o n k = n ++ drop (length o) k.
Proof.
  intros Ho Hk. unfold moved_path. case_decide as E; [|done]. rewrite E.
  by rewrite drop_all, app_nil_r.
Qed.

Lemma collect_keys t o k :
  k ∈ (entries (rename_collect t o)).*1 <-> under o k = true /\ is_Some (raw t !! k).
Proof.
  rewrite list_elem_of_fmap. split.
  - intros ([k' e] & -> & Hin%elem_of_entries). rewrite rename_collect_lookup in Hin. simpl.
    destruct (under o k'); [|done]. eauto.
  - intros [Hu [e He]]. exists (k, e). split; [done|]. apply elem_of_entries.
    by rewrite rename_collect_lookup, Hu.
Qed.

Lemma live_rename_dir t o n p :
  dir_path o -> dir_path n -> under o n = false -> under n o = false ->
  live (rename_dir t o n) !! p =
  if under o p then None
  else if under n p then
    match raw t !! (o ++ drop (length n) p) with
    | Some e => if is_deleted e then None else Some e
    | None => live t !! p
    end
  else live t !! p.
Proof.
  intros Ho Hn Hon Hno. unfold rename_dir.
  assert (forall k, under o k = true -> under n k = true -> False) as Hex.
  { intros k H1 H2. destruct (under_nested o n k) as [|]; try done; congruence. }
  destruct (live_rename_fold o n (entries (rename_collect t o)) t p) as [H1 H2].
  - apply entries_keys_NoDup.
  - intros k [Hk _]%collect_keys [Hm _]%collect_keys.
    rewrite moved_path_under in Hm by done. eapply Hex; [exact Hm|by apply under_swap].
  - intros k k' [Hk _]%collect_keys [Hk' _]%collect_keys.
    rewrite !moved_path_under by done. intros He%app_inv_head.
    by rewrite (under_app o k), (under_app o k'), He.
  - destruct (under n p) eqn:Enp.
    + destruct (under o p) eqn:Eop; [by edestruct Hex|].
      assert (under o (o ++ drop (length n) p) = true) as Hu by by apply under_swap.
      assert (moved_path o n (o ++ drop (length n) p) = p) as Hm.
      { rewrite moved_path_under, drop_app_length by done. symmetry. by apply under_app. }
      destruct (raw t !! (o ++ drop (length n) p)) as [e|] eqn:Er.
      * eapply H1; [|by symmetry]. apply elem_of_entries.
        by rewrite rename_collect_lookup, Hu.
      * rewrite H2, decide_False; [done| |].
        -- rewrite collect_keys, Eop. naive_solver.
        -- intros k [Hk [e He]]%collect_keys ->. rewrite moved_path_under in Er by done.
           rewrite drop_app_length, <- (under_app o k), He in Er by done. done.
    + rewrite H2.
      * destruct (under o p) eqn:Eop.
        -- case_decide as Hd; [done|]. rewrite collect_keys in Hd. unfold live.
           rewrite lookup_live_of. destruct (raw t !! p); [|done]. naive_solver.
        -- rewrite decide_False; [done|]. rewrite collect_keys, Eop. naive_solver.
      * intros k [Hk _]%collect_keys ->. rewrite moved_path_under in Enp by done.
        by rewrite under_swap in Enp.
Qed.

(** ** A sample tree for the witnesses *)

Definition sample_entry : WorkingTreeEntry := mkEntry Blob ZERO_HASH 420.
Definition sample_tree : WorkingTree :=
  wt_insert (set_base empty_tree
    (<[lit "/a/x" := sample_entry]> (<[lit "/a" := mkEntry Tree ZERO_HASH 493]> ∅)))
    (lit "/a/y") sample_entry.

(** ** The source-path invariant *)

(** Every path still present in the source directory is recorded in the base,
    or in the delta, where [remove] will not erase it. *)
Definition covers (S : gset str) (t : WorkingTree) : Prop :=
  forall p, p ∈ S ->
    p ∈ dom (default ∅ (base_ t)) \/
    (p ∈ dom (delta_ t) /\ (base_authoritative_ t = true -> p ∈ source_origin_paths_ t)).

Lemma covers_insert S t p e :
  covers S t -> covers S (set_delta t (<[p := e]> (delta_ t))).
Proof. intros H q Hq. destruct (H q Hq) as [|[]]; simpl; set_solver. Qed.

Lemma covers_remove S t p : covers S t -> covers S (remove_locked t p).
Proof.
  intros H. unfold remove_locked. case_match eqn:E; [|by apply covers_insert].
  rewrite !andb_true_iff, bool_decide_eq_true in E. destruct E as [[Ha _] Hs].
  intros q Hq. destruct (H q Hq) as [|[Hd Ho]]; simpl; [by left|right].
  split; [|done]. specialize (Ho Ha). set_solver.
Qed.

Lemma covers_fold S t : covers S t -> covers S (fold_into_base t).
Proof.
  intros H q Hq. left. unfold fold_into_base. simpl.
  assert (forall m : EntryMap, q ∈ dom (default ∅ (base_ t)) \/ q ∈ dom (delta_ t)) as Hor.
  { intros _. destruct (H q Hq) as [|[]]; auto. }
  specialize (Hor ∅). destruct (base_ t) as [b|]; simpl in *; [|set_solver].
  case_decide; subst; [set_solver|]. rewrite insert_all_entries. set_solver.
Qed.

Lemma covers_rename_dir S t o n : covers S t -> covers S (rename_dir t o n).
Proof.
  intros IH. unfold rename_dir. revert IH. generalize (rename_collect t o) as m. intros m.
    generalize (entries m) as l. intros l. revert t.
    induction l as [|x l IHl]; intros t IH; [done|]. simpl. apply IHl.
    unfold rename_step.
    case_match; [by do 2 apply covers_remove|by apply covers_insert, covers_remove].
Qed.

Lemma reach_covers S t : reach S t -> covers S t.
Proof.
  induction 1 as [|S t o _ IH].
  - intros p Hp. set_solver.
  - destruct o as [p e|p e|p|o n|o n| | |m| |]; simpl.
    + by apply covers_insert.
    + intros q Hq. destruct (decide (q = p)) as [->|Hne].
      * right. simpl. split; [set_solver|]. intros ->. set_solver.
      * destruct (IH q) as [|[Hd Ho]]; simpl; [set_solver|by left|right].
        split; [set_solver|]. intros Ha. rewrite Ha. set_solver.
    + by apply covers_remove.
    + unfold rename_entry. case_match; [|done].
      case_match; [by do 2 apply covers_remove|by apply covers_insert, covers_remove].
    + by apply covers_rename_dir.
    + intros p Hp. set_solver.
    + done.
    + intros p Hp. set_solver.
    + by apply covers_fold.
    + intros q Hq. destruct (IH q Hq) as [|[? _]]; simpl; [by left|right; split; [done|discriminate]].
Qed.

(** ** Properties *)

Lemma raw_live_entries t : filter (fun x => is_deleted x.2 = false) (entries (raw t)) = entries (live t).
Proof.
  apply entries_unique; [apply ksorted_filter, entries_sorted|]. intros p e.
  rewrite list_elem_of_filter, elem_of_entries. unfold live, live_of.
  rewrite map_lookup_filter_Some. simpl. tauto.
Qed.

Lemma entries_length {V} (m : gmap str V) : length (entries m) = size m.
Proof. unfold entries. rewrite merge_sort_Permutation. by rewrite length_map_to_list. Qed.

Lemma tree_shows_live t : shows t (live t).
Proof.
  split; [intros p; apply wt_lookup_live|]. split.
  { intros p. unfold lookup_raw, live. by rewrite lookup_raw_locked_raw, lookup_live_of. }
  assert (for_each t = entries (live t)) as Hf.
  { unfold for_each. rewrite merged_for_each_raw. apply raw_live_entries. }
  split; [done|]. split; [unfold wt_size; by rewrite Hf, entries_length|].
  intros d. rewrite list_dir_entries, <- raw_live_entries, list_filter_filter.
  apply list_filter_iff. intros x. unfold direct_child, child_of. tauto.
Qed.

(** C35. Every operation of a branch tree refines the finite-map contract (a
    directory being renamed to a path neither inside nor above it): the live
    view of the two layers after the operation is the one the contract gives,
    and every query of the tree shows exactly that view: a lookup, a raw lookup
    once its whiteouts are taken for absent paths, the ordered walk, the number
    of entries, and the listing of each directory. *)
Theorem working_tree_refines t o :
  op_ok o -> Spec.step (live t) o (live (exec t o)) /\ shows (exec t o) (live (exec t o)).
Proof.
  intros Hop. split; [|apply tree_shows_live].
  destruct o as [p e|p e|p|o n|o n| | |m| |]; simpl; autorewrite with ctx.
  - constructor.
  - constructor.
  - constructor.
  - unfold rename_entry. rewrite lookup_raw_locked_raw.
    pose proof (lookup_live_of (raw t) o) as Hl.
    destruct (raw t !! o) as [e|] eqn:E; [|by apply Spec.SRenameAbsent].
    destruct (is_deleted e) eqn:Ed.
    + rewrite !live_remove. fold (live t) in Hl. rewrite (delete_id (live t) o) by done.
      by apply Spec.SRenameWhiteout.
    + rewrite live_set, live_remove. unfold Spec.put. rewrite Ed. by constructor.
  - destruct Hop as (Ho & Hn & Hon & Hno).
    assert (forall p, under o p = true -> under n p = true -> False) as Hex.
    { intros k H1 H2. destruct (under_nested o n k) as [|]; try done; congruence. }
    constructor; intros p; rewrite live_rename_dir by done.
    + by intros ->.
    + intros Hp. rewrite Hp. destruct (under o p) eqn:Eo; [by destruct (Hex p)|].
      unfold live at 1. rewrite lookup_live_of.
      destruct (raw t !! _) as [e|]; [|by left]. destruct (is_deleted e); [by right|done].
    + by intros -> ->.
  - unfold live, raw. simpl. rewrite map_empty_union. constructor.
  - unfold clone. destruct t; constructor.
  - unfold live, raw. simpl. rewrite map_empty_union. constructor.
  - replace (live (fold_into_base t)) with (live t); [constructor|].
    unfold live, raw, fold_into_base. simpl. rewrite map_empty_union. f_equal.
    destruct (base_ t) as [b|]; simpl; [|by rewrite map_union_empty].
    case_decide; subst; [by rewrite map_union_empty|]. by rewrite insert_all_entries.
  - unfold begin_source_walk, live, raw. simpl. constructor.
Qed.

(** The two-pointer walk visits the merged map exactly: in strictly
    ascending key order, each path once, the delta's entry where both layers
    have one. *)
Theorem merged_walk_is_ordered_union t :
  merged_for_each_locked t = entries (raw t) /\
  ksorted (merged_for_each_locked t) /\
  (forall p e, (p, e) ∈ merged_for_each_locked t <-> lookup_raw t p = Some e).
Proof.
  rewrite merged_for_each_raw. split; [done|]. split; [apply entries_sorted|].
  intros p e. rewrite elem_of_entries. unfold lookup_raw. by rewrite lookup_raw_locked_raw.
Qed.

(** [list_dir] returns the live direct children of the directory in key
    order: the two-pointer scan restricted to the prefix ranges of the two
    layers misses none and adds none. *)
Theorem list_dir_lists_live_children t d :
  list_dir t d = filter (direct_child (with_slash d)) (entries (raw t)) /\
  (forall p e, (p, e) ∈ list_dir t d <->
     wt_lookup t p = Some e /\ has_prefix (with_slash d) p = true /\
     slash ∉ drop (length (with_slash d)) p).
Proof.
  split; [apply list_dir_entries|]. intros p e.
  rewrite list_dir_entries, list_elem_of_filter, elem_of_entries, wt_lookup_live.
  unfold live. rewrite lookup_live_of. unfold direct_child. simpl. split.
  - intros [(Hd & Hp & Hs) ->]. rewrite Hd. done.
  - intros (Hl & Hp & Hs). destruct (raw t !! p) as [e'|]; [|done].
    destruct (is_deleted e') eqn:Ed; [done|]. injection Hl as ->. done.
Qed.

(** Renaming a directory moves the whole subtree: afterwards nothing is
    live under the old path, every path under the new one reads what its
    preimage held (a moved whiteout hides it), and all other paths are
    unchanged. *)
Theorem rename_dir_moves_subtree t o n p :
  dir_path o -> dir_path n -> under o n = false -> under n o = false ->
  wt_lookup (rename_dir t o n) p =
  if under o p then None
  else if under n p then
    match lookup_raw t (o ++ drop (length n) p) with
    | Some e => if is_deleted e then None else Some e
    | None => wt_lookup t p
    end
  else wt_lookup t p.
Proof.
  intros Ho Hn Hon Hno. unfold lookup_raw.
  rewrite !wt_lookup_live, lookup_raw_locked_raw. by apply live_rename_dir.
Qed.

(** A path that the live source directory still contains never becomes a
    raw miss, whatever operations follow its discovery: a deleted or renamed
    path is hidden by a whiteout and cannot resurface from the source. *)
Theorem source_paths_never_resurface S t p :
  reach S t -> p ∈ S -> lookup_raw t p <> None.
Proof.
  intros Hr Hp. unfold lookup_raw. rewrite lookup_raw_locked_raw. unfold raw.
  rewrite lookup_union_None, <- !not_elem_of_dom. intros [Hd Hb].
  destruct (reach_covers _ _ Hr p Hp) as [|[]]; done.
Qed.

(** Tombstone hygiene: [remove] hides the path from lookups, touches no
    other path, and leaves a whiteout exactly when a miss could still reach
    live content: before the base is authoritative, or when the base or the
    source directory has the path. *)
Theorem remove_tombstone_hygiene t p :
  wt_lookup (wt_remove t p) p = None /\
  (forall q, q <> p -> lookup_raw (wt_remove t p) q = lookup_raw t q) /\
  lookup_raw (wt_remove t p) p =
    if base_authoritative_ t && negb (in_base t p) && bool_decide (p ∉ source_origin_paths_ t)
    then base_ t ≫= lookup p else Some whiteout.
Proof.
  unfold wt_remove, lookup_raw. rewrite wt_lookup_live, live_remove, lookup_delete_eq.
  split; [done|]. split; [|by rewrite lookup_raw_locked_raw, raw_remove_at].
  intros q Hq. by rewrite !lookup_raw_locked_raw, raw_remove_ne.
Qed.

(** ** Witnesses *)

Definition sample_rename : Spec.op := Spec.ORenameDir (lit "/a") (lit "/b").

Lemma working_tree_refines_witness :
  Spec.step (live sample_tree) sample_rename (live (exec sample_tree sample_rename)) /\
  shows (exec sample_tree sample_rename) (live (exec sample_tree sample_rename)).
Proof.
  apply (working_tree_refines sample_tree sample_rename). split; [|split; [|split]].
  - split; [discriminate|]. vm_compute. discriminate.
  - split; [discriminate|]. vm_compute. discriminate.
  - vm_compute. reflexivity.
  - vm_compute. reflexivity.
Defined.

Lemma rename_dir_moves_subtree_witness :
  wt_lookup (rename_dir sample_tree (lit "/a") (lit "/b")) (lit "/b/x") = Some sample_entry.
Proof.
  rewrite (rename_dir_moves_subtree sample_tree (lit "/a") (lit "/b") (lit "/b/x")).
  - vm_compute. reflexivity.
  - split; [discriminate|]. vm_compute. discriminate.
  - split; [discriminate|]. vm_compute. discriminate.
  - vm_compute. reflexivity.
  - vm_compute. reflexivity.
Defined.

Lemma source_paths_never_resurface_witness :
  lookup_raw (wt_remove (insert_source (fold_into_base empty_tree) (lit "/f") sample_entry)
    (lit "/f")) (lit "/f") <> None.
Proof.
  apply (source_paths_never_resurface
    (track (track (track ∅ Spec.OFold) (Spec.OInsertSource (lit "/f") sample_entry))
       (Spec.ORemove (lit "/f")))
    (exec (exec (exec empty_tree Spec.OFold) (Spec.OInsertSource (lit "/f") sample_entry))
       (Spec.ORemove (lit "/f")))).
  - apply reach_step, reach_step, reach_step, reach_empty.
  - vm_compute. reflexivity.
Defined.
