(* ===== verification/WriteBuffer.v ===== *)
(** The per-handle write buffer (cas/write_buffer.h, cas/write_buffer.cpp): dirty
    runs over an immutable base blob. The file contents a handle shows are the
    abstract state; [write] and [truncate] are compared with [pwrite] and
    [ftruncate] on that list of bytes. *)

From S2P Require Import Prelude Hashes.

Definition WRITE_BUFFER_MAX_BYTES : N := 64 * 1024 * 1024.

(** [std::map<uint64_t, std::vector<uint8_t>>], in key order. *)
Abbreviation overlay := (list (N * bytes)).

Record WriteBuffer : Type := mkWB {
  base_blob_ : Hash;
  base_size_ : N;
  overlay_ : overlay;
  size_override_ : option N;
  dirty_bytes_ : N
}.

(** [vector::size()]. *)
Definition len (d : bytes) : N := N.of_nat (length d).

Definition new_write_buffer (base_blob : Hash) (base_size : N) : WriteBuffer :=
  mkWB base_blob base_size [] None 0.

(** [e->first + e->second.size()]. *)
Definition run_end (r : N * bytes) : N := u64 (r.1 + len r.2).

(** [std::memcpy(buf + at, d, d.size())]. *)
Definition blit (buf : bytes) (at_ : N) (d : bytes) : bytes :=
  take (N.to_nat at_) buf ++ d ++ drop (N.to_nat at_ + length d) buf.

Definition zeros (n : N) : bytes := replicate (N.to_nat n) zero.

(** [overlay_.upper_bound(offset)]: the runs before it and from it on. *)
Fixpoint upper_bound (offset : N) (l : overlay) : overlay * overlay :=
  match l with
  | [] => ([], [])
  | r :: l' =>
      if offset <? r.1 then ([], l)
      else let '(a, b) := upper_bound offset l' in (r :: a, b)
  end.

(** Where the merge starts: one run back unless that run ends before [offset]. *)
Fixpoint step_back (offset : N) (before after : overlay) : overlay * overlay :=
  match before with
  | [] => ([], after)
  | [r] => if run_end r <? offset then ([r], after) else ([], r :: after)
  | r :: before' => let '(a, b) := step_back offset before' after in (r :: a, b)
  end.

(** The erase loop: runs swallowed, runs left, final [merge_end]. *)
Fixpoint collect (merge_end : N) (l : overlay) : overlay * overlay * N :=
  match l with
  | [] => ([], [], merge_end)
  | r :: l' =>
      if merge_end <? r.1 then ([], l, merge_end)
      else let '(a, b, e) := collect (if merge_end <? run_end r then run_end r else merge_end) l'
           in (r :: a, b, e)
  end.

Definition sum_len (l : overlay) : N := fold_right (fun r n => len r.2 + n) 0 l.

Definition merge_buffer (merge_start merge_end offset : N) (swallowed : overlay)
    (data : bytes) : bytes :=
  blit (fold_left (fun buf r => blit buf (r.1 - merge_start) r.2) swallowed
          (zeros (merge_end - merge_start)))
       (offset - merge_start) data.

Definition effective_size (w : WriteBuffer) (base_size : N) : N :=
  match size_override_ w with
  | Some s => s
  | None =>
      match last (overlay_ w) with
      | Some r => if base_size <? run_end r then run_end r else base_size
      | None => base_size
      end
  end.

Definition wb_write (w : WriteBuffer) (offset : N) (data : bytes) : WriteBuffer :=
  match data with
  | [] => w
  | _ =>
      let new_end := u64 (offset + len data) in
      let '(before, after) := upper_bound offset (overlay_ w) in
      let '(kept, from) := step_back offset before after in
      let merge_start :=
        match from with
        | r :: _ => if r.1 <? offset then r.1 else offset
        | [] => offset
        end in
      let '(swallowed, rest, merge_end) := collect new_end from in
      let merged := merge_buffer merge_start merge_end offset swallowed data in
      let w' :=
        mkWB (base_blob_ w) (base_size_ w) (kept ++ (merge_start, merged) :: rest)
          (size_override_ w)
          (u64 (dirty_bytes_ w + 2 ^ 64 - sum_len swallowed + len merged)) in
      if effective_size w' (base_size_ w') <? new_end
      then mkWB (base_blob_ w') (base_size_ w') (overlay_ w') (Some new_end) (dirty_bytes_ w')
      else w'
  end.

(** [buf[i] = base_data[pos]], or zero past the base. *)
Definition base_window (base : bytes) (offset : N) (n : nat) : bytes :=
  (fun i => default zero (base !! (N.to_nat offset + i)%nat)) <$> seq 0 n.

(** One iteration of the overlay loop of [read]. *)
Definition apply_run (offset avail : N) (buf : bytes) (r : N * bytes) : bytes :=
  let req_end := u64 (offset + avail) in
  if (run_end r <=? offset) || (req_end <=? r.1) then buf
  else
    let copy_start := N.max r.1 offset in
    let copy_end := N.min (run_end r) req_end in
    blit buf (copy_start - offset)
      (take (N.to_nat (copy_end - copy_start)) (drop (N.to_nat (copy_start - r.1)) r.2)).

Definition wb_read (w : WriteBuffer) (offset n : N) (base : bytes) : bytes :=
  let eff := effective_size w (len base) in
  if eff <=? offset then []
  else
    let avail := N.min n (eff - offset) in
    fold_left (apply_run offset avail) (overlay_ w) (base_window base offset (N.to_nat avail)).

(** The runs before [lower_bound(new_size)], and the ones erased. *)
Fixpoint lower_split (new_size : N) (l : overlay) : overlay * overlay :=
  match l with
  | [] => ([], [])
  | r :: l' =>
      if new_size <=? r.1 then ([], l)
      else let '(a, b) := lower_split new_size l' in (r :: a, b)
  end.

(** Cut the last run at [new_size]; the bytes removed. *)
Fixpoint trim_last (new_size : N) (l : overlay) : overlay * N :=
  match l with
  | [] => ([], 0)
  | [r] =>
      if new_size <? run_end r
      then let d := take (N.to_nat (new_size - r.1)) r.2 in ([(r.1, d)], len r.2 - len d)
      else ([r], 0)
  | r :: l' => let '(a, n) := trim_last new_size l' in (r :: a, n)
  end.

Definition wb_truncate (w : WriteBuffer) (new_size : N) : WriteBuffer :=
  let '(kept, erased) := lower_split new_size (overlay_ w) in
  let '(trimmed, cut) := trim_last new_size kept in
  mkWB (base_blob_ w) (base_size_ w) trimmed (Some new_size)
    (u64 (dirty_bytes_ w + 2 ^ 64 - sum_len erased - cut)).

Definition over_cap (w : WriteBuffer) : bool := WRITE_BUFFER_MAX_BYTES <=? dirty_bytes_ w.

Definition is_dirty (w : WriteBuffer) : bool :=
  (0 <? dirty_bytes_ w) || bool_decide (is_Some (size_override_ w)).

Definition materialize (w : WriteBuffer) (base : bytes) : bytes :=
  let eff := effective_size w (len base) in
  let copy_len := N.min eff (len base) in
  fold_left (fun buf r => blit buf r.1 (take (N.to_nat (N.min (len r.2) (eff - r.1))) r.2))
    (overlay_ w) (blit (zeros eff) 0 (take (N.to_nat copy_len) base)).

Definition wb_clear (w : WriteBuffer) : WriteBuffer :=
  mkWB (base_blob_ w) (base_size_ w) [] None 0.

(** ** The contract: a file is a list of bytes *)

Module Spec.

(** [ftruncate]: cut, or extend with zeros. *)
Definition ftruncate (f : bytes) (n : N) : bytes := resize (N.to_nat n) zero f.

(** [pwrite]: a gap is filled with zeros; an empty write changes nothing. *)
Definition pwrite (f : bytes) (offset : N) (data : bytes) : bytes :=
  match data with
  | [] => f
  | _ => blit (ftruncate f (N.max (len f) (offset + len data))) offset data
  end.

End Spec.

(** ** Invariant *)

(** Runs are non-empty, in order, and neither overlap nor touch: each starts
    past [lo]; ends fit in 64 bits. *)
Fixpoint runs_from (lo : N) (l : overlay) : Prop :=
  match l with
  | [] => True
  | r :: l' => lo <= r.1 /\ r.2 <> [] /\ r.1 + len r.2 < 2 ^ 64 /\ runs_from (r.1 + len r.2 + 1) l'
  end.

Record wb_inv (w : WriteBuffer) : Prop := {
  wb_runs : runs_from 0 (overlay_ w);
  wb_dirty : dirty_bytes_ w = sum_len (overlay_ w);
  wb_size : forall s r, size_override_ w = Some s -> r ∈ overlay_ w -> r.1 + len r.2 <= s
}.

(** The dirty byte at a position. *)
Definition run_byte (r : N * bytes) (p : N) : option byte :=
  if r.1 <=? p then r.2 !! N.to_nat (p - r.1) else None.

Fixpoint dirty_byte (l : overlay) (p : N) : option byte :=
  match l with
  | [] => None
  | r :: l' => match run_byte r p with Some b => Some b | None => dirty_byte l' p end
  end.

(** The byte a handle shows at a position below its size. *)
Definition shown (l : overlay) (base : bytes) (p : N) : byte :=
  default (default zero (base !! N.to_nat p)) (dirty_byte l p).

(** ** Runs *)

Lemma blit_length buf at_ d :
  (N.to_nat at_ + length d <= length buf)%nat -> length (blit buf at_ d) = length buf.
Proof. intros H. unfold blit. rewrite !length_app, length_take, length_drop. lia. Qed.

Lemma blit_lookup buf at_ d i :
  (N.to_nat at_ + length d <= length buf)%nat ->
  blit buf at_ d !! i =
  if decide (N.to_nat at_ <= i < N.to_nat at_ + length d)%nat
  then d !! (i - N.to_nat at_)%nat else buf !! i.
Proof.
  intros H. unfold blit. case_decide as Hi.
  - rewrite lookup_app_r; rewrite length_take; [|lia].
    rewrite lookup_app_l by lia. f_equal. lia.
  - destruct (decide (i < N.to_nat at_)%nat).
    + rewrite lookup_app_l by (rewrite length_take; lia). by apply lookup_take_lt.
    + rewrite lookup_app_r; rewrite length_take; [|lia].
      rewrite lookup_app_r by lia. rewrite lookup_drop. f_equal. lia.
Qed.

Lemma zeros_lookup n i : (i < N.to_nat n)%nat -> zeros n !! i = Some zero.
Proof. intros. unfold zeros. by apply lookup_replicate_2. Qed.

Lemma zeros_length n : length (zeros n) = N.to_nat n.
Proof. apply length_replicate. Qed.

Lemma runs_from_le lo lo' l : runs_from lo' l -> lo <= lo' -> runs_from lo l.
Proof. destruct l as [|r l]; [done|]. simpl. intros (?&?&?&?) ?. repeat split; try done; lia. Qed.

Lemma runs_from_elem lo l r :
  runs_from lo l -> r ∈ l -> lo <= r.1 /\ r.2 <> [] /\ r.1 + len r.2 < 2 ^ 64.
Proof.
  revert lo. induction l as [|x l IH]; intros lo; [by intros _ ?%elem_of_nil|].
  simpl. intros (H1 & H2 & H3 & H4) [->|Hr]%elem_of_cons; [done|].
  destruct (IH _ H4 Hr) as (?&?&?). repeat split; try done. lia.
Qed.

Lemma runs_from_app lo a b :
  runs_from lo (a ++ b) ->
  runs_from lo a /\ runs_from lo b /\
  (forall r s, r ∈ a -> s ∈ b -> r.1 + len r.2 < s.1).
Proof.
  revert lo. induction a as [|x a IH]; intros lo H; simpl in *.
  { split; [done|]. split; [done|]. by intros r s ?%elem_of_nil. }
  destruct H as (H1 & H2 & H3 & H4). destruct (IH _ H4) as (Ha & Hb & Hab).
  split; [done|]. split; [by eapply runs_from_le; [exact Hb|lia]|].
  intros r s [->|Hr]%elem_of_cons Hs; [|by apply Hab].
  destruct (runs_from_elem _ _ _ Hb Hs) as (?&?&?). lia.
Qed.

Lemma runs_from_join lo lo' a b :
  runs_from lo a -> runs_from lo' b -> lo <= lo' ->
  (forall r, r ∈ a -> r.1 + len r.2 < lo') -> runs_from lo (a ++ b).
Proof.
  revert lo. induction a as [|x a IH]; intros lo Ha Hb Hle Hab; simpl in *.
  { by eapply runs_from_le. }
  destruct Ha as (H1 & H2 & H3 & H4). repeat split; try done.
  apply IH; try done.
  - specialize (Hab x (list_elem_of_here _ _)). lia.
  - intros r Hr. apply Hab. by apply list_elem_of_further.
Qed.

Lemma run_end_inv lo l r : runs_from lo l -> r ∈ l -> run_end r = r.1 + len r.2.
Proof. intros H Hr. apply (runs_from_elem _ _ _ H) in Hr as (_&_&?). by apply N.mod_small. Qed.

Lemma len_pos d : d <> [] -> 0 < len d.
Proof. destruct d; [done|]. unfold len. simpl. lia. Qed.

Lemma run_byte_is_Some r p :
  is_Some (run_byte r p) <-> r.1 <= p /\ p < r.1 + len r.2.
Proof.
  unfold run_byte, len. destruct (N.leb_spec r.1 p).
  - rewrite lookup_lt_is_Some. lia.
  - split; [by intros []|lia].
Qed.

Lemma run_byte_None r p : p < r.1 \/ r.1 + len r.2 <= p -> run_byte r p = None.
Proof. intros H. apply eq_None_not_Some. rewrite run_byte_is_Some. lia. Qed.

Lemma dirty_byte_app a b p :
  dirty_byte (a ++ b) p = match dirty_byte a p with Some x => Some x | None => dirty_byte b p end.
Proof. induction a as [|r a IH]; simpl; [done|]. destruct (run_byte r p); [done|apply IH]. Qed.

Lemma dirty_byte_out l p :
  (forall r, r ∈ l -> p < r.1 \/ r.1 + len r.2 <= p) -> dirty_byte l p = None.
Proof.
  induction l as [|r l IH]; intros H; simpl; [done|].
  rewrite run_byte_None by (apply H, list_elem_of_here).
  apply IH. intros s Hs. by apply H, list_elem_of_further.
Qed.

Lemma dirty_byte_low lo l p : runs_from lo l -> p < lo -> dirty_byte l p = None.
Proof.
  intros H Hp. apply dirty_byte_out. intros r Hr.
  destruct (runs_from_elem _ _ _ H Hr) as (?&?&?). lia.
Qed.

Lemma dirty_byte_in lo l r p :
  runs_from lo l -> r ∈ l -> r.1 <= p -> p < r.1 + len r.2 -> dirty_byte l p = run_byte r p.
Proof.
  intros Hl (a & b & ->)%list_elem_of_split H1 H2.
  apply runs_from_app in Hl as (_ & Hb & Hab). rewrite dirty_byte_app, dirty_byte_out.
  - simpl. destruct (proj2 (run_byte_is_Some r p)) as [x ->]; done.
  - intros s Hs. specialize (Hab s r Hs (list_elem_of_here _ _)). lia.
Qed.

(** A left fold that overwrites one run at a time shows the dirty bytes. *)
Lemma fold_runs (f : bytes -> N * bytes -> bytes) (s : N) (n : nat) lo l buf :
  runs_from lo l ->
  (forall r b, r ∈ l -> length b = n -> length (f b r) = n /\
     forall i, (i < n)%nat -> f b r !! i =
       match run_byte r (s + N.of_nat i) with Some x => Some x | None => b !! i end) ->
  length buf = n ->
  length (fold_left f l buf) = n /\
  forall i, (i < n)%nat -> fold_left f l buf !! i =
    match dirty_byte l (s + N.of_nat i) with Some x => Some x | None => buf !! i end.
Proof.
  revert lo buf. induction l as [|r l IH]; intros lo buf Hl Hf Hn; simpl; [done|].
  destruct Hl as (H1 & H2 & H3 & H4).
  destruct (Hf r buf (list_elem_of_here _ _) Hn) as [Hn' Hr].
  destruct (IH _ (f buf r) H4) as [HL HI]; [|done|].
  { intros x b Hx. apply Hf. by apply list_elem_of_further. }
  split; [done|]. intros i Hi. rewrite HI, Hr by done.
  destruct (run_byte r (s + N.of_nat i)) as [b|] eqn:E; [|done].
  rewrite (dirty_byte_low _ _ _ H4); [done|].
  assert (is_Some (run_byte r (s + N.of_nat i))) as [??]%run_byte_is_Some by by rewrite E.
  lia.
Qed.

Lemma blit_run buf s r n :
  length buf = n -> s <= r.1 -> r.1 + len r.2 <= s + N.of_nat n ->
  length (blit buf (r.1 - s) r.2) = n /\
  forall i, (i < n)%nat -> blit buf (r.1 - s) r.2 !! i =
    match run_byte r (s + N.of_nat i) with Some x => Some x | None => buf !! i end.
Proof.
  intros Hn Hs He. unfold len in *. split; [rewrite blit_length; lia|].
  intros i Hi. rewrite blit_lookup by lia. case_decide as Hd.
  - unfold run_byte. replace (r.1 <=? s + N.of_nat i) with true by (symmetry; apply N.leb_le; lia).
    replace (N.to_nat (s + N.of_nat i - r.1)) with (i - N.to_nat (r.1 - s))%nat by lia.
    destruct (r.2 !! _) as [x|] eqn:E; [done|]. apply lookup_ge_None in E. lia.
  - rewrite run_byte_None; [done|]. unfold len. lia.
Qed.

(** ** The pieces of [write] *)

Lemma upper_bound_spec offset l a b :
  upper_bound offset l = (a, b) ->
  l = a ++ b /\ (forall r, r ∈ a -> r.1 <= offset) /\
  match b with [] => True | r :: _ => offset < r.1 end.
Proof.
  revert a b. induction l as [|x l IH]; intros a b H; simpl in H.
  { simplify_eq. split; [done|]. split; [by intros ? ?%elem_of_nil|done]. }
  destruct (N.ltb_spec offset x.1).
  - simplify_eq. split; [done|]. split; [by intros ? ?%elem_of_nil|done].
  - destruct (upper_bound offset l) as [a' b'] eqn:E. simplify_eq.
    destruct (IH _ _ eq_refl) as (-> & Ha & Hb). split; [done|]. split; [|done].
    intros r [->|Hr]%elem_of_cons; [done|by apply Ha].
Qed.

Lemma step_back_spec offset before after k f :
  step_back offset before after = (k, f) ->
  (k = before /\ f = after /\ match last before with Some r => run_end r < offset | None => True end)
  \/ (exists r, before = k ++ [r] /\ f = r :: after /\ offset <= run_end r).
Proof.
  revert k f. induction before as [|r l IH]; intros k f H; [simpl in H; simplify_eq; by left|].
  destruct l as [|x l].
  - simpl in H. destruct (N.ltb_spec (run_end r) offset); simplify_eq; [by left|].
    right. by exists r.
  - simpl step_back in H.
    destruct (step_back offset (x :: l) after) as [k' f'] eqn:E.
    assert ((k, f) = (r :: k', f')) as Heq.
    { rewrite <- H. simpl in E. destruct l; simpl in *; by rewrite ?E. }
    simplify_eq. destruct (IH _ _ eq_refl) as [(-> & -> & Hl)|(y & Hy & -> & Hb)].
    + left. done.
    + right. exists y. by rewrite Hy.
Qed.

Lemma collect_stop e l : (forall r, r ∈ l -> e < r.1) -> collect e l = ([], l, e).
Proof.
  destruct l as [|r l]; intros H; simpl; [done|].
  specialize (H r (list_elem_of_here _ _)). destruct (N.ltb_spec e r.1); [done|lia].
Qed.

(** Runs do not touch, so only the last swallowed one can reach past [e]. *)
Lemma collect_spec lo e l a b e' :
  runs_from lo l -> collect e l = (a, b, e') ->
  l = a ++ b /\ (forall r, r ∈ a -> r.1 <= e /\ r.1 + len r.2 <= e') /\
  (forall r, r ∈ b -> e' < r.1) /\
  e <= e' /\ (e' = e \/ exists r, r ∈ a /\ e' = r.1 + len r.2).
Proof.
  revert lo e a b e'. induction l as [|r l IH]; intros lo e a b e' Hl H; cbn [collect] in H.
  { simplify_eq. split; [done|]. do 2 (split; [by intros ? ?%elem_of_nil|]).
    split; [lia|by left]. }
  pose proof Hl as (H1 & H2 & H3 & H4).
  pose proof (run_end_inv _ _ r Hl (list_elem_of_here _ _)) as He.
  destruct (N.ltb_spec e r.1).
  { simplify_eq. split; [done|]. split; [by intros ? ?%elem_of_nil|].
    split; [|split; [lia|by left]]. intros s [->|Hs]%elem_of_cons; [done|].
    destruct (runs_from_elem _ _ _ H4 Hs) as (?&?&?). lia. }
  rewrite He in H. destruct (N.ltb_spec e (r.1 + len r.2)).
  - rewrite collect_stop in H.
    2:{ intros s Hs. destruct (runs_from_elem _ _ _ H4 Hs) as (?&?&?). lia. }
    simplify_eq. split; [done|]. split; [|split; [|split; [lia|]]].
    + intros s ->%list_elem_of_singleton. lia.
    + intros s Hs. destruct (runs_from_elem _ _ _ H4 Hs) as (?&?&?). lia.
    + right. exists r. split; [apply list_elem_of_here|done].
  - destruct (collect e l) as [[a' b'] e''] eqn:E. simplify_eq.
    destruct (IH _ _ _ _ _ H4 E) as (-> & Ha & Hb & Hle & He').
    split; [done|]. split.
    { intros s [->|Hs]%elem_of_cons; [lia|by apply Ha]. }
    split; [done|]. split; [done|].
    destruct He' as [->|(s & Hs & ->)]; [by left|right]. exists s. set_solver.
Qed.

(** What [write] does to the runs: it swallows those touching the written
    range, and the merged range is covered by them and the data. *)
Record write_shape (l : overlay) (offset : N) (n : N) (k s r : overlay) (ms me : N) : Prop := {
  ws_split : l = k ++ s ++ r;
  ws_start : ms <= offset;
  ws_end : offset + n <= me;
  ws_bound : me < 2 ^ 64;
  ws_kept : forall x, x ∈ k -> x.1 + len x.2 < ms;
  ws_rest : forall x, x ∈ r -> me < x.1;
  ws_in : forall x, x ∈ s -> ms <= x.1 /\ x.1 + len x.2 <= me;
  ws_cover : forall p, ms <= p -> p < me ->
    (offset <= p /\ p < offset + n) \/ exists x, x ∈ s /\ x.1 <= p /\ p < x.1 + len x.2
}.

Definition merge_start_of (offset : N) (from : overlay) : N :=
  match from with r :: _ => if r.1 <? offset then r.1 else offset | [] => offset end.

Lemma write_shape_of l offset n b a k f s r me :
  runs_from 0 l -> 0 < n -> offset + n < 2 ^ 64 ->
  upper_bound offset l = (b, a) -> step_back offset b a = (k, f) ->
  collect (offset + n) f = (s, r, me) ->
  write_shape l offset n k s r (merge_start_of offset f) me.
Proof.
  intros Hl Hn Hb HU HS HC.
  apply upper_bound_spec in HU as (Hla & Hbl & Hal).
  apply step_back_spec in HS.
  assert (l = k ++ f) as Hkf.
  { destruct HS as [(-> & -> & _)|(x & -> & -> & _)]; [done|]. by rewrite Hla, <- app_assoc. }
  assert (forall lo, runs_from lo a -> forall x, x ∈ a -> offset < x.1) as Hafter.
  { intros lo Ha x Hx. destruct a as [|y a]; [by apply elem_of_nil in Hx|].
    destruct Ha as (_ & _ & _ & Ha). apply elem_of_cons in Hx as [->|Hx]; [done|].
    apply (runs_from_elem _ _ _ Ha) in Hx as (?&_). lia. }
  pose proof Hl as Hl'. rewrite Hkf in Hl'. apply runs_from_app in Hl' as (Hk & Hf & Hkfd).
  apply (collect_spec 0) in HC as (Hsr & Hs & Hr & Hle & Hme); [|done].
  pose proof Hl as Hla'. rewrite Hla in Hla'. apply runs_from_app in Hla' as (Hbr & Har & Hbad).
  assert (forall x, x ∈ f -> offset <= x.1 + len x.2) as Hft.
  { intros x Hx. destruct HS as [(-> & -> & _)|(y & -> & -> & Hy)].
    - specialize (Hafter _ Har x Hx). lia.
    - apply elem_of_cons in Hx as [->|Hx].
      + rewrite (run_end_inv _ _ y Hbr) in Hy by (apply elem_of_app; right; apply list_elem_of_here).
        done.
      + specialize (Hafter _ Har x Hx). lia. }
  assert (forall x, x ∈ k -> x.1 + len x.2 < offset) as Hkt.
  { intros x Hx. destruct HS as [(-> & -> & Hlast)|(y & -> & -> & Hy)].
    - destruct b as [|z b' _] using rev_ind; [by apply elem_of_nil in Hx|].
      rewrite last_snoc, (run_end_inv _ _ z Hbr) in Hlast
        by (apply elem_of_app; right; apply list_elem_of_here).
      apply elem_of_app in Hx as [Hx|Hx%list_elem_of_singleton]; [|by rewrite Hx].
      apply runs_from_app in Hbr as (_ & _ & Hd).
      specialize (Hd x z Hx (list_elem_of_here _ _)).
      pose proof (Hbl z ltac:(apply elem_of_app; right; apply list_elem_of_here)). lia.
    - specialize (Hkfd x y Hx (list_elem_of_here _ _)).
      pose proof (Hbl y ltac:(apply elem_of_app; right; apply list_elem_of_here)). lia. }
  assert (merge_start_of offset f <= offset) as Hms.
  { unfold merge_start_of. destruct f as [|y f']; [lia|]. destruct (N.ltb_spec y.1 offset); lia. }
  assert (forall x, x ∈ f -> merge_start_of offset f <= x.1) as Hmf.
  { intros x Hx. destruct f as [|y f']; [by apply elem_of_nil in Hx|]. unfold merge_start_of.
    destruct Hf as (_ & _ & _ & Hf). apply elem_of_cons in Hx as [->|Hx].
    - destruct (N.ltb_spec y.1 offset); lia.
    - apply (runs_from_elem _ _ _ Hf) in Hx as (?&_). destruct (N.ltb_spec y.1 offset); lia. }
  constructor; try done.
  - by rewrite Hkf, Hsr.
  - destruct Hme as [->|(x & Hx & ->)]; [done|].
    assert (x ∈ f) as Hxf by (rewrite Hsr; apply elem_of_app; by left).
    by apply (runs_from_elem _ _ _ Hf) in Hxf as (_&_&?).
  - intros x Hx. specialize (Hkt x Hx).
    unfold merge_start_of. destruct f as [|y f']; [done|].
    destruct (N.ltb_spec y.1 offset); [|done]. by apply Hkfd; [|apply list_elem_of_here].
  - intros x Hx. split; [|by apply Hs]. apply Hmf. rewrite Hsr. apply elem_of_app. by left.
  - intros p Hp1 Hp2. destruct (decide (offset <= p)) as [Ho|Ho].
    + destruct (decide (p < offset + n)); [by left|right].
      destruct Hme as [->|(x & Hx & ->)]; [lia|]. exists x.
      destruct (Hs x Hx). split; [done|lia].
    + right. unfold merge_start_of in Hp1. destruct f as [|y f']; [lia|].
      destruct (N.ltb_spec y.1 offset); [|lia]. exists y.
      pose proof (Hft y (list_elem_of_here _ _)).
      assert (y ∈ s) as Hys.
      { destruct s as [|z s']; [|injection Hsr as ->; apply list_elem_of_here].
        simpl in Hsr. specialize (Hr y). rewrite <- Hsr in Hr. specialize (Hr (list_elem_of_here _ _)). lia. }
      split; [done|lia].
Qed.

Lemma runs_from_sub lo k s r : runs_from lo (k ++ s ++ r) -> runs_from lo s.
Proof. intros (_ & H & _)%runs_from_app. by apply runs_from_app in H as (H & _). Qed.

Lemma merge_buffer_spec l offset data k s r ms me :
  runs_from 0 l -> write_shape l offset (len data) k s r ms me ->
  length (merge_buffer ms me offset s data) = N.to_nat (me - ms) /\
  forall p, ms <= p -> p < me ->
    run_byte (ms, merge_buffer ms me offset s data) p =
    if decide (offset <= p /\ p < offset + len data)
    then data !! N.to_nat (p - offset) else dirty_byte l p.
Proof.
  intros Hl [-> Hms Hme Hb Hk Hr Hs Hc]. unfold merge_buffer. unfold len in *.
  destruct (fold_runs (fun buf x => blit buf (x.1 - ms) x.2) ms (N.to_nat (me - ms)) 0 s
    (zeros (me - ms))) as [HL HI].
  - by eapply runs_from_sub.
  - intros x b Hx Hbl. destruct (Hs x Hx). apply blit_run; [done|done|unfold len; lia].
  - apply zeros_length.
  - rewrite blit_length by lia. split; [done|]. intros p Hp1 Hp2.
    unfold run_byte. simpl. replace (ms <=? p) with true by (symmetry; by apply N.leb_le).
    rewrite blit_lookup by lia. case_decide as Hd; case_decide as Hd'; try lia.
    { f_equal. lia. }
    rewrite HI by lia. replace (ms + N.of_nat (N.to_nat (p - ms))) with p by lia.
    destruct (Hc p Hp1 Hp2) as [|(x & Hx & Hx1 & Hx2)]; [lia|].
    pose proof (runs_from_sub _ _ _ _ Hl) as Hsr.
    rewrite (dirty_byte_in _ _ x _ Hsr Hx), (dirty_byte_in _ _ x _ Hl) by
      (try done; rewrite !elem_of_app; auto).
    destruct (proj2 (run_byte_is_Some x p)) as [y ->]; done.
Qed.

(** ** Sizes *)

Definition max_end (l : overlay) : N := fold_right (fun r n => N.max (r.1 + len r.2) n) 0 l.

Lemma max_end_app a b : max_end (a ++ b) = N.max (max_end a) (max_end b).
Proof. induction a as [|x a IH]; simpl; [lia|]. rewrite IH. lia. Qed.

Lemma max_end_le l m : max_end l <= m <-> forall r, r ∈ l -> r.1 + len r.2 <= m.
Proof.
  induction l as [|x l IH]; simpl.
  - split; [by intros _ r ?%elem_of_nil|lia].
  - split.
    + intros H r [->|Hr]%elem_of_cons; [lia|]. apply IH; [lia|done].
    + intros H. apply N.max_lub; [apply H, list_elem_of_here|].
      apply IH. intros r Hr. by apply H, list_elem_of_further.
Qed.

Lemma last_end lo l r : runs_from lo l -> last l = Some r -> run_end r = max_end l.
Proof.
  intros Hl Hr. apply last_Some in Hr as [a ->].
  rewrite (run_end_inv _ _ r Hl) by (apply elem_of_app; right; apply list_elem_of_here).
  rewrite max_end_app. simpl. apply runs_from_app in Hl as (_ & _ & Hd).
  assert (max_end a <= r.1 + len r.2); [|lia]. apply max_end_le. intros x Hx.
  specialize (Hd x r Hx (list_elem_of_here _ _)). lia.
Qed.

Lemma effective_size_max w bs :
  runs_from 0 (overlay_ w) ->
  effective_size w bs = default (N.max bs (max_end (overlay_ w))) (size_override_ w).
Proof.
  intros Hl. unfold effective_size. destruct (size_override_ w); [done|]. simpl.
  destruct (last (overlay_ w)) as [r|] eqn:E.
  - rewrite (last_end _ _ _ Hl E). destruct (N.ltb_spec bs (max_end (overlay_ w))); lia.
  - apply last_None in E. rewrite E. simpl. lia.
Qed.

Lemma runs_below_size w bs r :
  wb_inv w -> r ∈ overlay_ w -> r.1 + len r.2 <= effective_size w bs.
Proof.
  intros [Hl _ Hs] Hr. rewrite effective_size_max by done.
  destruct (size_override_ w) as [s|] eqn:E; simpl; [by apply (Hs s)|].
  assert (max_end (overlay_ w) <= max_end (overlay_ w)) as H by done.
  rewrite max_end_le in H. specialize (H r Hr). lia.
Qed.

Lemma sum_len_app a b : sum_len (a ++ b) = sum_len a + sum_len b.
Proof. induction a as [|x a IH]; simpl; [done|]. rewrite IH. lia. Qed.

Lemma sum_len_max lo l : runs_from lo l -> lo + sum_len l <= N.max lo (max_end l).
Proof.
  revert lo. induction l as [|x l IH]; intros lo; simpl; [lia|].
  intros (H1 & H2 & H3 & H4). specialize (IH _ H4). lia.
Qed.

Lemma max_end_bound lo l : runs_from lo l -> max_end l < 2 ^ 64.
Proof.
  intros Hl. cut (max_end l <= 2 ^ 64 - 1); [lia|]. apply max_end_le. intros r Hr.
  apply (runs_from_elem _ _ _ Hl) in Hr as (_&_&?). lia.
Qed.

Lemma sum_len_bound lo l : runs_from lo l -> sum_len l < 2 ^ 64.
Proof.
  intros Hl. pose proof (max_end_bound _ _ Hl).
  assert (runs_from 0 l) as H0 by by eapply runs_from_le; [exact Hl|lia].
  apply sum_len_max in H0. lia.
Qed.

(** ** The operations *)

Lemma new_write_buffer_inv h n : wb_inv (new_write_buffer h n).
Proof. split; simpl; [done|done|]. by intros s r _ ?%elem_of_nil. Qed.

Section shaped.
Context (l : overlay) (offset : N) (data : bytes) (k s r : overlay) (ms me : N) (m : bytes).
Context (Hl : runs_from 0 l) (Hpos : 0 < len data).
Context (Hw : write_shape l offset (len data) k s r ms me) (Hlm : len m = me - ms).

Lemma shaped_runs : runs_from 0 (k ++ (ms, m) :: r).
Proof using All.
  destruct Hw as [Hsp Hms Hme Hmb Hk Hr Hin Hcov]. rewrite Hsp in Hl.
  apply runs_from_app in Hl as (Hlk & Hlsr & _).
  apply runs_from_app in Hlsr as (_ & Hlr & _).
  apply (runs_from_join 0 ms); [done| |lia|done].
  simpl. rewrite Hlm. split; [lia|]. split; [intros ->; unfold len in *; simpl in *; lia|].
  split; [lia|]. destruct r as [|y r']; [done|]. destruct Hlr as (? & ? & ? & ?).
  specialize (Hr y (list_elem_of_here _ _)). repeat split; try done. lia.
Qed.

Lemma shaped_max_end : max_end (k ++ (ms, m) :: r) = N.max (max_end l) (offset + len data).
Proof using All.
  destruct Hw as [Hsp Hms Hme Hmb Hk Hr Hin Hcov].
  rewrite Hsp, !max_end_app. cbn [max_end fold_right fst snd]. fold (max_end r). rewrite Hlm.
  replace (ms + (me - ms)) with me by lia.
  assert (max_end s <= me) by (apply max_end_le; intros x Hx; by apply Hin).
  assert (me <= N.max (max_end s) (offset + len data)); [|lia].
  destruct (Hcov (me - 1)) as [|(x & Hx & _ & Hx2)]; [lia|lia|lia|].
  assert (x.1 + len x.2 <= max_end s) by by apply (proj1 (max_end_le s _) (N.le_refl _)).
  lia.
Qed.

Lemma shaped_dirty_byte p :
  (forall q, ms <= q -> q < me -> run_byte (ms, m) q =
    if decide (offset <= q /\ q < offset + len data)
    then data !! N.to_nat (q - offset) else dirty_byte l q) ->
  dirty_byte (k ++ (ms, m) :: r) p =
  if decide (offset <= p /\ p < offset + len data)
  then data !! N.to_nat (p - offset) else dirty_byte l p.
Proof using All.
  destruct Hw as [Hsp Hms Hme Hmb Hk Hr Hin Hcov]. intros Hm.
  rewrite dirty_byte_app. cbn [dirty_byte].
  destruct (decide (ms <= p /\ p < me)) as [[Hp1 Hp2]|Hp].
  - rewrite (dirty_byte_out k) by (intros x Hx; specialize (Hk x Hx); lia).
    rewrite Hm by done. rewrite (dirty_byte_out r) by (intros x Hx; specialize (Hr x Hx); lia).
    case_decide; [|destruct (dirty_byte _ _); done].
    destruct (data !! N.to_nat (p - offset)); done.
  - rewrite (run_byte_None (ms, m)) by (simpl; lia).
    rewrite decide_False by lia. rewrite Hsp, !dirty_byte_app.
    rewrite (dirty_byte_out s) by (intros x Hx; specialize (Hin x Hx); lia). done.
Qed.

Lemma shaped_sum :
  u64 (sum_len l + 2 ^ 64 - sum_len s + len m) = sum_len (k ++ (ms, m) :: r).
Proof using All.
  pose proof (sum_len_bound _ _ shaped_runs) as Hsb. rewrite (ws_split _ _ _ _ _ _ _ _ Hw).
  rewrite !sum_len_app in *. simpl in *. unfold u64.
  replace (sum_len k + (sum_len s + sum_len r) + 2 ^ 64 - sum_len s + len m)
    with (sum_len k + (len m + sum_len r) + 1 * 2 ^ 64) by lia.
  rewrite N.Div0.mod_add. by apply N.mod_small.
Qed.
End shaped.

(** All that [write] does, as facts about its result. *)
Lemma wb_write_facts w offset data :
  wb_inv w -> data <> [] -> offset + len data < 2 ^ 64 ->
  let w' := wb_write w offset data in
  wb_inv w' /\ base_size_ w' = base_size_ w /\
  (forall bs, effective_size w' bs = N.max (effective_size w bs) (offset + len data)) /\
  (forall p, dirty_byte (overlay_ w') p =
     if decide (offset <= p /\ p < offset + len data)
     then data !! N.to_nat (p - offset) else dirty_byte (overlay_ w) p).
Proof.
  intros [Hl Hd Hs] Hne Hb. pose proof (len_pos _ Hne) as Hpos.
  unfold wb_write. destruct data as [|c data0] eqn:Edata; [done|]. rewrite <- Edata in *.
  clear c data0 Edata. replace (u64 (offset + len data)) with (offset + len data)
    by (symmetry; by apply N.mod_small).
  destruct (upper_bound offset (overlay_ w)) as [b a] eqn:EU.
  destruct (step_back offset b a) as [k f] eqn:ES.
  destruct (collect (offset + len data) f) as [[s r] me] eqn:EC.
  pose proof (write_shape_of _ _ _ _ _ _ _ _ _ _ Hl Hpos Hb EU ES EC) as Hw.
  change (match f with r :: _ => if r.1 <? offset then r.1 else offset | [] => offset end)
    with (merge_start_of offset f).
  destruct (merge_buffer_spec _ _ _ _ _ _ _ _ Hl Hw) as [HmL HmI].
  set (m := merge_buffer _ me offset s data) in *. clearbody m.
  assert (len m = me - merge_start_of offset f) as Hlm by (unfold len; rewrite HmL; lia).
  pose proof (shaped_runs _ _ _ _ _ _ _ _ _ Hl Hpos Hw Hlm) as Hnew.
  pose proof (shaped_max_end _ _ _ _ _ _ _ _ _ Hl Hpos Hw Hlm) as Hmax.
  pose proof (shaped_dirty_byte _ _ _ _ _ _ _ _ _ Hl Hpos Hw Hlm) as Hdb.
  pose proof (shaped_sum _ _ _ _ _ _ _ _ _ Hl Hpos Hw Hlm) as Hsum. rewrite <- Hd in Hsum.
  assert (forall sz x, (forall r0 : N * bytes, r0 ∈ overlay_ w -> r0.1 + len r0.2 <= sz) ->
     x ∈ k ++ (merge_start_of offset f, m) :: r ->
     x.1 + len x.2 <= N.max sz (offset + len data)) as Hsz.
  { intros sz x Hsz Hx. apply max_end_le in Hsz.
    apply (proj1 (max_end_le _ _) (N.le_refl _)) in Hx. lia. }
  rewrite effective_size_max by done. cbn [size_override_ base_size_ overlay_]. rewrite Hmax.
  destruct (size_override_ w) as [sz|] eqn:Eo; simpl default.
  - specialize (Hsz sz). specialize (Hs sz).
    destruct (N.ltb_spec sz (offset + len data)); cbn -[u64 sum_len];
      (split; [split; [done|done|]|split; [done|split; [|auto]]];
       [intros s0 x [= <-] Hx; simpl in Hx; specialize (Hsz x (fun r0 => Hs r0 eq_refl) Hx); lia
       |intros bs; rewrite !effective_size_max by done; simpl; rewrite Eo; simpl; lia]).
  - replace (N.max (base_size_ w) (N.max (max_end (overlay_ w)) (offset + len data)) <?
      offset + len data) with false by (symmetry; apply N.ltb_ge; lia).
    split; [split; [done|done|by intros ? ? [=]]|].
    split; [done|]. split; [|auto]. intros bs. rewrite !effective_size_max by done.
    simpl. rewrite Hmax, Eo. simpl. lia.
Qed.

Lemma lower_split_spec lo n l a b :
  runs_from lo l -> lower_split n l = (a, b) ->
  l = a ++ b /\ (forall r, r ∈ a -> r.1 < n) /\ (forall r, r ∈ b -> n <= r.1).
Proof.
  revert lo a b. induction l as [|x l IH]; intros lo a b Hl H; simpl in H.
  { simplify_eq. split; [done|]. by split; intros ? ?%elem_of_nil. }
  destruct Hl as (H1 & H2 & H3 & H4). destruct (N.leb_spec n x.1).
  - simplify_eq. split; [done|]. split; [by intros ? ?%elem_of_nil|].
    intros r [->|Hr]%elem_of_cons; [done|].
    apply (runs_from_elem _ _ _ H4) in Hr as (?&_). lia.
  - destruct (lower_split n l) as [a' b'] eqn:E. simplify_eq.
    destruct (IH _ _ _ H4 eq_refl) as (-> & Ha & Hb). split; [done|]. split; [|done].
    intros r [->|Hr]%elem_of_cons; [done|by apply Ha].
Qed.

Lemma trim_last_spec lo n a t c :
  runs_from lo a -> (forall r, r ∈ a -> r.1 < n) -> trim_last n a = (t, c) ->
  runs_from lo t /\ sum_len t + c = sum_len a /\
  (forall r, r ∈ t -> r.1 + len r.2 <= n) /\
  (forall p, dirty_byte t p = if decide (p < n) then dirty_byte a p else None).
Proof.
  revert lo t c. induction a as [|r a IH]; intros lo t c Ha Hn H.
  { simpl in H. simplify_eq. repeat split; [by intros ? ?%elem_of_nil|]. intros p.
    by case_decide. }
  pose proof (Hn r (list_elem_of_here _ _)) as Hrn.
  pose proof (run_end_inv _ _ r Ha (list_elem_of_here _ _)) as He.
  destruct Ha as (H1 & H2 & H3 & H4). pose proof (len_pos _ H2) as Hp2. destruct a as [|x a].
  - simpl in H. rewrite He in H. destruct (N.ltb_spec n (r.1 + len r.2)) as [Hlt|Hge]; simplify_eq.
    + assert (len (take (N.to_nat (n - r.1)) r.2) = n - r.1) as Hlen.
      { unfold len in *. rewrite length_take. lia. }
      simpl. rewrite Hlen. split; [|split; [lia|split]].
      * repeat split; [done| |lia]. intros E. rewrite E in Hlen. unfold len in Hlen.
        simpl in Hlen. lia.
      * intros y ->%list_elem_of_singleton. simpl. rewrite Hlen. lia.
      * intros p. unfold run_byte. simpl. case_decide; destruct (N.leb_spec r.1 p); try done.
        -- rewrite lookup_take_lt by lia. done.
        -- rewrite lookup_take_ge by lia. done.
    + repeat split; try done; simpl; [lia| |].
      * intros y ->%list_elem_of_singleton. done.
      * intros p. case_decide; [done|]. rewrite run_byte_None by lia. done.
  - change (trim_last n (r :: x :: a)) with (let '(a', n') := trim_last n (x :: a) in (r :: a', n')) in H.
    destruct (trim_last n (x :: a)) as [t' c'] eqn:E. simplify_eq.
    destruct (IH _ t' c H4) as (It & Is & Ie & Id); [|done|].
    { intros y Hy. apply Hn. by apply list_elem_of_further. }
    pose proof (Hn x ltac:(apply list_elem_of_further, list_elem_of_here)) as Hx.
    destruct H4 as (Hx1 & _). cbn [runs_from sum_len fold_right] in *. fold (sum_len a) in *.
    fold (sum_len t'). split; [done|]. split; [lia|]. split.
    + intros y [->|Hy]%elem_of_cons; [lia|by apply Ie].
    + intros p. simpl dirty_byte in *. rewrite Id. case_decide; [done|].
      rewrite run_byte_None by lia. done.
Qed.

Lemma wb_truncate_facts w n :
  wb_inv w ->
  let w' := wb_truncate w n in
  wb_inv w' /\ base_size_ w' = base_size_ w /\ (forall bs, effective_size w' bs = n) /\
  (forall p, dirty_byte (overlay_ w') p =
     if decide (p < n) then dirty_byte (overlay_ w) p else None).
Proof.
  intros [Hl Hd Hs]. unfold wb_truncate.
  destruct (lower_split n (overlay_ w)) as [a b] eqn:E.
  apply (lower_split_spec 0) in E as (Hab & Ha & Hb); [|done].
  destruct (trim_last n a) as [t c] eqn:Et. pose proof Hl as Hl'. rewrite Hab in Hl'.
  apply runs_from_app in Hl' as (Hla & Hlb & _).
  apply (trim_last_spec 0) in Et as (Ht & Hsum & Hend & Hdb); [|done|done].
  cbn -[u64 sum_len]. repeat split; try done.
  - simpl. pose proof (sum_len_bound _ _ Ht). rewrite Hd, Hab, sum_len_app. unfold u64.
    replace (sum_len a + sum_len b + 2 ^ 64 - sum_len b - c) with (sum_len t + 1 * 2 ^ 64) by lia.
    rewrite N.Div0.mod_add. by apply N.mod_small.
  - intros s r [= <-]. apply Hend.
  - intros p. rewrite Hdb, Hab, dirty_byte_app. case_decide; [|done].
    destruct (dirty_byte a p); [done|]. symmetry. apply dirty_byte_out.
    intros r Hr. specialize (Hb r Hr). lia.
Qed.

(** ** The contents shown *)

Lemma materialize_shown w base :
  wb_inv w ->
  length (materialize w base) = N.to_nat (effective_size w (len base)) /\
  forall i, (i < N.to_nat (effective_size w (len base)))%nat ->
    materialize w base !! i = Some (shown (overlay_ w) base (N.of_nat i)).
Proof.
  intros Hw. unfold materialize. set (eff := effective_size w (len base)).
  set (buf := blit (zeros eff) 0 _).
  assert (length (take (N.to_nat (N.min eff (len base))) base) =
    N.to_nat (N.min eff (len base))) as Htl by (unfold len; rewrite length_take; lia).
  assert (length buf = N.to_nat eff) as Hbuf.
  { unfold buf. rewrite blit_length; rewrite zeros_length; [done|rewrite Htl; lia]. }
  destruct (fold_runs (fun buf r => blit buf r.1
      (take (N.to_nat (N.min (len r.2) (eff - r.1))) r.2)) 0 (N.to_nat eff) 0 (overlay_ w) buf)
    as [HL HI]; [apply Hw| |done|].
  - intros r b Hr Hb. pose proof (runs_below_size w (len base) r Hw Hr) as Hle. fold eff in Hle.
    assert (len r.2 = N.of_nat (length r.2)) as Hlr by done. rewrite take_ge by lia.
    pose proof (blit_run b 0 r (N.to_nat eff) Hb) as H. rewrite N.sub_0_r in H. apply H; lia.
  - split; [done|]. intros i Hi. rewrite HI by done. unfold shown.
    rewrite N.add_0_l. destruct (dirty_byte _ _); [done|]. simpl. unfold buf.
    rewrite blit_lookup by (rewrite zeros_length, Htl; lia). rewrite Nat2N.id.
    rewrite Htl. unfold len in *. case_decide as Hd.
    + simpl. rewrite Nat.sub_0_r, lookup_take_lt by lia.
      destruct (base !! i) eqn:Eb; [done|]. apply lookup_ge_None in Eb. lia.
    + rewrite zeros_lookup by done. rewrite lookup_ge_None_2 by lia. done.
Qed.

Lemma materialize_ext w base f :
  wb_inv w -> length f = N.to_nat (effective_size w (len base)) ->
  (forall i, (i < length f)%nat -> f !! i = Some (shown (overlay_ w) base (N.of_nat i))) ->
  materialize w base = f.
Proof.
  intros Hw Hl Hf. destruct (materialize_shown w base Hw) as [HL HI].
  apply list_eq. intros i. destruct (decide (i < length f)%nat).
  - rewrite HI, Hf by lia. done.
  - rewrite !lookup_ge_None_2 by lia. done.
Qed.

Lemma base_window_lookup base offset n i :
  (i < n)%nat -> base_window base offset n !! i =
  Some (default zero (base !! (N.to_nat offset + i)%nat)).
Proof.
  intros Hi. unfold base_window. rewrite list_lookup_fmap, lookup_seq_lt by done. done.
Qed.

Lemma apply_run_spec lo l r offset avail b :
  runs_from lo l -> r ∈ l -> offset + avail < 2 ^ 64 -> length b = N.to_nat avail ->
  length (apply_run offset avail b r) = N.to_nat avail /\
  forall i, (i < N.to_nat avail)%nat -> apply_run offset avail b r !! i =
    match run_byte r (offset + N.of_nat i) with Some x => Some x | None => b !! i end.
Proof.
  intros Hl Hr Ho Hb. unfold apply_run. rewrite (run_end_inv _ _ r Hl Hr).
  replace (u64 (offset + avail)) with (offset + avail) by (symmetry; by apply N.mod_small).
  destruct (N.leb_spec (r.1 + len r.2) offset), (N.leb_spec (offset + avail) r.1); simpl.
  1-3: split; [done|]; intros i Hi; by rewrite run_byte_None by lia.
  set (d := take _ _).
  assert (length d = N.to_nat (N.min (r.1 + len r.2) (offset + avail) - N.max r.1 offset)) as Hd.
  { unfold d, len in *. rewrite length_take, length_drop. lia. }
  split; [rewrite blit_length; lia|]. intros i Hi. rewrite blit_lookup by lia. rewrite Hd.
  case_decide as Hi2.
  - unfold run_byte. replace (r.1 <=? offset + N.of_nat i) with true
      by (symmetry; apply N.leb_le; lia).
    unfold d. rewrite lookup_take_lt, lookup_drop by lia.
    replace (N.to_nat (N.max r.1 offset - r.1) + (i - N.to_nat (N.max r.1 offset - offset)))%nat
      with (N.to_nat (offset + N.of_nat i - r.1)) by lia.
    destruct (r.2 !! _) eqn:E; [done|]. apply lookup_ge_None in E. unfold len in *. lia.
  - rewrite run_byte_None by lia. done.
Qed.

Lemma wb_read_slice w offset n base :
  wb_inv w -> effective_size w (len base) < 2 ^ 64 ->
  wb_read w offset n base = take (N.to_nat n) (drop (N.to_nat offset) (materialize w base)).
Proof.
  intros Hw Hb. destruct (materialize_shown w base Hw) as [HL HI].
  unfold wb_read. set (eff := effective_size w (len base)) in *.
  destruct (N.leb_spec eff offset); [by rewrite drop_ge, take_nil by lia|].
  set (avail := N.min n (eff - offset)).
  destruct (fold_runs (apply_run offset avail) offset (N.to_nat avail) 0 (overlay_ w)
    (base_window base offset (N.to_nat avail))) as [RL RI].
  - apply Hw.
  - intros r b Hr Hbl. eapply apply_run_spec; [apply Hw|done|lia|done].
  - unfold base_window. by rewrite length_fmap, length_seq.
  - apply list_eq. intros i. destruct (decide (i < N.to_nat avail)%nat) as [Hi|Hi].
    + rewrite RI, base_window_lookup, lookup_take_lt, lookup_drop, HI by lia.
      unfold shown. replace (N.of_nat (N.to_nat offset + i)) with (offset + N.of_nat i) by lia.
      destruct (dirty_byte _ _); [done|]. simpl. do 3 f_equal. lia.
    + rewrite !lookup_ge_None_2; [done| |by rewrite RL; lia].
      rewrite length_take, length_drop. lia.
Qed.

Lemma ftruncate_lookup f n i :
  (i < N.to_nat n)%nat -> Spec.ftruncate f n !! i = Some (default zero (f !! i)).
Proof.
  intros Hi. unfold Spec.ftruncate. destruct (decide (i < length f)%nat) as [Hl|Hl].
  - rewrite lookup_resize by done. destruct (f !! i) eqn:E; [done|].
    apply lookup_ge_None in E. lia.
  - rewrite lookup_resize_new by lia. by rewrite lookup_ge_None_2 by lia.
Qed.

Lemma wb_inv_clear w : wb_inv (wb_clear w).
Proof. split; simpl; [done|done|]. by intros s r _ ?%elem_of_nil. Qed.

(** A clean buffer shows the base. *)
Lemma materialize_clear w base : materialize (wb_clear w) base = base.
Proof.
  apply materialize_ext; [apply wb_inv_clear|unfold effective_size, len; simpl; lia|].
  intros i Hi. unfold shown. simpl. rewrite Nat2N.id.
  destruct (base !! i) eqn:E; [done|]. apply lookup_ge_None in E. lia.
Qed.

(** ** Operation sequences *)

Inductive wop : Type :=
| WWrite (offset : N) (data : bytes)
| WTruncate (new_size : N)
| WClear.

Definition exec_wop (w : WriteBuffer) (o : wop) : WriteBuffer :=
  match o with
  | WWrite offset data => wb_write w offset data
  | WTruncate n => wb_truncate w n
  | WClear => wb_clear w
  end.

(** Writes end below 2^64, as the kernel's offsets do. *)
Definition wop_fits (o : wop) : Prop :=
  match o with WWrite offset data => offset + len data < 2 ^ 64 | _ => True end.

Lemma exec_wop_inv w o : wb_inv w -> wop_fits o -> wb_inv (exec_wop w o).
Proof.
  intros Hw Hf. destruct o as [offset data|n|]; simpl in *.
  - destruct (decide (data = [])) as [->|Hne]; [done|]. by apply wb_write_facts.
  - by apply wb_truncate_facts.
  - apply wb_inv_clear.
Qed.

Lemma exec_wops_inv w ops : wb_inv w -> Forall wop_fits ops -> wb_inv (fold_left exec_wop ops w).
Proof.
  intros Hw H. revert w Hw. induction H; intros w Hw; simpl; [done|].
  by apply IHForall, exec_wop_inv.
Qed.

(** ** Properties *)

(** From a fresh buffer, every sequence of writes, truncations and clears
    keeps the dirty runs sorted, non-empty, pairwise disjoint and non-adjacent,
    counts their bytes exactly in [dirty_bytes_], and never leaves a run past
    the effective size (so [materialize] cannot write out of bounds). *)
Theorem write_buffer_invariant h n ops :
  Forall wop_fits ops ->
  let w := fold_left exec_wop ops (new_write_buffer h n) in
  wb_inv w /\ (forall bs r, r ∈ overlay_ w -> run_end r <= effective_size w bs).
Proof.
  intros H. pose proof (exec_wops_inv _ ops (new_write_buffer_inv h n) H) as Hw.
  split; [done|]. intros bs r Hr. rewrite (run_end_inv 0 _ r (wb_runs _ Hw) Hr).
  by apply runs_below_size.
Qed.

(** [write] refines [pwrite]: the merging of runs shows as one splice of
    the data into the file, zero-filling a gap, whenever the base has no bytes
    past the current size or the write stays within it. *)
Lemma write_is_pwrite w base offset data :
  wb_inv w -> offset + len data < 2 ^ 64 ->
  len base <= effective_size w (len base) \/ offset + len data <= effective_size w (len base) ->
  materialize (wb_write w offset data) base = Spec.pwrite (materialize w base) offset data.
Proof.
  intros Hw Hb Hgap. destruct (decide (data = [])) as [->|Hne]; [done|].
  destruct (wb_write_facts w offset data Hw Hne Hb) as (Hw' & _ & He & Hd).
  destruct (materialize_shown w base Hw) as [HL HI].
  specialize (He (len base)).
  set (f := materialize w base) in *. set (eff := effective_size w (len base)) in *.
  assert (Spec.pwrite f offset data =
    blit (Spec.ftruncate f (N.max eff (offset + len data))) offset data) as ->.
  { unfold Spec.pwrite. destruct data; [done|]. do 3 f_equal. unfold len. rewrite HL. lia. }
  assert (length (Spec.ftruncate f (N.max eff (offset + len data))) =
    N.to_nat (N.max eff (offset + len data))) as Hfl by apply length_resize.
  apply materialize_ext; [done|rewrite blit_length; rewrite Hfl, ?He; unfold len; lia|].
  rewrite blit_length by (rewrite Hfl; unfold len; lia). rewrite Hfl. intros i Hi.
  rewrite blit_lookup by (rewrite Hfl; unfold len; lia). unfold shown. rewrite Hd.
  unfold len in *. case_decide as H1; case_decide as H2; try lia.
  - replace (N.to_nat (N.of_nat i - offset)) with (i - N.to_nat offset)%nat by lia.
    destruct (data !! _) eqn:E; [done|]. apply lookup_ge_None in E. lia.
  - rewrite ftruncate_lookup by done. f_equal. destruct (decide (i < N.to_nat eff)%nat).
    + by rewrite HI by done.
    + rewrite (lookup_ge_None_2 f) by lia.
      rewrite (dirty_byte_out (overlay_ w)), Nat2N.id, lookup_ge_None_2; [done|lia|].
      intros r Hr. pose proof (runs_below_size w (N.of_nat (length base)) r Hw Hr) as H.
      change (effective_size w (N.of_nat (length base))) with eff in H. lia.
Qed.

(** [truncate] refines [ftruncate], under the same condition on the base. *)
Lemma truncate_is_ftruncate w base n :
  wb_inv w -> len base <= effective_size w (len base) \/ n <= effective_size w (len base) ->
  materialize (wb_truncate w n) base = Spec.ftruncate (materialize w base) n.
Proof.
  intros Hw Hgap. destruct (wb_truncate_facts w n Hw) as (Hw' & _ & He & Hd).
  destruct (materialize_shown w base Hw) as [HL HI].
  set (eff := effective_size w (len base)) in *.
  apply materialize_ext; [done|unfold Spec.ftruncate; by rewrite length_resize, He|].
  unfold Spec.ftruncate at 1. rewrite length_resize. intros i Hi.
  rewrite ftruncate_lookup by done. f_equal. unfold shown. rewrite Hd, decide_True by lia.
  destruct (decide (i < N.to_nat eff)%nat); [by rewrite HI|].
  rewrite (lookup_ge_None_2 (materialize w base)) by lia.
  rewrite (dirty_byte_out (overlay_ w)), Nat2N.id, lookup_ge_None_2; [done|unfold len in *; lia|].
  intros r Hr. pose proof (runs_below_size w (len base) r Hw Hr) as H.
  fold eff in H. lia.
Qed.

(** C8. Within 64-bit sizes the buffer refines a file, with one condition: reading is the window of
    the shown file and clearing shows the base again; and when the base has no
    bytes past the current size, or the operation stays within that size, a write
    (with its merging of runs) is one [pwrite] and a truncation one [ftruncate]. *)
Theorem buffer_refines_file w base :
  wb_inv w ->
  (forall offset n, effective_size w (len base) < 2 ^ 64 ->
     wb_read w offset n base = take (N.to_nat n) (drop (N.to_nat offset) (materialize w base))) /\
  (forall offset data, offset + len data < 2 ^ 64 ->
     len base <= effective_size w (len base) \/ offset + len data <= effective_size w (len base) ->
     materialize (wb_write w offset data) base = Spec.pwrite (materialize w base) offset data) /\
  (forall n, len base <= effective_size w (len base) \/ n <= effective_size w (len base) ->
     materialize (wb_truncate w n) base = Spec.ftruncate (materialize w base) n) /\
  materialize (wb_clear w) base = base.
Proof.
  intros Hw. split; [|split; [|split]].
  - intros offset n. by apply wb_read_slice.
  - intros offset data. by apply write_is_pwrite.
  - intros n. by apply truncate_is_ftruncate.
  - apply materialize_clear.
Qed.

(** Truncating below the base and extending again re-exposes the old base
    bytes in the hole, where a file shows zeros: the overlay keeps no record
    that they were cut off. *)
Theorem extend_after_shrink_exposes_base w base n offset data p :
  wb_inv w -> data <> [] -> offset + len data < 2 ^ 64 -> n <= p -> p < offset ->
  materialize (wb_write (wb_truncate w n) offset data) base !! N.to_nat p =
  Some (default zero (base !! N.to_nat p)).
Proof.
  intros Hw Hne Hb Hn Hp. destruct (wb_truncate_facts w n Hw) as (Hw1 & _ & He1 & Hd1).
  destruct (wb_write_facts _ offset data Hw1 Hne Hb) as (Hw2 & _ & He2 & Hd2).
  destruct (materialize_shown _ base Hw2) as [HL HI].
  rewrite HI by (rewrite He2; lia). rewrite N2Nat.id. unfold shown.
  rewrite Hd2, decide_False, Hd1, decide_False by lia. done.
Qed.

(** ** Witnesses *)

Definition sample_base : bytes := lit "0123456789".
Definition sample_ops : list wop :=
  [WWrite 2 (lit "ab"); WWrite 6 (lit "cd"); WWrite 4 (lit "xy"); WTruncate 9; WWrite 9 (lit "Z")].
Definition sample_buffer : WriteBuffer :=
  fold_left exec_wop sample_ops (new_write_buffer ZERO_HASH 10).

Lemma sample_ops_fit : Forall wop_fits sample_ops.
Proof. repeat constructor. Qed.

Lemma sample_buffer_inv : wb_inv sample_buffer.
Proof. apply exec_wops_inv; [apply new_write_buffer_inv|apply sample_ops_fit]. Qed.

Lemma write_buffer_invariant_witness :
  dirty_bytes_ sample_buffer = 7 /\ dirty_bytes_ sample_buffer = sum_len (overlay_ sample_buffer).
Proof.
  split; [reflexivity|].
  exact (wb_dirty _ (proj1 (write_buffer_invariant ZERO_HASH 10 sample_ops sample_ops_fit))).
Defined.

Lemma buffer_refines_file_witness :
  wb_read sample_buffer 3 5 sample_base = lit "bxycd" /\
  materialize (wb_write sample_buffer 12 (lit "!")) sample_base = lit "01abxycd8Z" ++ [zero; zero] ++ lit "!" /\
  materialize (wb_truncate sample_buffer 5) sample_base = lit "01abx".
Proof.
  destruct (buffer_refines_file sample_buffer sample_base sample_buffer_inv) as (Hr & Hw & Ht & _).
  split; [|split].
  - rewrite Hr by reflexivity. vm_compute. reflexivity.
  - rewrite Hw; [vm_compute; reflexivity|reflexivity|left; vm_compute; discriminate].
  - rewrite Ht; [vm_compute; reflexivity|left; vm_compute; discriminate].
Defined.

Lemma extend_after_shrink_exposes_base_witness :
  materialize (wb_write (wb_truncate sample_buffer 3) 8 (lit "!")) sample_base !! 5%nat =
  Some "5"%char.
Proof.
  apply (extend_after_shrink_exposes_base sample_buffer sample_base 3 8 (lit "!") 5).
  - apply sample_buffer_inv.
  - discriminate.
  - reflexivity.
  - discriminate.
  - reflexivity.
Defined.
