(* ===== verification/Codec.v ===== *)
(** The byte formats of stored objects: tree objects (the entry codec of
    cas/tree_serialize.cpp) and commit objects (cas/commit.h, cas/commit.cpp).

    Decoders read with [memcpy] from a buffer at a running position, so a
    decoder has three outcomes: a value, [false], and a read outside the buffer,
    whose behaviour is undefined. *)

From S2P Require Import Prelude Hashes WorkingTree.

Inductive parse (A : Type) : Type :=
| Parsed (a : A)
| Rejected
| OutOfBounds.

Arguments Parsed {A} a.
Arguments Rejected {A}.
Arguments OutOfBounds {A}.

Definition pbind {A B} (p : parse A) (f : A -> parse B) : parse B :=
  match p with Parsed a => f a | Rejected => Rejected | OutOfBounds => OutOfBounds end.

Notation "'read*' x := p 'in' k" := (pbind p (fun x => k))
  (at level 10, x pattern, p at level 100, k at level 200) : ctx_scope.

(** [memcpy(dst, body.data() + pos, n)]. *)
Definition fetch (body : bytes) (pos n : nat) : parse bytes :=
  match slice body pos n with Some x => Parsed x | None => OutOfBounds end.

Definition fetch_int (body : bytes) (pos w : nat) : parse N :=
  read* x := fetch body pos w in Parsed (le_decode x).

Definition fetch_hash (body : bytes) (pos : nat) : parse Hash :=
  read* x := fetch body pos 32 in
  match to_vec 32 x with Some h => Parsed h | None => OutOfBounds end.

(** ** Commits *)

Record CommitData : Type := mkCommit {
  tree_hash : Hash;
  parents : list Hash;
  session_id : N;
  timestamp_ns : N;
  label : str;
  policy_version : N
}.

Definition serialize_commit (c : CommitData) : bytes :=
  let sz := (32 + 4 + length (parents c) * 32 + 8 + 8 + 2 + length (label c) + 4)%nat in
  let pc := u32 (N.of_nat (length (parents c))) in
  let ll := u16 (N.of_nat (length (label c))) in
  let payload :=
    hash_bytes (tree_hash c) ++ le_encode 4 pc ++ mjoin (hash_bytes <$> parents c) ++
    le_encode 8 (session_id c) ++ le_encode 8 (timestamp_ns c) ++ le_encode 2 ll ++
    take (N.to_nat ll) (label c) ++ le_encode 4 (policy_version c) in
  payload ++ replicate (sz - length payload) zero.

Fixpoint fetch_parents (body : bytes) (pos n : nat) : parse (list Hash) :=
  match n with
  | O => Parsed []
  | S n' =>
      read* h := fetch_hash body pos in
      read* hs := fetch_parents body (pos + 32) n' in
      Parsed (h :: hs)
  end.

(** The bound check multiplies the [uint32_t] count by 32 in 32 bits. *)
Definition deserialize_commit (body : bytes) : parse CommitData :=
  if decide (length body < 32 + 4)%nat then Rejected else
  read* th := fetch_hash body 0 in
  read* pc := fetch_int body 32 4 in
  if N.of_nat (length body) <? 36 + u32 (pc * 32) + 8 + 8 + 2 + 4 then Rejected else
  read* ps := fetch_parents body 36 (N.to_nat pc) in
  let pos := (36 + 32 * N.to_nat pc)%nat in
  read* sid := fetch_int body pos 8 in
  read* ts := fetch_int body (pos + 8) 8 in
  read* ll := fetch_int body (pos + 16) 2 in
  if decide (length body < pos + 18 + N.to_nat ll + 4)%nat then Rejected else
  read* lb := fetch body (pos + 18) (N.to_nat ll) in
  read* pv := fetch_int body (pos + 18 + N.to_nat ll) 4 in
  Parsed (mkCommit th ps sid ts lb pv).

(** ** Tree objects *)

Abbreviation child := (str * WorkingTreeEntry)%type.

(** [static_cast<uint8_t>(kind)] and [static_cast<EntryKind>(byte)]. *)
Definition kind_byte (k : EntryKind) : ascii :=
  match k with
  | Blob => ascii_of_N 0
  | Tree => ascii_of_N 1
  | Symlink => ascii_of_N 2
  | Deleted => ascii_of_N 3
  | OtherKind b => ascii_of_N (u8 b)
  end.

Definition kind_of_byte (b : ascii) : EntryKind :=
  match N_of_ascii b with
  | 0 => Blob
  | 1 => Tree
  | 2 => Symlink
  | 3 => Deleted
  | n => OtherKind n
  end.

(** [std::sort] by name; entry names of a directory are distinct, so the
    order of equal names does not matter. *)
Definition sort_children (l : list child) : list child := merge_sort key_le l.

Definition encode_entry (x : child) : bytes :=
  let name_len := u16 (N.of_nat (length x.1)) in
  le_encode 2 name_len ++ take (N.to_nat name_len) x.1 ++ le_encode 4 (e_mode x.2) ++
  [kind_byte (e_kind x.2)] ++ hash_bytes (e_hash x.2).

Definition serialize_tree_entries (children : list child) : bytes :=
  let sorted := sort_children children in
  le_encode 4 (u32 (N.of_nat (length sorted))) ++ mjoin (encode_entry <$> sorted).

Fixpoint decode_entries (body : bytes) (pos n : nat) : parse (list child) :=
  match n with
  | O => Parsed []
  | S n' =>
      if decide (length body < pos + 2)%nat then Rejected else
      read* name_len := fetch_int body pos 2 in
      let nl := N.to_nat name_len in
      if decide (length body < pos + 2 + nl + 4 + 1 + 32)%nat then Rejected else
      read* name := fetch body (pos + 2) nl in
      read* mode := fetch_int body (pos + 2 + nl) 4 in
      read* kind := fetch_int body (pos + 2 + nl + 4) 1 in
      read* hash := fetch_hash body (pos + 2 + nl + 5) in
      read* rest := decode_entries body (pos + 2 + nl + 37) n' in
      Parsed ((name, mkEntry (kind_of_byte (ascii_of_N kind)) hash mode) :: rest)
  end.

Definition deserialize_tree_entries (body : bytes) : parse (list child) :=
  if decide (length body < 4)%nat then Rejected else
  read* count := fetch_int body 0 4 in
  decode_entries body 4 (N.to_nat count).

(** ** Well-formed values *)

(** Integer fields hold values of their width. *)
Definition commit_ok (c : CommitData) : Prop :=
  session_id c < 2 ^ 64 /\ timestamp_ns c < 2 ^ 64 /\ policy_version c < 2 ^ 32.

Definition kind_ok (k : EntryKind) : Prop :=
  match k with OtherKind b => 4 <= b /\ b < 256 | _ => True end.

Definition child_ok (x : child) : Prop := e_mode x.2 < 2 ^ 32 /\ kind_ok (e_kind x.2).

(** A name or label as its 16-bit length field keeps it. *)
Definition clip (s : str) : str := take (N.to_nat (u16 (N.of_nat (length s)))) s.

(** ** Reading at a position *)

(** The unread rest of [body] at [pos] is [rest]. *)
Definition at_ (body : bytes) (pos : nat) (rest : bytes) : Prop :=
  (pos <= length body)%nat /\ drop pos body = rest.

Lemma at_start body : at_ body 0 body.
Proof. split; [lia|done]. Qed.

Lemma fetch_at body pos x rest :
  at_ body pos (x ++ rest) ->
  fetch body pos (length x) = Parsed x /\ at_ body (pos + length x) rest.
Proof.
  intros [Hp Hd]. assert (length (drop pos body) = length (x ++ rest)) as Hl by by rewrite Hd.
  rewrite length_drop, length_app in Hl.
  unfold fetch, slice, at_. rewrite decide_True by lia.
  split; [by rewrite Hd, take_app_length|]. split; [lia|].
  by rewrite <- drop_drop, Hd, drop_app_length.
Qed.

Lemma fetch_at_n body pos x rest n :
  length x = n -> at_ body pos (x ++ rest) ->
  fetch body pos n = Parsed x /\ at_ body (pos + n) rest.
Proof. intros <-. apply fetch_at. Qed.

Lemma fetch_int_at body pos w n rest :
  n < 256 ^ N.of_nat w -> at_ body pos (le_encode w n ++ rest) ->
  fetch_int body pos w = Parsed n /\ at_ body (pos + w) rest.
Proof.
  intros Hn Ha. unfold fetch_int.
  destruct (fetch_at_n _ _ _ _ w (le_encode_length w n) Ha) as [-> H]. simpl.
  by rewrite le_decode_encode_small.
Qed.

Lemma fetch_hash_at body pos h rest :
  at_ body pos (hash_bytes h ++ rest) ->
  fetch_hash body pos = Parsed h /\ at_ body (pos + 32) rest.
Proof.
  intros Ha. unfold fetch_hash.
  destruct (fetch_at_n _ _ _ _ 32 (hash_bytes_length h) Ha) as [-> H].
  cbn [pbind]. unfold hash_bytes. by rewrite to_vec_list.
Qed.

Lemma fetch_in body pos n :
  (pos + n <= length body)%nat -> exists x, fetch body pos n = Parsed x /\ length x = n.
Proof.
  intros H. unfold fetch. destruct (proj2 (slice_is_Some body pos n) H) as [x Hx].
  rewrite Hx. exists x. split; [done|]. by eapply slice_length.
Qed.

Lemma fetch_int_in body pos w :
  (pos + w <= length body)%nat ->
  exists n, fetch_int body pos w = Parsed n /\ n < 256 ^ N.of_nat w.
Proof.
  intros H. unfold fetch_int. destruct (fetch_in body pos w H) as (x & -> & <-). simpl.
  eexists. split; [done|]. apply le_decode_bound.
Qed.

Lemma fetch_hash_in body pos :
  (pos + 32 <= length body)%nat -> exists h, fetch_hash body pos = Parsed h.
Proof.
  intros H. unfold fetch_hash. destruct (fetch_in body pos 32 H) as (x & -> & Hx).
  cbn [pbind]. destruct (proj2 (to_vec_length 32 x) Hx) as [h ->]. by exists h.
Qed.

Lemma fetch_out body pos n : (length body < pos + n)%nat -> fetch body pos n = OutOfBounds.
Proof. intros H. unfold fetch, slice. by rewrite decide_False by lia. Qed.

Lemma fetch_int_width body pos w n : fetch_int body pos w = Parsed n -> n < 256 ^ N.of_nat w.
Proof.
  unfold fetch_int, fetch. destruct (slice body pos w) as [x|] eqn:E; simpl; [|done].
  intros [= <-]. rewrite <- (slice_length _ _ _ _ E). apply le_decode_bound.
Qed.

Lemma clip_length s : N.of_nat (length (clip s)) = u16 (N.of_nat (length s)).
Proof.
  unfold clip. rewrite length_take.
  assert (u16 (N.of_nat (length s)) <= N.of_nat (length s)) by by apply N.Div0.mod_le.
  lia.
Qed.

Lemma clip_short s : N.of_nat (length s) < 2 ^ 16 -> clip s = s.
Proof. intros H. unfold clip, u16. rewrite N.mod_small by done. by rewrite Nat2N.id, firstn_all. Qed.

Lemma u16_lt n : u16 n < 2 ^ 16.
Proof. by apply N.mod_lt. Qed.

Lemma u32_lt n : u32 n < 2 ^ 32.
Proof. by apply N.mod_lt. Qed.

(** ** The commit codec *)

Lemma parents_length ps : length (mjoin (hash_bytes <$> ps)) = (32 * length ps)%nat.
Proof.
  induction ps as [|p ps IH]; [done|].
  change (mjoin (hash_bytes <$> p :: ps)) with (hash_bytes p ++ mjoin (hash_bytes <$> ps)).
  rewrite length_app, hash_bytes_length, IH. simpl. lia.
Qed.

Lemma fetch_parents_at body pos ps rest :
  at_ body pos (mjoin (hash_bytes <$> ps) ++ rest) ->
  fetch_parents body pos (length ps) = Parsed ps /\ at_ body (pos + 32 * length ps) rest.
Proof.
  revert pos. induction ps as [|p ps IH]; intros pos Ha.
  - simpl in *. by rewrite Nat.add_0_r.
  - change (mjoin (hash_bytes <$> p :: ps)) with (hash_bytes p ++ mjoin (hash_bytes <$> ps)) in Ha.
    rewrite <- app_assoc in Ha. apply fetch_hash_at in Ha as [Hf Ha].
    cbn [length fetch_parents]. rewrite Hf. cbn [pbind].
    apply IH in Ha as [-> Ha]. cbn [pbind]. split; [done|].
    by replace (pos + 32 * S (length ps))%nat with (pos + 32 + 32 * length ps)%nat by lia.
Qed.

Lemma fetch_parents_in body pos n :
  (pos + 32 * n <= length body)%nat -> exists ps, fetch_parents body pos n = Parsed ps.
Proof.
  revert pos. induction n as [|n IH]; intros pos H; simpl; [by eexists|].
  destruct (fetch_hash_in body pos) as [h ->]; [lia|]. simpl.
  destruct (IH (pos + 32)%nat) as [ps ->]; [lia|]. by eexists.
Qed.

Lemma fetch_parents_out body pos n :
  (pos <= length body)%nat -> (length body < pos + 32 * n)%nat ->
  fetch_parents body pos n = OutOfBounds.
Proof.
  revert pos. induction n as [|n IH]; intros pos Hp H; [lia|]. cbn [fetch_parents].
  destruct (decide (pos + 32 <= length body)%nat).
  - destruct (fetch_hash_in body pos) as [h ->]; [done|]. simpl.
    rewrite IH by lia. done.
  - unfold fetch_hash. rewrite fetch_out by lia. done.
Qed.

(** Drop the padding and name the parts of a serialized commit. *)
Lemma serialize_commit_parts c :
  exists pad, serialize_commit c =
    hash_bytes (tree_hash c) ++ le_encode 4 (u32 (N.of_nat (length (parents c)))) ++
    mjoin (hash_bytes <$> parents c) ++ le_encode 8 (session_id c) ++
    le_encode 8 (timestamp_ns c) ++ le_encode 2 (u16 (N.of_nat (length (label c)))) ++
    clip (label c) ++ le_encode 4 (policy_version c) ++ pad.
Proof. eexists. unfold serialize_commit. rewrite <- !app_assoc. reflexivity. Qed.

Lemma serialize_commit_length c :
  length (serialize_commit c) = (58 + 32 * length (parents c) + length (label c))%nat.
Proof.
  unfold serialize_commit. rewrite length_app, length_replicate.
  match goal with |- (?l + (?s - ?l))%nat = _ => assert (l <= s)%nat; [|lia] end.
  rewrite !length_app, hash_bytes_length, parents_length, !le_encode_length, length_take. lia.
Qed.

Lemma commit_roundtrip_clip c :
  commit_ok c -> N.of_nat (length (parents c)) < 2 ^ 27 ->
  deserialize_commit (serialize_commit c) =
  Parsed (mkCommit (tree_hash c) (parents c) (session_id c) (timestamp_ns c)
            (clip (label c)) (policy_version c)).
Proof.
  intros (Hs & Ht & Hv) Hp. pose proof (serialize_commit_length c) as Hlen.
  destruct (serialize_commit_parts c) as [pad Hparts].
  pose proof (at_start (serialize_commit c)) as Ha. rewrite Hparts in Ha at 2. clear Hparts.
  unfold deserialize_commit. rewrite decide_False by lia.
  apply fetch_hash_at in Ha as [-> Ha]. cbn [pbind].
  apply fetch_int_at in Ha as [Hpc Ha]; [|apply u32_lt].
  assert (u32 (N.of_nat (length (parents c))) = N.of_nat (length (parents c))) as Hu
    by (apply N.mod_small; lia).
  rewrite Hu in *. change (0 + 32)%nat with 32%nat in *. rewrite Hpc. cbn [pbind].
  replace (u32 (N.of_nat (length (parents c)) * 32)) with (N.of_nat (length (parents c)) * 32)
    by (symmetry; apply N.mod_small; lia).
  replace (N.of_nat (length (serialize_commit c)) <? _) with false
    by (symmetry; apply N.ltb_ge; lia).
  rewrite Nat2N.id. change (32 + 4)%nat with 36%nat in *.
  apply fetch_parents_at in Ha as [-> Ha]. cbn [pbind].
  set (pos := (36 + 32 * length (parents c))%nat) in *.
  apply fetch_int_at in Ha as [-> Ha]; [|done]. cbn [pbind].
  apply fetch_int_at in Ha as [-> Ha]; [|done]. cbn [pbind].
  replace (pos + 8 + 8)%nat with (pos + 16)%nat in Ha by lia.
  apply fetch_int_at in Ha as [-> Ha]; [|apply u16_lt]. cbn [pbind].
  replace (pos + 16 + 2)%nat with (pos + 18)%nat in Ha by lia.
  rewrite <- clip_length, Nat2N.id.
  assert (length (clip (label c)) <= length (label c))%nat.
  { unfold clip. rewrite length_take. lia. }
  rewrite decide_False by lia.
  apply fetch_at in Ha as [-> Ha]. cbn [pbind].
  apply fetch_int_at in Ha as [-> _]; [|done]. done.
Qed.

Lemma deserialize_commit_safe body :
  (forall pc, fetch_int body 32 4 = Parsed pc -> pc < 2 ^ 27) ->
  deserialize_commit body <> OutOfBounds.
Proof.
  intros Hpc. unfold deserialize_commit. case_decide; [done|].
  destruct (fetch_hash_in body 0) as [h ->]; [lia|]. cbn [pbind].
  destruct (fetch_int_in body 32 4) as (pc & Epc & _); [lia|].
  rewrite Epc. cbn [pbind]. specialize (Hpc _ Epc).
  replace (u32 (pc * 32)) with (pc * 32) by (symmetry; apply N.mod_small; lia).
  destruct (N.ltb_spec (N.of_nat (length body)) (36 + pc * 32 + 8 + 8 + 2 + 4)); [done|].
  destruct (fetch_parents_in body 36 (N.to_nat pc)) as [ps ->]; [lia|]. cbn [pbind].
  destruct (fetch_int_in body (36 + 32 * N.to_nat pc) 8) as (? & -> & _); [lia|]. cbn [pbind].
  destruct (fetch_int_in body (36 + 32 * N.to_nat pc + 8) 8) as (? & -> & _); [lia|]. cbn [pbind].
  destruct (fetch_int_in body (36 + 32 * N.to_nat pc + 16) 2) as (ll & -> & _); [lia|].
  cbn [pbind]. case_decide; [done|].
  destruct (fetch_in body (36 + 32 * N.to_nat pc + 18) (N.to_nat ll)) as (? & -> & _); [lia|].
  cbn [pbind].
  destruct (fetch_int_in body (36 + 32 * N.to_nat pc + 18 + N.to_nat ll) 4) as (? & -> & _); [lia|].
  done.
Qed.

Lemma deserialize_commit_wraps body pc :
  fetch_int body 32 4 = Parsed pc -> 2 ^ 27 <= pc -> N.of_nat (length body) < 2 ^ 32 ->
  58 + u32 (pc * 32) <= N.of_nat (length body) -> deserialize_commit body = OutOfBounds.
Proof.
  intros Hpc Hle Hlen Hchk. unfold deserialize_commit. rewrite decide_False by lia.
  destruct (fetch_hash_in body 0) as [h ->]; [lia|]. cbn [pbind]. rewrite Hpc. cbn [pbind].
  replace (N.of_nat (length body) <? _) with false by (symmetry; apply N.ltb_ge; lia).
  rewrite fetch_parents_out; [done|lia|lia].
Qed.

(** ** The tree codec *)

Lemma kind_of_kind_byte k : kind_ok k -> kind_of_byte (ascii_of_N (N_of_ascii (kind_byte k))) = k.
Proof.
  rewrite ascii_N_embedding. destruct k as [| | | |b]; try done. simpl. intros [H1 H2].
  unfold kind_of_byte, u8. rewrite N.mod_small by done. rewrite N_ascii_embedding by done.
  destruct b as [|[[?|?|]|[?|?|]|]]; try done; lia.
Qed.

Lemma sort_children_length l : length (sort_children l) = length l.
Proof. apply Permutation_length, merge_sort_Permutation. Qed.

Definition clip_child (x : child) : child := (clip x.1, x.2).

Lemma decode_entries_at body pos l rest :
  Forall child_ok l -> at_ body pos (mjoin (encode_entry <$> l) ++ rest) ->
  decode_entries body pos (length l) = Parsed (clip_child <$> l).
Proof.
  intros Hl. revert pos. induction Hl as [|x l [Hm Hk] Hl IH]; intros pos Ha; [done|].
  change (mjoin (encode_entry <$> x :: l)) with (encode_entry x ++ mjoin (encode_entry <$> l)) in Ha.
  rewrite <- app_assoc in Ha. unfold encode_entry in Ha at 1. rewrite <- !app_assoc in Ha.
  fold (clip x.1) in Ha. cbn [length decode_entries].
  assert (length body - pos = 2 + (length (clip x.1) + (4 + (1 + (32 +
    length (mjoin (encode_entry <$> l) ++ rest))))))%nat as Hlen.
  { destruct Ha as [_ Hd]. rewrite <- length_drop, Hd.
    rewrite length_app, le_encode_length, length_app, length_app, le_encode_length, length_app,
      length_app, hash_bytes_length. done. }
  rewrite decide_False by lia.
  apply fetch_int_at in Ha as [-> Ha]; [|apply u16_lt]. cbn [pbind].
  rewrite <- clip_length, Nat2N.id. rewrite decide_False by lia.
  apply fetch_at in Ha as [-> Ha]. cbn [pbind].
  apply fetch_int_at in Ha as [-> Ha]; [|done]. cbn [pbind].
  apply (fetch_at_n _ _ [kind_byte (e_kind x.2)] _ 1) in Ha as [Hf Ha]; [|done].
  unfold fetch_int at 1. rewrite Hf. cbn [pbind le_decode].
  rewrite N.mul_0_r, N.add_0_r.
  replace (pos + 2 + length (clip x.1) + 4 + 1)%nat
    with (pos + 2 + length (clip x.1) + 5)%nat in Ha by lia.
  apply fetch_hash_at in Ha as [-> Ha]. cbn [pbind].
  replace (pos + 2 + length (clip x.1) + 5 + 32)%nat
    with (pos + 2 + length (clip x.1) + 37)%nat in Ha by lia.
  rewrite IH by done. cbn [pbind]. rewrite kind_of_kind_byte by done.
  by destruct x as [n [k h m]].
Qed.

Lemma deserialize_serialize_entries l :
  Forall child_ok l -> N.of_nat (length l) < 2 ^ 32 ->
  deserialize_tree_entries (serialize_tree_entries l) = Parsed (clip_child <$> sort_children l).
Proof.
  intros Hl Hn. unfold serialize_tree_entries.
  set (body := le_encode 4 _ ++ _).
  assert (at_ body 0 (le_encode 4 (u32 (N.of_nat (length (sort_children l)))) ++
    mjoin (encode_entry <$> sort_children l) ++ [])) as Ha.
  { rewrite app_nil_r. apply at_start. }
  unfold deserialize_tree_entries. rewrite decide_False.
  2:{ unfold body. rewrite length_app, le_encode_length. lia. }
  apply fetch_int_at in Ha as [-> Ha]; [|apply u32_lt]. cbn [pbind].
  unfold u32. rewrite N.mod_small by (by rewrite sort_children_length). rewrite Nat2N.id.
  apply decode_entries_at in Ha; [done|].
  rewrite Forall_forall in *. intros x Hx. apply Hl. unfold sort_children in Hx.
  by rewrite merge_sort_Permutation in Hx.
Qed.

Lemma decode_entries_safe body pos n : decode_entries body pos n <> OutOfBounds.
Proof.
  revert pos. induction n as [|n IH]; intros pos; [done|]. cbn [decode_entries].
  case_decide; [done|].
  destruct (fetch_int_in body pos 2) as (nl & -> & _); [lia|]. cbn [pbind].
  case_decide; [done|].
  destruct (fetch_in body (pos + 2) (N.to_nat nl)) as (? & -> & _); [lia|]. cbn [pbind].
  destruct (fetch_int_in body (pos + 2 + N.to_nat nl) 4) as (? & -> & _); [lia|]. cbn [pbind].
  destruct (fetch_int_in body (pos + 2 + N.to_nat nl + 4) 1) as (? & -> & _); [lia|]. cbn [pbind].
  destruct (fetch_hash_in body (pos + 2 + N.to_nat nl + 5)) as (? & ->); [lia|]. cbn [pbind].
  specialize (IH (pos + 2 + N.to_nat nl + 37)%nat).
  destruct (decode_entries body (pos + 2 + N.to_nat nl + 37) n); done.
Qed.

Lemma deserialize_tree_entries_safe body : deserialize_tree_entries body <> OutOfBounds.
Proof.
  unfold deserialize_tree_entries. case_decide; [done|].
  destruct (fetch_int_in body 0 4) as (n & -> & _); [lia|]. apply decode_entries_safe.
Qed.

Lemma sort_children_sorted l : NoDup l.*1 -> ksorted (sort_children l).
Proof.
  intros H. apply key_le_to_lt.
  - unfold sort_children. by rewrite merge_sort_Permutation.
  - apply Sorted_StronglySorted; [apply _|]. apply Sorted_merge_sort, _.
Qed.

Lemma elem_of_sort_children l x : x ∈ sort_children l <-> x ∈ l.
Proof. unfold sort_children. by rewrite merge_sort_Permutation. Qed.

Lemma sort_children_perm l1 l2 : NoDup l1.*1 -> l1 ≡ₚ l2 -> sort_children l1 = sort_children l2.
Proof.
  intros Hnd Hp. apply ksorted_unique.
  - by apply sort_children_sorted.
  - apply sort_children_sorted. by rewrite <- Hp.
  - intros x. by rewrite !elem_of_sort_children, Hp.
Qed.

Lemma clip_children_short l :
  Forall (fun x : child => N.of_nat (length x.1) < 2 ^ 16) l -> clip_child <$> l = l.
Proof.
  induction 1 as [|[n e] l Hx Hl IH]; [done|]. rewrite fmap_cons, IH. unfold clip_child.
  by rewrite clip_short.
Qed.

(** ** Properties *)

(** C28. A commit decodes to what was encoded, with all parents in order; only a
    label of 2^16 bytes or more is cut, to its length modulo 2^16. *)
Theorem commit_codec_roundtrip c :
  commit_ok c -> N.of_nat (length (parents c)) < 2 ^ 27 ->
  deserialize_commit (serialize_commit c) =
    Parsed (mkCommit (tree_hash c) (parents c) (session_id c) (timestamp_ns c)
              (clip (label c)) (policy_version c)) /\
  (N.of_nat (length (label c)) < 2 ^ 16 -> clip (label c) = label c) /\
  length (serialize_commit c) = (58 + 32 * length (parents c) + length (label c))%nat.
Proof.
  intros Hc Hp. split; [by apply commit_roundtrip_clip|].
  split; [apply clip_short|apply serialize_commit_length].
Qed.

(** C40. Decoding a commit reads within the buffer on every input whose parent
    count is below 2^27; from 2^27 on the 32-bit product in the length check
    wraps, and an input that passes the wrapped check is read out of bounds. *)
Theorem commit_decode_bounds body pc :
  (36 <= length body)%nat -> N.of_nat (length body) < 2 ^ 32 ->
  fetch_int body 32 4 = Parsed pc ->
  (pc < 2 ^ 27 -> deserialize_commit body <> OutOfBounds) /\
  (2 ^ 27 <= pc -> deserialize_commit body = OutOfBounds <->
     58 + u32 (pc * 32) <= N.of_nat (length body)).
Proof.
  intros H36 Hlen Hpc. split.
  - intros Hlt. apply deserialize_commit_safe. intros pc' E. congruence.
  - intros Hge. split; [|by apply (deserialize_commit_wraps body pc)].
    unfold deserialize_commit. rewrite decide_False by lia.
    destruct (fetch_hash_in body 0) as [h ->]; [lia|]. cbn [pbind]. rewrite Hpc. cbn [pbind].
    destruct (N.ltb_spec (N.of_nat (length body)) (36 + u32 (pc * 32) + 8 + 8 + 2 + 4)); [done|].
    intros _. lia.
Qed.

(** A tree object decodes to the directory's entries in name order, its
    bytes do not depend on the order the entries were listed in, and decoding
    any byte string stays within the buffer. *)
Theorem tree_codec_roundtrip l :
  Forall child_ok l -> NoDup l.*1 -> N.of_nat (length l) < 2 ^ 32 ->
  Forall (fun x : child => N.of_nat (length x.1) < 2 ^ 16) l ->
  deserialize_tree_entries (serialize_tree_entries l) = Parsed (sort_children l) /\
  ksorted (sort_children l) /\ sort_children l ≡ₚ l /\
  (forall l', l ≡ₚ l' -> serialize_tree_entries l' = serialize_tree_entries l) /\
  (forall body, deserialize_tree_entries body <> OutOfBounds).
Proof.
  intros Hok Hnd Hn Hlen. split; [|split; [|split; [|split]]].
  - rewrite deserialize_serialize_entries by done. f_equal. apply clip_children_short.
    rewrite Forall_forall in *. intros x Hx. apply Hlen. by rewrite <- elem_of_sort_children.
  - by apply sort_children_sorted.
  - apply merge_sort_Permutation.
  - intros l' Hp. unfold serialize_tree_entries. by rewrite (sort_children_perm l l').
  - apply deserialize_tree_entries_safe.
Qed.

(** ** Witnesses *)

Definition sample_commit : CommitData :=
  mkCommit ZERO_HASH [ZERO_HASH; ZERO_HASH] 7 1234567890123 (lit "checkpoint") 1.

Definition sample_children : list child :=
  [(lit "zeta", mkEntry Symlink ZERO_HASH 511); (lit "alpha", mkEntry Blob ZERO_HASH 420)].

(** A commit body claiming 2^27 parents in 58 bytes. *)
Definition wrapping_commit : bytes :=
  hash_bytes ZERO_HASH ++ le_encode 4 (2 ^ 27) ++ replicate 22 zero.

Lemma commit_codec_roundtrip_witness :
  deserialize_commit (serialize_commit sample_commit) = Parsed sample_commit.
Proof.
  destruct (commit_codec_roundtrip sample_commit) as [H _].
  - split; [reflexivity|split; reflexivity].
  - reflexivity.
  - rewrite H. reflexivity.
Defined.

Lemma commit_decode_bounds_witness : deserialize_commit wrapping_commit = OutOfBounds.
Proof.
  apply (commit_decode_bounds wrapping_commit (2 ^ 27)).
  - vm_compute. lia.
  - reflexivity.
  - vm_compute. reflexivity.
  - discriminate.
  - vm_compute. discriminate.
Defined.

Lemma tree_codec_roundtrip_witness :
  deserialize_tree_entries (serialize_tree_entries sample_children) =
  Parsed (reverse sample_children).
Proof.
  destruct (tree_codec_roundtrip sample_children) as [H _].
  - repeat constructor.
  - vm_compute. repeat constructor; set_solver.
  - reflexivity.
  - repeat constructor.
  - rewrite H. vm_compute. reflexivity.
Defined.
