(* ===== verification/ObjectStore.v ===== *)
(** The content-addressed object store (cas/object_store.h, cas/object_store.cpp).

    BLAKE3 is vendored code and a parameter, [blake3]. System calls are atomic
    and their failures come from the environment: an operation takes the
    outcomes of its calls ([None] for success, the message of the error code
    otherwise). Publication takes the mutex twice with the temporary file
    written in between, so [write_object] is two steps, [write_begin] and
    [write_publish], which other threads' steps can separate ([step]). *)

From S2P Require Import Prelude Hashes.

Abbreviation fault := (option str).

(** A published file: its bytes and its mtime in seconds. *)
Record ObjectFile : Type := mkFile { f_content : bytes; f_mtime : Z }.

(** The three [_synced] sets say what a crash preserves: object data after
    [fdatasync], the directory entry after the shard's [fsync], the shard
    itself after the [fsync] of objects/. *)
Record ObjectStore : Type := mkStore {
  store_root_ : str;
  disk : gmap Hash ObjectFile;
  shards : gset str;
  tmp_files : gset str;
  pending_ : gset Hash;
  last_error_ : str;
  size_cache_ : gmap Hash N;
  data_synced : gset Hash;
  entry_synced : gset Hash;
  shard_synced : gset str
}.

Definition kSizeCacheCap : N := 65536.
Definition kPayloadOffset : nat := 12.
Definition EIO : N := 5.
Definition ENFILE : N := 23.
Definition EMFILE : N := 24.
Definition EOVERFLOW : N := 75.

Definition objects_dir_ (st : ObjectStore) : str := store_root_ st ++ lit "/objects".
Definition tmp_dir_ (st : ObjectStore) : str := store_root_ st ++ lit "/tmp".

(** [hash_to_hex(h).substr(0, 2)]. *)
Definition shard_of (h : Hash) : str := take 2 (hash_to_hex h).

Definition object_path (st : ObjectStore) (h : Hash) : str :=
  objects_dir_ st ++ [slash] ++ shard_of h ++ [slash] ++ hash_to_hex h.

(** ** Field updates *)

Definition set_last_error (e : str) (st : ObjectStore) : ObjectStore :=
  mkStore (store_root_ st) (disk st) (shards st) (tmp_files st) (pending_ st) e
    (size_cache_ st) (data_synced st) (entry_synced st) (shard_synced st).
Definition set_disk (d : gmap Hash ObjectFile) (st : ObjectStore) : ObjectStore :=
  mkStore (store_root_ st) d (shards st) (tmp_files st) (pending_ st) (last_error_ st)
    (size_cache_ st) (data_synced st) (entry_synced st) (shard_synced st).
Definition set_shards (s : gset str) (st : ObjectStore) : ObjectStore :=
  mkStore (store_root_ st) (disk st) s (tmp_files st) (pending_ st) (last_error_ st)
    (size_cache_ st) (data_synced st) (entry_synced st) (shard_synced st).
Definition set_tmp (t : gset str) (st : ObjectStore) : ObjectStore :=
  mkStore (store_root_ st) (disk st) (shards st) t (pending_ st) (last_error_ st)
    (size_cache_ st) (data_synced st) (entry_synced st) (shard_synced st).
Definition set_pending (p : gset Hash) (st : ObjectStore) : ObjectStore :=
  mkStore (store_root_ st) (disk st) (shards st) (tmp_files st) p (last_error_ st)
    (size_cache_ st) (data_synced st) (entry_synced st) (shard_synced st).
Definition set_size_cache (c : gmap Hash N) (st : ObjectStore) : ObjectStore :=
  mkStore (store_root_ st) (disk st) (shards st) (tmp_files st) (pending_ st) (last_error_ st)
    c (data_synced st) (entry_synced st) (shard_synced st).
Definition set_synced (d e : gset Hash) (s : gset str) (st : ObjectStore) : ObjectStore :=
  mkStore (store_root_ st) (disk st) (shards st) (tmp_files st) (pending_ st) (last_error_ st)
    (size_cache_ st) d e s.

(** ** Blob views: an owned descriptor *)

Record BlobView : Type := mkView { fd_ : Z; payload_size_ : N }.

Definition empty_view : BlobView := mkView (-1) 0.

(** The view left behind and the descriptors closed. *)
Definition view_reset (v : BlobView) : BlobView * list Z :=
  (empty_view, if (0 <=? fd_ v)%Z then [fd_ v] else []).

(** The new view and what is left of [other]. *)
Definition view_move (other : BlobView) : BlobView * BlobView :=
  (mkView (fd_ other) (payload_size_ other), mkView (-1) 0).

(** [operator=(BlobView&&)] on distinct objects; [None] for the other is
    self-assignment. *)
Definition view_assign (this : BlobView) (other : option BlobView) :
    BlobView * option BlobView * list Z :=
  match other with
  | None => (this, None, [])
  | Some o =>
      let '(_, closed) := view_reset this in
      (mkView (fd_ o) (payload_size_ o), Some (mkView (-1) 0), closed)
  end.

(** ** Layout *)

Record LayoutEnv : Type := mkLayoutEnv {
  create_directory_fault : str -> fault;
  version_exists : bool;
  shard_entries : list (bool * bool);   (** directory?, writable? *)
  scan_fault : fault
}.

Definition layout_dirs (st : ObjectStore) : list str :=
  [store_root_ st; objects_dir_ st; tmp_dir_ st; store_root_ st ++ lit "/refs";
   store_root_ st ++ lit "/telemetry"].

Definition validate_object_shards_writable (env : LayoutEnv) : bool :=
  forallb (fun '(is_dir, writable) => negb is_dir || writable) (shard_entries env) &&
  bool_decide (scan_fault env = None).

(** The directories created in order up to the first failure, and the result. *)
Fixpoint create_dirs (env : LayoutEnv) (dirs : list str) : list str * bool :=
  match dirs with
  | [] => ([], true)
  | d :: dirs' =>
      match create_directory_fault env d with
      | Some _ => ([], false)
      | None => let '(made, ok) := create_dirs env dirs' in (d :: made, ok)
      end
  end.

Definition init_layout (env : LayoutEnv) (st : ObjectStore) : list str * bool :=
  let '(made, ok) := create_dirs env (layout_dirs st) in
  (made, ok && validate_object_shards_writable env).

(** Temporary files survive when they start with a dot or cannot be removed. *)
Definition cleanup_tmp (remove_fault : str -> fault) (st : ObjectStore) : ObjectStore :=
  set_tmp (filter (fun name =>
    head name = Some "."%char \/ remove_fault name <> None) (tmp_files st)) st.

(** ** Writing *)

Record WriteEnv : Type := mkWriteEnv {
  begin_now : Z;
  refresh_fault : fault;
  mkdir_fault : fault;
  tmp_name : str;
  open_fault : fault;
  write_fault : fault;
  publish_now : Z;
  adopt_fault : fault;
  rename_fault : fault
}.

(** [fs::last_write_time(target, now(), ec)]. *)
Inductive touch_result : Type :=
| Touched (st : ObjectStore)
| TouchMissing
| TouchFailed (msg : str).

Definition touch (now : Z) (f : fault) (h : Hash) (st : ObjectStore) : touch_result :=
  match f with
  | Some msg => TouchFailed msg
  | None =>
      match disk st !! h with
      | Some o => Touched (set_disk (<[h := mkFile (f_content o) now]> (disk st)) st)
      | None => TouchMissing
      end
  end.

(** What the first half of [write_object] leaves to do. *)
Inductive begun : Type :=
| Done (h : Hash)
| Publish (h : Hash) (content : bytes) (tmp_path : str).

Definition write_error (tag : str) (st : ObjectStore) (what detail msg : str) : str :=
  lit "write " ++ tag ++ lit " object: " ++ what ++ lit "'" ++ detail ++ lit "' failed: " ++ msg.

Section hashing.
Context (blake3 : bytes -> Hash).

Definition write_begin (tag : str) (body : bytes) (env : WriteEnv) (st0 : ObjectStore) :
    ObjectStore * begun :=
  let st := set_last_error [] st0 in
  let hash := blake3 (tag ++ body) in
  match touch (begin_now env) (refresh_fault env) hash st with
  | Touched st' => (st', Done hash)
  | TouchFailed msg =>
      (set_last_error (write_error tag st (lit "refresh existing object ") (object_path st hash) msg) st,
       Done ZERO_HASH)
  | TouchMissing =>
      match mkdir_fault env with
      | Some msg =>
          (set_last_error (lit "write " ++ tag ++ lit " object: create_directory('" ++
             objects_dir_ st ++ [slash] ++ shard_of hash ++ lit "') failed: " ++ msg) st,
           Done ZERO_HASH)
      | None =>
          let st1 := set_shards ({[shard_of hash]} ∪ shards st) st in
          let tmp_path := tmp_dir_ st ++ [slash] ++ tmp_name env in
          match open_fault env with
          | Some msg =>
              (set_last_error (lit "write " ++ tag ++ lit " object: open('" ++ tmp_path ++
                 lit "') failed: " ++ msg) st1, Done ZERO_HASH)
          | None =>
              match write_fault env with
              | Some msg =>
                  (set_last_error (lit "write " ++ tag ++ lit " object: write('" ++ tmp_path ++
                     lit "') failed: " ++ msg) st1, Done ZERO_HASH)
              | None =>
                  (set_tmp ({[tmp_name env]} ∪ tmp_files st1) st1,
                   Publish hash (tag ++ body) tmp_path)
              end
          end
      end
  end.

Definition write_publish (tag : str) (env : WriteEnv) (hash : Hash) (content : bytes)
    (tmp_path : str) (st : ObjectStore) : ObjectStore * Hash :=
  let untmp := set_tmp (tmp_files st ∖ {[tmp_name env]}) in
  match touch (publish_now env) (adopt_fault env) hash st with
  | Touched st' => (untmp st', hash)
  | TouchFailed msg =>
      (set_last_error (write_error tag st (lit "refresh existing object ") (object_path st hash) msg)
         (untmp st), ZERO_HASH)
  | TouchMissing =>
      match rename_fault env with
      | Some msg =>
          (set_last_error (lit "write " ++ tag ++ lit " object: rename('" ++ tmp_path ++
             lit "', '" ++ object_path st hash ++ lit "') failed: " ++ msg) (untmp st), ZERO_HASH)
      | None =>
          (set_synced (data_synced st ∖ {[hash]}) (entry_synced st ∖ {[hash]}) (shard_synced st)
            (set_pending ({[hash]} ∪ pending_ st)
              (set_disk (<[hash := mkFile content (publish_now env)]> (disk st)) (untmp st))),
           hash)
      end
  end.

Definition write_object (tag : str) (body : bytes) (env : WriteEnv) (st : ObjectStore) :
    ObjectStore * Hash :=
  match write_begin tag body env st with
  | (st', Done h) => (st', h)
  | (st', Publish h content tmp_path) => write_publish tag env h content tmp_path st'
  end.

Definition blob_body (data : bytes) : bytes := le_encode 8 (u64 (N.of_nat (length data))) ++ data.

Definition write_blob (data : bytes) (env : WriteEnv) (st : ObjectStore) : ObjectStore * Hash :=
  write_object (lit "blob") (blob_body data) env st.

Definition write_tree (body : bytes) (env : WriteEnv) (st : ObjectStore) : ObjectStore * Hash :=
  write_object (lit "tree") body env st.

Definition write_commit (body : bytes) (env : WriteEnv) (st : ObjectStore) : ObjectStore * Hash :=
  write_object (lit "commit") body env st.

End hashing.

(** ** Reading *)

(** [file_size], [open] and the full [read] each may fail: [io_ok] says none did. *)
Definition read_object (st : ObjectStore) (io_ok : bool) (hash : Hash) (tag : str) : option bytes :=
  if negb io_ok then None else
  match disk st !! hash with
  | None => None
  | Some o =>
      let raw := f_content o in
      if decide (length raw < length tag)%nat then None
      else if decide (take (length tag) raw = tag) then Some (drop (length tag) raw)
      else None
  end.

Definition read_blob (st : ObjectStore) (io_ok : bool) (hash : Hash) : option bytes :=
  match read_object st io_ok hash (lit "blob") with
  | None => None
  | Some body =>
      if decide (length body < 8)%nat then None
      else if decide (N.of_nat (length body - 8) = le_decode (take 8 body)) then Some (drop 8 body)
      else None
  end.

Definition read_tree (st : ObjectStore) (io_ok : bool) (hash : Hash) : option bytes :=
  read_object st io_ok hash (lit "tree").

Definition read_commit (st : ObjectStore) (io_ok : bool) (hash : Hash) : option bytes :=
  read_object st io_ok hash (lit "commit").

Definition object_exists (st : ObjectStore) (io_ok : bool) (hash : Hash) : bool :=
  io_ok && bool_decide (is_Some (disk st !! hash)).

(** Outcomes of the calls of [open_blob]: the descriptor, or [errno] of [open]
    and its message, and whether seeking and reading succeed. *)
Record OpenEnv : Type := mkOpenEnv {
  opened : (N * str) + Z;
  seek_ok : bool;
  header_ok : bool
}.

Definition open_blob (env : OpenEnv) (hash : Hash) (st : ObjectStore) :
    ObjectStore * (N + BlobView) :=
  let fail code msg := (set_last_error (lit msg) st, inl code) in
  match opened env, disk st !! hash with
  | inl (e, msg), _ =>
      (set_last_error (lit "open blob view: " ++ msg) st,
       inl (if (e =? EMFILE) || (e =? ENFILE) then e else EIO))
  | inr _, None => (set_last_error (lit "open blob view: No such file or directory") st, inl EIO)
  | inr fd, Some o =>
      let raw := f_content o in
      if negb (seek_ok env) then fail EIO "open blob view: cannot seek object"
      else if negb (header_ok env) || bool_decide (length raw < kPayloadOffset)%nat
      then fail EIO "open blob view: truncated header"
      else if decide (take 4 raw = lit "blob") then
        let payload_size := le_decode (take 8 (drop 4 raw)) in
        if 2 ^ 63 - 1 - N.of_nat kPayloadOffset <? payload_size
        then fail EOVERFLOW "open blob view: payload size overflows offset"
        else if decide (N.of_nat (length raw) = N.of_nat kPayloadOffset + payload_size)
        then (set_last_error [] st, inr (mkView fd payload_size))
        else fail EIO "open blob view: encoded size does not match object"
      else fail EIO "open blob view: invalid type tag"
  end.

Definition blob_payload_size (env : OpenEnv) (hash : Hash) (st : ObjectStore) :
    ObjectStore * (N + N) :=
  match size_cache_ st !! hash with
  | Some n => (st, inr n)
  | None =>
      match open_blob env hash st with
      | (st', inl e) => (st', inl e)
      | (st', inr view) =>
          let n := payload_size_ view in
          let cache := if kSizeCacheCap <=? N.of_nat (size (size_cache_ st')) then ∅
                       else size_cache_ st' in
          (set_size_cache (<[hash := n]> cache) st', inr n)
      end
  end.

Definition clear_size_cache (st : ObjectStore) : ObjectStore := set_size_cache ∅ st.

(** ** The pending set *)

Definition hash_le (a b : Hash) : Prop := str_le (hash_bytes a) (hash_bytes b).
#[export] Instance hash_le_dec : RelDecision hash_le := fun a b => str_le_dec _ _.

(** [std::set<Hash>] in iteration order. *)
Definition sorted_hashes (s : gset Hash) : list Hash := merge_sort hash_le (elements s).

Definition drain_pending (st : ObjectStore) : ObjectStore * list Hash :=
  (set_pending ∅ st, sorted_hashes (pending_ st)).

Definition restore_pending (hashes : list Hash) (st : ObjectStore) : ObjectStore :=
  set_pending (pending_ st ∪ list_to_set hashes) st.

Definition pending_count (st : ObjectStore) : nat := size (pending_ st).

Definition pending_snapshot (st : ObjectStore) : list Hash := sorted_hashes (pending_ st).

(** ** Enumeration and removal *)

(** One directory entry of a shard: its file name and its stat, if that works. *)
Definition dir_entry : Type := str * option (N * Z).

Record shard_listing : Type := mkShard {
  is_directory : bool;
  shard_files : list dir_entry;
  shard_fault : fault
}.

Definition visit_entry (e : dir_entry) : option (Hash * N * Z) :=
  if decide (length e.1 = 64%nat) then
    match hex_to_hash e.1, e.2 with
    | Some h, Some (sz, mt) => Some (h, sz, mt)
    | _, _ => None
    end
  else None.

(** The callback's arguments in order, and the error that stopped the walk. *)
Fixpoint for_each_object (listing : list shard_listing) (root_fault : fault) :
    list (Hash * N * Z) * result unit :=
  match listing with
  | [] =>
      ([], match root_fault with
           | Some msg => Err (lit "enumerate objects dir failed: " ++ msg)
           | None => Ok ()
           end)
  | s :: rest =>
      if negb (is_directory s) then for_each_object rest root_fault
      else
        let here := omap visit_entry (shard_files s) in
        match shard_fault s with
        | Some msg => (here, Err (lit "enumerate shard failed: " ++ msg))
        | None =>
            let '(more, r) := for_each_object rest root_fault in (here ++ more, r)
        end
  end.

Inductive RemoveResult : Type := Removed | Skipped | RemoveError (msg : str).

Record RemoveEnv : Type := mkRemoveEnv {
  stat_fault : option (bool * str);     (** ENOENT or ENOTDIR?, message *)
  remove_fault : option (bool * str)    (** missing?, message *)
}.

Definition remove_object_if_older_than (hash : Hash) (age_fence : Z) (env : RemoveEnv)
    (st : ObjectStore) : ObjectStore * RemoveResult :=
  if decide (hash ∈ pending_ st) then (st, Skipped)
  else
    match stat_fault env, disk st !! hash with
    | Some (true, _), _ => (st, Skipped)
    | Some (false, msg), _ =>
        (st, RemoveError (lit "stat object '" ++ object_path st hash ++
               lit "' before removal failed: " ++ msg))
    | None, None => (st, Skipped)
    | None, Some o =>
        if (age_fence <=? f_mtime o)%Z then (st, Skipped)
        else
          match remove_fault env with
          | Some (true, _) => (st, Skipped)
          | Some (false, msg) =>
              (st, RemoveError (lit "remove object '" ++ object_path st hash ++
                     lit "' failed: " ++ msg))
          | None =>
              (set_synced (data_synced st ∖ {[hash]}) (entry_synced st ∖ {[hash]})
                 (shard_synced st) (set_disk (delete hash (disk st)) st), Removed)
          end
    end.

(** ** Durability *)

(** [open], [fsync]/[fdatasync] and [close] of one path. *)
Inductive sync_outcome : Type := SyncOk | OpenFails | SyncFails | CloseFails.

Fixpoint fsync_objects (out : Hash -> sync_outcome) (hashes : list Hash) (st : ObjectStore) :
    ObjectStore * bool :=
  match hashes with
  | [] => (st, true)
  | h :: rest =>
      match disk st !! h with
      | None => (st, false)
      | Some _ =>
          let synced := set_synced ({[h]} ∪ data_synced st) (entry_synced st) (shard_synced st) st in
          match out h with
          | OpenFails | SyncFails => (st, false)
          | CloseFails => (synced, false)
          | SyncOk => fsync_objects out rest synced
          end
      end
  end.

Definition sorted_strs (s : gset str) : list str := merge_sort str_le (elements s).

(** The published objects whose entry is in a shard directory. *)
Definition in_shard (s : str) (st : ObjectStore) : gset Hash :=
  filter (fun h => shard_of h = s) (dom (disk st)).

Fixpoint fsync_dirs (out : str -> sync_outcome) (dirs : list str) (st : ObjectStore) :
    ObjectStore * bool :=
  match dirs with
  | [] => (st, true)
  | s :: rest =>
      if decide (s ∈ shards st) then
        let synced := set_synced (data_synced st) (in_shard s st ∪ entry_synced st)
                        (shard_synced st) st in
        match out s with
        | OpenFails | SyncFails => (st, false)
        | CloseFails => (synced, false)
        | SyncOk => fsync_dirs out rest synced
        end
      else (st, false)
  end.

Definition fsync_shard_dirs (out : str -> sync_outcome) (root_out : sync_outcome)
    (hashes : list Hash) (st : ObjectStore) : ObjectStore * bool :=
  let dirs := sorted_strs (list_to_set (shard_of <$> hashes)) in
  match dirs with
  | [] => (st, true)
  | _ =>
      match fsync_dirs out dirs st with
      | (st1, false) => (st1, false)
      | (st1, true) =>
          let synced := set_synced (data_synced st1) (entry_synced st1) (shards st1) st1 in
          match root_out with
          | OpenFails | SyncFails => (st1, false)
          | CloseFails => (synced, false)
          | SyncOk => (synced, true)
          end
      end
  end.

Record FsyncEnv : Type := mkFsyncEnv {
  object_out : Hash -> sync_outcome;
  shard_out : str -> sync_outcome;
  objects_dir_out : sync_outcome
}.

Definition fsync_pending (env : FsyncEnv) (hashes : list Hash) (st : ObjectStore) :
    ObjectStore * result unit :=
  match fsync_objects (object_out env) hashes st with
  | (st1, false) => (st1, Err (lit "failed to fsync pending objects"))
  | (st1, true) =>
      match fsync_shard_dirs (shard_out env) (objects_dir_out env) hashes st1 with
      | (st2, false) => (st2, Err (lit "failed to fsync pending object shard dirs"))
      | (st2, true) => (set_pending (pending_ st2 ∖ list_to_set hashes) st2, Ok ())
      end
  end.

(** Survives a crash. *)
Definition durable (st : ObjectStore) (h : Hash) : Prop :=
  h ∈ data_synced st /\ h ∈ entry_synced st /\ shard_of h ∈ shard_synced st.

#[export] Instance durable_dec st h : Decision (durable st h).
Proof. unfold durable. apply _. Defined.

(** A crash: of the objects those are left that the barriers saved, and the
    process forgets what it remembered. *)
Definition crash_store (st : ObjectStore) : ObjectStore :=
  mkStore (store_root_ st) (filter (fun x => durable st x.1) (disk st)) (shard_synced st)
    (tmp_files st) ∅ [] ∅ (data_synced st) (entry_synced st) (shard_synced st).

Lemma crash_lookup st h : durable st h -> disk (crash_store st) !! h = disk st !! h.
Proof.
  intros Hd. unfold crash_store. cbn [disk]. rewrite map_lookup_filter.
  destruct (disk st !! h); [|done]. by simplify_option_eq.
Qed.

Lemma crash_lookup_Some st h o : disk (crash_store st) !! h = Some o -> durable st h.
Proof. unfold crash_store. cbn [disk]. by intros [_ ?]%map_lookup_filter_Some. Qed.

(** ** Integrity: an object is stored under the hash of its bytes *)

Record store_inv (blake3 : bytes -> Hash) (st : ObjectStore) : Prop := {
  inv_addr : forall h o, disk st !! h = Some o -> blake3 (f_content o) = h;
  inv_shard : forall h, is_Some (disk st !! h) -> shard_of h ∈ shards st;
  inv_synced : data_synced st ∪ entry_synced st ⊆ dom (disk st)
}.

(** Adoption and publication change one object's mtime or add one object. *)
Lemma touch_spec now f h st st' :
  touch now f h st = Touched st' ->
  exists o, disk st !! h = Some o /\
    st' = set_disk (<[h := mkFile (f_content o) now]> (disk st)) st.
Proof.
  unfold touch. destruct f; [done|]. destruct (disk st !! h) as [o|] eqn:E; [|done].
  intros [= <-]. by exists o.
Qed.

Lemma touch_missing now f h st : touch now f h st = TouchMissing -> disk st !! h = None.
Proof. unfold touch. destruct f; [done|]. by destruct (disk st !! h). Qed.

(** What any operation of the store may do to the published objects. *)
Inductive disk_change (blake3 : bytes -> Hash) (st st' : ObjectStore) : Prop :=
| DiskSame :
    disk st' = disk st -> shards st ⊆ shards st' ->
    data_synced st' ∪ entry_synced st' ⊆ dom (disk st') -> disk_change blake3 st st'
| DiskTouch h o now :
    disk st !! h = Some o -> disk st' = <[h := mkFile (f_content o) now]> (disk st) ->
    shards st ⊆ shards st' -> data_synced st' = data_synced st ->
    entry_synced st' = entry_synced st -> disk_change blake3 st st'
| DiskAdd h content now :
    disk st !! h = None -> blake3 content = h -> shard_of h ∈ shards st' ->
    disk st' = <[h := mkFile content now]> (disk st) -> shards st ⊆ shards st' ->
    data_synced st' ⊆ data_synced st -> entry_synced st' ⊆ entry_synced st ->
    disk_change blake3 st st'
| DiskDelete h :
    disk st' = delete h (disk st) -> shards st ⊆ shards st' ->
    data_synced st' = data_synced st ∖ {[h]} -> entry_synced st' = entry_synced st ∖ {[h]} ->
    disk_change blake3 st st'.

Lemma disk_change_inv blake3 st st' :
  store_inv blake3 st -> disk_change blake3 st st' -> store_inv blake3 st'.
Proof.
  intros [Ha Hs Hy] [Hd Hsh Hsy|h o now Ho Hd Hsh Hds Hes|h c now Hn Hb Hsc Hd Hsh Hds Hes|h Hd Hsh Hds Hes];
    split; rewrite ?Hd.
  - apply Ha.
  - intros k Hk. apply Hsh. by apply Hs.
  - by rewrite Hd in Hsy.
  - intros k o' [[<- <-]|[_ Hk]]%lookup_insert_Some; simpl; [by apply Ha|by apply Ha].
  - intros k [o' [[<- _]|[_ Hk]]%lookup_insert_Some]; apply Hsh, Hs; by eexists.
  - rewrite Hds, Hes, dom_insert. set_solver.
  - intros k o' [[<- <-]|[_ Hk]]%lookup_insert_Some; simpl; [done|by apply Ha].
  - intros k [o' [[<- _]|[_ Hk]]%lookup_insert_Some]; [done|]. apply Hsh, Hs. by eexists.
  - rewrite dom_insert. set_solver.
  - intros k o' [_ Hk]%lookup_delete_Some. by apply Ha.
  - intros k [o' [_ Hk]%lookup_delete_Some]. apply Hsh, Hs. by eexists.
  - rewrite Hds, Hes, dom_delete. set_solver.
Qed.

(** ** Threads *)

(** A write between its two critical sections. *)
Record task : Type := mkTask {
  t_tag : str;
  t_hash : Hash;
  t_content : bytes;
  t_path : str
}.

(** The store, the writes under way, the clock, and (ghost) when a successful
    write last returned each hash. *)
Record sys : Type := mkSys {
  store : ObjectStore;
  inflight : list task;
  clock : Z;
  adopted : gmap Hash Z
}.

(** A write that returned [h]: [ZERO_HASH] is the failure value. *)
Definition adopt (h : Hash) (now : Z) (m : gmap Hash Z) : gmap Hash Z :=
  if decide (h = ZERO_HASH) then m else <[h := now]> m.

(** The payload size a well-formed blob object announces. *)
Definition blob_size (content : bytes) : option N :=
  if decide (length content < kPayloadOffset)%nat then None
  else if decide (take 4 content = lit "blob") then
    let payload_size := le_decode (take 8 (drop 4 content)) in
    if 2 ^ 63 - 1 - N.of_nat kPayloadOffset <? payload_size then None
    else if decide (N.of_nat (length content) = N.of_nat kPayloadOffset + payload_size)
    then Some payload_size else None
  else None.

(** [U] bounds the contents ever written; it is where BLAKE3 has to be free of
    collisions. *)
Section threads.
Context (blake3 : bytes -> Hash) (U : bytes -> Prop).

Inductive step : sys -> sys -> Prop :=
| StepBeginDone s tag body env st' h :
    U (tag ++ body) -> (clock s <= begin_now env)%Z ->
    write_begin blake3 tag body env (store s) = (st', Done h) ->
    step s (mkSys st' (inflight s) (begin_now env) (adopt h (begin_now env) (adopted s)))
| StepBeginPublish s tag body env st' h content path :
    U (tag ++ body) -> (clock s <= begin_now env)%Z ->
    write_begin blake3 tag body env (store s) = (st', Publish h content path) ->
    step s (mkSys st' (mkTask tag h content path :: inflight s) (begin_now env) (adopted s))
| StepPublish s l1 l2 t env st' h :
    (clock s <= publish_now env)%Z -> inflight s = l1 ++ t :: l2 ->
    write_publish (t_tag t) env (t_hash t) (t_content t) (t_path t) (store s) = (st', h) ->
    step s (mkSys st' (l1 ++ l2) (publish_now env) (adopt h (publish_now env) (adopted s)))
| StepRemove s h fence env st' r :
    remove_object_if_older_than h fence env (store s) = (st', r) ->
    step s (mkSys st' (inflight s) (clock s)
              (match r with Removed => delete h (adopted s) | _ => adopted s end))
| StepDrain s :
    step s (mkSys (drain_pending (store s)).1 (inflight s) (clock s) (adopted s))
| StepRestore s hashes :
    step s (mkSys (restore_pending hashes (store s)) (inflight s) (clock s) (adopted s))
| StepFsync s env hashes :
    step s (mkSys (fsync_pending env hashes (store s)).1 (inflight s) (clock s) (adopted s))
| StepSize s env h :
    step s (mkSys (blob_payload_size env h (store s)).1 (inflight s) (clock s) (adopted s))
| StepClear s :
    step s (mkSys (clear_size_cache (store s)) (inflight s) (clock s) (adopted s)).

Definition empty_store (root : str) : ObjectStore :=
  mkStore root ∅ ∅ ∅ ∅ [] ∅ ∅ ∅ ∅.

Inductive reach : sys -> Prop :=
| reach_init root now : reach (mkSys (empty_store root) [] now ∅)
| reach_step s s' : reach s -> step s s' -> reach s'.

(** The invariant of the whole system. *)
Record sys_inv (s : sys) : Prop := {
  si_store : store_inv blake3 (store s);
  si_tasks : forall t, t ∈ inflight s ->
    blake3 (t_content t) = t_hash t /\ shard_of (t_hash t) ∈ shards (store s);
  si_clock : forall h o, disk (store s) !! h = Some o -> (f_mtime o <= clock s)%Z;
  si_adopted : forall h t, adopted s !! h = Some t ->
    exists o, disk (store s) !! h = Some o /\ (t <= f_mtime o)%Z
}.

(** Contents lie in [U], and a cached size is the size of some content of [U]
    with that hash (the object itself may be gone). *)
Record cache_inv (s : sys) : Prop := {
  ci_disk : forall h o, disk (store s) !! h = Some o -> U (f_content o);
  ci_tasks : forall t, t ∈ inflight s -> U (t_content t);
  ci_cache : forall h n, size_cache_ (store s) !! h = Some n ->
    exists c, U c /\ blake3 c = h /\ blob_size c = Some n
}.

End threads.

(** No two contents of [U] share a hash. *)
Definition collision_free (blake3 : bytes -> Hash) (U : bytes -> Prop) : Prop :=
  forall a b, U a -> U b -> blake3 a = blake3 b -> a = b.

(** A concrete stand-in for the hash function, for the witnesses: the first 32
    bytes. *)
Definition toy_blake3 (b : bytes) : Hash :=
  default ZERO_HASH (to_vec 32 (take 32 (b ++ replicate 32 zero))).

Definition no_faults (now : Z) : WriteEnv :=
  mkWriteEnv now None None (lit "tmp_0") None None now None None.

(** ** What a write does to the store *)

Inductive wrote (now : Z) (hash : Hash) (content : bytes) (st st' : ObjectStore) : Hash -> Prop :=
| WroteNothing :
    disk st' = disk st -> data_synced st' = data_synced st -> entry_synced st' = entry_synced st ->
    wrote now hash content st st' ZERO_HASH
| WroteAdopted o :
    disk st !! hash = Some o -> disk st' = <[hash := mkFile (f_content o) now]> (disk st) ->
    data_synced st' = data_synced st -> entry_synced st' = entry_synced st ->
    wrote now hash content st st' hash
| WroteNew :
    disk st !! hash = None -> disk st' = <[hash := mkFile content now]> (disk st) ->
    data_synced st' ⊆ data_synced st -> entry_synced st' ⊆ entry_synced st ->
    hash ∈ pending_ st' -> wrote now hash content st st' hash.

Lemma write_publish_wrote tag env h c p st st' r :
  write_publish tag env h c p st = (st', r) ->
  wrote (publish_now env) h c st st' r /\ shards st' = shards st /\ size_cache_ st' = size_cache_ st.
Proof.
  unfold write_publish. intros H.
  destruct (touch _ _ _ st) as [st1| |msg] eqn:E.
  - apply touch_spec in E as (o & Ho & ->). simplify_eq. split; [by eapply WroteAdopted|done].
  - apply touch_missing in E. destruct (rename_fault env); simplify_eq; (split; [|done]).
    + by constructor.
    + apply WroteNew; simpl; [done|done|set_solver|set_solver|set_solver].
  - simplify_eq. split; [by constructor|done].
Qed.

Section write_lemmas.
Context (blake3 : bytes -> Hash).

Lemma write_begin_done tag body env st st' h :
  write_begin blake3 tag body env st = (st', Done h) ->
  wrote (begin_now env) (blake3 (tag ++ body)) (tag ++ body) st st' h /\
  (store_inv blake3 st -> disk_change blake3 st st') /\ shards st ⊆ shards st' /\
  pending_ st' = pending_ st /\ size_cache_ st' = size_cache_ st.
Proof.
  unfold write_begin. intros H.
  destruct (touch _ _ _ (set_last_error [] st)) as [st1| |msg] eqn:E.
  - apply touch_spec in E as (o & Ho & ->). simplify_eq.
    split; [by eapply WroteAdopted|]. split; [|done]. intros _. by eapply DiskTouch.
  - destruct (mkdir_fault env); [|destruct (open_fault env); [|destruct (write_fault env)]];
      simplify_eq; (split; [by constructor|]); simpl; (split; [|set_solver]);
      intros [_ _ Hy]; apply DiskSame; set_solver.
  - simplify_eq. split; [by constructor|]. split; [|done].
    intros [_ _ Hy]. by apply DiskSame.
Qed.

Lemma write_begin_publish tag body env st st' h c p :
  write_begin blake3 tag body env st = (st', Publish h c p) ->
  h = blake3 (tag ++ body) /\ c = tag ++ body /\ disk st !! h = None /\ disk st' = disk st /\
  data_synced st' = data_synced st /\ entry_synced st' = entry_synced st /\
  shards st' = {[shard_of h]} ∪ shards st /\ pending_ st' = pending_ st /\
  size_cache_ st' = size_cache_ st.
Proof.
  unfold write_begin. intros H.
  destruct (touch _ _ _ (set_last_error [] st)) as [st1| |msg] eqn:E; [done| |done].
  apply touch_missing in E.
  destruct (mkdir_fault env); [done|]. destruct (open_fault env); [done|].
  destruct (write_fault env); [done|]. simplify_eq. done.
Qed.

Lemma wrote_change now hash content st st' h :
  store_inv blake3 st -> wrote now hash content st st' h -> blake3 content = hash ->
  shard_of hash ∈ shards st' -> shards st ⊆ shards st' -> disk_change blake3 st st'.
Proof.
  intros [_ _ Hy] Hw Hb Hs Hsub. destruct Hw as [Hd H1 H2|o Ho Hd H1 H2|Ho Hd H1 H2 _].
  - apply DiskSame; [done|done|]. by rewrite Hd, H1, H2.
  - by eapply DiskTouch.
  - by eapply DiskAdd.
Qed.

(** Writing keeps the system invariant: the returned hash is adopted at [now]. *)
Lemma wrote_inv s st' ts now hash content h :
  sys_inv blake3 s -> wrote now hash content (store s) st' h ->
  store_inv blake3 st' -> (clock s <= now)%Z -> shards (store s) ⊆ shards st' ->
  (forall t, t ∈ ts -> t ∈ inflight s) ->
  sys_inv blake3 (mkSys st' ts now (adopt h now (adopted s))).
Proof.
  intros [Hst Ht Hc Ha] Hw Hst' Hnow Hsh Hts. split; simpl.
  - done.
  - intros t Hin. destruct (Ht t (Hts t Hin)). split; [done|]. by apply Hsh.
  - intros k o Hk. destruct Hw as [Hd H1 H2|o' Ho Hd H1 H2|Ho Hd H1 H2 _]; rewrite Hd in Hk.
    + specialize (Hc k o Hk). lia.
    + apply lookup_insert_Some in Hk as [[<- <-]|[_ Hk]]; simpl; [lia|].
      specialize (Hc k o Hk). lia.
    + apply lookup_insert_Some in Hk as [[<- <-]|[_ Hk]]; simpl; [lia|].
      specialize (Hc k o Hk). lia.
  - intros k t Hk.
    assert (forall t', adopted s !! k = Some t' -> exists o, disk st' !! k = Some o /\ (t' <= f_mtime o)%Z) as Hold.
    { intros t' Hk'. destruct (Ha k t' Hk') as (o & Ho & Hle).
      specialize (Hc k o Ho).
      destruct Hw as [Hd H1 H2|o' Ho' Hd H1 H2|Ho' Hd H1 H2 _]; rewrite Hd.
      - by exists o.
      - destruct (decide (hash = k)) as [->|Hne].
        + eexists. rewrite lookup_insert_eq. split; [done|]. simpl. lia.
        + exists o. by rewrite lookup_insert_ne.
      - destruct (decide (hash = k)) as [->|Hne].
        + eexists. rewrite lookup_insert_eq. split; [done|]. simpl. lia.
        + exists o. by rewrite lookup_insert_ne. }
    unfold adopt in Hk. case_decide; [by apply Hold|].
    apply lookup_insert_Some in Hk as [[<- <-]|[_ Hk]]; [|by apply Hold].
    destruct Hw as [Hd H1 H2|o' Ho' Hd H1 H2|Ho' Hd H1 H2 _]; [done| |];
      rewrite Hd, lookup_insert_eq; eexists; (split; [done|]); simpl; lia.
Qed.

End write_lemmas.

(** ** The other operations leave contents alone *)

Lemma fsync_objects_spec out hs st st' ok :
  fsync_objects out hs st = (st', ok) ->
  disk st' = disk st /\ shards st' = shards st /\ pending_ st' = pending_ st /\
  size_cache_ st' = size_cache_ st /\ entry_synced st' = entry_synced st /\
  shard_synced st' = shard_synced st /\ data_synced st ⊆ data_synced st' /\
  (data_synced st ⊆ dom (disk st) -> data_synced st' ⊆ dom (disk st)) /\
  (ok = true -> forall h, h ∈ hs -> h ∈ data_synced st' /\ is_Some (disk st !! h)).
Proof.
  revert st. induction hs as [|h hs IH]; intros st H; simpl in H.
  { simplify_eq. repeat (split; [done|]). by intros _ h ?%elem_of_nil. }
  destruct (disk st !! h) as [o|] eqn:Eo; [|by simplify_eq; repeat (split; [done|])].
  destruct (out h); try (by simplify_eq; repeat (split; [done|])).
  - apply IH in H as (-> & -> & -> & -> & -> & -> & Hsub & Hdom & Hall). simpl in *.
    repeat (split; [done|]). split; [clear -Hsub; set_solver|]. split.
    + intros Hd. apply Hdom. apply union_subseteq. split; [|done].
      apply singleton_subseteq_l, elem_of_dom. by eexists.
    + intros -> k [->|Hk]%elem_of_cons; [|by apply Hall].
      split; [clear -Hsub; set_solver|by eexists].
  - simplify_eq. simpl. repeat (split; [done|]). split; [apply union_subseteq_r|]. split; [|done].
    intros Hd. apply union_subseteq. split; [|done].
    apply singleton_subseteq_l, elem_of_dom. by eexists.
Qed.

Lemma in_shard_elem s st h : h ∈ in_shard s st <-> shard_of h = s /\ is_Some (disk st !! h).
Proof. unfold in_shard. by rewrite elem_of_filter, elem_of_dom. Qed.

Lemma fsync_dirs_spec out ds st st' ok :
  fsync_dirs out ds st = (st', ok) ->
  disk st' = disk st /\ shards st' = shards st /\ pending_ st' = pending_ st /\
  size_cache_ st' = size_cache_ st /\ data_synced st' = data_synced st /\
  shard_synced st' = shard_synced st /\ entry_synced st ⊆ entry_synced st' /\
  (entry_synced st ⊆ dom (disk st) -> entry_synced st' ⊆ dom (disk st)) /\
  (ok = true -> forall h, shard_of h ∈ ds -> is_Some (disk st !! h) -> h ∈ entry_synced st') /\
  (ok = true -> forall s, s ∈ ds -> s ∈ shards st).
Proof.
  revert st. induction ds as [|s ds IH]; intros st H; simpl in H.
  { simplify_eq. repeat (split; [done|]). split; by intros _ h ?%elem_of_nil. }
  case_decide as Hs; [|by simplify_eq; repeat (split; [done|])].
  assert (in_shard s st ⊆ dom (disk st)) as Hin by (clear; unfold in_shard; set_solver).
  destruct (out s); try (by simplify_eq; repeat (split; [done|])).
  - apply IH in H as (-> & -> & -> & -> & -> & -> & Hsub & Hdom & Hall & Hdirs). simpl in *.
    repeat (split; [done|]). split; [clear -Hsub; set_solver|].
    split; [clear -Hdom Hin; set_solver|]. split.
    + intros -> h [Heq|Hk]%elem_of_cons Hd; [|by apply Hall].
      apply Hsub, elem_of_union_l, in_shard_elem. done.
    + intros -> k [->|Hk]%elem_of_cons; [done|by apply Hdirs].
  - simplify_eq. simpl. repeat (split; [done|]). split; [apply union_subseteq_r|].
    split; [clear -Hin; set_solver|done].
Qed.

Lemma elem_of_sorted_strs s x : x ∈ sorted_strs s <-> x ∈ s.
Proof. unfold sorted_strs. by rewrite merge_sort_Permutation, elem_of_elements. Qed.

Lemma elem_of_sorted_hashes s x : x ∈ sorted_hashes s <-> x ∈ s.
Proof. unfold sorted_hashes. by rewrite merge_sort_Permutation, elem_of_elements. Qed.

Lemma fsync_shard_dirs_spec out root hs st st' ok :
  fsync_shard_dirs out root hs st = (st', ok) ->
  disk st' = disk st /\ shards st' = shards st /\ pending_ st' = pending_ st /\
  size_cache_ st' = size_cache_ st /\ data_synced st' = data_synced st /\
  entry_synced st ⊆ entry_synced st' /\
  (entry_synced st ⊆ dom (disk st) -> entry_synced st' ⊆ dom (disk st)) /\
  (ok = true -> forall h, h ∈ hs -> is_Some (disk st !! h) ->
     h ∈ entry_synced st' /\ shard_of h ∈ shard_synced st').
Proof.
  unfold fsync_shard_dirs. intros H.
  destruct (sorted_strs (list_to_set (shard_of <$> hs))) as [|d ds] eqn:Eds.
  { simplify_eq. repeat (split; [done|]). intros _ h Hh _. exfalso.
    assert (shard_of h ∈ sorted_strs (list_to_set (shard_of <$> hs))) as Hd.
    { apply elem_of_sorted_strs, elem_of_list_to_set, list_elem_of_fmap. by exists h. }
    rewrite Eds in Hd. by apply elem_of_nil in Hd. }
  rewrite <- Eds in H. clear Eds d ds.
  destruct (fsync_dirs _ _ st) as [st1 []] eqn:E;
    apply fsync_dirs_spec in E as (E1 & E2 & E3 & E4 & E5 & E6 & Hsub & Hdom & Hall & Hdirs).
  - assert (forall h, h ∈ hs -> is_Some (disk st !! h) ->
      h ∈ entry_synced st1 /\ shard_of h ∈ shards st1) as Hok.
    { intros h Hh Hd. assert (shard_of h ∈ sorted_strs (list_to_set (shard_of <$> hs))) as Hin.
      { apply elem_of_sorted_strs, elem_of_list_to_set, list_elem_of_fmap. by exists h. }
      split; [by apply Hall|]. rewrite E2. by apply Hdirs. }
    destruct root; simplify_eq; simpl; do 7 (split; [done|]); done.
  - simplify_eq. repeat (split; [done|]). done.
Qed.

Lemma fsync_pending_spec env hs st st' r :
  fsync_pending env hs st = (st', r) ->
  disk st' = disk st /\ shards st' = shards st /\ size_cache_ st' = size_cache_ st /\
  data_synced st ⊆ data_synced st' /\ entry_synced st ⊆ entry_synced st' /\
  (data_synced st ∪ entry_synced st ⊆ dom (disk st) ->
   data_synced st' ∪ entry_synced st' ⊆ dom (disk st)) /\
  match r with
  | Ok _ => pending_ st' = pending_ st ∖ list_to_set hs /\
            forall h, h ∈ hs -> durable st' h /\ is_Some (disk st !! h)
  | Err _ => pending_ st' = pending_ st
  end.
Proof.
  unfold fsync_pending. intros H.
  destruct (fsync_objects _ hs st) as [st1 ok1] eqn:E1.
  apply fsync_objects_spec in E1 as (A1 & A2 & A3 & A4 & A5 & A6 & A7 & A8 & A9).
  destruct ok1.
  - destruct (fsync_shard_dirs _ _ hs st1) as [st2 ok2] eqn:E2.
    apply fsync_shard_dirs_spec in E2 as (B1 & B2 & B3 & B4 & B5 & B6 & B7 & B8).
    rewrite A1 in *. rewrite A5 in *.
    assert (data_synced st ∪ entry_synced st ⊆ dom (disk st) ->
      data_synced st2 ∪ entry_synced st2 ⊆ dom (disk st)) as Hdom.
    { rewrite !union_subseteq, B5. intros []. auto. }
    rewrite <- B5 in A7.
    destruct ok2; simplify_eq; simpl.
    + rewrite B1, B2, B3, B4, A2, A3, A4. repeat (split; [done|]).
      intros h Hh. destruct (A9 eq_refl h Hh) as [Hd Hs]. split; [|done].
      destruct (B8 eq_refl h Hh Hs) as [He Hsh]. unfold durable. simpl. by rewrite B5.
    + rewrite B1, B2, B3, B4, A2, A3, A4. repeat (split; [done|]). done.
  - simplify_eq. rewrite A1, A2, A3, A4, A5. repeat (split; [done|]). split; [|done].
    rewrite !union_subseteq. intros []. auto.
Qed.

Lemma open_blob_store env h st st' r :
  open_blob env h st = (st', r) -> exists e, st' = set_last_error e st.
Proof.
  unfold open_blob. intros H. repeat case_match; simplify_eq; by eexists.
Qed.

Lemma blob_payload_size_store env h st st' r :
  blob_payload_size env h st = (st', r) ->
  disk st' = disk st /\ shards st' = shards st /\ pending_ st' = pending_ st /\
  data_synced st' = data_synced st /\ entry_synced st' = entry_synced st.
Proof.
  unfold blob_payload_size. intros H. case_match; simplify_eq; [done|].
  destruct (open_blob env h st) as [st1 [e|v]] eqn:E; apply open_blob_store in E as [msg ->];
    simplify_eq; done.
Qed.

(** Removal, when it removes anything, removes one object that is neither
    pending nor as fresh as the fence. *)
Lemma remove_object_spec h fence env st st' r :
  remove_object_if_older_than h fence env st = (st', r) ->
  match r with
  | Removed => (h ∉ pending_ st) /\ (exists o, disk st !! h = Some o /\ (f_mtime o < fence)%Z) /\
      disk st' = delete h (disk st) /\ shards st' = shards st /\ pending_ st' = pending_ st /\
      data_synced st' = data_synced st ∖ {[h]} /\ entry_synced st' = entry_synced st ∖ {[h]}
  | _ => st' = st
  end.
Proof.
  unfold remove_object_if_older_than. intros H.
  case_decide as Hp; [by simplify_eq|].
  destruct (stat_fault env) as [[[] msg]|]; [by simplify_eq|by simplify_eq|].
  destruct (disk st !! h) as [o|] eqn:Eo; [|by simplify_eq].
  destruct (Z.leb_spec fence (f_mtime o)); [by simplify_eq|].
  destruct (remove_fault env) as [[[] msg]|]; simplify_eq; try done.
  repeat (split; [try done|]); [eexists; split; [done|lia]|].
  done.
Qed.

(** ** The system invariant *)

Section inv.
Context (blake3 : bytes -> Hash) (U : bytes -> Prop).

Lemma same_disk_inv s st' :
  sys_inv blake3 s -> disk st' = disk (store s) -> shards st' = shards (store s) ->
  data_synced st' ∪ entry_synced st' ⊆ dom (disk (store s)) ->
  sys_inv blake3 (mkSys st' (inflight s) (clock s) (adopted s)).
Proof.
  intros [[Ha Hs Hy] Ht Hc Had] Hd Hsh Hsy.
  split; simpl; rewrite ?Hd, ?Hsh; try done.
  split; rewrite ?Hd, ?Hsh; done.
Qed.

Lemma step_inv s s' : sys_inv blake3 s -> step blake3 U s s' -> sys_inv blake3 s'.
Proof.
  intros Hs Hstep. pose proof (si_store _ _ Hs) as Hst.
  destruct Hstep as [s tag body env st' h HU Hn Hw|s tag body env st' h c p HU Hn Hw
    |s l1 l2 t env st' h Hn Hl Hw|s h fence env st' r Hr|s|s hashes|s env hashes|s env h|s].
  - apply write_begin_done in Hw as (Hw & Hch & Hsh & _).
    eapply wrote_inv; try done. by eapply disk_change_inv, Hch.
  - apply write_begin_publish in Hw as (-> & -> & _ & Hd & H1 & H2 & Hsh & _).
    destruct Hs as [[Ha Hsd Hy] Ht Hc Had]. split; simpl; rewrite ?Hd.
    + split; rewrite ?Hd, ?Hsh, ?H1, ?H2; [done| |done]. set_solver.
    + intros t [->|Hin]%elem_of_cons; simpl; rewrite Hsh; [set_solver|].
      destruct (Ht t Hin). set_solver.
    + intros h o Ho. specialize (Hc h o Ho). lia.
    + done.
  - apply write_publish_wrote in Hw as (Hw & Hsh & _).
    assert (t ∈ inflight s) as Hin by (rewrite Hl; set_solver).
    destruct (si_tasks _ _ Hs t Hin) as [Hb Hts].
    eapply wrote_inv; try done.
    + eapply disk_change_inv; [exact Hst|].
      eapply wrote_change; try done; by rewrite Hsh.
    + by rewrite Hsh.
    + intros x Hx. rewrite Hl. set_solver.
  - pose proof Hs as [_ Ht Hc Had].
    apply remove_object_spec in Hr. destruct r as [| |msg].
    2,3: subst st'; destruct s; exact Hs.
    destruct Hr as (_ & _ & Hd & Hsh & _ & H1 & H2). split; simpl.
    + eapply disk_change_inv; [exact Hst|]. eapply DiskDelete; try done. by rewrite Hsh.
    + by rewrite Hsh.
    + rewrite Hd. intros k o [_ Hk]%lookup_delete_Some. by apply (Hc k).
    + rewrite Hd. intros k t [Hne Hk]%lookup_delete_Some. rewrite lookup_delete_ne by done.
      by apply Had.
  - by apply same_disk_inv; [|..|apply Hst].
  - by apply same_disk_inv; [|..|apply Hst].
  - destruct (fsync_pending env hashes (store s)) as [st' r] eqn:E.
    apply fsync_pending_spec in E as (Hd & Hsh & _ & _ & _ & Hdom & _).
    apply same_disk_inv; [done|done|done|]. apply Hdom, Hst.
  - destruct (blob_payload_size env h (store s)) as [st' r] eqn:E.
    apply blob_payload_size_store in E as (Hd & Hsh & _ & H1 & H2).
    apply same_disk_inv; [done|done|done|]. simpl. rewrite H1, H2. apply Hst.
  - by apply same_disk_inv; [|..|apply Hst].
Qed.

Lemma sys_reach_inv s : reach blake3 U s -> sys_inv blake3 s.
Proof.
  induction 1 as [root now|s s' _ IH Hstep]; [|by eapply step_inv].
  split; simpl.
  - split; simpl; [done|by intros h []|set_solver].
  - by intros t ?%elem_of_nil.
  - done.
  - done.
Qed.

Lemma wrote_contents now hash content st st' h k o :
  wrote now hash content st st' h -> disk st' !! k = Some o ->
  f_content o = content \/ exists o', disk st !! k = Some o' /\ f_content o = f_content o'.
Proof.
  intros [Hd _ _|o' Ho Hd _ _|_ Hd _ _ _]; rewrite Hd; [by eauto| |];
    intros [[<- <-]|[_ Hk]]%lookup_insert_Some; simpl; eauto.
Qed.

Lemma wrote_in_U now hash content st st' h :
  wrote now hash content st st' h -> U content ->
  (forall k o, disk st !! k = Some o -> U (f_content o)) ->
  forall k o, disk st' !! k = Some o -> U (f_content o).
Proof.
  intros Hw Hc Hd k o Hk.
  destruct (wrote_contents _ _ _ _ _ _ _ _ Hw Hk) as [->|(o' & Ho' & ->)]; [done|by eapply Hd].
Qed.

Lemma open_blob_size env h st st' v :
  open_blob env h st = (st', inr v) ->
  exists o, disk st !! h = Some o /\ blob_size (f_content o) = Some (payload_size_ v).
Proof.
  unfold open_blob, blob_size. intros H. destruct (opened env) as [[e msg]|fd]; [done|].
  destruct (disk st !! h) as [o|]; [|done]. exists o. split; [done|].
  destruct (negb (seek_ok env)); [done|].
  destruct (negb (header_ok env)); [done|]. simpl in H. case_bool_decide; [done|].
  rewrite decide_False by done. case_decide; [|done].
  by repeat case_match; simplify_eq/=.
Qed.

Lemma blob_payload_size_cache env h st st' r :
  blob_payload_size env h st = (st', r) ->
  (forall k n, size_cache_ st' !! k = Some n ->
     size_cache_ st !! k = Some n \/
     exists o, disk st !! k = Some o /\ blob_size (f_content o) = Some n) /\
  (forall n, r = inr n -> size_cache_ st' !! h = Some n).
Proof.
  unfold blob_payload_size. intros H. destruct (size_cache_ st !! h) as [n|] eqn:Ec.
  { simplify_eq. split; [by auto|]. by intros n' [= <-]. }
  destruct (open_blob env h st) as [st1 [e|v]] eqn:E.
  - apply open_blob_store in E as [msg ->]. simplify_eq. split; [by auto|done].
  - pose proof (open_blob_size _ _ _ _ _ E) as (o & Ho & Hs).
    apply open_blob_store in E as [msg ->]. simplify_eq. split; simpl.
    + intros k n [[<- <-]|[_ Hk]]%lookup_insert_Some; [right; by exists o|].
      destruct (_ <=? _); [done|by left].
    + intros n [= <-]. by rewrite lookup_insert_eq.
Qed.

Lemma step_cache s s' :
  sys_inv blake3 s -> cache_inv blake3 U s -> step blake3 U s s' -> cache_inv blake3 U s'.
Proof.
  intros Hsys [Hd Ht Hc] Hstep.
  destruct Hstep as [s tag body env st' h HU Hn Hw|s tag body env st' h c p HU Hn Hw
    |s l1 l2 t env st' h Hn Hl Hw|s h fence env st' r Hr|s|s hashes|s env hashes|s env h|s].
  - apply write_begin_done in Hw as (Hw & _ & _ & _ & Hcache). split; simpl.
    + by eapply wrote_in_U.
    + done.
    + by rewrite Hcache.
  - apply write_begin_publish in Hw as (-> & -> & _ & Hdk & _ & _ & _ & _ & Hcache).
    split; simpl; rewrite ?Hdk, ?Hcache; [done| |done].
    intros t [->|Hin]%elem_of_cons; [done|by apply Ht].
  - apply write_publish_wrote in Hw as (Hw & _ & Hcache).
    assert (t ∈ inflight s) as Hin by (rewrite Hl; set_solver). split; simpl.
    + eapply wrote_in_U; [done|by apply Ht|done].
    + intros x Hx. apply Ht. rewrite Hl. set_solver.
    + by rewrite Hcache.
  - assert (disk st' ⊆ disk (store s) /\ size_cache_ st' = size_cache_ (store s)) as [Hsub Hcache].
    { pose proof (remove_object_spec _ _ _ _ _ _ Hr) as Hspec.
      destruct r; [|by rewrite Hspec..].
      destruct Hspec as (_ & _ & -> & _). split; [apply delete_subseteq|].
      unfold remove_object_if_older_than in Hr. by repeat case_match; simplify_eq. }
    split; simpl; rewrite ?Hcache; try done.
    intros k o Hk. apply (Hd k). by eapply lookup_weaken.
  - done.
  - done.
  - destruct (fsync_pending env hashes (store s)) as [st' r] eqn:E.
    apply fsync_pending_spec in E as (Hdk & _ & Hcache & _).
    split; simpl; rewrite ?Hdk, ?Hcache; done.
  - destruct (blob_payload_size env h (store s)) as [st' r] eqn:E.
    pose proof (blob_payload_size_store _ _ _ _ _ E) as (Hdk & _).
    pose proof (blob_payload_size_cache _ _ _ _ _ E) as [Hcache _].
    split; simpl; rewrite ?Hdk; try done.
    intros k n [Hk|(o & Ho & Hs)]%Hcache; [by apply Hc|].
    exists (f_content o). split; [by eapply Hd|]. split; [|done].
    by apply (inv_addr _ _ (si_store _ _ Hsys)).
  - split; [done|done|]. simpl. done.
Qed.

Lemma reach_cache s : reach blake3 U s -> cache_inv blake3 U s.
Proof.
  induction 1 as [root now|s s' Hr IH Hstep].
  - split; simpl; [done|by intros t ?%elem_of_nil|done].
  - eapply step_cache; [by apply sys_reach_inv|done|done].
Qed.

End inv.

(** ** Reading back what was written *)

Lemma read_object_tag st h tag body :
  read_object st true h tag = Some body ->
  exists o, disk st !! h = Some o /\ f_content o = tag ++ body.
Proof.
  unfold read_object. simpl. destruct (disk st !! h) as [o|]; [|done].
  case_decide; [done|]. case_decide as Ht; [|done]. intros [= <-]. exists o. split; [done|].
  rewrite <- Ht at 1. by rewrite take_drop.
Qed.

Lemma read_object_content st h o tag body :
  disk st !! h = Some o -> f_content o = tag ++ body -> read_object st true h tag = Some body.
Proof.
  intros Ho Hc. unfold read_object. simpl. rewrite Ho, Hc, decide_False, decide_True.
  - by rewrite drop_app_length.
  - by rewrite take_app_length.
  - rewrite length_app. lia.
Qed.

(** A write that returns a hash leaves exactly its bytes under it. *)
Lemma write_object_stores blake3 U tag body env st st' h :
  store_inv blake3 st -> (forall k o, disk st !! k = Some o -> U (f_content o)) ->
  collision_free blake3 U -> U (tag ++ body) ->
  write_object blake3 tag body env st = (st', h) -> h <> ZERO_HASH ->
  h = blake3 (tag ++ body) /\ store_inv blake3 st' /\
  (forall k o, disk st' !! k = Some o -> U (f_content o)) /\
  (exists o, disk st' !! h = Some o /\ f_content o = tag ++ body) /\
  (forall k o, disk st !! k = Some o -> exists o', disk st' !! k = Some o' /\
     f_content o' = f_content o).
Proof.
  intros Hinv HUd Hcf HU Hw Hne. unfold write_object in Hw.
  assert (forall st0 now, store_inv blake3 st0 -> store_inv blake3 st' ->
    disk st0 = disk st -> wrote now (blake3 (tag ++ body)) (tag ++ body) st0 st' h ->
    h = blake3 (tag ++ body) /\ store_inv blake3 st' /\
    (forall k o, disk st' !! k = Some o -> U (f_content o)) /\
    (exists o, disk st' !! h = Some o /\ f_content o = tag ++ body) /\
    (forall k o, disk st !! k = Some o -> exists o', disk st' !! k = Some o' /\
       f_content o' = f_content o)) as Hgo.
  { intros st0 now Hinv0 Hinv' Hd0 Hwr.
    assert (forall k o, disk st' !! k = Some o -> U (f_content o)) as HU'.
    { eapply wrote_in_U; [done|done|by rewrite Hd0]. }
    rewrite <- Hd0. destruct Hwr as [|o Ho Hd _ _|Ho Hd _ _ _]; [done| |];
      (split; [done|split; [done|split; [done|]]]); rewrite Hd; split.
    - eexists. rewrite lookup_insert_eq. split; [done|]. simpl.
      apply Hcf; [eapply HUd; by rewrite <- Hd0|done|]. by apply (inv_addr _ _ Hinv0).
    - intros k o' Hk. destruct (decide (blake3 (tag ++ body) = k)) as [<-|Hnk].
      + rewrite lookup_insert_eq. eexists. split; [done|]. simpl. congruence.
      + rewrite lookup_insert_ne by done. by exists o'.
    - eexists. by rewrite lookup_insert_eq.
    - intros k o' Hk. rewrite lookup_insert_ne by congruence. by exists o'. }
  destruct (write_begin blake3 tag body env st) as [st1 [h1|h1 c p]] eqn:E.
  - apply write_begin_done in E as (Hwr & Hch & _). simplify_eq.
    eapply Hgo; try done. by eapply disk_change_inv, Hch.
  - apply write_begin_publish in E as (-> & -> & _ & Hd & H1 & H2 & Hsh & _).
    apply write_publish_wrote in Hw as (Hwr & Hsh' & _).
    assert (store_inv blake3 st1) as Hinv1.
    { destruct Hinv as [Ha Hs Hy].
      split; rewrite ?Hd, ?Hsh, ?H1, ?H2; [done|set_solver|done]. }
    eapply (Hgo st1); try done. eapply disk_change_inv; [exact Hinv1|].
    eapply wrote_change; try done; rewrite Hsh', Hsh; set_solver.
Qed.

Lemma read_blob_disk st st' io h : disk st' = disk st -> read_blob st' io h = read_blob st io h.
Proof. intros H. unfold read_blob, read_object. by rewrite H. Qed.

(** No object is lost or altered. *)
Definition retains (st st' : ObjectStore) : Prop :=
  forall k o, disk st !! k = Some o -> exists o', disk st' !! k = Some o' /\ f_content o' = f_content o.

#[export] Instance retains_preorder : PreOrder retains.
Proof.
  split; [intros st k o Ho; by exists o|].
  intros a b c H1 H2 k o (o1 & E1 & C1)%H1. apply H2 in E1 as (o2 & E2 & C2).
  exists o2. split; [done|congruence].
Qed.

Lemma retains_read_blob st st' h b :
  retains st st' -> read_blob st true h = Some b -> read_blob st' true h = Some b.
Proof.
  intros Hr. unfold read_blob, read_object. cbn [negb].
  destruct (disk st !! h) as [o|] eqn:E; [|done]. apply Hr in E as (o' & -> & ->). by repeat case_decide.
Qed.

Lemma read_blob_body st h data :
  N.of_nat (length data) < 2 ^ 64 ->
  read_object st true h (lit "blob") = Some (blob_body data) -> read_blob st true h = Some data.
Proof.
  intros Hl Hr. unfold read_blob. rewrite Hr. unfold blob_body, u64.
  rewrite N.mod_small by done. rewrite decide_False, decide_True.
  - done.
  - rewrite length_app, le_encode_length, take_app_length' by (symmetry; apply le_encode_length).
    rewrite le_decode_encode_small by done. lia.
  - rewrite length_app, le_encode_length. lia.
Qed.

Lemma blob_size_body data :
  N.of_nat (length data) < 2 ^ 63 - 12 ->
  blob_size (lit "blob" ++ blob_body data) = Some (N.of_nat (length data)).
Proof.
  intros Hl. unfold blob_size, blob_body, u64. rewrite N.mod_small by lia.
  set (l8 := le_encode 8 (N.of_nat (length data))).
  assert (length l8 = 8%nat) as Hl8 by apply le_encode_length.
  assert (length (lit "blob" ++ l8 ++ data) = 12 + length data)%nat as Hlen.
  { rewrite !length_app, Hl8. done. }
  rewrite decide_False by (rewrite Hlen; unfold kPayloadOffset; lia).
  rewrite decide_True by done.
  change (drop 4 (lit "blob" ++ l8 ++ data)) with (l8 ++ data).
  rewrite take_app_length' by done. unfold l8 at 1. rewrite le_decode_encode_small by lia.
  replace (_ <? _) with false by (symmetry; apply N.ltb_ge; unfold kPayloadOffset; lia).
  unfold l8. rewrite le_decode_encode_small by lia.
  rewrite decide_True; [done|]. fold l8. rewrite Hlen. unfold kPayloadOffset. lia.
Qed.

(** ** Properties *)

(** In every state the interleaved threads reach, each object on disk is
    stored under the hash of its own bytes, in a shard directory that exists,
    and what [read_object] returns is what the hash commits to. *)
Theorem store_integrity blake3 U s h o :
  reach blake3 U s -> disk (store s) !! h = Some o ->
  blake3 (f_content o) = h /\ shard_of h ∈ shards (store s) /\
  (forall tag body, read_object (store s) true h tag = Some body -> blake3 (tag ++ body) = h).
Proof.
  intros Hr Ho. destruct (si_store _ _ (sys_reach_inv _ _ _ Hr)) as [Ha Hs _].
  split; [by apply Ha|]. split; [apply Hs; by eexists|].
  intros tag body (o' & Ho' & <-)%read_object_tag. by apply Ha.
Qed.

(** C23. Age-fenced removal against concurrent writers: an object is removed only
    if it is not pending, its mtime is before the fence, and so is the last
    time any writer was given its hash, whether it published or adopted it. *)
Theorem removal_spares_adopted blake3 U s h fence env st' :
  reach blake3 U s ->
  remove_object_if_older_than h fence env (store s) = (st', Removed) ->
  (h ∉ pending_ (store s)) /\ disk st' = delete h (disk (store s)) /\
  (exists o, disk (store s) !! h = Some o /\ (f_mtime o < fence)%Z) /\
  (forall t, adopted s !! h = Some t -> (t < fence)%Z).
Proof.
  intros Hr Hrm. apply remove_object_spec in Hrm as (Hp & (o & Ho & Hlt) & Hd & _).
  split; [done|]. split; [done|]. split; [by exists o|]. intros t Ht.
  destruct (si_adopted _ _ (sys_reach_inv _ _ _ Hr) h t Ht) as (o' & Ho' & Hle).
  rewrite Ho in Ho'. simplify_eq. lia.
Qed.

(** A successful [write_blob] can be read back: the hash names the bytes,
    [read_blob] returns the data, the header announces its length, and every
    object stored before still reads the same. *)
Theorem blob_write_read blake3 U data env st st' h :
  store_inv blake3 st -> (forall k o, disk st !! k = Some o -> U (f_content o)) ->
  collision_free blake3 U -> U (lit "blob" ++ blob_body data) ->
  N.of_nat (length data) < 2 ^ 63 - 12 ->
  write_blob blake3 data env st = (st', h) -> h <> ZERO_HASH ->
  read_blob st' true h = Some data /\
  (exists o, disk st' !! h = Some o /\ blob_size (f_content o) = Some (N.of_nat (length data))) /\
  (forall k tag body, read_object st true k tag = Some body -> read_object st' true k tag = Some body).
Proof.
  intros Hi HU Hcf HUc Hl Hw Hne.
  apply (write_object_stores blake3 U) in Hw as (-> & _ & _ & (o & Ho & Hc) & Hold); try done.
  split; [|split].
  - apply read_blob_body; [lia|]. by eapply read_object_content.
  - exists o. rewrite Hc. split; [done|]. by apply blob_size_body.
  - intros k tag body (o1 & Ho1 & Hc1)%read_object_tag.
    destruct (Hold k o1 Ho1) as (o2 & Ho2 & Hc2).
    eapply read_object_content; [done|]. congruence.
Qed.

(** When [fsync_pending] succeeds, each of its objects exists and survives a
    crash (data, directory entry and shard), exactly they leave the pending
    set, and no object changes; when it fails, the pending set is unchanged, so
    a retry covers them all. *)
Theorem fsync_pending_durable env hashes st st' r :
  fsync_pending env hashes st = (st', r) ->
  disk st' = disk st /\
  match r with
  | Ok _ => (forall h, h ∈ hashes -> durable st' h /\ is_Some (disk st' !! h)) /\
            (forall h, h ∈ pending_ st' <-> h ∈ pending_ st /\ h ∉ hashes)
  | Err _ => pending_ st' = pending_ st
  end.
Proof.
  intros (Hd & _ & _ & _ & _ & _ & Hr)%fsync_pending_spec. split; [done|].
  destruct r as [u|msg]; [|done]. destruct Hr as [Hp Hh]. rewrite Hd. split; [done|].
  intros h. rewrite Hp, elem_of_difference, elem_of_list_to_set. done.
Qed.

(** A size the cache serves is the size of the object: in every reachable
    state, if [blob_payload_size] answers [n] and the object is on disk, its
    header and its length say [n], and [read_blob] returns [n] bytes. *)
Theorem cached_size_is_true blake3 U s env h n st' o :
  reach blake3 U s -> collision_free blake3 U ->
  blob_payload_size env h (store s) = (st', inr n) -> disk (store s) !! h = Some o ->
  blob_size (f_content o) = Some n /\
  (forall data, read_blob (store s) true h = Some data -> N.of_nat (length data) = n).
Proof.
  intros Hr Hcf Hs Ho.
  assert (blob_size (f_content o) = Some n) as Hsz.
  { destruct (reach_cache _ _ _ Hr) as [HUd _ Hc].
    apply blob_payload_size_cache in Hs as [Hold Hnew].
    destruct (Hold h n (Hnew n eq_refl)) as [Hk|(o' & Ho' & Hsz)]; [|congruence].
    destruct (Hc h n Hk) as (c & HUc & Hb & Hsz).
    replace (f_content o) with c; [done|]. apply Hcf; [done|by eapply HUd|].
    rewrite Hb. symmetry. by apply (inv_addr _ _ (si_store _ _ (sys_reach_inv _ _ _ Hr))). }
  split; [done|]. intros data Hd. unfold read_blob in Hd.
  destruct (read_object (store s) true h (lit "blob")) as [body|] eqn:Er; [|done].
  apply read_object_tag in Er as (o' & Ho' & Hc). rewrite Ho in Ho'. injection Ho' as <-.
  case_decide; [done|]. case_decide as Hl8; [|done]. injection Hd as <-.
  unfold blob_size in Hsz. rewrite Hc in Hsz. repeat case_match; simplify_eq/=.
  rewrite length_drop. exact Hl8.
Qed.

(** ** Witnesses *)

Definition hello : bytes := lit "hello".
Definition hello_content : bytes := lit "blob" ++ blob_body hello.
Definition sample_U (c : bytes) : Prop := c = hello_content.

Definition sample_sys0 : sys := mkSys (empty_store (lit "/store")) [] 100 ∅.

(** One thread writes the blob, and its object is published at time 101. *)
Definition sample_sys1 : sys :=
  mkSys (write_begin toy_blake3 (lit "blob") (blob_body hello) (no_faults 100)
           (store sample_sys0)).1
    [mkTask (lit "blob") (toy_blake3 hello_content) hello_content (lit "/store/tmp/tmp_0")]
    100 ∅.

Definition sample_sys2 : sys :=
  mkSys (write_publish (lit "blob") (no_faults 101) (toy_blake3 hello_content) hello_content
           (lit "/store/tmp/tmp_0") (store sample_sys1)).1
    [] 101 {[toy_blake3 hello_content := 101%Z]}.

Definition sample_sys3 : sys :=
  mkSys (drain_pending (store sample_sys2)).1 [] 101 {[toy_blake3 hello_content := 101%Z]}.

Lemma sample_reach2 : reach toy_blake3 sample_U sample_sys2.
Proof.
  apply (reach_step _ _ sample_sys1).
  - apply (reach_step _ _ sample_sys0); [apply reach_init|].
    apply (StepBeginPublish toy_blake3 sample_U sample_sys0 (lit "blob") (blob_body hello)
      (no_faults 100)); [reflexivity|simpl; lia|].
    vm_compute. reflexivity.
  - assert (sample_sys2 = mkSys (store sample_sys2) ([] ++ []) (publish_now (no_faults 101))
      (adopt (toy_blake3 hello_content) 101 (adopted sample_sys1))) as ->.
    { unfold sample_sys2. f_equal. }
    eapply (StepPublish toy_blake3 sample_U sample_sys1 [] []); [simpl; lia|reflexivity|].
    vm_compute. reflexivity.
Qed.

Lemma sample_reach3 : reach toy_blake3 sample_U sample_sys3.
Proof.
  apply (reach_step _ _ sample_sys2); [apply sample_reach2|].
  apply (StepDrain toy_blake3 sample_U sample_sys2).
Qed.

Lemma sample_collision_free : collision_free toy_blake3 sample_U.
Proof. intros a b -> ->. done. Qed.

Lemma store_integrity_witness :
  shard_of (toy_blake3 hello_content) ∈ shards (store sample_sys3).
Proof.
  apply (store_integrity toy_blake3 sample_U sample_sys3 _ (mkFile hello_content 101)).
  - apply sample_reach3.
  - vm_compute. reflexivity.
Defined.

Lemma removal_spares_adopted_witness : (101 < 200)%Z.
Proof.
  apply (removal_spares_adopted toy_blake3 sample_U sample_sys3 (toy_blake3 hello_content) 200
    (mkRemoveEnv None None)
    (remove_object_if_older_than (toy_blake3 hello_content) 200 (mkRemoveEnv None None)
       (store sample_sys3)).1).
  - apply sample_reach3.
  - vm_compute. reflexivity.
  - vm_compute. reflexivity.
Defined.

Lemma blob_write_read_witness :
  read_blob (write_blob toy_blake3 hello (no_faults 5) (empty_store (lit "/s"))).1 true
    (toy_blake3 hello_content) = Some hello.
Proof.
  apply (blob_write_read toy_blake3 sample_U hello (no_faults 5) (empty_store (lit "/s"))).
  - split; simpl; [done|by intros h []|set_solver].
  - done.
  - apply sample_collision_free.
  - reflexivity.
  - reflexivity.
  - vm_compute. reflexivity.
  - vm_compute. discriminate.
Defined.

Definition all_sync_ok : FsyncEnv := mkFsyncEnv (fun _ => SyncOk) (fun _ => SyncOk) SyncOk.

Lemma fsync_pending_durable_witness :
  let h := toy_blake3 hello_content in
  durable (fsync_pending all_sync_ok [h] (store sample_sys2)).1 h.
Proof.
  destruct (fsync_pending_durable all_sync_ok [toy_blake3 hello_content] (store sample_sys2)
    (fsync_pending all_sync_ok [toy_blake3 hello_content] (store sample_sys2)).1 (Ok ()))
    as [_ [H _]].
  - vm_compute. reflexivity.
  - apply H. apply list_elem_of_here.
Defined.

Lemma cached_size_is_true_witness :
  blob_size hello_content = Some 5.
Proof.
  apply (cached_size_is_true toy_blake3 sample_U sample_sys3 (mkOpenEnv (inr 7%Z) true true)
    (toy_blake3 hello_content) 5
    (blob_payload_size (mkOpenEnv (inr 7%Z) true true) (toy_blake3 hello_content)
       (store sample_sys3)).1 (mkFile hello_content 101)).
  - apply sample_reach3.
  - apply sample_collision_free.
  - vm_compute. reflexivity.
  - vm_compute. reflexivity.
Defined.
