(* ===== verification/TreeSerialize.v ===== *)
(** Merkle trees of a branch (cas/tree_serialize.cpp): writing the working tree
    as tree objects, bottom up, and rebuilding it from a root hash.

    The client is written against the interface [TreeStore]; the laws it needs
    of a store are [TreeStoreLaws], which the object store discharges at the end
    of the file. The reference definition is the pure [merkle] function of the
    merged path map. *)

From stdpp Require Import pretty.
From S2P Require Import Prelude Hashes WorkingTree Codec ObjectStore.

(** ** The interface of a tree store *)

Class TreeStore (S E : Type) : Type := {
  ts_write : E -> bytes -> S -> S * Hash;
  ts_read : S -> Hash -> option bytes;
  ts_error : S -> str
}.

(** [addr] names a body; [ts_ok] is the store's invariant, [ts_body] the bodies
    for which its hash function is known to be free of collisions. *)
Class TreeStoreLaws (S E : Type) `{TreeStore S E} (addr : bytes -> Hash) (ts_body : bytes -> Prop)
    (ts_ok : S -> Prop) : Prop := {
  ts_write_spec : forall env body s s' h,
    ts_ok s -> ts_body body -> ts_write env body s = (s', h) -> h <> ZERO_HASH ->
    h = addr body /\ ts_ok s' /\ ts_read s' h = Some body /\
    (forall k b, ts_read s k = Some b -> ts_read s' k = Some b)
}.

(** ** Paths *)

(** The parent directory and the name, split at the last slash. *)
Definition split_path (path : str) : str * str :=
  match rfind_char slash path with
  | Some O => ([slash], drop 1 path)
  | Some k => (take k path, drop (k + 1) path)
  | None => ([slash], path)
  end.

Definition child_path (dir name : str) : str :=
  if decide (dir = [slash]) then [slash] ++ name else dir ++ [slash] ++ name.

(** ** Serialization *)

Definition is_leaf (e : WorkingTreeEntry) : bool :=
  bool_decide (e_kind e = Blob) || bool_decide (e_kind e = Symlink).

(** Entries with no object behind them are left out. *)
Definition skipped (e : WorkingTreeEntry) : bool :=
  is_leaf e && bool_decide (e_hash e = ZERO_HASH).

Abbreviation dirs := (gmap str (list child)).

(** [dirs[parent].push_back({name, entry})]. *)
Definition push_child (m : dirs) (parent : str) (c : child) : dirs :=
  <[parent := default [] (m !! parent) ++ [c]]> m.

Definition collect_step (m : dirs) (x : str * WorkingTreeEntry) : dirs :=
  let '(path, e) := x in
  if skipped e then m
  else
    let '(parent, name) := split_path path in
    match name with
    | [] => m
    | _ => push_child m parent (name, e)
    end.

Definition collect_dirs (l : list (str * WorkingTreeEntry)) : dirs := fold_left collect_step l ∅.

Definition leaf_hashes (l : list (str * WorkingTreeEntry)) : list Hash :=
  omap (fun x => if skipped x.2 then None
                 else match (split_path x.1).2 with
                      | [] => None
                      | _ => if is_leaf x.2 && negb (bool_decide (e_hash x.2 = ZERO_HASH))
                             then Some (e_hash x.2) else None
                      end) l.

(** Empty directories: live Tree entries that have no children yet. *)
Definition empty_dir_step (acc : dirs * list str) (x : str * WorkingTreeEntry) : dirs * list str :=
  let '(m, paths) := acc in
  let '(path, e) := x in
  if decide (e_kind e = Tree) then
    match m !! path with
    | Some _ => acc
    | None => (<[path := []]> m, paths ++ [path])
    end
  else acc.

(** Longest path first; [std::sort] leaves the order of equal lengths open. *)
Definition longer (a b : str) : Prop := (length b <= length a)%nat.
#[export] Instance longer_dec : RelDecision longer := fun a b => le_dec _ _.

Definition dirs_and_paths (wt : WorkingTree) : dirs * list str :=
  let m := collect_dirs (for_each_including_deleted wt) in
  let '(m', paths) := fold_left empty_dir_step (for_each wt) (m, (entries m).*1) in
  (m', merge_sort longer paths).

(** A Tree child takes the hash its directory was written under. *)
Definition patch_child (dir_hashes : gmap str Hash) (dir : str) (c : child) : child :=
  let '(name, e) := c in
  if decide (e_kind e = Tree) then
    match dir_hashes !! child_path dir name with
    | Some h => (name, mkEntry (e_kind e) h (e_mode e))
    | None => c
    end
  else c.

Definition dir_body (m : dirs) (dir_hashes : gmap str Hash) (dir : str) : bytes :=
  serialize_tree_entries (patch_child dir_hashes dir <$> default [] (m !! dir)).

Record SerializeResult (S : Type) : Type := mkSer {
  sr_store : S;
  sr_written : list Hash;
  sr_result : result Hash
}.
Arguments mkSer {S}.
Arguments sr_store {S}.
Arguments sr_written {S}.
Arguments sr_result {S}.

Definition decimal (n : nat) : str := lit (pretty n).

Section client.
Context {S E : Type} `{TreeStore S E} (envs : nat -> E).

Definition tree_error (s : S) (what : str) : str :=
  match ts_error s with
  | [] => what
  | e => what ++ lit ": " ++ e
  end.

(** The loop over [dir_paths]; the [n]-th write takes the [n]-th environment. *)
Fixpoint write_dirs (m : dirs) (paths : list str) (n : nat) (dh : gmap str Hash) (s : S)
    (written : list Hash) : S * list Hash * result (gmap str Hash) :=
  match paths with
  | [] => (s, written, Ok dh)
  | dir :: rest =>
      let '(s', h) := ts_write (envs n) (dir_body m dh dir) s in
      if decide (h = ZERO_HASH) then
        (s', written, Err (tree_error s' (lit "failed to write tree object for " ++ dir ++ lit " (" ++
           decimal (length (default [] (m !! dir))) ++ lit " entries)")))
      else write_dirs m rest (1 + n) (<[dir := h]> dh) s' (written ++ [h])
  end.

Definition serialize_working_tree (wt : WorkingTree) (s : S) : SerializeResult S :=
  let '(m, paths) := dirs_and_paths wt in
  match write_dirs m paths 0 ∅ s [] with
  | (s', written, Err msg) => mkSer s' written (Err msg)
  | (s', written, Ok dh) =>
      match dh !! [slash] with
      | Some h => mkSer s' written (Ok h)
      | None =>
          let '(s2, h) := ts_write (envs (length paths)) (serialize_tree_entries []) s' in
          if decide (h = ZERO_HASH)
          then mkSer s2 written (Err (tree_error s2 (lit "failed to write empty root tree object")))
          else mkSer s2 (written ++ [h]) (Ok h)
      end
  end.

(** ** Rebuilding *)

(** What [symlink_status] says of an object that could not be read. *)
Inductive object_status : Type := NotFound | InspectFailed (msg : str) | StillThere.

Definition unreadable (status : object_status) (hash : Hash) : str :=
  match status with
  | NotFound => lit "tree object missing: " ++ hash_to_hex hash
  | InspectFailed msg =>
      lit "failed to inspect tree object: " ++ hash_to_hex hash ++ lit ": " ++ msg
  | StillThere => lit "tree object unreadable: " ++ hash_to_hex hash
  end.

Definition add_entry (prefix : str) (acc : EntryMap * list (Hash * str)) (c : child) :
    EntryMap * list (Hash * str) :=
  let '(scratch, stack) := acc in
  let path := child_path prefix c.1 in
  (<[path := c.2]> scratch,
   if decide (e_kind c.2 = Tree) then (e_hash c.2, path) :: stack else stack).

(** One turn of the loop: pop, read, decode, add the entries. [read_io] says
    which objects the file system lets us read. *)
Definition rebuild_turn (read_io : Hash -> bool) (status : Hash -> object_status) (s : S)
    (scratch : EntryMap) (stack : list (Hash * str)) :
    option (result (EntryMap * list (Hash * str))) :=
  match stack with
  | [] => None
  | (hash, prefix) :: rest => Some
      match (if read_io hash then ts_read s hash else None) with
      | None => Err (unreadable (status hash) hash)
      | Some body =>
          match deserialize_tree_entries body with
          | Parsed es => Ok (fold_left (add_entry prefix) es (scratch, rest))
          | _ => Err (lit "corrupt tree object: " ++ hash_to_hex hash)
          end
      end
  end.

(** [None]: out of fuel. *)
Fixpoint rebuild_loop (fuel : nat) (read_io : Hash -> bool) (status : Hash -> object_status) (s : S)
    (scratch : EntryMap) (stack : list (Hash * str)) : option (result EntryMap) :=
  match fuel with
  | O => None
  | Datatypes.S fuel' =>
      match rebuild_turn read_io status s scratch stack with
      | None => Some (Ok scratch)
      | Some (Err msg) => Some (Err msg)
      | Some (Ok (scratch', stack')) => rebuild_loop fuel' read_io status s scratch' stack'
      end
  end.

(** The tree is replaced on success and untouched otherwise. *)
Definition rebuild_working_tree (fuel : nat) (read_io : Hash -> bool)
    (status : Hash -> object_status) (root_tree : Hash) (s : S) (wt : WorkingTree) :
    option (WorkingTree * result unit) :=
  match rebuild_loop fuel read_io status s ∅ [(root_tree, [slash])] with
  | None => None
  | Some (Err msg) => Some (wt, Err msg)
  | Some (Ok scratch) => Some (set_base wt scratch, Ok ())
  end.

End client.

(** ** Reference definition: the Merkle hash of a path map *)

Fixpoint merkle_dirs (addr : bytes -> Hash) (m : dirs) (paths : list str) (dh : gmap str Hash) :
    gmap str Hash :=
  match paths with
  | [] => dh
  | dir :: rest => merkle_dirs addr m rest (<[dir := addr (dir_body m dh dir)]> dh)
  end.

Definition merkle_hashes (addr : bytes -> Hash) (wt : WorkingTree) : gmap str Hash :=
  let '(m, paths) := dirs_and_paths wt in merkle_dirs addr m paths ∅.

(** The bodies a run writes, in order. *)
Fixpoint merkle_bodies_from (addr : bytes -> Hash) (m : dirs) (paths : list str)
    (dh : gmap str Hash) : list bytes :=
  match paths with
  | [] => []
  | dir :: rest =>
      dir_body m dh dir ::
      merkle_bodies_from addr m rest (<[dir := addr (dir_body m dh dir)]> dh)
  end.

Definition merkle_bodies (addr : bytes -> Hash) (wt : WorkingTree) : list bytes :=
  let '(m, paths) := dirs_and_paths wt in
  merkle_bodies_from addr m paths ∅ ++ [serialize_tree_entries []].

Definition merkle_root (addr : bytes -> Hash) (wt : WorkingTree) : Hash :=
  default (addr (serialize_tree_entries [])) (merkle_hashes addr wt !! [slash]).

(** ** Well-formed trees *)

(** The path splits into a parent and a non-empty name and is put together
    again from them: absolute, and without doubled or trailing slashes. *)
Definition path_ok (p : str) : Prop :=
  child_path (split_path p).1 (split_path p).2 = p /\ (split_path p).2 <> [] /\
  N.of_nat (length (split_path p).2) < 2 ^ 16.

#[export] Instance path_ok_dec p : Decision (path_ok p).
Proof. unfold path_ok. apply _. Defined.

#[export] Instance kind_ok_dec k : Decision (kind_ok k).
Proof. destruct k; simpl; apply _. Defined.

Definition tree_ok (m : EntryMap) : Prop :=
  (forall p e, m !! p = Some e -> path_ok p /\ e_mode e < 2 ^ 32 /\ kind_ok (e_kind e)) /\
  N.of_nat (size m) < 2 ^ 32.

(** Directories that can be reached from the root through Tree entries. *)
Inductive reach_dir (m : EntryMap) : str -> Prop :=
| reach_root : reach_dir m [slash]
| reach_child d n e :
    reach_dir m d -> m !! child_path d n = Some e -> e_kind e = Tree ->
    split_path (child_path d n) = (d, n) -> reach_dir m (child_path d n).

(** Equal entries, where a directory's hash is its content's and not the
    entry's. *)
Definition same_entry (e e' : WorkingTreeEntry) : Prop :=
  e_kind e' = e_kind e /\ e_mode e' = e_mode e /\ (e_kind e <> Tree -> e_hash e' = e_hash e).

(** ** Paths *)


Lemma split_child d n :
  d <> [] -> slash ∉ n -> split_path (child_path d n) = (d, n).
Proof.
  intros Hd Hn. unfold child_path, split_path. case_decide as Hs.
  - subst d. pose proof (rfind_char_app slash [] n Hn) as E. simpl in E |- *. by rewrite E.
  - simpl. rewrite rfind_char_app by done. destruct (length d) eqn:El; [by destruct d|].
    rewrite <- El. by rewrite take_app_length, drop_past.
Qed.

Lemma split_path_parts p d n :
  split_path p = (d, n) -> d <> [] /\ slash ∉ n.
Proof.
  unfold split_path. destruct (rfind_char slash p) as [k|] eqn:E.
  - apply rfind_char_Some in E as (pre & post & -> & <- & Hn).
    pose proof (drop_past pre slash post) as Hd.
    destruct pre as [|c pre]; simpl in *; intros [= <- <-]; [done|]. split; [done|]. by rewrite Hd.
  - intros [= <- <-]. split; [done|by apply rfind_char_None].
Qed.

Lemma child_path_longer d n : n <> [] -> (length d < length (child_path d n))%nat.
Proof.
  intros Hn. unfold child_path. case_decide; subst; rewrite !length_app; simpl; [|lia].
  destruct n; [done|simpl; lia].
Qed.

Lemma path_ok_split p d n :
  path_ok p -> split_path p = (d, n) ->
  child_path d n = p /\ n <> [] /\ N.of_nat (length n) < 2 ^ 16 /\ (length d < length p)%nat.
Proof.
  unfold path_ok. intros Hp Hs. rewrite Hs in Hp. simpl in Hp. destruct Hp as (Hc & Hn & Hl).
  split; [done|]. split; [done|]. split; [done|]. rewrite <- Hc. by apply child_path_longer.
Qed.

(** ** The children of a directory *)

(** The child that an entry of the map is for directory [d], if it is one. *)
Definition child_of (d : str) (x : str * WorkingTreeEntry) : option child :=
  if skipped x.2 then None
  else if decide ((split_path x.1).2 = []) then None
  else if decide ((split_path x.1).1 = d) then Some ((split_path x.1).2, x.2) else None.

Lemma collect_step_lookup m x d :
  default [] (collect_step m x !! d) = default [] (m !! d) ++ option_list (child_of d x).
Proof.
  destruct x as [p e]. unfold collect_step, child_of. simpl.
  destruct (skipped e); [by rewrite app_nil_r|].
  destruct (split_path p) as [d' n] eqn:E. simpl.
  destruct n as [|c n]; [by rewrite decide_True, app_nil_r|].
  rewrite decide_False by done. unfold push_child. case_decide; subst.
  - by rewrite lookup_insert_eq.
  - rewrite lookup_insert_ne by done. by rewrite app_nil_r.
Qed.

Lemma collect_dirs_lookup l d :
  default [] (collect_dirs l !! d) = omap (child_of d) l.
Proof.
  unfold collect_dirs. induction l as [|x l IH] using rev_ind; [simpl; by rewrite lookup_empty|].
  rewrite fold_left_app, omap_app. simpl. by rewrite collect_step_lookup, IH.
Qed.

(** The children collected for [d] from a path map. *)
Definition children (m : EntryMap) (d : str) : list child := omap (child_of d) (entries m).

Lemma elem_of_children m d n e :
  (n, e) ∈ children m d <->
  exists p, m !! p = Some e /\ skipped e = false /\ split_path p = (d, n) /\ n <> [].
Proof.
  unfold children. rewrite list_elem_of_omap. split.
  - intros ([p e'] & Hin & Hc). apply elem_of_entries in Hin. unfold child_of in Hc. simpl in Hc.
    destruct (skipped e') eqn:Es; [done|]. case_decide; [done|]. case_decide; [|done].
    simplify_eq. exists p. by rewrite <- surjective_pairing.
  - intros (p & Hp & Hs & Hsp & Hn). exists (p, e). split; [by apply elem_of_entries|].
    unfold child_of. simpl. rewrite Hs, Hsp. simpl.
    by rewrite decide_False, decide_True by done.
Qed.

Lemma children_names m d : (forall p e, m !! p = Some e -> path_ok p) -> NoDup (children m d).*1.
Proof.
  intros Hok. unfold children. pose proof (entries_keys_NoDup m) as Hnd.
  assert (forall x, x ∈ entries m -> path_ok x.1) as Hin.
  { intros [p e] Hx%elem_of_entries. by eapply Hok. }
  induction (entries m) as [|x l IH]; [constructor|].
  rewrite fmap_cons, NoDup_cons in Hnd. destruct Hnd as [Hx Hnd].
  simpl. assert (NoDup (omap (child_of d) l).*1) as IH'.
  { apply IH; [done|]. intros y Hy. apply Hin. by apply list_elem_of_further. }
  destruct (child_of d x) as [[n e]|] eqn:Ec; [|done].
  rewrite fmap_cons. apply NoDup_cons. split; [|done].
  intros ((n' & e') & Hn & Hy)%list_elem_of_fmap. simpl in Hn. subst n'.
  apply list_elem_of_omap in Hy as (y & Hy & Hcy). apply Hx.
  unfold child_of in Ec, Hcy. repeat case_match; simplify_eq.
  assert (path_ok x.1 /\ path_ok y.1) as [[Hpx _] [Hpy _]].
  { split; apply Hin; [apply list_elem_of_here|by apply list_elem_of_further]. }
  apply list_elem_of_fmap. exists y. split; [|done]. congruence.
Qed.

(** ** The directories to write *)

Lemma empty_dir_fold l m paths m' paths' :
  fold_left empty_dir_step l (m, paths) = (m', paths') ->
  (forall d, d ∈ paths <-> is_Some (m !! d)) -> NoDup paths ->
  (forall d, default [] (m' !! d) = default [] (m !! d)) /\ NoDup paths' /\
  (forall d, d ∈ paths' <-> d ∈ paths \/ exists e, (d, e) ∈ l /\ e_kind e = Tree).
Proof.
  revert m paths. induction l as [|[p e] l IH]; intros m paths Hf Hdom Hnd; simpl in Hf.
  { simplify_eq. split; [done|]. split; [done|]. intros d. split; [by left|].
    by intros [|(e & ?%elem_of_nil & _)]. }
  assert (forall m1 paths1, fold_left empty_dir_step l (m1, paths1) = (m', paths') ->
    (forall d, d ∈ paths1 <-> is_Some (m1 !! d)) -> NoDup paths1 ->
    (forall d, default [] (m1 !! d) = default [] (m !! d)) ->
    (forall d, d ∈ paths1 <-> d ∈ paths \/ (d = p /\ e_kind e = Tree)) ->
    (forall d, default [] (m' !! d) = default [] (m !! d)) /\ NoDup paths' /\
    (forall d, d ∈ paths' <-> d ∈ paths \/ exists e0, (d, e0) ∈ (p, e) :: l /\ e_kind e0 = Tree)) as Hgo.
  { intros m1 paths1 Hf1 Hdom1 Hnd1 Hm1 Hp1.
    destruct (IH _ _ Hf1 Hdom1 Hnd1) as (A & B & C).
    split; [intros d; by rewrite A, Hm1|]. split; [done|]. intros d. rewrite C, Hp1.
    split.
    - intros [[|[-> Hk]]|(e0 & He & Hk)]; [by left|right; exists e; set_solver|].
      right. exists e0. set_solver.
    - intros [|(e0 & [Heq|He]%elem_of_cons & Hk)]; [by do 2 left|simplify_eq; left; by right|].
      right. by exists e0. }
  case_decide as Hk; [destruct (m !! p) as [c|] eqn:Ep|].
  - apply (Hgo m paths); try done. intros d. split; [by left|].
    intros [|[-> _]]; [done|]. apply Hdom. by eexists.
  - apply (Hgo (<[p:=[]]> m) (paths ++ [p])); try done.
    + intros d. rewrite elem_of_app, list_elem_of_singleton, Hdom.
      destruct (decide (d = p)) as [->|Hne].
      * rewrite lookup_insert_eq. split; [by eexists|by right].
      * rewrite lookup_insert_ne by done. naive_solver.
    + apply NoDup_app. split; [done|]. split; [|apply NoDup_singleton].
      intros d Hd ->%list_elem_of_singleton. apply Hdom in Hd as [? Hd]. congruence.
    + intros d. destruct (decide (d = p)) as [->|Hne].
      * by rewrite lookup_insert_eq, Ep.
      * by rewrite lookup_insert_ne.
    + intros d. rewrite elem_of_app, list_elem_of_singleton. naive_solver.
  - apply (Hgo m paths); try done. intros d. split; [by left|]. by intros [|[_ ?]].
Qed.

Lemma collect_dirs_nonempty l d : collect_dirs l !! d <> Some [].
Proof.
  unfold collect_dirs. induction l as [|[p e] l IH] using rev_ind; [simpl; by rewrite lookup_empty|].
  rewrite fold_left_app. simpl. destruct (skipped e); [done|].
  destruct (split_path p) as [d' n]. destruct n as [|c n]; [done|].
  unfold push_child. destruct (decide (d' = d)) as [->|Hne].
  - rewrite lookup_insert_eq. intros [= H]. by apply app_nil in H as [_ ?].
  - by rewrite lookup_insert_ne.
Qed.

Lemma elem_of_for_each t p e :
  (p, e) ∈ for_each t <-> raw t !! p = Some e /\ is_deleted e = false.
Proof.
  unfold for_each. rewrite merged_for_each_raw, list_elem_of_filter, elem_of_entries. naive_solver.
Qed.

Lemma dirs_and_paths_spec wt m paths :
  dirs_and_paths wt = (m, paths) ->
  (forall d, default [] (m !! d) = children (raw wt) d) /\ NoDup paths /\
  StronglySorted longer paths /\
  (forall d, d ∈ paths <-> children (raw wt) d <> [] \/
     exists e, raw wt !! d = Some e /\ e_kind e = Tree).
Proof.
  unfold dirs_and_paths, for_each_including_deleted. rewrite merged_for_each_raw.
  set (m0 := collect_dirs (entries (raw wt))).
  destruct (fold_left empty_dir_step (for_each wt) (m0, (entries m0).*1)) as [m' paths'] eqn:E.
  intros [= <- <-].
  assert (forall d, default [] (m0 !! d) = children (raw wt) d) as Hm0
    by (intros d; apply collect_dirs_lookup).
  assert (forall d, d ∈ (entries m0).*1 <-> is_Some (m0 !! d)) as Hdom.
  { intros d. rewrite list_elem_of_fmap. split.
    - intros ([k l] & -> & Hk%elem_of_entries). by eexists.
    - intros [l Hl]. exists (d, l). split; [done|by apply elem_of_entries]. }
  destruct (empty_dir_fold _ _ _ _ _ E Hdom (entries_keys_NoDup m0)) as (A & B & C).
  split; [intros d; by rewrite A|]. split; [by rewrite merge_sort_Permutation|]. split.
  - apply Sorted_StronglySorted; [intros a b c; unfold longer; lia|].
    apply Sorted_merge_sort. intros a b. unfold longer. lia.
  - intros d. rewrite merge_sort_Permutation, C, Hdom, <- Hm0. split.
    + intros [[l Hl]|(e & He & Hk)].
      * left. rewrite Hl. simpl. intros ->. revert Hl. unfold m0. apply collect_dirs_nonempty.
      * right. exists e. by apply elem_of_for_each in He as [He _].
    + intros [Hne|(e & He & Hk)].
      * left. destruct (m0 !! d); [by eexists|done].
      * right. exists e. split; [|done]. apply elem_of_for_each. split; [done|].
        unfold is_deleted. by rewrite Hk.
Qed.

(** ** The reference hashes are consistent *)

Lemma merkle_dirs_other addr m paths dh d :
  d ∉ paths -> merkle_dirs addr m paths dh !! d = dh !! d.
Proof.
  revert dh. induction paths as [|p paths IH]; intros dh Hd; simpl; [done|].
  rewrite not_elem_of_cons in Hd. destruct Hd as [Hne Hd].
  rewrite IH by done. by rewrite lookup_insert_ne.
Qed.

Lemma dir_body_ext m dh1 dh2 d :
  (forall n e, (n, e) ∈ default [] (m !! d) ->
     dh1 !! child_path d n = dh2 !! child_path d n) ->
  dir_body m dh1 d = dir_body m dh2 d.
Proof.
  intros H. unfold dir_body. f_equal. apply list_fmap_ext. intros i [n e] Hx.
  apply list_elem_of_lookup_2 in Hx. unfold patch_child. by rewrite (H n e Hx).
Qed.

(** Children come before their directory, so the hash a directory is patched
    with is the final one. *)
Lemma merkle_dirs_consistent addr m paths dh :
  NoDup paths -> StronglySorted longer paths ->
  (forall d n e, (n, e) ∈ default [] (m !! d) -> n <> []) ->
  forall d, d ∈ paths ->
  merkle_dirs addr m paths dh !! d = Some (addr (dir_body m (merkle_dirs addr m paths dh) d)).
Proof.
  intros Hnd Hs Hn. revert dh. induction Hs as [|p paths Hs IH Hlong]; intros dh d Hd;
    [by apply elem_of_nil in Hd|]. simpl.
  rewrite NoDup_cons in Hnd. destruct Hnd as [Hp Hnd].
  apply elem_of_cons in Hd as [->|Hd]; [|by apply IH].
  rewrite merkle_dirs_other, lookup_insert_eq by done. do 2 f_equal.
  apply dir_body_ext. intros n e Hne. apply Hn in Hne. pose proof (child_path_longer p n Hne) as Hl.
  rewrite merkle_dirs_other.
  - rewrite lookup_insert_ne; [done|]. intros Heq. rewrite <- Heq in Hl. lia.
  - intros Hin. rewrite Forall_forall in Hlong. apply Hlong in Hin. unfold longer in Hin. lia.
Qed.

(** ** Writing implements the reference *)

Section laws.
Context {S E : Type} `{TreeStoreLaws S E addr ts_body ts_ok} (envs : nat -> E).

Lemma write_dirs_merkle m paths n dh s written s' written' dh' :
  ts_ok s -> Forall ts_body (merkle_bodies_from addr m paths dh) ->
  write_dirs envs m paths n dh s written = (s', written', Ok dh') ->
  dh' = merkle_dirs addr m paths dh /\ ts_ok s' /\
  (forall b, b ∈ merkle_bodies_from addr m paths dh -> ts_read s' (addr b) = Some b) /\
  (forall k b, ts_read s k = Some b -> ts_read s' k = Some b).
Proof.
  revert n dh s written. induction paths as [|p paths IH]; intros n dh s written Hok Hb Hw; simpl in *.
  { simplify_eq. split; [done|]. split; [done|]. split; [by intros b ?%elem_of_nil|done]. }
  apply Forall_cons in Hb as [Hb Hbs].
  destruct (ts_write (envs n) (dir_body m dh p) s) as [s1 h] eqn:Ew.
  case_decide as Hz; [done|].
  destruct (ts_write_spec _ _ _ _ _ Hok Hb Ew Hz) as (-> & Hok1 & Hr1 & Hold1).
  destruct (IH _ _ _ _ Hok1 Hbs Hw) as (-> & Hok' & Hr & Hold).
  split; [done|]. split; [done|]. split.
  - intros b [->|Hin]%elem_of_cons; [by apply Hold|by apply Hr].
  - intros k b Hk. by apply Hold, Hold1.
Qed.

Lemma merkle_body_in m paths dh d :
  NoDup paths -> StronglySorted longer paths ->
  (forall d n e, (n, e) ∈ default [] (m !! d) -> n <> []) -> d ∈ paths ->
  dir_body m (merkle_dirs addr m paths dh) d ∈ merkle_bodies_from addr m paths dh.
Proof using Type.
  intros Hnd Hs Hn. revert dh. induction Hs as [|p paths Hs IH Hlong]; intros dh Hd;
    [by apply elem_of_nil in Hd|]. simpl.
  rewrite NoDup_cons in Hnd. destruct Hnd as [Hp Hnd].
  apply elem_of_cons in Hd as [->|Hd]; [|by apply elem_of_cons; right; apply IH].
  apply elem_of_cons. left. apply dir_body_ext. intros n e Hne. apply Hn in Hne.
  pose proof (child_path_longer p n Hne) as Hl. rewrite merkle_dirs_other.
  - rewrite lookup_insert_ne; [done|]. intros Heq. rewrite <- Heq in Hl. lia.
  - intros Hin. rewrite Forall_forall in Hlong. apply Hlong in Hin. unfold longer in Hin. lia.
Qed.

(** A directory's object: its children, with the final hashes. *)
Definition final_children (wt : WorkingTree) (d : str) : list child :=
  patch_child (merkle_hashes addr wt) d <$> children (raw wt) d.

(** What a successful run leaves: the root is the reference root, and every
    directory can be read under its reference hash. *)
Lemma serialize_working_tree_spec wt s s' written root :
  ts_ok s -> Forall ts_body (merkle_bodies addr wt) ->
  serialize_working_tree envs wt s = mkSer s' written (Ok root) ->
  root = merkle_root addr wt /\ ts_ok s' /\
  (forall k b, ts_read s k = Some b -> ts_read s' k = Some b) /\
  ts_read s' root = Some (serialize_tree_entries (final_children wt [slash])) /\
  (forall d e, raw wt !! d = Some e -> e_kind e = Tree ->
     exists h, merkle_hashes addr wt !! d = Some h /\
       ts_read s' h = Some (serialize_tree_entries (final_children wt d))).
Proof.
  intros Hok Hb Hs. unfold serialize_working_tree, merkle_bodies, merkle_root in *.
  assert (forall d, dir_body (dirs_and_paths wt).1 (merkle_hashes addr wt) d =
    serialize_tree_entries (final_children wt d)) as Hbody.
  { intros d. destruct (dirs_and_paths wt) as [m paths] eqn:Edp.
    destruct (dirs_and_paths_spec _ _ _ Edp) as (Hch & _). simpl.
    unfold dir_body, final_children. by rewrite Hch. }
  unfold merkle_hashes in *.
  destruct (dirs_and_paths wt) as [m paths] eqn:Edp. simpl in Hbody.
  destruct (dirs_and_paths_spec _ _ _ Edp) as (Hch & Hnd & Hsort & Hpaths).
  assert (forall d n e, (n, e) ∈ default [] (m !! d) -> n <> []) as Hnames.
  { intros d n e. rewrite Hch, elem_of_children. by intros (p & _ & _ & _ & ?). }
  apply Forall_app in Hb as [Hb Hb0].
  destruct (write_dirs envs m paths 0 ∅ s []) as [[s1 w1] [dh|msg]] eqn:Ew; [|done].
  apply write_dirs_merkle in Ew as (-> & Hok1 & Hr & Hold); [|done|done].
  assert (forall d, d ∈ paths -> exists h, merkle_dirs addr m paths ∅ !! d = Some h /\
    ts_read s1 h = Some (serialize_tree_entries (final_children wt d))) as Hdirs.
  { intros d Hd. eexists. split; [by apply merkle_dirs_consistent|].
    rewrite <- Hbody. apply Hr. by apply merkle_body_in. }
  destruct (merkle_dirs addr m paths ∅ !! [slash]) as [h|] eqn:Eroot.
  - simplify_eq. split; [done|]. split; [done|]. split; [done|]. split.
    + assert ([slash] ∈ paths) as Hin.
      { destruct (decide ([slash] ∈ paths)); [done|].
        by rewrite merkle_dirs_other, lookup_empty in Eroot. }
      destruct (Hdirs _ Hin) as (h & Hh & Hread). congruence.
    + intros d e He Hk. apply Hdirs, Hpaths. right. by exists e.
  - destruct (ts_write (envs (length paths)) (serialize_tree_entries []) s1) as [s2 h] eqn:Ew2.
    case_decide as Hz; [done|]. simplify_eq. apply Forall_cons in Hb0 as [Hb0 _].
    destruct (ts_write_spec _ _ _ _ _ Hok1 Hb0 Ew2 Hz) as (-> & Hok2 & Hr2 & Hold2).
    split; [done|]. split; [done|]. split; [intros k b Hk; by apply Hold2, Hold|].
    assert ([slash] ∉ paths) as Hnin.
    { intros Hin. destruct (Hdirs _ Hin) as (h & Hh & _). congruence. }
    split.
    + unfold final_children. destruct (children (raw wt) [slash]) as [|c l] eqn:Ec; [done|].
      exfalso. apply Hnin, Hpaths. left. by rewrite Ec.
    + intros d e He Hk. destruct (Hdirs d) as (h & Hh & Hread).
      { apply Hpaths. right. by exists e. }
      exists h. split; [done|]. by apply Hold2.
Qed.

(** Every tree object a successful run refers to is among those it reports as
    written. *)
Lemma write_dirs_written m paths n dh s written s' written' dh' :
  write_dirs envs m paths n dh s written = (s', written', Ok dh') ->
  (forall h, h ∈ written -> h ∈ written') /\
  (forall d h, dh' !! d = Some h -> h ∈ written' \/ dh !! d = Some h).
Proof using Type.
  revert n dh s written. induction paths as [|p paths IH]; intros n dh s written Hw; simpl in Hw.
  { simplify_eq. split; [done|]. by right. }
  destruct (ts_write (envs n) (dir_body m dh p) s) as [s1 h1]. case_decide; [done|].
  apply IH in Hw as [Hsub Hdh]. split; [intros h Hh; apply Hsub, elem_of_app; by left|].
  intros d h [Hh|Hh]%Hdh; [by left|].
  apply lookup_insert_Some in Hh as [[_ <-]|[_ Hh]]; [|by right].
  left. apply Hsub, elem_of_app. right. apply list_elem_of_here.
Qed.

Lemma serialize_working_tree_written wt s s' written root :
  ts_ok s -> Forall ts_body (merkle_bodies addr wt) ->
  serialize_working_tree envs wt s = mkSer s' written (Ok root) ->
  root ∈ written /\ forall d h, merkle_hashes addr wt !! d = Some h -> h ∈ written.
Proof.
  intros Hok Hb Hs. unfold serialize_working_tree, merkle_bodies, merkle_hashes in *.
  destruct (dirs_and_paths wt) as [m paths]. apply Forall_app in Hb as [Hb _].
  destruct (write_dirs envs m paths 0 ∅ s []) as [[s1 w1] [dh|msg]] eqn:Ew; [|done].
  pose proof (write_dirs_written _ _ _ _ _ _ _ _ _ Ew) as [_ Hin].
  apply write_dirs_merkle in Ew as (-> & _); [|done|done].
  assert (forall d h, merkle_dirs addr m paths ∅ !! d = Some h -> h ∈ w1) as Hall.
  { intros d h Hh. by destruct (Hin d h Hh). }
  destruct (merkle_dirs addr m paths ∅ !! [slash]) as [h|] eqn:Eroot.
  - simplify_eq. split; [by eapply Hall|done].
  - destruct (ts_write (envs (length paths)) (serialize_tree_entries []) s1) as [s2 h].
    case_decide; [done|]. simplify_eq. split; [apply elem_of_app; right; apply list_elem_of_here|].
    intros d h Hh. apply elem_of_app. left. by eapply Hall.
Qed.

End laws.

(** ** Rebuilding *)

Lemma omap_length {A B} (f : A -> option B) (l : list A) : (length (omap f l) <= length l)%nat.
Proof.
  induction l as [|x l IH]; [done|].
  change (omap f (x :: l)) with (match f x with Some y => y :: omap f l | None => omap f l end).
  destruct (f x); simpl length; lia.
Qed.

Lemma sort_children_elem l x : x ∈ sort_children l -> x ∈ l.
Proof. apply elem_of_sort_children. Qed.

Lemma child_path_inj d n1 n2 : child_path d n1 = child_path d n2 -> n1 = n2.
Proof.
  unfold child_path. case_decide; intros Heq; [by simplify_eq/=|].
  apply app_inv_head in Heq. by simplify_eq/=.
Qed.

Lemma child_path_not_root d n : d <> [] -> n <> [] -> child_path d n <> [slash].
Proof.
  intros Hd Hn He. apply child_path_longer with (d := d) in Hn. rewrite He in Hn.
  destruct d; [done|]. simpl in Hn. lia.
Qed.

Definition tree_item (d : str) (c : child) : option (Hash * str) :=
  if decide (e_kind c.2 = Tree) then Some (e_hash c.2, child_path d c.1) else None.

Lemma add_entries_spec d es sc st sc' st' :
  fold_left (add_entry d) es (sc, st) = (sc', st') -> NoDup es.*1 ->
  (forall p e, sc' !! p = Some e <->
     (exists n, (n, e) ∈ es /\ p = child_path d n) \/
     (sc !! p = Some e /\ forall n e0, (n, e0) ∈ es -> p <> child_path d n)) /\
  st' ≡ₚ omap (tree_item d) es ++ st.
Proof.
  revert sc st. induction es as [|[n0 e0] es IH]; intros sc st Hf Hnd; simpl in Hf.
  { simplify_eq. split; [|done]. intros p e. split.
    - intros Hp. right. split; [done|]. by intros n e0 ?%elem_of_nil.
    - by intros [(n & ?%elem_of_nil & _)|[? _]]. }
  rewrite fmap_cons, NoDup_cons in Hnd. destruct Hnd as [Hn Hnd].
  destruct (IH _ _ Hf Hnd) as [A B]. split.
  - intros p e. rewrite A, lookup_insert_Some. split.
    + intros [(n & Hin & ->)|[[[<- <-]|[Hne Hsc]] Hall]].
      * left. exists n. set_solver.
      * left. exists n0. set_solver.
      * right. split; [done|]. intros n e1 [Heq|Hin]%elem_of_cons; [|by eapply Hall].
        simplify_eq. congruence.
    + intros [(n & [Heq|Hin]%elem_of_cons & ->)|[Hsc Hall]].
      * simplify_eq. right. split; [by left|]. intros n e1 Hin Hcp.
        apply child_path_inj in Hcp as <-. apply Hn, list_elem_of_fmap. by exists (n0, e1).
      * left. by exists n.
      * right. split.
        -- right. split; [|done]. intros <-. by eapply Hall; [apply list_elem_of_here|].
        -- intros n e1 Hin. eapply Hall. by apply list_elem_of_further.
  - rewrite B. unfold tree_item at 2. simpl. case_decide; simpl; [|done].
    rewrite (Permutation_app_comm _ (_ :: st)). simpl. constructor.
    by rewrite Permutation_app_comm.
Qed.

Lemma elem_of_final_children addr wt d n e' :
  (n, e') ∈ final_children (addr := addr) wt d <->
  exists e, (n, e) ∈ children (raw wt) d /\ (n, e') = patch_child (merkle_hashes addr wt) d (n, e).
Proof.
  unfold final_children. rewrite list_elem_of_fmap. split.
  - intros ([n0 e] & Hp & Hin). exists e.
    assert (n0 = n) as -> by (unfold patch_child in Hp; repeat case_match; congruence). done.
  - intros (e & Hin & Hp). by exists (n, e).
Qed.

Lemma patch_child_same dh d n e n' e' :
  patch_child dh d (n, e) = (n', e') -> n' = n /\ same_entry e e'.
Proof.
  unfold patch_child, same_entry. intros H. repeat case_match; simplify_eq; naive_solver.
Qed.

Lemma patch_names dh d (l : list child) : (patch_child dh d <$> l).*1 = l.*1.
Proof.
  rewrite <- list_fmap_compose. apply list_fmap_ext. intros i [n e] _. unfold compose.
  destruct (patch_child dh d (n, e)) as [n' e'] eqn:E.
  by apply patch_child_same in E as [-> _].
Qed.

Section rebuild.
Context {S E : Type} `{TreeStore S E} (addr : bytes -> Hash).
Context (wt : WorkingTree) (s : S) (read_io : Hash -> bool) (status : Hash -> object_status).
Context (Hok : tree_ok (raw wt)) (Hio : forall h, read_io h = true).

Let kids (d : str) : list child := final_children (addr := addr) wt d.
Let stored (d : str) (h : Hash) : Prop := ts_read s h = Some (serialize_tree_entries (kids d)).

Context (Hdirs : forall d e, raw wt !! d = Some e -> e_kind e = Tree ->
  exists h, merkle_hashes addr wt !! d = Some h /\ stored d h).

Lemma kids_elem d n e' :
  (n, e') ∈ kids d -> exists e, raw wt !! child_path d n = Some e /\ skipped e = false /\
    split_path (child_path d n) = (d, n) /\ n <> [] /\ same_entry e e' /\
    N.of_nat (length n) < 2 ^ 16 /\
    (e_kind e' = Tree -> stored (child_path d n) (e_hash e')).
Proof using Hok Hdirs.
  intros (e & (p & Hp & Hs & Hsp & Hn)%elem_of_children & Hpatch)%elem_of_final_children.
  destruct (proj1 Hok p e Hp) as (Hpo & _). destruct (path_ok_split _ _ _ Hpo Hsp) as (<- & _ & Hl & _).
  exists e. symmetry in Hpatch. pose proof (patch_child_same _ _ _ _ _ _ Hpatch) as [_ Hsame].
  repeat (split; [done|]). intros Hk. pose proof (proj1 Hsame) as Hk'. rewrite Hk in Hk'.
  destruct (Hdirs _ _ Hp (eq_sym Hk')) as (h & Hh & Hst).
  unfold patch_child in Hpatch. rewrite decide_True, Hh in Hpatch by done. by simplify_eq.
Qed.

Lemma kids_decode d : deserialize_tree_entries (serialize_tree_entries (kids d)) = Parsed (sort_children (kids d)).
Proof using Hok Hdirs.
  rewrite deserialize_serialize_entries.
  - f_equal. apply clip_children_short, Forall_forall. intros [n e] Hx%sort_children_elem.
    by apply kids_elem in Hx as (_ & _ & _ & _ & _ & _ & ? & _).
  - apply Forall_forall. intros [n e'] (e & He & _ & _ & _ & (Hk & Hm & _) & _)%kids_elem.
    destruct (proj1 Hok _ _ He) as (_ & Hmode & Hkind). unfold child_ok. simpl. by rewrite Hk, Hm.
  - unfold kids, final_children. rewrite length_fmap. destruct Hok as [_ Hsz].
    assert (length (children (raw wt) d) <= size (raw wt))%nat; [|lia].
    unfold children. etrans; [apply omap_length|]. by rewrite entries_perm, length_map_to_list.
Qed.

Lemma kids_names d : NoDup (kids d).*1.
Proof using Hok.
  unfold kids, final_children. rewrite patch_names. apply children_names.
  intros p e Hp. by apply (proj1 Hok p e).
Qed.

(** The invariant of the loop: [done] are the directories expanded so far. *)
Record rebuild_inv (done : list str) (scratch : EntryMap) (stack : list (Hash * str)) : Prop := {
  ri_stack : forall h d, (h, d) ∈ stack -> stored d h /\ reach_dir (raw wt) d;
  ri_nodup : NoDup (done ++ stack.*2);
  ri_done : forall d, d ∈ done -> reach_dir (raw wt) d;
  ri_root : [slash] ∈ done ++ stack.*2;
  ri_closed : forall d n e, d ∈ done -> (n, e) ∈ kids d -> e_kind e = Tree ->
    child_path d n ∈ done ++ stack.*2;
  ri_parent : forall d, d ∈ done ++ stack.*2 -> d = [slash] \/ (split_path d).1 ∈ done;
  ri_scratch : forall p e, scratch !! p = Some e <->
    exists d n, d ∈ done /\ (n, e) ∈ kids d /\ p = child_path d n
}.

Lemma reach_dir_nonempty m d : reach_dir m d -> d <> [].
Proof. destruct 1; [done|]. unfold child_path. case_decide; destruct d; done. Qed.

(** The entries that expanding [d] pushes are new. *)
Lemma pushed_new done scratch stack h d :
  rebuild_inv done scratch ((h, d) :: stack) ->
  NoDup ((omap (tree_item d) (sort_children (kids d))).*2 ++ done ++ d :: stack.*2).
Proof using Hok Hdirs.
  intros [Hst Hnd Hdo Hro Hcl Hpa Hsc]. simpl in Hnd.
  assert (d ∉ done) as Hd.
  { apply NoDup_app in Hnd as (_ & Hnd & _). intros Hin. apply (Hnd d Hin), list_elem_of_here. }
  apply NoDup_app. split; [|split; [|done]].
  - assert (NoDup (sort_children (kids d)).*1) as Hn.
    { unfold sort_children. rewrite merge_sort_Permutation. apply kids_names. }
    induction (sort_children (kids d)) as [|[n e] l IH]; [constructor|].
    rewrite fmap_cons, NoDup_cons in Hn. destruct Hn as [Hn Hl].
    simpl. unfold tree_item at 1. simpl. case_decide; [|by apply IH].
    rewrite fmap_cons, NoDup_cons. split; [|by apply IH].
    simpl. intros ([h' p] & Hp & Hin)%list_elem_of_fmap. simpl in Hp. subst p.
    apply list_elem_of_omap in Hin as ([n' e'] & Hin & Hit). unfold tree_item in Hit. simpl in Hit.
    case_decide; [|done]. simplify_eq. apply Hn, list_elem_of_fmap. exists (n', e').
    split; [|done]. simpl. symmetry. by eapply child_path_inj.
  - intros p ([h' p'] & -> & Hin)%list_elem_of_fmap. simpl.
    apply list_elem_of_omap in Hin as ([n e] & Hin%sort_children_elem & Hit).
    unfold tree_item in Hit. simpl in Hit. case_decide; [|done]. simplify_eq.
    destruct (kids_elem _ _ _ Hin) as (e0 & _ & _ & Hsp & Hn & _).
    intros [Hr|Hr]%(Hpa (child_path d n)).
    + eapply child_path_not_root; [|exact Hn|exact Hr]. by apply split_path_parts in Hsp as [? _].
    + rewrite Hsp in Hr. done.
Qed.

Lemma rebuild_turn_inv done scratch stack h d :
  rebuild_inv done scratch ((h, d) :: stack) ->
  exists scratch' stack',
    rebuild_turn read_io status s scratch ((h, d) :: stack) = Some (Ok (scratch', stack')) /\
    rebuild_inv (d :: done) scratch' stack'.
Proof using All.
  intros Hinv. pose proof (pushed_new _ _ _ _ _ Hinv) as Hnew.
  destruct Hinv as [Hst Hnd Hdo Hro Hcl Hpa Hsc].
  destruct (Hst h d (list_elem_of_here _ _)) as [Hread Hreach].
  unfold rebuild_turn. rewrite Hio. unfold stored in Hread. rewrite Hread, kids_decode.
  destruct (fold_left (add_entry d) (sort_children (kids d)) (scratch, stack)) as [sc' st'] eqn:Ef.
  exists sc', st'. split; [done|].
  apply add_entries_spec in Ef as [Hsc' Hst'].
  2:{ unfold sort_children. rewrite merge_sort_Permutation. apply kids_names. }
  assert (forall x, x ∈ (d :: done) ++ st'.*2 <->
    x ∈ (omap (tree_item d) (sort_children (kids d))).*2 \/ x ∈ done ++ d :: stack.*2) as Hall.
  { intros x. rewrite Hst', fmap_app, !elem_of_app, !elem_of_cons. naive_solver. }
  assert (forall n e, (n, e) ∈ kids d -> e_kind e = Tree ->
    (e_hash e, child_path d n) ∈ omap (tree_item d) (sort_children (kids d))) as Hitem.
  { intros n e Hin Hk. apply list_elem_of_omap. exists (n, e).
    rewrite elem_of_sort_children. split; [done|]. unfold tree_item. by rewrite decide_True. }
  split.
  - intros h' d'. rewrite Hst', elem_of_app. intros [Hin|Hin].
    + apply list_elem_of_omap in Hin as ([n e'] & Hin%sort_children_elem & Hit).
      unfold tree_item in Hit. simpl in Hit. case_decide as Hk; [|done]. simplify_eq.
      destruct (kids_elem _ _ _ Hin) as (e & He & _ & Hsp & _ & (Hk' & _) & _ & Hst1).
      split; [by apply Hst1|]. eapply reach_child; [done|exact He|congruence|done].
    + apply Hst. by apply list_elem_of_further.
  - rewrite Hst', fmap_app. eapply NoDup_Permutation_proper; [|exact Hnew].
    simpl. rewrite Permutation_middle, (app_assoc _ done), (Permutation_app_comm _ done).
    rewrite <- app_assoc. rewrite !Permutation_middle. done.
  - intros x [->|Hx]%elem_of_cons; [done|by apply Hdo].
  - apply Hall. by right.
  - intros x n e [->|Hx]%elem_of_cons Hin Hk; apply Hall.
    + left. apply list_elem_of_fmap. exists (e_hash e, child_path d n). by split; [|apply Hitem].
    + right. by eapply Hcl.
  - intros x [Hx|Hx]%Hall.
    + right. apply list_elem_of_fmap in Hx as ([h' p] & -> & Hin). simpl.
      apply list_elem_of_omap in Hin as ([n e] & Hin%sort_children_elem & Hit).
      unfold tree_item in Hit. simpl in Hit. case_decide; [|done]. simplify_eq.
      destruct (kids_elem _ _ _ Hin) as (_ & _ & _ & -> & _). simpl. apply list_elem_of_here.
    + destruct (Hpa x Hx) as [|Hp]; [by left|right; by apply list_elem_of_further].
  - intros p e. rewrite Hsc', Hsc. split.
    + intros [(n & Hin%sort_children_elem & ->)|[(d' & n & Hd' & Hin & ->) _]].
      * exists d, n. by split; [apply list_elem_of_here|].
      * exists d', n. by split; [apply list_elem_of_further|].
    + intros (d' & n & [->|Hd']%elem_of_cons & Hin & ->).
      * left. exists n. by rewrite elem_of_sort_children.
      * right. split; [by exists d', n|]. intros n0 e0 Hin0%sort_children_elem Heq.
        destruct (kids_elem _ _ _ Hin) as (_ & _ & _ & Hsp & _).
        destruct (kids_elem _ _ _ Hin0) as (_ & _ & _ & Hsp0 & _).
        rewrite Heq, Hsp0 in Hsp. simplify_eq. apply NoDup_app in Hnd as (_ & Hnd & _).
        apply (Hnd d' Hd'). apply list_elem_of_here.
Qed.

Lemma rebuild_inv_bound done scratch stack :
  rebuild_inv done scratch stack -> (length done + length stack <= 1 + size (raw wt))%nat.
Proof using Type.
  intros [Hst Hnd Hdo _ _ _ _].
  replace (length done + length stack)%nat with (length (done ++ stack.*2))
    by (by rewrite length_app, length_fmap).
  replace (1 + size (raw wt))%nat with (length ([slash] :: (map_to_list (raw wt)).*1))
    by (simpl; by rewrite length_fmap, length_map_to_list).
  apply submseteq_length, NoDup_submseteq; [done|]. intros d Hd.
  assert (reach_dir (raw wt) d) as Hr.
  { apply elem_of_app in Hd as [Hd|Hd]; [by apply Hdo|].
    apply list_elem_of_fmap in Hd as ([h d'] & -> & Hd). by apply (Hst h d'). }
  destruct Hr as [|d n e _ He _ _]; [apply list_elem_of_here|].
  apply list_elem_of_further, list_elem_of_fmap. exists (child_path d n, e).
  split; [done|by apply elem_of_map_to_list].
Qed.

Lemma rebuild_loop_inv fuel done scratch stack :
  rebuild_inv done scratch stack -> (2 + size (raw wt) <= length done + fuel)%nat ->
  exists done' scratch',
    rebuild_loop fuel read_io status s scratch stack = Some (Ok scratch') /\
    rebuild_inv done' scratch' [].
Proof using All.
  revert done scratch stack. induction fuel as [|fuel IH]; intros done scratch stack Hinv Hf.
  { apply rebuild_inv_bound in Hinv. lia. }
  destruct stack as [|[h d] stack]; [by exists done, scratch|].
  destruct (rebuild_turn_inv _ _ _ _ _ Hinv) as (sc' & st' & Ht & Hinv').
  cbn [rebuild_loop]. rewrite Ht. apply (IH (d :: done)); [done|]. simpl. lia.
Qed.

Lemma rebuild_all fuel root :
  stored [slash] root -> (2 + size (raw wt) <= fuel)%nat ->
  exists scratch, rebuild_loop fuel read_io status s ∅ [(root, [slash])] = Some (Ok scratch) /\
    forall p e, scratch !! p = Some e <->
      exists d n, reach_dir (raw wt) d /\ (n, e) ∈ kids d /\ p = child_path d n.
Proof using All.
  intros Hroot Hf. destruct (rebuild_loop_inv fuel [] ∅ [(root, [slash])]) as (done & sc & Hl & Hinv).
  - split; simpl.
    + intros h d [= -> ->]%list_elem_of_singleton. split; [done|constructor].
    + apply NoDup_singleton.
    + by intros d ?%elem_of_nil.
    + apply list_elem_of_here.
    + by intros d n e ?%elem_of_nil.
    + intros d ->%list_elem_of_singleton. by left.
    + intros p e. rewrite lookup_empty. split; [done|]. by intros (d & n & ?%elem_of_nil & _).
  - simpl. lia.
  - exists sc. split; [done|]. destruct Hinv as [_ _ Hdo Hro Hcl _ Hsc]. simpl in *.
    rewrite app_nil_r in Hro. intros p e. rewrite Hsc.
    assert (forall d, reach_dir (raw wt) d -> d ∈ done) as Hall.
    { induction 1 as [|d n e0 Hd IH He Hk Hsp]; [done|].
      destruct (proj1 Hok _ _ He) as (Hpo & _).
      destruct (path_ok_split _ _ _ Hpo Hsp) as (_ & Hn & _).
      destruct (patch_child (merkle_hashes addr wt) d (n, e0)) as [n' e'] eqn:Ep.
      pose proof (patch_child_same _ _ _ _ _ _ Ep) as [-> (Hk' & _)].
      pose proof (Hcl d n e' IH) as Hin. rewrite app_nil_r in Hin. apply Hin; [|congruence].
      apply elem_of_final_children. exists e0. split; [|done]. apply elem_of_children.
      exists (child_path d n). split; [done|]. split; [|done].
      unfold skipped, is_leaf. rewrite Hk. done. }
    split; intros (d & n & Hd & Hin & ->); exists d, n; auto.
Qed.

End rebuild.

(** ** The object store is a tree store *)

Section object_store.
Context (blake3 : bytes -> Hash) (U : bytes -> Prop).

#[global] Instance object_tree_store : TreeStore ObjectStore WriteEnv := {
  ts_write env body st := write_tree blake3 body env st;
  ts_read st h := read_tree st true h;
  ts_error st := last_error_ st
}.

Definition tree_addr (body : bytes) : Hash := blake3 (lit "tree" ++ body).
Definition tree_body (body : bytes) : Prop := U (lit "tree" ++ body).

(** The store's own invariant, with its contents within [U]. *)
Definition contents_ok (st : ObjectStore) : Prop :=
  store_inv blake3 st /\ forall k o, disk st !! k = Some o -> U (f_content o).

Lemma object_tree_store_laws :
  collision_free blake3 U -> TreeStoreLaws ObjectStore WriteEnv tree_addr tree_body contents_ok.
Proof.
  intros Hcf. split. intros env body st st' h [Hi HU] HUb Hw Hne.
  apply (write_object_stores blake3 U) in Hw as (-> & Hi' & HU' & (o & Ho & Hc) & Hold); try done.
  split; [done|]. split; [done|]. split; [by eapply read_object_content|].
  intros k b (o1 & Ho1 & Hc1)%read_object_tag. destruct (Hold k o1 Ho1) as (o2 & Ho2 & Hc2).
  eapply read_object_content; [done|congruence].
Qed.

(** A finite set of contents is checked for collisions by evaluation. *)
Lemma collision_free_list l :
  bool_decide (Forall (fun a => Forall (fun b => blake3 a = blake3 b -> a = b) l) l) = true ->
  collision_free blake3 (fun c => c ∈ l).
Proof.
  intros H%bool_decide_eq_true a b Ha Hb. rewrite Forall_forall in H.
  specialize (H a Ha). rewrite Forall_forall in H. by apply H.
Qed.

End object_store.

Arguments object_tree_store blake3 : clear implicits.

(** What a rebuilt map holds of the map it was serialized from: the entries
    whose directory can be reached from the root, except leaves without an
    object. *)
Definition restored (m m' : EntryMap) : Prop :=
  forall p,
    match m' !! p with
    | Some e' => exists e, m !! p = Some e /\ skipped e = false /\
        reach_dir m (split_path p).1 /\ same_entry e e'
    | None => forall e, m !! p = Some e -> skipped e = false -> ~ reach_dir m (split_path p).1
    end.

(** Rebuilding from the root of a tree whose objects can all be read. *)
Lemma rebuild_restores {S E} `{TreeStore S E} addr wt wt0 (s : S) fuel read_io status root :
  tree_ok (raw wt) -> (forall h, read_io h = true) ->
  (forall d e, raw wt !! d = Some e -> e_kind e = Tree ->
    exists h, merkle_hashes addr wt !! d = Some h /\
      ts_read s h = Some (serialize_tree_entries (final_children (addr := addr) wt d))) ->
  ts_read s root = Some (serialize_tree_entries (final_children (addr := addr) wt [slash])) ->
  (2 + size (raw wt) <= fuel)%nat ->
  exists m', rebuild_working_tree fuel read_io status root s wt0 = Some (set_base wt0 m', Ok ()) /\
    restored (raw wt) m'.
Proof.
  intros Hok Hio Hdirs Hroot Hf.
  destruct (rebuild_all addr wt s read_io status Hok Hio Hdirs fuel root Hroot Hf)
    as (sc & Hl & Hsc).
  exists sc. unfold rebuild_working_tree. rewrite Hl. split; [done|]. intros p.
  destruct (sc !! p) as [e'|] eqn:Ep.
  - apply Hsc in Ep as (d & n & Hd & Hin & ->).
    destruct (kids_elem addr wt s Hok Hdirs _ _ _ Hin) as (e & He & Hsk & Hsp & _ & Hsame & _).
    exists e. by rewrite Hsp.
  - intros e He Hsk Hr. destruct (proj1 Hok p e He) as (Hpo & _).
    destruct (split_path p) as [d n] eqn:Esp. destruct (path_ok_split _ _ _ Hpo Esp) as (Hc & Hn & _).
    destruct (patch_child (merkle_hashes addr wt) d (n, e)) as [n' e'] eqn:Ek.
    pose proof (patch_child_same _ _ _ _ _ _ Ek) as [-> _].
    assert (sc !! p = Some e') as Hp; [|congruence].
    apply Hsc. exists d, n. split; [done|]. split; [|done].
    apply elem_of_final_children. exists e. split; [|done]. apply elem_of_children. by exists p.
Qed.

(** ** Properties *)

(** C10. Serialize, then rebuild: from the root hash of a well-formed tree, the
    rebuilt tree has an authoritative base with exactly the entries reachable
    from the root (whiteouts included, object-less leaves excluded), each with
    its kind, mode and content hash, and [2 + size] turns of the loop are
    enough. *)
Theorem serialize_rebuild_roundtrip {S E} `{TreeStoreLaws S E addr ts_body ts_ok} (envs : nat -> E)
    wt wt0 s s' written root fuel read_io status :
  tree_ok (raw wt) -> ts_ok s -> Forall ts_body (merkle_bodies addr wt) ->
  serialize_working_tree envs wt s = mkSer s' written (Ok root) ->
  (forall h, read_io h = true) -> (2 + size (raw wt) <= fuel)%nat ->
  exists m', rebuild_working_tree fuel read_io status root s' wt0 = Some (set_base wt0 m', Ok ()) /\
    restored (raw wt) m'.
Proof.
  intros Hok Hs Hb Hser Hio Hf.
  destruct (serialize_working_tree_spec envs wt s s' written root Hs Hb Hser)
    as (_ & _ & _ & Hroot & Hdirs).
  by apply (rebuild_restores addr wt wt0 s').
Qed.

(** The root hash is a function of the merged path map alone: it is the
    reference Merkle root, whatever the split between base and delta, the
    store's contents before, and which objects were already there. *)
Theorem root_is_merkle_root {S E} `{TreeStoreLaws S E addr ts_body ts_ok} (envs : nat -> E)
    wt s s' written root :
  ts_ok s -> Forall ts_body (merkle_bodies addr wt) ->
  serialize_working_tree envs wt s = mkSer s' written (Ok root) ->
  root = merkle_root addr wt /\
  (forall wt2, raw wt2 = raw wt -> merkle_root addr wt2 = root) /\
  (forall k b, ts_read s k = Some b -> ts_read s' k = Some b).
Proof.
  intros Hs Hb Hser.
  destruct (serialize_working_tree_spec envs wt s s' written root Hs Hb Hser) as (-> & _ & Hold & _).
  split; [done|]. split; [|done]. intros wt2 Hraw.
  unfold merkle_root, merkle_hashes, dirs_and_paths, for_each, for_each_including_deleted.
  by rewrite !merged_for_each_raw, Hraw.
Qed.

(** ** Witnesses *)

Definition sample_blob_hash : Hash := toy_blake3 hello_content.

Definition sample_wt : WorkingTree :=
  wt_insert (set_base empty_tree
    (<[lit "/a/x" := mkEntry Blob sample_blob_hash 420]>
      (<[lit "/a" := mkEntry Tree ZERO_HASH 493]> ∅)))
    (lit "/b") (mkEntry Deleted ZERO_HASH 0).

Definition sample_contents : list bytes :=
  (fun b => lit "tree" ++ b) <$> merkle_bodies (tree_addr toy_blake3) sample_wt.

Definition sample_U (c : bytes) : Prop := c ∈ sample_contents.

Definition sample_run : SerializeResult ObjectStore :=
  @serialize_working_tree _ _ (object_tree_store toy_blake3) (fun _ => no_faults 7) sample_wt
    (empty_store (lit "/s")).

Lemma sample_laws :
  @TreeStoreLaws ObjectStore WriteEnv (object_tree_store toy_blake3)
    (tree_addr toy_blake3) (tree_body sample_U) (contents_ok toy_blake3 sample_U).
Proof. apply object_tree_store_laws, collision_free_list. vm_compute. reflexivity. Qed.

Lemma sample_store_ok : contents_ok toy_blake3 sample_U (empty_store (lit "/s")).
Proof. split; [|done]. split; simpl; [done|by intros h []|set_solver]. Qed.

Lemma sample_bodies : Forall (tree_body sample_U) (merkle_bodies (tree_addr toy_blake3) sample_wt).
Proof.
  apply Forall_forall. intros b Hb. unfold tree_body, sample_U, sample_contents.
  apply list_elem_of_fmap. by exists b.
Qed.

Lemma sample_tree_ok : tree_ok (raw sample_wt).
Proof.
  split; [|vm_compute; reflexivity].
  assert (Forall (fun x => path_ok x.1 /\ e_mode x.2 < 2 ^ 32 /\ kind_ok (e_kind x.2))
    (map_to_list (raw sample_wt))) as H.
  { apply (bool_decide_unpack _). vm_compute. constructor. }
  intros p e Hp. rewrite Forall_forall in H. apply (H (p, e)). by apply elem_of_map_to_list.
Qed.

Lemma serialize_rebuild_roundtrip_witness :
  exists m', @rebuild_working_tree _ _ (object_tree_store toy_blake3) 5 (fun _ => true)
      (fun _ => StillThere) (merkle_root (tree_addr toy_blake3) sample_wt)
      (sr_store sample_run) empty_tree = Some (set_base empty_tree m', Ok ()) /\
    restored (raw sample_wt) m'.
Proof.
  apply (@serialize_rebuild_roundtrip _ _ (object_tree_store toy_blake3) _ _ _ sample_laws
    (fun _ => no_faults 7) sample_wt empty_tree (empty_store (lit "/s")) (sr_store sample_run)
    (sr_written sample_run)).
  - apply sample_tree_ok.
  - apply sample_store_ok.
  - apply sample_bodies.
  - vm_compute. reflexivity.
  - reflexivity.
  - vm_compute. lia.
Defined.

Lemma root_is_merkle_root_witness :
  merkle_root (tree_addr toy_blake3) (fold_into_base sample_wt) =
  merkle_root (tree_addr toy_blake3) sample_wt.
Proof.
  apply (@root_is_merkle_root _ _ (object_tree_store toy_blake3) _ _ _ sample_laws
    (fun _ => no_faults 7) sample_wt (empty_store (lit "/s")) (sr_store sample_run)
    (sr_written sample_run)).
  - apply sample_store_ok.
  - apply sample_bodies.
  - vm_compute. reflexivity.
  - vm_compute. reflexivity.
Defined.
