(* ===== verification/History.v ===== *)
(** Commit history: reading a stored commit, the ancestry relation over all
    parents, and the measure that bounds every walk over it. *)

From S2P Require Import Prelude Hashes Codec ObjectStore.

(** ** Reads do not depend on more than the bytes *)

Lemma read_object_io (st0 : ObjectStore) io h tag body :
  read_object st0 io h tag = Some body -> read_object st0 true h tag = Some body.
Proof. unfold read_object. by destruct io. Qed.

Lemma read_blob_io (st0 : ObjectStore) io h body :
  read_blob st0 io h = Some body -> read_blob st0 true h = Some body.
Proof.
  unfold read_blob. destruct (read_object st0 io h _) eqn:E; [|done].
  by rewrite (read_object_io _ _ _ _ _ E).
Qed.

(** ** The parents of a commit fit its body *)

Lemma fetch_hash_bound body pos h : fetch_hash body pos = Parsed h -> (pos + 32 <= length body)%nat.
Proof.
  intros H. destruct (decide (pos + 32 <= length body)%nat); [done|].
  unfold fetch_hash in H. by rewrite fetch_out in H by lia.
Qed.

Lemma fetch_parents_bound body pos n ps :
  fetch_parents body pos n = Parsed ps -> (length ps <= length body)%nat.
Proof.
  assert (forall pos n ps, fetch_parents body pos n = Parsed ps ->
    length ps = n /\ (n = 0 \/ pos + n <= length body)%nat) as H.
  { intros p k. revert p. induction k as [|k IH]; intros p l Hf; simpl in Hf; [simplify_eq; simpl; lia|].
    destruct (fetch_hash body p) as [h| |] eqn:Eh; simplify_eq/=.
    destruct (fetch_parents body (p + 32) k) as [l'| |] eqn:El; simplify_eq/=.
    apply fetch_hash_bound in Eh. destruct (IH _ _ El) as [-> Hb]. split; [done|]. lia. }
  intros [Hl Hb]%H. lia.
Qed.

Lemma pbind_parsed {A B} (p : parse A) (f : A -> parse B) b :
  pbind p f = Parsed b -> exists a, p = Parsed a /\ f a = Parsed b.
Proof. destruct p; [eauto|done|done]. Qed.

Lemma commit_parents_bound body cd :
  deserialize_commit body = Parsed cd -> (length (parents cd) <= length body)%nat.
Proof.
  unfold deserialize_commit. case_decide; [done|].
  intros (th & _ & (pc & _ & H1)%pbind_parsed)%pbind_parsed. destruct (_ <? _); [done|].
  apply pbind_parsed in H1 as (ps & Ep & (sid & _ & (ts & _ & (ll & _ & H2)%pbind_parsed)%pbind_parsed)%pbind_parsed).
  case_decide; [done|]. apply pbind_parsed in H2 as (lb & _ & (pv & _ & H3)%pbind_parsed).
  injection H3 as <-. by apply fetch_parents_bound in Ep.
Qed.

(** ** Commits and their ancestors *)

Section history.
Context (st : ObjectStore).

Definition load_commit (io : bool) (commit : Hash) : option (parse CommitData) :=
  deserialize_commit <$> read_commit st io commit.

Lemma load_commit_io io c r : load_commit io c = Some r -> load_commit true c = Some r.
Proof.
  unfold load_commit, read_commit. destruct (read_object st io c _) eqn:E; [|done].
  by rewrite (read_object_io _ _ _ _ _ E).
Qed.

(** A stored commit and its decoded data. *)
Definition commit_at (c : Hash) (cd : CommitData) : Prop := load_commit true c = Some (Parsed cd).

Inductive ancestor (head : Hash) : Hash -> Prop :=
| anc_head : ancestor head head
| anc_parent c cd p : ancestor head c -> commit_at c cd -> p ∈ parents cd -> ancestor head p.

Lemma read_object_dom io h tag body : read_object st io h tag = Some body -> h ∈ dom (disk st).
Proof. intros H%read_object_io. apply read_object_tag in H as (o & Ho & _). by apply elem_of_dom_2 in Ho. Qed.

Lemma read_blob_dom io h body : read_blob st io h = Some body -> h ∈ dom (disk st).
Proof. unfold read_blob. destruct (read_object st io h _) eqn:E; [|done]. intros _. by eapply read_object_dom. Qed.

(** Bytes of the objects outside [seen]. *)
Definition weight (seen : gset Hash) : nat :=
  map_fold (fun _ o n => length (f_content o) + n)%nat 0%nat (filter (fun x => x.1 ∉ seen) (disk st)).

Lemma weight_visit seen c o :
  disk st !! c = Some o -> (c ∉ seen) -> weight seen = (length (f_content o) + weight ({[c]} ∪ seen))%nat.
Proof.
  intros Ho Hc. unfold weight.
  rewrite (map_fold_delete_L _ _ c o); [|intros; lia|by apply map_lookup_filter_Some].
  do 2 f_equal. apply map_eq. intros k. destruct (decide (k = c)) as [->|Hk].
  - rewrite lookup_delete_eq. symmetry. apply map_lookup_filter_None. right. intros x _. set_solver.
  - rewrite lookup_delete_ne by done. rewrite !map_lookup_filter.
    destruct (disk st !! k) as [x|]; [|done]. simpl.
    destruct (decide (k ∈ seen)).
    + rewrite !option_guard_False by set_solver. done.
    + rewrite !option_guard_True by set_solver. done.
Qed.

Lemma load_commit_size io c cd :
  load_commit io c = Some (Parsed cd) ->
  exists o, disk st !! c = Some o /\ (length (parents cd) <= length (f_content o))%nat.
Proof.
  intros H%load_commit_io. unfold load_commit, read_commit in H.
  destruct (read_object st true c _) as [body|] eqn:E; [|done].
  apply read_object_tag in E as (o & Ho & Hc). exists o. split; [done|].
  simpl in H. injection H as H. apply commit_parents_bound in H. rewrite Hc, length_app. lia.
Qed.

End history.
