(* ===== verification/Refs.v ===== *)
(** Branch references (cas/refs.h, cas/refs.cpp) and the branch names they are
    stored under (cas/branch_name.cpp).

    A reference is a file of refs/ whose only content is the commit's hash in
    hexadecimal and a line feed. It is replaced by an atomic rename of a synced
    temporary file; [ref_durable] is what the directory holds after a crash,
    brought up to date by the directory's [fsync]. *)

From S2P Require Import Prelude Hashes ObjectStore.

(** ** Branch names *)

(** [std::isalnum] in the "C" locale. *)
Definition is_alnum (c : ascii) : bool :=
  let n := N_of_ascii c in
  ((48 <=? n) && (n <=? 57)) || ((65 <=? n) && (n <=? 90)) || ((97 <=? n) && (n <=? 122)).

Definition kReserved : list str :=
  [lit "main"; lit "HEAD"; lit "FETCH_HEAD"; lit "ORIG_HEAD"; lit "MERGE_HEAD";
   lit "refs"; lit "objects"; lit "tmp"; lit "telemetry"].

Definition branch_char (c : ascii) : bool :=
  is_alnum c || bool_decide (c = "-"%char) || bool_decide (c = "_"%char).

Definition is_valid_branch_name (name : str) : bool :=
  if bool_decide (name = []) || bool_decide (64 < length name)%nat then false
  else forallb branch_char name && negb (bool_decide (name ∈ kReserved)).

(** ** References *)

Record Refs : Type := mkRefs {
  ref_files : gmap str bytes;
  ref_durable : gmap str bytes
}.

(** A directory entry as [list_refs] sees it: its name, and whether it is a
    regular file or why that is not known. *)
Abbreviation ref_entry := (str * (str + bool))%type.

Fixpoint scan_refs (l : list ref_entry) (end_fault : fault) : result (list str) :=
  match l with
  | [] =>
      match end_fault with
      | Some msg => Err (lit "enumerate refs directory failed: " ++ msg)
      | None => Ok []
      end
  | (name, inl msg) :: _ => Err (lit "inspect ref entry failed: " ++ msg)
  | (name, inr regular) :: l' =>
      let* names := scan_refs l' end_fault in
      Ok (if regular then name :: names else names)
  end.

Definition list_refs (begin_fault : fault) (l : list ref_entry) (end_fault : fault) :
    result (list str) :=
  match begin_fault with
  | Some msg => Err (lit "enumerate refs directory failed: " ++ msg)
  | None =>
      let* names := scan_refs l end_fault in Ok (merge_sort str_le names)
  end.

(** The wrapper drops the error and keeps the cleared list. *)
Definition list_refs_or_nothing (begin_fault : fault) (l : list ref_entry) (end_fault : fault) :
    list str :=
  match list_refs begin_fault l end_fault with Ok names => names | Err _ => [] end.

(** The reads stop early at [read_stop], if at all; [close] may fail. *)
Record ReadEnv : Type := mkReadEnv {
  open_ok : bool;
  read_stop : option nat;
  close_ok : bool
}.

Definition parse_ref (buf : bytes) : option Hash :=
  if decide (length buf = 65%nat) then
    if decide (buf !! 64%nat = Some newline) then hex_to_hash_strict (take 64 buf) else None
  else None.

Definition read_ref (env : ReadEnv) (branch : str) (r : Refs) : option Hash :=
  if negb (open_ok env) then None else
  match ref_files r !! branch with
  | None => None
  | Some content =>
      let buf := take 66 (match read_stop env with Some n => take n content | None => content end) in
      if close_ok env then parse_ref buf else None
  end.

(** Outcomes of the calls of [write_ref], in order. *)
Record WriteRefEnv : Type := mkWriteRefEnv {
  tmp_open_ok : bool;
  tmp_write_ok : bool;
  tmp_fsync_ok : bool;
  dir_open_ok : bool;
  ref_rename_ok : bool;
  dir_fsync_ok : bool;
  dir_close_ok : bool
}.

Definition ref_content (h : Hash) : bytes := hash_to_hex h ++ [newline].

Definition write_ref (env : WriteRefEnv) (branch : str) (commit_hash : Hash) (r : Refs) :
    Refs * bool :=
  if negb (tmp_open_ok env && tmp_write_ok env && tmp_fsync_ok env && dir_open_ok env &&
           ref_rename_ok env) then (r, false)
  else
    let files := <[branch := ref_content commit_hash]> (ref_files r) in
    if negb (dir_fsync_ok env) then (mkRefs files (ref_durable r), false)
    else (mkRefs files files, dir_close_ok env).

Definition write_main (env : WriteRefEnv) (h : Hash) (r : Refs) : Refs * bool :=
  write_ref env (lit "main") h r.

Definition read_main (env : ReadEnv) (r : Refs) : option Hash := read_ref env (lit "main") r.

Record RemoveRefEnv : Type := mkRemoveRefEnv {
  rm_dir_open_ok : bool;
  unlink_ok : bool;
  rm_fsync_ok : bool;
  rm_close_ok : bool
}.

Definition remove_ref (env : RemoveRefEnv) (branch : str) (r : Refs) : Refs * bool :=
  if decide (branch = lit "main") then (r, false)
  else if negb (rm_dir_open_ok env && unlink_ok env && bool_decide (is_Some (ref_files r !! branch)))
  then (r, false)
  else
    let files := delete branch (ref_files r) in
    if negb (rm_fsync_ok env) then (mkRefs files (ref_durable r), false)
    else (mkRefs files files, rm_close_ok env).

(** ** Lemmas *)

Definition reads_ok : ReadEnv := mkReadEnv true None true.
Definition ref_writes_ok : WriteRefEnv := mkWriteRefEnv true true true true true true true.

Lemma ref_content_length h : length (ref_content h) = 65%nat.
Proof. unfold ref_content. by rewrite length_app, hash_to_hex_length. Qed.

Lemma parse_ref_content h : parse_ref (ref_content h) = Some h.
Proof.
  unfold parse_ref. rewrite decide_True by apply ref_content_length.
  unfold ref_content. pose proof (hash_to_hex_length h) as Hl.
  rewrite decide_True by (rewrite lookup_app_r by lia; by rewrite Hl).
  rewrite take_app_length' by done. apply hex_to_hash_strict_hex.
Qed.

Lemma read_ref_content r branch h :
  ref_files r !! branch = Some (ref_content h) -> read_ref reads_ok branch r = Some h.
Proof.
  intros H. unfold read_ref. simpl. rewrite H. rewrite take_ge by (rewrite ref_content_length; lia).
  apply parse_ref_content.
Qed.

(** A failed write leaves the old file or the new one, never another. *)
Lemma write_ref_spec env branch h r r' ok :
  write_ref env branch h r = (r', ok) ->
  (forall b, b <> branch -> ref_files r' !! b = ref_files r !! b) /\
  (ref_files r' !! branch = ref_files r !! branch \/ ref_files r' !! branch = Some (ref_content h)) /\
  (ref_durable r' = ref_durable r \/ ref_durable r' = ref_files r') /\
  (ok = true -> ref_files r' !! branch = Some (ref_content h) /\ ref_durable r' = ref_files r').
Proof.
  unfold write_ref. intros H.
  repeat case_match; simplify_eq/=; repeat split; try done; auto;
    try (intros b Hb; by rewrite lookup_insert_ne); rewrite lookup_insert_eq; auto.
Qed.

Lemma read_ref_write env branch h r r' :
  write_ref env branch h r = (r', true) -> read_ref reads_ok branch r' = Some h.
Proof.
  intros H. apply read_ref_content. by apply write_ref_spec in H as (_ & _ & _ & H2); apply H2.
Qed.

Lemma parse_ref_Some buf h :
  parse_ref buf = Some h -> exists hex, buf = hex ++ [newline] /\ hash_to_hex h = lower_hex <$> hex.
Proof.
  unfold parse_ref. case_decide as Hl; [|done]. case_decide as Hn; [|done].
  intros [_ Hh]%hex_to_hash_strict_canonical. exists (take 64 buf). split; [|done].
  rewrite <- (take_drop 64 buf) at 1. f_equal. rewrite (drop_S _ newline) by done.
  f_equal. apply nil_length_inv. rewrite length_drop. lia.
Qed.

Lemma scan_refs_Ok l end_fault names :
  scan_refs l end_fault = Ok names ->
  names = omap (fun e => match e.2 with inr true => Some e.1 | _ => None end) l /\
  end_fault = None /\ Forall (fun e => exists b, e.2 = inr b) l.
Proof.
  revert names. induction l as [|[n [msg|b]] l IH]; intros names H; simpl in H; [|done|].
  - destruct end_fault; simplify_eq. done.
  - destruct (scan_refs l end_fault) as [ns|]; simpl in H; [|done]. simplify_eq.
    destruct (IH _ eq_refl) as (-> & -> & Hf).
    split; [by destruct b|]. split; [done|]. constructor; [by exists b|done].
Qed.

Lemma valid_name_chars name c : is_valid_branch_name name = true -> c ∈ name -> branch_char c = true.
Proof.
  unfold is_valid_branch_name. destruct (_ || _); [done|]. intros [H _]%andb_true_iff Hc.
  rewrite forallb_forall in H. by apply H, list_elem_of_In.
Qed.

(** ** Properties *)

(** A reference that was written reads back; other branches are untouched;
    whatever call fails, the file and what survives a crash are the old
    reference or the new one, and success means the new one is durable. *)
Theorem ref_write_atomic env branch h r r' ok :
  write_ref env branch h r = (r', ok) -> ref_durable r = ref_files r ->
  (ok = true -> read_ref reads_ok branch r' = Some h /\ ref_durable r' = ref_files r') /\
  (forall b, b <> branch -> ref_files r' !! b = ref_files r !! b /\
     ref_durable r' !! b = ref_durable r !! b) /\
  (forall files, files = ref_files r' \/ files = ref_durable r' ->
     files !! branch = ref_files r !! branch \/ files !! branch = Some (ref_content h)).
Proof.
  intros H Hd. pose proof (read_ref_write env branch h r r') as Hread.
  apply write_ref_spec in H as H'. destruct H' as (Hother & Hat & Hdur & Hok).
  split; [|split].
  - intros ->. split; [by apply Hread|by apply Hok].
  - intros b Hb. split; [by apply Hother|]. destruct Hdur as [-> | ->]; [done|].
    by rewrite Hother, Hd.
  - intros files [-> | ->]; [done|]. destruct Hdur as [-> | ->]; [left; by rewrite Hd|done].
Qed.

(** [read_ref] fails closed: what it accepts is exactly 64 hexadecimal
    digits and a line feed spelling the returned hash; [list_refs] reports
    every scan failure, and otherwise lists exactly the regular files, sorted. *)
Theorem ref_read_exact r branch h begin_fault l end_fault names :
  (read_ref reads_ok branch r = Some h ->
     exists content hex, ref_files r !! branch = Some content /\ content = hex ++ [newline] /\
       length hex = 64%nat /\ hash_to_hex h = lower_hex <$> hex) /\
  (list_refs begin_fault l end_fault = Ok names ->
     begin_fault = None /\ end_fault = None /\
     Sorted str_le names /\ (forall n, n ∈ names <-> (n, inr true) ∈ l)).
Proof.
  split.
  - unfold read_ref. simpl. destruct (ref_files r !! branch) as [content|]; [|done].
    intros Hp. assert (length (take 66 content) = 65%nat) as Hl.
    { unfold parse_ref in Hp. by case_decide. }
    rewrite length_take in Hl. assert (length content = 65%nat) as Hl' by lia. clear Hl.
    rewrite take_ge in Hp by lia. apply parse_ref_Some in Hp as (hex & -> & Hh).
    exists (hex ++ [newline]), hex. rewrite length_app in Hl'. simpl in Hl'.
    repeat split; try done. lia.
  - unfold list_refs. destruct begin_fault; [done|].
    destruct (scan_refs l end_fault) as [ns|] eqn:E; simpl; [|done]. intros [= <-].
    apply scan_refs_Ok in E as (-> & -> & _). split; [done|]. split; [done|]. split.
    + apply Sorted_merge_sort. intros a b. destruct (str_ltb b a) eqn:Eb; [|by left].
      right. unfold str_le. by apply str_lt_asym.
    + intros n. rewrite merge_sort_Permutation, list_elem_of_omap. split.
      * intros ([n' [msg|[]]] & Hin & Heq); simplify_eq/=. done.
      * intros Hin. by exists (n, inr true).
Qed.

(** A valid branch name is safe as the last component of a path: non-empty,
    at most 64 characters, neither a separator, nor a dot, nor a NUL among
    them, and never [main] or another reserved name. *)
Theorem valid_branch_name_is_path_safe name :
  is_valid_branch_name name = true ->
  (0 < length name <= 64)%nat /\ (slash ∉ name) /\ ("."%char ∉ name) /\ (zero ∉ name) /\
  name ∉ kReserved.
Proof.
  intros H. pose proof (valid_name_chars name) as Hc.
  split; [|split; [|split; [|split]]].
  2-4: intros Hin; specialize (Hc _ H Hin); discriminate.
  - unfold is_valid_branch_name in H. destruct name as [|c name]; [done|].
    case_bool_decide; [done|]. case_bool_decide; [done|]. simpl in *. lia.
  - unfold is_valid_branch_name in H. destruct (_ || _); [done|].
    apply andb_true_iff in H as [_ H]. by apply negb_true_iff, bool_decide_eq_false in H.
Qed.

(** ** Witnesses *)

Definition sample_refs : Refs :=
  mkRefs (<[lit "main" := ref_content ZERO_HASH]> ∅) (<[lit "main" := ref_content ZERO_HASH]> ∅).

Lemma ref_write_atomic_witness :
  read_ref reads_ok (lit "dev") (write_ref ref_writes_ok (lit "dev") ZERO_HASH sample_refs).1 =
  Some ZERO_HASH.
Proof.
  destruct (ref_write_atomic ref_writes_ok (lit "dev") ZERO_HASH sample_refs
    (write_ref ref_writes_ok (lit "dev") ZERO_HASH sample_refs).1 true) as [H _].
  - vm_compute. reflexivity.
  - reflexivity.
  - apply H. reflexivity.
Defined.

Lemma ref_read_exact_witness :
  [lit "dev"; lit "main"] = merge_sort str_le [lit "main"; lit "dev"] /\
  Sorted str_le [lit "dev"; lit "main"].
Proof.
  split; [vm_compute; reflexivity|].
  apply (ref_read_exact sample_refs (lit "main") ZERO_HASH None
    [(lit "main", inr true); (lit "x", inr false); (lit "dev", inr true)] None).
  vm_compute. reflexivity.
Defined.

Lemma valid_branch_name_is_path_safe_witness : slash ∉ lit "feature-1".
Proof. apply (valid_branch_name_is_path_safe (lit "feature-1")). vm_compute. reflexivity. Defined.
