(* ===== verification/Checkpoint.v ===== *)
(** Checkpoints and rollbacks of a branch (cas/checkpoint.h, cas/checkpoint.cpp).

    The manager works on the object store and the references; the caller holds
    the branch's checkpoint mutex, so one call is one step for the branch.
    [flush_fn] is the caller's: it writes the dirty handles back and says
    whether all succeeded. Decoding a commit can leave its buffer
    ([OutOfBounds], Codec), and then the outcome of the caller is undefined too. *)

From S2P Require Import Prelude Hashes WorkingTree Codec ObjectStore TreeSerialize Refs.

Record CheckpointResult : Type := mkCR { ok : bool; commit_hash : Hash; cr_error : str }.

Abbreviation RollbackResult := CheckpointResult.

Definition failed (msg : str) : CheckpointResult := mkCR false ZERO_HASH msg.

(** Outcomes of every system call a checkpoint makes, and the clock. *)
Record CheckpointEnv : Type := mkCkptEnv {
  tree_writes : nat -> WriteEnv;
  commit_write : WriteEnv;
  parent_read : ReadEnv;
  now_ns : N;
  ck_fsync : FsyncEnv;
  ref_write : WriteRefEnv
}.

(** The hashes of the leaves of the tree. *)
Definition leaf_of (e : WorkingTreeEntry) : option Hash :=
  if is_leaf e && negb (bool_decide (e_hash e = ZERO_HASH)) then Some (e_hash e) else None.

Definition wt_leaves (wt : WorkingTree) : list Hash :=
  omap (fun x => leaf_of x.2) (for_each_including_deleted wt).

(** The objects of this commit: leaves, the trees just written, the commit. *)
Definition graph (wt : WorkingTree) (written : list Hash) (commit : Hash) : gset Hash :=
  list_to_set (wt_leaves wt) ∪ list_to_set written ∪ {[commit]}.

Definition filter_to_committed_graph (pending : list Hash) (wt : WorkingTree)
    (written : list Hash) (commit : Hash) : list Hash :=
  filter (fun h => h ∈ graph wt written commit) pending.

(** The flush callback: the store and the tree after it, and its verdict. *)
Definition flush_fn : Type := ObjectStore -> WorkingTree -> ObjectStore * WorkingTree * bool.

Definition no_flush : flush_fn := fun st wt => (st, wt, true).

Section hashing.
Context (blake3 : bytes -> Hash).

(** The commit of this checkpoint; the first parent is the branch's head. *)
Definition new_commit (env : CheckpointEnv) (label : str) (session_id policy_version : N)
    (tree_hash : Hash) (parent : option Hash) : CommitData :=
  mkCommit tree_hash (option_list parent) session_id (now_ns env) label policy_version.

Definition checkpoint_locked (env : CheckpointEnv) (label : str) (session_id policy_version : N)
    (flush : flush_fn) (branch_name : str) (st0 : ObjectStore) (refs : Refs) (wt0 : WorkingTree) :
    ObjectStore * Refs * WorkingTree * CheckpointResult :=
  let '(st1, wt, flushed) := flush st0 wt0 in
  if negb flushed then (st1, refs, wt, failed (lit "flush failed"))
  else
    let run := @serialize_working_tree _ _ (object_tree_store blake3) (tree_writes env) wt st1 in
    let st2 := sr_store run in
    match sr_result run with
    | Err msg =>
        (st2, refs, wt, failed match msg with
                               | [] => lit "failed to serialize working tree"
                               | _ => lit "failed to serialize working tree: " ++ msg
                               end)
    | Ok tree_hash =>
        let cd := new_commit env label session_id policy_version tree_hash
                    (read_ref (parent_read env) branch_name refs) in
        let '(st3, commit) := write_commit blake3 (serialize_commit cd) (commit_write env) st2 in
        if decide (commit = ZERO_HASH)
        then (st3, refs, wt, failed (lit "failed to write commit object"))
        else
          let '(st4, pending) := drain_pending st3 in
          let to_fsync := filter_to_committed_graph pending wt (sr_written run) commit in
          match fsync_objects (object_out (ck_fsync env)) to_fsync st4 with
          | (st5, false) =>
              (restore_pending pending st5, refs, wt, failed (lit "failed to fsync checkpoint objects"))
          | (st5, true) =>
              match fsync_shard_dirs (shard_out (ck_fsync env)) (objects_dir_out (ck_fsync env))
                      to_fsync st5 with
              | (st6, false) =>
                  (restore_pending pending st6, refs, wt,
                   failed (lit "failed to fsync checkpoint shard dirs"))
              | (st6, true) =>
                  match write_ref (ref_write env) branch_name commit refs with
                  | (refs', false) =>
                      (st6, refs', wt, failed (lit "failed to advance refs/" ++ branch_name))
                  | (refs', true) => (st6, refs', wt, mkCR true commit [])
                  end
              end
          end
    end.

(** Under the branch mutex. *)
Definition checkpoint := checkpoint_locked.

End hashing.

(** ** Resolving a target *)

(** Outcomes of the reads: which objects can be read, and the reference. *)
Record ResolveEnv : Type := mkResolveEnv {
  exists_io : bool;
  object_io : Hash -> bool;
  head_read : ReadEnv
}.

Definition label_depth : nat := N.to_nat 100000.

(** The first-parent walk; [ZERO_HASH] when no commit has the label. *)
Fixpoint label_walk (depth : nat) (io : Hash -> bool) (st : ObjectStore) (target : str)
    (cursor : Hash) : parse Hash :=
  match depth with
  | O => Parsed ZERO_HASH
  | S depth' =>
      match read_commit st (io cursor) cursor with
      | None => Parsed ZERO_HASH
      | Some body =>
          match deserialize_commit body with
          | OutOfBounds => OutOfBounds
          | Rejected => Parsed ZERO_HASH
          | Parsed cd =>
              if decide (label cd = target) then Parsed cursor
              else match parents cd with
                   | [] => Parsed ZERO_HASH
                   | p :: _ => label_walk depth' io st target p
                   end
          end
      end
  end.

Definition resolve_target (env : ResolveEnv) (target branch_name : str) (st : ObjectStore)
    (refs : Refs) : parse Hash :=
  let by_label :=
    match read_ref (head_read env) branch_name refs with
    | None => Parsed ZERO_HASH
    | Some current => label_walk label_depth (object_io env) st target current
    end in
  if decide (4 <= length target)%nat then
    match (if decide (length target = 64%nat) then hex_to_hash target else None) with
    | Some h => if object_exists st (exists_io env) h then Parsed h else by_label
    | None => by_label
    end
  else by_label.

(** ** Rollback *)

Record RollbackEnv : Type := mkRollbackEnv {
  rb_resolve : ResolveEnv;
  rb_status : Hash -> object_status;
  rb_ref_write : WriteRefEnv;
  rb_fuel : nat
}.

(** The references, the tree, whether the open handles were invalidated, and
    the result. [None]: the rebuild loop ran out of fuel. *)
Definition rollback_locked (blake3 : bytes -> Hash) (env : RollbackEnv)
    (target branch_name : str) (st : ObjectStore) (refs : Refs) (wt : WorkingTree) :
    option (parse (Refs * WorkingTree * bool * RollbackResult)) :=
  match resolve_target (rb_resolve env) target branch_name st refs with
  | OutOfBounds => Some OutOfBounds
  | Rejected => Some Rejected
  | Parsed target_hash =>
      if decide (target_hash = ZERO_HASH)
      then Some (Parsed (refs, wt, false, failed (lit "target commit not found")))
      else
        match read_commit st (object_io (rb_resolve env) target_hash) target_hash with
        | None => Some (Parsed (refs, wt, false, failed (lit "failed to read target commit")))
        | Some body =>
            match deserialize_commit body with
            | OutOfBounds => Some OutOfBounds
            | Rejected => Some (Parsed (refs, wt, false, failed (lit "failed to parse target commit")))
            | Parsed cd =>
                match @rebuild_working_tree _ _ (object_tree_store blake3) (rb_fuel env)
                        (object_io (rb_resolve env)) (rb_status env) (tree_hash cd) st wt with
                | None => None
                | Some (wt', Err msg) =>
                    Some (Parsed (refs, wt', false, failed
                      (if has_prefix (lit "tree object missing") msg
                       then lit "checkpoint compacted by retention policy"
                       else lit "failed to rebuild working tree: " ++ msg)))
                | Some (wt', Ok _) =>
                    match write_ref (rb_ref_write env) branch_name target_hash refs with
                    | (refs', false) =>
                        Some (Parsed (refs', wt', true, failed (lit "failed to write refs/" ++ branch_name)))
                    | (refs', true) => Some (Parsed (refs', wt', true, mkCR true target_hash []))
                    end
                end
            end
        end
  end.

Definition rollback := rollback_locked.

Definition current_commit (env : ReadEnv) (branch_name : str) (refs : Refs) : Hash :=
  default ZERO_HASH (read_ref env branch_name refs).

(** ** Specifications *)

(** No published object is forgotten: each is in a shard that exists, and is
    durable or still pending. *)
Definition covered (st : ObjectStore) : Prop :=
  forall h, is_Some (disk st !! h) ->
    shard_of h ∈ shards st /\ (durable st h \/ h ∈ pending_ st).

(** The commits of the first-parent walk from a head, newest first. *)
Fixpoint chain (st : ObjectStore) (head : Hash) (l : list (Hash * CommitData)) : Prop :=
  match l with
  | [] => True
  | (h, cd) :: l' =>
      h = head /\
      (exists body, read_commit st true h = Some body /\ deserialize_commit body = Parsed cd) /\
      match l' with
      | [] => True
      | _ => exists p rest, parents cd = p :: rest /\ chain st p l'
      end
  end.

(** ** What writing objects does to the store *)

Record grows (st st' : ObjectStore) : Prop := {
  gr_content : forall h o, disk st !! h = Some o ->
    exists o', disk st' !! h = Some o' /\ f_content o' = f_content o;
  gr_shards : shards st ⊆ shards st';
  gr_pending : pending_ st ⊆ pending_ st';
  gr_new : forall h, disk st !! h = None -> is_Some (disk st' !! h) ->
    h ∈ pending_ st' /\ shard_of h ∈ shards st';
  gr_only_new : forall h, h ∈ pending_ st' -> h ∈ pending_ st \/ disk st !! h = None;
  gr_data : data_synced st' ⊆ data_synced st;
  gr_synced : forall h, is_Some (disk st !! h) -> durable st h -> durable st' h
}.

Lemma gr_disk st st' : grows st st' -> forall h, is_Some (disk st !! h) -> is_Some (disk st' !! h).
Proof. intros Hg h [o Ho]. destruct (gr_content _ _ Hg h o Ho) as (o' & -> & _). by eexists. Qed.

Lemma grows_refl st : grows st st.
Proof. split; try done; [by intros h o Ho; exists o| |by left]. intros h Hn [? Hs]. congruence. Qed.

Lemma grows_trans st1 st2 st3 : grows st1 st2 -> grows st2 st3 -> grows st1 st3.
Proof.
  intros GA GB. pose proof (gr_disk _ _ GA) as A1. pose proof (gr_disk _ _ GB) as B1.
  destruct GA as [A0 A2 A3 A4 A5 A6 A7], GB as [B0 B2 B3 B4 B5 B6 B7]. split.
  - intros h o Ho. destruct (A0 h o Ho) as (o2 & Ho2 & <-). by apply B0.
  - by etrans.
  - by etrans.
  - intros h Hn Hs. destruct (disk st2 !! h) as [o|] eqn:E; [|by apply B4].
    destruct (A4 h Hn) as [Hp Hsh]; [by eexists|]. split; [by apply B3|by apply B2].
  - intros h Hp. destruct (B5 h Hp) as [Hp2|Hn]; [by apply A5|right].
    destruct (disk st1 !! h) as [o|] eqn:E; [|done].
    destruct (A1 h) as [o2 Ho2]; [by eexists|]. congruence.
  - by etrans.
  - intros h Hs Hd. apply B7; [by apply A1|]. by apply A7.
Qed.

(** The same objects with the same bytes. *)
Definition same_files (d d' : gmap Hash ObjectFile) : Prop := forall h, f_content <$> d !! h = f_content <$> d' !! h.

Lemma same_files_refl d : same_files d d.
Proof. done. Qed.

(** The fields [grows] looks at. *)
Lemma grows_same st st' :
  same_files (disk st) (disk st') -> shards st ⊆ shards st' ->
  pending_ st' = pending_ st -> data_synced st' = data_synced st ->
  entry_synced st' = entry_synced st -> shard_synced st' = shard_synced st -> grows st st'.
Proof.
  intros Hd Hs Hp H1 H2 H3. split; try done.
  - intros h o Ho. specialize (Hd h). rewrite Ho in Hd. simpl in Hd.
    destruct (disk st' !! h) as [o'|]; [|done]. injection Hd as Hc. by exists o'.
  - by rewrite Hp.
  - intros h Hn [o Ho]. specialize (Hd h). by rewrite Hn, Ho in Hd.
  - rewrite Hp. by left.
  - by rewrite H1.
  - intros h _. unfold durable. by rewrite H1, H2, H3.
Qed.

Lemma touched_domain now f h st st' :
  touch now f h st = Touched st' -> same_files (disk st) (disk st').
Proof.
  intros (o & Ho & ->)%touch_spec k. simpl. destruct (decide (h = k)) as [->|Hne].
  - by rewrite lookup_insert_eq, Ho.
  - by rewrite lookup_insert_ne.
Qed.

Lemma write_publish_grows tag env h content path st st' r :
  write_publish tag env h content path st = (st', r) -> shard_of h ∈ shards st -> grows st st'.
Proof.
  unfold write_publish. intros H Hsh. destruct (touch _ _ h st) as [st1| |msg] eqn:E.
  - pose proof (touched_domain _ _ _ _ _ E) as Hdom. apply touch_spec in E as (o & Ho & ->).
    simplify_eq. by apply grows_same.
  - apply touch_missing in E. destruct (rename_fault env); [simplify_eq; by apply grows_same|].
    injection H as <- <-. split; simpl; [| |set_solver| |set_solver|set_solver|].
    + intros k o Hk. exists o. rewrite lookup_insert_ne by congruence. done.
    + done.
    + intros k Hk Hk'. destruct (decide (h = k)) as [->|Hne]; [split; [set_solver|done]|].
      rewrite lookup_insert_ne in Hk' by done. rewrite Hk in Hk'. by destruct Hk'.
    + intros k Hk (H1 & H2 & H3). assert (k <> h) as Hne by (intros ->; rewrite E in Hk; by destruct Hk).
      unfold durable. simpl. set_solver.
  - simplify_eq. by apply grows_same.
Qed.

Lemma write_object_grows blake3 tag body env st st' h :
  write_object blake3 tag body env st = (st', h) -> grows st st'.
Proof.
  unfold write_object. destruct (write_begin blake3 tag body env st) as [st1 [h1|h1 c p]] eqn:E.
  - intros [= -> ->]. unfold write_begin in E.
    destruct (touch _ _ _ (set_last_error [] st)) as [st2| |msg] eqn:Et.
    + pose proof (touched_domain _ _ _ _ _ Et) as Hdom. apply touch_spec in Et as (o & Ho & ->).
      simplify_eq. by apply grows_same.
    + destruct (mkdir_fault env); [|destruct (open_fault env); [|destruct (write_fault env)]];
        simplify_eq; (apply grows_same; simpl; try done; set_solver).
    + simplify_eq. by apply grows_same.
  - intros Hp. apply (grows_trans _ st1).
    + unfold write_begin in E. destruct (touch _ _ _ (set_last_error [] st)) as [st2| |msg]; [done| |done].
      destruct (mkdir_fault env); [done|]. destruct (open_fault env); [done|].
      destruct (write_fault env); [done|]. simplify_eq. apply grows_same; simpl; try done; set_solver.
    + eapply write_publish_grows; [done|]. apply write_begin_publish in E as (_ & _ & _ & _ & _ & _ & -> & _).
      set_solver.
Qed.

Lemma write_dirs_grows blake3 envs m paths n dh st written st' written' r :
  @write_dirs _ _ (object_tree_store blake3) envs m paths n dh st written = (st', written', r) ->
  grows st st'.
Proof.
  revert n dh st written. induction paths as [|d paths IH]; intros n dh st written H; simpl in H.
  { simplify_eq. apply grows_refl. }
  destruct (write_tree blake3 (dir_body m dh d) (envs n) st) as [st1 h] eqn:E.
  apply write_object_grows in E. case_decide; simplify_eq; [done|].
  eapply grows_trans; [done|by eapply IH].
Qed.

Lemma serialize_grows blake3 envs wt st :
  grows st (sr_store (@serialize_working_tree _ _ (object_tree_store blake3) envs wt st)).
Proof.
  unfold serialize_working_tree. destruct (dirs_and_paths wt) as [m paths].
  destruct (write_dirs envs m paths 0 ∅ st []) as [[st1 w] [dh|msg]] eqn:E;
    apply write_dirs_grows in E; [|done].
  destruct (dh !! [slash]); [done|]. simpl.
  destruct (write_tree blake3 (serialize_tree_entries []) (envs (length paths)) st1) as [st2 h] eqn:E2.
  apply write_object_grows in E2. case_decide; simpl; by eapply grows_trans.
Qed.

Lemma grows_covered st st' : grows st st' -> covered st -> covered st'.
Proof.
  intros Hg Hc h Hs. pose proof (gr_disk _ _ Hg) as A1. destruct Hg as [A0 A2 A3 A4 A5 A6 A7]. destruct (disk st !! h) as [o|] eqn:E.
  - assert (is_Some (disk st !! h)) as Hd by by eexists. destruct (Hc h Hd) as [Hsh [Hdur|Hp]].
    + split; [by apply A2|left]. by apply A7.
    + split; [by apply A2|right]. by apply A3.
  - destruct (A4 h E Hs). split; [done|by right].
Qed.

(** ** A successful checkpoint, step by step *)

(** The states between the calls of a successful run: after the flush, after
    the commit is written, after the objects are synced. *)
Record checkpointed (blake3 : bytes -> Hash) (env : CheckpointEnv) (lb : str) (sid pv : N)
    (flush : flush_fn) (branch : str) (st : ObjectStore) (refs : Refs) (wt0 : WorkingTree)
    (st' : ObjectStore) (refs' : Refs) (wt : WorkingTree) (c : Hash)
    (st1 st2 st3 st5 : ObjectStore) (root : Hash) (written : list Hash) : Prop := {
  ck_flush : flush st wt0 = (st1, wt, true);
  ck_tree : @serialize_working_tree _ _ (object_tree_store blake3) (tree_writes env) wt st1 =
    mkSer st2 written (Ok root);
  ck_commit : write_commit blake3
    (serialize_commit (new_commit env lb sid pv root (read_ref (parent_read env) branch refs)))
    (commit_write env) st2 = (st3, c);
  ck_nonzero : c <> ZERO_HASH;
  ck_objects : fsync_objects (object_out (ck_fsync env))
    (filter_to_committed_graph (sorted_hashes (pending_ st3)) wt written c) (set_pending ∅ st3) =
    (st5, true);
  ck_dirs : fsync_shard_dirs (shard_out (ck_fsync env)) (objects_dir_out (ck_fsync env))
    (filter_to_committed_graph (sorted_hashes (pending_ st3)) wt written c) st5 = (st', true);
  ck_ref : write_ref (ref_write env) branch c refs = (refs', true)
}.

Lemma checkpoint_success blake3 env lb sid pv flush branch st refs wt0 st' refs' wt c e :
  checkpoint_locked blake3 env lb sid pv flush branch st refs wt0 = (st', refs', wt, mkCR true c e) ->
  e = [] /\ exists st1 st2 st3 st5 root written,
    checkpointed blake3 env lb sid pv flush branch st refs wt0 st' refs' wt c
      st1 st2 st3 st5 root written.
Proof.
  unfold checkpoint_locked. destruct (flush st wt0) as [[st1 wt1] []] eqn:Ef; simpl; [|done].
  destruct (serialize_working_tree (tree_writes env) wt1 st1) as [st2 written [root|msg]] eqn:Es;
    simpl; [|done].
  destruct (write_commit _ _ _ _) as [st3 c'] eqn:Ew. case_decide as Hz; [done|].
  destruct (fsync_objects _ _ _) as [st5 []] eqn:Eo; [|done].
  destruct (fsync_shard_dirs _ _ _ _) as [st6 []] eqn:Ed; [|done].
  destruct (write_ref _ _ _ _) as [refs1 []] eqn:Er; [|done].
  intros [= <- <- <- <- <-]. split; [done|]. by exists st1, st2, st3, st5, root, written.
Qed.

Lemma fsync_objects_only out hs st st' b :
  fsync_objects out hs st = (st', b) -> data_synced st' ⊆ data_synced st ∪ list_to_set hs.
Proof.
  revert st. induction hs as [|h hs IH]; intros st H; simpl in H; [simplify_eq; set_solver|].
  destruct (disk st !! h); [|simplify_eq; set_solver].
  destruct (out h); try (simplify_eq; simpl; set_solver).
  apply IH in H. simpl in H. set_solver.
Qed.

Lemma fsync_shard_dirs_shards out root hs st st' :
  fsync_shard_dirs out root hs st = (st', true) ->
  shard_synced st' = shard_synced st \/ shard_synced st' = shards st.
Proof.
  unfold fsync_shard_dirs. destruct (sorted_strs _) as [|d ds]; [intros [= <-]; by left|].
  destruct (fsync_dirs out (d :: ds) st) as [st1 []] eqn:E; [|done].
  apply fsync_dirs_spec in E as (_ & Hsh & _). destruct root; [|done..].
  intros [= <-]. right. simpl. done.
Qed.

Section success.
Context {blake3 : bytes -> Hash} {env : CheckpointEnv} {lb : str} {sid pv : N} {flush : flush_fn}.
Context {branch : str} {st : ObjectStore} {refs : Refs} {wt0 : WorkingTree} {st' : ObjectStore}.
Context {refs' : Refs} {wt : WorkingTree} {c : Hash} {st1 st2 st3 st5 : ObjectStore}.
Context {root : Hash} {written : list Hash}.
Context (Hck : checkpointed blake3 env lb sid pv flush branch st refs wt0 st' refs' wt c
                 st1 st2 st3 st5 root written).

(** The barrier changes no object; it empties the pending set. *)
Lemma barrier_frame :
  disk st' = disk st3 /\ shards st' = shards st3 /\ pending_ st' = ∅ /\
  data_synced st3 ⊆ data_synced st' /\ entry_synced st3 ⊆ entry_synced st'.
Proof using Hck.
  destruct Hck as [_ _ _ _ Ho Hd _].
  apply fsync_objects_spec in Ho as (A1 & A2 & A3 & _ & A5 & _ & A7 & _).
  apply fsync_shard_dirs_spec in Hd as (B1 & B2 & B3 & _ & B5 & B6 & _).
  rewrite B1, B2, B3, B5. simpl in *. rewrite A1, A2, A3. rewrite A5 in B6. done.
Qed.

Lemma run_grows : grows st1 st3.
Proof using Hck.
  destruct Hck as [_ Ht Hc _ _ _ _].
  pose proof (serialize_grows blake3 (tree_writes env) wt st1) as Hg. rewrite Ht in Hg. simpl in Hg.
  eapply grows_trans; [done|by eapply write_object_grows].
Qed.

Lemma elem_of_to_fsync h :
  h ∈ filter_to_committed_graph (sorted_hashes (pending_ st3)) wt written c <->
  h ∈ pending_ st3 /\ h ∈ graph wt written c.
Proof using Type.
  unfold filter_to_committed_graph. rewrite list_elem_of_filter, elem_of_sorted_hashes. naive_solver.
Qed.

(** Every object of the graph that exists is durable afterwards. *)
Lemma barrier_durable h :
  covered st1 -> h ∈ graph wt written c -> is_Some (disk st' !! h) -> durable st' h.
Proof using Hck.
  intros Hcov Hg Hs. destruct barrier_frame as (Hdisk & Hshards & _ & Hdsub & Hesub).
  rewrite Hdisk in Hs. pose proof (grows_covered _ _ run_grows Hcov) as Hcov3.
  destruct (Hcov3 h Hs) as [Hsh [(H1 & H2 & H3)|Hp]].
  - pose proof (ck_objects _ _ _ _ _ _ _ _ _ _ _ _ _ _ _ _ _ _ _ _ Hck) as Ho.
    apply fsync_objects_spec in Ho as (_ & A2 & _ & _ & _ & A6 & _).
    pose proof (ck_dirs _ _ _ _ _ _ _ _ _ _ _ _ _ _ _ _ _ _ _ _ Hck) as Hd.
    apply fsync_shard_dirs_shards in Hd as Hd'. simpl in *. rewrite A2, A6 in Hd'.
    split; [by apply Hdsub|]. split; [by apply Hesub|].
    destruct Hd' as [-> | ->]; done.
  - destruct Hck as [_ _ _ _ Ho Hd _]. assert (h ∈ pending_ st3 /\ h ∈ graph wt written c) as Hin by done.
    apply elem_of_to_fsync in Hin.
    apply fsync_objects_spec in Ho as (A1 & _ & _ & _ & _ & _ & _ & _ & A9).
    apply fsync_shard_dirs_spec in Hd as (_ & _ & _ & _ & B5 & _ & _ & B8).
    destruct (A9 eq_refl h Hin) as [Hds _]. simpl in A1.
    destruct (B8 eq_refl h Hin) as [He Hsh']; [by rewrite A1|].
    split; [by rewrite B5|done].
Qed.

(** What the barrier does not sync stays as it was. *)
Lemma barrier_unsynced h :
  h ∉ data_synced st1 -> (h ∉ pending_ st3 \/ h ∉ graph wt written c) -> h ∉ data_synced st'.
Proof using Hck.
  intros Hn Hout Hin. pose proof (gr_data _ _ run_grows) as Hsub.
  destruct Hck as [_ _ _ _ Ho Hd _].
  apply fsync_shard_dirs_spec in Hd as (_ & _ & _ & _ & B5 & _). rewrite B5 in Hin.
  apply fsync_objects_only in Ho. simpl in Ho.
  apply Ho in Hin. apply elem_of_union in Hin as [Hin|Hin]; [by apply Hn, Hsub|].
  apply elem_of_list_to_set, elem_of_to_fsync in Hin as [??]. by destruct Hout.
Qed.
End success.

(** ** Resolving labels *)

Lemma label_walk_spec depth st target head h :
  h <> ZERO_HASH ->
  label_walk depth (fun _ => true) st target head = Parsed h <->
  exists pre cd, chain st head (pre ++ [(h, cd)]) /\ label cd = target /\
    (length pre < depth)%nat /\ Forall (fun x => label x.2 <> target) pre.
Proof.
  intros Hnz. revert head. induction depth as [|depth IH]; intros head; simpl.
  { split; [congruence|]. intros (pre & cd & _ & _ & Hl & _). lia. }
  assert (forall pre cd, chain st head (pre ++ [(h, cd)]) ->
    exists body cd0, read_commit st true head = Some body /\ deserialize_commit body = Parsed cd0 /\
      match pre with
      | [] => h = head /\ cd = cd0
      | (k, cd1) :: pre' => k = head /\ cd1 = cd0 /\
          exists p rest, parents cd0 = p :: rest /\ chain st p (pre' ++ [(h, cd)])
      end) as Hinv.
  { intros pre cd Hc. destruct pre as [|[k cd1] pre]; simpl in Hc.
    - destruct Hc as (-> & (body & Hb & Hd) & _). by exists body, cd.
    - destruct Hc as (-> & (body & Hb & Hd) & Hrest). exists body, cd1.
      split; [done|]. split; [done|]. split; [done|]. split; [done|].
      by destruct (pre ++ [(h, cd)]) eqn:E; [by apply app_nil in E as [_ ?]|]. }
  destruct (read_commit st true head) as [body|] eqn:Eb.
  2:{ split; [congruence|]. intros (pre & cd & (b & cd0 & ? & _)%Hinv & _). done. }
  destruct (deserialize_commit body) as [cd| |] eqn:Ed.
  2,3: split; [congruence|]; intros (pre & cd & (b & cd0 & Hb & Hd & _)%Hinv & _); congruence.
  assert (forall pre cd', chain st head (pre ++ [(h, cd')]) ->
    match pre with
    | [] => h = head /\ cd' = cd
    | (k, cd1) :: pre' => k = head /\ cd1 = cd /\
        exists p rest, parents cd = p :: rest /\ chain st p (pre' ++ [(h, cd')])
    end) as Hinv'.
  { intros pre cd' (b & cd0 & Hb & Hd & Hm)%Hinv. simplify_eq. rewrite Ed in Hd.
    injection Hd as <-. done. }
  clear Hinv. case_decide as Hlab.
  - split.
    + intros [= <-]. exists [], cd. simpl. split; [|split; [done|split; [lia|constructor]]].
      split; [done|]. split; [by exists body|done].
    + intros (pre & cd' & Hc & Ht & _ & Hf). apply Hinv' in Hc. destruct pre as [|[k cd1] pre].
      * by destruct Hc as [-> _].
      * destruct Hc as (_ & -> & _). apply Forall_cons in Hf as [Hf _]. done.
  - destruct (parents cd) as [|p rest] eqn:Ep.
    + split; [congruence|]. intros (pre & cd' & Hc & Ht & _). apply Hinv' in Hc.
      destruct pre as [|[k cd1] pre]; [destruct Hc as [_ ->]; congruence|].
      destruct Hc as (_ & _ & q & r & ? & _). congruence.
    + rewrite IH. split.
      * intros (pre & cd' & Hc & Ht & Hl & Hf). exists ((head, cd) :: pre), cd'. simpl.
        split; [|split; [done|split; [lia|by constructor]]].
        split; [done|]. split; [by exists body|].
        destruct (pre ++ [(h, cd')]) eqn:E; [done|]. rewrite <- E in Hc |- *. by exists p, rest.
      * intros (pre & cd' & Hc & Ht & Hl & Hf). apply Hinv' in Hc.
        destruct pre as [|[k cd1] pre]; [destruct Hc as [_ ->]; congruence|].
        destruct Hc as (_ & _ & q & r & Hq & Hc). simplify_eq. exists pre, cd'.
        apply Forall_cons in Hf as [_ Hf]. simpl in Hl. split; [done|]. split; [done|]. split; [lia|done].
Qed.

(** ** Properties *)

Definition all_reads_ok (env : ResolveEnv) : Prop :=
  exists_io env = true /\ (forall h, object_io env h = true).

(** What a successful checkpoint leaves: the commit can be read and decoded, its
    tree rebuilds to the checkpointed one, and no object changed. *)
Lemma checkpoint_stores blake3 U env lb sid pv flush branch st refs wt0 st1 st' refs' wt c e :
  collision_free blake3 U -> flush st wt0 = (st1, wt, true) -> contents_ok blake3 U st1 ->
  tree_ok (raw wt) -> Forall (tree_body U) (merkle_bodies (tree_addr blake3) wt) ->
  U (lit "commit" ++ serialize_commit (new_commit env lb sid pv (merkle_root (tree_addr blake3) wt)
       (read_ref (parent_read env) branch refs))) ->
  sid < 2 ^ 64 -> now_ns env < 2 ^ 64 -> pv < 2 ^ 32 ->
  checkpoint_locked blake3 env lb sid pv flush branch st refs wt0 = (st', refs', wt, mkCR true c e) ->
  c <> ZERO_HASH /\ is_Some (disk st' !! c) /\
  (exists body cd, read_commit st' true c = Some body /\ deserialize_commit body = Parsed cd /\
     tree_hash cd = merkle_root (tree_addr blake3) wt /\
     parents cd = option_list (read_ref (parent_read env) branch refs)) /\
  (forall h o, disk st1 !! h = Some o -> exists o', disk st' !! h = Some o' /\ f_content o' = f_content o) /\
  write_ref (ref_write env) branch c refs = (refs', true) /\
  forall wt2 fuel io status, (forall h, io h = true) -> (2 + size (raw wt) <= fuel)%nat ->
    exists m', @rebuild_working_tree _ _ (object_tree_store blake3) fuel io status
        (merkle_root (tree_addr blake3) wt) st' wt2 = Some (set_base wt2 m', Ok ()) /\
      restored (raw wt) m'.
Proof.
  intros Hcf Hfl Hst1 Hok Hb HU Hsid Hts Hpv Hrun.
  apply checkpoint_success in Hrun as (_ & st1' & st2 & st3 & st5 & root & written & Hck).
  pose proof (barrier_frame Hck) as (Hdisk & _). pose proof (run_grows Hck) as Hgr.
  destruct Hck as [Hf Ht Hc Hnz _ _ Hrf]. rewrite Hfl in Hf. injection Hf as <-.
  pose proof (object_tree_store_laws blake3 U Hcf) as Hlaws.
  destruct (serialize_working_tree_spec (tree_writes env) wt st1 st2 written root Hst1 Hb Ht)
    as (-> & [Hi2 HU2] & _ & Hroot & Hdirs).
  apply (write_object_stores blake3 U) in Hc as (-> & Hi3 & HU3 & (o & Ho & Hoc) & Hold); try done.
  set (cd := new_commit _ _ _ _ _ _) in *. set (c := blake3 _) in *.
  assert (forall k b, read_tree st2 true k = Some b -> read_tree st' true k = Some b) as Hkeep.
  { intros k b (o1 & Ho1 & Hc1)%read_object_tag. destruct (Hold k o1 Ho1) as (o2 & Ho2 & Hc2).
    eapply read_object_content; [by rewrite Hdisk|congruence]. }
  split; [done|]. split; [rewrite Hdisk; by eexists|]. split.
  { eexists (serialize_commit cd), _. split; [|split].
    - eapply read_object_content; [by rewrite Hdisk|done].
    - apply commit_roundtrip_clip; [done|]. simpl. destruct (read_ref _ _ _); simpl; lia.
    - done. }
  split; [intros h o1 Ho1; rewrite Hdisk; by apply (gr_content _ _ Hgr)|]. split; [done|].
  intros wt2 fuel io status Hio Hfuel.
  apply (@rebuild_restores _ _ (object_tree_store blake3) (tree_addr blake3)); try done.
  - intros d e0 He Hk. destruct (Hdirs d e0 He Hk) as (h & Hh & Hr). exists h. split; [done|].
    by apply Hkeep.
  - by apply Hkeep.
Qed.

(** C1. Checkpoint, then roll back: from the commit hash that a checkpoint
    returned, a rollback of any branch restores the checkpointed tree (every
    entry reachable from the root, with kind, mode and content), points the
    branch at the commit, and invalidates the open handles. *)
Theorem checkpoint_rollback_roundtrip blake3 U env lb sid pv flush branch st refs wt0 st1 st' refs'
    wt c e env2 branch2 refs2 refs3 wt2 :
  collision_free blake3 U -> flush st wt0 = (st1, wt, true) -> contents_ok blake3 U st1 ->
  tree_ok (raw wt) -> Forall (tree_body U) (merkle_bodies (tree_addr blake3) wt) ->
  U (lit "commit" ++ serialize_commit (new_commit env lb sid pv (merkle_root (tree_addr blake3) wt)
       (read_ref (parent_read env) branch refs))) ->
  sid < 2 ^ 64 -> now_ns env < 2 ^ 64 -> pv < 2 ^ 32 ->
  checkpoint_locked blake3 env lb sid pv flush branch st refs wt0 = (st', refs', wt, mkCR true c e) ->
  all_reads_ok (rb_resolve env2) -> (2 + size (raw wt) <= rb_fuel env2)%nat ->
  write_ref (rb_ref_write env2) branch2 c refs2 = (refs3, true) ->
  exists m', rollback_locked blake3 env2 (hash_to_hex c) branch2 st' refs2 wt2 =
      Some (Parsed (refs3, set_base wt2 m', true, mkCR true c [])) /\
    restored (raw wt) m'.
Proof.
  intros Hcf Hfl Hst1 Hok Hb HU Hsid Hts Hpv Hrun [Hex Hio] Hfuel Hw.
  destruct (checkpoint_stores blake3 U env lb sid pv flush branch st refs wt0 st1 st' refs' wt c e)
    as (Hnz & Hd & (body & cd & Hread & Hdec & Hth & _) & _ & _ & Hreb); try done.
  unfold rollback_locked, resolve_target. rewrite hash_to_hex_length, hex_to_hash_hex.
  rewrite !decide_True by lia. unfold object_exists. rewrite Hex, bool_decide_eq_true_2 by done.
  simpl. rewrite decide_False by done. rewrite Hio, Hread, Hdec, Hth.
  destruct (Hreb wt2 (rb_fuel env2) (object_io (rb_resolve env2)) (rb_status env2) Hio Hfuel)
    as (m' & -> & Hres). rewrite Hw. by exists m'.
Qed.

(** Every failure before the last step leaves the references alone. *)
Lemma checkpoint_early_failure blake3 env lb sid pv flush branch st refs wt0 st1 wt st' refs' wt' r :
  flush st wt0 = (st1, wt, true) ->
  checkpoint_locked blake3 env lb sid pv flush branch st refs wt0 = (st', refs', wt', r) ->
  ok r = false -> refs' = refs \/ cr_error r = lit "failed to advance refs/" ++ branch.
Proof.
  intros Hfl Hrun Hok. unfold checkpoint_locked in Hrun. rewrite Hfl in Hrun. simpl in Hrun.
  destruct (sr_result _) as [root|msg]; [|simplify_eq; by left].
  destruct (write_commit _ _ _ _) as [st3 c]. case_decide; [simplify_eq; by left|].
  destruct (fsync_objects _ _ _) as [st5 []]; [|simplify_eq; by left].
  destruct (fsync_shard_dirs _ _ _ _) as [st6 []]; [|simplify_eq; by left].
  destruct (write_ref _ _ _ _) as [refs1 []]; simplify_eq; by right.
Qed.

(** What is needed to read the checkpointed tree is in the set to be synced. *)
Lemma graph_covers_tree blake3 U env wt st1 st2 written root c :
  collision_free blake3 U -> contents_ok blake3 U st1 ->
  Forall (tree_body U) (merkle_bodies (tree_addr blake3) wt) ->
  @serialize_working_tree _ _ (object_tree_store blake3) env wt st1 = mkSer st2 written (Ok root) ->
  c ∈ graph wt written c /\ root ∈ graph wt written c /\
  (forall d h, merkle_hashes (tree_addr blake3) wt !! d = Some h -> h ∈ graph wt written c) /\
  (forall p e, raw wt !! p = Some e -> e_kind e = Blob \/ e_kind e = Symlink ->
     e_hash e <> ZERO_HASH -> e_hash e ∈ graph wt written c).
Proof.
  intros Hcf Hst Hb Ht. pose proof (object_tree_store_laws blake3 U Hcf) as Hlaws.
  destruct (serialize_working_tree_written env wt st1 st2 written root Hst Hb Ht) as [Hr Hd].
  unfold graph. split; [set_solver|]. split; [set_solver|].
  split; [intros d h Hh%Hd; set_solver|]. intros p e He H1 Hz.
  apply elem_of_union. left. apply elem_of_union. left. apply elem_of_list_to_set.
  unfold wt_leaves. apply list_elem_of_omap. exists (p, e).
  split; [unfold for_each_including_deleted; rewrite merged_for_each_raw; by apply elem_of_entries|].
  unfold leaf_of. cbn [snd].
  rewrite bool_decide_eq_false_2 by done. unfold is_leaf.
  by destruct H1 as [-> | ->].
Qed.

(** An object that survived the crash reads as it did before. *)
Lemma crash_read_object st h tag body :
  durable st h -> read_object st true h tag = Some body ->
  read_object (crash_store st) true h tag = Some body.
Proof. intros Hd. unfold read_object. by rewrite crash_lookup. Qed.

(** C16. The reference advances only over what survives a crash: if every object
    of the store was durable or pending after the flush, then after a checkpoint
    that succeeds the branch points at the new commit, and from the store as a
    crash would leave it (only the durable objects) the commit reads and decodes
    to the checkpointed root and its parent, the tree rebuilds to the
    checkpointed one, and every file or symlink content of that tree that the
    store held after the flush is there unchanged. A checkpoint that fails before
    the reference is written leaves the references untouched. *)
Theorem checkpoint_is_durable blake3 U env lb sid pv flush branch st refs wt0 st1 wt st' refs' wt' r :
  collision_free blake3 U -> flush st wt0 = (st1, wt, true) -> contents_ok blake3 U st1 ->
  covered st1 -> tree_ok (raw wt) ->
  Forall (tree_body U) (merkle_bodies (tree_addr blake3) wt) ->
  U (lit "commit" ++ serialize_commit (new_commit env lb sid pv (merkle_root (tree_addr blake3) wt)
       (read_ref (parent_read env) branch refs))) ->
  sid < 2 ^ 64 -> now_ns env < 2 ^ 64 -> pv < 2 ^ 32 ->
  checkpoint_locked blake3 env lb sid pv flush branch st refs wt0 = (st', refs', wt', r) ->
  (ok r = true ->
     read_ref reads_ok branch refs' = Some (commit_hash r) /\
     (exists body cd, read_commit (crash_store st') true (commit_hash r) = Some body /\
        deserialize_commit body = Parsed cd /\
        tree_hash cd = merkle_root (tree_addr blake3) wt /\
        parents cd = option_list (read_ref (parent_read env) branch refs)) /\
     (forall wt2 fuel io status, (forall h, io h = true) -> (2 + size (raw wt) <= fuel)%nat ->
        exists m', @rebuild_working_tree _ _ (object_tree_store blake3) fuel io status
            (merkle_root (tree_addr blake3) wt) (crash_store st') wt2 = Some (set_base wt2 m', Ok ()) /\
          restored (raw wt) m') /\
     (forall p e o, raw wt !! p = Some e -> e_kind e = Blob \/ e_kind e = Symlink ->
        e_hash e <> ZERO_HASH -> disk st1 !! e_hash e = Some o ->
        exists o', disk (crash_store st') !! e_hash e = Some o' /\ f_content o' = f_content o)) /\
  (ok r = false -> refs' = refs \/ cr_error r = lit "failed to advance refs/" ++ branch).
Proof.
  intros Hcf Hfl Hst1 Hcov Hok Hb HU Hsid Hts Hpv Hrun. split.
  - intros Hr. destruct r as [b c e]. simpl in *. subst b.
    pose proof Hrun as Hck.
    apply checkpoint_success in Hck as (_ & st1' & st2 & st3 & st5 & root & written & Hck).
    pose proof (ck_flush _ _ _ _ _ _ _ _ _ _ _ _ _ _ _ _ _ _ _ _ Hck) as Hf.
    rewrite Hfl in Hf. injection Hf as <- <-.
    pose proof (ck_tree _ _ _ _ _ _ _ _ _ _ _ _ _ _ _ _ _ _ _ _ Hck) as Ht.
    destruct (checkpoint_stores blake3 U env lb sid pv flush branch st refs wt0 st1 st' refs' wt c e)
      as (Hnz & Hd & (body & cd & Hread & Hcd) & Hkeep & Hw & _); try done.
    destruct (graph_covers_tree blake3 U _ wt st1 st2 written root c Hcf Hst1 Hb Ht)
      as (Hgc & Hgr & Hgd & Hgl).
    assert (forall h tag b, h ∈ graph wt written c -> read_object st' true h tag = Some b ->
      read_object (crash_store st') true h tag = Some b) as Hcr.
    { intros h tag b Hg Hb'. apply crash_read_object; [|done]. eapply (barrier_durable Hck); [done..|].
      apply read_object_tag in Hb' as (o & Ho & _). by exists o. }
    pose proof (object_tree_store_laws blake3 U Hcf) as Hlaws.
    destruct (serialize_working_tree_spec (tree_writes env) wt st1 st2 written root Hst1 Hb Ht)
      as (-> & _ & _ & Hroot & Hdirs).
    assert (forall k b, read_tree st2 true k = Some b -> read_tree st' true k = Some b) as Hk2.
    { intros k b (o1 & Ho1 & Hc1)%read_object_tag. destruct (barrier_frame Hck) as (Hdisk & _).
      pose proof (ck_commit _ _ _ _ _ _ _ _ _ _ _ _ _ _ _ _ _ _ _ _ Hck) as Hc.
      apply write_object_grows in Hc. destruct (gr_content _ _ Hc k o1 Ho1) as (o2 & Ho2 & Hc2).
      eapply read_object_content; [by rewrite Hdisk|congruence]. }
    split; [by eapply read_ref_write|]. split; [exists body, cd; by split; [apply Hcr|]|]. split.
    + intros wt2 fuel io status Hio Hfuel.
      apply (@rebuild_restores _ _ (object_tree_store blake3) (tree_addr blake3)); try done.
      * intros d e0 He Hk. destruct (Hdirs d e0 He Hk) as (h & Hh & Hrd). exists h. split; [done|].
        apply Hcr; [by eapply Hgd|by apply Hk2].
      * apply Hcr; [done|by apply Hk2].
    + intros p e0 o He H1 Hz Ho. destruct (Hkeep _ _ Ho) as (o' & Ho' & Hc'). exists o'.
      split; [|done]. rewrite <- Ho'. apply (crash_lookup st' (e_hash e0)).
      eapply (barrier_durable Hck); [done|by eapply Hgl|by exists o'].
  - by apply (checkpoint_early_failure blake3 env lb sid pv flush branch st refs wt0 st1 wt st' refs' wt' r).
Qed.

(** The barrier is not complete across branches: an object another branch
    left pending is drained by this branch's checkpoint and dropped, since it
    is not in this commit's graph; the other branch's next checkpoint then
    succeeds and points at a commit while the object, possibly a leaf of its
    tree, was never synced. *)
Theorem checkpoint_drops_other_pending blake3 envA lbA sidA pvA flushA branchA st refs wtA0 st1 wtA
    st' refs' cA eA envB lbB sidB pvB branchB wtB st'' refs'' wtB' cB eB h :
  flushA st wtA0 = (st1, wtA, true) ->
  checkpoint_locked blake3 envA lbA sidA pvA flushA branchA st refs wtA0 =
    (st', refs', wtA, mkCR true cA eA) ->
  checkpoint_locked blake3 envB lbB sidB pvB no_flush branchB st' refs' wtB =
    (st'', refs'', wtB', mkCR true cB eB) ->
  is_Some (disk st1 !! h) -> h ∈ pending_ st1 -> h ∉ data_synced st1 ->
  h ∉ graph wtA (sr_written (@serialize_working_tree _ _ (object_tree_store blake3)
       (tree_writes envA) wtA st1)) cA ->
  read_ref reads_ok branchB refs'' = Some cB /\ ~ durable st'' h /\ h ∉ pending_ st''.
Proof.
  intros Hfl HA HB Hd Hp Hn Hg.
  apply checkpoint_success in HA as (_ & a1 & a2 & a3 & a5 & rootA & writtenA & HA).
  apply checkpoint_success in HB as (_ & b1 & b2 & b3 & b5 & rootB & writtenB & HB).
  pose proof (ck_flush _ _ _ _ _ _ _ _ _ _ _ _ _ _ _ _ _ _ _ _ HA) as HfA.
  rewrite Hfl in HfA. injection HfA as <-.
  pose proof (ck_tree _ _ _ _ _ _ _ _ _ _ _ _ _ _ _ _ _ _ _ _ HA) as HtA.
  rewrite HtA in Hg. simpl in Hg.
  pose proof (ck_flush _ _ _ _ _ _ _ _ _ _ _ _ _ _ _ _ _ _ _ _ HB) as HfB.
  unfold no_flush in HfB. injection HfB as <- <-.
  destruct (barrier_frame HA) as (HdA & _ & HpA & _). destruct (barrier_frame HB) as (_ & _ & HpB & _).
  assert (h ∉ data_synced st') as HnA by (eapply (barrier_unsynced HA); auto).
  assert (is_Some (disk st' !! h)) as HdA' by (rewrite HdA; by apply (gr_disk _ _ (run_grows HA))).
  split; [eapply read_ref_write; by eapply ck_ref|]. split; [|rewrite HpB; set_solver].
  intros [Hin _]. revert Hin. eapply (barrier_unsynced HB); [done|]. left. intros Hin.
  apply (gr_only_new _ _ (run_grows HB)) in Hin as [Hin|Hin].
  - rewrite HpA in Hin. by apply elem_of_empty in Hin.
  - rewrite Hin in HdA'. by destruct HdA'.
Qed.

(** A label resolves to the nearest commit of the branch's first-parent
    history that carries it (within 100000 commits), and to nothing else;
    the hash of an existing object resolves to itself. *)
Theorem resolve_target_spec env target branch st refs h :
  all_reads_ok env -> head_read env = reads_ok -> h <> ZERO_HASH ->
  (length target <> 64%nat ->
     resolve_target env target branch st refs = Parsed h <->
     exists head pre cd, read_ref reads_ok branch refs = Some head /\
       chain st head (pre ++ [(h, cd)]) /\ label cd = target /\
       (length pre < label_depth)%nat /\ Forall (fun x => label x.2 <> target) pre) /\
  (is_Some (disk st !! h) -> resolve_target env (hash_to_hex h) branch st refs = Parsed h).
Proof.
  intros [Hex Hio] Hhead Hnz. split.
  - intros Hl.
    assert (resolve_target env target branch st refs =
      match read_ref reads_ok branch refs with
      | None => Parsed ZERO_HASH
      | Some current => label_walk label_depth (fun _ => true) st target current
      end) as ->.
    { unfold resolve_target. rewrite Hhead. rewrite (decide_False (P := length target = 64%nat)) by done.
      assert (forall depth cur, label_walk depth (object_io env) st target cur =
        label_walk depth (fun _ => true) st target cur) as Hw.
      { induction depth as [|depth IH]; intros cur; simpl; [done|]. rewrite Hio.
        repeat case_match; try done; apply IH. }
      case_decide; destruct (read_ref reads_ok branch refs); auto. }
    destruct (read_ref reads_ok branch refs) as [head|].
    + rewrite label_walk_spec by done. naive_solver.
    + split; [congruence|]. naive_solver.
  - intros Hs. unfold resolve_target. rewrite hash_to_hex_length, hex_to_hash_hex.
    rewrite !decide_True by lia. unfold object_exists. by rewrite Hex, bool_decide_eq_true_2.
Qed.

(** A rollback that fails leaves the tree, the references and the open
    handles alone, with one exception: when the final reference write fails,
    the tree has already been replaced and the handles invalidated. *)
Theorem rollback_failure blake3 env target branch st refs wt refs' wt' inval r :
  rollback_locked blake3 env target branch st refs wt = Some (Parsed (refs', wt', inval, r)) ->
  ok r = false ->
  (refs' = refs /\ wt' = wt /\ inval = false) \/
  (inval = true /\ cr_error r = lit "failed to write refs/" ++ branch /\
   exists m, wt' = set_base wt m).
Proof.
  unfold rollback_locked. intros H Hok.
  destruct (resolve_target _ _ _ _ _) as [th| |]; [|done..].
  case_decide; [simplify_eq; by left|].
  destruct (read_commit _ _ _) as [body|]; [|simplify_eq; by left].
  destruct (deserialize_commit body) as [cd| |]; [|simplify_eq; by left|done].
  destruct (rebuild_working_tree _ _ _ _ _ _) as [[wt1 [u|msg]]|] eqn:E; [| |done].
  - unfold rebuild_working_tree in E.
    destruct (rebuild_loop _ _ _ _ _ _) as [[m|msg]|]; simplify_eq.
    destruct (write_ref _ _ _ _) as [refs1 []]; simplify_eq; try done. right. eauto.
  - unfold rebuild_working_tree in E.
    destruct (rebuild_loop _ _ _ _ _ _) as [[m|msg']|]; simplify_eq. by left.
Qed.

(** ** Witnesses *)

Definition ck_env : CheckpointEnv :=
  mkCkptEnv (fun _ => no_faults 7) (no_faults 8) reads_ok 123 all_sync_ok ref_writes_ok.

Definition rb_env : RollbackEnv :=
  mkRollbackEnv (mkResolveEnv true (fun _ => true) reads_ok) (fun _ => StillThere) ref_writes_ok 8.

Definition no_refs : Refs := mkRefs ∅ ∅.

(** The store after the blob of [sample_wt] was written. *)
Definition blob_store : ObjectStore :=
  (write_blob toy_blake3 hello (no_faults 5) (empty_store (lit "/s"))).1.

Definition sample_cd : CommitData :=
  new_commit ck_env (lit "v1") 1 1 (merkle_root (tree_addr toy_blake3) sample_wt) None.

Definition ck_contents : list bytes :=
  [hello_content; lit "commit" ++ serialize_commit sample_cd] ++ sample_contents.

Definition ck_U (c : bytes) : Prop := c ∈ ck_contents.

Definition ck_result : ObjectStore * Refs * WorkingTree * CheckpointResult :=
  checkpoint_locked toy_blake3 ck_env (lit "v1") 1 1 no_flush (lit "main") blob_store no_refs sample_wt.

Definition ck_hash : Hash := commit_hash ck_result.2.

Lemma quad_eta {A B C D} (x : A * B * C * D) : x = (x.1.1.1, x.1.1.2, x.1.2, x.2).
Proof. by destruct x as [[[a b] c] d]. Qed.

Lemma blob_store_covered : covered blob_store.
Proof.
  apply (grows_covered (empty_store (lit "/s"))); [|by intros h []].
  eapply write_object_grows. apply surjective_pairing.
Qed.

Lemma ck_collision_free : collision_free toy_blake3 ck_U.
Proof. apply collision_free_list. vm_compute. reflexivity. Qed.

Lemma blob_store_contents : contents_ok toy_blake3 ck_U blob_store.
Proof.
  destruct (write_object_stores toy_blake3 ck_U (lit "blob") (blob_body hello) (no_faults 5)
    (empty_store (lit "/s")) blob_store sample_blob_hash) as (_ & Hi & HU & _).
  - split; simpl; [done|by intros h []|set_solver].
  - done.
  - apply ck_collision_free.
  - apply list_elem_of_here.
  - vm_compute. reflexivity.
  - vm_compute. discriminate.
  - done.
Qed.

Lemma ck_tree_bodies : Forall (tree_body ck_U) (merkle_bodies (tree_addr toy_blake3) sample_wt).
Proof.
  apply Forall_forall. intros b Hb. unfold tree_body, ck_U, ck_contents, sample_contents.
  apply elem_of_app. right. apply list_elem_of_fmap. by exists b.
Qed.

Lemma checkpoint_rollback_roundtrip_witness :
  exists m', rollback_locked toy_blake3 rb_env (hash_to_hex ck_hash) (lit "dev") ck_result.1.1.1 no_refs
      empty_tree =
      Some (Parsed ((write_ref ref_writes_ok (lit "dev") ck_hash no_refs).1, set_base empty_tree m',
        true, mkCR true ck_hash [])) /\ restored (raw sample_wt) m'.
Proof.
  apply (checkpoint_rollback_roundtrip toy_blake3 ck_U ck_env (lit "v1") 1 1 no_flush (lit "main")
    blob_store no_refs sample_wt blob_store ck_result.1.1.1 ck_result.1.1.2 sample_wt ck_hash [] rb_env).
  - apply ck_collision_free.
  - reflexivity.
  - apply blob_store_contents.
  - apply sample_tree_ok.
  - apply ck_tree_bodies.
  - apply list_elem_of_further, list_elem_of_here.
  - reflexivity.
  - reflexivity.
  - reflexivity.
  - vm_compute. reflexivity.
  - split; reflexivity.
  - vm_compute. lia.
  - reflexivity.
Defined.

Lemma blob_stored : exists o, disk blob_store !! sample_blob_hash = Some o /\ f_content o = hello_content.
Proof. vm_compute. eexists. split; reflexivity. Qed.

Lemma checkpoint_is_durable_witness :
  read_ref reads_ok (lit "main") ck_result.1.1.2 = Some ck_hash /\
  exists o', disk (crash_store ck_result.1.1.1) !! sample_blob_hash = Some o' /\
    f_content o' = hello_content.
Proof.
  destruct (checkpoint_is_durable toy_blake3 ck_U ck_env (lit "v1") 1 1 no_flush (lit "main") blob_store
    no_refs sample_wt blob_store sample_wt ck_result.1.1.1 ck_result.1.1.2 ck_result.1.2 ck_result.2)
    as [H _].
  - apply ck_collision_free.
  - reflexivity.
  - apply blob_store_contents.
  - apply blob_store_covered.
  - apply sample_tree_ok.
  - apply ck_tree_bodies.
  - apply list_elem_of_further, list_elem_of_here.
  - reflexivity.
  - reflexivity.
  - reflexivity.
  - apply (quad_eta ck_result).
  - destruct H as (H1 & _ & _ & H2); [vm_compute; reflexivity|]. split; [exact H1|].
    destruct blob_stored as (o & Ho & Hc).
    destruct (H2 (lit "/a/x") (mkEntry Blob sample_blob_hash 420) o) as (o' & Ho' & Hc').
    + vm_compute. reflexivity.
    + by left.
    + vm_compute. discriminate.
    + exact Ho.
    + exists o'. split; [exact Ho'|]. by rewrite Hc'.
Defined.

(** Branch [a] checkpoints an empty tree while branch [b]'s blob is pending;
    then [b] checkpoints the tree that holds the blob. *)
Definition run_a : ObjectStore * Refs * WorkingTree * CheckpointResult :=
  checkpoint_locked toy_blake3 ck_env (lit "a1") 1 1 no_flush (lit "a") blob_store no_refs empty_tree.
Definition run_b : ObjectStore * Refs * WorkingTree * CheckpointResult :=
  checkpoint_locked toy_blake3 ck_env (lit "b1") 1 1 no_flush (lit "b") run_a.1.1.1 run_a.1.1.2 sample_wt.

Lemma checkpoint_drops_other_pending_witness :
  sample_blob_hash ∈ wt_leaves sample_wt /\ ok run_b.2 = true /\ ~ durable run_b.1.1.1 sample_blob_hash.
Proof.
  split; [vm_compute; apply list_elem_of_here|]. split; [vm_compute; reflexivity|].
  apply (checkpoint_drops_other_pending toy_blake3 ck_env (lit "a1") 1 1 no_flush (lit "a") blob_store
    no_refs empty_tree blob_store empty_tree run_a.1.1.1 run_a.1.1.2 (commit_hash run_a.2) []
    ck_env (lit "b1") 1 1 (lit "b") sample_wt run_b.1.1.1 run_b.1.1.2 sample_wt
    (commit_hash run_b.2) []).
  - reflexivity.
  - vm_compute. reflexivity.
  - vm_compute. reflexivity.
  - vm_compute. by eexists.
  - vm_compute. reflexivity.
  - apply (bool_decide_unpack _). vm_compute. constructor.
  - apply (bool_decide_unpack _). vm_compute. constructor.
Defined.

Lemma resolve_target_spec_witness :
  resolve_target (rb_resolve rb_env) (hash_to_hex ck_hash) (lit "main") ck_result.1.1.1 no_refs =
  Parsed ck_hash.
Proof.
  apply (resolve_target_spec (rb_resolve rb_env) (lit "v1") (lit "main") ck_result.1.1.1 no_refs ck_hash).
  - split; reflexivity.
  - reflexivity.
  - vm_compute. discriminate.
  - vm_compute. by eexists.
Defined.

Lemma rollback_failure_witness :
  (no_refs = no_refs /\ empty_tree = empty_tree /\ false = false) \/
  (false = true /\ lit "target commit not found" = lit "failed to write refs/" ++ lit "dev" /\
   exists m, empty_tree = set_base empty_tree m).
Proof.
  apply (rollback_failure toy_blake3 rb_env (lit "nowhere") (lit "dev") blob_store no_refs empty_tree
    no_refs empty_tree false (failed (lit "target commit not found"))).
  - vm_compute. reflexivity.
  - reflexivity.
Defined.
