(* ===== verification/KvCodec.v ===== *)
(** The line-oriented key=value codec shared by agent-state records
    (cas/agent_state.cpp) and union runtime states (cas/runtime_state.cpp): the
    percent escapes, decimal integers, and the line loop of the readers. *)

From S2P Require Import Prelude Hashes.

Definition carriage_return : ascii := ascii_of_N 13.

(** ** Percent escapes *)

Definition encode_char (c : ascii) : str :=
  if decide (c = "%"%char) then lit "%25"
  else if decide (c = newline) then lit "%0A"
  else if decide (c = carriage_return) then lit "%0D"
  else if decide (c = "="%char) then lit "%3D"
  else if decide (c = "|"%char) then lit "%7C"
  else if decide (c = " "%char) then lit "%20"
  else [c].

Definition percent_encode (s : str) : str := mjoin (encode_char <$> s).

Fixpoint percent_decode (s : str) : result str :=
  match s with
  | [] => Ok []
  | c :: s1 =>
      if decide (c = "%"%char) then
        match s1 with
        | h :: l :: s2 =>
            match hex_val h, hex_val l with
            | Some hi, Some lo =>
                let* out := percent_decode s2 in Ok (ascii_of_N (N.lor (N.shiftl hi 4) lo) :: out)
            | _, _ => Err (lit "percent-decode: invalid hex digit")
            end
        | _ => Err (lit "percent-decode: truncated escape")
        end
      else let* out := percent_decode s1 in Ok (c :: out)
  end.

(** ** Decimal integers *)

Definition digit_char (n : N) : ascii := ascii_of_N (48 + n).

Fixpoint dec_go (fuel : nat) (n : N) (acc : str) : str :=
  match fuel with
  | O => acc
  | S fuel' =>
      let acc' := digit_char (n mod 10) :: acc in
      if n / 10 =? 0 then acc' else dec_go fuel' (n / 10) acc'
  end.

(** [std::to_string] of an unsigned integer. *)
Definition to_string (n : N) : str := dec_go (S (N.to_nat (N.log2 n))) n [].

Definition is_digit (c : ascii) : bool := let n := N_of_ascii c in (48 <=? n) && (n <=? 57).

Definition dec_value (s : str) : N := fold_left (fun v c => v * 10 + (N_of_ascii c - 48)) s 0.

(** [parse_u64]: [strtoull] reports a range error past 64 bits. *)
Definition parse_u64 (s : str) : result N :=
  match s with
  | [] => Err (lit "empty integer field")
  | _ =>
      if negb (forallb is_digit s) then Err (lit "non-digit in integer field")
      else let v := dec_value s in
           if v <? 2 ^ 64 then Ok v else Err (lit "integer field parse failed")
  end.

Definition parse_u32 (s : str) : result N :=
  let* v := parse_u64 s in
  if v <? 2 ^ 32 then Ok v else Err (lit "integer field out of u32 range").

(** ** Lines *)

Definition kv_line (x : str * str) : str := x.1 ++ lit "=" ++ x.2 ++ [newline].

Definition break_line (body : str) : str * str :=
  match find_char newline body with
  | Some i => (take i body, drop (i + 1) body)
  | None => (body, [])
  end.

(** The reader's loop: each turn consumes a line; [fuel] of the body's length
    is enough, and running out is not an outcome of the program. *)
Fixpoint read_lines {A} (assign : A -> str -> str -> result A) (fuel : nat) (body : str) (out : A) :
    result A :=
  match fuel with
  | O => Ok out
  | S fuel' =>
      match body with
      | [] => Ok out
      | _ =>
          let '(line, rest) := break_line body in
          match line with
          | [] => read_lines assign fuel' rest out
          | _ =>
              match find_char "="%char line with
              | None => Err (lit "line missing '=' separator")
              | Some eq =>
                  let* out' := assign out (take eq line) (drop (eq + 1) line) in
                  read_lines assign fuel' rest out'
              end
          end
      end
  end.

(** [deserialize_*]: the checks on the header, then the lines after it. *)
Definition read_record {A} (what : string) (header : str) (assign : A -> str -> str -> result A)
    (fresh : A) (body : bytes) : result A :=
  match body with
  | [] => Err (lit "empty " ++ lit what ++ lit " body")
  | _ =>
      if decide (length body < length header)%nat
      then Err (lit what ++ lit " body shorter than header")
      else if decide (take (length header) body = header) then
        let rest := drop (length header) body in read_lines assign (length rest) rest fresh
      else Err (lit "missing or incorrect " ++ lit what ++ lit " header")
  end.

(** The fields assigned in order. *)
Fixpoint assign_all {A} (assign : A -> str -> str -> result A) (fields : list (str * str)) (out : A) :
    result A :=
  match fields with
  | [] => Ok out
  | (k, v) :: rest => let* out' := assign out k v in assign_all assign rest out'
  end.

(** ** Escapes *)

Lemma encode_char_cases c :
  percent_decode (encode_char c) = Ok [c] /\
  Forall (fun x => x <> newline /\ x <> carriage_return /\ x <> "="%char /\ x <> "|"%char /\
                   x <> " "%char) (encode_char c).
Proof.
  assert (bool_decide (percent_decode (encode_char c) = Ok [c] /\
    Forall (fun x => x <> newline /\ x <> carriage_return /\ x <> "="%char /\ x <> "|"%char /\
                   x <> " "%char) (encode_char c)) = true) as H.
  { revert c. apply ascii_cases. by apply (forall_below 256). }
  by apply bool_decide_eq_true in H.
Qed.

Lemma percent_decode_cons b out :
  percent_decode b = Ok out ->
  forall c, percent_decode (encode_char c ++ b) = Ok (c :: out).
Proof.
  intros Hb c. pose proof (encode_char_cases c) as [Hc _].
  unfold encode_char in *.
  repeat (case_decide; [subst; simpl; by rewrite Hb|]).
  simpl. by rewrite decide_False, Hb.
Qed.

Lemma percent_roundtrip s : percent_decode (percent_encode s) = Ok s.
Proof.
  induction s as [|c s IH]; [done|].
  change (percent_encode (c :: s)) with (encode_char c ++ percent_encode s).
  by apply percent_decode_cons.
Qed.

Lemma percent_encode_clean s x :
  x ∈ percent_encode s ->
  x <> newline /\ x <> carriage_return /\ x <> "="%char /\ x <> "|"%char /\ x <> " "%char.
Proof.
  unfold percent_encode. intros Hx. apply list_elem_of_join in Hx as (l & Hx & Hl).
  apply list_elem_of_fmap in Hl as (c & -> & _).
  destruct (encode_char_cases c) as [_ Hf]. rewrite Forall_forall in Hf. by apply Hf.
Qed.

(** ** Decimal *)

Lemma digit_char_value n : n < 10 -> N_of_ascii (digit_char n) = 48 + n.
Proof. intros H. unfold digit_char. apply N_ascii_embedding. lia. Qed.

Lemma dec_go_value fuel n acc :
  n < 10 ^ N.of_nat fuel ->
  dec_value (dec_go fuel n acc) = fold_left (fun v c => v * 10 + (N_of_ascii c - 48)) acc n.
Proof.
  unfold dec_value. revert n acc. induction fuel as [|fuel IH]; intros n acc Hn.
  { simpl in *. by replace n with 0 by lia. }
  assert (n mod 10 < 10) as Hm by by apply N.mod_lt.
  pose proof (N.div_mod n 10 ltac:(done)) as Hdm.
  cbn [dec_go]. destruct (N.eqb_spec (n / 10) 0) as [Hz|Hz].
  - cbn [fold_left]. rewrite digit_char_value by done. f_equal. lia.
  - rewrite IH.
    + cbn [fold_left]. rewrite digit_char_value by done. f_equal.
      revert Hdm Hm. generalize (n mod 10) (n / 10). intros; lia.
    + apply N.Div0.div_lt_upper_bound. rewrite Nat2N.inj_succ, N.pow_succ_r' in Hn. lia.
Qed.

Lemma dec_go_digits fuel n acc :
  forallb is_digit acc = true -> forallb is_digit (dec_go fuel n acc) = true.
Proof.
  revert n acc. induction fuel as [|fuel IH]; intros n acc H; [done|]. cbn [dec_go].
  assert (n mod 10 < 10) as Hm by by apply N.mod_lt.
  assert (forallb is_digit (digit_char (n mod 10) :: acc) = true) as Hc.
  { simpl. rewrite H, andb_true_r. unfold is_digit. rewrite digit_char_value by done.
    apply andb_true_iff. rewrite !N.leb_le. revert Hm. generalize (n mod 10). intros; lia. }
  destruct (_ =? 0); [done|by apply IH].
Qed.

Lemma dec_go_nonempty fuel n acc : acc <> [] \/ fuel <> 0%nat -> dec_go fuel n acc <> [].
Proof.
  revert n acc. induction fuel as [|fuel IH]; intros n acc H; simpl; [naive_solver|].
  destruct (_ =? 0); [done|]. apply IH. by left.
Qed.

Lemma to_string_digits n : forallb is_digit (to_string n) = true.
Proof. by apply dec_go_digits. Qed.

Lemma to_string_value n : dec_value (to_string n) = n.
Proof.
  unfold to_string. rewrite dec_go_value; [done|].
  rewrite Nat2N.inj_succ, N2Nat.id. destruct (decide (n = 0)) as [->|Hn]; [done|].
  assert (n < 2 ^ N.succ (N.log2 n)) by (apply N.log2_spec; lia).
  eapply N.lt_le_trans; [done|]. apply N.pow_le_mono_l. lia.
Qed.

Lemma parse_u64_to_string n : n < 2 ^ 64 -> parse_u64 (to_string n) = Ok n.
Proof.
  intros H. unfold parse_u64.
  destruct (to_string n) as [|c s] eqn:E.
  { exfalso. revert E. apply dec_go_nonempty. by right. }
  rewrite <- E, to_string_digits, to_string_value. simpl.
  by replace (n <? 2 ^ 64) with true by (symmetry; by apply N.ltb_lt).
Qed.

Lemma parse_u32_to_string n : n < 2 ^ 32 -> parse_u32 (to_string n) = Ok n.
Proof.
  intros H. unfold parse_u32. rewrite parse_u64_to_string by lia. simpl.
  by replace (n <? 2 ^ 32) with true by (symmetry; by apply N.ltb_lt).
Qed.

Lemma to_string_clean n : newline ∉ to_string n.
Proof.
  intros H. pose proof (to_string_digits n) as Hd. rewrite forallb_forall in Hd.
  apply list_elem_of_In, Hd in H. discriminate.
Qed.

Lemma hash_to_hex_clean h : newline ∉ hash_to_hex h.
Proof.
  intros H. pose proof (hash_to_hex_is_hex h) as Hx. unfold is_hex_hash in Hx.
  apply andb_true_iff in Hx as [_ Hx]. rewrite forallb_forall in Hx.
  apply list_elem_of_In, Hx in H. discriminate.
Qed.

Lemma percent_encode_no_newline s : newline ∉ percent_encode s.
Proof. intros H. by apply percent_encode_clean in H as [? _]. Qed.

#[export] Hint Resolve to_string_clean hash_to_hex_clean percent_encode_no_newline : ctx.
#[export] Hint Rewrite percent_roundtrip : ctx.

(** ** Lines *)

(** A field that survives as one line: its key is a non-empty word and its
    value has no line feed. *)
Definition field_ok (x : str * str) : Prop :=
  x.1 <> [] /\ (newline ∉ x.1) /\ ("="%char ∉ x.1) /\ (newline ∉ x.2).

Definition is_word (k : str) : bool :=
  match k with
  | [] => false
  | _ => forallb (fun c => negb (bool_decide (c = newline)) && negb (bool_decide (c = "="%char))) k
  end.

Lemma word_field_ok k v : is_word k = true -> (newline ∉ v) -> field_ok (k, v).
Proof.
  intros Hk Hv. destruct k as [|c k]; [done|]. split; [done|]. cbn [is_word] in Hk.
  rewrite forallb_forall in Hk.
  split; [|split; [|done]]; intros H%list_elem_of_In; by apply Hk in H.
Qed.

Lemma break_line_app line rest : newline ∉ line -> break_line (line ++ newline :: rest) = (line, rest).
Proof.
  intros H. unfold break_line. rewrite find_char_app by done.
  rewrite take_app_length, <- drop_drop, drop_app_length. done.
Qed.

Lemma read_lines_fields {A} (assign : A -> str -> str -> result A) fields fuel out :
  Forall field_ok fields -> (length (mjoin (kv_line <$> fields)) <= fuel)%nat ->
  read_lines assign fuel (mjoin (kv_line <$> fields)) out = assign_all assign fields out.
Proof.
  intros Hf. revert fuel out. induction Hf as [|[k v] fields (Hk & Hnk & Hek & Hnv) Hf IH];
    intros fuel out Hl; [by destruct fuel|].
  assert (mjoin (kv_line <$> (k, v) :: fields) =
    (k ++ lit "=" ++ v) ++ newline :: mjoin (kv_line <$> fields)) as Heq.
  { change (mjoin (kv_line <$> (k, v) :: fields)) with (kv_line (k, v) ++ mjoin (kv_line <$> fields)).
    unfold kv_line. cbn [fst snd]. by rewrite <- !app_assoc. }
  cbn [fst snd] in *.
  rewrite Heq in *. rewrite length_app in Hl. simpl in Hl.
  destruct fuel as [|fuel]; [lia|]. cbn [read_lines].
  destruct ((k ++ lit "=" ++ v) ++ newline :: mjoin (kv_line <$> fields)) as [|c0 body] eqn:Eb.
  { by apply app_nil in Eb as [_ ?]. }
  rewrite <- Eb. rewrite break_line_app.
  2:{ rewrite !elem_of_app. intros [H|[H|H]]; [by apply Hnk| |by apply Hnv].
      apply elem_of_cons in H as [H|H]; [discriminate|by apply elem_of_nil in H]. }
  destruct (k ++ lit "=" ++ v) as [|c1 line] eqn:El; [by apply app_nil in El as [-> _]|].
  rewrite <- El. change (lit "=" ++ v) with ("="%char :: v) in *.
  rewrite find_char_app, take_app_length, <- drop_drop, drop_app_length by done. simpl drop.
  cbn [assign_all]. change (drop 0 v) with v.
  destruct (assign out k v) as [out'|msg]; simpl; [|done]. apply IH. lia.
Qed.

(** Reading what was written: the header, then each field in order. *)
Lemma read_record_fields {A} what header (assign : A -> str -> str -> result A) fresh fields :
  header <> [] -> Forall field_ok fields ->
  read_record what header assign fresh (header ++ mjoin (kv_line <$> fields)) =
  assign_all assign fields fresh.
Proof.
  intros Hh Hf. unfold read_record.
  destruct (header ++ mjoin (kv_line <$> fields)) as [|c body] eqn:E.
  { by apply app_nil in E as [-> _]. }
  rewrite <- E. rewrite decide_False by (rewrite length_app; lia).
  rewrite take_app_length, decide_True by done. rewrite drop_app_length.
  by apply read_lines_fields.
Qed.

Lemma assign_all_app {A} (assign : A -> str -> str -> result A) f1 f2 out :
  assign_all assign (f1 ++ f2) out =
  (let* out' := assign_all assign f1 out in assign_all assign f2 out').
Proof.
  revert out. induction f1 as [|[k v] f1 IH]; intros out; simpl; [done|].
  destruct (assign out k v); simpl; [apply IH|done].
Qed.

Lemma has_prefix_take p s : take (length p) s = p -> has_prefix p s = true.
Proof.
  revert s. induction p as [|c p IH]; intros [|x s]; try done. simpl. intros [= -> H].
  rewrite bool_decide_true by done. simpl. by apply IH.
Qed.

(** A body that is accepted begins with the header. *)
Lemma read_record_prefix {A} what header (assign : A -> str -> str -> result A) fresh body :
  is_ok (read_record what header assign fresh body) = true -> has_prefix header body = true.
Proof.
  unfold read_record. destruct body as [|c body]; [done|]. case_decide; [done|].
  case_decide as Ht; [|done]. intros _. by apply has_prefix_take.
Qed.

Lemma assign_all_cons {A} (assign : A -> str -> str -> result A) k v fields out :
  assign_all assign ((k, v) :: fields) out =
  (let* out' := assign out k v in assign_all assign fields out').
Proof. done. Qed.

(** One line of a record whose key is a literal. *)
Ltac assign_literal :=
  rewrite assign_all_cons;
  match goal with
  | |- context [rbind (?f ?st (lit ?k) ?v) _] =>
      let x := eval cbv beta delta [f] in (f st (lit k) v) in change (f st (lit k) v) with x
  end;
  repeat (rewrite decide_False by discriminate); rewrite decide_True by reflexivity.
