(* ===== verification/JsonText.v ===== *)
(** The JSON text of the control protocol (cas/control_protocol.cpp): escaping,
    the string and flat-value scanners, the strict and the lenient field
    lookups, and the words of a command line.

    The code walks a [std::string] with an index; here a scanner takes the rest
    of the text at the index and leaves the rest behind what it consumed. A
    scanner that fails leaves no rest: every caller goes back to an index it
    kept or gives up. *)

From S2P Require Import Prelude Hashes KvCodec.

Definition quote : ascii := ascii_of_N 34.
Definition backslash : ascii := ascii_of_N 92.
Definition tab : ascii := ascii_of_N 9.

(** ** Output *)

Definition escape_char (c : ascii) : str :=
  if decide (c = quote) then [backslash; quote]
  else if decide (c = backslash) then [backslash; backslash]
  else if decide (c = newline) then [backslash; "n"%char]
  else if decide (c = carriage_return) then [backslash; "r"%char]
  else if decide (c = tab) then [backslash; "t"%char]
  else if N_of_ascii c <? 32 then backslash :: lit "u00" ++ byte_to_hex c
  else [c].

Definition json_escape (s : str) : str := mjoin (escape_char <$> s).

(** A member or value in quotes. *)
Definition quoted (s : str) : str := quote :: s ++ [quote].

Definition json_ok_str (k v : str) : str :=
  lit "{" ++ quoted (lit "ok") ++ lit ":true," ++ quoted k ++ lit ":" ++ quoted v ++ lit "}".

Definition json_err (msg : str) : str :=
  lit "{" ++ quoted (lit "ok") ++ lit ":false," ++ quoted (lit "error") ++ lit ":" ++
  quoted (json_escape msg) ++ lit "}".

(** Items with commas in between. *)
Fixpoint join_with (sep : str) (items : list str) : str :=
  match items with
  | [] => []
  | x :: rest => x ++ match rest with [] => [] | _ => sep ++ join_with sep rest end
  end.

Definition json_conflict_response (conflicts : list str) : str :=
  lit "{" ++ quoted (lit "ok") ++ lit ":false," ++ quoted (lit "error") ++ lit ":" ++
  quoted (lit "merge conflicts") ++ lit "," ++ quoted (lit "conflicts") ++ lit ":[" ++
  join_with (lit ",") ((fun c => quoted (json_escape c)) <$> conflicts) ++ lit "]}".

(** ** Scanners *)

Definition is_json_ws (c : ascii) : bool :=
  bool_decide (c = " "%char) || bool_decide (c = tab) || bool_decide (c = newline) ||
  bool_decide (c = carriage_return).

(** [while (pos < size && p(s[pos])) pos++]. *)
Fixpoint skip_while (p : ascii -> bool) (s : str) : str :=
  match s with
  | c :: rest => if p c then skip_while p rest else s
  | [] => []
  end.

Definition skip_json_ws : str -> str := skip_while is_json_ws.

(** [None] for the code's -1. *)
Definition hex_digit (c : ascii) : option N := hex_val c.

(** The bytes [append_utf8] pushes. *)
Definition append_utf8 (codepoint : N) : option str :=
  if 0x10ffff <? codepoint then None
  else if (0xd800 <=? codepoint) && (codepoint <=? 0xdfff) then None
  else if codepoint <=? 0x7f then Some [ascii_of_N codepoint]
  else
    let tail k := ascii_of_N (N.lor 0x80 (N.land (N.shiftr codepoint k) 0x3f)) in
    if codepoint <=? 0x7ff then
      Some [ascii_of_N (N.lor 0xc0 (N.shiftr codepoint 6)); tail 0]
    else if codepoint <=? 0xffff then
      Some [ascii_of_N (N.lor 0xe0 (N.shiftr codepoint 12)); tail 6; tail 0]
    else Some [ascii_of_N (N.lor 0xf0 (N.shiftr codepoint 18)); tail 12; tail 6; tail 0].

(** The value of four hex digits. *)
Definition parse_json_hex4 (a b c d : ascii) : option N :=
  x ← hex_digit a; y ← hex_digit b; z ← hex_digit c; w ← hex_digit d;
  let shift v k := N.lor (N.shiftl v 4) k in
  Some (shift (shift (shift x y) z) w).

Definition simple_escape (e : ascii) : option ascii :=
  if decide (e = quote) then Some quote
  else if decide (e = backslash) then Some backslash
  else if decide (e = "/"%char) then Some "/"%char
  else if decide (e = "b"%char) then Some (ascii_of_N 8)
  else if decide (e = "f"%char) then Some (ascii_of_N 12)
  else if decide (e = "n"%char) then Some newline
  else if decide (e = "r"%char) then Some carriage_return
  else if decide (e = "t"%char) then Some tab
  else None.

Definition pushed (b : str) (r : option (str * str)) : option (str * str) :=
  '(out, rest) ← r; Some (b ++ out, rest).

(** After the opening quote: the contents and the rest after the closing
    quote. *)
Fixpoint parse_string_body (s : str) : option (str * str) :=
  match s with
  | [] => None
  | c :: s1 =>
      if decide (c = quote) then Some ([], s1)
      else if decide (c = backslash) then
        match s1 with
        | [] => None
        | e :: s2 =>
            match simple_escape e with
            | Some ch => pushed [ch] (parse_string_body s2)
            | None =>
                if decide (e = "u"%char) then
                  match s2 with
                  | h1 :: h2 :: h3 :: h4 :: s3 =>
                      value ← parse_json_hex4 h1 h2 h3 h4;
                      if (0xd800 <=? value) && (value <=? 0xdbff) then
                        match s3 with
                        | e1 :: e2 :: l1 :: l2 :: l3 :: l4 :: s4 =>
                            if negb (bool_decide (e1 = backslash)) || negb (bool_decide (e2 = "u"%char)) then None
                            else
                              low ← parse_json_hex4 l1 l2 l3 l4;
                              if (low <? 0xdc00) || (0xdfff <? low) then None
                              else
                                b ← append_utf8 (0x10000 + N.lor (N.shiftl (value - 0xd800) 10) (low - 0xdc00));
                                pushed b (parse_string_body s4)
                        | _ => None
                        end
                      else if (0xdc00 <=? value) && (value <=? 0xdfff) then None
                      else b ← append_utf8 value; pushed b (parse_string_body s3)
                  | _ => None
                  end
                else None
            end
        end
      else if N_of_ascii c <? 32 then None
      else pushed [c] (parse_string_body s1)
  end.

Definition parse_json_string (s : str) : option (str * str) :=
  match s with
  | c :: rest => if decide (c = quote) then parse_string_body rest else None
  | [] => None
  end.

(** A literal, or [s] with a prefix removed. *)
Fixpoint consume_json_literal (literal s : str) : option str :=
  match literal, s with
  | [], _ => Some s
  | x :: l, c :: rest => if decide (c = x) then consume_json_literal l rest else None
  | _ :: _, [] => None
  end.

Definition starts_with (p : ascii -> bool) (s : str) : bool :=
  match s with c :: _ => p c | [] => false end.

Definition is_char (x c : ascii) : bool := bool_decide (c = x).

Definition skip_if (p : ascii -> bool) (s : str) : str := if starts_with p s then drop 1 s else s.

Definition skip_digits : str -> str := skip_while is_digit.

(** A part that needs at least one digit. *)
Definition digits_after (s : str) : option str :=
  if starts_with is_digit s then Some (skip_digits s) else None.

Definition skip_json_number (s : str) : option str :=
  let s := skip_if (is_char "-") s in
  if negb (starts_with is_digit s) then None
  else
    let s := if starts_with (is_char "0") s then drop 1 s else skip_digits s in
    s ← (if starts_with (is_char ".") s then digits_after (drop 1 s) else Some s);
    if starts_with (fun c => is_char "e" c || is_char "E" c) s
    then digits_after (skip_if (fun c => is_char "+" c || is_char "-" c) (drop 1 s))
    else Some s.

Definition or_else {A} (a b : option A) : option A := match a with Some _ => a | None => b end.

Definition skip_flat_json_value (s : str) : option str :=
  let s := skip_json_ws s in
  match s with
  | [] => None
  | c :: _ =>
      if decide (c = quote) then snd <$> parse_json_string s
      else or_else (consume_json_literal (lit "true") s)
             (or_else (consume_json_literal (lit "false") s)
               (or_else (consume_json_literal (lit "null") s) (skip_json_number s)))
  end.

(** ** The strict request of [branch.merge] *)

Record BranchMergeRequest : Type := mkMergeRequest { mq_source : str; mq_target : str; mq_label : str }.

Definition no_request : BranchMergeRequest := mkMergeRequest [] [] [].

(** The member's value, stored when it is one of the three. *)
Definition merge_member (key s : str) (q : BranchMergeRequest) : option (BranchMergeRequest * str) :=
  if decide (key = lit "source") then
    '(v, r) ← parse_json_string s; Some (mkMergeRequest v (mq_target q) (mq_label q), r)
  else if decide (key = lit "target") then
    '(v, r) ← parse_json_string s; Some (mkMergeRequest (mq_source q) v (mq_label q), r)
  else if decide (key = lit "label") then
    '(v, r) ← parse_json_string s; Some (mkMergeRequest (mq_source q) (mq_target q) v, r)
  else r ← skip_flat_json_value s; Some (q, r).

(** Only white space is left. *)
Definition at_end (s : str) : bool := match skip_json_ws s with [] => true | _ => false end.

Fixpoint merge_members (fuel : nat) (s : str) (q : BranchMergeRequest) : option BranchMergeRequest :=
  match fuel with
  | O => None
  | S fuel' =>
      '(key, s1) ← parse_json_string s;
      match skip_json_ws s1 with
      | c :: s2 =>
          if negb (is_char ":" c) then None
          else
            '(q', s3) ← merge_member key (skip_json_ws s2) q;
            match skip_json_ws s3 with
            | d :: s4 =>
                if is_char "}" d then (if at_end s4 then Some q' else None)
                else if negb (is_char "," d) then None
                else
                  let s5 := skip_json_ws s4 in
                  if starts_with (is_char "}") s5 then None else merge_members fuel' s5 q'
            | [] => None
            end
      | [] => None
      end
  end.

(** A member takes at least one byte, so the length bounds the loop. *)
Definition parse_branch_merge_request (json : str) : option BranchMergeRequest :=
  match skip_json_ws json with
  | c :: s1 =>
      if negb (is_char "{" c) then None
      else
        let s2 := skip_json_ws s1 in
        if starts_with (is_char "}") s2 then (if at_end (drop 1 s2) then Some no_request else None)
        else merge_members (S (length s2)) s2 no_request
  | [] => None
  end.

(** ** The lenient lookups *)

Inductive JsonStringLookup : Type := Missing | Found (out : str) | Malformed.

(** One round of the scan at a quote: the answer, or where to go on. *)
Definition scan_token (key : str) (s : str) : JsonStringLookup + str :=
  match parse_json_string s with
  | None => inr (drop 1 s)
  | Some (parsed_key, s1) =>
      let s2 := skip_json_ws s1 in
      if negb (starts_with (is_char ":") s2) then inr s2
      else
        let s3 := skip_json_ws (drop 1 s2) in
        if decide (parsed_key = key) then
          inl (match parse_json_string s3 with Some (v, _) => Found v | None => Malformed end)
        else
          match skip_flat_json_value s3 with
          | Some s4 => inr s4
          | None => inr (drop 1 s)
          end
  end.

(** [None]: out of fuel, which [extract_str_checked] excludes. *)
Fixpoint scan_str (fuel : nat) (key s : str) : option JsonStringLookup :=
  match fuel with
  | O => None
  | S fuel' =>
      match s with
      | [] => Some Missing
      | c :: rest =>
          if negb (is_char quote c) then scan_str fuel' key rest
          else
            match scan_token key s with
            | inl r => Some r
            | inr s' => scan_str fuel' key s'
            end
      end
  end.

Definition extract_str_checked (json key : str) : JsonStringLookup :=
  default Missing (scan_str (S (length json)) key json).

Definition extract_str (json key : str) : str :=
  match extract_str_checked json key with Found out => out | _ => [] end.

(** [std::string::find] of a string, as the text from the match on. *)
Fixpoint find_str (needle s : str) : option str :=
  if has_prefix needle s then Some s
  else match s with [] => None | _ :: rest => find_str needle rest end.

Definition is_blank (c : ascii) : bool := bool_decide (c = " "%char) || bool_decide (c = tab).

(** What follows the first colon after the first occurrence of the quoted
    key. *)
Definition after_key (json key : str) : option str :=
  s ← find_str (quoted key) json;
  i ← find_char ":"%char s;
  Some (skip_while is_blank (drop (i + 1) s)).

Definition LONG_MAX : Z := (2 ^ 63 - 1)%Z.
Definition LONG_MIN : Z := (- 2 ^ 63)%Z.

Fixpoint take_while (p : ascii -> bool) (s : str) : str :=
  match s with
  | c :: rest => if p c then c :: take_while p rest else []
  | [] => []
  end.

(** [strtol(s, &end, 10)] with [end != s]: the value, at the limits of [long]
    when out of range. *)
Definition strtol (s : str) : option Z :=
  let s := skip_while is_space s in
  let negative := starts_with (is_char "-") s in
  let s := skip_if (fun c => is_char "+" c || is_char "-" c) s in
  match take_while is_digit s with
  | [] => None
  | ds =>
      let v := Z.of_N (dec_value ds) in
      Some (if negative then Z.max LONG_MIN (- v) else Z.min LONG_MAX v)
  end.

Definition extract_int (json key : str) (dflt : Z) : Z :=
  default dflt (s ← after_key json key; strtol s).

Definition extract_bool (json key : str) (dflt : bool) : bool :=
  match after_key json key with
  | None => dflt
  | Some s =>
      if has_prefix (lit "true") s then true
      else if has_prefix (lit "false") s then false
      else dflt
  end.

(** ** Numbers and words of a command line *)

Definition UINT32_LIMIT : N := 2 ^ 32 - 1.

Fixpoint u32_digits (text : str) (value : N) : option N :=
  match text with
  | [] => Some value
  | c :: rest =>
      if negb (is_digit c) then None
      else
        let digit := N_of_ascii c - 48 in
        if (UINT32_LIMIT - digit) / 10 <? value then None
        else u32_digits rest (value * 10 + digit)
  end.

Definition parse_positive_u32_decimal (text : str) : option N :=
  match text with
  | [] => None
  | _ => v ← u32_digits text 0; if v =? 0 then None else Some v
  end.

Definition sanitize_timeout_ms (parsed : Z) (dflt : N) : N :=
  if (parsed <? 0)%Z || (3600000 <? parsed)%Z then dflt else Z.to_N parsed.

(** [iss >> word]: the word, empty at the end of the stream, and the rest. *)
Definition next_word (s : str) : str * str :=
  let s := skip_while is_space s in
  (take_while (fun c => negb (is_space c)) s, skip_while (fun c => negb (is_space c)) s).

(** [while (ts >> t) toks.push_back(t)]. *)
Fixpoint words_go (fuel : nat) (s : str) : list str :=
  match fuel with
  | O => []
  | S fuel' => match next_word s with ([], _) => [] | (w, rest) => w :: words_go fuel' rest end
  end.

Definition words (s : str) : list str := words_go (S (length s)) s.

(** [std::getline]. *)
Definition line_of (s : str) : str := take_while (fun c => negb (bool_decide (c = newline))) s.

Definition branch_token (tok : str) : bool := has_prefix (lit "branch=") tok.

(** The label and the branch; [None] when a token before the last one names a
    branch. *)
Definition parse_rest_with_branch (rest : str) : option (str * str) :=
  let toks := words (skip_while is_blank rest) in
  let '(toks, branch) :=
    match last toks with
    | Some t => if branch_token t then (take (length toks - 1) toks, drop 7 t) else (toks, lit "main")
    | None => (toks, lit "main")
    end in
  if existsb branch_token toks then None else Some (join_with (lit " ") toks, branch).
