(* ===== verification/JsonGrammar.v ===== *)
(** The control protocol's JSON scanners against a grammar of flat JSON
    objects: strings, numbers, the strict parser of [branch.merge] and the
    lenient lookups of the other commands; numerals. *)

From S2P Require Import Prelude Hashes KvCodec JsonText.
From Stdlib Require Import ZifyBool.

(** ** The grammar *)

(** The characters between the quotes and what they stand for. Surrogates
    count only as pairs. *)
Inductive json_chars : str -> str -> Prop :=
| chars_nil : json_chars [] []
| chars_raw c t v :
    c <> quote -> c <> backslash -> 32 <= N_of_ascii c -> json_chars t v ->
    json_chars (c :: t) (c :: v)
| chars_simple e ch t v :
    simple_escape e = Some ch -> json_chars t v -> json_chars (backslash :: e :: t) (ch :: v)
| chars_unit h1 h2 h3 h4 n b t v :
    parse_json_hex4 h1 h2 h3 h4 = Some n -> (n < 0xd800 \/ 0xdfff < n) -> append_utf8 n = Some b ->
    json_chars t v ->
    json_chars (backslash :: "u"%char :: h1 :: h2 :: h3 :: h4 :: t) (b ++ v)
| chars_pair h1 h2 h3 h4 l1 l2 l3 l4 high low b t v :
    parse_json_hex4 h1 h2 h3 h4 = Some high -> 0xd800 <= high <= 0xdbff ->
    parse_json_hex4 l1 l2 l3 l4 = Some low -> 0xdc00 <= low <= 0xdfff ->
    append_utf8 (0x10000 + N.lor (N.shiftl (high - 0xd800) 10) (low - 0xdc00)) = Some b ->
    json_chars t v ->
    json_chars (backslash :: "u"%char :: h1 :: h2 :: h3 :: h4 :: backslash :: "u"%char ::
      l1 :: l2 :: l3 :: l4 :: t) (b ++ v).

Definition string_text (t v : str) : Prop := exists c, t = quoted c /\ json_chars c v.

Definition blanks (w : str) : Prop := Forall (fun c => is_json_ws c = true) w.
Definition digits (d : str) : Prop := d <> [] /\ Forall (fun c => is_digit c = true) d.

(** Nothing, or one of two characters. *)
Definition optional_sign (s : str) : Prop := s = [] \/ s = lit "+" \/ s = lit "-".

Definition fraction_text (f : str) : Prop := f = [] \/ exists d, f = "."%char :: d /\ digits d.
Definition exponent_text (e : str) : Prop :=
  e = [] \/ exists x sign d, e = x :: sign ++ d /\ (x = "e"%char \/ x = "E"%char) /\ optional_sign sign /\ digits d.
Definition integer_text (i : str) : Prop :=
  i = lit "0" \/ (digits i /\ starts_with (is_char "0") i = false).
Definition number_text (t : str) : Prop :=
  exists sign i f e, t = sign ++ i ++ f ++ e /\ (sign = [] \/ sign = lit "-") /\
    integer_text i /\ fraction_text f /\ exponent_text e.

(** A flat value: a string, or the text of anything else. *)
Inductive flat_value : Type := JStr (v : str) | JLiteral (t : str).

Definition value_text (t : str) (x : flat_value) : Prop :=
  match x with
  | JStr v => string_text t v
  | JLiteral l => t = l /\ (l = lit "true" \/ l = lit "false" \/ l = lit "null" \/ number_text l)
  end.

Definition member : Type := str * flat_value.

Inductive members_text : list member -> str -> Prop :=
| one_member k x tk w1 w2 tx w3 :
    string_text tk k -> blanks w1 -> blanks w2 -> value_text tx x -> blanks w3 ->
    members_text [(k, x)] (tk ++ w1 ++ ":"%char :: w2 ++ tx ++ w3)
| more_members k x tk w1 w2 tx w3 w4 ms t :
    string_text tk k -> blanks w1 -> blanks w2 -> value_text tx x -> blanks w3 -> blanks w4 ->
    members_text ms t ->
    members_text ((k, x) :: ms) (tk ++ w1 ++ ":"%char :: w2 ++ tx ++ w3 ++ ","%char :: w4 ++ t).

Inductive object_text : list member -> str -> Prop :=
| empty_object w1 w2 w3 :
    blanks w1 -> blanks w2 -> blanks w3 ->
    object_text [] (w1 ++ "{"%char :: w2 ++ "}"%char :: w3)
| full_object w1 w2 w3 ms t :
    blanks w1 -> blanks w2 -> blanks w3 -> members_text ms t ->
    object_text ms (w1 ++ "{"%char :: w2 ++ t ++ "}"%char :: w3).

(** ** Strings *)

Lemma pushed_Some b r v rest :
  pushed b r = Some (v, rest) <-> exists v', r = Some (v', rest) /\ v = b ++ v'.
Proof.
  unfold pushed. destruct r as [[v' r']|]; simpl; split.
  - intros [= <- <-]. by exists v'.
  - by intros (? & [= -> ->] & ->).
  - done.
  - by intros (? & ? & _).
Qed.

Lemma quote_not_backslash : quote <> backslash.
Proof. discriminate. Qed.

Lemma simple_escape_u : simple_escape "u"%char = None.
Proof. done. Qed.

Lemma parse_string_complete t v rest :
  json_chars t v -> parse_string_body (t ++ quote :: rest) = Some (v, rest).
Proof.
  induction 1 as [|c t v Hq Hb Hc Ht IH|e ch t v He Ht IH|h1 h2 h3 h4 n b t v Hh Hn Hu Ht IH
    |h1 h2 h3 h4 l1 l2 l3 l4 high low b t v Hh Hr Hl Hlr Hu Ht IH]; cbn [app].
  - done.
  - cbn [parse_string_body]. rewrite !decide_False by done.
    replace (N_of_ascii c <? 32) with false by (symmetry; by apply N.ltb_ge). by rewrite IH.
  - cbn [parse_string_body]. rewrite decide_False, decide_True, He by done. by rewrite IH.
  - cbn [parse_string_body]. rewrite decide_False, decide_True, simple_escape_u, decide_True by done.
    rewrite Hh. cbn [mbind option_bind].
    replace ((0xd800 <=? n) && (n <=? 0xdbff)) with false by (symmetry; lia).
    replace ((0xdc00 <=? n) && (n <=? 0xdfff)) with false by (symmetry; lia).
    rewrite Hu. cbn [mbind option_bind]. by rewrite IH.
  - cbn [parse_string_body]. rewrite decide_False, decide_True, simple_escape_u, decide_True by done.
    rewrite Hh. cbn [mbind option_bind].
    replace ((0xd800 <=? high) && (high <=? 0xdbff)) with true by (symmetry; lia).
    rewrite !bool_decide_true by done. cbn [negb orb]. rewrite Hl. cbn [mbind option_bind].
    replace ((low <? 0xdc00) || (0xdfff <? low)) with false by (symmetry; lia).
    rewrite Hu. cbn [mbind option_bind]. by rewrite IH.
Qed.

(** Induction on the length of a text. *)
Lemma shorter_ind (P : str -> Prop) :
  (forall s, (forall r, (length r < length s)%nat -> P r) -> P s) -> forall s, P s.
Proof. intros H s. induction s as [s IH] using (induction_ltof1 _ (@length ascii)). by apply H. Qed.

Lemma parse_string_sound s :
  forall v rest, parse_string_body s = Some (v, rest) ->
  exists t, s = t ++ quote :: rest /\ json_chars t v.
Proof.
  induction s as [[|c s1] IH] using shorter_ind; intros v rest; cbn [parse_string_body]; [done|].
  case_decide as Hq; [intros [= <- <-]; subst c; exists []; by split; [|constructor]|].
  case_decide as Hb.
  2:{ case_match eqn:Hc; [done|]. intros (v' & Hp & ->)%pushed_Some.
      apply IH in Hp as (t & -> & Ht); [|simpl; lia].
      exists (c :: t). split; [done|]. apply chars_raw; [done|done|lia|done]. }
  subst c. destruct s1 as [|e s2]; [done|].
  destruct (simple_escape e) as [ch|] eqn:He.
  { intros (v' & Hp & ->)%pushed_Some. apply IH in Hp as (t & -> & Ht); [|simpl; lia].
    exists (backslash :: e :: t). split; [done|]. by apply chars_simple. }
  case_decide as Hu; [subst e|done].
  destruct s2 as [|h1 [|h2 [|h3 [|h4 s3]]]]; try done.
  destruct (parse_json_hex4 h1 h2 h3 h4) as [n|] eqn:Hn; [|done]. cbn [mbind option_bind].
  destruct ((0xd800 <=? n) && (n <=? 0xdbff)) eqn:Hhigh.
  - destruct s3 as [|e1 [|e2 [|l1 [|l2 [|l3 [|l4 s4]]]]]]; try done.
    case_match eqn:He12; [done|]. apply orb_false_iff in He12 as [E1 E2].
    apply negb_false_iff, bool_decide_eq_true in E1, E2. subst e1 e2.
    destruct (parse_json_hex4 l1 l2 l3 l4) as [low|] eqn:Hl; [|done]. cbn [mbind option_bind].
    case_match eqn:Hlr; [done|].
    destruct (append_utf8 _) as [b|] eqn:Hutf; [|done]. cbn [mbind option_bind].
    intros (v' & Hp & ->)%pushed_Some. apply IH in Hp as (t & -> & Ht); [|simpl; lia].
    eexists. split; [|eapply (chars_pair h1 h2 h3 h4 l1 l2 l3 l4); eauto; lia]. done.
  - case_match eqn:Hlow; [done|]. destruct (append_utf8 n) as [b|] eqn:Hutf; [|done]. cbn [mbind option_bind].
    intros (v' & Hp & ->)%pushed_Some. apply IH in Hp as (t & -> & Ht); [|simpl; lia].
    eexists. split; [|eapply (chars_unit h1 h2 h3 h4); eauto; lia]. done.
Qed.

(** The string scanner accepts exactly the JSON strings, with surrogates in
    pairs only, decodes them to UTF-8 and stops after the closing quote. *)
Theorem parse_json_string_exact s v rest :
  parse_json_string s = Some (v, rest) <-> exists t, s = t ++ rest /\ string_text t v.
Proof.
  split.
  - destruct s as [|c s]; [done|]. simpl. case_decide as Hc; [subst c|done].
    intros (t & -> & Ht)%parse_string_sound. exists (quoted t). unfold quoted.
    split; [by rewrite <- app_comm_cons, <- app_assoc|by exists t].
  - intros (t & -> & c & -> & Hc). unfold quoted. rewrite <- app_comm_cons, <- app_assoc. simpl.
    by apply parse_string_complete.
Qed.

Lemma string_parses t v rest : string_text t v -> parse_json_string (t ++ rest) = Some (v, rest).
Proof. intros H. apply parse_json_string_exact. by exists t. Qed.

Lemma chars_app t1 v1 t2 v2 : json_chars t1 v1 -> json_chars t2 v2 -> json_chars (t1 ++ t2) (v1 ++ v2).
Proof.
  intros H1 H2. induction H1; cbn [app]; [done|..].
  1,2: by constructor.
  all: rewrite <- app_assoc.
  - by eapply chars_unit.
  - by eapply chars_pair.
Qed.

Lemma escape_char_chars c : json_chars (escape_char c) [c].
Proof.
  assert (bool_decide (parse_string_body (escape_char c ++ [quote]) = Some ([c], [])) = true) as H.
  { revert c. apply ascii_cases. by apply (forall_below 256). }
  apply bool_decide_eq_true, parse_string_sound in H as (t & E & Ht).
  change (quote :: []) with ([quote] : str) in E. by apply app_inj_tail in E as [-> _].
Qed.

Lemma json_escape_chars s : json_chars (json_escape s) s.
Proof.
  induction s as [|c s IH]; [constructor|].
  change (json_escape (c :: s)) with (escape_char c ++ json_escape s).
  apply (chars_app _ [c]); [apply escape_char_chars|done].
Qed.

Lemma escaped_text s : string_text (quoted (json_escape s)) s.
Proof. exists (json_escape s). split; [done|apply json_escape_chars]. Qed.

(** What the daemon escapes, any bytes, reads back as it was. *)
Theorem escaped_reads_back s rest :
  parse_json_string (quoted (json_escape s) ++ rest) = Some (s, rest).
Proof. apply string_parses, escaped_text. Qed.

(** ** Scanning classes of characters *)

Lemma skip_while_app p w s :
  Forall (fun c => p c = true) w -> starts_with p s = false -> skip_while p (w ++ s) = s.
Proof.
  intros Hw Hs. induction Hw as [|c w Hc _ IH]; simpl; [|by rewrite Hc].
  destruct s as [|c s]; simpl in *; [done|by rewrite Hs].
Qed.

Lemma skip_while_split p s :
  exists w, s = w ++ skip_while p s /\ Forall (fun c => p c = true) w /\
    starts_with p (skip_while p s) = false.
Proof.
  induction s as [|c s (w & E & Hw & Hs)]; simpl; [by exists []|].
  destruct (p c) eqn:Hc; [|by exists []]. exists (c :: w). split; [by rewrite E at 1|]. by split; [constructor|].
Qed.

Lemma skip_ws_app w s : blanks w -> starts_with is_json_ws s = false -> skip_json_ws (w ++ s) = s.
Proof. apply skip_while_app. Qed.

Lemma skip_ws_split s : exists w, s = w ++ skip_json_ws s /\ blanks w.
Proof. destruct (skip_while_split is_json_ws s) as (w & E & Hw & _). by exists w. Qed.

Lemma at_end_blanks s : at_end s = true <-> blanks s.
Proof.
  unfold at_end. split.
  - intros H. destruct (skip_ws_split s) as (w & E & Hw). destruct (skip_json_ws s); [|done].
    by rewrite app_nil_r in E; subst.
  - intros H. rewrite <- (app_nil_r s). by rewrite skip_ws_app.
Qed.

(** ** Numbers *)

Definition continues_number (c : ascii) : bool :=
  is_digit c || is_char "." c || is_char "e" c || is_char "E" c.

Lemma starts_with_app p s r : s <> [] -> starts_with p (s ++ r) = starts_with p s.
Proof. by destruct s. Qed.

Lemma digits_starts d : digits d -> starts_with is_digit d = true.
Proof. intros [Hd HF]. destruct HF; [done|]. done. Qed.

Lemma skip_digits_app d r : digits d -> starts_with is_digit r = false -> skip_digits (d ++ r) = r.
Proof. intros [_ Hd]. by apply skip_while_app. Qed.

Lemma digits_after_app d r : digits d -> starts_with is_digit r = false -> digits_after (d ++ r) = Some r.
Proof.
  intros Hd Hr. unfold digits_after.
  rewrite starts_with_app by apply Hd. by rewrite digits_starts, skip_digits_app.
Qed.

Lemma digits_after_sound s r : digits_after s = Some r -> exists d, s = d ++ r /\ digits d.
Proof.
  unfold digits_after. destruct (starts_with is_digit s) eqn:E; [|done]. intros [= <-].
  destruct (skip_while_split is_digit s) as (d & Ed & Hd & _). exists d. split; [done|]. split; [|done].
  intros ->. destruct s as [|c s]; [done|]. simpl in E. unfold skip_digits in Ed. simpl in Ed. rewrite E in Ed.
  pose proof (skip_while_split is_digit s) as (w & Ew & _). apply (f_equal length) in Ed, Ew.
  rewrite length_app in Ew. simpl in *. lia.
Qed.

Lemma is_char_true x c : is_char x c = true <-> c = x.
Proof. unfold is_char. apply bool_decide_eq_true. Qed.

Lemma starts_with_char x s : starts_with (is_char x) s = true -> exists r, s = x :: r.
Proof. destruct s as [|c s]; simpl; [done|]. rewrite is_char_true. intros ->. by exists s. Qed.

Lemma starts_with_false_impl (p q : ascii -> bool) s :
  (forall c, p c = true -> q c = true) -> starts_with q s = false -> starts_with p s = false.
Proof.
  intros H. destruct s as [|c s]; simpl; [done|]. intros E. destruct (p c) eqn:Ep; [|done].
  apply H in Ep. congruence.
Qed.

Lemma continues_digit s : starts_with continues_number s = false -> starts_with is_digit s = false.
Proof. apply starts_with_false_impl. intros c H. unfold continues_number. by rewrite H. Qed.

(** What may follow the integer and the fraction of a number. *)
Lemma exponent_after e r :
  exponent_text e -> starts_with continues_number r = false ->
  (if starts_with (fun c => is_char "e" c || is_char "E" c) (e ++ r)
   then digits_after (skip_if (fun c => is_char "+" c || is_char "-" c) (drop 1 (e ++ r)))
   else Some (e ++ r)) = Some r.
Proof.
  intros He Hr. destruct He as [->|(x & sg & d & -> & Hx & Hs & Hd)].
  - cbn [app]. rewrite (starts_with_false_impl _ continues_number); [done| |done].
    intros c. unfold continues_number. destruct (is_digit c), (is_char "." c); simpl; auto.
  - rewrite <- app_comm_cons. cbn [starts_with]. change (drop 1 (x :: (sg ++ d) ++ r)) with ((sg ++ d) ++ r).
    replace (is_char "e" x || is_char "E" x) with true by (destruct Hx as [->| ->]; done).
    assert (skip_if (fun c => is_char "+" c || is_char "-" c) ((sg ++ d) ++ r) = d ++ r) as ->.
    2:{ apply digits_after_app; [done|by apply continues_digit]. }
    rewrite <- app_assoc. destruct Hs as [->|[->| ->]]; [|done|done]. unfold skip_if. cbn [app].
    rewrite starts_with_app by apply Hd. destruct Hd as [Hd HF]. destruct HF as [|c d Hc HF]; [done|].
    simpl. replace (is_char "+" c || is_char "-" c) with false; [done|]. symmetry.
    unfold is_char. apply orb_false_iff. split; apply bool_decide_eq_false; intros ->; done.
Qed.

Lemma number_complete t r :
  number_text t -> starts_with continues_number r = false -> skip_json_number (t ++ r) = Some r.
Proof.
  intros (sg & i & f & e & -> & Hsg & Hi & Hf & He) Hr. rewrite <- !app_assoc.
  assert (i <> [] /\ starts_with is_digit i = true) as [Hne Hsd].
  { destruct Hi as [->|[Hi _]]; [done|]. split; [apply Hi|by apply digits_starts]. }
  assert (starts_with is_digit (e ++ r) = false /\ starts_with (is_char ".") (e ++ r) = false) as [Hed Hep].
  { destruct He as [->|(x & sg' & d & -> & Hx & _)].
    - cbn [app]. split; [by apply continues_digit|].
      eapply starts_with_false_impl; [|exact Hr]. intros c. unfold continues_number. intros ->. by rewrite orb_true_r.
    - by destruct Hx as [->| ->]. }
  assert (starts_with is_digit (f ++ e ++ r) = false) as Hfd.
  { destruct Hf as [->|(d & -> & _)]; done. }
  unfold skip_json_number.
  assert (skip_if (is_char "-") (sg ++ i ++ f ++ e ++ r) = i ++ f ++ e ++ r) as ->.
  { destruct Hsg as [->| ->]; [|done]. cbn [app]. unfold skip_if. rewrite starts_with_app by done.
      destruct i as [|c i]; [done|]. simpl in *. replace (is_char "-" c) with false; [done|]. symmetry.
      unfold is_char. apply bool_decide_eq_false. by intros ->. }
  rewrite starts_with_app, Hsd by done. cbn [negb].
  assert ((if starts_with (is_char "0") (i ++ f ++ e ++ r) then drop 1 (i ++ f ++ e ++ r)
    else skip_digits (i ++ f ++ e ++ r)) = f ++ e ++ r) as ->.
  { rewrite starts_with_app by done. destruct Hi as [->|[Hi H0]]; [done|].
      rewrite H0. by apply skip_digits_app. }
  assert ((if starts_with (is_char ".") (f ++ e ++ r) then digits_after (drop 1 (f ++ e ++ r))
    else Some (f ++ e ++ r)) = Some (e ++ r)) as ->.
  { destruct Hf as [->|(d & -> & Hd)]; [cbn [app]; by rewrite Hep|]. cbn. by apply digits_after_app. }
  cbn [mbind option_bind]. by apply exponent_after.
Qed.

Lemma skip_if_split p s : exists w, s = w ++ skip_if p s /\ (w = [] \/ exists c, w = [c] /\ p c = true).
Proof.
  unfold skip_if. destruct s as [|c s]; simpl; [exists []; auto|].
  destruct (p c) eqn:E; [exists [c]; split; [done|]; right; by exists c|exists []; auto].
Qed.

Lemma number_sound s r : skip_json_number s = Some r -> exists t, s = t ++ r /\ number_text t.
Proof.
  unfold skip_json_number. destruct (skip_if_split (is_char "-") s) as (sg & E & Hsg).
  set (s1 := skip_if (is_char "-") s) in *. destruct (starts_with is_digit s1) eqn:Hd; cbn [negb]; [|done].
  set (s2 := if starts_with (is_char "0") s1 then drop 1 s1 else skip_digits s1).
  assert (exists i, s1 = i ++ s2 /\ integer_text i) as (i & E1 & Hi).
  { unfold s2. destruct (starts_with (is_char "0") s1) eqn:H0.
    - apply starts_with_char in H0 as [s1' ->]. exists (lit "0"). split; [done|by left].
    - assert (digits_after s1 = Some (skip_digits s1)) as Hda by by unfold digits_after; rewrite Hd.
      apply digits_after_sound in Hda as (i & Ei & Hi). exists i. split; [done|]. right. split; [done|].
      rewrite Ei in H0. by rewrite starts_with_app in H0 by apply Hi. }
  clearbody s2. intros H. destruct (if starts_with (is_char ".") s2 then _ else _) as [s3|] eqn:E3; [|done].
  cbn [mbind option_bind] in H.
  assert (exists f, s2 = f ++ s3 /\ fraction_text f) as (f & E2 & Hf).
  { destruct (starts_with (is_char ".") s2) eqn:Hp.
    - apply starts_with_char in Hp as [s2' ->]. change (digits_after s2' = Some s3) in E3.
      apply digits_after_sound in E3 as (d & Ed & Hdd). exists ("."%char :: d). split; [by rewrite Ed|].
      right. by exists d.
    - injection E3 as ->. exists []. split; [done|by left]. }
  assert (exists e, s3 = e ++ r /\ exponent_text e) as (e & E4 & He).
  { destruct (starts_with _ s3) eqn:Hx.
    - destruct s3 as [|x s3]; [done|]. simpl in Hx, H.
      destruct (skip_if_split (fun c => is_char "+" c || is_char "-" c) s3) as (w & Ew & Hw).
      change (drop 0 s3) with s3 in H. apply digits_after_sound in H as (d & Ed & Hdd). rewrite Ed in Ew.
      exists (x :: w ++ d). split; [by rewrite <- app_comm_cons, <- app_assoc, <- Ew|]. right.
      exists x, w, d. split; [done|]. split_and!; [|destruct Hw as [->|(c & -> & Hc)]|done].
      + apply orb_true_iff in Hx. rewrite !is_char_true in Hx. done.
      + by left.
      + apply orb_true_iff in Hc. rewrite !is_char_true in Hc. right. destruct Hc as [->| ->]; auto.
    - injection H as ->. exists []. split; [done|by left]. }
  exists (sg ++ i ++ f ++ e). split.
  { rewrite E, E1, E2, E4. by rewrite <- !app_assoc. }
  exists sg, i, f, e. split_and!; try done.
  destruct Hsg as [->|(c & -> & Hc)]; [by left|]. apply is_char_true in Hc as ->. by right.
Qed.

(** ** Flat values *)

Lemma consume_app l r : consume_json_literal l (l ++ r) = Some r.
Proof. induction l as [|x l IH]; simpl; [done|]. by rewrite decide_True. Qed.

Lemma consume_sound l s r : consume_json_literal l s = Some r -> s = l ++ r.
Proof.
  revert s. induction l as [|x l IH]; intros s; simpl; [by intros [= ->]|].
  destruct s as [|c s]; [done|]. case_decide; [|done]. intros ->%IH. by subst.
Qed.

Lemma number_starts t r : number_text t ->
  starts_with (fun c => is_char "-" c || is_digit c) (t ++ r) = true.
Proof.
  intros (sg & i & f & e & -> & [->| ->] & Hi & _); [|done]. rewrite <- !app_assoc. cbn [app].
  destruct Hi as [->|[[Hne HF] _]]; [done|]. destruct HF as [|c i Hc]; [done|]. simpl. by rewrite Hc, orb_true_r.
Qed.

(** A number is none of the literals and no string. *)
Lemma number_skips t r : number_text t -> starts_with continues_number r = false ->
  skip_flat_json_value (t ++ r) = Some r.
Proof.
  intros Ht Hr. pose proof (number_starts t r Ht) as Hs. unfold skip_flat_json_value.
  assert (skip_json_ws (t ++ r) = t ++ r /\ (exists c s, t ++ r = c :: s /\ c <> quote) /\
    consume_json_literal (lit "true") (t ++ r) = None /\ consume_json_literal (lit "false") (t ++ r) = None /\
    consume_json_literal (lit "null") (t ++ r) = None) as (-> & (c & s & E & Hq) & -> & -> & ->).
  { destruct (t ++ r) as [|c s]; [done|]. simpl in Hs.
    assert (forallb (fun x => implb (is_char "-" x || is_digit x)
      (negb (is_json_ws x) && negb (is_char quote x) && negb (is_char "t" x) && negb (is_char "f" x) && negb (is_char "n" x)))
      [c] = true) as H.
    { simpl. rewrite andb_true_r. clear Hs. revert c. apply ascii_cases. by apply (forall_below 256). }
    cbn [forallb] in H. rewrite Hs in H. rewrite andb_true_r in H. simpl implb in H. rewrite !andb_true_iff, !negb_true_iff in H.
    destruct H as ((((H1 & H2) & H3) & H4) & H5). apply bool_decide_eq_false in H2, H3, H4, H5.
    cbn [skip_json_ws skip_while consume_json_literal lit String.list_ascii_of_string].
    rewrite !decide_False by done. unfold skip_json_ws. cbn [skip_while]. rewrite H1. split_and!; try done. by exists c, s. }
  rewrite E. rewrite decide_False by done. cbn [or_else]. rewrite <- E. by apply number_complete.
Qed.

(** What may follow a flat value. *)
Definition value_end (r : str) : Prop := starts_with continues_number r = false.

Lemma quoted_starts c r : quoted c ++ r = quote :: (c ++ quote :: r).
Proof. unfold quoted. by rewrite <- app_comm_cons, <- app_assoc. Qed.

Lemma string_starts t v : string_text t v -> exists c, t = quote :: c.
Proof. intros (c & -> & _). by eexists. Qed.

Lemma value_skips t x r : value_text t x -> value_end r -> skip_flat_json_value (t ++ r) = Some r.
Proof.
  destruct x as [v|l]; cbn [value_text].
  - intros Hv _. pose proof (string_parses _ _ r Hv) as Hp. apply string_starts in Hv as [c ->].
    change (skip_flat_json_value ((quote :: c) ++ r)) with (snd <$> parse_json_string ((quote :: c) ++ r)).
    by rewrite Hp.
  - intros (-> & [->|[->|[->|Hn]]]) Hr; [| | |by apply number_skips].
    all: done.
Qed.

Lemma value_sound s r : skip_flat_json_value s = Some r ->
  exists w t x, s = w ++ t ++ r /\ blanks w /\ value_text t x.
Proof.
  unfold skip_flat_json_value. destruct (skip_ws_split s) as (w & E & Hw).
  destruct (skip_json_ws s) as [|c s1] eqn:E1; [done|]. case_decide as Hq.
  - destruct (parse_json_string (c :: s1)) as [[v r']|] eqn:Hp; [|done]. intros [= ->].
    apply parse_json_string_exact in Hp as (t & Et & Ht). exists w, t, (JStr v). by rewrite E, Et.
  - intros H. assert (exists t, c :: s1 = t ++ r /\ (t = lit "true" \/ t = lit "false" \/ t = lit "null" \/ number_text t))
      as (t & Et & Ht).
    { unfold or_else in H.
      destruct (consume_json_literal (lit "true") (c :: s1)) as [r1|] eqn:L1;
        [apply consume_sound in L1; injection H as <-; eauto 8|].
      destruct (consume_json_literal (lit "false") (c :: s1)) as [r2|] eqn:L2;
        [apply consume_sound in L2; injection H as <-; eauto 8|].
      destruct (consume_json_literal (lit "null") (c :: s1)) as [r3|] eqn:L3;
        [apply consume_sound in L3; injection H as <-; eauto 8|].
      apply number_sound in H as (t & Et & Ht). eauto 8. }
    exists w, t, (JLiteral t). by rewrite E, Et.
Qed.

Lemma literal_no_string t l r : value_text t (JLiteral l) -> parse_json_string (t ++ r) = None.
Proof.
  intros (-> & [->|[->|[->|Hn]]]); [done..|].
  apply (number_starts _ r) in Hn. destruct (l ++ r) as [|c s]; [done|]. simpl in *.
  rewrite decide_False; [done|]. by intros ->.
Qed.

Lemma value_no_ws t x r : value_text t x -> starts_with is_json_ws (t ++ r) = false.
Proof.
  destruct x as [v|l]; cbn [value_text]; [by intros (c & ->)%string_starts|].
  intros (-> & [->|[->|[->|Hn]]]); [done..|]. apply (number_starts _ r) in Hn.
  destruct (l ++ r) as [|c s]; [done|]. simpl in *.
  assert (implb (is_char "-" c || is_digit c) (negb (is_json_ws c)) = true) as H.
  { clear Hn. revert c. apply ascii_cases. by apply (forall_below 256). }
  rewrite Hn in H. by apply negb_true_iff in H.
Qed.

Lemma value_end_blanks w r : blanks w -> value_end r -> value_end (w ++ r).
Proof.
  intros Hw Hr. destruct Hw as [|c w Hc _]; [done|]. unfold value_end. simpl.
  assert (implb (is_json_ws c) (negb (continues_number c)) = true) as H.
  { clear Hc. revert c. apply ascii_cases. by apply (forall_below 256). }
  rewrite Hc in H. by apply negb_true_iff in H.
Qed.

(** ** The strict parser *)

Definition assign_member (q : BranchMergeRequest) (m : member) : option BranchMergeRequest :=
  let '(k, x) := m in
  let str_value := match x with JStr v => Some v | JLiteral _ => None end in
  if decide (k = lit "source") then (fun v => mkMergeRequest v (mq_target q) (mq_label q)) <$> str_value
  else if decide (k = lit "target") then (fun v => mkMergeRequest (mq_source q) v (mq_label q)) <$> str_value
  else if decide (k = lit "label") then (fun v => mkMergeRequest (mq_source q) (mq_target q) v) <$> str_value
  else Some q.

(** The request an object stands for: the last of each of the three members,
    which must be strings. *)
Fixpoint request_of (ms : list member) (q : BranchMergeRequest) : option BranchMergeRequest :=
  match ms with
  | [] => Some q
  | m :: rest => q' ← assign_member q m; request_of rest q'
  end.

Lemma merge_member_text k tx x r q :
  value_text tx x -> value_end r -> merge_member k (tx ++ r) q = (fun q' => (q', r)) <$> assign_member q (k, x).
Proof.
  intros Hx Hr. unfold merge_member, assign_member.
  destruct x as [v|l].
  - rewrite (string_parses tx v) by done. rewrite (value_skips _ (JStr v)) by done. by repeat case_decide.
  - rewrite (literal_no_string _ l) by done. rewrite (value_skips _ (JLiteral l)) by done. by repeat case_decide.
Qed.

Lemma merge_member_sound k s q q' r : starts_with is_json_ws s = false ->
  merge_member k s q = Some (q', r) ->
  exists tx x, s = tx ++ r /\ value_text tx x /\ assign_member q (k, x) = Some q'.
Proof.
  intros Hs. unfold merge_member, assign_member.
  destruct (parse_json_string s) as [[v r']|] eqn:Hp; cbn [mbind option_bind].
  - pose proof Hp as (t & Et & Ht)%parse_json_string_exact.
    repeat case_decide; try (intros [= <- <-]; exists t, (JStr v); done).
    destruct (skip_flat_json_value s) as [r2|] eqn:Hv; [|done]. intros [= <- <-].
    apply value_sound in Hv as (w & tx & x & E & Hw & Hx). destruct Hw as [|c w Hc]; [by exists tx, x|].
    rewrite E in Hs. simpl in Hs. congruence.
  - repeat case_decide; try done.
    destruct (skip_flat_json_value s) as [r2|] eqn:Hv; [|done]. intros [= <- <-].
    apply value_sound in Hv as (w & tx & x & E & Hw & Hx). destruct Hw as [|c w Hc]; [by exists tx, x|].
    rewrite E in Hs. simpl in Hs. congruence.
Qed.

Lemma not_ws_app s r : starts_with is_json_ws s = false -> s <> [] -> starts_with is_json_ws (s ++ r) = false.
Proof. intros Hs Hne. by rewrite starts_with_app. Qed.

Lemma members_start ms t r : members_text ms t -> exists c, t ++ r = quote :: c.
Proof. destruct 1; destruct (string_starts tk k ltac:(done)) as [c ->]; by eexists. Qed.

(** One round of the loop on a member's text. *)
Lemma merge_member_round fuel k x tk w1 w2 tx rest q :
  string_text tk k -> blanks w1 -> blanks w2 -> value_text tx x -> value_end rest ->
  merge_members (S fuel) (tk ++ w1 ++ ":"%char :: w2 ++ tx ++ rest) q =
  q' ← assign_member q (k, x);
  match skip_json_ws rest with
  | d :: s4 =>
      if is_char "}" d then (if at_end s4 then Some q' else None)
      else if negb (is_char "," d) then None
      else
        let s5 := skip_json_ws s4 in
        if starts_with (is_char "}") s5 then None else merge_members fuel s5 q'
  | [] => None
  end.
Proof.
  intros Hk H1 H2 Hx Hr. cbn [merge_members]. rewrite (string_parses tk k) by done. cbn [mbind option_bind].
  rewrite skip_ws_app by done. cbn [is_char bool_decide decide_rel negb].
  replace (negb (is_char ":" ":")) with false by done.
  rewrite skip_ws_app by (done || by eapply value_no_ws).
  rewrite (merge_member_text k tx x) by done. by destruct (assign_member q (k, x)).
Qed.

Lemma merge_members_complete ms t : members_text ms t -> forall fuel w q,
  (length ms <= fuel)%nat -> blanks w -> merge_members fuel (t ++ "}"%char :: w) q = request_of ms q.
Proof.
  induction 1 as [k x tk w1 w2 tx w3 Hk H1 H2 Hx H3|k x tk w1 w2 tx w3 w4 ms t Hk H1 H2 Hx H3 H4 Ht IH];
    intros fuel w q Hf Hw; (destruct fuel as [|fuel]; [simpl in Hf; lia|]).
  - replace ((tk ++ w1 ++ ":"%char :: w2 ++ tx ++ w3) ++ "}"%char :: w)
      with (tk ++ w1 ++ ":"%char :: w2 ++ tx ++ (w3 ++ "}"%char :: w)) by (by rewrite <- !app_assoc, <- app_comm_cons, <- !app_assoc).
    rewrite (merge_member_round _ k x) by (done || by apply value_end_blanks). cbn [request_of].
    destruct (assign_member q (k, x)) as [q'|]; [|done]. cbn [mbind option_bind].
    rewrite skip_ws_app by done. replace (is_char "}" "}") with true by done.
    by replace (at_end w) with true by (symmetry; by apply at_end_blanks).
  - replace ((tk ++ w1 ++ ":"%char :: w2 ++ tx ++ w3 ++ ","%char :: w4 ++ t) ++ "}"%char :: w)
      with (tk ++ w1 ++ ":"%char :: w2 ++ tx ++ (w3 ++ ","%char :: w4 ++ (t ++ "}"%char :: w)))
      by (rewrite <- !app_assoc, <- app_comm_cons, <- !app_assoc, <- app_comm_cons; by rewrite <- !app_assoc).
    rewrite (merge_member_round _ k x) by (done || by apply value_end_blanks). cbn [request_of].
    destruct (assign_member q (k, x)) as [q'|]; [|done]. cbn [mbind option_bind].
    rewrite skip_ws_app by done. replace (is_char "}" ",") with false by done.
    replace (negb (is_char "," ",")) with false by done. cbv zeta.
    destruct (members_start ms t ("}"%char :: w) Ht) as [c Ec].
    rewrite skip_ws_app; [|done|by rewrite Ec]. rewrite Ec at 1. cbn [starts_with].
    replace (is_char "}" quote) with false by done. apply IH; [simpl in Hf; lia|done].
Qed.

Lemma merge_members_sound fuel : forall s q q', merge_members fuel s q = Some q' ->
  exists ms t w, s = t ++ "}"%char :: w /\ members_text ms t /\ blanks w /\ request_of ms q = Some q'.
Proof.
  induction fuel as [|fuel IH]; intros s q q'; [done|]. cbn [merge_members].
  destruct (parse_json_string s) as [[k s1]|] eqn:Hk; [|done]. cbn [mbind option_bind].
  apply parse_json_string_exact in Hk as (tk & -> & Hk).
  destruct (skip_ws_split s1) as (w1 & E1 & H1). destruct (skip_json_ws s1) as [|c s2]; [done|].
  destruct (is_char ":" c) eqn:Hc; [apply is_char_true in Hc as ->|done]. cbn [negb].
  destruct (skip_while_split is_json_ws s2) as (w2 & E2 & H2 & Hs2). fold (skip_json_ws s2) in *.
  destruct (merge_member k (skip_json_ws s2) q) as [[q1 s3]|] eqn:Hm; [|done]. cbn [mbind option_bind].
  apply merge_member_sound in Hm as (tx & x & Ex & Hx & Ha); [|done].
  destruct (skip_ws_split s3) as (w3 & E3 & H3). destruct (skip_json_ws s3) as [|d s4]; [done|].
  destruct (is_char "}" d) eqn:Hd.
  - apply is_char_true in Hd as ->. destruct (at_end s4) eqn:He; [|done]. intros [= <-].
    apply at_end_blanks in He. exists [(k, x)], (tk ++ w1 ++ ":"%char :: w2 ++ tx ++ w3), s4.
    split_and!; [|by constructor|done|by cbn [request_of]; rewrite Ha].
    rewrite E1, E2, Ex, E3. by rewrite <- !app_assoc, <- app_comm_cons, <- !app_assoc.
  - destruct (is_char "," d) eqn:Hd'; [apply is_char_true in Hd' as ->|done]. cbn [negb].
    destruct (skip_ws_split s4) as (w4 & E4 & H4). cbv zeta.
    destruct (starts_with (is_char "}") (skip_json_ws s4)); [done|].
    intros (ms & t & w & E5 & Ht & Hw & Hq)%IH.
    exists ((k, x) :: ms), (tk ++ w1 ++ ":"%char :: w2 ++ tx ++ w3 ++ ","%char :: w4 ++ t), w.
    split_and!; [|by constructor|done|by cbn [request_of]; rewrite Ha].
    rewrite E1, E2, Ex, E3, E4, E5.
    rewrite <- !app_assoc, <- app_comm_cons, <- !app_assoc, <- app_comm_cons. by rewrite <- !app_assoc.
Qed.

Lemma members_length ms t : members_text ms t -> (length ms <= length t)%nat.
Proof. induction 1; simpl; rewrite !length_app; simpl; rewrite !length_app; [|simpl; rewrite !length_app]; lia. Qed.

(** C31. The strict parser accepts exactly the flat JSON objects in which each of
    [source], [target] and [label] that occurs is a string, and returns the
    last of each, empty when it does not occur. *)
Theorem merge_request_exact json q :
  parse_branch_merge_request json = Some q <->
  exists ms, object_text ms json /\ request_of ms no_request = Some q.
Proof.
  unfold parse_branch_merge_request. split.
  - destruct (skip_ws_split json) as (w1 & E1 & H1). destruct (skip_json_ws json) as [|c s1]; [done|].
    destruct (is_char "{" c) eqn:Hc; [apply is_char_true in Hc as ->|done]. cbn [negb].
    destruct (skip_ws_split s1) as (w2 & E2 & H2).
    destruct (starts_with (is_char "}") (skip_json_ws s1)) eqn:Hb.
    + apply starts_with_char in Hb as [r Hr]. rewrite Hr in E2 |- *. cbv zeta.
      replace (starts_with (is_char "}") ("}"%char :: r)) with true by done.
      change (drop 1 ("}"%char :: r)) with r. destruct (at_end r) eqn:He; [|done]. intros [= <-]. exists []. split; [|done].
      rewrite E1, E2. apply empty_object; [done|done|by apply at_end_blanks].
    + cbv zeta. intros (ms & t & w & E3 & Ht & Hw & Hq)%merge_members_sound. exists ms. split; [|done].
      rewrite E1, E2, E3. by apply full_object.
  - intros (ms & [w1 w2 w3 H1 H2 H3|w1 w2 w3 ms' t H1 H2 H3 Ht] & Hq).
    + rewrite skip_ws_app by done. replace (negb (is_char "{" "{")) with false by done. cbv zeta.
      rewrite skip_ws_app by done. cbn [starts_with]. change (drop 1 ("}"%char :: w3)) with w3.
      replace (is_char "}" "}") with true by done.
      by replace (at_end w3) with true by (symmetry; by apply at_end_blanks).
    + rewrite skip_ws_app by done. replace (negb (is_char "{" "{")) with false by done. cbv zeta.
      destruct (members_start ms' t ("}"%char :: w3) Ht) as [c Ec].
      rewrite skip_ws_app; [|done|by rewrite Ec].
      rewrite Ec at 1. cbn [starts_with]. replace (is_char "}" quote) with false by done.
      rewrite (merge_members_complete ms' t Ht); [done| |done].
      pose proof (members_length ms' t Ht). rewrite length_app. lia.
Qed.

(** ** The lenient lookup *)

Lemma parse_string_shorter s v r : parse_json_string s = Some (v, r) -> (length r < length s)%nat.
Proof.
  intros (t & -> & (c & ->)%string_starts)%parse_json_string_exact.
  rewrite length_app. simpl. lia.
Qed.

Lemma skip_ws_shorter s : (length (skip_json_ws s) <= length s)%nat.
Proof. destruct (skip_ws_split s) as (w & E & _). rewrite E at 2. rewrite length_app. lia. Qed.

Lemma skip_value_shorter s r : skip_flat_json_value s = Some r -> (length r <= length s)%nat.
Proof. intros (w & t & x & -> & _)%value_sound. rewrite !length_app. lia. Qed.

Lemma scan_token_shorter key s s' : s <> [] -> scan_token key s = inr s' -> (length s' < length s)%nat.
Proof.
  intros Hs. unfold scan_token. destruct s as [|c s0]; [done|].
  destruct (parse_json_string (c :: s0)) as [[k s1]|] eqn:Hp; [|intros [= <-]; rewrite length_drop; simpl; lia].
  apply parse_string_shorter in Hp. pose proof (skip_ws_shorter s1).
  destruct (starts_with _ (skip_json_ws s1)); [|intros [= <-]; lia]. cbn [negb].
  case_decide; [done|].
  destruct (skip_flat_json_value _) as [s4|] eqn:Hv; intros [= <-]; [|rewrite length_drop; simpl; lia].
  apply skip_value_shorter in Hv. pose proof (skip_ws_shorter (drop 1 (skip_json_ws s1))).
  rewrite length_drop in *. lia.
Qed.

(** Any fuel past the length gives the same answer, and gives one. *)
Lemma scan_str_fuel key s : forall n m,
  (length s < n)%nat -> (length s < m)%nat -> scan_str n key s = scan_str m key s /\ is_Some (scan_str n key s).
Proof.
  induction s as [s IH] using shorter_ind. intros [|n] [|m] Hn Hm; try lia. cbn [scan_str].
  destruct s as [|c r]; [by split|]. destruct (is_char quote c); cbn [negb].
  - destruct (scan_token key (c :: r)) as [a|s'] eqn:E; [by split|].
    apply scan_token_shorter in E; [|done]. apply IH; simpl in *; lia.
  - apply IH; simpl in *; lia.
Qed.

Lemma extract_unfold key s :
  extract_str_checked s key =
  match s with
  | [] => Missing
  | c :: r =>
      if negb (is_char quote c) then extract_str_checked r key
      else match scan_token key s with inl a => a | inr s' => extract_str_checked s' key end
  end.
Proof.
  unfold extract_str_checked. destruct s as [|c r]; [done|].
  change (scan_str (S (length (c :: r))) key (c :: r)) with
    (if negb (is_char quote c) then scan_str (length (c :: r)) key r
     else match scan_token key (c :: r) with inl a => Some a | inr s' => scan_str (length (c :: r)) key s' end).
  destruct (negb _); [done|]. destruct (scan_token key (c :: r)) as [a|s'] eqn:E; [done|].
  apply scan_token_shorter in E; [|done].
  destruct (scan_str_fuel key s' (length (c :: r)) (S (length s')) ltac:(done) ltac:(lia)) as [-> _]. done.
Qed.

Lemma extract_skips key w s : Forall (fun c => is_char quote c = false) w ->
  extract_str_checked (w ++ s) key = extract_str_checked s key.
Proof.
  induction 1 as [|c w Hc _ IH]; [done|]. cbn [app]. rewrite extract_unfold, Hc. done.
Qed.

Lemma blanks_no_quote w : blanks w -> Forall (fun c => is_char quote c = false) w.
Proof.
  intros Hw. eapply Forall_impl; [exact Hw|]. intros c Hc. apply not_true_is_false. intros H%is_char_true. by subst c.
Qed.

(** White space and a delimiter are passed. *)
Lemma extract_past key w c r : blanks w -> is_char quote c = false ->
  extract_str_checked (w ++ c :: r) key = extract_str_checked r key.
Proof.
  intros Hw Hc. rewrite extract_skips by by apply blanks_no_quote. by rewrite extract_unfold, Hc.
Qed.

Fixpoint first_member (key : str) (ms : list member) : JsonStringLookup :=
  match ms with
  | [] => Missing
  | (k, x) :: rest =>
      if decide (k = key) then match x with JStr v => Found v | JLiteral _ => Malformed end
      else first_member key rest
  end.

Lemma scan_member key k x tk w1 w2 tx rest :
  string_text tk k -> blanks w1 -> blanks w2 -> value_text tx x -> value_end rest ->
  extract_str_checked (tk ++ w1 ++ ":"%char :: w2 ++ tx ++ rest) key =
  if decide (k = key) then match x with JStr v => Found v | JLiteral _ => Malformed end
  else extract_str_checked rest key.
Proof.
  intros Hk H1 H2 Hx Hr. rewrite extract_unfold.
  pose proof (string_starts _ _ Hk) as [c Ec]. rewrite Ec at 1. cbn [app].
  replace (negb (is_char quote quote)) with false by done.
  unfold scan_token. rewrite (string_parses tk k) by done.
  rewrite skip_ws_app by done. cbn [starts_with drop]. replace (negb (is_char ":" ":")) with false by done.
  change (drop 0 (w2 ++ tx ++ rest)) with (w2 ++ tx ++ rest).
  rewrite skip_ws_app by (done || by eapply value_no_ws).
  case_decide.
  - destruct x as [v|l]; [by rewrite (string_parses tx v)|by rewrite (literal_no_string tx l)].
  - by rewrite (value_skips tx x).
Qed.

Lemma scan_members key ms t : members_text ms t -> forall r, value_end r ->
  extract_str_checked (t ++ r) key =
  match first_member key ms with Missing => extract_str_checked r key | a => a end.
Proof.
  induction 1 as [k x tk w1 w2 tx w3 Hk H1 H2 Hx H3|k x tk w1 w2 tx w3 w4 ms t Hk H1 H2 Hx H3 H4 Ht IH];
    intros r Hr.
  - replace ((tk ++ w1 ++ ":"%char :: w2 ++ tx ++ w3) ++ r)
      with (tk ++ w1 ++ ":"%char :: w2 ++ tx ++ (w3 ++ r)) by (by rewrite <- !app_assoc, <- app_comm_cons, <- !app_assoc).
    rewrite (scan_member key k x) by (done || by apply value_end_blanks). cbn [first_member].
    case_decide; [by destruct x|]. by rewrite extract_skips by by apply blanks_no_quote.
  - replace ((tk ++ w1 ++ ":"%char :: w2 ++ tx ++ w3 ++ ","%char :: w4 ++ t) ++ r)
      with (tk ++ w1 ++ ":"%char :: w2 ++ tx ++ (w3 ++ ","%char :: w4 ++ (t ++ r)))
      by (rewrite <- !app_assoc, <- app_comm_cons, <- !app_assoc, <- app_comm_cons; by rewrite <- !app_assoc).
    rewrite (scan_member key k x) by (done || by apply value_end_blanks). cbn [first_member].
    case_decide; [by destruct x|]. rewrite extract_past by done.
    rewrite extract_skips by by apply blanks_no_quote. by apply IH.
Qed.

(** On a flat JSON object the lenient lookup finds the first member of the
    name: its contents when it is a string, malformed otherwise, and a missing
    name is reported as missing. *)
Theorem extract_str_exact ms json key :
  object_text ms json -> extract_str_checked json key = first_member key ms.
Proof.
  destruct 1 as [w1 w2 w3 H1 H2 H3|w1 w2 w3 ms t H1 H2 H3 Ht]; rewrite extract_past by done.
  - rewrite extract_past by done. rewrite <- (app_nil_r w3). by rewrite extract_skips by by apply blanks_no_quote.
  - rewrite extract_skips by by apply blanks_no_quote. rewrite (scan_members key ms t) by done.
    destruct (first_member key ms); [|done..]. rewrite extract_unfold. cbn [is_char negb].
    replace (negb (is_char quote "}")) with true by done. rewrite <- (app_nil_r w3).
    by rewrite extract_skips by by apply blanks_no_quote.
Qed.

(** A name no member has. *)
Lemma first_member_missing key ms : key ∉ ms.*1 -> first_member key ms = Missing.
Proof.
  induction ms as [|[k x] ms IH]; [done|]. cbn. rewrite not_elem_of_cons. intros [Hk Hms].
  rewrite decide_False by done. by apply IH.
Qed.

(** ** Numerals *)

Lemma fold_digits d v :
  fold_left (fun v c => v * 10 + (N_of_ascii c - 48)) d v = v * 10 ^ N.of_nat (length d) + dec_value d.
Proof.
  revert v. induction d as [|c d IH]; intros v; cbn [fold_left length]; [unfold dec_value; simpl; lia|].
  unfold dec_value. cbn [fold_left]. rewrite (IH (v * 10 + _)), (IH (0 * 10 + _)).
  rewrite Nat2N.inj_succ, N.pow_succ_r'. lia.
Qed.

Lemma u32_digits_exact d : forall v r, v <= UINT32_LIMIT ->
  u32_digits d v = Some r <->
  Forall (fun c => is_digit c = true) d /\ r = v * 10 ^ N.of_nat (length d) + dec_value d /\ r <= UINT32_LIMIT.
Proof.
  induction d as [|c d IH]; intros v r Hv; cbn [u32_digits length].
  { unfold dec_value. simpl. rewrite N.mul_1_r, N.add_0_r. split; [intros [= <-]; auto|by intros (_ & -> & _)]. }
  destruct (is_digit c) eqn:Hc; cbn [negb].
  2:{ split; [done|]. intros (HF & _). apply Forall_cons in HF as [HF _]. congruence. }
  assert (N_of_ascii c - 48 <= 9) as Hd by (unfold is_digit in Hc; lia).
  assert (dec_value (c :: d) = (N_of_ascii c - 48) * 10 ^ N.of_nat (length d) + dec_value d) as Hval.
  { unfold dec_value at 1. cbn [fold_left]. rewrite fold_digits. lia. }
  assert (0 < 10 ^ N.of_nat (length d)) as Hpos by (apply N.neq_0_lt_0, N.pow_nonzero; done).
  rewrite Nat2N.inj_succ, N.pow_succ_r', Hval. generalize dependent (N_of_ascii c - 48). intros k Hk _.
  destruct (N.ltb_spec ((UINT32_LIMIT - k) / 10) v) as [Ho|Ho].
  - split; [done|]. intros (_ & -> & Hr).
    assert (UINT32_LIMIT - k < v * 10) as Hlt.
    { pose proof (N.mul_succ_div_gt (UINT32_LIMIT - k) 10 ltac:(done)). lia. }
    assert (v * 10 + k <= UINT32_LIMIT); [|lia].
    etrans; [|exact Hr]. nia.
  - assert (v * 10 <= UINT32_LIMIT - k) as Hle.
    { pose proof (N.Div0.mul_div_le (UINT32_LIMIT - k) 10). lia. }
    rewrite IH by (unfold UINT32_LIMIT in *; lia).
    rewrite Forall_cons. split; intros (H1 & H2 & H3); split_and!; try done; try tauto; lia.
Qed.

(** A count of a command line is accepted exactly when it is a non-empty
    string of decimal digits of value 1 to 2^32-1, and it is that value: no
    intermediate value wraps. *)
Theorem u32_decimal_exact text v :
  parse_positive_u32_decimal text = Some v <->
  digits text /\ v = dec_value text /\ 0 < v < 2 ^ 32.
Proof.
  unfold parse_positive_u32_decimal, digits. destruct text as [|c d]; [split; [done|by intros [[? _] _]]|].
  destruct (u32_digits (c :: d) 0) as [r|] eqn:E; cbn [mbind option_bind].
  - apply u32_digits_exact in E as (HF & -> & Hr); [|done]. rewrite N.mul_0_l, N.add_0_l in *.
    unfold UINT32_LIMIT in Hr. destruct (N.eqb_spec (dec_value (c :: d)) 0); split.
    + done.
    + intros (_ & -> & ?). lia.
    + intros [= <-]. split_and!; try done; lia.
    + by intros (_ & -> & _).
  - split; [done|]. intros ([_ HF] & -> & Hv).
    assert (u32_digits (c :: d) 0 = Some (dec_value (c :: d))); [|congruence].
    apply u32_digits_exact; [done|]. unfold UINT32_LIMIT. split_and!; [done|lia|lia].
Qed.
