(* ===== verification/Telemetry.v ===== *)
(** Telemetry: events and their JSON lines, the drain, the registry of backends
    and the policy text (cas/telemetry_event.{h,cpp}, telemetry_drain.{h,cpp},
    telemetry_registry.{h,cpp}, telemetry_backend.h, cas_op_bits.h, and the
    policy parser of cas/control_protocol.cpp).

    A backend is what the registry sees of it: a name, capabilities, and what
    [process_event] makes of an event. It is referred to by its index in
    [backends_], which stands for its address. The calls the registry makes on
    backends are a trace; their outcomes come from an environment. *)

From S2P Require Import Prelude Hashes KvCodec JsonText JsonGrammar.

(** ** Events *)

Inductive OpType : Type :=
| OpRead | OpWrite | OpOpen | OpClose | OpUnlink | OpRename | OpTruncate | OpStat | OpExec | OpCreate.

#[global] Instance OpType_eq_dec : EqDecision OpType.
Proof. solve_decision. Defined.

Definition op_number (op : OpType) : N :=
  match op with
  | OpRead => 0 | OpWrite => 1 | OpOpen => 2 | OpClose => 3 | OpUnlink => 4
  | OpRename => 5 | OpTruncate => 6 | OpStat => 7 | OpExec => 8 | OpCreate => 9
  end.

Inductive Verdict : Type := Allow | SoftWatch | Deny.

#[global] Instance Verdict_eq_dec : EqDecision Verdict.
Proof. solve_decision. Defined.

Definition verdict_number (v : Verdict) : N := match v with Allow => 0 | SoftWatch => 1 | Deny => 2 end.

Record TelemetryEvent : Type := mkEvent {
  ev_timestamp_ns : N;
  ev_session_id : N;
  ev_branch_id : N;
  ev_policy_version : N;
  ev_op : OpType;
  ev_verdict : Verdict;
  ev_dev : N;
  ev_ino : N;
  ev_i_generation : N;
  ev_path : str;
  ev_pid : N;
  ev_uid : N;
  ev_gid : N;
  ev_bytes : N;
  ev_latency_ns : N;
  ev_backend : str;
  ev_extra : list (str * str)
}.

Definition set_verdict (v : Verdict) (e : TelemetryEvent) : TelemetryEvent :=
  mkEvent (ev_timestamp_ns e) (ev_session_id e) (ev_branch_id e) (ev_policy_version e) (ev_op e) v
    (ev_dev e) (ev_ino e) (ev_i_generation e) (ev_path e) (ev_pid e) (ev_uid e) (ev_gid e)
    (ev_bytes e) (ev_latency_ns e) (ev_backend e) (ev_extra e).

Definition optype_to_string (op : OpType) : str :=
  match op with
  | OpRead => lit "read" | OpWrite => lit "write" | OpOpen => lit "open" | OpClose => lit "close"
  | OpUnlink => lit "unlink" | OpRename => lit "rename" | OpTruncate => lit "truncate"
  | OpStat => lit "stat" | OpExec => lit "exec" | OpCreate => lit "create"
  end.

Definition verdict_to_string (v : Verdict) : str :=
  match v with Allow => lit "allow" | SoftWatch => lit "soft_watch" | Deny => lit "deny" end.

(** [append_json_string]: the same escapes as the control protocol's. *)
Definition json_string (value : str) : str := quoted (json_escape value).

Definition json_key (key : string) : str := quoted (lit key) ++ lit ":".
Definition comma_key (key : string) : str := lit "," ++ json_key key.

Definition extra_pair (x : str * str) : str := json_string x.1 ++ lit ":" ++ json_string x.2.

Definition extra_json (extra : list (str * str)) : str :=
  match extra with
  | [] => []
  | _ => comma_key "extra" ++ lit "{" ++ join_with (lit ",") (extra_pair <$> extra) ++ lit "}"
  end.

Definition event_to_json (ev : TelemetryEvent) : str :=
  lit "{" ++ json_key "ts" ++ to_string (ev_timestamp_ns ev) ++
  comma_key "session_id" ++ to_string (ev_session_id ev) ++
  comma_key "branch_id" ++ to_string (ev_branch_id ev) ++
  comma_key "policy_version" ++ to_string (ev_policy_version ev) ++
  comma_key "op" ++ json_string (optype_to_string (ev_op ev)) ++
  comma_key "verdict" ++ json_string (verdict_to_string (ev_verdict ev)) ++
  comma_key "dev" ++ to_string (ev_dev ev) ++
  comma_key "ino" ++ to_string (ev_ino ev) ++
  comma_key "i_generation" ++ to_string (ev_i_generation ev) ++
  comma_key "path" ++ json_string (ev_path ev) ++
  comma_key "pid" ++ to_string (ev_pid ev) ++
  comma_key "uid" ++ to_string (ev_uid ev) ++
  comma_key "gid" ++ to_string (ev_gid ev) ++
  comma_key "bytes" ++ to_string (ev_bytes ev) ++
  comma_key "latency_ns" ++ to_string (ev_latency_ns ev) ++
  comma_key "backend" ++ json_string (ev_backend ev) ++
  extra_json (ev_extra ev) ++ lit "}".

(** ** The drain *)

(** The open file's contents, [None] when it is closed. *)
Definition TelemetryDrain : Type := option str.

(** [mkdir_ok]: the directory was made or was there; [content]: what the file
    held, [None] when it cannot be opened. *)
Definition drain_start (mkdir_ok : bool) (content : option str) (d : TelemetryDrain) : TelemetryDrain * bool :=
  match d with
  | Some _ => (d, true)
  | None => if negb mkdir_ok then (None, false) else (content, bool_decide (is_Some content))
  end.

Definition drain_stop (d : TelemetryDrain) : TelemetryDrain := None.

Definition write_event (ev : TelemetryEvent) (d : TelemetryDrain) : TelemetryDrain :=
  (fun text => text ++ event_to_json ev ++ [newline]) <$> d.

(** ** Policies *)

Definition OpMask : Type := N.

Definition op_bit (op : OpType) : OpMask := N.shiftl 1 (op_number op).

(** The operations a policy can name, in the order of the code. *)
Definition watched_ops : list (string * OpType) :=
  [("read"%string, OpRead); ("write"%string, OpWrite); ("exec"%string, OpExec);
   ("unlink"%string, OpUnlink); ("rename"%string, OpRename); ("truncate"%string, OpTruncate);
   ("create"%string, OpCreate)].

Definition contains (needle s : str) : bool :=
  match find_str needle s with Some _ => true | None => false end.

Definition soft_watch_mask_from_flags (flags : str) : OpMask :=
  if decide (flags = lit "all") then foldl (fun m x => N.lor m (op_bit x.2)) 0 watched_ops
  else foldl (fun m x => if contains (lit x.1) flags then N.lor m (op_bit x.2) else m) 0 watched_ops.

(** CAS_OP_READ and its companions. *)
Definition cas_op_bits : list (OpType * N) :=
  [(OpRead, 0x01); (OpWrite, 0x02); (OpExec, 0x04); (OpUnlink, 0x08); (OpRename, 0x10);
   (OpTruncate, 0x20); (OpCreate, 0x40)].

Definition bpf_soft_watch_bits (mask : OpMask) : N :=
  foldl (fun bits x => if N.land mask (op_bit x.1) =? 0 then bits else N.lor bits x.2) 0 cas_op_bits.

Record PolicyRule : Type := mkRule { path_pattern : str; soft_watch : OpMask }.

Record ParsedPolicyRule : Type := mkParsedRule {
  pr_pattern : str;
  pr_soft_watch : OpMask;
  pr_bpf_bits : N
}.

Definition parse_rule (obj : str) : ParsedPolicyRule :=
  let flags := extract_str obj (lit "soft_watch") in
  let mask := soft_watch_mask_from_flags flags in
  mkParsedRule (extract_str obj (lit "path_pattern")) mask
    (if decide (flags = lit "all") then 0xFF else bpf_soft_watch_bits mask).

(** From each member named [path_pattern] to the next closing brace; [None]
    when there is none. Every round consumes a byte. *)
Fixpoint parse_rules_from (fuel : nat) (rest : str) : option (list ParsedPolicyRule) :=
  match fuel with
  | O => None
  | S fuel' =>
      match find_str (quoted (lit "path_pattern")) rest with
      | None => Some []
      | Some s =>
          e ← find_char "}"%char s;
          rules ← parse_rules_from fuel' (drop (e + 1) s);
          Some (parse_rule (take e s) :: rules)
      end
  end.

Definition parse_policy_rules (rest : str) : option (list ParsedPolicyRule * list PolicyRule) :=
  match parse_rules_from (S (length rest)) rest with
  | Some parsed => Some (parsed, (fun r => mkRule (pr_pattern r) (pr_soft_watch r)) <$> parsed)
  | None => None
  end.

(** ** The registry *)

Record SessionInfo : Type := mkSession {
  si_cgroup_path : str;
  si_session_id : N;
  si_branch_id : N;
  si_policy_version : N;
  si_verbosity : N
}.

Record Capabilities : Type := mkCaps {
  supported_ops : OpMask;
  pre_op_verdicts : bool;
  requires_cgroup : bool;
  requires_root : bool
}.

(** [None]: [process_event] throws. *)
Record TelemetryBackend : Type := mkBackend {
  tb_name : str;
  tb_capabilities : Capabilities;
  tb_process : TelemetryEvent -> option TelemetryEvent
}.

Record BackendState : Type := mkBackendState {
  bs_backend : nat;
  bs_capabilities : Capabilities;
  is_source : bool;
  bs_started : bool;
  bs_status : str
}.

Record TelemetryRegistry : Type := mkRegistry {
  backends_ : list TelemetryBackend;
  states_ : list BackendState;
  started_ : bool;
  start_attempted_ : bool
}.

Inductive BackendCall : Type :=
| CallStart (b : nat)
| CallStop (b : nat)
| CallRegister (b : nat) (info : SessionInfo)
| CallUnregister (b : nat) (cgroup_path : str)
| CallInstall (b : nat) (rules : list PolicyRule).

Definition new_registry : TelemetryRegistry := mkRegistry [] [] false false.

Definition set_states (l : list BackendState) (r : TelemetryRegistry) : TelemetryRegistry :=
  mkRegistry (backends_ r) l (started_ r) (start_attempted_ r).

Definition set_status (started : bool) (status : str) (s : BackendState) : BackendState :=
  mkBackendState (bs_backend s) (bs_capabilities s) (is_source s) started status.

(** Refused after the first start; in a build with assertions the program
    stops there. *)
Definition add (b : TelemetryBackend) (r : TelemetryRegistry) : TelemetryRegistry :=
  if start_attempted_ r then r
  else
    let caps := tb_capabilities b in
    mkRegistry (backends_ r ++ [b])
      (states_ r ++ [mkBackendState (length (backends_ r)) caps (negb (supported_ops caps =? 0)) false
         (lit "not started")])
      (started_ r) (start_attempted_ r).

Definition configured_snapshot (source : bool) (r : TelemetryRegistry) : list nat :=
  bs_backend <$> filter (fun s => is_source s = source) (states_ r).

Definition active_backend_snapshot (r : TelemetryRegistry) : list nat :=
  bs_backend <$> filter (fun s => negb (start_attempted_ r) || bs_started s = true) (states_ r).

Definition active_processor_snapshot (r : TelemetryRegistry) : list nat :=
  bs_backend <$> filter (fun s => negb (is_source s) && bs_started s = true) (states_ r).

(** The first state of the backend. *)
Definition state_for (b : nat) (r : TelemetryRegistry) : option BackendState :=
  find (fun s => bs_backend s =? b)%nat (states_ r).

(** [*state_for_locked(b) = ...], when there is one. *)
Fixpoint update_first (b : nat) (f : BackendState -> BackendState) (l : list BackendState) : list BackendState :=
  match l with
  | [] => []
  | s :: rest => if (bs_backend s =? b)%nat then f s :: rest else s :: update_first b f rest
  end.

Definition update_state (b : nat) (f : BackendState -> BackendState) (r : TelemetryRegistry) : TelemetryRegistry :=
  set_states (update_first b f (states_ r)) r.

Definition max_verdict (a b : Verdict) : Verdict := if verdict_number a <? verdict_number b then b else a.

Definition merge_verdicts (verdicts : list Verdict) : Verdict := foldl max_verdict Allow verdicts.

(** The processors in turn; one that throws changes nothing. *)
Definition process_one (bs : list TelemetryBackend) (acc : TelemetryEvent * list Verdict) (p : nat) :
    TelemetryEvent * list Verdict :=
  let '(event, verdicts) := acc in
  match b ← bs !! p; tb_process b event with
  | Some event' => (event', verdicts ++ [ev_verdict event'])
  | None => (event, verdicts)
  end.

(** The event after the processors, with the strongest verdict on the way. *)
Definition chained (bs : list TelemetryBackend) (processors : list nat) (event : TelemetryEvent) : TelemetryEvent :=
  let '(event', verdicts) := foldl (process_one bs) (event, [ev_verdict event]) processors in
  set_verdict (merge_verdicts verdicts) event'.

(** What reaches the drain. *)
Definition on_event (source : nat) (event : TelemetryEvent) (r : TelemetryRegistry) : option TelemetryEvent :=
  match state_for source r with
  | Some s =>
      if negb (bs_started s) || negb (is_source s) then None
      else Some (chained (backends_ r) (active_processor_snapshot r) event)
  | None => None
  end.

Definition on_events (l : list (nat * TelemetryEvent)) (r : TelemetryRegistry) : list TelemetryEvent :=
  omap (fun x => on_event x.1 x.2 r) l.

(** The outcome of each start, and the events that arrive, from any backend,
    while one starts. *)
Record StartEnv : Type := mkStart { st_ok : nat -> bool; st_events : nat -> list (nat * TelemetryEvent) }.

Definition start_backend (env : StartEnv) (b : nat) (r : TelemetryRegistry) :
    TelemetryRegistry * list BackendCall * list TelemetryEvent :=
  let r1 := update_state b (set_status true (lit "starting")) r in
  let drained := on_events (st_events env b) r1 in
  let good := st_ok env b in
  (update_state b (set_status good (if good then lit "started" else lit "start failed")) r1,
   CallStart b :: (if good then [] else [CallStop b]), drained).

Fixpoint start_backends (env : StartEnv) (l : list nat) (r : TelemetryRegistry) :
    TelemetryRegistry * list BackendCall * list TelemetryEvent :=
  match l with
  | [] => (r, [], [])
  | b :: rest =>
      let '(r1, calls, drained) := start_backend env b r in
      let '(r2, calls', drained') := start_backends env rest r1 in
      (r2, calls ++ calls', drained ++ drained')
  end.

(** Processors first, so that no event of a source misses them. *)
Definition start_all (env : StartEnv) (r : TelemetryRegistry) :
    TelemetryRegistry * list BackendCall * list TelemetryEvent :=
  if started_ r then (r, [], [])
  else
    let r1 := mkRegistry (backends_ r) (set_status false (lit "not started") <$> states_ r) true true in
    start_backends env (configured_snapshot false r1 ++ configured_snapshot true r1) r1.

Definition stop_backend (b : nat) (r : TelemetryRegistry) : TelemetryRegistry * list BackendCall :=
  match state_for b r with
  | Some s =>
      if bs_started s then (update_state b (set_status false (lit "stopped")) r, [CallStop b]) else (r, [])
  | None => (r, [])
  end.

Fixpoint stop_backends (l : list nat) (r : TelemetryRegistry) : TelemetryRegistry * list BackendCall :=
  match l with
  | [] => (r, [])
  | b :: rest =>
      let '(r1, calls) := stop_backend b r in
      let '(r2, calls') := stop_backends rest r1 in (r2, calls ++ calls')
  end.

Definition stop_all (r : TelemetryRegistry) : TelemetryRegistry * list BackendCall :=
  if negb (started_ r) then (r, [])
  else
    let '(r1, calls) := stop_backends (configured_snapshot true r ++ configured_snapshot false r) r in
    (mkRegistry (backends_ r1) (states_ r1) false (start_attempted_ r1), calls).

(** Every active backend is told, whatever the others answered. *)
Definition register_session (answers : nat -> bool) (info : SessionInfo) (r : TelemetryRegistry) :
    list BackendCall * bool :=
  let l := active_backend_snapshot r in ((fun b => CallRegister b info) <$> l, forallb answers l).

Definition unregister_session (answers : nat -> bool) (cgroup_path : str) (r : TelemetryRegistry) :
    list BackendCall * bool :=
  let l := active_backend_snapshot r in ((fun b => CallUnregister b cgroup_path) <$> l, forallb answers l).

Definition install_policy (rules : list PolicyRule) (r : TelemetryRegistry) : list BackendCall :=
  (fun b => CallInstall b rules) <$> active_backend_snapshot r.

Record BackendRuntimeStatus : Type := mkBackendStatus {
  brs_name : str;
  brs_capabilities : Capabilities;
  brs_started : bool;
  brs_status : str
}.

Definition backend_statuses (r : TelemetryRegistry) : list BackendRuntimeStatus :=
  (fun s => mkBackendStatus (match backends_ r !! bs_backend s with Some b => tb_name b | None => [] end)
    (bs_capabilities s) (bs_started s) (bs_status s)) <$> states_ r.

(** [Daemon::install_registry] and [Daemon::shutdown_telemetry]: an installed
    registry is stopped before it is replaced or dropped. *)
Definition install_registry (next : TelemetryRegistry) (current : option TelemetryRegistry) :
    option TelemetryRegistry * list BackendCall :=
  (Some next, match current with Some r => (stop_all r).2 | None => [] end).

Definition shutdown_telemetry (current : option TelemetryRegistry) :
    option TelemetryRegistry * list BackendCall :=
  match current with None => (None, []) | Some r => (None, (stop_all r).2) end.
