(* ===== verification/TelemetryProps.v ===== *)
(** Telemetry: an event's line is a JSON object on one line, no processor
    weakens a verdict, every backend that starts is stopped once and processors
    are up before events flow; the policy parser reads a rule's members in one
    order only. *)

From S2P Require Import Prelude Hashes KvCodec JsonText JsonGrammar Telemetry.
From Stdlib Require Import ZifyBool.

(** ** Events as text *)

Definition num (n : N) : flat_value := JLiteral (to_string n).

Definition event_members (ev : TelemetryEvent) : list member :=
  [(lit "ts", num (ev_timestamp_ns ev)); (lit "session_id", num (ev_session_id ev));
   (lit "branch_id", num (ev_branch_id ev)); (lit "policy_version", num (ev_policy_version ev));
   (lit "op", JStr (optype_to_string (ev_op ev))); (lit "verdict", JStr (verdict_to_string (ev_verdict ev)));
   (lit "dev", num (ev_dev ev)); (lit "ino", num (ev_ino ev)); (lit "i_generation", num (ev_i_generation ev));
   (lit "path", JStr (ev_path ev)); (lit "pid", num (ev_pid ev)); (lit "uid", num (ev_uid ev));
   (lit "gid", num (ev_gid ev)); (lit "bytes", num (ev_bytes ev)); (lit "latency_ns", num (ev_latency_ns ev));
   (lit "backend", JStr (ev_backend ev))].

(** How the program writes a value. *)
Definition written (x : flat_value) : str :=
  match x with JStr v => json_string v | JLiteral l => l end.

Definition member_json (m : member) : str := quoted m.1 ++ lit ":" ++ written m.2.

Lemma dec_go_head fuel n acc :
  starts_with (is_char "0") acc = false -> n <> 0 -> n < 10 ^ N.of_nat fuel ->
  starts_with (is_char "0") (dec_go fuel n acc) = false.
Proof.
  revert n acc. induction fuel as [|fuel IH]; intros n acc Hacc Hn Hb; [simpl in Hb; lia|].
  cbn [dec_go]. destruct (N.eqb_spec (n / 10) 0) as [Hz|Hz].
  - cbn [starts_with]. apply not_true_is_false. intros H%is_char_true.
    assert (n mod 10 < 10) as Hm by by apply N.mod_lt.
    pose proof (N.div_mod n 10 ltac:(done)). apply (f_equal N_of_ascii) in H.
    rewrite digit_char_value in H by done. change (N_of_ascii "0") with 48 in H. lia.
  - (* the digit pushed is not the first *)
    assert (forall f m a b c, f <> 0%nat -> m <> 0 -> m < 10 ^ N.of_nat f -> starts_with (is_char "0") (dec_go f m a) = false ->
      starts_with (is_char "0") (dec_go f m (c :: b)) = false) as Hany.
    { clear. induction f as [|f IH]; intros m a b c Hf Hm Hb; [done|]. cbn [dec_go].
      destruct (N.eqb_spec (m / 10) 0) as [Hz|Hz]; [done|]. destruct (decide (f = 0%nat)) as [->|].
      - change (10 ^ N.of_nat 1) with 10 in Hb. assert (m / 10 = 0); [|done]. by apply N.div_small.
      - intros H. eapply IH; [done|done| |exact H]. apply N.Div0.div_lt_upper_bound.
        rewrite Nat2N.inj_succ, N.pow_succ_r' in Hb. lia. }
    assert (n / 10 < 10 ^ N.of_nat fuel) as Hlt.
    { apply N.Div0.div_lt_upper_bound. rewrite Nat2N.inj_succ, N.pow_succ_r' in Hb. lia. }
    destruct (decide (fuel = 0%nat)) as [->|]; [by apply N.lt_1_r in Hlt|].
    eapply (Hany fuel (n / 10) []); [done|done|done|]. by apply IH.
Qed.

Lemma to_string_number n : number_text (to_string n).
Proof.
  exists [], (to_string n), [], []. rewrite !app_nil_r. split_and!; [done|by left| |by left|by left].
  assert (digits (to_string n)) as Hd.
  { split; [apply dec_go_nonempty; by right|].
    pose proof (to_string_digits n) as H. rewrite forallb_forall in H. apply Forall_forall.
    intros c Hc. by apply H, list_elem_of_In. }
  destruct (decide (n = 0)) as [->|Hn]; [by left|]. right. split; [done|].
  apply dec_go_head; [done|done|]. rewrite Nat2N.inj_succ, N2Nat.id.
  assert (n < 2 ^ N.succ (N.log2 n)) by (apply N.log2_spec; lia).
  eapply N.lt_le_trans; [done|]. apply N.pow_le_mono_l. lia.
Qed.

Lemma num_text n : value_text (to_string n) (num n).
Proof. split; [done|]. right. right. right. apply to_string_number. Qed.

Lemma str_text v : value_text (json_string v) (JStr v).
Proof. apply escaped_text. Qed.

(** A name the program writes needs no escapes. *)
Definition plain (k : str) : bool := bool_decide (json_escape k = k).

Lemma plain_text k : plain k = true -> string_text (quoted k) k.
Proof. intros H%bool_decide_eq_true. rewrite <- H at 1. apply escaped_text. Qed.

Definition writable (m : member) : Prop := plain m.1 = true /\ value_text (written m.2) m.2.

Lemma members_written ms : ms <> [] -> Forall writable ms -> members_text ms (join_with (lit ",") (member_json <$> ms)).
Proof.
  intros Hne Hms. induction Hms as [|[k x] ms [Hk Hx] Hms IH]; [done|]. cbn [fst snd] in *.
  destruct ms as [|m ms].
  - cbn. unfold member_json. cbn [fst snd]. rewrite app_nil_r.
    pose proof (one_member k x (quoted k) [] [] (written x) [] (plain_text k Hk) ltac:(constructor) ltac:(constructor) Hx
      ltac:(constructor)) as H. rewrite !app_nil_l, app_nil_r in H. done.
  - specialize (IH ltac:(done)).
    pose proof (more_members k x (quoted k) [] [] (written x) [] [] (m :: ms) _ (plain_text k Hk) ltac:(constructor)
      ltac:(constructor) Hx ltac:(constructor) ltac:(constructor) IH) as H.
    rewrite !app_nil_l in H. cbn [fmap list_fmap join_with] in *. unfold member_json at 1. cbn [fst snd].
    rewrite <- !app_assoc. exact H.
Qed.

Lemma event_json_members ev :
  event_to_json ev =
  lit "{" ++ join_with (lit ",") (member_json <$> event_members ev) ++ extra_json (ev_extra ev) ++ lit "}".
Proof.
  unfold event_to_json, event_members. cbn [fmap list_fmap join_with]. unfold member_json. cbn [fst snd written num].
  unfold comma_key, json_key. rewrite <- !app_assoc. done.
Qed.

(** The bytes of an escape are none below a space. *)
Lemma escape_char_printable c x : x ∈ escape_char c -> 32 <= N_of_ascii x.
Proof.
  assert (forallb (fun x => 32 <=? N_of_ascii x) (escape_char c) = true) as H.
  { revert c. apply ascii_cases. by apply (forall_below 256). }
  rewrite forallb_forall in H. intros Hx%list_elem_of_In%H. lia.
Qed.

Lemma json_escape_clean s : newline ∉ json_escape s.
Proof.
  unfold json_escape. intros Hx. apply list_elem_of_join in Hx as (l & Hx & Hl).
  apply list_elem_of_fmap in Hl as (c & -> & _). apply escape_char_printable in Hx. by vm_compute in Hx.
Qed.

Lemma quoted_clean s : newline ∉ s -> newline ∉ quoted s.
Proof.
  intros H. unfold quoted. rewrite elem_of_cons, elem_of_app, list_elem_of_singleton.
  intros [Hq|[Hs|Hq]]; [discriminate|by apply H|discriminate].
Qed.

Lemma json_string_clean v : newline ∉ json_string v.
Proof. apply quoted_clean, json_escape_clean. Qed.

Lemma join_clean l : Forall (fun s => newline ∉ s) l -> newline ∉ join_with (lit ",") l.
Proof.
  induction 1 as [|s l Hs _ IH]; [by intros ?%elem_of_nil|]. cbn [join_with]. rewrite elem_of_app.
  intros [H|H]; [by apply Hs|]. destruct l as [|s' l]; [by apply elem_of_nil in H|].
  apply elem_of_app in H as [H|H]; [by vm_compute in H; apply list_elem_of_singleton in H|by apply IH].
Qed.

Lemma lit_clean s : forallb (fun c => negb (is_char newline c)) (lit s) = true -> newline ∉ lit s.
Proof. rewrite forallb_forall. intros H Hn%list_elem_of_In%H. by rewrite (proj2 (is_char_true newline newline)) in Hn. Qed.

Lemma member_clean m : newline ∉ m.1 -> newline ∉ written m.2 -> newline ∉ member_json m.
Proof.
  intros H1 H2. unfold member_json. rewrite !elem_of_app.
  intros [H|[H|H]]; [by apply quoted_clean in H|by apply lit_clean in H|by apply H2].
Qed.

Lemma event_line_clean ev : newline ∉ event_to_json ev.
Proof.
  rewrite event_json_members, !elem_of_app. intros [H|[H|[H|H]]]; [by apply lit_clean in H| | |by apply lit_clean in H].
  - revert H. apply join_clean, Forall_fmap. unfold event_members.
    repeat (apply Forall_cons_2; [apply member_clean; cbn [fst snd written num];
      [by apply lit_clean|first [by apply to_string_clean|by apply json_string_clean]]|]). constructor.
  - destruct (ev_extra ev) as [|x l]; [by apply elem_of_nil in H|]. unfold extra_json in H.
    rewrite !elem_of_app in H. destruct H as [H|[H|[H|H]]]; [|by apply lit_clean in H| |by apply lit_clean in H].
    + unfold comma_key, json_key in H. rewrite !elem_of_app in H.
      destruct H as [H|[H|H]]; [by apply lit_clean in H|by revert H; apply quoted_clean, lit_clean|by apply lit_clean in H].
    + revert H. apply join_clean. apply Forall_fmap, Forall_forall. intros [a b] _.
      change (newline ∉ extra_pair (a, b)). unfold extra_pair. cbn [fst snd].
      rewrite !elem_of_app. intros [H|[H|H]]; [by apply json_string_clean in H|by apply lit_clean in H|by apply json_string_clean in H].
Qed.

Lemma event_members_text ev : members_text (event_members ev) (join_with (lit ",") (member_json <$> event_members ev)).
Proof.
  apply members_written; [done|]. unfold event_members.
  repeat (constructor; [split; [by vm_compute|first [apply num_text|apply str_text]]|]). constructor.
Qed.

(** The line written for an event holds no line feed, whatever its path,
    backend and extra pairs contain, and looking its text members up in the
    line gives them back unchanged. *)
Theorem event_line_reads_back ev :
  (newline ∉ event_to_json ev) /\
  extract_str_checked (event_to_json ev) (lit "path") = Found (ev_path ev) /\
  extract_str_checked (event_to_json ev) (lit "backend") = Found (ev_backend ev) /\
  extract_str_checked (event_to_json ev) (lit "op") = Found (optype_to_string (ev_op ev)) /\
  extract_str_checked (event_to_json ev) (lit "verdict") = Found (verdict_to_string (ev_verdict ev)).
Proof.
  split; [apply event_line_clean|].
  assert (forall key a, first_member key (event_members ev) = Found a ->
    extract_str_checked (event_to_json ev) key = Found a) as H.
  { intros key a Ha. rewrite event_json_members, extract_skips by by repeat constructor.
    rewrite (scan_members key _ _ (event_members_text ev)).
    - by rewrite Ha.
    - by destruct (ev_extra ev). }
  split_and!; by apply H.
Qed.

(** ** Verdicts *)

Definition weaker (a b : Verdict) : Prop := verdict_number a <= verdict_number b.

Lemma max_verdict_l a b : weaker a (max_verdict a b).
Proof. unfold weaker, max_verdict. destruct (N.ltb_spec (verdict_number a) (verdict_number b)); lia. Qed.

Lemma max_verdict_r a b : weaker b (max_verdict a b).
Proof. unfold weaker, max_verdict. destruct (N.ltb_spec (verdict_number a) (verdict_number b)); lia. Qed.

Lemma merge_from l v a : a ∈ v :: l -> weaker a (foldl max_verdict v l).
Proof.
  revert v a. induction l as [|x l IH]; intros v a; cbn [foldl].
  - rewrite list_elem_of_singleton. intros ->. by unfold weaker.
  - rewrite elem_of_cons. intros [->|Ha].
    + eapply N.le_trans; [apply (max_verdict_l v x)|]. apply (IH (max_verdict v x)). by left.
    + apply elem_of_cons in Ha as [->|Ha].
      * eapply N.le_trans; [apply (max_verdict_r v x)|]. apply (IH (max_verdict v x)). by left.
      * apply IH. by right.
Qed.

Lemma merge_one_of l v : foldl max_verdict v l ∈ v :: l.
Proof.
  revert v. induction l as [|x l IH]; intros v; cbn [foldl]; [by left|].
  specialize (IH (max_verdict v x)). apply elem_of_cons in IH as [->|IH]; [|by do 2 right].
  unfold max_verdict. case_match; [right; by left|by left].
Qed.

Lemma process_verdicts bs ps acc v : v ∈ acc.2 -> v ∈ (foldl (process_one bs) acc ps).2.
Proof.
  revert acc. induction ps as [|p ps IH]; intros [e vs] Hv; [done|]. cbn [foldl]. apply IH.
  unfold process_one. destruct (b ← bs !! p; tb_process b e); [|done]. cbn. apply elem_of_app. by left.
Qed.

(** C34. No processor weakens a verdict: the event that reaches the drain has at
    least the verdict it came with and at least that of every active processor
    that handled it, whatever later processors answered, so one refusal stands;
    and its verdict is one of these or the weakest. *)
Theorem verdict_never_weakened source ev r ev' :
  on_event source ev r = Some ev' ->
  weaker (ev_verdict ev) (ev_verdict ev') /\
  (forall before p after b y,
    active_processor_snapshot r = before ++ p :: after -> backends_ r !! p = Some b ->
    tb_process b (foldl (process_one (backends_ r)) (ev, [ev_verdict ev]) before).1 = Some y ->
    weaker (ev_verdict y) (ev_verdict ev')) /\
  (ev_verdict ev' = Allow \/
   ev_verdict ev' ∈ (foldl (process_one (backends_ r)) (ev, [ev_verdict ev]) (active_processor_snapshot r)).2).
Proof.
  unfold on_event. destruct (state_for source r) as [s|]; [|done]. case_match; [done|]. intros [= <-].
  unfold chained. set (ps := active_processor_snapshot r). set (bs := backends_ r).
  destruct (foldl (process_one bs) (ev, [ev_verdict ev]) ps) as [e' vs] eqn:E.
  cbn [ev_verdict set_verdict snd]. split_and!.
  - apply (merge_from vs Allow). right.
    pose proof (process_verdicts bs ps (ev, [ev_verdict ev]) (ev_verdict ev) ltac:(by left)) as Hin. by rewrite E in Hin.
  - intros before p after b y Hps Hb Hy. apply (merge_from vs Allow). right.
    rewrite Hps, foldl_app in E. cbn [foldl] in E.
    destruct (foldl (process_one bs) (ev, [ev_verdict ev]) before) as [x vx]. cbn [fst] in Hy.
    unfold process_one in E at 2. rewrite Hb in E. cbn [mbind option_bind] in E. rewrite Hy in E.
    pose proof (process_verdicts bs after (y, vx ++ [ev_verdict y]) (ev_verdict y)) as Hin. rewrite E in Hin. apply Hin.
    cbn [snd]. apply elem_of_app. right. by left.
  - pose proof (merge_one_of vs Allow) as Hm. apply elem_of_cons in Hm as [Hm|Hm]; [by left|by right].
Qed.

(** ** Starting and stopping *)

Definition ids (r : TelemetryRegistry) : list nat := bs_backend <$> states_ r.

Definition starts (calls : list BackendCall) : list nat :=
  omap (fun c => match c with CallStart b => Some b | _ => None end) calls.
Definition stops (calls : list BackendCall) : list nat :=
  omap (fun c => match c with CallStop b => Some b | _ => None end) calls.

(** A change of every state that keeps its backend and capabilities. *)
Definition remap (g : BackendState -> BackendState) (r : TelemetryRegistry) : TelemetryRegistry :=
  set_states (g <$> states_ r) r.

Definition at_backend (b : nat) (f : BackendState -> BackendState) (s : BackendState) : BackendState :=
  if (bs_backend s =? b)%nat then f s else s.

Lemma update_first_remap b f l : NoDup (bs_backend <$> l) -> update_first b f l = at_backend b f <$> l.
Proof.
  induction l as [|s l IH]; [done|]. cbn. intros [Hs Hl]%NoDup_cons. unfold at_backend at 1.
  destruct (Nat.eqb_spec (bs_backend s) b) as [Hb|Hb]; [|by rewrite IH]. f_equal.
  rewrite <- (list_fmap_id l) at 1. apply list_fmap_ext. intros i s' Hs'. unfold at_backend.
  destruct (Nat.eqb_spec (bs_backend s') b) as [Hb'|]; [|done]. exfalso. apply Hs. rewrite Hb, <- Hb'.
  apply list_elem_of_fmap_2. by eapply list_elem_of_lookup_2.
Qed.

Definition marked (f : nat -> bool * str) (l : list nat) (s : BackendState) : BackendState :=
  if decide (bs_backend s ∈ l) then set_status (f (bs_backend s)).1 (f (bs_backend s)).2 s else s.

Lemma remap_ids g r : (forall s, bs_backend (g s) = bs_backend s) -> ids (remap g r) = ids r.
Proof.
  intros H. unfold ids, remap, set_states. cbn [states_]. rewrite <- list_fmap_compose.
  apply list_fmap_ext. intros i s _. apply H.
Qed.

Definition start_outcome (env : StartEnv) (b : nat) : bool * str :=
  (st_ok env b, if st_ok env b then lit "started" else lit "start failed").

Lemma start_backend_effect env b r : NoDup (ids r) ->
  (start_backend env b r).1 = (remap (marked (start_outcome env) [b]) r,
    CallStart b :: (if st_ok env b then [] else [CallStop b])).
Proof.
  intros Hr. unfold start_backend. cbn [fst]. f_equal. unfold update_state, remap, set_states. cbn [states_ backends_ started_ start_attempted_].
  f_equal. rewrite !update_first_remap; [|done|].
  2:{ rewrite update_first_remap by done.
      replace (bs_backend <$> (at_backend b (set_status true (lit "starting")) <$> states_ r)) with (ids r); [done|].
      unfold ids. rewrite <- list_fmap_compose. apply list_fmap_ext. intros i s _. cbn. unfold at_backend. by case_match. }
  rewrite <- list_fmap_compose. apply list_fmap_ext. intros i s _. cbn. unfold at_backend, marked.
  destruct (Nat.eqb_spec (bs_backend s) b) as [Hb|Hb].
  - cbn [bs_backend set_status]. rewrite (proj2 (Nat.eqb_eq _ _) Hb). rewrite decide_True by by apply list_elem_of_singleton.
    unfold start_outcome. by rewrite Hb.
  - rewrite (proj2 (Nat.eqb_neq _ _) Hb). by rewrite decide_False by by rewrite list_elem_of_singleton.
Qed.

Lemma marked_backend f l s : bs_backend (marked f l s) = bs_backend s.
Proof. unfold marked. by case_decide. Qed.

Lemma remap_marked_app f l1 l2 r :
  remap (marked f l2) (remap (marked f l1) r) = remap (marked f (l1 ++ l2)) r.
Proof.
  unfold remap, set_states. cbn. f_equal. rewrite <- list_fmap_compose. apply list_fmap_ext. intros i s _. cbn.
  unfold marked. destruct (decide (bs_backend s ∈ l1)) as [H1|H1]; cbn [bs_backend set_status];
    destruct (decide (bs_backend s ∈ l2)) as [H2|H2];
    destruct (decide (bs_backend s ∈ l1 ++ l2)) as [H3|H3]; rewrite elem_of_app in H3; try done; tauto.
Qed.

Lemma remap_marked_nil f r : remap (marked f []) r = r.
Proof.
  unfold remap, set_states. destruct r as [bs sts a b]. cbn. f_equal.
  rewrite <- (list_fmap_id sts) at 2. apply list_fmap_ext. intros i s _. unfold marked. by rewrite decide_False by apply not_elem_of_nil.
Qed.

Lemma start_backends_effect env l : forall r, NoDup (ids r) ->
  (start_backends env l r).1.1 = remap (marked (start_outcome env) l) r /\
  starts (start_backends env l r).1.2 = l /\
  stops (start_backends env l r).1.2 = filter (fun b => st_ok env b = false) l.
Proof.
  induction l as [|b l IH]; intros r Hr; [by rewrite remap_marked_nil|].
  cbn [start_backends]. pose proof (start_backend_effect env b r Hr) as E.
  destruct (start_backend env b r) as [[r1 calls] d1]. cbn [fst] in E. injection E as -> ->.
  assert (NoDup (ids (remap (marked (start_outcome env) [b]) r))) as Hr1
    by (rewrite remap_ids by apply marked_backend; done).
  specialize (IH _ Hr1). destruct (start_backends env l _) as [[r2 calls2] d2]. cbn [fst snd] in *.
  destruct IH as (-> & H1 & H2). rewrite remap_marked_app. split; [done|].
  unfold starts, stops in *. rewrite !omap_app, H1, H2. rewrite filter_cons.
  destruct (st_ok env b); cbn; [by rewrite decide_False by done|by rewrite decide_True by done].
Qed.

Definition stop_outcome (b : nat) : bool * str := (false, lit "stopped").

Definition running (r : TelemetryRegistry) (b : nat) : Prop :=
  exists s, s ∈ states_ r /\ bs_backend s = b /\ bs_started s = true.

Definition halted (s : BackendState) : BackendState :=
  if bs_started s then set_status false (lit "stopped") s else s.

Lemma state_for_spec b r s : NoDup (ids r) ->
  s ∈ states_ r -> bs_backend s = b -> state_for b r = Some s.
Proof.
  unfold ids, state_for. induction (states_ r) as [|x l IH]; cbn; [by intros _ ?%elem_of_nil|].
  intros [Hx Hl]%NoDup_cons. rewrite elem_of_cons. intros [->|Hs] Hb.
  - by rewrite Hb, Nat.eqb_refl.
  - destruct (Nat.eqb_spec (bs_backend x) b) as [E|E]; [|by apply IH].
    exfalso. apply Hx. rewrite E, <- Hb. by apply list_elem_of_fmap_2.
Qed.

Lemma state_for_None b r : b ∉ ids r -> state_for b r = None.
Proof.
  unfold ids, state_for. induction (states_ r) as [|x l IH]; cbn; [done|].
  rewrite not_elem_of_cons. intros [Hx Hl]. rewrite (proj2 (Nat.eqb_neq _ _)) by congruence. by apply IH.
Qed.

Lemma stop_backend_effect b r : NoDup (ids r) ->
  states_ (stop_backend b r).1 = at_backend b halted <$> states_ r.
Proof.
  intros Hr. unfold stop_backend.
  destruct (decide (b ∈ ids r)) as [Hb|Hb].
  - apply list_elem_of_fmap in Hb as (s & Hb & Hs). rewrite (state_for_spec b r s) by done.
    destruct (bs_started s) eqn:E; cbn [fst].
    + unfold update_state, set_states. cbn [states_]. rewrite update_first_remap by done. apply list_fmap_ext.
      intros i x Hx%list_elem_of_lookup_2. unfold at_backend. destruct (Nat.eqb_spec (bs_backend x) b) as [Ex|]; [|done].
      assert (x = s) as ->; [|by unfold halted; rewrite E].
      pose proof (state_for_spec b r x Hr Hx Ex). pose proof (state_for_spec b r s Hr Hs (eq_sym Hb)). congruence.
    + rewrite <- (list_fmap_id (states_ r)) at 1. apply list_fmap_ext. intros i x Hx%list_elem_of_lookup_2.
      unfold at_backend. destruct (Nat.eqb_spec (bs_backend x) b) as [Ex|]; [|done].
      assert (x = s) as ->; [|by unfold halted; rewrite E].
      pose proof (state_for_spec b r x Hr Hx Ex). pose proof (state_for_spec b r s Hr Hs (eq_sym Hb)). congruence.
  - rewrite state_for_None by done. cbn [fst]. rewrite <- (list_fmap_id (states_ r)) at 1. apply list_fmap_ext.
    intros i x Hx%list_elem_of_lookup_2. unfold at_backend.
    rewrite (proj2 (Nat.eqb_neq _ _)); [done|]. intros <-. by apply Hb, list_elem_of_fmap_2.
Qed.

Lemma stop_backends_effect l : forall r, NoDup (ids r) -> NoDup l ->
  states_ (stop_backends l r).1 = (fun s => if decide (bs_backend s ∈ l) then halted s else s) <$> states_ r /\
  starts (stop_backends l r).2 = [] /\
  (forall b, b ∈ stops (stop_backends l r).2 <-> b ∈ l /\ running r b) /\
  NoDup (stops (stop_backends l r).2).
Proof.
  induction l as [|b l IH]; intros r Hr Hl.
  { cbn. split_and!; [|done| |by constructor].
    - rewrite <- (list_fmap_id (states_ r)) at 1. apply list_fmap_ext. intros i x _. by rewrite decide_False by apply not_elem_of_nil.
    - intros b. by rewrite !elem_of_nil; split; [|intros []]. }
  apply NoDup_cons in Hl as [Hb Hl]. cbn [stop_backends].
  pose proof (stop_backend_effect b r Hr) as E.
  assert (forall x, x ∈ (stop_backend b r).2 -> x = CallStop b) as Hcall.
  { unfold stop_backend. intros x. repeat case_match; cbn; rewrite ?elem_of_nil, ?list_elem_of_singleton; done. }
  assert (stops (stop_backend b r).2 = [b] /\ running r b \/ stops (stop_backend b r).2 = [] /\ ~ running r b) as Hst.
  { unfold stop_backend. destruct (decide (b ∈ ids r)) as [Hin|Hin].
    - apply list_elem_of_fmap in Hin as (s & E1 & Hs). rewrite (state_for_spec b r s) by done.
      destruct (bs_started s) eqn:E2; [left|right]; (split; [done|]); [by exists s|].
      intros (s' & Hs' & Eb & E3). pose proof (state_for_spec b r s' Hr Hs' Eb).
      pose proof (state_for_spec b r s Hr Hs (eq_sym E1)). congruence.
    - rewrite state_for_None by done. right. split; [done|]. intros (s & Hs & <- & _). by apply Hin, list_elem_of_fmap_2. }
  assert (starts (stop_backend b r).2 = []) as Hsta.
  { unfold stop_backend. by repeat case_match. }
  destruct (stop_backend b r) as [r1 c1]. cbn [fst snd] in *.
  assert (ids r1 = ids r) as Hids.
  { unfold ids. rewrite E, <- list_fmap_compose. apply list_fmap_ext. intros i x _. cbn. unfold at_backend, halted. by repeat case_match. }
  assert (forall b', b' <> b -> running r1 b' <-> running r b') as Hrun.
  { intros b' Hne. unfold running. rewrite E. split.
    - intros (s & (x & -> & Hx)%list_elem_of_fmap & Eb & Es). exists x. unfold at_backend, halted in *. repeat case_match; cbn in *; first [congruence|by split_and!].
    - intros (s & Hs & Eb & Es). exists s. split; [|done]. apply list_elem_of_fmap. exists s. split; [|done].
      unfold at_backend. rewrite (proj2 (Nat.eqb_neq _ _)) by congruence. done. }
  specialize (IH r1 ltac:(by rewrite Hids) Hl). destruct (stop_backends l r1) as [r2 c2]. cbn [fst snd] in *.
  destruct IH as (H1 & H2 & H3 & H4). split_and!.
  - rewrite H1, E, <- list_fmap_compose. apply list_fmap_ext. intros i x _. cbn. unfold at_backend.
    destruct (Nat.eqb_spec (bs_backend x) b) as [Ex|Ex].
    + rewrite (decide_True (P := bs_backend x ∈ b :: l)) by (rewrite Ex; by left).
      rewrite decide_False; [done|]. unfold halted. case_match; cbn; by rewrite Ex.
    + destruct (decide (bs_backend x ∈ l)) as [Hx|Hx]; destruct (decide (bs_backend x ∈ b :: l)) as [Hx'|Hx']; rewrite elem_of_cons in Hx'; try done; tauto.
  - unfold starts in *. by rewrite omap_app, Hsta, H2.
  - intros b'. unfold stops in *. rewrite omap_app, elem_of_app, H3, elem_of_cons.
    destruct (decide (b' = b)) as [->|Hne].
    + destruct Hst as [[-> Hrb]|[-> Hrb]]; [rewrite list_elem_of_singleton|rewrite elem_of_nil]; split; [tauto|tauto|tauto|].
      intros [_ ?]. done.
    + rewrite (Hrun b' Hne). destruct Hst as [[-> _]|[-> _]]; [rewrite list_elem_of_singleton|rewrite elem_of_nil]; split; [|tauto| |tauto].
      * intros [?|?]; [done|tauto].
      * intros [?|?]; [done|tauto].
  - unfold stops in *. rewrite omap_app. destruct Hst as [[-> _]|[-> _]]; [|done].
    cbn. apply NoDup_cons. split; [|done]. rewrite H3. tauto.
Qed.

(** A registry as the program makes it: backends added before any start. *)
Definition built (bs : list TelemetryBackend) : TelemetryRegistry := foldl (fun r b => add b r) new_registry bs.

Lemma built_snoc bs b : built (bs ++ [b]) = add b (built bs).
Proof. unfold built. by rewrite foldl_app. Qed.

Lemma built_ok bs :
  backends_ (built bs) = bs /\ ids (built bs) = seq 0 (length bs) /\
  started_ (built bs) = false /\ start_attempted_ (built bs) = false.
Proof.
  induction bs as [|b bs IH] using rev_ind; [done|]. rewrite built_snoc. unfold add.
  destruct IH as (H1 & H2 & H3 & ->). cbn. rewrite H1. split_and!; [done| |done|done].
  unfold ids in *. cbn [states_]. rewrite fmap_app, H2, length_app. cbn. by rewrite seq_app.
Qed.

Lemma snapshots_perm r : configured_snapshot false r ++ configured_snapshot true r ≡ₚ ids r.
Proof.
  unfold configured_snapshot, ids. rewrite <- fmap_app. apply fmap_Permutation.
  induction (states_ r) as [|s l IH]; [done|]. rewrite !filter_cons.
  destruct (is_source s) eqn:E.
  - rewrite decide_False by done. rewrite decide_True by done. by rewrite <- Permutation_middle, IH.
  - rewrite decide_True by done. rewrite decide_False by done. cbn. by rewrite IH.
Qed.

(** The registry [start_all] works on. *)
Definition reset (r : TelemetryRegistry) : TelemetryRegistry :=
  mkRegistry (backends_ r) (set_status false (lit "not started") <$> states_ r) true true.

Lemma reset_ids r : ids (reset r) = ids r.
Proof. unfold ids, reset. cbn. rewrite <- list_fmap_compose. by apply list_fmap_ext. Qed.

Lemma snapshot_remap source f l r :
  configured_snapshot source (remap (marked f l) r) = configured_snapshot source r.
Proof.
  unfold configured_snapshot, remap, set_states. cbn [states_]. induction (states_ r) as [|s sts IH]; [done|].
  cbn [fmap list_fmap]. rewrite !filter_cons.
  assert (is_source (marked f l s) = is_source s) as E by (unfold marked; by case_decide).
  rewrite E. case_decide; cbn; by rewrite ?marked_backend, IH.
Qed.

(** The places of the backends of a kind, in the order they were added. *)
Definition positions (P : TelemetryBackend -> bool) (bs : list TelemetryBackend) : list nat :=
  fst <$> filter (fun x => P x.2 = true) (imap pair bs).

(** A backend that reports operations is a source of events; the others process. *)
Definition emits (b : TelemetryBackend) : bool := negb (supported_ops (tb_capabilities b) =? 0).

Definition sources (bs : list TelemetryBackend) : list nat := positions emits bs.
Definition processors (bs : list TelemetryBackend) : list nat := positions (fun b => negb (emits b)) bs.

Lemma positions_snoc P bs b :
  positions P (bs ++ [b]) = positions P bs ++ (if P b then [length bs] else []).
Proof.
  unfold positions. rewrite imap_app, filter_app, fmap_app. cbn. rewrite Nat.add_0_r.
  destruct (P b) eqn:E; [by rewrite decide_True|by rewrite decide_False by congruence].
Qed.

Lemma built_snapshot bs :
  configured_snapshot true (reset (built bs)) = sources bs /\
  configured_snapshot false (reset (built bs)) = processors bs.
Proof.
  induction bs as [|b bs [IH1 IH2]] using rev_ind; [done|].
  destruct (built_ok bs) as (Hbs & _ & _ & Hsa).
  unfold sources, processors. rewrite !positions_snoc. fold (sources bs) (processors bs). rewrite <- IH1, <- IH2.
  rewrite built_snoc. unfold add. rewrite Hsa. unfold reset, configured_snapshot. cbn [states_].
  rewrite !fmap_app, !filter_app, !fmap_app, Hbs. unfold emits. cbn.
  destruct (supported_ops (tb_capabilities b) =? 0); cbn; done.
Qed.

Lemma start_backends_calls env l r :
  (start_backends env l r).1.2 = l ≫= fun b => CallStart b :: if st_ok env b then [] else [CallStop b].
Proof.
  revert r. induction l as [|b l IH]; intros r; [done|]. cbn. specialize (IH (update_state b (set_status (st_ok env b)
    (if st_ok env b then lit "started" else lit "start failed")) (update_state b (set_status true (lit "starting")) r))).
  destruct (start_backends env l _) as [[r2 c2] d2]. cbn in *. by rewrite IH.
Qed.

(** Stopping the backends of a list in turn calls those that run. *)
Lemma stop_backends_calls ok l : forall r, NoDup (ids r) -> NoDup l ->
  (forall b, b ∈ l -> running r b <-> ok b = true) ->
  (stop_backends l r).2 = CallStop <$> filter (fun b => ok b = true) l.
Proof.
  induction l as [|b l IH]; intros r Hr Hl Hok; [done|].
  apply NoDup_cons in Hl as [Hb Hl]. cbn [stop_backends].
  pose proof (stop_backend_effect b r Hr) as E.
  assert ((stop_backend b r).2 = if ok b then [CallStop b] else []) as Hc.
  { unfold stop_backend. pose proof (Hok b ltac:(by left)) as Hrb.
    destruct (decide (b ∈ ids r)) as [Hin|Hin].
    - apply list_elem_of_fmap in Hin as (s & E1 & Hs). rewrite (state_for_spec b r s) by done.
      destruct (bs_started s) eqn:E2.
      + by rewrite (proj1 Hrb) by by exists s.
      + destruct (ok b); [|done]. destruct (proj2 Hrb eq_refl) as (s' & Hs' & Eb & E3).
        pose proof (state_for_spec b r s' Hr Hs' Eb). pose proof (state_for_spec b r s Hr Hs (eq_sym E1)). congruence.
    - rewrite state_for_None by done. destruct (ok b); [|done].
      destruct (proj2 Hrb eq_refl) as (s & Hs & <- & _). by destruct Hin; apply list_elem_of_fmap_2. }
  destruct (stop_backend b r) as [r1 c1]. cbn [fst snd] in *. subst c1.
  assert (ids r1 = ids r) as Hids.
  { unfold ids. rewrite E, <- list_fmap_compose. apply list_fmap_ext. intros i x _. cbn. unfold at_backend, halted. by repeat case_match. }
  specialize (IH r1 ltac:(by rewrite Hids) Hl).
  destruct (stop_backends l r1) as [r2 c2]. cbn [fst snd] in *. rewrite IH.
  - rewrite filter_cons. destruct (ok b) eqn:Eb; [by rewrite decide_True|by rewrite decide_False by congruence].
  - intros b' Hb'. rewrite <- (Hok b') by by right. unfold running. rewrite E.
    assert (b' <> b) as Hne by congruence. split.
    + intros (s & (x & -> & Hx)%list_elem_of_fmap & Ex & Es). exists x. unfold at_backend, halted in *. repeat case_match; cbn in *; first [congruence|by split_and!].
    + intros (s & Hs & Ex & Es). exists s. split; [|done]. apply list_elem_of_fmap. exists s. split; [|done].
      unfold at_backend. rewrite (proj2 (Nat.eqb_neq _ _)) by congruence. done.
Qed.

(** C33. Of the backends added before the start, [start_all] starts each exactly
    once, all processors before all sources and each kind in the order of its
    addition, and stops one at once when it failed to start. [stop_all] stops
    the running ones, all sources before all processors, so that by its end each
    backend has been stopped exactly once; none is left started. *)
Theorem backends_started_and_stopped_once bs env :
  let '(r1, calls1, _) := start_all env (built bs) in
  let '(r2, calls2) := stop_all r1 in
  calls1 = ((processors bs ++ sources bs) ≫= fun b => CallStart b :: if st_ok env b then [] else [CallStop b]) /\
  calls2 = CallStop <$> filter (fun b => st_ok env b = true) (sources bs ++ processors bs) /\
  starts (calls1 ++ calls2) ≡ₚ seq 0 (length bs) /\
  stops (calls1 ++ calls2) ≡ₚ seq 0 (length bs) /\
  Forall (fun s => bs_started s = false) (states_ r2) /\ started_ r2 = false.
Proof.
  destruct (built_ok bs) as (_ & Hids & Hst & _). unfold start_all. rewrite Hst. fold (reset (built bs)).
  set (r0 := reset (built bs)). set (l := configured_snapshot false r0 ++ configured_snapshot true r0).
  assert (ids r0 = seq 0 (length bs)) as Hids0 by by rewrite <- Hids, <- (reset_ids (built bs)).
  assert (l ≡ₚ seq 0 (length bs)) as Hl by (rewrite <- Hids0; apply snapshots_perm).
  assert (NoDup (ids r0)) as Hnd by (rewrite Hids0; apply NoDup_seq).
  pose proof (start_backends_effect env l r0 Hnd) as (E1 & E2 & E3).
  pose proof (start_backends_calls env l r0) as Hc1. destruct (built_snapshot bs) as [Hsrc Hprc]. fold r0 in Hsrc, Hprc.
  destruct (start_backends env l r0) as [[r1 calls1] d1]. cbn [fst snd] in *.
  unfold stop_all. rewrite E1. cbn [started_ remap set_states r0 reset negb].
  set (l' := configured_snapshot true (remap (marked (start_outcome env) l) r0) ++ configured_snapshot false (remap (marked (start_outcome env) l) r0)).
  assert (l' ≡ₚ seq 0 (length bs)) as Hl'.
  { unfold l'. rewrite !snapshot_remap, Permutation_app_comm. apply Hl. }
  assert (NoDup l') as Hnd' by (rewrite Hl'; apply NoDup_seq).
  assert (l' = sources bs ++ processors bs) as Hord by (unfold l'; by rewrite !snapshot_remap, Hsrc, Hprc). clearbody l'.
  assert (NoDup (ids (remap (marked (start_outcome env) l) r0))) as Hnd1
    by (rewrite remap_ids by apply marked_backend; done).
  pose proof (stop_backends_effect l' _ Hnd1 Hnd') as (F1 & F2 & F3 & F4).
  pose proof (fun H => stop_backends_calls (st_ok env) l' _ Hnd1 Hnd' H) as Hc2.
  change (stop_backends l' (set_states _ r0)) with (stop_backends l' (remap (marked (start_outcome env) l) r0)).
  destruct (stop_backends l' (remap (marked (start_outcome env) l) r0)) as [r2 calls2]. cbn [fst snd states_ started_] in *.
  assert (forall b, running (remap (marked (start_outcome env) l) r0) b <-> b ∈ seq 0 (length bs) /\ st_ok env b = true) as Hrun.
  { intros b. unfold running, remap, set_states. cbn [states_]. split.
    - intros (s & (x & -> & Hx)%list_elem_of_fmap & Eb & Es). rewrite marked_backend in Eb. subst b.
      assert (bs_backend x ∈ seq 0 (length bs)) as Hin by (rewrite <- Hids0; by apply list_elem_of_fmap_2). split; [done|].
      unfold marked in Es. rewrite decide_True in Es by by rewrite Hl. done.
    - intros [Hb Hok]. rewrite <- Hids0 in Hb. apply list_elem_of_fmap in Hb as (x & Eb & Hx).
      exists (marked (start_outcome env) l x). split; [by apply list_elem_of_fmap_2|]. rewrite marked_backend. split; [done|].
      unfold marked. rewrite decide_True; [cbn; by rewrite <- Eb|]. rewrite Hl, <- Hids0. by apply list_elem_of_fmap_2. }
  split_and!.
  - rewrite Hc1. unfold l. by rewrite Hsrc, Hprc.
  - rewrite <- Hord. apply Hc2. intros b Hb. rewrite Hrun, <- Hl'. tauto.
  - unfold starts in *. by rewrite omap_app, E2, F2, app_nil_r.
  - unfold stops in *. rewrite omap_app, E3. apply NoDup_Permutation.
    + apply NoDup_app. split_and!; [|intros b [Hb _]%list_elem_of_filter; rewrite F3, Hrun; intros (_ & _ & H); congruence|done].
      apply NoDup_filter. rewrite Hl. apply NoDup_seq.
    + apply NoDup_seq.
    + intros b. rewrite elem_of_app, list_elem_of_filter, F3, Hrun, Hl, Hl'. destruct (st_ok env b); naive_solver.
  - rewrite F1. apply Forall_fmap, Forall_forall. intros s Hs. cbn.
    rewrite decide_True; [unfold halted; by destruct (bs_started s) eqn:E|].
    rewrite Hl', <- Hids0, <- (remap_ids (marked (start_outcome env) l)) by apply marked_backend.
    by apply list_elem_of_fmap_2.
  - done.
Qed.

(** ** Events while backends start *)

(** The kind of every backend of a list. *)
Definition all_kind (source : bool) (l : list nat) (r : TelemetryRegistry) : Prop :=
  forall s, s ∈ states_ r -> bs_backend s ∈ l -> is_source s = source.

Definition sources_down (r : TelemetryRegistry) : Prop :=
  forall s, s ∈ states_ r -> is_source s = true -> bs_started s = false.

Lemma state_for_in b r s : state_for b r = Some s -> s ∈ states_ r.
Proof. unfold state_for. intros H. by apply find_some in H as [H%list_elem_of_In _]. Qed.

Lemma events_dropped l r : sources_down r -> on_events l r = [].
Proof.
  intros Hd. unfold on_events. induction l as [|[b e] l IH]; [done|]. cbn. unfold on_event at 1.
  destruct (state_for b r) as [s|] eqn:E; [|done].
  destruct (is_source s) eqn:Es; [|by rewrite orb_true_r].
  rewrite (Hd s (state_for_in _ _ _ E) Es). done.
Qed.

Lemma update_remap b f r : NoDup (ids r) -> update_state b f r = remap (at_backend b f) r.
Proof. intros H. unfold update_state, remap, set_states. by rewrite update_first_remap. Qed.

Lemma set_status_remap_ids b x y r : ids (remap (at_backend b (set_status x y)) r) = ids r.
Proof. apply remap_ids. intros s. unfold at_backend. by case_match. Qed.

Lemma remap_kind b x y k l r : all_kind k l r -> all_kind k l (remap (at_backend b (set_status x y)) r).
Proof.
  intros H s (s0 & -> & Hs)%list_elem_of_fmap. unfold at_backend. case_match; cbn; by apply H.
Qed.

Lemma processor_down b x y r : all_kind false [b] r -> sources_down r -> sources_down (remap (at_backend b (set_status x y)) r).
Proof.
  intros Hk Hd s (s0 & -> & Hs)%list_elem_of_fmap. unfold at_backend.
  destruct (Nat.eqb_spec (bs_backend s0) b) as [E|]; [|by apply Hd]. cbn. intros H.
  specialize (Hk s0 Hs). rewrite E in Hk. rewrite Hk in H; [done|by left].
Qed.

Lemma source_same_processors b x y r : all_kind true [b] r ->
  active_processor_snapshot (remap (at_backend b (set_status x y)) r) = active_processor_snapshot r.
Proof.
  unfold all_kind, active_processor_snapshot, remap, set_states. cbn [states_].
  induction (states_ r) as [|s l IH]; [done|]. intros Hk. cbn [fmap list_fmap]. rewrite !filter_cons.
  assert (bs_backend <$> filter (fun s => negb (is_source s) && bs_started s = true) (at_backend b (set_status x y) <$> l) =
    bs_backend <$> filter (fun s => negb (is_source s) && bs_started s = true) l) as IH'
    by (apply IH; intros s' Hs'; apply Hk; by right).
  destruct (Nat.eqb_spec (bs_backend s) b) as [E|E].
  - assert (at_backend b (set_status x y) s = set_status x y s) as ->
      by by unfold at_backend; rewrite (proj2 (Nat.eqb_eq _ _) E).
    assert (is_source s = true) as Es by (apply Hk; [by left|rewrite E; by left]).
    cbn [is_source set_status]. rewrite Es. cbn. by rewrite !decide_False by done.
  - assert (at_backend b (set_status x y) s = s) as ->
      by by unfold at_backend; rewrite (proj2 (Nat.eqb_neq _ _) E).
    destruct (decide (negb (is_source s) && bs_started s = true)); cbn; by rewrite IH'.
Qed.

Lemma processors_drain_nothing env l : forall r, NoDup (ids r) -> all_kind false l r -> sources_down r ->
  (start_backends env l r).2 = [] /\ sources_down (start_backends env l r).1.1.
Proof.
  induction l as [|b l IH]; intros r Hr Hk Hd; [done|]. cbn [start_backends]. unfold start_backend.
  assert (all_kind false [b] r) as Hkb by (intros s Hs Hin%list_elem_of_singleton; apply Hk; [done|rewrite Hin; by left]).
  rewrite !update_remap by (rewrite ?update_remap, ?set_status_remap_ids by done; done).
  rewrite events_dropped by by apply processor_down.
  match goal with |- context [start_backends env l ?x] => set (r2 := x) end.
  assert (NoDup (ids r2)) as H2 by (unfold r2; rewrite !set_status_remap_ids; done).
  assert (all_kind false l r2) as Hk2 by (apply remap_kind, remap_kind; intros s Hs Hin; apply Hk; [done|by right]).
  assert (sources_down r2) as Hd2 by (apply processor_down; [by apply remap_kind|by apply processor_down]).
  destruct (IH r2 H2 Hk2 Hd2) as [E1 E2]. by destruct (start_backends env l r2) as [[r3 c3] d3].
Qed.

Lemma on_event_chained b e r e' : on_event b e r = Some e' ->
  e' = chained (backends_ r) (active_processor_snapshot r) e.
Proof. unfold on_event. repeat case_match; intros [= <-]; done. Qed.

Lemma sources_see_processors env l : forall r, NoDup (ids r) -> all_kind true l r ->
  active_processor_snapshot (start_backends env l r).1.1 = active_processor_snapshot r /\
  Forall (fun e' => exists e, e' = chained (backends_ r) (active_processor_snapshot r) e) (start_backends env l r).2.
Proof.
  induction l as [|b l IH]; intros r Hr Hk; [done|]. cbn [start_backends]. unfold start_backend.
  assert (all_kind true [b] r) as Hkb by (intros s Hs Hin%list_elem_of_singleton; apply Hk; [done|rewrite Hin; by left]).
  rewrite !update_remap by (rewrite ?update_remap, ?set_status_remap_ids by done; done).
  match goal with |- context [start_backends env l ?x] => set (r2 := x) end.
  set (r1 := remap (at_backend b (set_status true (lit "starting"))) r).
  assert (NoDup (ids r2)) as H2 by (unfold r2; rewrite !set_status_remap_ids; done).
  assert (all_kind true l r2) as Hk2 by (apply remap_kind, remap_kind; intros s Hs Hin; apply Hk; [done|by right]).
  assert (active_processor_snapshot r1 = active_processor_snapshot r) as Ea1 by by apply source_same_processors.
  assert (active_processor_snapshot r2 = active_processor_snapshot r) as Ea2.
  { rewrite <- Ea1. apply source_same_processors. by apply remap_kind. }
  destruct (IH r2 H2 Hk2) as [E1 E2]. rewrite Ea2 in E1, E2. change (backends_ r2) with (backends_ r) in E2.
  destruct (start_backends env l r2) as [[r3 c3] d3]. cbn [fst snd] in *. split; [done|].
  apply Forall_app. split; [|done]. apply Forall_forall. intros e' (x & Hx & He)%list_elem_of_omap.
  apply on_event_chained in He. rewrite Ea1 in He. by exists x.2.
Qed.

Lemma start_backends_app env l1 l2 r :
  start_backends env (l1 ++ l2) r =
  let '(r1, c1, d1) := start_backends env l1 r in
  let '(r2, c2, d2) := start_backends env l2 r1 in (r2, c1 ++ c2, d1 ++ d2).
Proof.
  revert r. induction l1 as [|b l1 IH]; intros r; cbn [app start_backends].
  - by destruct (start_backends env l2 r) as [[? ?] ?].
  - destruct (start_backend env b r) as [[r1 c1] d1]. rewrite IH.
    destruct (start_backends env l1 r1) as [[r2 c2] d2]. destruct (start_backends env l2 r2) as [[r3 c3] d3].
    by rewrite !app_assoc.
Qed.

Lemma configured_kind k r : NoDup (ids r) -> all_kind k (configured_snapshot k r) r.
Proof.
  intros Hr s Hs (x & E & [Hk Hx]%list_elem_of_filter)%list_elem_of_fmap.
  pose proof (state_for_spec (bs_backend s) r s Hr Hs eq_refl) as H1.
  pose proof (state_for_spec (bs_backend s) r x Hr Hx (eq_sym E)) as H2. congruence.
Qed.

(** No event that a backend delivers while the backends start misses a
    processor: what reaches the drain went through all the processors that are
    active once the start is over. *)
Theorem starting_events_see_processors bs env :
  let '(r1, _, drained) := start_all env (built bs) in
  Forall (fun e' => exists e, e' = chained bs (active_processor_snapshot r1) e) drained.
Proof.
  destruct (built_ok bs) as (Hbs & Hids & Hst & _). unfold start_all. rewrite Hst. fold (reset (built bs)).
  set (r0 := reset (built bs)).
  assert (NoDup (ids r0)) as Hnd by (unfold r0; rewrite reset_ids, Hids; apply NoDup_seq).
  assert (sources_down r0) as Hd by (by intros s (x & -> & _)%list_elem_of_fmap).
  rewrite start_backends_app.
  pose proof (start_backends_effect env (configured_snapshot false r0) r0 Hnd) as (E & _ & _).
  destruct (processors_drain_nothing env _ r0 Hnd (configured_kind false r0 Hnd) Hd) as [Ed _].
  destruct (start_backends env (configured_snapshot false r0) r0) as [[r1 c1] d1]. cbn [fst snd] in E, Ed. subst d1 r1.
  set (r1 := remap _ r0).
  assert (NoDup (ids r1)) as Hnd1 by (unfold r1; rewrite remap_ids by apply marked_backend; done).
  assert (all_kind true (configured_snapshot true r0) r1) as Hk.
  { intros s (x & -> & Hx)%list_elem_of_fmap. rewrite marked_backend.
    replace (is_source (marked (start_outcome env) (configured_snapshot false r0) x)) with (is_source x) by (unfold marked; by case_decide).
    by apply configured_kind. }
  destruct (sources_see_processors env _ r1 Hnd1 Hk) as [Ea Ef].
  destruct (start_backends env (configured_snapshot true r0) r1) as [[r2 c2] d2]. cbn [fst snd app] in *.
  rewrite Ea. change (backends_ r1) with (backends_ (built bs)) in Ef. by rewrite Hbs in Ef.
Qed.

(** ** Policies *)

Definition pattern_member (p : str) : member := (lit "path_pattern", JStr p).
Definition watch_member (f : str) : member := (lit "soft_watch", JStr f).

Lemma find_member key ms : ms <> [] -> Forall writable ms ->
  extract_str_checked (join_with (lit ",") (member_json <$> ms)) key = first_member key ms.
Proof.
  intros Hne Hms. rewrite <- (app_nil_r (join_with _ _)).
  rewrite (scan_members key ms) by (done || by apply members_written). by destruct (first_member key ms).
Qed.

Lemma brace_free_member m : ("}"%char ∉ m.1) -> ("}"%char ∉ written m.2) -> "}"%char ∉ member_json m.
Proof.
  intros H1 H2. unfold member_json, quoted. change (lit ":") with [":"%char]. rewrite !elem_of_app, elem_of_cons, elem_of_app, !list_elem_of_singleton.
  intros [[H|[H|H]]|[H|H]]; try discriminate; try tauto.
Qed.

(** One rule whose object is [pre], then the pattern and what follows it. *)
Lemma one_rule pre obj :
  find_str (quoted (lit "path_pattern")) (pre ++ obj ++ lit "}]}") = Some (obj ++ lit "}]}") ->
  "}"%char ∉ obj -> parse_rules_from (S (length (pre ++ obj ++ lit "}]}"))) (pre ++ obj ++ lit "}]}") = Some [parse_rule obj].
Proof.
  intros Hf Hb. cbn [parse_rules_from]. rewrite Hf. cbn [mbind option_bind].
  change (lit "}]}") with ("}"%char :: lit "]}") in *. rewrite find_char_app by done. cbn [mbind option_bind].
  rewrite take_app_length, drop_past.
  destruct (length (pre ++ obj ++ "}"%char :: lit "]}")) as [|n] eqn:E; [rewrite !length_app in E; simpl in E; lia|].
  cbn [parse_rules_from]. done.
Qed.

Definition rule_head : str := lit "{" ++ quoted (lit "rules") ++ lit ":[{".

(** The members of a policy rule are read in one order only: with the
    pattern first, a rule for all operations watches them all; with the
    operations first, the same rule is accepted and watches nothing. *)
Theorem rule_order_matters p :
  "}"%char ∉ json_string p ->
  fst <$> parse_policy_rules (rule_head ++ (member_json (pattern_member p) ++ lit "," ++ member_json (watch_member (lit "all"))) ++ lit "}]}")
    = Some [mkParsedRule p (soft_watch_mask_from_flags (lit "all")) 0xFF] /\
  fst <$> parse_policy_rules ((rule_head ++ member_json (watch_member (lit "all")) ++ lit ",") ++ member_json (pattern_member p) ++ lit "}]}")
    = Some [mkParsedRule p 0 0].
Proof.
  intros Hp.
  assert ("}"%char ∉ member_json (pattern_member p)) as Hb1 by (apply brace_free_member; [by vm_compute; set_solver|done]).
  assert ("}"%char ∉ member_json (watch_member (lit "all"))) as Hb2 by (vm_compute; set_solver).
  assert (forall f, writable (watch_member f)) as Hw1 by (split; [done|apply str_text]).
  assert (writable (pattern_member p)) as Hw2 by (split; [done|apply str_text]).
  unfold parse_policy_rules. split; rewrite one_rule; try done.
  - cbn [fst fmap option_fmap option_map]. unfold parse_rule, extract_str.
    pose proof (fun key => find_member key [pattern_member p; watch_member (lit "all")] ltac:(done)
      (Forall_cons_2 _ _ _ Hw2 (Forall_cons_2 _ _ _ (Hw1 _) (Forall_nil_2 _)))) as E.
    cbn [fmap list_fmap join_with] in E. rewrite app_nil_r in E. by rewrite !E.
  - rewrite !elem_of_app. intros [H|[H|H]]; [by apply Hb1|by vm_compute in H; apply list_elem_of_singleton in H|by apply Hb2].
  - cbn [fst fmap option_fmap option_map]. unfold parse_rule, extract_str.
    pose proof (fun key => find_member key [pattern_member p] ltac:(done)
      (Forall_cons_2 _ _ _ Hw2 (Forall_nil_2 _))) as E.
    cbn [fmap list_fmap join_with] in E. rewrite app_nil_r in E. by rewrite !E.
Qed.

Lemma rule_order_matters_witness :
  fst <$> parse_policy_rules ((rule_head ++ member_json (watch_member (lit "all")) ++ lit ",") ++ member_json (pattern_member (lit "src/**")) ++ lit "}]}")
    = Some [mkParsedRule (lit "src/**") 0 0].
Proof. apply (rule_order_matters (lit "src/**")). vm_compute. set_solver. Defined.

Lemma verdict_never_weakened_witness :
  let deny := mkBackend (lit "policy") (mkCaps 0 true false false) (fun e => Some (set_verdict Deny e)) in
  let allow := mkBackend (lit "enrich") (mkCaps 0 false false false) (fun e => Some (set_verdict Allow e)) in
  let source := mkBackend (lit "fuse") (mkCaps 1 false false false) (fun e => Some e) in
  let r := (start_all (mkStart (fun _ => true) (fun _ => [])) (built [deny; allow; source])).1.1 in
  let ev := mkEvent 0 0 0 0 OpRead Allow 0 0 0 [] 0 0 0 0 0 [] [] in
  exists ev', on_event 2 ev r = Some ev' /\ weaker Deny (ev_verdict ev').
Proof.
  intros deny allow source r ev. eexists. split; [reflexivity|].
  destruct (verdict_never_weakened 2 ev r _ eq_refl) as (_ & H & _).
  exact (H [] 0%nat [1%nat] deny (set_verdict Deny ev) eq_refl eq_refl eq_refl).
Defined.
