(* ===== verification/AgentState.v ===== *)
(** Agent state records (cas/agent_state.h, cas/agent_state.cpp): the record,
    its text form, and writing it to and reading it from the object store. *)

From S2P Require Import Prelude Hashes ObjectStore KvCodec.

Inductive AgentStateKind : Type :=
| Session | Execution | ToolCall | RuntimeResource | ExternalHandle | FsLink | RuntimeSnapshot.

#[export] Instance AgentStateKind_eq_dec : EqDecision AgentStateKind.
Proof. solve_decision. Defined.

(** [state_id] is derived from the blob's hash and not part of its text. *)
Record AgentStateRecord : Type := mkAS {
  as_record_version : N;
  state_id : str;
  parent_state_id : str;
  snapshot_base_state_id : str;
  as_branch : str;
  as_fs_commit : Hash;
  as_union_state_id : str;
  as_runtime_id : str;
  agent_id : str;
  sequence : N;
  kind : AgentStateKind;
  payload_schema : str;
  payload_inline : str;
  payload_ref : str;
  dependency_hashes : list Hash;
  as_timestamp_ns : N;
  boundary : bool
}.

Definition fresh_agent_state : AgentStateRecord :=
  mkAS 1 [] [] [] (lit "main") ZERO_HASH [] [] [] 0 Session [] [] [] [] 0 false.

(** Assignments to one member. *)
Definition set_record_version x '(mkAS _ b c d e f g h i j k l m n o p q) := mkAS x b c d e f g h i j k l m n o p q.
Definition set_state_id x '(mkAS a _ c d e f g h i j k l m n o p q) := mkAS a x c d e f g h i j k l m n o p q.
Definition set_parent x '(mkAS a b _ d e f g h i j k l m n o p q) := mkAS a b x d e f g h i j k l m n o p q.
Definition set_base x '(mkAS a b c _ e f g h i j k l m n o p q) := mkAS a b c x e f g h i j k l m n o p q.
Definition set_branch x '(mkAS a b c d _ f g h i j k l m n o p q) := mkAS a b c d x f g h i j k l m n o p q.
Definition set_fs_commit x '(mkAS a b c d e _ g h i j k l m n o p q) := mkAS a b c d e x g h i j k l m n o p q.
Definition set_union x '(mkAS a b c d e f _ h i j k l m n o p q) := mkAS a b c d e f x h i j k l m n o p q.
Definition set_runtime x '(mkAS a b c d e f g _ i j k l m n o p q) := mkAS a b c d e f g x i j k l m n o p q.
Definition set_agent x '(mkAS a b c d e f g h _ j k l m n o p q) := mkAS a b c d e f g h x j k l m n o p q.
Definition set_sequence x '(mkAS a b c d e f g h i _ k l m n o p q) := mkAS a b c d e f g h i x k l m n o p q.
Definition set_kind x '(mkAS a b c d e f g h i j _ l m n o p q) := mkAS a b c d e f g h i j x l m n o p q.
Definition set_schema x '(mkAS a b c d e f g h i j k _ m n o p q) := mkAS a b c d e f g h i j k x m n o p q.
Definition set_inline x '(mkAS a b c d e f g h i j k l _ n o p q) := mkAS a b c d e f g h i j k l x n o p q.
Definition set_ref x '(mkAS a b c d e f g h i j k l m _ o p q) := mkAS a b c d e f g h i j k l m x o p q.
Definition set_deps x '(mkAS a b c d e f g h i j k l m n _ p q) := mkAS a b c d e f g h i j k l m n x p q.
Definition set_timestamp x '(mkAS a b c d e f g h i j k l m n o _ q) := mkAS a b c d e f g h i j k l m n o x q.
Definition set_boundary x '(mkAS a b c d e f g h i j k l m n o p _) := mkAS a b c d e f g h i j k l m n o p x.

(** ** Kinds *)

Definition parse_agent_state_kind (text : str) : option AgentStateKind :=
  if decide (text = lit "session") then Some Session
  else if decide (text = lit "execution") then Some Execution
  else if decide (text = lit "tool_call") then Some ToolCall
  else if decide (text = lit "runtime_resource") then Some RuntimeResource
  else if decide (text = lit "external_handle") then Some ExternalHandle
  else if decide (text = lit "fs_link") then Some FsLink
  else if decide (text = lit "runtime_snapshot") then Some RuntimeSnapshot
  else None.

Definition agent_state_kind_label (k : AgentStateKind) : str :=
  match k with
  | Session => lit "session"
  | Execution => lit "execution"
  | ToolCall => lit "tool_call"
  | RuntimeResource => lit "runtime_resource"
  | ExternalHandle => lit "external_handle"
  | FsLink => lit "fs_link"
  | RuntimeSnapshot => lit "runtime_snapshot"
  end.

(** ** Reading a field *)

Definition is_valid_state_id (s : str) : bool :=
  match s with [] => true | _ => is_hex_hash s end.

Definition assign_state_id_field (value : str) (field_name : string) : result str :=
  let* decoded := percent_decode value in
  if is_valid_state_id decoded then Ok decoded
  else Err (lit "invalid " ++ lit field_name ++ lit " hash").

Definition append_dependency_hash (st : AgentStateRecord) (value : str) : result AgentStateRecord :=
  match hex_to_hash_strict value with
  | Some d =>
      if decide (d = ZERO_HASH) then Err (lit "invalid dependency_hash")
      else Ok (set_deps (dependency_hashes st ++ [d]) st)
  | None => Err (lit "invalid dependency_hash")
  end.

(** Unknown keys are skipped. *)
Definition assign_field (st : AgentStateRecord) (key value : str) : result AgentStateRecord :=
  if decide (key = lit "record_version") then
    let* v := parse_u32 value in Ok (set_record_version v st)
  else if decide (key = lit "parent_state_id") then
    let* v := assign_state_id_field value "parent_state_id" in Ok (set_parent v st)
  else if decide (key = lit "snapshot_base_state_id") then
    let* v := assign_state_id_field value "snapshot_base_state_id" in Ok (set_base v st)
  else if decide (key = lit "branch") then
    let* v := percent_decode value in Ok (set_branch v st)
  else if decide (key = lit "fs_commit") then
    match hex_to_hash_strict value with
    | Some h => Ok (set_fs_commit h st)
    | None => Err (lit "invalid fs_commit hash")
    end
  else if decide (key = lit "union_state_id") then
    let* v := assign_state_id_field value "union_state_id" in Ok (set_union v st)
  else if decide (key = lit "runtime_id") then
    let* v := percent_decode value in Ok (set_runtime v st)
  else if decide (key = lit "agent_id") then
    let* v := percent_decode value in Ok (set_agent v st)
  else if decide (key = lit "sequence") then
    let* v := parse_u64 value in Ok (set_sequence v st)
  else if decide (key = lit "kind") then
    match parse_agent_state_kind value with
    | Some k => Ok (set_kind k st)
    | None => Err (lit "invalid agent state kind")
    end
  else if decide (key = lit "payload_schema") then
    let* v := percent_decode value in Ok (set_schema v st)
  else if decide (key = lit "payload_inline") then
    let* v := percent_decode value in Ok (set_inline v st)
  else if decide (key = lit "payload_ref") then
    let* v := assign_state_id_field value "payload_ref" in Ok (set_ref v st)
  else if decide (key = lit "dependency_hash") then append_dependency_hash st value
  else if decide (key = lit "timestamp_ns") then
    let* v := parse_u64 value in Ok (set_timestamp v st)
  else if decide (key = lit "boundary") then
    if decide (value = lit "1") then Ok (set_boundary true st)
    else if decide (value = lit "0") then Ok (set_boundary false st)
    else Err (lit "boundary flag must be 0 or 1")
  else Ok st.

(** ** The text form *)

Definition agent_state_header : str := lit "agentvfs.agent_state.v1" ++ [newline].

Definition dep_field (d : Hash) : str * str := (lit "dependency_hash", hash_to_hex d).

(** The [key=value] lines in the order they are written. *)
Definition agent_state_fields (r : AgentStateRecord) : list (str * str) :=
  [(lit "record_version", to_string (as_record_version r));
   (lit "parent_state_id", percent_encode (parent_state_id r));
   (lit "snapshot_base_state_id", percent_encode (snapshot_base_state_id r));
   (lit "branch", percent_encode (as_branch r));
   (lit "fs_commit", hash_to_hex (as_fs_commit r));
   (lit "union_state_id", percent_encode (as_union_state_id r));
   (lit "runtime_id", percent_encode (as_runtime_id r));
   (lit "agent_id", percent_encode (agent_id r));
   (lit "sequence", to_string (sequence r));
   (lit "kind", agent_state_kind_label (kind r));
   (lit "payload_schema", percent_encode (payload_schema r));
   (lit "payload_inline", percent_encode (payload_inline r));
   (lit "payload_ref", percent_encode (payload_ref r))] ++
  (dep_field <$> dependency_hashes r) ++
  [(lit "timestamp_ns", to_string (as_timestamp_ns r));
   (lit "boundary", if boundary r then lit "1" else lit "0")].

Definition serialize_agent_state_record (r : AgentStateRecord) : bytes :=
  agent_state_header ++ mjoin (kv_line <$> agent_state_fields r).

Definition deserialize_agent_state_record (body : bytes) : result AgentStateRecord :=
  read_record "agent state" agent_state_header assign_field fresh_agent_state body.

(** ** The store *)

(** [error = store.last_error()], with the caller's text when it is empty. *)
Definition store_error (st : ObjectStore) (what : string) : str :=
  match last_error_ st with [] => lit what | e => e end.

(** [sync] is the barrier's environment when the caller asks for one. The
    record comes back changed only on success. *)
Definition write_agent_state_record (blake3 : bytes -> Hash) (st : ObjectStore)
    (state : AgentStateRecord) (deps : list Hash) (sync : option FsyncEnv) (env : WriteEnv) :
    ObjectStore * AgentStateRecord * result Hash :=
  if existsb (fun d => bool_decide (d = ZERO_HASH)) deps
  then (st, state, Err (lit "agent state dependency hash is ZERO_HASH"))
  else
    let persisted := set_deps deps state in
    let body := serialize_agent_state_record persisted in
    match deserialize_agent_state_record body with
    | Err e => (st, state, Err (lit "invalid agent state record: " ++ e))
    | Ok _ =>
        let '(st1, h) := write_blob blake3 body env st in
        if decide (h = ZERO_HASH)
        then (st1, state, Err (store_error st1 "object store write_blob failed"))
        else
          let '(st2, r) :=
            match sync with
            | Some fs => fsync_pending fs (deps ++ [h]) st1
            | None => (st1, Ok ())
            end in
          match r with
          | Err e => (st2, state, Err e)
          | Ok _ => (st2, set_state_id (hash_to_hex h) (set_deps deps state), Ok h)
          end
    end.

Definition read_agent_state_record (st : ObjectStore) (io_ok : bool) (id : Hash) :
    result AgentStateRecord :=
  match read_blob st io_ok id with
  | None => Err (store_error st "object store read_blob failed")
  | Some body =>
      let* out := deserialize_agent_state_record body in Ok (set_state_id (hash_to_hex id) out)
  end.

(** ** Lemmas *)

(** The members fit the C++ types that hold them. *)
Record fits (r : AgentStateRecord) : Prop := {
  fits_version : as_record_version r < 2 ^ 32;
  fits_sequence : sequence r < 2 ^ 64;
  fits_timestamp : as_timestamp_ns r < 2 ^ 64
}.

(** What the reader accepts of a record. *)
Definition well_formed (r : AgentStateRecord) : bool :=
  is_valid_state_id (parent_state_id r) && is_valid_state_id (snapshot_base_state_id r) &&
  is_valid_state_id (as_union_state_id r) && is_valid_state_id (payload_ref r) &&
  negb (existsb (fun d => bool_decide (d = ZERO_HASH)) (dependency_hashes r)).

Lemma kind_label_parse k : parse_agent_state_kind (agent_state_kind_label k) = Some k.
Proof. by destruct k. Qed.

Lemma kind_label_unique s k : parse_agent_state_kind s = Some k -> s = agent_state_kind_label k.
Proof.
  unfold parse_agent_state_kind. intros H.
  repeat (case_decide as Hd; [injection H as <-; exact Hd|clear Hd]). discriminate.
Qed.

Lemma assign_id_encoded s name :
  assign_state_id_field (percent_encode s) name =
  if is_valid_state_id s then Ok s else Err (lit "invalid " ++ lit name ++ lit " hash").
Proof. unfold assign_state_id_field. by rewrite percent_roundtrip. Qed.

Lemma append_dep_encoded st d :
  append_dependency_hash st (hash_to_hex d) =
  if decide (d = ZERO_HASH) then Err (lit "invalid dependency_hash")
  else Ok (set_deps (dependency_hashes st ++ [d]) st).
Proof. unfold append_dependency_hash. by rewrite hex_to_hash_strict_hex. Qed.

Lemma assign_deps ds st :
  assign_all assign_field (dep_field <$> ds) st =
  if existsb (fun d => bool_decide (d = ZERO_HASH)) ds then Err (lit "invalid dependency_hash")
  else Ok (set_deps (dependency_hashes st ++ ds) st).
Proof.
  revert st. induction ds as [|d ds IH]; intros st; cbn [fmap list_fmap assign_all existsb].
  { rewrite app_nil_r. by destruct st. }
  change (assign_field st (dep_field d).1 (dep_field d).2)
    with (append_dependency_hash st (hash_to_hex d)).
  unfold dep_field at 1. cbv beta iota.
  change (assign_field st (lit "dependency_hash") (hash_to_hex d))
    with (append_dependency_hash st (hash_to_hex d)).
  rewrite append_dep_encoded. case_decide as Hd; case_bool_decide; simplify_eq; [done|].
  simpl. rewrite IH. destruct (existsb _ ds); [done|]. destruct st; simpl. by rewrite <- app_assoc.
Qed.

Lemma assign_agent_fields r :
  fits r ->
  if well_formed r
  then assign_all assign_field (agent_state_fields r) fresh_agent_state = Ok (set_state_id [] r)
  else is_ok (assign_all assign_field (agent_state_fields r) fresh_agent_state) = false.
Proof.
  intros [Hv Hs Ht]. unfold agent_state_fields, well_formed. cbn [app].
  assign_literal. rewrite parse_u32_to_string by done. cbn [rbind].
  assign_literal. rewrite assign_id_encoded.
  destruct (is_valid_state_id (parent_state_id r)); [|reflexivity]. cbn [rbind andb].
  assign_literal. rewrite assign_id_encoded.
  destruct (is_valid_state_id (snapshot_base_state_id r)); [|reflexivity]. cbn [rbind andb].
  assign_literal. rewrite percent_roundtrip. cbn [rbind].
  assign_literal. rewrite hex_to_hash_strict_hex. cbn [rbind].
  assign_literal. rewrite assign_id_encoded.
  destruct (is_valid_state_id (as_union_state_id r)); [|reflexivity]. cbn [rbind andb].
  do 2 (assign_literal; rewrite percent_roundtrip; cbn [rbind]).
  assign_literal. rewrite parse_u64_to_string by done. cbn [rbind].
  assign_literal. rewrite kind_label_parse. cbn [rbind].
  do 2 (assign_literal; rewrite percent_roundtrip; cbn [rbind]).
  assign_literal. rewrite assign_id_encoded.
  destruct (is_valid_state_id (payload_ref r)); [|reflexivity]. cbn [rbind andb].
  rewrite assign_all_app, assign_deps.
  destruct (existsb _ (dependency_hashes r)); [reflexivity|]. cbn [rbind negb].
  assign_literal. rewrite parse_u64_to_string by done. cbn [rbind].
  assign_literal. destruct r as [a b c d e f g h i j k l m n o p []]; reflexivity.
Qed.

Lemma label_clean k : newline ∉ agent_state_kind_label k.
Proof. by destruct k; apply find_char_None. Qed.

Lemma flag_clean (b : bool) : newline ∉ (if b then lit "1" else lit "0").
Proof. by destruct b; apply find_char_None. Qed.

Lemma agent_fields_ok r : Forall field_ok (agent_state_fields r).
Proof.
  unfold agent_state_fields. rewrite !Forall_app.
  split; [|split].
  - repeat (constructor; [apply word_field_ok; [done|auto using label_clean with ctx]|]);
      constructor.
  - apply Forall_fmap, Forall_true. intros d. apply word_field_ok; [done|apply hash_to_hex_clean].
  - repeat (constructor; [apply word_field_ok; [done|auto using flag_clean with ctx]|]);
      constructor.
Qed.

Lemma deserialize_serialize_agent r :
  fits r ->
  if well_formed r
  then deserialize_agent_state_record (serialize_agent_state_record r) = Ok (set_state_id [] r)
  else is_ok (deserialize_agent_state_record (serialize_agent_state_record r)) = false.
Proof.
  intros Hf. unfold deserialize_agent_state_record, serialize_agent_state_record.
  rewrite read_record_fields; [by apply assign_agent_fields|done|apply agent_fields_ok].
Qed.

Lemma write_agent_state_inv blake3 st state deps sync env st' state' h :
  fits state ->
  write_agent_state_record blake3 st state deps sync env = (st', state', Ok h) ->
  let persisted := set_deps deps state in
  well_formed persisted = true /\ state' = set_state_id (hash_to_hex h) persisted /\
  h <> ZERO_HASH /\
  exists st1, write_blob blake3 (serialize_agent_state_record persisted) env st = (st1, h) /\
    match sync with
    | Some fs => fsync_pending fs (deps ++ [h]) st1 = (st', Ok ())
    | None => st' = st1
    end.
Proof.
  intros Hf. unfold write_agent_state_record. destruct (existsb _ deps); [done|].
  assert (fits (set_deps deps state)) as Hf' by (by destruct state, Hf; split).
  pose proof (deserialize_serialize_agent _ Hf') as Hd.
  destruct (well_formed (set_deps deps state)).
  2:{ destruct (deserialize_agent_state_record _); [done|]. intros [=]. }
  rewrite Hd. destruct (write_blob _ _ _ _) as [st1 h1] eqn:Ew. case_decide as Hz; [done|].
  destruct sync as [fs|].
  - destruct (fsync_pending fs (deps ++ [h1]) st1) as [st2 [[]|e]] eqn:Es; [|done].
    intros [= <- <- <-]. eauto 10.
  - intros [= <- <- <-]. eauto 10.
Qed.

Lemma write_agent_state_fails blake3 st state deps sync env st' state' msg :
  write_agent_state_record blake3 st state deps sync env = (st', state', Err msg) -> state' = state.
Proof.
  unfold write_agent_state_record. destruct (existsb _ deps); [by intros [=]|].
  destruct (deserialize_agent_state_record _); [|by intros [=]].
  destruct (write_blob _ _ _ _) as [st1 h1]. case_decide; [by intros [=]|].
  destruct sync as [fs|]; [|by intros [=]].
  destruct (fsync_pending fs _ st1) as [st2 [u|e]]; by intros [=].
Qed.

Definition agent_state_keys : list str :=
  lit <$> ["record_version"; "parent_state_id"; "snapshot_base_state_id"; "branch"; "fs_commit";
    "union_state_id"; "runtime_id"; "agent_id"; "sequence"; "kind"; "payload_schema";
    "payload_inline"; "payload_ref"; "dependency_hash"; "timestamp_ns"; "boundary"]%string.

Lemma assign_field_unknown st key value :
  (key ∉ agent_state_keys) -> assign_field st key value = Ok st.
Proof.
  intros H. unfold assign_field.
  repeat (rewrite decide_False; [|intros ->; apply H, list_elem_of_In; simpl; tauto]). done.
Qed.

Lemma assign_all_unknown extra st :
  Forall (fun x => x.1 ∉ agent_state_keys) extra -> assign_all assign_field extra st = Ok st.
Proof.
  induction 1 as [|[k v] extra Hk _ IH]; [done|]. rewrite assign_all_cons.
  by rewrite assign_field_unknown.
Qed.

(** ** Properties *)

(** The text of an agent state record reads back as the record (but for
    [state_id], which is not part of it) exactly when its identifiers are empty
    or hex hashes and no dependency is the zero hash; otherwise the reader
    rejects it. Lines of unknown keys appended to it change nothing, and a body
    without the version line is rejected. *)
Theorem agent_state_roundtrip r extra :
  fits r -> Forall field_ok extra -> Forall (fun x => x.1 ∉ agent_state_keys) extra ->
  let text := serialize_agent_state_record r ++ mjoin (kv_line <$> extra) in
  (if well_formed r then deserialize_agent_state_record text = Ok (set_state_id [] r)
   else is_ok (deserialize_agent_state_record text) = false) /\
  (forall body, is_ok (deserialize_agent_state_record body) = true ->
     has_prefix agent_state_header body = true).
Proof.
  intros Hf Hok Hun. cbv zeta. split.
  - unfold deserialize_agent_state_record, serialize_agent_state_record.
    rewrite <- app_assoc, <- join_app, <- fmap_app.
    rewrite read_record_fields; [|done|apply Forall_app; split; [apply agent_fields_ok|done]].
    rewrite assign_all_app. pose proof (assign_agent_fields r Hf) as Ha.
    destruct (well_formed r); [rewrite Ha; by apply assign_all_unknown|].
    by destruct (assign_all assign_field (agent_state_fields r) fresh_agent_state).
  - intros body. unfold deserialize_agent_state_record. apply read_record_prefix.
Qed.

(** Writing a record either fails and leaves the caller's record as it was,
    or returns the hash of a blob from which [read_agent_state_record] returns
    exactly the record the caller now holds, with the dependency list and the
    id of that hash; with [sync] the blob and every dependency are durable. *)
Theorem agent_state_write_read blake3 U st state deps sync env st' state' r :
  store_inv blake3 st -> (forall k o, disk st !! k = Some o -> U (f_content o)) ->
  collision_free blake3 U ->
  let body := serialize_agent_state_record (set_deps deps state) in
  U (lit "blob" ++ blob_body body) -> N.of_nat (length body) < 2 ^ 63 - 12 -> fits state ->
  write_agent_state_record blake3 st state deps sync env = (st', state', r) ->
  match r with
  | Ok h => read_agent_state_record st' true h = Ok state' /\
            state_id state' = hash_to_hex h /\ dependency_hashes state' = deps /\
            (is_Some sync -> forall d, d ∈ deps ++ [h] -> durable st' d)
  | Err _ => state' = state
  end.
Proof.
  intros Hi HU Hcf body HUb Hl Hf Hw. destruct r as [h|msg].
  2:{ by apply write_agent_state_fails in Hw. }
  apply write_agent_state_inv in Hw as (Hwf & -> & Hne & st1 & Hw & Hs); [|done].
  apply (write_object_stores blake3 U) in Hw as (-> & _ & _ & (o & Ho & Hc) & _); try done.
  fold body in Hc, Hne, Hs |- *.
  set (h := blake3 (lit "blob" ++ blob_body body)) in *.
  assert (disk st' = disk st1 /\ (is_Some sync -> forall d, d ∈ deps ++ [h] -> durable st' d)) as [Hd Hdur].
  { destruct sync as [fs|]; [|subst; split; [done|by intros []]].
    apply fsync_pending_spec in Hs as (Hd & _ & _ & _ & _ & _ & _ & Hdur).
    split; [done|]. intros _ d Hin. by apply Hdur. }
  assert (fits (set_deps deps state)) as Hf' by (by destruct state, Hf; split).
  pose proof (deserialize_serialize_agent _ Hf') as Hr. rewrite Hwf in Hr. fold body in Hr.
  split; [|by destruct state].
  unfold read_agent_state_record. rewrite (read_blob_disk st1), (read_blob_body _ _ body); [|lia| |done].
  - rewrite Hr. by destruct state.
  - by eapply read_object_content.
Qed.

(** ** Witnesses *)

Definition sample_agent_state : AgentStateRecord :=
  mkAS 1 [] [] [] (lit "feature 1") (toy_blake3 (lit "commit")) [] (lit "rt|1") (lit "agent=7") 42 ToolCall
    (lit "schema") (lit "line" ++ [newline] ++ lit "100%") [] [toy_blake3 (lit "dep")] 1700 true.

Lemma agent_state_roundtrip_witness :
  deserialize_agent_state_record
    (serialize_agent_state_record sample_agent_state ++
     mjoin (kv_line <$> [(lit "new_key", lit "x")])) = Ok sample_agent_state.
Proof.
  apply (agent_state_roundtrip sample_agent_state [(lit "new_key", lit "x")]).
  - by split.
  - constructor; [|constructor]. apply word_field_ok; [done|by apply find_char_None].
  - constructor; [|constructor]. intros H%list_elem_of_In. simpl in H. intuition discriminate.
Defined.

Definition sample_written : ObjectStore * AgentStateRecord * result Hash :=
  write_agent_state_record toy_blake3 (empty_store (lit "/s")) sample_agent_state [] (Some all_sync_ok)
    (no_faults 5).

Definition sample_state_body : bytes := serialize_agent_state_record (set_deps [] sample_agent_state).

Lemma agent_state_write_read_witness :
  read_agent_state_record sample_written.1.1 true
    (toy_blake3 (lit "blob" ++ blob_body sample_state_body)) = Ok sample_written.1.2.
Proof.
  apply (agent_state_write_read toy_blake3 (fun c => c = lit "blob" ++ blob_body sample_state_body)
    (empty_store (lit "/s")) sample_agent_state [] (Some all_sync_ok) (no_faults 5)
    sample_written.1.1 sample_written.1.2
    (Ok (toy_blake3 (lit "blob" ++ blob_body sample_state_body)))).
  - split; simpl; [done|by intros h []|set_solver].
  - done.
  - intros a b -> ->. done.
  - reflexivity.
  - vm_compute. reflexivity.
  - by split.
  - vm_compute. reflexivity.
Defined.
