(* ===== verification/StateFs.v ===== *)
(** The directory [<store>/state] (cas/agent_state_service.cpp): making its
    levels, the atomic replacement of a latest reference, the discovery log.

    Paths are the strings the code builds. A directory or a file is kept once a
    crash would preserve it: its directory has been [fsync]ed since its name
    was put there, and a file is kept with the bytes it had when it was itself
    last [fsync]ed. *)

From S2P Require Import Prelude Hashes ObjectStore KvCodec.

(** A file's bytes, and those its last [fsync] saved. *)
Record StateFile : Type := mkSFile { sf_content : bytes; sf_synced : bytes }.

Record StateFs : Type := mkStateFs {
  fs_dirs : gset str;
  fs_files : gmap str StateFile;
  kept_dirs : gset str;
  kept_files : gmap str bytes
}.

(** The directory a path is in: what comes before its last slash. *)
Fixpoint dir_of (p : str) : option str :=
  match p with
  | [] => None
  | c :: p' =>
      match dir_of p' with
      | Some d => Some (c :: d)
      | None => if decide (c = slash) then Some [] else None
      end
  end.

Definition under (d name : str) : str := d ++ [slash] ++ name.

Definition parent_exists (p : str) (fs : StateFs) : bool :=
  match dir_of p with Some d => bool_decide (d ∈ fs_dirs fs) | None => false end.

Definition set_files (m : gmap str StateFile) (fs : StateFs) : StateFs :=
  mkStateFs (fs_dirs fs) m (kept_dirs fs) (kept_files fs).

(** ** Directories *)

(** An existing directory is accepted whatever [create_directory] reports. *)
Definition mkdir_one (f : fault) (path : str) (fs : StateFs) : StateFs * result unit :=
  let failed msg := (fs, Err (lit "create_directory(" ++ path ++ lit ") failed: " ++ msg)) in
  if decide (path ∈ fs_dirs fs) then (fs, Ok ())
  else
    match f with
    | Some msg => failed msg
    | None =>
        if decide (is_Some (fs_files fs !! path)) then failed (lit "File exists")
        else if parent_exists path fs
        then (mkStateFs ({[path]} ∪ fs_dirs fs) (fs_files fs) (kept_dirs fs) (kept_files fs), Ok ())
        else failed (lit "No such file or directory")
    end.

(** One call of [fsync] that does not succeed. *)
Inductive attempt : Type := Interrupted | Failed (msg : str).

(** The message of the failure that ends the loop; the attempts used up, the
    next one succeeds. *)
Fixpoint fsync_retry (tries : list attempt) : fault :=
  match tries with
  | [] => None
  | Interrupted :: rest => fsync_retry rest
  | Failed msg :: _ => Some msg
  end.

(** What the barrier on a directory saves: every name in it, and no other. *)
Definition sync_dir (d : str) (fs : StateFs) : StateFs :=
  mkStateFs (fs_dirs fs) (fs_files fs)
    (filter (fun p => dir_of p <> Some d) (kept_dirs fs) ∪
     filter (fun p => dir_of p = Some d) (fs_dirs fs))
    (filter (fun x => dir_of x.1 <> Some d) (kept_files fs) ∪
     (sf_synced <$> filter (fun x => dir_of x.1 = Some d) (fs_files fs))).

Definition fsync_dir_at (open_fault : fault) (tries : list attempt) (dir_path : str) (fs : StateFs) :
    StateFs * result unit :=
  let no_dir msg := (fs, Err (lit "open dir " ++ dir_path ++ lit " failed: " ++ msg)) in
  match open_fault with
  | Some msg => no_dir msg
  | None =>
      if decide (dir_path ∈ fs_dirs fs) then
        match fsync_retry tries with
        | Some msg => (fs, Err (lit "fsync dir " ++ dir_path ++ lit " failed: " ++ msg))
        | None => (sync_dir dir_path fs, Ok ())
        end
      else no_dir (lit "No such file or directory")
  end.

(** One call of [write] that does not write all that is left. *)
Inductive write_attempt : Type := WInterrupted | WFailed (msg : str) | Wrote (n : nat).

(** What reached the file, and the failure that ended the loop. *)
Fixpoint write_loop (tries : list write_attempt) (data : bytes) : bytes * fault :=
  match data with
  | [] => ([], None)
  | _ =>
      match tries with
      | [] => (data, None)
      | WInterrupted :: rest => write_loop rest data
      | WFailed msg :: _ => ([], Some msg)
      | Wrote n :: rest =>
          let '(more, r) := write_loop rest (drop n data) in (take n data ++ more, r)
      end
  end.

(** ** The latest reference *)

(** Outcomes of the calls of [publish_latest_ref]; a directory's by its path. *)
Record PublishEnv : Type := mkPublishEnv {
  pe_mkdir : str -> fault;
  pe_open_dir : str -> fault;
  pe_fsync_dir : str -> list attempt;
  pe_mkstemp : str + str;        (** message, or the six characters chosen *)
  pe_writes : list write_attempt;
  pe_fsync : list attempt;
  pe_rename : fault;
  pe_remove : bool
}.

(** Continue where the last call succeeded. *)
Definition then_do {A B} (r : StateFs * result A) (k : A -> StateFs -> StateFs * result B) :
    StateFs * result B :=
  match r with (fs, Ok x) => k x fs | (fs, Err e) => (fs, Err e) end.

Section publish.
Context (env : PublishEnv).

Definition sync_at (path : str) (fs : StateFs) : StateFs * result unit :=
  fsync_dir_at (pe_open_dir env path) (pe_fsync_dir env path) path fs.

Definition ensure_child_dir_durable (parent child_name : str) (fs : StateFs) :
    StateFs * result unit :=
  let child := under parent child_name in
  then_do (mkdir_one (pe_mkdir env child) child fs) (fun _ => sync_at parent).

Definition temp_path (agent_dir branch suffix : str) : str :=
  under agent_dir (lit ".ref-" ++ branch ++ lit "-" ++ suffix).

(** [mkstemp] makes a file that was not there. *)
Definition create_latest_ref_temp (agent_dir branch : str) (fs : StateFs) : StateFs * result str :=
  match pe_mkstemp env with
  | inl msg => (fs, Err (lit "mkstemp failed: " ++ msg))
  | inr suffix =>
      let tmp := temp_path agent_dir branch suffix in
      if decide (is_Some (fs_files fs !! tmp) \/ tmp ∈ fs_dirs fs)
      then (fs, Err (lit "mkstemp failed: File exists"))
      else if parent_exists tmp fs
      then (set_files (<[tmp := mkSFile [] []]> (fs_files fs)) fs, Ok tmp)
      else (fs, Err (lit "mkstemp failed: No such file or directory"))
  end.

Definition remove_temp (path : str) (fs : StateFs) : StateFs :=
  if pe_remove env then set_files (delete path (fs_files fs)) fs else fs.

Definition replace_latest_ref (tmp_path target : str) (fs : StateFs) : StateFs * result unit :=
  let failed msg := (fs, Err (lit "rename latest ref failed: " ++ msg)) in
  match pe_rename env with
  | Some msg => failed msg
  | None =>
      if decide (target ∈ fs_dirs fs) then failed (lit "Is a directory")
      else
        match fs_files fs !! tmp_path with
        | None => failed (lit "No such file or directory")
        | Some file => (set_files (<[target := file]> (delete tmp_path (fs_files fs))) fs, Ok ())
        end
  end.

(** The temporary file written and [fsync]ed. *)
Definition write_latest_ref (tmp_path state_id_hex : str) (fs : StateFs) : StateFs * result unit :=
  let '(written, r) := write_loop (pe_writes env) state_id_hex in
  let put synced := set_files (<[tmp_path := mkSFile written synced]> (fs_files fs)) fs in
  match (match r with Some msg => Some msg | None => fsync_retry (pe_fsync env) end) with
  | Some msg => (put [], Err (lit "write/fsync latest ref failed: " ++ msg))
  | None => (put written, Ok ())
  end.

Definition latest_dir (store_root agent : str) : str :=
  under (store_root ++ lit "/state/latest") agent.

Definition latest_path (store_root agent branch : str) : str :=
  under (latest_dir store_root agent) branch.

Definition publish_latest_ref (store_root agent branch state_id_hex : str) (fs : StateFs) :
    StateFs * result unit :=
  let latest_root := store_root ++ lit "/state/latest" in
  let agent_dir := latest_dir store_root agent in
  then_do (ensure_child_dir_durable store_root (lit "state") fs) (fun _ fs =>
  then_do (ensure_child_dir_durable (store_root ++ lit "/state") (lit "latest") fs) (fun _ fs =>
  then_do (ensure_child_dir_durable latest_root agent fs) (fun _ fs =>
  then_do (create_latest_ref_temp agent_dir branch fs) (fun tmp_path fs =>
  match write_latest_ref tmp_path state_id_hex fs with
  | (fs, Err e) => (remove_temp tmp_path fs, Err e)
  | (fs, Ok _) =>
      match replace_latest_ref tmp_path (under agent_dir branch) fs with
      | (fs, Err e) => (remove_temp tmp_path fs, Err e)
      | (fs, Ok _) => sync_at agent_dir fs
      end
  end)))).

End publish.

(** ** The discovery log *)

(** Outcomes of [mkdir] and [fopen]; how much of the line reaches the file. *)
Record LogEnv : Type := mkLogEnv {
  log_mkdir : fault;
  log_open : bool;
  log_written : option nat
}.

Definition index_line (agent branch state_id_hex : str) (timestamp_ns : N) : str :=
  state_id_hex ++ lit " " ++ agent ++ lit " " ++ branch ++ lit " " ++ to_string timestamp_ns ++
  [newline].

Definition append_index_log (env : LogEnv) (store_root agent branch state_id_hex : str)
    (timestamp_ns : N) (fs : StateFs) : StateFs :=
  let state_dir := store_root ++ lit "/state" in
  let '(fs1, _) := mkdir_one (log_mkdir env) state_dir fs in
  let log_path := under state_dir (lit "index.log") in
  if negb (log_open env && parent_exists log_path fs1) || bool_decide (log_path ∈ fs_dirs fs1)
  then fs1
  else
    let line := index_line agent branch state_id_hex timestamp_ns in
    let put := match log_written env with Some n => take n line | None => line end in
    let old := default (mkSFile [] []) (fs_files fs1 !! log_path) in
    set_files (<[log_path := mkSFile (sf_content old ++ put) (sf_synced old)]> (fs_files fs1)) fs1.

(** Trims trailing white space. *)
Definition trims (c : ascii) : bool :=
  bool_decide (c = newline \/ c = ascii_of_N 13 \/ c = " "%char \/ c = ascii_of_N 9).

Fixpoint trim_trailing (s : str) : str :=
  match s with
  | [] => []
  | c :: s' =>
      match trim_trailing s' with
      | [] => if trims c then [] else [c]
      | t => c :: t
      end
  end.

(** [fopen] for reading and [fread] until it returns nothing: a directory opens
    and reads as nothing, and the reads may stop early. *)
Definition read_file (open_ok : bool) (stop : option nat) (path : str) (fs : StateFs) :
    option bytes :=
  if negb open_ok then None
  else if decide (path ∈ fs_dirs fs) then Some []
  else
    file ← fs_files fs !! path;
    Some (match stop with Some n => take n (sf_content file) | None => sf_content file end).

(** ** A crash *)

(** The directories a path goes through. *)
Fixpoint ancestors (p : str) : list str :=
  match p with
  | [] => []
  | c :: p' => (if decide (c = slash) then [[]] else []) ++ (cons c <$> ancestors p')
  end.

(** Reachable from the store's root through directories that were kept. *)
Definition reachable (root : str) (fs : StateFs) (p : str) : Prop :=
  Forall (fun d => (length d <= length root)%nat \/ d ∈ kept_dirs fs) (ancestors p).

#[export] Instance reachable_dec root fs p : Decision (reachable root fs p).
Proof. unfold reachable. apply _. Defined.

Definition after_crash (root : str) (fs : StateFs) : StateFs :=
  let ds := {[root]} ∪ filter (reachable root fs) (kept_dirs fs) in
  let fls := filter (fun x => reachable root fs x.1) (kept_files fs) in
  mkStateFs ds ((fun c => mkSFile c c) <$> fls) ds fls.

(** ** Paths *)

Lemma dir_of_None n : slash ∉ n -> dir_of n = None.
Proof.
  induction n as [|c n IH]; [done|]. intros H%not_elem_of_cons. simpl.
  rewrite IH by tauto. rewrite decide_False; [done|]. intros ->. tauto.
Qed.

Lemma dir_of_under d n : slash ∉ n -> dir_of (under d n) = Some d.
Proof.
  intros H. unfold under. induction d as [|c d IH]; simpl in *; [by rewrite dir_of_None|].
  by rewrite IH.
Qed.

Lemma under_inj d n d' n' :
  slash ∉ n -> slash ∉ n' -> under d n = under d' n' -> d = d' /\ n = n'.
Proof.
  intros H H' E. assert (d = d') as <-.
  { apply (f_equal dir_of) in E. rewrite !dir_of_under in E by done. by injection E. }
  split; [done|]. unfold under in E. by apply (inj (app d)) in E as [= ->].
Qed.

Lemma latest_path_inj root a b a' b' :
  slash ∉ a -> slash ∉ b -> slash ∉ a' -> slash ∉ b' ->
  latest_path root a b = latest_path root a' b' -> a = a' /\ b = b'.
Proof.
  intros Ha Hb Ha' Hb' [E ->]%under_inj; [|done..]. by apply under_inj in E as [_ ->].
Qed.

Lemma ancestors_None n : slash ∉ n -> ancestors n = [].
Proof.
  induction n as [|c n IH]; [done|]. intros H%not_elem_of_cons. simpl.
  rewrite IH by tauto. rewrite decide_False; [done|]. intros ->. tauto.
Qed.

Lemma ancestors_under d n : slash ∉ n -> ancestors (under d n) = ancestors d ++ [d].
Proof.
  intros H. unfold under. induction d as [|c d IH]; simpl in *; [by rewrite ancestors_None|].
  by rewrite IH, fmap_app, app_assoc.
Qed.

Lemma ancestors_shorter d p : d ∈ ancestors p -> (length d < length p)%nat.
Proof.
  revert d. induction p as [|c p IH]; simpl; [by intros d ?%elem_of_nil|].
  intros d [H|(d' & -> & H)%list_elem_of_fmap]%elem_of_app.
  - destruct (decide (c = slash)); [|by apply elem_of_nil in H].
    apply list_elem_of_singleton in H as ->. simpl. lia.
  - apply IH in H. simpl. lia.
Qed.

Lemma latest_root_under root : root ++ lit "/state/latest" = under (root ++ lit "/state") (lit "latest").
Proof. unfold under. by rewrite <- app_assoc. Qed.

Lemma state_under root : root ++ lit "/state" = under root (lit "state").
Proof. done. Qed.

Lemma latest_ancestors root a b :
  slash ∉ a -> slash ∉ b ->
  ancestors (latest_path root a b) =
  ancestors root ++ [root; root ++ lit "/state"; root ++ lit "/state/latest"; latest_dir root a].
Proof.
  intros Ha Hb. unfold latest_path. rewrite ancestors_under by done. unfold latest_dir.
  rewrite ancestors_under by done. rewrite latest_root_under, ancestors_under by (by apply find_char_None).
  rewrite state_under, ancestors_under by (by apply find_char_None). by rewrite <- !app_assoc.
Qed.

(** ** What the directory operations preserve *)

Definition fs_ok (fs : StateFs) : Prop := kept_dirs fs ⊆ fs_dirs fs.

(** Names appear and become kept; no file changes, and the kept bytes of one
    are what they were or those its last [fsync] saved. *)
Record settles (fs fs' : StateFs) : Prop := {
  se_files : fs_files fs' = fs_files fs;
  se_dirs : fs_dirs fs ⊆ fs_dirs fs';
  se_kept_dirs : fs_ok fs -> kept_dirs fs ⊆ kept_dirs fs' /\ fs_ok fs';
  se_kept : forall p, kept_files fs' !! p = kept_files fs !! p \/
    kept_files fs' !! p = sf_synced <$> fs_files fs !! p
}.

#[export] Instance settles_preorder : PreOrder settles.
Proof.
  split.
  - intros fs. split; auto.
  - intros f g h [A1 A2 A3 A4] [B1 B2 B3 B4]. split; [congruence|by etrans| |].
    + intros [? ?]%A3. destruct B3 as [? ?]; [done|]. split; [by etrans|done].
    + intros p. destruct (B4 p) as [-> | ->]; [apply A4|right; by rewrite A1].
Qed.

Lemma mkdir_one_spec f p fs fs' r :
  mkdir_one f p fs = (fs', r) -> settles fs fs' /\ (r = Ok () -> p ∈ fs_dirs fs').
Proof.
  unfold mkdir_one. intros H. case_decide; [by simplify_eq|]. destruct f; [by simplify_eq|].
  case_decide; [by simplify_eq|]. destruct (parent_exists p fs); simplify_eq; [|done].
  split; [|intros _; simpl; set_solver].
  split; simpl; [done|set_solver| |by left]. unfold fs_ok. simpl. set_solver.
Qed.

Lemma sync_dir_settles d fs : settles fs (sync_dir d fs).
Proof.
  split; simpl; [done|done| |].
  - unfold fs_ok. simpl. intros Hok. split; [|set_solver].
    intros p Hp. destruct (decide (dir_of p = Some d)); set_solver.
  - intros p. rewrite lookup_union, map_lookup_filter, lookup_fmap, map_lookup_filter.
    destruct (decide (dir_of p = Some d)) as [Hd|Hd].
    + right. destruct (kept_files fs !! p); simpl;
        rewrite ?option_guard_False by tauto; destruct (fs_files fs !! p); simpl;
        rewrite ?option_guard_True by done; done.
    + left. destruct (kept_files fs !! p); simpl; rewrite ?option_guard_True by done;
        destruct (fs_files fs !! p); simpl; rewrite ?option_guard_False by done; done.
Qed.

Lemma sync_dir_file d p fs :
  dir_of p = Some d -> kept_files (sync_dir d fs) !! p = sf_synced <$> fs_files fs !! p.
Proof.
  intros Hd. simpl. rewrite lookup_union, map_lookup_filter, lookup_fmap, map_lookup_filter.
  destruct (kept_files fs !! p); simpl; rewrite ?option_guard_False by tauto;
    destruct (fs_files fs !! p); simpl; rewrite ?option_guard_True by done; done.
Qed.

Lemma fsync_dir_at_spec f tries d fs fs' r :
  fsync_dir_at f tries d fs = (fs', r) ->
  settles fs fs' /\ (r = Ok () -> fs' = sync_dir d fs) /\ (r <> Ok () -> fs' = fs).
Proof.
  unfold fsync_dir_at. intros H. destruct f; [by simplify_eq|].
  case_decide; [|by simplify_eq]. destruct (fsync_retry tries); simplify_eq; [done|].
  split; [apply sync_dir_settles|done].
Qed.

Lemma ensure_child_spec env parent child fs fs' r :
  slash ∉ child -> ensure_child_dir_durable env parent child fs = (fs', r) ->
  settles fs fs' /\
  (r = Ok () -> under parent child ∈ fs_dirs fs' /\ under parent child ∈ kept_dirs fs').
Proof.
  intros Hs. unfold ensure_child_dir_durable, then_do.
  destruct (mkdir_one _ _ fs) as [fs1 [[]|e]] eqn:E1; intros H;
    apply mkdir_one_spec in E1 as [S1 D1]; [|by simplify_eq].
  apply fsync_dir_at_spec in H as (S2 & Hok & _). split; [by etrans|].
  intros Hr. rewrite (Hok Hr). simpl. specialize (D1 eq_refl). split; [done|].
  apply elem_of_union_r, elem_of_filter. by rewrite dir_of_under.
Qed.

Lemma write_loop_all tries data w : write_loop tries data = (w, None) -> w = data.
Proof.
  revert data w. induction tries as [|t tries IH]; intros data w; destruct data as [|c data];
    cbn [write_loop]; try by intros [= <-].
  destruct t; [apply IH|done|].
  destruct (write_loop tries (drop n (c :: data))) as [more o] eqn:E.
  intros [= <- ->]. apply IH in E as ->. apply take_drop.
Qed.

(** What publishing leaves of the files: all as they were, a temporary one left
    behind, or the reference replaced. *)
Inductive left_files (env : PublishEnv) (root a b hex : str) (files : gmap str StateFile) :
    gmap str StateFile -> Prop :=
| LeftAsIs : left_files env root a b hex files files
| LeftTemp suffix file :
    pe_mkstemp env = inr suffix ->
    left_files env root a b hex files (<[temp_path (latest_dir root a) b suffix := file]> files)
| LeftReplaced :
    left_files env root a b hex files (<[latest_path root a b := mkSFile hex hex]> files).

Lemma write_latest_ref_spec env tmp hex fs fs' r :
  write_latest_ref env tmp hex fs = (fs', r) ->
  exists file, fs' = set_files (<[tmp := file]> (fs_files fs)) fs /\
    (r = Ok () -> file = mkSFile hex hex).
Proof.
  unfold write_latest_ref. destruct (write_loop _ hex) as [w [m|]] eqn:E.
  - intros H. simplify_eq. by eexists.
  - apply write_loop_all in E as ->. destruct (fsync_retry _); intros H; simplify_eq; by eexists.
Qed.

(** The three levels of directories above the reference. *)
Definition latest_levels (root a : str) : list str :=
  [root ++ lit "/state"; root ++ lit "/state/latest"; latest_dir root a].

(** What [publish_latest_ref] does once the directories are there. *)
Definition ref_outcome (env : PublishEnv) (root a b hex : str) (fs fs' : StateFs)
    (r : result unit) : Prop :=
  exists m, left_files env root a b hex (fs_files fs) m /\ settles (set_files m fs) fs' /\
    (r = Ok () -> m = <[latest_path root a b := mkSFile hex hex]> (fs_files fs) /\
       (latest_path root a b ∉ fs_dirs fs) /\ kept_files fs' !! latest_path root a b = Some hex) /\
    (r <> Ok () -> kept_files fs' = kept_files fs).

(** The temporary file, once there, is renamed, removed or left. *)
Lemma publish_temp_spec env root a b hex fs fs' r :
  slash ∉ b -> fs_ok fs ->
  then_do (create_latest_ref_temp env (latest_dir root a) b fs) (fun tmp_path fs =>
    match write_latest_ref env tmp_path hex fs with
    | (fs, Err e) => (remove_temp env tmp_path fs, Err e)
    | (fs, Ok _) =>
        match replace_latest_ref env tmp_path (latest_path root a b) fs with
        | (fs, Err e) => (remove_temp env tmp_path fs, Err e)
        | (fs, Ok _) => sync_at env (latest_dir root a) fs
        end
    end) = (fs', r) -> ref_outcome env root a b hex fs fs' r.
Proof.
  intros Hb Hok. unfold create_latest_ref_temp.
  assert (settles (set_files (fs_files fs) fs) fs) as Hsame by (split; auto).
  destruct (pe_mkstemp env) as [msg|sfx] eqn:Et; cbn [then_do].
  { intros [= <- <-]. exists (fs_files fs). split; [constructor|done]. }
  case_decide as Hfree.
  { intros [= <- <-]. exists (fs_files fs). split; [constructor|done]. }
  destruct (parent_exists _ fs); cbn [then_do].
  2:{ intros [= <- <-]. exists (fs_files fs). split; [constructor|done]. }
  set (tmp := temp_path (latest_dir root a) b sfx) in *.
  assert (fs_files fs !! tmp = None) as Hnew by (apply eq_None_not_Some; tauto).
  destruct (write_latest_ref env tmp hex _) as [fs2 r2] eqn:Ew.
  apply write_latest_ref_spec in Ew as (file & -> & Hfile). cbn [fs_files set_files].
  rewrite insert_insert_eq.
  assert (forall f e,
    (remove_temp env tmp (set_files (<[tmp:=f]> (fs_files fs)) fs), @Err unit e) = (fs', r) ->
    ref_outcome env root a b hex fs fs' r) as Hrem.
  { intros f e H. unfold remove_temp in H. destruct (pe_remove env); injection H as <- <-.
    - exists (fs_files fs). split; [constructor|]. cbn. rewrite delete_insert_id by done. done.
    - exists (<[tmp:=f]> (fs_files fs)). split; [by econstructor|]. done. }
  destruct r2 as [[]|e]; [|by apply Hrem].
  rewrite (Hfile eq_refl). clear Hfile.
  unfold replace_latest_ref. destruct (pe_rename env); [by apply Hrem|].
  case_decide as Hd; [by apply Hrem|]. cbn [fs_files set_files].
  rewrite lookup_insert_eq, delete_insert_id by done. intros H.
  apply fsync_dir_at_spec in H as (Hse & Hyes & Hno).
  eexists. split; [apply LeftReplaced|]. split; [done|]. split.
  - intros ->. split; [done|]. split; [done|]. rewrite Hyes by done. rewrite sync_dir_file.
    + cbn. by rewrite lookup_insert_eq.
    + by apply dir_of_under.
  - intros Hr. by rewrite Hno.
Qed.

Lemma publish_spec env root a b hex fs fs' r :
  slash ∉ a -> slash ∉ b -> fs_ok fs ->
  publish_latest_ref env root a b hex fs = (fs', r) ->
  exists fs1, settles fs fs1 /\ (ref_outcome env root a b hex fs1 fs' r \/ fs' = fs1 /\ r <> Ok ()) /\
    (r = Ok () -> fs_ok fs1 /\ Forall (fun d => d ∈ kept_dirs fs1) (latest_levels root a)).
Proof.
  intros Ha Hb Hok. unfold publish_latest_ref.
  destruct (ensure_child_dir_durable env root (lit "state") fs) as [f1 [[]|e]] eqn:E1; cbn [then_do];
    apply ensure_child_spec in E1 as [S1 K1]; try (by apply find_char_None).
  2:{ intros [= <- <-]. exists f1. split; [done|]. split; [by right|done]. }
  destruct (ensure_child_dir_durable env _ (lit "latest") f1) as [f2 [[]|e]] eqn:E2; cbn [then_do];
    apply ensure_child_spec in E2 as [S2 K2]; try (by apply find_char_None).
  2:{ intros [= <- <-]. exists f2. split; [by etrans|]. split; [by right|done]. }
  destruct (ensure_child_dir_durable env _ a f2) as [f3 [[]|e]] eqn:E3; cbn [then_do];
    apply ensure_child_spec in E3 as [S3 K3]; try done.
  2:{ intros [= <- <-]. exists f3. split; [by do 2 (etrans; [done|])|]. split; [by right|done]. }
  intros H. destruct (se_kept_dirs _ _ S1 Hok) as [_ O1]. destruct (se_kept_dirs _ _ S2 O1) as [I2 O2].
  destruct (se_kept_dirs _ _ S3 O2) as [I3 O3].
  exists f3. split; [by do 2 (etrans; [done|])|]. split.
  - left. by apply publish_temp_spec.
  - intros _. split; [done|]. rewrite state_under, latest_root_under in *.
    destruct K1 as [_ K1], K2 as [_ K2], K3 as [_ K3]; try done.
    repeat constructor; unfold latest_dir; rewrite ?latest_root_under; auto.
Qed.

Lemma read_after_crash root a b hex fs :
  slash ∉ a -> slash ∉ b -> fs_ok fs -> latest_path root a b ∉ kept_dirs fs ->
  Forall (fun d => d ∈ kept_dirs fs) (latest_levels root a) ->
  kept_files fs !! latest_path root a b = Some hex ->
  read_file true None (latest_path root a b) (after_crash root fs) = Some hex.
Proof.
  intros Ha Hb Hok Hd Hl Hk. unfold read_file, after_crash. cbn [negb fs_dirs fs_files].
  rewrite decide_False.
  - rewrite lookup_fmap, map_lookup_filter, Hk. cbn. rewrite option_guard_True; [done|].
    unfold reachable. cbn [fst]. rewrite latest_ancestors by done. apply Forall_app. split.
    + apply Forall_forall. intros d Hin%ancestors_shorter. left. lia.
    + constructor; [by left|]. eapply Forall_impl; [exact Hl|]. by right.
  - rewrite elem_of_union, elem_of_filter, elem_of_singleton. intros [E|[_ ?]]; [|done].
    apply (f_equal length) in E. revert E. unfold latest_path, latest_dir, under.
    rewrite !length_app. simpl. lia.
Qed.

(** The only directories made are the levels above the reference. *)
Lemma mkdir_one_dirs f p fs : fs_dirs (mkdir_one f p fs).1 ⊆ {[p]} ∪ fs_dirs fs.
Proof. unfold mkdir_one. split_cases; simpl; set_solver. Qed.

Lemma fsync_dir_at_dirs f tries d fs : fs_dirs (fsync_dir_at f tries d fs).1 = fs_dirs fs.
Proof. unfold fsync_dir_at. by split_cases. Qed.

Lemma ensure_child_dirs env parent child fs :
  fs_dirs (ensure_child_dir_durable env parent child fs).1 ⊆ {[under parent child]} ∪ fs_dirs fs.
Proof.
  unfold ensure_child_dir_durable.
  pose proof (mkdir_one_dirs (pe_mkdir env (under parent child)) (under parent child) fs) as H.
  destruct (mkdir_one _ _ fs) as [fs1 []]; cbn [then_do]; [|done].
  unfold sync_at. by rewrite fsync_dir_at_dirs.
Qed.

Lemma publish_temp_dirs env a_dir b hex target fs :
  fs_dirs (then_do (create_latest_ref_temp env a_dir b fs) (fun tmp_path fs =>
    match write_latest_ref env tmp_path hex fs with
    | (fs, Err e) => (remove_temp env tmp_path fs, Err e)
    | (fs, Ok _) =>
        match replace_latest_ref env tmp_path target fs with
        | (fs, Err e) => (remove_temp env tmp_path fs, Err e)
        | (fs, Ok _) => sync_at env a_dir fs
        end
    end)).1 = fs_dirs fs.
Proof.
  assert (forall tmp f, fs_dirs (remove_temp env tmp f) = fs_dirs f) as Hrem.
  { intros tmp f. unfold remove_temp. by destruct (pe_remove env). }
  assert (fs_dirs (create_latest_ref_temp env a_dir b fs).1 = fs_dirs fs) as Hc.
  { unfold create_latest_ref_temp. by split_cases. }
  destruct (create_latest_ref_temp env a_dir b fs) as [f1 [tmp|e]]; cbn [then_do fst] in *; [|done].
  destruct (write_latest_ref env tmp hex f1) as [f2 r2] eqn:E2.
  apply write_latest_ref_spec in E2 as (file & -> & _).
  destruct r2; [|cbn [fst]; by rewrite Hrem].
  set (f2 := set_files _ f1).
  assert (fs_dirs (replace_latest_ref env tmp target f2).1 = fs_dirs f2) as Hp.
  { unfold replace_latest_ref. by split_cases. }
  destruct (replace_latest_ref env tmp target f2) as [f3 []]; cbn [fst] in *.
  - unfold sync_at. rewrite fsync_dir_at_dirs. by rewrite Hp.
  - rewrite Hrem. by rewrite Hp.
Qed.

Lemma publish_dirs env root a b hex fs :
  fs_dirs (publish_latest_ref env root a b hex fs).1 ⊆ list_to_set (latest_levels root a) ∪ fs_dirs fs.
Proof.
  unfold publish_latest_ref, latest_levels, latest_dir. rewrite state_under, latest_root_under, state_under.
  pose proof (ensure_child_dirs env root (lit "state") fs) as H1.
  destruct (ensure_child_dir_durable env root _ fs) as [f1 []]; cbn [then_do fst] in *; [|set_solver].
  pose proof (ensure_child_dirs env (under root (lit "state")) (lit "latest") f1) as H2.
  destruct (ensure_child_dir_durable env _ _ f1) as [f2 []]; cbn [then_do fst] in *; [|set_solver].
  pose proof (ensure_child_dirs env (under (under root (lit "state")) (lit "latest")) a f2) as H3.
  destruct (ensure_child_dir_durable env _ a f2) as [f3 []]; cbn [then_do fst] in *; [|set_solver].
  rewrite publish_temp_dirs. set_solver.
Qed.

(** ** The log and the trimming *)

Lemma append_index_log_spec env root a b hex ts fs :
  let fs' := append_index_log env root a b hex ts fs in
  let log := under (root ++ lit "/state") (lit "index.log") in
  (forall p, p <> log -> fs_files fs' !! p = fs_files fs !! p) /\
  fs_dirs fs ⊆ fs_dirs fs' /\ fs_dirs fs' ⊆ {[root ++ lit "/state"]} ∪ fs_dirs fs /\
  kept_dirs fs' = kept_dirs fs /\ kept_files fs' = kept_files fs.
Proof.
  cbv zeta. unfold append_index_log.
  destruct (mkdir_one _ _ fs) as [fs1 r] eqn:E.
  assert (fs_files fs1 = fs_files fs /\ fs_dirs fs ⊆ fs_dirs fs1 /\
    fs_dirs fs1 ⊆ {[root ++ lit "/state"]} ∪ fs_dirs fs /\
    kept_dirs fs1 = kept_dirs fs /\ kept_files fs1 = kept_files fs) as (F & D & D' & K & K').
  { revert E. unfold mkdir_one. split_cases; intros; simplify_eq; simpl; set_solver. }
  destruct (_ || _); [by rewrite F|]. cbn [set_files fs_files fs_dirs kept_dirs kept_files].
  split; [|done]. intros p Hp. by rewrite lookup_insert_ne, F.
Qed.

Lemma trim_trailing_clean s : forallb (fun c => negb (trims c)) s = true -> trim_trailing s = s.
Proof.
  induction s as [|c s IH]; [done|]. simpl. intros [Hc Hs]%andb_true_iff. rewrite IH by done.
  destruct s; [|done]. by rewrite (proj1 (negb_true_iff _) Hc).
Qed.

Lemma trims_space c : implb (trims c) (is_space c) = true.
Proof. revert c. apply ascii_cases. by apply (forall_below 256). Qed.

Lemma trim_trailing_hex h : trim_trailing (hash_to_hex h) = hash_to_hex h.
Proof.
  apply trim_trailing_clean, forallb_forall. intros c Hin.
  pose proof (hash_to_hex_is_hex h) as [_ H]%andb_true_iff. rewrite forallb_forall in H.
  destruct (is_hex_char_facts _ (H c Hin)) as (Hs & _). pose proof (trims_space c) as Ht.
  rewrite Hs in Ht. by destruct (trims c).
Qed.
