(* ===== verification/AgentService.v ===== *)
(** The agent state service (cas/agent_state_service.h,
    cas/agent_state_service.cpp): appending a state record and publishing the
    latest reference of its agent and branch, describing a state, resolving the
    latest one, and walking a session's chain of parents. *)

From S2P Require Import Prelude Hashes ObjectStore KvCodec Refs AgentState StateFs.

(** The store the service works on: its objects, and its directory [state]. *)
Record Service : Type := mkService { svc_store : ObjectStore; svc_fs : StateFs }.

Record AppendRequest : Type := mkRequest {
  rq_record : AgentStateRecord;
  rq_deps : list Hash;
  rq_sync : bool
}.

Record AppendResult : Type := mkAppend {
  ar_ok : bool;
  ar_error : str;
  ar_state_id : str;
  ar_durability : str
}.

Record RestoreResult : Type := mkRestore {
  rr_ok : bool;
  rr_error : str;
  rr_chain : list AgentStateRecord
}.

Definition is_valid_state_ref_component (name : str) : bool :=
  if bool_decide (name = []) || bool_decide (64 < length name)%nat then false
  else forallb branch_char name.

Definition parse_optional_hash (value : str) (field_name : string) : result Hash :=
  match value with
  | [] => Ok ZERO_HASH
  | _ =>
      match hex_to_hash_strict value with
      | Some h => Ok h
      | None => Err (lit "invalid " ++ lit field_name ++ lit " hash")
      end
  end.

(** ** Appending *)

(** Outcomes of the calls of [append]: its three reads, the blob's write, the
    barrier, the reference and the log. *)
Record AppendEnv : Type := mkAppendEnv {
  ae_parent_io : bool;
  ae_base_io : bool;
  ae_payload_io : bool;
  ae_write : WriteEnv;
  ae_fsync : FsyncEnv;
  ae_publish : PublishEnv;
  ae_log : LogEnv
}.

Definition push_unique (acc : list Hash) (d : Hash) : list Hash :=
  if decide (d ∈ acc) then acc else acc ++ [d].

(** In the order first seen, the payload last unless already there. *)
Definition effective_dependencies (deps : list Hash) (payload : option Hash) : list Hash :=
  let uniq := foldl push_unique [] deps in
  match payload with Some p => push_unique uniq p | None => uniq end.

(** What a durable append needs of the states it refers to. *)
Definition check_anchors (env : AppendEnv) (st : ObjectStore) (rec : AgentStateRecord)
    (parent base payload : Hash) : result unit :=
  if decide (parent_state_id rec = []) then Err (lit "sync=true requires a non-empty parent_state_id")
  else if decide (snapshot_base_state_id rec = [])
  then Err (lit "sync=true requires a non-empty snapshot_base_state_id")
  else
    match read_agent_state_record st (ae_parent_io env) parent with
    | Err e => Err (lit "parent_state_id does not reference a readable state: " ++ e)
    | Ok _ =>
        match read_agent_state_record st (ae_base_io env) base with
        | Err e => Err (lit "snapshot_base_state_id does not reference a readable state: " ++ e)
        | Ok _ =>
            if decide (payload_ref rec = []) then Ok ()
            else
              match read_blob st (ae_payload_io env) payload with
              | None => Err (lit "payload_ref does not reference a readable blob")
              | Some _ => Ok ()
              end
        end
    end.

(** The checks made before anything is written; the payload's hash. *)
Definition check_request (env : AppendEnv) (st : ObjectStore) (req : AppendRequest) :
    result Hash :=
  let rec := rq_record req in
  if negb (is_valid_state_ref_component (agent_id rec)) then Err (lit "invalid agent_id")
  else if negb (is_valid_state_ref_component (as_branch rec)) then Err (lit "invalid branch name")
  else
    let* parent := parse_optional_hash (parent_state_id rec) "parent_state_id" in
    let* base := parse_optional_hash (snapshot_base_state_id rec) "snapshot_base_state_id" in
    let* payload := parse_optional_hash (payload_ref rec) "payload_ref" in
    let* _ := parse_optional_hash (as_union_state_id rec) "union_state_id" in
    let* _ := (if rq_sync req then check_anchors env st rec parent base payload else Ok ()) in
    Ok payload.

Definition or_text (e : str) (what : string) : str := match e with [] => lit what | _ => e end.

Definition append (blake3 : bytes -> Hash) (env : AppendEnv) (req : AppendRequest) (s : Service) :
    Service * AppendResult :=
  let rec := rq_record req in
  match check_request env (svc_store s) req with
  | Err e => (s, mkAppend false e [] [])
  | Ok payload =>
      let deps := effective_dependencies (rq_deps req)
                    (if decide (payload_ref rec = []) then None else Some payload) in
      let sync := if rq_sync req then Some (ae_fsync env) else None in
      let '(st1, rec1, r) :=
        write_agent_state_record blake3 (svc_store s) rec deps sync (ae_write env) in
      match r with
      | Err e =>
          (mkService st1 (svc_fs s), mkAppend false (or_text e "write_agent_state_record failed") [] [])
      | Ok h =>
          let id := hash_to_hex h in
          let durability := if rq_sync req then lit "durable" else lit "logical_only" in
          let '(fs1, r1) :=
            if rq_sync req
            then publish_latest_ref (ae_publish env) (store_root_ st1) (agent_id rec) (as_branch rec)
                   id (svc_fs s)
            else (svc_fs s, Ok ()) in
          match r1 with
          | Err e =>
              (mkService st1 fs1,
               mkAppend false (lit "state published but latest ref failed: " ++ e) id durability)
          | Ok _ =>
              let fs2 := append_index_log (ae_log env) (store_root_ st1) (agent_id rec)
                           (as_branch rec) id (as_timestamp_ns rec1) fs1 in
              (mkService st1 fs2, mkAppend true [] id durability)
          end
      end
  end.

(** ** Reading *)

Definition describe_hash (st : ObjectStore) (io_ok : bool) (id : Hash) : result AgentStateRecord :=
  match read_agent_state_record st io_ok id with
  | Err e => Err (or_text e "read_agent_state_record failed")
  | Ok rec => Ok rec
  end.

Definition describe (io_ok : bool) (state_id : str) (s : Service) : result AgentStateRecord :=
  match hex_to_hash_strict state_id with
  | None => Err (lit "invalid state_id")
  | Some id => describe_hash (svc_store s) io_ok id
  end.

(** Outcomes of [fopen], of the reads of the reference and of the blob's read. *)
Record LatestEnv : Type := mkLatestEnv {
  le_open : bool;
  le_stop : option nat;
  le_io : bool
}.

Definition no_latest (agent branch : str) : str :=
  lit "no latest ref for agent_id='" ++ agent ++ lit "' branch='" ++ branch ++ lit "'".

Definition latest (env : LatestEnv) (agent branch : str) (s : Service) : result AgentStateRecord :=
  if negb (is_valid_state_ref_component agent) then Err (lit "invalid agent_id")
  else if negb (is_valid_state_ref_component branch) then Err (lit "invalid branch name")
  else
    let ref_path := latest_path (store_root_ (svc_store s)) agent branch in
    match read_file (le_open env) (le_stop env) ref_path (svc_fs s) with
    | None => Err (no_latest agent branch)
    | Some body =>
        match hex_to_hash_strict (trim_trailing body) with
        | None => Err (lit "latest ref contents are not a valid state_id")
        | Some id => describe_hash (svc_store s) (le_io env) id
        end
    end.

Definition too_deep : str :=
  lit "session chain exceeds max_depth before reaching a snapshot base or root".

(** The walk ends well at the anchor's record or at one without a parent. *)
Definition walk_ends (anchor : str) (rec : AgentStateRecord) : bool :=
  negb (bool_decide (anchor = [])) && bool_decide (state_id rec = anchor) ||
  bool_decide (parent_state_id rec = []).

(** [budget] is how many records may still be visited, [anchor] is unset before
    the first; [io] is the outcome of each read. *)
Fixpoint restore_loop (io : nat -> bool) (st : ObjectStore) (budget : nat) (anchor : option str)
    (cur : Hash) (chain : list AgentStateRecord) : RestoreResult :=
  match budget with
  | O => mkRestore false too_deep chain
  | S budget' =>
      match read_agent_state_record st (io (length chain)) cur with
      | Err e => mkRestore false (or_text e "parent_state_id not readable") chain
      | Ok rec =>
          let anchor' := default (snapshot_base_state_id rec) anchor in
          let chain' := chain ++ [rec] in
          if walk_ends anchor' rec then mkRestore true [] chain'
          else
            match hex_to_hash_strict (parent_state_id rec) with
            | None => mkRestore false (lit "invalid parent_state_id hash in chain") chain'
            | Some next => restore_loop io st budget' (Some anchor') next chain'
            end
      end
  end.

Definition restore_session (io : nat -> bool) (state_id : str) (max_depth : nat) (s : Service) :
    RestoreResult :=
  match hex_to_hash_strict state_id with
  | None => mkRestore false (lit "invalid state_id") []
  | Some start => restore_loop io (svc_store s) max_depth None start []
  end.

(** ** A crash: what the barriers saved, and nothing the process remembered *)

Definition crash (s : Service) : Service :=
  mkService (crash_store (svc_store s))
    (after_crash (store_root_ (svc_store s)) (svc_fs s)).

(** ** The store under an append *)

Lemma retains_read st st' h rec :
  retains st st' -> read_agent_state_record st true h = Ok rec ->
  read_agent_state_record st' true h = Ok rec.
Proof.
  intros Hr. unfold read_agent_state_record.
  destruct (read_blob st true h) eqn:E; [|done]. by rewrite (retains_read_blob _ _ _ _ Hr E).
Qed.

Lemma write_publish_root tag env h c p st : store_root_ (write_publish tag env h c p st).1 = store_root_ st.
Proof.
  unfold write_publish. destruct (touch _ _ _ st) as [st1| |m] eqn:E; [|by destruct (rename_fault env)|done].
  by apply touch_spec in E as (o & _ & ->).
Qed.

Lemma write_object_root blake3 tag body env st :
  store_root_ (write_object blake3 tag body env st).1 = store_root_ st.
Proof.
  unfold write_object, write_begin.
  destruct (touch _ _ _ _) as [st1| |m] eqn:E; [by apply touch_spec in E as (o & _ & ->)| |done].
  destruct (mkdir_fault env), (open_fault env), (write_fault env); try done.
  by rewrite write_publish_root.
Qed.

Lemma fsync_objects_root out hs st : store_root_ (fsync_objects out hs st).1 = store_root_ st.
Proof.
  revert st. induction hs as [|h hs IH]; intros st; simpl; [done|].
  destruct (disk st !! h); [|done]. destruct (out h); try done. by rewrite IH.
Qed.

Lemma fsync_dirs_root out ds st : store_root_ (fsync_dirs out ds st).1 = store_root_ st.
Proof.
  revert st. induction ds as [|d ds IH]; intros st; simpl; [done|].
  case_decide; [|done]. destruct (out d); try done. by rewrite IH.
Qed.

Lemma fsync_pending_root env hs st : store_root_ (fsync_pending env hs st).1 = store_root_ st.
Proof.
  unfold fsync_pending. pose proof (fsync_objects_root (object_out env) hs st) as H1.
  destruct (fsync_objects _ hs st) as [st1 []]; simpl in H1; [|done].
  assert (store_root_ (fsync_shard_dirs (shard_out env) (objects_dir_out env) hs st1).1 = store_root_ st1) as H2.
  { unfold fsync_shard_dirs. destruct (sorted_strs _) as [|d ds]; [done|].
    pose proof (fsync_dirs_root (shard_out env) (d :: ds) st1) as H.
    destruct (fsync_dirs _ _ st1) as [st2 []]; simpl in H; [|done]. by destruct (objects_dir_out env). }
  destruct (fsync_shard_dirs _ _ hs st1) as [st2 []]; simpl in *; congruence.
Qed.

Lemma write_agent_state_root blake3 st rec deps sync env :
  store_root_ (write_agent_state_record blake3 st rec deps sync env).1.1 = store_root_ st.
Proof.
  unfold write_agent_state_record. destruct (existsb _ deps); [done|].
  destruct (deserialize_agent_state_record _); [|done].
  pose proof (write_object_root blake3 (lit "blob")
    (blob_body (serialize_agent_state_record (set_deps deps rec))) env st) as H.
  fold (write_blob blake3 (serialize_agent_state_record (set_deps deps rec)) env st) in H.
  destruct (write_blob _ _ env st) as [st1 h]. simpl in H. case_decide; [done|].
  destruct sync as [fs|]; [|done]. pose proof (fsync_pending_root fs (deps ++ [h]) st1) as H2.
  destruct (fsync_pending fs _ st1) as [st2 []]; simpl in *; congruence.
Qed.

(** What the writes assume of the hash function and the bodies' sizes. *)
Record write_fits (blake3 : bytes -> Hash) (U : bytes -> Prop) (st : ObjectStore) (body : bytes) : Prop := {
  wf_inv : store_inv blake3 st;
  wf_disk : forall k o, disk st !! k = Some o -> U (f_content o);
  wf_free : collision_free blake3 U;
  wf_body : U (lit "blob" ++ blob_body body);
  wf_small : N.of_nat (length body) < 2 ^ 63 - 12
}.

Lemma write_agent_state_ok blake3 U st rec deps sync env st' rec' h :
  write_fits blake3 U st (serialize_agent_state_record (set_deps deps rec)) -> fits rec ->
  write_agent_state_record blake3 st rec deps sync env = (st', rec', Ok h) ->
  read_agent_state_record st' true h = Ok rec' /\ rec' = set_state_id (hash_to_hex h) (set_deps deps rec) /\
  retains st st' /\ store_inv blake3 st' /\ (forall k o, disk st' !! k = Some o -> U (f_content o)) /\
  (is_Some sync -> forall d, d ∈ deps ++ [h] -> durable st' d) /\
  is_Some (disk st' !! h).
Proof.
  intros [Hi HU Hcf HUb Hl] Hf Hw.
  apply write_agent_state_inv in Hw as (Hwf & -> & Hne & st1 & Hw & Hs); [|done].
  apply (write_object_stores blake3 U) in Hw as (-> & Hi1 & HU1 & (o & Ho & Hc) & Hret); try done.
  set (body := serialize_agent_state_record (set_deps deps rec)) in *.
  set (h := blake3 (lit "blob" ++ blob_body body)) in *.
  assert (disk st' = disk st1 /\ store_inv blake3 st' /\
    (is_Some sync -> forall d, d ∈ deps ++ [h] -> durable st' d)) as (Hd & Hi' & Hdur).
  { destruct sync as [fs|]; [|subst; split; [done|split; [done|by intros []]]].
    apply fsync_pending_spec in Hs as (Hd & Hsh & _ & _ & _ & Hsub & _ & Hdur).
    split; [done|]. split.
    - destruct Hi1 as [Ia Ib Ic]. split; rewrite ?Hd, ?Hsh; auto.
    - intros _ d Hin. by apply Hdur. }
  assert (fits (set_deps deps rec)) as Hf' by (by destruct rec, Hf; split).
  pose proof (deserialize_serialize_agent _ Hf') as Hr. rewrite Hwf in Hr. fold body in Hr.
  split; [|split; [done|split; [|split; [done|split; [|split; [done|]]]]]].
  - unfold read_agent_state_record. rewrite (read_blob_disk st1), (read_blob_body _ _ body); [|lia| |done].
    + rewrite Hr. by destruct rec.
    + by eapply read_object_content.
  - intros k x Hk. rewrite Hd. eauto.
  - intros k x Hk. rewrite Hd in Hk. eauto.
  - rewrite Hd. by eexists.
Qed.

(** A durable state reads the same after a crash. *)
Lemma crash_read st h rec :
  durable st h -> read_agent_state_record st true h = Ok rec ->
  read_agent_state_record (crash_store st) true h = Ok rec.
Proof.
  intros Hd. unfold read_agent_state_record, read_blob, read_object. cbn [negb].
  rewrite crash_lookup by done.
  destruct (disk st !! h); [|done]. by repeat case_decide.
Qed.

(** ** Path components *)

Lemma branch_char_facts c : implb (branch_char c) (bool_decide (c <> slash /\ c <> "."%char)) = true.
Proof. revert c. apply ascii_cases. by apply (forall_below 256). Qed.

Lemma valid_component_clean name :
  is_valid_state_ref_component name = true -> (slash ∉ name) /\ ("."%char ∉ name).
Proof.
  unfold is_valid_state_ref_component. destruct (_ || _); [done|]. rewrite forallb_forall.
  intros H. split; intros Hin%list_elem_of_In%H; by vm_compute in Hin.
Qed.

Lemma latest_path_not_log root a b :
  slash ∉ b -> a <> [] -> latest_path root a b <> under (root ++ lit "/state") (lit "index.log").
Proof.
  intros Hb Ha E. apply under_inj in E as [E _]; [|done|by apply find_char_None].
  apply (f_equal length) in E. revert E. unfold latest_dir, under. rewrite !length_app. simpl. lia.
Qed.

Lemma latest_path_not_temp root a b a' b' suffix :
  slash ∉ a -> slash ∉ b -> slash ∉ suffix -> "."%char ∉ b' -> slash ∉ b' ->
  latest_path root a' b' <> temp_path (latest_dir root a) b suffix.
Proof.
  intros Ha Hb Hs Hdot Hb' E. apply under_inj in E as [_ ->]; [|done|].
  - apply Hdot. simpl. by left.
  - rewrite !not_elem_of_app. split; [by apply find_char_None|]. split; [done|].
    split; [by apply find_char_None|done].
Qed.

Lemma latest_path_not_level root a a' b' :
  slash ∉ a -> slash ∉ b' -> (latest_path root a' b' ∉ latest_levels root a).
Proof.
  intros Ha Hb'. unfold latest_levels. rewrite !not_elem_of_cons. split_and!; [| | |apply not_elem_of_nil].
  - intros E%(f_equal length). revert E. unfold latest_path, latest_dir, under. rewrite !length_app. simpl. lia.
  - intros E%(f_equal length). revert E. unfold latest_path, latest_dir, under. rewrite !length_app. simpl. lia.
  - intros [E _]%under_inj; [|done..]. apply (f_equal length) in E. revert E.
    unfold latest_dir, under. rewrite !length_app. simpl. lia.
Qed.

Lemma latest_path_not_state root a b : latest_path root a b <> root ++ lit "/state".
Proof.
  intros E%(f_equal length). revert E. unfold latest_path, latest_dir, under.
  rewrite !length_app. simpl. lia.
Qed.

(** ** What an append does *)

(** The dependencies the record is written with. *)
Definition append_deps (req : AppendRequest) (payload : Hash) : list Hash :=
  effective_dependencies (rq_deps req)
    (if decide (payload_ref (rq_record req) = []) then None else Some payload).

(** An append ends before the state is written, or writes it and publishes. *)
Lemma append_inv blake3 env req s s' res :
  append blake3 env req s = (s', res) ->
  (svc_fs s' = svc_fs s /\ ar_ok res = false /\ ar_state_id res = []) \/
  exists payload rec' h fs1 r1,
    check_request env (svc_store s) req = Ok payload /\
    write_agent_state_record blake3 (svc_store s) (rq_record req) (append_deps req payload)
      (if rq_sync req then Some (ae_fsync env) else None) (ae_write env) = (svc_store s', rec', Ok h) /\
    ar_state_id res = hash_to_hex h /\
    ar_durability res = (if rq_sync req then lit "durable" else lit "logical_only") /\
    (if rq_sync req
     then publish_latest_ref (ae_publish env) (store_root_ (svc_store s)) (agent_id (rq_record req))
            (as_branch (rq_record req)) (hash_to_hex h) (svc_fs s)
     else (svc_fs s, Ok ())) = (fs1, r1) /\
    ar_ok res = is_ok r1 /\
    svc_fs s' = (if is_ok r1
                 then append_index_log (ae_log env) (store_root_ (svc_store s))
                        (agent_id (rq_record req)) (as_branch (rq_record req)) (hash_to_hex h)
                        (as_timestamp_ns rec') fs1
                 else fs1).
Proof.
  unfold append. destruct (check_request env (svc_store s) req) as [payload|e]; [|by intros [= <- <-]; left].
  fold (append_deps req payload).
  pose proof (write_agent_state_root blake3 (svc_store s) (rq_record req) (append_deps req payload)
    (if rq_sync req then Some (ae_fsync env) else None) (ae_write env)) as Hroot.
  destruct (write_agent_state_record _ _ _ _ _ _) as [[st1 rec1] [h|e]] eqn:Ew; [|by intros [= <- <-]; left].
  simpl in Hroot. rewrite Hroot.
  destruct (if rq_sync req then publish_latest_ref _ _ _ _ _ _ else _) as [fs1 [u|e]] eqn:Ep;
    intros [= <- <-]; right; exists payload, rec1, h, fs1;
    [exists (Ok u)|exists (Err e)]; (split_and!; done).
Qed.

Lemma append_root blake3 env req s :
  store_root_ (svc_store (append blake3 env req s).1) = store_root_ (svc_store s).
Proof.
  unfold append. destruct (check_request _ _ _) as [payload|e]; [|done].
  fold (append_deps req payload).
  pose proof (write_agent_state_root blake3 (svc_store s) (rq_record req) (append_deps req payload)
    (if rq_sync req then Some (ae_fsync env) else None) (ae_write env)) as Hroot.
  destruct (write_agent_state_record _ _ _ _ _ _) as [[st1 rec1] [h|e]]; [|done].
  by destruct (if rq_sync req then publish_latest_ref _ _ _ _ _ _ else _) as [fs1 [u|e]].
Qed.

Lemma check_request_valid env st req payload :
  check_request env st req = Ok payload ->
  is_valid_state_ref_component (agent_id (rq_record req)) = true /\
  is_valid_state_ref_component (as_branch (rq_record req)) = true.
Proof.
  unfold check_request. destruct (is_valid_state_ref_component (agent_id _)); [|done].
  by destruct (is_valid_state_ref_component (as_branch _)).
Qed.

(** The reference's file. *)
Definition ref_at (s : Service) (a b : str) : option bytes :=
  sf_content <$> fs_files (svc_fs s) !! latest_path (store_root_ (svc_store s)) a b.

Definition reads_well : LatestEnv := mkLatestEnv true None true.

Lemma latest_of_ref a b s h rec :
  is_valid_state_ref_component a = true -> is_valid_state_ref_component b = true ->
  read_file true None (latest_path (store_root_ (svc_store s)) a b) (svc_fs s) = Some (hash_to_hex h) ->
  read_agent_state_record (svc_store s) true h = Ok rec ->
  latest reads_well a b s = Ok rec.
Proof.
  intros Ha Hb Hf Hr. unfold latest, reads_well, describe_hash. rewrite Ha, Hb. cbn [negb le_open le_stop le_io].
  by rewrite Hf, trim_trailing_hex, hex_to_hash_strict_hex, Hr.
Qed.

Lemma ref_read a b s :
  latest_path (store_root_ (svc_store s)) a b ∉ fs_dirs (svc_fs s) ->
  read_file true None (latest_path (store_root_ (svc_store s)) a b) (svc_fs s) = ref_at s a b.
Proof.
  intros Hd. unfold read_file, ref_at. cbn [negb]. rewrite decide_False by done.
  by destruct (fs_files (svc_fs s) !! _).
Qed.

(** No reference's name is a directory's. *)
Definition refs_clear (s : Service) : Prop :=
  fs_ok (svc_fs s) /\
  forall a b, is_valid_state_ref_component a = true -> is_valid_state_ref_component b = true ->
    latest_path (store_root_ (svc_store s)) a b ∉ fs_dirs (svc_fs s).

(** [mkstemp] fills in letters and digits. *)
Definition suffix_ok (env : PublishEnv) : Prop :=
  forall sfx, pe_mkstemp env = inr sfx -> slash ∉ sfx.

Lemma publish_refs env root a b hex fs fs' r :
  is_valid_state_ref_component a = true -> is_valid_state_ref_component b = true ->
  fs_ok fs -> suffix_ok env -> publish_latest_ref env root a b hex fs = (fs', r) ->
  let target := latest_path root a b in
  (forall a' b', is_valid_state_ref_component a' = true -> is_valid_state_ref_component b' = true ->
     (a', b') <> (a, b) ->
     fs_files fs' !! latest_path root a' b' = fs_files fs !! latest_path root a' b') /\
  (fs_files fs' !! target = fs_files fs !! target \/ fs_files fs' !! target = Some (mkSFile hex hex)) /\
  (r = Ok () -> fs_files fs' !! target = Some (mkSFile hex hex) /\ (target ∉ fs_dirs fs') /\
     kept_files fs' !! target = Some hex /\ fs_ok fs' /\
     Forall (fun d => d ∈ kept_dirs fs') (latest_levels root a)) /\
  (r <> Ok () -> kept_files fs' !! target = kept_files fs !! target \/
     kept_files fs' !! target = sf_synced <$> fs_files fs !! target).
Proof.
  intros [Ha _]%valid_component_clean [Hb _]%valid_component_clean Hok Hsfx H target.
  pose proof H as Hp. apply publish_spec in H as (f1 & S1 & H & Hlev); [|done..].
  destruct S1 as [Sf S1d _ Sk]. destruct H as [(m & Hm & [Sm Sd Sdk _] & Hyes & Hno)|[-> Hr]].
  2:{ rewrite Sf. split; [done|]. split; [by left|]. split; [done|]. intros _. apply Sk. }
  rewrite Sf in *. cbn [fs_files set_files] in Sm. rewrite Sm. split; [|split; [|split]].
  - intros a' b' [Ha' _]%valid_component_clean [Hb' Hdot]%valid_component_clean Hne.
    destruct Hm as [|sfx file Hs%Hsfx|]; [done| |]; apply lookup_insert_ne, not_eq_sym.
    + by apply latest_path_not_temp.
    + intros [-> ->]%latest_path_inj; done.
  - destruct Hm as [|sfx file Hs|]; [by left| |right; apply lookup_insert_eq].
    unfold target. destruct (decide (latest_path root a b = temp_path (latest_dir root a) b sfx)) as [E|E].
    + exfalso. apply under_inj in E as [_ E]; [|done|].
      * apply (f_equal length) in E. revert E. rewrite !length_app. simpl. lia.
      * rewrite !not_elem_of_app. split; [by apply find_char_None|].
        repeat split; [done|by apply find_char_None|by apply Hsfx].
    + left. by apply lookup_insert_ne, not_eq_sym.
  - intros Hr. destruct (Hyes Hr) as (-> & Hd & Hk), (Hlev Hr) as (O1 & L1).
    split; [apply lookup_insert_eq|]. cbn [set_files fs_dirs kept_dirs] in Sd, Sdk.
    destruct Sdk as [Ik Ok']; [done|]. cbn [set_files kept_dirs] in Ik. split; [|split; [done|split; [done|]]].
    + intros Hin. pose proof (publish_dirs env root a b hex fs) as Hsub. rewrite Hp in Hsub.
      apply Hsub in Hin as [Hin%elem_of_list_to_set|Hin]%elem_of_union.
      * by apply latest_path_not_level in Hin.
      * by apply Hd, S1d.
    + eapply Forall_impl; [exact L1|]. intros d. apply Ik.
  - intros Hr. rewrite Hno by done. apply Sk.
Qed.

(** The record a request has the service write. *)
Definition request_payload (req : AppendRequest) : Hash :=
  match parse_optional_hash (payload_ref (rq_record req)) "payload_ref" with
  | Ok h => h
  | Err _ => ZERO_HASH
  end.

Definition appended (req : AppendRequest) : AgentStateRecord :=
  set_deps (append_deps req (request_payload req)) (rq_record req).

Lemma check_request_payload env st req payload :
  check_request env st req = Ok payload -> payload = request_payload req.
Proof.
  unfold check_request, request_payload. destruct (negb _); [done|]. destruct (negb _); [done|].
  destruct (parse_optional_hash (parent_state_id _) _); [|done].
  destruct (parse_optional_hash (snapshot_base_state_id _) _); [|done].
  destruct (parse_optional_hash (payload_ref _) _); [|done].
  destruct (parse_optional_hash (as_union_state_id _) _); [|done]. cbn [rbind].
  destruct (if rq_sync req then _ else _); [|done]. by intros [= <-].
Qed.

(** The state an append returned an id for: written, readable, and durable when
    that was asked for. *)
Lemma append_writes blake3 U env req s s' res :
  write_fits blake3 U (svc_store s) (serialize_agent_state_record (appended req)) ->
  fits (rq_record req) -> append blake3 env req s = (s', res) -> ar_state_id res <> [] ->
  exists h, ar_state_id res = hash_to_hex h /\
    read_agent_state_record (svc_store s') true h = Ok (set_state_id (hash_to_hex h) (appended req)) /\
    retains (svc_store s) (svc_store s') /\ store_inv blake3 (svc_store s') /\
    (forall k o, disk (svc_store s') !! k = Some o -> U (f_content o)) /\
    store_root_ (svc_store s') = store_root_ (svc_store s) /\
    (rq_sync req = true -> forall d, d ∈ dependency_hashes (appended req) ++ [h] -> durable (svc_store s') d).
Proof.
  intros Hw Hf Ha Hid. apply append_inv in Ha as [(_ & _ & ?)|H]; [done|].
  destruct H as (payload & rec' & h & fs1 & r1 & Hc & Hwr & Hi & _).
  apply check_request_payload in Hc as ->. exists h. split; [done|].
  pose proof (write_agent_state_root blake3 (svc_store s) (rq_record req)
    (append_deps req (request_payload req)) (if rq_sync req then Some (ae_fsync env) else None)
    (ae_write env)) as Hroot. rewrite Hwr in Hroot.
  apply (write_agent_state_ok blake3 U) in Hwr as (Hr & -> & Hret & Hinv & HU & Hdur & _); [|done..].
  split; [done|]. split; [done|]. split; [done|]. split; [done|]. split; [done|].
  intros Hs. rewrite Hs in Hdur. unfold appended. destruct (rq_record req). apply Hdur. by eexists.
Qed.

Lemma valid_component_nonempty name : is_valid_state_ref_component name = true -> name <> [].
Proof. by intros H ->. Qed.

Lemma log_keeps_refs env (root a b hex : str) (ts : N) fs a' b' :
  is_valid_state_ref_component a' = true -> is_valid_state_ref_component b' = true ->
  let fs' := append_index_log env root a b hex ts fs in let target := latest_path root a' b' in
  fs_files fs' !! target = fs_files fs !! target /\
  (target ∈ fs_dirs fs' -> target ∈ fs_dirs fs).
Proof.
  intros Ha [Hb _]%valid_component_clean. cbv zeta.
  destruct (append_index_log_spec env root a b hex ts fs) as (Hf & _ & Hd & _).
  split.
  - apply Hf, latest_path_not_log; [done|by apply valid_component_nonempty].
  - intros [E%elem_of_singleton|?]%Hd%elem_of_union; [|done]. by apply latest_path_not_state in E.
Qed.

(** The references after an append: only the request's own may change, to the
    id returned, and only when the append is durable. *)
Lemma append_refs blake3 env req s s' res a' b' :
  fs_ok (svc_fs s) -> suffix_ok (ae_publish env) -> append blake3 env req s = (s', res) ->
  is_valid_state_ref_component a' = true -> is_valid_state_ref_component b' = true ->
  let target := latest_path (store_root_ (svc_store s)) a' b' in
  (fs_files (svc_fs s') !! target = fs_files (svc_fs s) !! target \/
   rq_sync req = true /\ ar_state_id res <> [] /\
   (a', b') = (agent_id (rq_record req), as_branch (rq_record req)) /\
   fs_files (svc_fs s') !! target = Some (mkSFile (ar_state_id res) (ar_state_id res))) /\
  (target ∈ fs_dirs (svc_fs s') -> target ∈ fs_dirs (svc_fs s)).
Proof.
  intros Hok Hsfx H Ha Hb target.
  apply append_inv in H as [(-> & _)|(payload & rec' & h & fs1 & r1 & Hc & _ & -> & _ & Hp & _ & Hfs)].
  { split; [by left|done]. }
  apply check_request_valid in Hc as [Va Vb].
  assert (fs_files (svc_fs s') !! target = fs_files fs1 !! target /\
    (target ∈ fs_dirs (svc_fs s') -> target ∈ fs_dirs fs1)) as [Hf Hd].
  { rewrite Hfs. destruct (is_ok r1); [by apply log_keeps_refs|done]. }
  rewrite Hf. destruct (rq_sync req); [|injection Hp as <- _; split; [by left|done]].
  pose proof (publish_refs _ _ _ _ _ _ _ _ Va Vb Hok Hsfx Hp) as (Hoth & Hown & _). split.
  - destruct (decide ((a', b') = (agent_id (rq_record req), as_branch (rq_record req)))) as [E|E];
      [|left; by apply Hoth].
    injection E as -> ->. destruct Hown as [Hown|Hown]; [by left|right].
    split; [done|]. split; [|done]. intros E. apply (f_equal length) in E. by rewrite hash_to_hex_length in E.
  - intros Hin%Hd. pose proof (publish_dirs (ae_publish env) (store_root_ (svc_store s)) (agent_id (rq_record req))
      (as_branch (rq_record req)) (hash_to_hex h) (svc_fs s)) as Hsub. rewrite Hp in Hsub.
    apply Hsub in Hin as [Hin%elem_of_list_to_set|Hin]%elem_of_union; [|done].
    apply valid_component_clean in Va as [Va _], Hb as [Hb _].
    by apply latest_path_not_level in Hin.
Qed.

(** The reference a successful durable append leaves, in memory and on disk. *)
Lemma append_own_ref blake3 env req s s' res :
  fs_ok (svc_fs s) -> suffix_ok (ae_publish env) -> append blake3 env req s = (s', res) ->
  ar_ok res = true -> rq_sync req = true ->
  let root := store_root_ (svc_store s) in
  let a := agent_id (rq_record req) in let b := as_branch (rq_record req) in
  let target := latest_path root a b in
  is_valid_state_ref_component a = true /\ is_valid_state_ref_component b = true /\
  ar_state_id res <> [] /\
  read_file true None target (svc_fs s') = Some (ar_state_id res) /\
  read_file true None target (after_crash root (svc_fs s')) = Some (ar_state_id res).
Proof.
  intros Hok Hsfx H Hres Hsync. cbv zeta.
  apply append_inv in H as [(_ & E & _)|(payload & rec' & h & fs1 & r1 & Hc & _ & -> & _ & Hp & Hr & Hfs)];
    [congruence|].
  apply check_request_valid in Hc as [Va Vb]. rewrite Hsync in Hp. rewrite Hres in Hr.
  destruct r1 as [[]|]; [|done]. cbn [is_ok] in Hfs.
  pose proof (publish_refs _ _ _ _ _ _ _ _ Va Vb Hok Hsfx Hp) as (_ & _ & Hown & _).
  destruct (Hown eq_refl) as (Hfile & Hd & Hk & Ok1 & Hlev).
  split; [done|]. split; [done|]. split.
  { intros E. apply (f_equal length) in E. by rewrite hash_to_hex_length in E. }
  pose proof (log_keeps_refs (ae_log env) (store_root_ (svc_store s)) (agent_id (rq_record req))
    (as_branch (rq_record req)) (hash_to_hex h) (as_timestamp_ns rec') fs1 _ _ Va Vb) as [Lf Ld].
  destruct (append_index_log_spec (ae_log env) (store_root_ (svc_store s)) (agent_id (rq_record req))
    (as_branch (rq_record req)) (hash_to_hex h) (as_timestamp_ns rec') fs1) as (_ & Hd1 & _ & Kd & Kf).
  rewrite <- Hfs in *. split.
  - unfold read_file. cbn [negb]. rewrite decide_False by tauto. by rewrite Lf, Hfile.
  - pose proof (valid_component_clean _ Va) as [Sa _]. pose proof (valid_component_clean _ Vb) as [Sb _].
    apply read_after_crash; [done|done| | | |].
    + unfold fs_ok. rewrite Kd. by etrans.
    + rewrite Kd. intros Hin%Ok1. by apply Hd.
    + by rewrite Kd.
    + by rewrite Kf.
Qed.

Lemma latest_preserved a b s s' rec :
  retains (svc_store s) (svc_store s') ->
  store_root_ (svc_store s') = store_root_ (svc_store s) ->
  let target := latest_path (store_root_ (svc_store s)) a b in
  (is_valid_state_ref_component a = true -> is_valid_state_ref_component b = true ->
   fs_files (svc_fs s') !! target = fs_files (svc_fs s) !! target /\
   (target ∈ fs_dirs (svc_fs s') -> target ∈ fs_dirs (svc_fs s))) ->
  latest reads_well a b s = Ok rec -> latest reads_well a b s' = Ok rec.
Proof.
  intros Hret Hroot target Hfs. unfold latest. rewrite Hroot. fold target.
  destruct (is_valid_state_ref_component a); [|done].
  destruct (is_valid_state_ref_component b); [|done]. cbn [negb].
  destruct (Hfs eq_refl eq_refl) as [Hf Hd]. unfold read_file, reads_well. cbn [negb le_open le_stop le_io].
  rewrite Hf. destruct (decide (target ∈ fs_dirs (svc_fs s))) as [Hin|Hin]; [done|].
  rewrite (decide_False (P := target ∈ fs_dirs (svc_fs s'))) by tauto.
  destruct (fs_files (svc_fs s) !! target); [|done]. simpl.
  destruct (hex_to_hash_strict _) as [id|]; [|done]. unfold describe_hash.
  destruct (read_agent_state_record (svc_store s) true id) as [rec0|e] eqn:E; [|done].
  intros [= <-]. by rewrite (retains_read _ _ _ _ Hret E).
Qed.

(** C24. A durable append that succeeds makes its state the latest of the agent
    and branch, now and after a crash: [latest] returns the record that was
    given, with the id and the dependencies the service derived, all of them
    durable with the state. What [latest] returned for any other agent or
    branch it still returns. *)
Theorem durable_append_is_latest blake3 U env req s s' res :
  write_fits blake3 U (svc_store s) (serialize_agent_state_record (appended req)) ->
  fits (rq_record req) -> refs_clear s -> suffix_ok (ae_publish env) ->
  append blake3 env req s = (s', res) -> ar_ok res = true -> rq_sync req = true ->
  let a := agent_id (rq_record req) in let b := as_branch (rq_record req) in
  let rec := set_state_id (ar_state_id res) (appended req) in
  latest reads_well a b s' = Ok rec /\ latest reads_well a b (crash s') = Ok rec /\
  describe true (ar_state_id res) s' = Ok rec /\
  (forall d, d ∈ dependency_hashes rec -> durable (svc_store s') d) /\
  (forall a' b' rec', (a', b') <> (a, b) -> latest reads_well a' b' s = Ok rec' ->
     latest reads_well a' b' s' = Ok rec').
Proof.
  intros Hw Hf [Hok Hclear] Hsfx Happ Hres Hsync a b rec.
  pose proof (append_own_ref _ _ _ _ _ _ Hok Hsfx Happ Hres Hsync) as (Va & Vb & Hne & Hnow & Hthen).
  pose proof (append_writes _ _ _ _ _ _ _ Hw Hf Happ Hne) as (h & Hid & Hr & Hret & _ & _ & Hroot & Hdur).
  specialize (Hdur Hsync). subst rec. rewrite Hid in *. fold a b in Hnow, Hthen, Va, Vb.
  split; [|split; [|split; [|split]]].
  - apply latest_of_ref with h; [done|done|by rewrite Hroot|done].
  - apply latest_of_ref with h; [done|done| |].
    + cbn [crash svc_store svc_fs crash_store store_root_]. by rewrite Hroot.
    + apply crash_read; [|done]. apply Hdur. set_solver.
  - unfold describe, describe_hash. by rewrite hex_to_hash_strict_hex, Hr.
  - intros d Hin. apply Hdur, elem_of_app. left. unfold appended in *. by destruct (rq_record req).
  - intros a' b' rec' Hab. apply latest_preserved; [done|done|].
    intros Va' Vb'. destruct (append_refs _ _ _ _ _ _ a' b' Hok Hsfx Happ Va' Vb') as [[H|(_ & _ & H & _)] Hd];
      [|done]. by split.
Qed.

(** Whatever fails, an append leaves every reference as it was, except that
    a durable append may have replaced its own agent and branch's by the id it
    returns, the id of a state that is readable and durable with all its
    dependencies; without an id the directory is untouched. What a crash would
    leave of its own reference after a failure is what it would have left
    before, or the contents last synced under that name. *)
Theorem append_keeps_references blake3 U env req s s' res :
  write_fits blake3 U (svc_store s) (serialize_agent_state_record (appended req)) ->
  fits (rq_record req) -> fs_ok (svc_fs s) -> suffix_ok (ae_publish env) ->
  append blake3 env req s = (s', res) ->
  let own := (agent_id (rq_record req), as_branch (rq_record req)) in
  let target := latest_path (store_root_ (svc_store s)) own.1 own.2 in
  (forall a b, is_valid_state_ref_component a = true -> is_valid_state_ref_component b = true ->
     ref_at s' a b = ref_at s a b \/
     rq_sync req = true /\ (a, b) = own /\ ref_at s' a b = Some (ar_state_id res) /\
     exists h, hash_to_hex h = ar_state_id res /\
       read_agent_state_record (svc_store s') true h = Ok (set_state_id (ar_state_id res) (appended req)) /\
       forall d, d ∈ dependency_hashes (appended req) ++ [h] -> durable (svc_store s') d) /\
  (ar_state_id res = [] -> svc_fs s' = svc_fs s /\ ar_ok res = false) /\
  (ar_ok res = false ->
     kept_files (svc_fs s') !! target = kept_files (svc_fs s) !! target \/
     kept_files (svc_fs s') !! target = sf_synced <$> fs_files (svc_fs s) !! target).
Proof.
  intros Hw Hf Hok Hsfx Happ own target. split; [|split].
  - intros a b Va Vb. unfold ref_at.
    pose proof (append_root blake3 env req s) as Hroot. rewrite Happ in Hroot. cbn [fst] in Hroot. rewrite Hroot.
    destruct (append_refs _ _ _ _ _ _ a b Hok Hsfx Happ Va Vb) as [[-> | (Hs & Hne & E & Hfile)] _];
      [by left|right].
    rewrite Hfile. split; [done|]. split; [done|]. split; [done|].
    pose proof (append_writes _ _ _ _ _ _ _ Hw Hf Happ Hne) as (h & Hid & Hr & _ & _ & _ & _ & Hdur).
    exists h. rewrite Hid in *. split; [done|]. split; [done|]. by apply Hdur.
  - intros Hid. apply append_inv in Happ as [(? & ? & _)|(p & r & h & f & r1 & _ & _ & E & _)]; [done|].
    apply (f_equal length) in E. by rewrite Hid, hash_to_hex_length in E.
  - intros Hres. apply append_inv in Happ
      as [(-> & _)|(p & rec' & h & fs1 & r1 & Hc & _ & _ & _ & Hp & Hr & Hfs)]; [by left|].
    rewrite Hres in Hr. rewrite <- Hr in Hfs. cbn in Hfs. rewrite Hfs.
    apply check_request_valid in Hc as [Va Vb].
    destruct (rq_sync req); [|injection Hp as <- <-; by left].
    apply (publish_refs _ _ _ _ _ _ _ _ Va Vb Hok Hsfx Hp). intros ->. done.
Qed.

(** ** Restoring a session *)

(** The records from [cur] back, up to and with the first that ends the walk. *)
Inductive walk (st : ObjectStore) (anchor : str) : Hash -> list AgentStateRecord -> Prop :=
| WalkEnd cur rec :
    read_agent_state_record st true cur = Ok rec -> walk_ends anchor rec = true ->
    walk st anchor cur [rec]
| WalkStep cur rec next l :
    read_agent_state_record st true cur = Ok rec -> walk_ends anchor rec = false ->
    hex_to_hash_strict (parent_state_id rec) = Some next -> walk st anchor next l ->
    walk st anchor cur (rec :: l).

Definition no_io_errors : nat -> bool := fun _ => true.

Lemma restore_loop_sound st budget anchor cur chain :
  let r := restore_loop no_io_errors st budget (Some anchor) cur chain in
  (exists more, rr_chain r = chain ++ more /\ (length more <= budget)%nat) /\
  (rr_ok r = true ->
   exists l, r = mkRestore true [] (chain ++ l) /\ walk st anchor cur l /\ (length l <= budget)%nat).
Proof.
  cbv zeta. revert cur chain. induction budget as [|budget IH]; intros cur chain; cbn [restore_loop].
  { split; [|done]. exists []. by rewrite app_nil_r. }
  change (no_io_errors (length chain)) with true. destruct (read_agent_state_record st true cur) as [rec|e] eqn:E.
  2:{ split; [|done]. exists []. rewrite app_nil_r. split; [done|simpl; lia]. }
  change (default (snapshot_base_state_id rec) (Some anchor)) with anchor. destruct (walk_ends anchor rec) eqn:Ee.
  { split; [exists [rec]; split; [done|simpl; lia]|]. intros _. exists [rec].
    split; [done|]. split; [by constructor|simpl; lia]. }
  destruct (hex_to_hash_strict (parent_state_id rec)) as [next|] eqn:En.
  2:{ split; [|done]. exists [rec]. simpl. split; [done|lia]. }
  destruct (IH next (chain ++ [rec])) as [(more & Hm & Hl) Hok]. split.
  - exists (rec :: more). rewrite Hm, <- app_assoc. simpl. split; [done|lia].
  - intros (l & -> & Hw & Hl')%Hok. exists (rec :: l). rewrite <- app_assoc. split; [done|].
    split; [by econstructor|simpl; lia].
Qed.

Lemma restore_loop_complete st budget anchor cur chain l :
  walk st anchor cur l ->
  restore_loop no_io_errors st budget (Some anchor) cur chain =
  if decide (length l <= budget)%nat then mkRestore true [] (chain ++ l)
  else mkRestore false too_deep (chain ++ take budget l).
Proof.
  intros Hw. revert budget chain.
  induction Hw as [cur rec E Ee|cur rec next l E Ee En Hw IH]; intros [|budget] chain; cbn [restore_loop].
  - rewrite decide_False by (simpl; lia). by rewrite app_nil_r.
  - change (no_io_errors (length chain)) with true. rewrite E. change (default (snapshot_base_state_id rec) (Some anchor)) with anchor. rewrite Ee. rewrite decide_True by (simpl; lia). done.
  - rewrite decide_False by (simpl; lia). by rewrite app_nil_r.
  - change (no_io_errors (length chain)) with true. rewrite E. change (default (snapshot_base_state_id rec) (Some anchor)) with anchor. rewrite Ee, En, IH, <- app_assoc. simpl.
    do 2 case_decide; try lia; by rewrite <- ?app_assoc.
Qed.

(** The first record sets the anchor. *)
Lemma restore_loop_first st budget cur rec :
  read_agent_state_record st true cur = Ok rec ->
  restore_loop no_io_errors st budget None cur [] =
  restore_loop no_io_errors st budget (Some (snapshot_base_state_id rec)) cur [].
Proof. intros E. destruct budget; [done|]. cbn [restore_loop]. change (no_io_errors (length _)) with true. by rewrite E. Qed.

Lemma walk_head st anchor cur l :
  walk st anchor cur l -> exists rec l', l = rec :: l' /\ read_agent_state_record st true cur = Ok rec.
Proof. destruct 1; eauto. Qed.

(** [restore_session] succeeds with a chain exactly when, following parents
    from the requested state, that chain is what is read up to and with the
    first record that is the requested record's snapshot base or has no parent,
    and it has at most [max_depth] records. It never visits more, whatever the
    parents say, so a cycle or an endless chain is an error and not a hang. *)
Theorem restore_session_exact s id start max_depth :
  hex_to_hash_strict id = Some start ->
  let r := restore_session no_io_errors id max_depth s in
  (length (rr_chain r) <= max_depth)%nat /\
  forall l, (rr_ok r = true /\ rr_chain r = l) <->
    (length l <= max_depth)%nat /\
    exists rec, head l = Some rec /\ walk (svc_store s) (snapshot_base_state_id rec) start l.
Proof.
  intros Hid r. subst r. unfold restore_session. rewrite Hid.
  destruct (read_agent_state_record (svc_store s) true start) as [rec|e] eqn:E.
  - rewrite (restore_loop_first _ _ _ rec E).
    destruct (restore_loop_sound (svc_store s) max_depth (snapshot_base_state_id rec) start [])
      as [(more & Hm & Hl) Hok]. split; [by rewrite Hm|]. intros l. split.
    + intros [H <-]. destruct (Hok H) as (l & -> & Hw & Hlen). split; [done|].
      exists rec. split; [|done]. destruct (walk_head _ _ _ _ Hw) as (rec' & l' & -> & E'). simpl. congruence.
    + intros (Hlen & rec' & Hh & Hw). destruct (walk_head _ _ _ _ Hw) as (rec2 & l' & -> & E').
      injection Hh as <-. assert (rec2 = rec) as -> by congruence.
      rewrite (restore_loop_complete _ _ _ _ _ _ Hw).
      by rewrite decide_True.
  - assert (forall anchor l, ~ walk (svc_store s) anchor start l) as Hno.
    { intros anchor l (rec & l' & _ & E')%walk_head. congruence. }
    destruct max_depth as [|n]; cbn [restore_loop]; [|change (no_io_errors (length _)) with true; rewrite E]; simpl;
      (split; [lia|]); intros l; split; try (by intros []); intros (_ & rec & _ & Hw); by apply Hno in Hw.
Qed.

(** ** Witnesses *)

(** A store that holds a session's first state, written without [sync]. *)
Definition base_state : AgentStateRecord :=
  mkAS 1 [] [] [] (lit "main") ZERO_HASH [] [] (lit "a1") 0 Session [] [] [] [] 5 false.

Definition state_content (rec : AgentStateRecord) : bytes :=
  lit "blob" ++ blob_body (serialize_agent_state_record rec).

Definition base_hash : Hash := toy_blake3 (state_content base_state).

Definition base_store : ObjectStore :=
  set_shards {[shard_of base_hash]}
    (set_disk {[base_hash := mkFile (state_content base_state) 5]} (empty_store (lit "/s"))).

Definition base_fs : StateFs := mkStateFs {[lit "/s"]} ∅ {[lit "/s"]} ∅.
Definition base_service : Service := mkService base_store base_fs.

Definition no_publish_faults : PublishEnv :=
  mkPublishEnv (fun _ => None) (fun _ => None) (fun _ => [Interrupted]) (inr (lit "a1B2c3"))
    [Wrote 10; WInterrupted] [Interrupted] None true.

Definition no_append_faults : AppendEnv :=
  mkAppendEnv true true true (no_faults 6) all_sync_ok no_publish_faults
    (mkLogEnv None true None).

(** The first durable record: the base is its parent. *)
Definition tip_state : AgentStateRecord :=
  set_parent (hash_to_hex base_hash) (set_base (hash_to_hex base_hash) base_state).

Definition tip_request : AppendRequest := mkRequest tip_state [] true.

Definition tip_run : Service * AppendResult := append toy_blake3 no_append_faults tip_request base_service.

Definition toy_contents (c : bytes) : Prop := c = state_content base_state \/ c = state_content tip_state.

Lemma toy_contents_free : collision_free toy_blake3 toy_contents.
Proof. intros a b [->| ->] [->| ->] E; [done|by vm_compute in E|by vm_compute in E|done]. Qed.

Lemma base_store_inv : store_inv toy_blake3 base_store.
Proof.
  split; cbn.
  - intros h o [<- <-]%lookup_singleton_Some. done.
  - intros h [o [<- _]%lookup_singleton_Some]. set_solver.
  - set_solver.
Qed.

Lemma tip_fits : write_fits toy_blake3 toy_contents base_store (serialize_agent_state_record (appended tip_request)).
Proof.
  split.
  - apply base_store_inv.
  - intros k o H. cbn in H. apply lookup_singleton_Some in H as [_ <-]. by left.
  - apply toy_contents_free.
  - by right.
  - vm_compute. reflexivity.
Qed.

Lemma base_refs_clear : refs_clear base_service.
Proof.
  split; [by unfold fs_ok|]. intros a b _ _ H.
  change (latest_path (lit "/s") a b ∈@{gset str} {[lit "/s"]}) in H.
  apply elem_of_singleton, (f_equal length) in H. revert H.
  unfold latest_path, latest_dir, under. rewrite !length_app. simpl. lia.
Qed.

Lemma no_publish_suffix : suffix_ok no_publish_faults.
Proof. intros sfx [= <-]. by apply find_char_None. Qed.

Lemma durable_append_is_latest_witness :
  latest reads_well (lit "a1") (lit "main") (crash tip_run.1) =
    Ok (set_state_id (ar_state_id tip_run.2) (appended tip_request)).
Proof.
  edestruct (durable_append_is_latest toy_blake3 toy_contents no_append_faults tip_request base_service
    tip_run.1 tip_run.2) as (_ & H & _).
  - apply tip_fits.
  - by split.
  - apply base_refs_clear.
  - apply no_publish_suffix.
  - apply surjective_pairing.
  - vm_compute. reflexivity.
  - reflexivity.
  - exact H.
Defined.

(** Replacing the reference fails. *)
Definition failing_env : AppendEnv :=
  mkAppendEnv true true true (no_faults 6) all_sync_ok
    (mkPublishEnv (fun _ => None) (fun _ => None) (fun _ => []) (inr (lit "a1B2c3")) [] []
       (Some (lit "Input/output error")) true) (mkLogEnv None true None).

Definition failing_run : Service * AppendResult :=
  append toy_blake3 failing_env tip_request base_service.

Lemma append_keeps_references_witness :
  ref_at failing_run.1 (lit "a1") (lit "review") = ref_at base_service (lit "a1") (lit "review").
Proof.
  edestruct (append_keeps_references toy_blake3 toy_contents failing_env tip_request base_service
    failing_run.1 failing_run.2) as [H _].
  - apply tip_fits.
  - by split.
  - apply base_refs_clear.
  - intros sfx [= <-]. by apply find_char_None.
  - apply surjective_pairing.
  - destruct (H (lit "a1") (lit "review")) as [E|(_ & E & _)]; [reflexivity|reflexivity|exact E|].
    discriminate E.
Defined.

Lemma restore_session_exact_witness :
  rr_chain (restore_session no_io_errors (hash_to_hex base_hash) 1 base_service) = [set_state_id (hash_to_hex base_hash) base_state].
Proof.
  apply (restore_session_exact base_service (hash_to_hex base_hash) base_hash 1).
  - apply hex_to_hash_strict_hex.
  - split; [simpl; lia|]. eexists. split; [reflexivity|]. constructor; [|reflexivity].
    vm_compute. reflexivity.
Defined.
