(* ===== verification/AgentSessions.v ===== *)
(** Sessions of agent states: what [restore_session] returns after a sequence of
    appends that chain their records, and two chains it does not stop or end
    where the record says (cas/agent_state_service.cpp). *)

From S2P Require Import Prelude Hashes ObjectStore KvCodec Refs AgentState StateFs AgentService.

Section runs.
Context (blake3 : bytes -> Hash) (U : bytes -> Prop).

(** The hash function tells the bodies in play apart. *)
Definition request_fits (req : AppendRequest) : Prop :=
  fits (rq_record req) /\
  U (lit "blob" ++ blob_body (serialize_agent_state_record (appended req))) /\
  N.of_nat (length (serialize_agent_state_record (appended req))) < 2 ^ 63 - 12.

Definition store_fits (st : ObjectStore) : Prop :=
  store_inv blake3 st /\ forall k o, disk st !! k = Some o -> U (f_content o).

(** A session as clients build one, the newest record first: its first record
    has neither parent nor base, each later one has the previous as its parent
    and the first as its base, and other agents append in between. *)
Inductive session_run (first : str) : Service -> list AgentStateRecord -> Prop :=
| SessionFirst env req s s' res :
    store_fits (svc_store s) -> request_fits req ->
    append blake3 env req s = (s', res) -> ar_state_id res = first -> first <> [] ->
    parent_state_id (rq_record req) = [] -> snapshot_base_state_id (rq_record req) = [] ->
    session_run first s' [set_state_id first (appended req)]
| SessionNext env req s s' res last l :
    session_run first s (last :: l) -> request_fits req ->
    append blake3 env req s = (s', res) -> ar_state_id res <> [] ->
    parent_state_id (rq_record req) = state_id last ->
    snapshot_base_state_id (rq_record req) = first ->
    session_run first s' (set_state_id (ar_state_id res) (appended req) :: last :: l)
| SessionOther env req s s' res l :
    session_run first s l -> request_fits req ->
    append blake3 env req s = (s', res) -> ar_state_id res <> [] ->
    session_run first s' l.

(** The chain in the store. *)
Inductive linked (st : ObjectStore) (first : str) : list AgentStateRecord -> Prop :=
| LinkFirst h r :
    read_agent_state_record st true h = Ok r -> state_id r = hash_to_hex h -> first = hash_to_hex h ->
    parent_state_id r = [] -> snapshot_base_state_id r = [] -> linked st first [r]
| LinkNext h r r' l :
    read_agent_state_record st true h = Ok r -> state_id r = hash_to_hex h ->
    linked st first (r' :: l) -> parent_state_id r = state_id r' ->
    snapshot_base_state_id r = first -> linked st first (r :: r' :: l).

Lemma linked_retains st st' first l : retains st st' -> linked st first l -> linked st' first l.
Proof. intros Hr. induction 1; econstructor; eauto using retains_read. Qed.

(** The first record, and the newest. *)
Lemma linked_ends st first l :
  linked st first l ->
  (exists h r, first = hash_to_hex h /\ read_agent_state_record st true h = Ok r /\ parent_state_id r = []) /\
  (exists h r l', l = r :: l' /\ state_id r = hash_to_hex h /\ read_agent_state_record st true h = Ok r).
Proof. induction 1 as [h r|h r r' l Hr Hi Hl [IH _]]; split; eauto 10. Qed.

Lemma linked_walk st first r l h :
  linked st first (r :: l) -> state_id r = hash_to_hex h ->
  walk st (match l with [] => snapshot_base_state_id r | _ => first end) h (r :: l) /\
  walk st first h (r :: l).
Proof.
  revert r h. induction l as [|r' l IH]; intros r h Hl Hi; inversion Hl as [h0 ? Hr Hi0 Hf Hp Hb|h0 ? ? ? Hr Hi0 Hl' Hp Hb];
    subst; rewrite Hi in Hi0; apply hash_to_hex_inj in Hi0 as <-.
  - assert (forall a, walk_ends a r = true) as He.
    { intros a. unfold walk_ends. rewrite Hp. by rewrite (bool_decide_eq_true_2 ([] = [])), orb_true_r. }
    split; constructor; auto.
  - destruct (linked_ends _ _ _ Hl') as [(h1 & r1 & Hf & Hr1 & Hp1) (h2 & r2 & l2 & E2 & Hi2 & Hr2)].
    injection E2 as <- <-.
    assert (parent_state_id r <> []) as Hne.
    { rewrite Hp, Hi2. intros E%(f_equal length). by rewrite hash_to_hex_length in E. }
    assert (walk st (snapshot_base_state_id r) h (r :: r' :: l)) as Hw; [|by split].
    apply WalkStep with h2; [done| |by rewrite Hp, Hi2, hex_to_hash_strict_hex|by apply (IH r' h2)].
    unfold walk_ends. rewrite (bool_decide_eq_false_2 (parent_state_id r = [])) by done.
    rewrite orb_false_r, Hf, Hi. apply andb_false_iff. right. apply bool_decide_eq_false.
    intros ->%hash_to_hex_inj. congruence.
Qed.

Context (Hcf : collision_free blake3 U).

Lemma append_step env req s s' res :
  store_fits (svc_store s) -> request_fits req -> append blake3 env req s = (s', res) ->
  ar_state_id res <> [] ->
  store_fits (svc_store s') /\ retains (svc_store s) (svc_store s') /\
  exists h, ar_state_id res = hash_to_hex h /\
    read_agent_state_record (svc_store s') true h = Ok (set_state_id (ar_state_id res) (appended req)).
Proof.
  intros [Hi HU] (Hf & HUb & Hl) Ha Hne.
  assert (write_fits blake3 U (svc_store s) (serialize_agent_state_record (appended req))) as Hw by by split.
  destruct (append_writes _ _ _ _ _ _ _ Hw Hf Ha Hne) as (h & Hid & Hr & Hret & Hi' & HU' & _).
  split; [by split|]. split; [done|]. exists h. by rewrite Hid in *.
Qed.

Lemma session_linked first s l :
  session_run first s l -> store_fits (svc_store s) /\ linked (svc_store s) first l.
Proof.
  induction 1 as [env req s s' res Hs Hq Ha <- Hne Hp Hb|env req s s' res last l _ [Hs Hl] Hq Ha Hne Hp Hb
    |env req s s' res l _ [Hs Hl] Hq Ha Hne];
    destruct (append_step _ _ _ _ _ Hs Hq Ha Hne) as (Hs' & Hret & h & Hid & Hr); (split; [done|]).
  - unfold appended in *. destruct (rq_record req). by apply LinkFirst with h.
  - apply LinkNext with h; [done| |by eapply linked_retains| |];
      unfold appended in *; by destruct (rq_record req).
  - by eapply linked_retains.
Qed.

(** C25. After any run of appends that chains a session's records - whatever
    other agents appended in between, and whether or not publishing the
    references worked - [restore_session] on the newest id returns all the
    session's records, newest first, when [max_depth] admits them, and
    otherwise fails with the [max_depth] newest. *)
Theorem appended_session_restores first s last l max_depth :
  session_run first s (last :: l) ->
  restore_session no_io_errors (state_id last) max_depth s =
  if decide (length (last :: l) <= max_depth)%nat then mkRestore true [] (last :: l)
  else mkRestore false too_deep (take max_depth (last :: l)).
Proof.
  intros [_ Hl]%session_linked.
  destruct (linked_ends _ _ _ Hl) as [_ (h & r & l' & E & Hi & Hr)]. injection E as <- <-.
  unfold restore_session. rewrite Hi, hex_to_hash_strict_hex, (restore_loop_first _ _ _ last Hr).
  destruct (linked_walk _ _ _ _ _ Hl Hi) as [Hw Hw'].
  assert (walk (svc_store s) (snapshot_base_state_id last) h (last :: l)) as Hb.
  { destruct l as [|r' l]; [done|]. inversion Hl; subst. done. }
  apply (restore_loop_complete _ _ _ _ [] _ Hb).
Qed.

End runs.

(** ** Where a session ends *)

Lemma read_state_id st io h rec :
  read_agent_state_record st io h = Ok rec -> state_id rec = hash_to_hex h.
Proof.
  unfold read_agent_state_record. destruct (read_blob st io h); [|done].
  destruct (deserialize_agent_state_record _) as [out|]; [|done]. intros [= <-]. by destruct out.
Qed.

Lemma walk_last st anchor cur l :
  walk st anchor cur l ->
  exists root h, last l = Some root /\ state_id root = hash_to_hex h /\ walk_ends anchor root = true.
Proof.
  induction 1 as [cur rec E Ee|cur rec next l E Ee En Hw (root & h & Hlast & Hid & He)].
  - exists rec, cur. split; [done|]. split; [by eapply read_state_id|done].
  - exists root, h. destruct l; [done|]. by split_and!.
Qed.

(** The walk compares the base's text with the lower-case name of each
    record, but the ids it accepts may be written in upper case: a record whose
    base is not in lower case is restored past its base, to the session's root. *)
Theorem uppercase_base_is_passed s id n rec :
  let r := restore_session no_io_errors id n s in
  rr_ok r = true -> head (rr_chain r) = Some rec ->
  (forall h, snapshot_base_state_id rec <> hash_to_hex h) ->
  exists root, last (rr_chain r) = Some root /\ parent_state_id root = [].
Proof.
  cbv zeta. intros Hok Hh Hb. unfold restore_session in *.
  destruct (hex_to_hash_strict id) as [start|]; [|done].
  destruct (read_agent_state_record (svc_store s) true start) as [rec0|e] eqn:E.
  - rewrite (restore_loop_first _ _ _ rec0 E) in *.
    destruct (restore_loop_sound (svc_store s) n (snapshot_base_state_id rec0) start []) as [_ H].
    destruct (H Hok) as (l & Hr & Hw & _). rewrite Hr in Hh. rewrite Hr. cbn [rr_chain app] in *.
    destruct (walk_head _ _ _ _ Hw) as (rec' & l' & -> & E'). injection Hh as ->.
    assert (rec0 = rec) as -> by congruence.
    destruct (walk_last _ _ _ _ Hw) as (root & h & Hlast & Hid & He). exists root. split; [done|].
    unfold walk_ends in He. apply orb_true_iff in He as [[_ He]%andb_true_iff|He].
    + apply bool_decide_eq_true in He. exfalso. apply (Hb h). congruence.
    + by apply bool_decide_eq_true in He.
  - destruct n; [done|]. cbn [restore_loop] in Hok. change (no_io_errors (length _)) with true in Hok.
    by rewrite E in Hok.
Qed.

(** ** What a durable append makes durable *)

Lemma session_fsync_objects out hs st :
  data_synced (fsync_objects out hs st).1 ⊆ list_to_set hs ∪ data_synced st.
Proof.
  revert st. induction hs as [|h hs IH]; intros st; cbn [fsync_objects]; [set_solver|].
  destruct (disk st !! h); [|set_solver].
  destruct (out h); cbn [fst]; try set_solver.
  etrans; [apply IH|]. simpl. set_solver.
Qed.

Lemma fsync_pending_only env hs st :
  data_synced (fsync_pending env hs st).1 ⊆ list_to_set hs ∪ data_synced st.
Proof.
  unfold fsync_pending. pose proof (session_fsync_objects (object_out env) hs st) as H.
  destruct (fsync_objects _ hs st) as [st1 []]; cbn [fst] in H; [|done].
  destruct (fsync_shard_dirs _ _ hs st1) as [st2 ok] eqn:E.
  apply fsync_shard_dirs_spec in E as (_ & _ & _ & _ & Hd & _).
  destruct ok; cbn [fst]; [|by rewrite Hd]. simpl. by rewrite Hd.
Qed.

Lemma write_object_synced blake3 tag body env st :
  data_synced (write_object blake3 tag body env st).1 ⊆ data_synced st.
Proof.
  unfold write_object. destruct (write_begin blake3 tag body env st) as [st1 [h|h c p]] eqn:E.
  - apply write_begin_done in E as ([_ Hd _|o _ _ Hd _|_ _ Hd _ _] & _); cbn [fst]; by rewrite ?Hd.
  - apply write_begin_publish in E as (_ & _ & _ & _ & Hd & _).
    destruct (write_publish tag env h c p st1) as [st2 r] eqn:E2.
    apply write_publish_wrote in E2 as ([_ Hd2 _|o _ _ Hd2 _|_ _ Hd2 _ _] & _); cbn [fst];
      rewrite <- Hd; by rewrite ?Hd2.
Qed.

(** Only the state and its dependencies are synced. *)
Lemma append_syncs_only blake3 env req s s' res h :
  append blake3 env req s = (s', res) -> ar_state_id res = hash_to_hex h ->
  forall p, p ∉ data_synced (svc_store s) -> p <> h -> p ∉ dependency_hashes (appended req) ->
  p ∉ data_synced (svc_store s').
Proof.
  intros Ha Hid p Hp Hne Hdep.
  apply append_inv in Ha as [(_ & _ & E)|(payload & rec' & h' & fs1 & r1 & Hc & Hw & Hi & _)].
  { rewrite E in Hid. apply (f_equal length) in Hid. by rewrite hash_to_hex_length in Hid. }
  rewrite Hi in Hid. apply hash_to_hex_inj in Hid as ->. apply check_request_payload in Hc as ->.
  assert (dependency_hashes (appended req) = append_deps req (request_payload req)) as Hdeps.
  { unfold appended. by destruct (rq_record req). }
  rewrite Hdeps in Hdep. clear Hdeps. revert Hw. unfold write_agent_state_record.
  destruct (existsb _ _); [done|]. destruct (deserialize_agent_state_record _); [|done].
  pose proof (write_object_synced blake3 (lit "blob") (blob_body (serialize_agent_state_record
    (set_deps (append_deps req (request_payload req)) (rq_record req)))) (ae_write env) (svc_store s)) as Hsub.
  unfold write_blob. destruct (write_object _ _ _ _ _) as [st1 h1]. cbn [fst] in Hsub.
  case_decide; [done|]. destruct (rq_sync req); [|intros [= <- _ _]; set_solver].
  pose proof (fsync_pending_only (ae_fsync env) (append_deps req (request_payload req) ++ [h1]) st1) as Hs.
  destruct (fsync_pending _ _ st1) as [st2 []]; [|done]. intros [= <- _ <-]. cbn [fst] in Hs.
  intros [Hin%elem_of_list_to_set|Hin]%Hs%elem_of_union; [|set_solver].
  apply elem_of_app in Hin as [Hin|Hin%list_elem_of_singleton]; done.
Qed.

(** A durable append checks that its parent is readable, not that it is
    durable, and syncs only the state and its dependencies. When the parent was
    appended without [sync] and is not listed as a dependency, a crash leaves a
    latest reference that resolves to a state whose session cannot be restored. *)
Theorem parent_lost_in_crash blake3 U env req s s' res p n :
  write_fits blake3 U (svc_store s) (serialize_agent_state_record (appended req)) ->
  fits (rq_record req) -> refs_clear s -> suffix_ok (ae_publish env) ->
  append blake3 env req s = (s', res) -> ar_ok res = true -> rq_sync req = true ->
  hex_to_hash_strict (parent_state_id (rq_record req)) = Some p ->
  p ∉ data_synced (svc_store s) -> p ∉ dependency_hashes (appended req) ->
  hash_to_hex p <> ar_state_id res -> snapshot_base_state_id (rq_record req) <> ar_state_id res ->
  latest reads_well (agent_id (rq_record req)) (as_branch (rq_record req)) (crash s') =
    Ok (set_state_id (ar_state_id res) (appended req)) /\
  rr_ok (restore_session no_io_errors (ar_state_id res) n (crash s')) = false.
Proof.
  intros Hw Hf Hc Hsfx Ha Hok Hsync Hpar Hp Hdep Hne Hbase.
  pose proof (append_own_ref _ _ _ _ _ _ (proj1 Hc) Hsfx Ha Hok Hsync) as (Va & Vb & Hid0 & _ & Hthen).
  destruct (append_writes _ _ _ _ _ _ _ Hw Hf Ha Hid0) as (h & Hid & Hr & _ & _ & _ & Hroot & Hdur).
  assert (durable (svc_store s') h) as Hd by (apply (Hdur Hsync), elem_of_app; right; by left).
  pose proof (crash_read _ _ _ Hd Hr) as Hcr. rewrite Hid in *. split.
  - apply latest_of_ref with h; [done|done| |done]. cbn [crash svc_store svc_fs crash_store store_root_].
    by rewrite Hroot.
  - unfold restore_session. rewrite hex_to_hash_strict_hex, (restore_loop_first _ _ _ _ Hcr).
    destruct n as [|n]; [done|]. cbn [restore_loop]. change (no_io_errors (length _)) with true.
    cbn [crash svc_store]. rewrite Hcr.
    assert (p ∉ data_synced (svc_store s')) as Hps.
    { eapply append_syncs_only; [done|done|done|by intros ->|done]. }
    unfold walk_ends, appended. destruct (rq_record req) as [? ? par base ?]; cbn in Hpar, Hbase |- *.
    rewrite (bool_decide_eq_false_2 (par = [])) by (by intros ->).
    rewrite (bool_decide_eq_false_2 (hash_to_hex h = base)) by congruence.
    rewrite andb_false_r. cbn. rewrite Hpar. destruct n as [|n]; [done|]. cbn [restore_loop].
    assert (forall io, read_agent_state_record (crash_store (svc_store s')) io p =
      Err (lit "object store read_blob failed")) as Hlost; [|by rewrite Hlost].
    intros []; [|done]. unfold read_agent_state_record, read_blob, read_object, crash_store. cbn.
    rewrite map_lookup_filter. destruct (disk (svc_store s') !! p); [|done]. cbn.
    rewrite option_guard_False; [done|]. unfold durable. tauto.
Qed.

(** ** Witnesses *)

Definition quiet (now : Z) : AppendEnv :=
  mkAppendEnv true true true (no_faults now) all_sync_ok no_publish_faults (mkLogEnv None true None).

Definition first_run : Service * AppendResult :=
  append toy_blake3 (quiet 5) (mkRequest base_state [] false)
    (mkService (empty_store (lit "/s")) base_fs).

Definition second_run : Service * AppendResult :=
  append toy_blake3 (quiet 6) (mkRequest tip_state [] false) first_run.1.

Lemma empty_store_fits : store_fits toy_blake3 toy_contents (empty_store (lit "/s")).
Proof. split; [|done]. split; simpl; [done|by intros h []|set_solver]. Qed.

Lemma toy_request_fits rec :
  rec = base_state \/ rec = tip_state -> request_fits toy_contents (mkRequest rec [] false).
Proof.
  intros [->| ->]; (split; [by split|]); (split; [|vm_compute; reflexivity]); [by left|by right].
Qed.

Lemma appended_session_restores_witness :
  restore_session no_io_errors (state_id (set_state_id (ar_state_id second_run.2) tip_state)) 1 second_run.1 =
  mkRestore false too_deep [set_state_id (ar_state_id second_run.2) tip_state].
Proof.
  apply (appended_session_restores toy_blake3 toy_contents toy_contents_free (ar_state_id first_run.2)
    second_run.1 (set_state_id (ar_state_id second_run.2) (appended (mkRequest tip_state [] false)))
    [set_state_id (ar_state_id first_run.2) (appended (mkRequest base_state [] false))] 1).
  apply SessionNext with (env := quiet 6) (req := mkRequest tip_state [] false) (s := first_run.1).
  - apply SessionFirst with (env := quiet 5) (req := mkRequest base_state [] false)
      (s := mkService (empty_store (lit "/s")) base_fs) (res := first_run.2).
    + apply empty_store_fits.
    + apply toy_request_fits. by left.
    + apply surjective_pairing.
    + reflexivity.
    + by vm_compute.
    + reflexivity.
    + reflexivity.
  - apply toy_request_fits. by right.
  - apply surjective_pairing.
  - by vm_compute.
  - vm_compute. reflexivity.
  - vm_compute. reflexivity.
Defined.

Lemma parent_lost_in_crash_witness :
  rr_ok (restore_session no_io_errors (ar_state_id tip_run.2) 10 (crash tip_run.1)) = false.
Proof.
  edestruct (parent_lost_in_crash toy_blake3 toy_contents no_append_faults tip_request base_service
    tip_run.1 tip_run.2 base_hash 10) as [_ H].
  - apply tip_fits.
  - by split.
  - apply base_refs_clear.
  - apply no_publish_suffix.
  - apply surjective_pairing.
  - vm_compute. reflexivity.
  - reflexivity.
  - apply hex_to_hash_strict_hex.
  - apply not_elem_of_empty.
  - apply not_elem_of_nil.
  - by vm_compute.
  - by vm_compute.
  - exact H.
Defined.

(** A session of three whose newest record names its base in upper case. *)
Definition upper_hex (c : ascii) : ascii :=
  let n := N_of_ascii c in if (97 <=? n) && (n <=? 122) then ascii_of_N (n - 32) else c.

(** A chain of three; the newest has the second as its base. *)
Definition root_state : AgentStateRecord := base_state.
Definition middle_state : AgentStateRecord := set_parent (hash_to_hex (toy_blake3 (state_content root_state))) base_state.

Definition shout_state : AgentStateRecord :=
  set_parent (hash_to_hex (toy_blake3 (state_content middle_state)))
    (set_base (upper_hex <$> hash_to_hex (toy_blake3 (state_content middle_state))) base_state).

Definition put_state (rec : AgentStateRecord) (d : gmap Hash ObjectFile) : gmap Hash ObjectFile :=
  <[toy_blake3 (state_content rec) := mkFile (state_content rec) 5]> d.

Definition shout_service : Service :=
  mkService (set_disk (put_state root_state (put_state middle_state (put_state shout_state ∅)))
    (empty_store (lit "/s"))) base_fs.

Definition shout_restore : RestoreResult :=
  restore_session no_io_errors (hash_to_hex (toy_blake3 (state_content shout_state))) 9 shout_service.

Lemma uppercase_base_is_passed_witness :
  length (rr_chain shout_restore) = 3%nat /\
  exists root, last (rr_chain shout_restore) = Some root /\ parent_state_id root = [].
Proof.
  split; [vm_compute; reflexivity|].
  apply (uppercase_base_is_passed shout_service (hash_to_hex (toy_blake3 (state_content shout_state))) 9
    (set_state_id (hash_to_hex (toy_blake3 (state_content shout_state))) shout_state)).
  - vm_compute. reflexivity.
  - vm_compute. reflexivity.
  - intros h E. destruct (proj1 (hex_to_hash_strict_canonical _ _) (hex_to_hash_strict_hex h)) as [_ Hl].
    rewrite <- E in Hl. vm_compute in Hl. discriminate Hl.
Defined.
