(* ===== verification/RuntimeState.v ===== *)
(** Union runtime states (cas/runtime_state.h, cas/runtime_state.cpp): the
    record, its warnings, its text form, and writing it to and reading it from
    the object store. *)

From S2P Require Import Prelude Hashes ObjectStore KvCodec.

Inductive RestoreEligibility : Type := LiveRuntimeRestorable | FsOnly | MetadataOnly.

Record ResourceWarning : Type := mkWarning {
  w_kind : str;
  w_description : str;
  w_blocker : bool
}.

Record UnionRuntimeState : Type := mkUS {
  us_record_version : N;
  union_state_id : str;
  parent_union_state_id : str;
  us_branch : str;
  us_fs_commit : Hash;
  us_agent_state_id : str;
  us_runtime_id : str;
  runtime_generation : N;
  template_id : str;
  template_kind : str;
  boundary_kind : str;
  command_ref : str;
  resource_manifest_ref : str;
  us_timestamp_ns : N;
  warnings : list ResourceWarning
}.

Definition fresh_union_state : UnionRuntimeState :=
  mkUS 1 [] [] (lit "main") ZERO_HASH [] [] 0 [] (lit "live_fork") [] [] [] 0 [].

(** Assignments to one member. *)
Definition put_record_version x '(mkUS _ b c d e f g h i j k l m n o) := mkUS x b c d e f g h i j k l m n o.
Definition put_id x '(mkUS a _ c d e f g h i j k l m n o) := mkUS a x c d e f g h i j k l m n o.
Definition put_parent x '(mkUS a b _ d e f g h i j k l m n o) := mkUS a b x d e f g h i j k l m n o.
Definition put_branch x '(mkUS a b c _ e f g h i j k l m n o) := mkUS a b c x e f g h i j k l m n o.
Definition put_fs_commit x '(mkUS a b c d _ f g h i j k l m n o) := mkUS a b c d x f g h i j k l m n o.
Definition put_agent_state x '(mkUS a b c d e _ g h i j k l m n o) := mkUS a b c d e x g h i j k l m n o.
Definition put_runtime x '(mkUS a b c d e f _ h i j k l m n o) := mkUS a b c d e f x h i j k l m n o.
Definition put_generation x '(mkUS a b c d e f g _ i j k l m n o) := mkUS a b c d e f g x i j k l m n o.
Definition put_template x '(mkUS a b c d e f g h _ j k l m n o) := mkUS a b c d e f g h x j k l m n o.
Definition put_template_kind x '(mkUS a b c d e f g h i _ k l m n o) := mkUS a b c d e f g h i x k l m n o.
Definition put_boundary x '(mkUS a b c d e f g h i j _ l m n o) := mkUS a b c d e f g h i j x l m n o.
Definition put_command x '(mkUS a b c d e f g h i j k _ m n o) := mkUS a b c d e f g h i j k x m n o.
Definition put_manifest x '(mkUS a b c d e f g h i j k l _ n o) := mkUS a b c d e f g h i j k l x n o.
Definition put_timestamp x '(mkUS a b c d e f g h i j k l m _ o) := mkUS a b c d e f g h i j k l m x o.
Definition put_warnings x '(mkUS a b c d e f g h i j k l m n _) := mkUS a b c d e f g h i j k l m n x.

(** ** Restore eligibility *)

Definition restore_eligibility_to_string (e : RestoreEligibility) : str :=
  match e with
  | LiveRuntimeRestorable => lit "live_runtime_restorable"
  | FsOnly => lit "fs_only"
  | MetadataOnly => lit "metadata_only"
  end.

Definition restore_eligibility_from_string (text : str) : option RestoreEligibility :=
  if decide (text = lit "live_runtime_restorable") then Some LiveRuntimeRestorable
  else if decide (text = lit "fs_only") then Some FsOnly
  else if decide (text = lit "metadata_only") then Some MetadataOnly
  else None.

(** ** Reading a field *)

Definition bar : ascii := "|"%char.

(** [encoded_kind | flag | encoded_description]. *)
Definition assign_warning (st : UnionRuntimeState) (value : str) : result UnionRuntimeState :=
  match find_char bar value with
  | None => Err (lit "warning line missing field separators")
  | Some bar1 =>
      let tail := drop (bar1 + 1) value in
      match find_char bar tail with
      | None => Err (lit "warning line missing description separator")
      | Some n =>
          let* kind := percent_decode (take bar1 value) in
          let flag := take n tail in
          let* blocker :=
            if decide (flag = lit "1") then Ok true
            else if decide (flag = lit "0") then Ok false
            else Err (lit "warning blocker flag must be 0 or 1") in
          let* description := percent_decode (drop (n + 1) tail) in
          Ok (put_warnings (warnings st ++ [mkWarning kind description blocker]) st)
      end
  end.

(** [fs_commit] goes through the lenient [hex_to_hash] on the value's C string.
    Unknown keys are skipped. *)
Definition assign_field (st : UnionRuntimeState) (key value : str) : result UnionRuntimeState :=
  if decide (key = lit "record_version") then
    let* v := parse_u32 value in Ok (put_record_version v st)
  else if decide (key = lit "parent_union_state_id") then
    let* v := percent_decode value in Ok (put_parent v st)
  else if decide (key = lit "branch") then
    let* v := percent_decode value in Ok (put_branch v st)
  else if decide (key = lit "fs_commit") then
    match hex_to_hash value with
    | Some h => Ok (put_fs_commit h st)
    | None => Err (lit "invalid fs_commit hash")
    end
  else if decide (key = lit "agent_state_id") then
    let* v := percent_decode value in Ok (put_agent_state v st)
  else if decide (key = lit "runtime_id") then
    let* v := percent_decode value in Ok (put_runtime v st)
  else if decide (key = lit "runtime_generation") then
    let* v := parse_u64 value in Ok (put_generation v st)
  else if decide (key = lit "template_id") then
    let* v := percent_decode value in Ok (put_template v st)
  else if decide (key = lit "template_kind") then
    let* v := percent_decode value in Ok (put_template_kind v st)
  else if decide (key = lit "boundary_kind") then
    let* v := percent_decode value in Ok (put_boundary v st)
  else if decide (key = lit "command_ref") then
    let* v := percent_decode value in Ok (put_command v st)
  else if decide (key = lit "resource_manifest_ref") then
    let* v := percent_decode value in Ok (put_manifest v st)
  else if decide (key = lit "timestamp_ns") then
    let* v := parse_u64 value in Ok (put_timestamp v st)
  else if decide (key = lit "warning") then assign_warning st value
  else Ok st.

(** ** The text form *)

Definition union_state_header : str := lit "agentvfs.union_runtime_state.v1" ++ [newline].

Definition warning_value (w : ResourceWarning) : str :=
  percent_encode (w_kind w) ++ bar :: (if w_blocker w then lit "1" else lit "0") ++
  bar :: percent_encode (w_description w).

Definition warning_field (w : ResourceWarning) : str * str := (lit "warning", warning_value w).

(** The [key=value] lines in the order they are written. *)
Definition union_state_fields (r : UnionRuntimeState) : list (str * str) :=
  [(lit "record_version", to_string (us_record_version r));
   (lit "parent_union_state_id", percent_encode (parent_union_state_id r));
   (lit "branch", percent_encode (us_branch r));
   (lit "fs_commit", hash_to_hex (us_fs_commit r));
   (lit "agent_state_id", percent_encode (us_agent_state_id r));
   (lit "runtime_id", percent_encode (us_runtime_id r));
   (lit "runtime_generation", to_string (runtime_generation r));
   (lit "template_id", percent_encode (template_id r));
   (lit "template_kind", percent_encode (template_kind r));
   (lit "boundary_kind", percent_encode (boundary_kind r));
   (lit "command_ref", percent_encode (command_ref r));
   (lit "resource_manifest_ref", percent_encode (resource_manifest_ref r));
   (lit "timestamp_ns", to_string (us_timestamp_ns r))] ++
  (warning_field <$> warnings r).

Definition serialize_union_runtime_state (r : UnionRuntimeState) : bytes :=
  union_state_header ++ mjoin (kv_line <$> union_state_fields r).

Definition deserialize_union_runtime_state (body : bytes) : result UnionRuntimeState :=
  read_record "union runtime state" union_state_header assign_field fresh_union_state body.

(** ** The store *)

Definition union_store_error (st : ObjectStore) (what : string) : str :=
  match last_error_ st with [] => lit what | e => e end.

Definition write_union_runtime_state (blake3 : bytes -> Hash) (st : ObjectStore)
    (state : UnionRuntimeState) (env : WriteEnv) : ObjectStore * UnionRuntimeState * result Hash :=
  let '(st1, h) := write_blob blake3 (serialize_union_runtime_state state) env st in
  if decide (h = ZERO_HASH)
  then (st1, state, Err (union_store_error st1 "object store write_blob failed"))
  else (st1, put_id (hash_to_hex h) state, Ok h).

Definition read_union_runtime_state (st : ObjectStore) (io_ok : bool) (id : Hash) :
    result UnionRuntimeState :=
  match read_blob st io_ok id with
  | None => Err (union_store_error st "object store read_blob failed")
  | Some body =>
      let* out := deserialize_union_runtime_state body in Ok (put_id (hash_to_hex id) out)
  end.

(** ** Lemmas *)

Record union_fits (r : UnionRuntimeState) : Prop := {
  union_fits_version : us_record_version r < 2 ^ 32;
  union_fits_generation : runtime_generation r < 2 ^ 64;
  union_fits_timestamp : us_timestamp_ns r < 2 ^ 64
}.

Lemma percent_encode_no_bar s : bar ∉ percent_encode s.
Proof. intros H. by apply percent_encode_clean in H as (_ & _ & _ & ? & _). Qed.

Lemma find_bar_encoded s rest :
  find_char bar (percent_encode s ++ bar :: rest) = Some (length (percent_encode s)).
Proof. apply find_char_app, percent_encode_no_bar. Qed.

Lemma assign_warning_encoded st w :
  assign_warning st (warning_value w) = Ok (put_warnings (warnings st ++ [w]) st).
Proof.
  unfold assign_warning, warning_value. rewrite find_bar_encoded, take_app_length, drop_past.
  set (flag := if w_blocker w then lit "1" else lit "0").
  rewrite (find_char_app bar flag) by (unfold flag; destruct (w_blocker w); by apply find_char_None).
  rewrite take_app_length, drop_past, !percent_roundtrip. unfold flag.
  by destruct w as [k d []].
Qed.

Lemma assign_warnings ws st :
  assign_all assign_field (warning_field <$> ws) st = Ok (put_warnings (warnings st ++ ws) st).
Proof.
  revert st. induction ws as [|w ws IH]; intros st; cbn [fmap list_fmap].
  { rewrite app_nil_r. by destruct st. }
  unfold warning_field at 1. rewrite assign_all_cons.
  change (assign_field st (lit "warning") (warning_value w)) with (assign_warning st (warning_value w)).
  rewrite assign_warning_encoded. cbn [rbind]. rewrite IH. destruct st; simpl. by rewrite <- app_assoc.
Qed.

Lemma assign_union_fields r :
  union_fits r ->
  assign_all assign_field (union_state_fields r) fresh_union_state = Ok (put_id [] r).
Proof.
  intros [Hv Hg Ht]. unfold union_state_fields. cbn [app].
  assign_literal. rewrite parse_u32_to_string by done. cbn [rbind].
  do 2 (assign_literal; rewrite percent_roundtrip; cbn [rbind]).
  assign_literal. rewrite hex_to_hash_hex. cbn [rbind].
  do 2 (assign_literal; rewrite percent_roundtrip; cbn [rbind]).
  assign_literal. rewrite parse_u64_to_string by done. cbn [rbind].
  do 5 (assign_literal; rewrite percent_roundtrip; cbn [rbind]).
  assign_literal. rewrite parse_u64_to_string by done. cbn [rbind].
  rewrite assign_warnings. by destruct r.
Qed.

Lemma warning_value_clean w : newline ∉ warning_value w.
Proof.
  unfold warning_value. rewrite elem_of_app, elem_of_cons, elem_of_app, elem_of_cons.
  intros [H|[H|[H|[H|H]]]]; [|discriminate| |discriminate|];
    try by apply percent_encode_no_newline in H.
  revert H. destruct (w_blocker w); by apply find_char_None.
Qed.

Lemma union_fields_ok r : Forall field_ok (union_state_fields r).
Proof.
  unfold union_state_fields. rewrite Forall_app. split.
  - repeat (constructor; [apply word_field_ok; [done|auto with ctx]|]); constructor.
  - apply Forall_fmap, Forall_true. intros w. apply word_field_ok; [done|apply warning_value_clean].
Qed.

Lemma deserialize_serialize_union r :
  union_fits r -> deserialize_union_runtime_state (serialize_union_runtime_state r) = Ok (put_id [] r).
Proof.
  intros Hf. unfold deserialize_union_runtime_state, serialize_union_runtime_state.
  rewrite read_record_fields; [by apply assign_union_fields|done|apply union_fields_ok].
Qed.

Lemma write_union_reads blake3 U st state env st' state' h :
  store_inv blake3 st -> (forall k o, disk st !! k = Some o -> U (f_content o)) ->
  collision_free blake3 U ->
  let body := serialize_union_runtime_state state in
  U (lit "blob" ++ blob_body body) -> N.of_nat (length body) < 2 ^ 63 - 12 -> union_fits state ->
  write_union_runtime_state blake3 st state env = (st', state', Ok h) ->
  read_union_runtime_state st' true h = Ok (put_id (hash_to_hex h) state) /\
  state' = put_id (hash_to_hex h) state.
Proof.
  intros Hi HU Hcf body HUb Hl Hf. unfold write_union_runtime_state. fold body.
  destruct (write_blob blake3 body env st) as [st1 h1] eqn:Hw. case_decide as Hz; [done|].
  intros [= <- <- <-]. split; [|done].
  apply (write_object_stores blake3 U) in Hw as (-> & _ & _ & (o & Ho & Hc) & _); try done.
  unfold read_union_runtime_state. rewrite (read_blob_body _ _ body); [|lia|by eapply read_object_content].
  unfold body. rewrite deserialize_serialize_union by done. by destruct state.
Qed.

(** ** Properties *)

(** Writing a union runtime state either fails and leaves the caller's value
    as it was, or returns the hash of a blob from which
    [read_union_runtime_state] returns exactly the value the caller now holds:
    every field (whatever bytes its strings have), the warnings in order, and
    the id of that hash. *)
Theorem union_state_write_read blake3 U st state env st' state' r :
  store_inv blake3 st -> (forall k o, disk st !! k = Some o -> U (f_content o)) ->
  collision_free blake3 U ->
  let body := serialize_union_runtime_state state in
  U (lit "blob" ++ blob_body body) -> N.of_nat (length body) < 2 ^ 63 - 12 -> union_fits state ->
  write_union_runtime_state blake3 st state env = (st', state', r) ->
  match r with
  | Ok h => read_union_runtime_state st' true h = Ok state' /\ state' = put_id (hash_to_hex h) state
  | Err _ => state' = state
  end.
Proof.
  intros Hi HU Hcf body HUb Hl Hf Hw. destruct r as [h|msg].
  - destruct (write_union_reads _ _ _ _ _ _ _ _ Hi HU Hcf HUb Hl Hf Hw) as [Hr ->]. done.
  - revert Hw. unfold write_union_runtime_state. destruct (write_blob _ _ _ _). case_decide; by intros [= _ <- _].
Qed.

(** ** Witnesses *)

Definition sample_union_state : UnionRuntimeState :=
  mkUS 1 [] (lit "par=ent") (lit "main") (toy_blake3 (lit "commit")) [] (lit "rt 1") 3 (lit "tpl")
    (lit "live_fork") (lit "tool|call") (lit "ls -l") [] 99
    [mkWarning (lit "socket") (lit "open | listening") true; mkWarning (lit "tty") [] false].

Definition union_written : ObjectStore * UnionRuntimeState * result Hash :=
  write_union_runtime_state toy_blake3 (empty_store (lit "/s")) sample_union_state (no_faults 5).

Definition union_body : bytes := serialize_union_runtime_state sample_union_state.

Lemma union_state_write_read_witness :
  read_union_runtime_state union_written.1.1 true (toy_blake3 (lit "blob" ++ blob_body union_body)) =
  Ok union_written.1.2.
Proof.
  apply (union_state_write_read toy_blake3 (fun c => c = lit "blob" ++ blob_body union_body)
    (empty_store (lit "/s")) sample_union_state (no_faults 5) union_written.1.1 union_written.1.2
    (Ok (toy_blake3 (lit "blob" ++ blob_body union_body)))).
  - split; simpl; [done|by intros h []|set_solver].
  - done.
  - intros a b -> ->. done.
  - reflexivity.
  - vm_compute. reflexivity.
  - by split.
  - vm_compute. reflexivity.
Defined.
