(* ===== verification/Supervisor.v ===== *)
(** The supervisor of cooperative runtimes (cas/runtime_supervisor.h,
    cas/runtime_supervisor.cpp): runtimes, the boundaries at which they wait for
    a snapshot, the templates forked there and the restores driven from them.

    Every operation holds the supervisor's mutex, so each is one step. A
    blocking operation checks its arguments when it enters and decides when it
    wakes, with its condition true or its time over; the two are separate
    functions. The process controller is an interface whose answers come from
    the environment; the signals an operation sends are part of its result. *)

From S2P Require Import Prelude Hashes ObjectStore RuntimeState.

(** ** The data *)

Record CreateRequest : Type := mkCreateRequest {
  cq_id : str;
  cq_branch : str;
  cq_root_pid : Z;
  cq_pgid : Z;
  cq_command : str;
  cq_cwd : str;
  cq_cooperative : bool;
  cq_token : str
}.

Record SnapshotRequest : Type := mkSnapshotRequest {
  sq_runtime : str;
  sq_kind : str;
  sq_agent_state : str;
  sq_timeout_ms : N
}.

Record BoundaryAction : Type := mkAction {
  act : str;
  act_operation : str;
  act_template : str;
  act_error : str
}.

Record RestoreIntent : Type := mkIntent { in_runtime : str; in_template : str; in_target : N }.

Record TemplateStatus : Type := mkTemplateStatus {
  ts_template : str;
  ts_runtime : str;
  ts_pid : Z;
  ts_pgid : Z;
  ts_generation : N;
  ts_alive : bool;
  ts_union_state : str;
  ts_fs_commit : Hash;
  ts_eligibility : RestoreEligibility
}.

Record RuntimeStatus : Type := mkRuntimeStatus {
  rs_runtime : str;
  rs_branch : str;
  rs_root_pid : Z;
  rs_pgid : Z;
  rs_generation : N;
  rs_command : str;
  rs_cooperative : bool;
  rs_eligibility : RestoreEligibility;
  rs_templates : list TemplateStatus
}.

(** The members of [Runtime] that describe a pending snapshot. *)
Record PendingSnapshot : Type := mkPending {
  has_pending_snapshot : bool;
  pending_op_id : str;
  pending_boundary_kind : str;
  pending_agent_state_id : str;
  pending_timeout_ms : N;
  pending_boundary_id : str;
  boundary_observed : bool
}.

Definition no_snapshot : PendingSnapshot := mkPending false [] [] [] 0 [] false.

(** Those that describe a pending restore and its end. *)
Record PendingRestore : Type := mkPendingRestore {
  has_pending_restore : bool;
  restore_template_id : str;
  restore_target_generation : N;
  generation_ready_flag : bool;
  retire_pgid : Z
}.

Definition no_restore : PendingRestore := mkPendingRestore false [] 0 false 0.

Record Runtime : Type := mkRuntime {
  rt_id : str;
  rt_branch : str;
  rt_root_pid : Z;
  rt_pgid : Z;                       (** [active_process_group_id] *)
  rt_generation : N;
  rt_command : str;
  rt_cwd : str;
  rt_cooperative : bool;
  rt_token : str;
  rt_templates : list str;
  rt_snapshot : PendingSnapshot;
  rt_pending_template : str;
  rt_restore : PendingRestore
}.

Record Boundary : Type := mkBoundary {
  bd_id : str;
  bd_runtime : str;
  bd_operation : str;
  bd_pid : Z;
  bd_generation : N;
  bd_kind : str;
  bd_template : str;
  bd_action : option BoundaryAction   (** set once [action_set] *)
}.

(** The members of [Template] that hand a restore to its poll loop. *)
Record HandOff : Type := mkHandOff {
  restore_pending : bool;
  restore_released : bool;
  restore_in_flight : bool;
  target_generation : N
}.

Definition no_hand_off : HandOff := mkHandOff false false false 0.

Record Template : Type := mkTemplate {
  tm_id : str;
  tm_runtime : str;
  tm_pid : Z;
  tm_pgid : Z;
  tm_generation : N;
  tm_ready : bool;
  tm_published : bool;
  tm_publish_error : str;
  tm_union_state : str;
  tm_fs_commit : Hash;
  tm_hand_off : HandOff;
  tm_dropped : bool
}.

Record Supervisor : Type := mkSupervisor {
  runtimes : gmap str Runtime;
  boundaries : gmap str Boundary;
  templates : gmap str Template;
  runtime_counter : N;
  template_counter : N;
  boundary_counter : N;
  operation_counter : N
}.

Definition empty_supervisor : Supervisor := mkSupervisor ∅ ∅ ∅ 0 0 0 0.

(** ** The process controller *)

Record ProcessEnv : Type := mkProcess {
  pc_supported : fault;
  pc_alive : Z -> bool;
  pc_freeze : Z -> fault;
  pc_resume : Z -> fault;
  pc_terminate : Z -> fault
}.

Inductive Signal : Type := Freeze (pgid : Z) | Resume (pgid : Z) | Terminate (pgid : Z).

#[export] Instance Signal_eq_dec : EqDecision Signal.
Proof. solve_decision. Defined.

(** ** Field updates *)

Definition set_runtimes (m : gmap str Runtime) (s : Supervisor) : Supervisor :=
  mkSupervisor m (boundaries s) (templates s) (runtime_counter s) (template_counter s)
    (boundary_counter s) (operation_counter s).
Definition set_boundaries (m : gmap str Boundary) (s : Supervisor) : Supervisor :=
  mkSupervisor (runtimes s) m (templates s) (runtime_counter s) (template_counter s)
    (boundary_counter s) (operation_counter s).
Definition set_templates (m : gmap str Template) (s : Supervisor) : Supervisor :=
  mkSupervisor (runtimes s) (boundaries s) m (runtime_counter s) (template_counter s)
    (boundary_counter s) (operation_counter s).

Definition put_runtime (id : str) (r : Runtime) (s : Supervisor) : Supervisor :=
  set_runtimes (<[id := r]> (runtimes s)) s.
Definition put_boundary (id : str) (b : Boundary) (s : Supervisor) : Supervisor :=
  set_boundaries (<[id := b]> (boundaries s)) s.
Definition put_template (id : str) (t : Template) (s : Supervisor) : Supervisor :=
  set_templates (<[id := t]> (templates s)) s.

Definition with_snapshot (p : PendingSnapshot) (r : Runtime) : Runtime :=
  mkRuntime (rt_id r) (rt_branch r) (rt_root_pid r) (rt_pgid r) (rt_generation r) (rt_command r)
    (rt_cwd r) (rt_cooperative r) (rt_token r) (rt_templates r) p (rt_pending_template r) (rt_restore r).
Definition with_restore (p : PendingRestore) (r : Runtime) : Runtime :=
  mkRuntime (rt_id r) (rt_branch r) (rt_root_pid r) (rt_pgid r) (rt_generation r) (rt_command r)
    (rt_cwd r) (rt_cooperative r) (rt_token r) (rt_templates r) (rt_snapshot r)
    (rt_pending_template r) p.
Definition with_templates (l : list str) (pending : str) (r : Runtime) : Runtime :=
  mkRuntime (rt_id r) (rt_branch r) (rt_root_pid r) (rt_pgid r) (rt_generation r) (rt_command r)
    (rt_cwd r) (rt_cooperative r) (rt_token r) l (rt_snapshot r) pending (rt_restore r).
Definition with_active (pid pgid : Z) (generation : N) (r : Runtime) : Runtime :=
  mkRuntime (rt_id r) (rt_branch r) pid pgid generation (rt_command r)
    (rt_cwd r) (rt_cooperative r) (rt_token r) (rt_templates r) (rt_snapshot r)
    (rt_pending_template r) (rt_restore r).

Definition with_action (a : BoundaryAction) (tid : str) (b : Boundary) : Boundary :=
  mkBoundary (bd_id b) (bd_runtime b) (bd_operation b) (bd_pid b) (bd_generation b) (bd_kind b)
    tid (Some a).

Definition with_process (pid pgid : Z) (generation : N) (t : Template) : Template :=
  mkTemplate (tm_id t) (tm_runtime t) pid pgid generation true (tm_published t)
    (tm_publish_error t) (tm_union_state t) (tm_fs_commit t) (tm_hand_off t) (tm_dropped t).
Definition with_union_state (id : str) (commit : Hash) (t : Template) : Template :=
  mkTemplate (tm_id t) (tm_runtime t) (tm_pid t) (tm_pgid t) (tm_generation t) (tm_ready t) true
    [] id commit (tm_hand_off t) (tm_dropped t).
Definition with_publish_error (message : str) (t : Template) : Template :=
  mkTemplate (tm_id t) (tm_runtime t) (tm_pid t) (tm_pgid t) (tm_generation t) (tm_ready t)
    (tm_published t) message (tm_union_state t) (tm_fs_commit t) (tm_hand_off t) (tm_dropped t).
Definition with_hand_off (h : HandOff) (t : Template) : Template :=
  mkTemplate (tm_id t) (tm_runtime t) (tm_pid t) (tm_pgid t) (tm_generation t) (tm_ready t)
    (tm_published t) (tm_publish_error t) (tm_union_state t) (tm_fs_commit t) h (tm_dropped t).
Definition with_dropped (t : Template) : Template :=
  mkTemplate (tm_id t) (tm_runtime t) (tm_pid t) (tm_pgid t) (tm_generation t) (tm_ready t)
    (tm_published t) (tm_publish_error t) (tm_union_state t) (tm_fs_commit t) (tm_hand_off t) true.

(** ** Identifiers *)

(** [snprintf("%016llx")]. *)
Definition hex16 (n : N) : str := mjoin (byte_to_hex <$> rev (le_encode 8 n)).

Definition make_id (prefix : string) (counter : N) : str := lit prefix ++ hex16 counter.

Definition make_runtime_id (s : Supervisor) : Supervisor * str :=
  let n := u64 (runtime_counter s + 1) in
  (mkSupervisor (runtimes s) (boundaries s) (templates s) n (template_counter s)
     (boundary_counter s) (operation_counter s), make_id "rt-" n).
Definition make_template_id (s : Supervisor) : Supervisor * str :=
  let n := u64 (template_counter s + 1) in
  (mkSupervisor (runtimes s) (boundaries s) (templates s) (runtime_counter s) n
     (boundary_counter s) (operation_counter s), make_id "tmpl-" n).
Definition make_boundary_id (s : Supervisor) : Supervisor * str :=
  let n := u64 (boundary_counter s + 1) in
  (mkSupervisor (runtimes s) (boundaries s) (templates s) (runtime_counter s) (template_counter s)
     n (operation_counter s), make_id "bd-" n).
Definition make_operation_id (s : Supervisor) : Supervisor * str :=
  let n := u64 (operation_counter s + 1) in
  (mkSupervisor (runtimes s) (boundaries s) (templates s) (runtime_counter s) (template_counter s)
     (boundary_counter s) n, make_id "op-" n).

(** ** The registry *)

Definition unknown_runtime : str := lit "unknown runtime".
Definition unknown_template : str := lit "unknown template".
Definition unknown_boundary : str := lit "unknown boundary".
Definition invalid_token : str := lit "invalid control token".
Definition snapshot_timeout : str := lit "snapshot timeout".

Section operations.
Context (env : ProcessEnv).

Definition register_runtime (q : CreateRequest) (s : Supervisor) : Supervisor * result unit :=
  match pc_supported env with
  | Some msg => (s, Err msg)
  | None =>
      let '(s1, id) := match cq_id q with [] => make_runtime_id s | id => (s, id) end in
      match runtimes s1 !! id with
      | Some _ => (s1, Err (lit "runtime already registered"))
      | None =>
          (put_runtime id (mkRuntime id (cq_branch q) (cq_root_pid q) (cq_pgid q) 1 (cq_command q)
             (cq_cwd q) (cq_cooperative q) (cq_token q) [] no_snapshot [] no_restore) s1, Ok ())
      end
  end.

Definition template_alive (t : Template) : bool :=
  tm_ready t && (0 <? tm_pid t)%Z && pc_alive env (tm_pid t).

Definition status_of_template (t : Template) : TemplateStatus :=
  let alive := template_alive t in
  mkTemplateStatus (tm_id t) (tm_runtime t) (tm_pid t) (tm_pgid t) (tm_generation t) alive
    (tm_union_state t) (tm_fs_commit t) (if alive then LiveRuntimeRestorable else FsOnly).

Definition build_status (r : Runtime) (s : Supervisor) : RuntimeStatus :=
  let ts := status_of_template <$> omap (fun tid => templates s !! tid) (rt_templates r) in
  mkRuntimeStatus (rt_id r) (rt_branch r) (rt_root_pid r) (rt_pgid r) (rt_generation r)
    (rt_command r) (rt_cooperative r)
    (match ts with
     | [] => MetadataOnly
     | _ => if existsb ts_alive ts then LiveRuntimeRestorable else FsOnly
     end) ts.

Definition status (runtime_id : str) (s : Supervisor) : result RuntimeStatus :=
  match runtimes s !! runtime_id with
  | None => Err unknown_runtime
  | Some r => Ok (build_status r s)
  end.

(** In the order of the [std::map]. *)
Definition list_runtimes (s : Supervisor) : list RuntimeStatus :=
  (fun x => build_status x.2 s) <$> entries (runtimes s).

(** ** Snapshots *)

Definition begin_snapshot (q : SnapshotRequest) (s : Supervisor) : Supervisor * result str :=
  match runtimes s !! sq_runtime q with
  | None => (s, Err unknown_runtime)
  | Some r =>
      if has_pending_snapshot (rt_snapshot r) then (s, Err (lit "snapshot already in progress"))
      else
        let '(s1, op) := make_operation_id s in
        (put_runtime (sq_runtime q) (with_snapshot
           (mkPending true op (sq_kind q) (sq_agent_state q) (sq_timeout_ms q) [] false) r) s1, Ok op)
  end.

Definition cancelled (b : Boundary) : BoundaryAction :=
  mkAction (lit "error") (bd_operation b) [] (lit "snapshot cancelled").

Definition cancel_snapshot (runtime_id : str) (s : Supervisor) : Supervisor * result unit :=
  match runtimes s !! runtime_id with
  | None => (s, Err unknown_runtime)
  | Some r =>
      let p := rt_snapshot r in
      let s1 :=
        if boundary_observed p && negb (bool_decide (pending_boundary_id p = [])) then
          match boundaries s !! pending_boundary_id p with
          | Some b =>
              match bd_action b with
              | None => put_boundary (pending_boundary_id p) (with_action (cancelled b) (bd_template b) b) s
              | Some _ => s
              end
          | None => s
          end
        else s in
      (put_runtime runtime_id (with_snapshot no_snapshot r) s1, Ok ())
  end.

Definition token_ok (r : Runtime) (token : str) : bool :=
  negb (bool_decide (rt_token r = [])) && bool_decide (token = rt_token r).

Definition observe_boundary (runtime_id token : str) (pid : Z) (generation : N) (kind : str)
    (s : Supervisor) : Supervisor * result str :=
  match runtimes s !! runtime_id with
  | None => (s, Err unknown_runtime)
  | Some r =>
      let p := rt_snapshot r in
      if negb (token_ok r token) then (s, Err invalid_token)
      else if negb (has_pending_snapshot p) || boundary_observed p
      then (s, Err (lit "no pending snapshot"))
      else
        let '(s1, id) := make_boundary_id s in
        let b := mkBoundary id runtime_id (pending_op_id p) pid generation kind [] None in
        let p' := mkPending (has_pending_snapshot p) (pending_op_id p) (pending_boundary_kind p)
                    (pending_agent_state_id p) (pending_timeout_ms p) id true in
        (put_runtime runtime_id (with_snapshot p' r) (put_boundary id b s1), Ok id)
  end.

Definition release_boundary_for_snapshot (boundary_id : str) (s : Supervisor) :
    Supervisor * result BoundaryAction :=
  match boundaries s !! boundary_id with
  | None => (s, Err unknown_boundary)
  | Some b =>
      match bd_action b with
      | Some _ => (s, Err (lit "boundary already released"))
      | None =>
          let '(s1, tid) := make_template_id s in
          let t := mkTemplate tid (bd_runtime b) (-1) (-1) (bd_generation b) false false [] []
                     ZERO_HASH no_hand_off false in
          let s2 := put_template tid t s1 in
          let s3 :=
            match runtimes s2 !! bd_runtime b with
            | Some r => put_runtime (bd_runtime b) (with_templates (rt_templates r ++ [tid]) tid r) s2
            | None => s2
            end in
          let a := mkAction (lit "snapshot") (bd_operation b) tid [] in
          (put_boundary boundary_id (with_action a tid b) s3, Ok a)
      end
  end.

(** The boundary kind, agent state and timeout of the pending snapshot stay. *)
Definition snapshot_over (p : PendingSnapshot) : PendingSnapshot :=
  mkPending false [] (pending_boundary_kind p) (pending_agent_state_id p) (pending_timeout_ms p) [] false.

Definition release_boundary_with_error (boundary_id message : str) (s : Supervisor) :
    Supervisor * result BoundaryAction :=
  match boundaries s !! boundary_id with
  | None => (s, Err unknown_boundary)
  | Some b =>
      match bd_action b with
      | Some _ => (s, Err (lit "boundary already released"))
      | None =>
          let s1 :=
            match runtimes s !! bd_runtime b with
            | Some r => put_runtime (bd_runtime b) (with_snapshot (snapshot_over (rt_snapshot r)) r) s
            | None => s
            end in
          let a := mkAction (lit "error") (bd_operation b) [] message in
          (put_boundary boundary_id (with_action a (bd_template b) b) s1, Ok a)
      end
  end.

Definition template_ready (runtime_id token template_id : str) (pid pgid : Z) (generation : N)
    (s : Supervisor) : Supervisor * result unit :=
  match templates s !! template_id with
  | None => (s, Err unknown_template)
  | Some t =>
      if negb (bool_decide (runtime_id = [])) && negb (bool_decide (tm_runtime t = runtime_id))
      then (s, Err (lit "template runtime mismatch"))
      else
        match runtimes s !! tm_runtime t with
        | None => (s, Err unknown_runtime)
        | Some r =>
            if negb (token_ok r token) then (s, Err invalid_token)
            else (put_template template_id (with_process pid pgid generation t) s, Ok ())
        end
  end.

Definition template_status (template_id : str) (s : Supervisor) : result TemplateStatus :=
  match templates s !! template_id with
  | None => Err unknown_template
  | Some t => Ok (status_of_template t)
  end.

Definition restore_template_status (runtime_id : str) (s : Supervisor) : result TemplateStatus :=
  match runtimes s !! runtime_id with
  | None => Err unknown_runtime
  | Some r =>
      let p := rt_restore r in
      if negb (has_pending_restore p) || bool_decide (restore_template_id p = [])
      then Err (lit "no pending restore")
      else template_status (restore_template_id p) s
  end.

Definition attach_union_state (template_id union_state_id : str) (fs_commit : Hash) (s : Supervisor) :
    Supervisor * result unit :=
  match templates s !! template_id with
  | None => (s, Err unknown_template)
  | Some t => (put_template template_id (with_union_state union_state_id fs_commit t) s, Ok ())
  end.

Definition fail_template_publish (template_id message : str) (s : Supervisor) :
    Supervisor * result unit :=
  match templates s !! template_id with
  | None => (s, Err unknown_template)
  | Some t => (put_template template_id (with_publish_error message t) s, Ok ())
  end.

(** ** Restores *)

Definition begin_restore (i : RestoreIntent) (s : Supervisor) :
    Supervisor * list Signal * result unit :=
  match runtimes s !! in_runtime i with
  | None => (s, [], Err unknown_runtime)
  | Some r =>
      match templates s !! in_template i with
      | None => (s, [], Err unknown_template)
      | Some t =>
          if negb (bool_decide (tm_runtime t = in_runtime i)) then (s, [], Err unknown_template)
          else
            let frozen := (0 <? rt_pgid r)%Z in
            let sent := if frozen then [Freeze (rt_pgid r)] else [] in
            match (if frozen then pc_freeze env (rt_pgid r) else None) with
            | Some msg => (s, sent, Err (lit "freeze failed: " ++ msg))
            | None =>
                (put_template (in_template i)
                   (with_hand_off (mkHandOff true false false (in_target i)) t)
                   (put_runtime (in_runtime i)
                      (with_restore (mkPendingRestore true (in_template i) (in_target i) false 0) r) s),
                 sent, Ok ())
            end
      end
  end.

Definition publish_restore (runtime_id : str) (s : Supervisor) : Supervisor * result unit :=
  let none := (s, Err (lit "no pending restore")) in
  match runtimes s !! runtime_id with
  | None => (s, Err unknown_runtime)
  | Some r =>
      let p := rt_restore r in
      if negb (has_pending_restore p) || bool_decide (restore_template_id p = []) then none
      else
        match templates s !! restore_template_id p with
        | None => (s, Err unknown_template)
        | Some t =>
            let h := tm_hand_off t in
            if negb (restore_pending h) || negb (bool_decide (tm_runtime t = runtime_id)) then none
            else (put_template (restore_template_id p)
                    (with_hand_off (mkHandOff (restore_pending h) true (restore_in_flight h)
                       (target_generation h)) t) s, Ok ())
        end
  end.

(** Clear the restore action of the template that drives it; [keep] is the
    target generation left there. *)
Definition disarm (keep : N -> N) (tid : str) (s : Supervisor) : Supervisor :=
  match tid with
  | [] => s
  | _ =>
      match templates s !! tid with
      | Some t => put_template tid (with_hand_off (mkHandOff false false false
                    (keep (target_generation (tm_hand_off t)))) t) s
      | None => s
      end
  end.

(** True with an error text when the resume fails. *)
Definition abort_restore (runtime_id : str) (s : Supervisor) :
    Supervisor * list Signal * result str :=
  match runtimes s !! runtime_id with
  | None => (s, [], Err unknown_runtime)
  | Some r =>
      let p := rt_restore r in
      let s1 := put_runtime runtime_id (with_restore (mkPendingRestore false [] 0 false (retire_pgid p)) r)
                  (disarm (fun _ => 0) (restore_template_id p) s) in
      if (0 <? rt_pgid r)%Z then
        (s1, [Resume (rt_pgid r)],
         Ok (match pc_resume env (rt_pgid r) with
             | None => []
             | Some msg => lit "resume failed: " ++
                 match msg with [] => lit "unknown resume error" | _ => msg end
             end))
      else (s1, [], Ok [])
  end.

Inductive TemplateAction : Type := ActDrop | ActRestore (target : N) | ActWait.

Definition template_poll (template_id token : str) (s : Supervisor) :
    Supervisor * result TemplateAction :=
  match templates s !! template_id with
  | None => (s, Err unknown_template)
  | Some t =>
      match runtimes s !! tm_runtime t with
      | None => (s, Err unknown_runtime)
      | Some r =>
          if negb (token_ok r token) then (s, Err invalid_token)
          else if tm_dropped t then (set_templates (delete template_id (templates s)) s, Ok ActDrop)
          else
            let h := tm_hand_off t in
            if restore_pending h && restore_released h && negb (restore_in_flight h) then
              (put_template template_id (with_hand_off (mkHandOff true true true (target_generation h)) t) s,
               Ok (ActRestore (target_generation h)))
            else (s, Ok ActWait)
      end
  end.

Definition generation_ready (runtime_id token : str) (pid pgid : Z) (generation : N)
    (s : Supervisor) : Supervisor * result unit :=
  match runtimes s !! runtime_id with
  | None => (s, Err unknown_runtime)
  | Some r =>
      let p := rt_restore r in
      if negb (token_ok r token) then (s, Err invalid_token)
      else if negb (has_pending_restore p) || negb (restore_target_generation p =? generation)
      then (s, Err (lit "restore aborted or stale"))
      else
        (put_runtime runtime_id
           (with_restore (mkPendingRestore false [] (restore_target_generation p) true (rt_pgid r))
             (with_active pid pgid generation r))
           (disarm (fun g => g) (restore_template_id p) s), Ok ())
  end.

Definition retire_pending_generation (runtime_id : str) (s : Supervisor) :
    Supervisor * list Signal * result str :=
  match runtimes s !! runtime_id with
  | None => (s, [], Err unknown_runtime)
  | Some r =>
      let p := rt_restore r in
      let prior := retire_pgid p in
      let s1 := put_runtime runtime_id (with_restore (mkPendingRestore (has_pending_restore p)
                  (restore_template_id p) (restore_target_generation p) (generation_ready_flag p) 0) r) s in
      if (0 <? prior)%Z then
        (s1, [Terminate prior],
         Ok (match pc_terminate env prior with
             | None => []
             | Some msg => lit "terminate failed: " ++
                 match msg with [] => lit "unknown terminate error" | _ => msg end
             end))
      else (s1, [], Ok [])
  end.

Definition drop_template (template_id : str) (s : Supervisor) : Supervisor * result unit :=
  match templates s !! template_id with
  | None => (s, Err unknown_template)
  | Some t =>
      match runtimes s !! tm_runtime t with
      | None => (put_template template_id (with_dropped t) s, Ok ())
      | Some r =>
          let p := rt_restore r in
          if has_pending_restore p && bool_decide (restore_template_id p = template_id)
          then (s, Err (lit "template restore in progress"))
          else
            (put_runtime (tm_runtime t)
               (with_templates (filter (fun x => x <> template_id) (rt_templates r))
                  (if decide (rt_pending_template r = template_id) then [] else rt_pending_template r) r)
               (put_template template_id (with_dropped t) s), Ok ())
      end
  end.

(** ** Waiting *)

(** The state is the one at the wake-up; a runtime is never removed, so the
    check on entry holds then too. *)
Definition wait_for_boundary (runtime_id : str) (s : Supervisor) : result str :=
  match runtimes s !! runtime_id with
  | None => Err unknown_runtime
  | Some r => if boundary_observed (rt_snapshot r) then Ok (pending_boundary_id (rt_snapshot r))
              else Err snapshot_timeout
  end.

Definition wait_for_template_ready (runtime_id : str) (s : Supervisor) : result unit :=
  match runtimes s !! runtime_id with
  | None => Err unknown_runtime
  | Some r =>
      match rt_pending_template r with
      | [] => Err snapshot_timeout
      | tid =>
          match templates s !! tid with
          | Some t => if tm_ready t then Ok () else Err snapshot_timeout
          | None => Err snapshot_timeout
          end
      end
  end.

Definition wait_for_generation_ready (runtime_id : str) (s : Supervisor) : result unit :=
  match runtimes s !! runtime_id with
  | None => Err unknown_runtime
  | Some r => if generation_ready_flag (rt_restore r) then Ok () else Err (lit "restore timeout")
  end.

(** Boundaries and templates can be gone at the wake-up; the two checks give
    the same answer. *)
Definition wait_boundary_action (boundary_id : str) (s : Supervisor) :
    Supervisor * result BoundaryAction :=
  match boundaries s !! boundary_id with
  | None => (s, Err unknown_boundary)
  | Some b =>
      (set_boundaries (delete boundary_id (boundaries s)) s,
       match bd_action b with Some a => Ok a | None => Err snapshot_timeout end)
  end.

Definition wait_template_published (template_id : str) (s : Supervisor) : result unit :=
  match templates s !! template_id with
  | None => Err unknown_template
  | Some t =>
      if tm_dropped t then Err (lit "template dropped")
      else if negb (bool_decide (tm_publish_error t = [])) then Err (tm_publish_error t)
      else if tm_published t then Ok () else Err snapshot_timeout
  end.

End operations.
