(* ===== verification/SupervisorRuns.v ===== *)
(** Runs of the supervisor: its operations in any order, what each announces,
    and what every reachable state satisfies (cas/runtime_supervisor.cpp). *)

From S2P Require Import Prelude Hashes ObjectStore RuntimeState Supervisor.

(** ** Operations and events *)

(** The calls that change the supervisor; the others only read it. *)
Inductive sup_op : Type :=
| OpRegister (q : CreateRequest)
| OpBeginSnapshot (q : SnapshotRequest)
| OpCancelSnapshot (rid : str)
| OpObserve (rid token : str) (pid : Z) (generation : N) (kind : str)
| OpRelease (bid : str)
| OpReleaseError (bid message : str)
| OpTemplateReady (rid token tid : str) (pid pgid : Z) (generation : N)
| OpAttach (tid us : str) (commit : Hash)
| OpFailPublish (tid message : str)
| OpBeginRestore (i : RestoreIntent)
| OpPublishRestore (rid : str)
| OpAbortRestore (rid : str)
| OpPoll (tid token : str)
| OpGenerationReady (rid token : str) (pid pgid : Z) (generation : N)
| OpRetire (rid : str)
| OpDrop (tid : str)
| OpWaitAction (bid : str).

(** What an operation did that others observe. *)
Inductive event : Type :=
| Signalled (s : Signal)
| Began (tid : str) (target : N)
| Published (tid : str)
| Handed (tid : str) (target : N)
| HandedDrop (tid : str)
| Activated (rid : str) (pgid : Z) (generation : N)
| Delivered (bid : str) (a : BoundaryAction).

Definition driven_template (rid : str) (s : Supervisor) : str :=
  match runtimes s !! rid with Some r => restore_template_id (rt_restore r) | None => [] end.

Definition exec_op (env : ProcessEnv) (op : sup_op) (s : Supervisor) : Supervisor * list event :=
  match op with
  | OpRegister q => ((register_runtime env q s).1, [])
  | OpBeginSnapshot q => ((begin_snapshot q s).1, [])
  | OpCancelSnapshot rid => ((cancel_snapshot rid s).1, [])
  | OpObserve rid token pid generation kind => ((observe_boundary rid token pid generation kind s).1, [])
  | OpRelease bid => ((release_boundary_for_snapshot bid s).1, [])
  | OpReleaseError bid message => ((release_boundary_with_error bid message s).1, [])
  | OpTemplateReady rid token tid pid pgid generation =>
      ((template_ready rid token tid pid pgid generation s).1, [])
  | OpAttach tid us commit => ((attach_union_state tid us commit s).1, [])
  | OpFailPublish tid message => ((fail_template_publish tid message s).1, [])
  | OpBeginRestore i =>
      let '(s', sent, r) := begin_restore env i s in
      (s', (Signalled <$> sent) ++ (if is_ok r then [Began (in_template i) (in_target i)] else []))
  | OpPublishRestore rid =>
      let '(s', r) := publish_restore rid s in
      (s', if is_ok r then [Published (driven_template rid s)] else [])
  | OpAbortRestore rid => let '(s', sent, _) := abort_restore env rid s in (s', Signalled <$> sent)
  | OpPoll tid token =>
      let '(s', r) := template_poll tid token s in
      (s', match r with Ok (ActRestore g) => [Handed tid g] | Ok ActDrop => [HandedDrop tid] | _ => [] end)
  | OpGenerationReady rid token pid pgid generation =>
      let '(s', r) := generation_ready rid token pid pgid generation s in
      (s', if is_ok r then [Activated rid pgid generation] else [])
  | OpRetire rid => let '(s', sent, _) := retire_pending_generation env rid s in (s', Signalled <$> sent)
  | OpDrop tid => ((drop_template tid s).1, [])
  | OpWaitAction bid =>
      let '(s', r) := wait_boundary_action bid s in
      (s', match r with Ok a => [Delivered bid a] | Err _ => [] end)
  end.

(** A run: the operations in the order they take the mutex. *)
Fixpoint run_ops (ops : list (ProcessEnv * sup_op)) (s : Supervisor) : Supervisor * list event :=
  match ops with
  | [] => (s, [])
  | (env, op) :: rest =>
      let '(s1, evs) := exec_op env op s in
      let '(s2, more) := run_ops rest s1 in (s2, evs ++ more)
  end.

Lemma run_ops_app ops1 ops2 s :
  run_ops (ops1 ++ ops2) s =
  ((run_ops ops2 (run_ops ops1 s).1).1, (run_ops ops1 s).2 ++ (run_ops ops2 (run_ops ops1 s).1).2).
Proof.
  revert s. induction ops1 as [|[env op] ops1 IH]; intros s; cbn [app run_ops fst snd].
  { by destruct (run_ops ops2 s). }
  destruct (exec_op env op s) as [s1 evs]. rewrite IH. destruct (run_ops ops1 s1) as [s2 more].
  cbn [fst snd]. by rewrite app_assoc.
Qed.

(** ** Identifiers *)

Lemma byte_to_hex_inj l1 l2 s :
  length l1 = length l2 -> mjoin (byte_to_hex <$> l1) = mjoin (byte_to_hex <$> l2) ++ s -> l1 = l2.
Proof.
  intros Hl E. pose proof (read_pairs_hex l1 []) as H1. rewrite app_nil_r, E, Hl in H1.
  rewrite (read_pairs_hex l2 s) in H1. by injection H1.
Qed.

Lemma hex16_inj a b : a < 2 ^ 64 -> b < 2 ^ 64 -> hex16 a = hex16 b -> a = b.
Proof.
  intros Ha Hb E. unfold hex16 in E.
  assert (rev (le_encode 8 a) = rev (le_encode 8 b)) as Er.
  { apply (byte_to_hex_inj _ _ []); [by rewrite !length_rev, !le_encode_length|by rewrite app_nil_r]. }
  apply (f_equal (@rev _)) in Er. rewrite !rev_involutive in Er.
  apply (f_equal le_decode) in Er. by rewrite !le_decode_encode_small in Er.
Qed.

Lemma make_id_inj prefix a b :
  a < 2 ^ 64 -> b < 2 ^ 64 -> make_id prefix a = make_id prefix b -> a = b.
Proof. intros Ha Hb E. apply hex16_inj; [done..|]. by apply (inj (app (lit prefix))) in E. Qed.

Lemma make_id_ne prefix n : make_id prefix n <> [].
Proof.
  unfold make_id, hex16. intros E. apply (f_equal length) in E. rewrite length_app in E.
  assert (length (mjoin (byte_to_hex <$> rev (le_encode 8 n))) = 16)%nat as Hl; [|simpl in E; lia].
  done.
Qed.

(** ** What holds in every reachable state *)

(** Made by the counter, so far. *)
Definition known (prefix : string) (counter : N) (id : str) : Prop :=
  exists k, 0 < k /\ k <= counter /\ id = make_id prefix k.

Lemma known_grows prefix c c' id : c <= c' -> known prefix c id -> known prefix c' id.
Proof. intros Hc (k & H1 & H2 & ->). exists k. split; [done|]. split; [lia|done]. Qed.

Lemma fresh_unknown prefix c : c + 1 < 2 ^ 64 -> ~ known prefix c (make_id prefix (u64 (c + 1))).
Proof.
  intros Hc (k & H1 & H2 & E). unfold u64 in E. rewrite N.mod_small in E by done.
  apply make_id_inj in E; lia.
Qed.

Lemma fresh_known prefix c : c + 1 < 2 ^ 64 -> known prefix (u64 (c + 1)) (make_id prefix (u64 (c + 1))).
Proof. intros Hc. unfold u64. rewrite N.mod_small by done. exists (c + 1). split; [lia|]. split; [lia|done]. Qed.

(** A released template is pending, one taken is released. *)
Definition hand_off_ok (h : HandOff) : Prop :=
  (restore_released h = true -> restore_pending h = true) /\
  (restore_in_flight h = true -> restore_released h = true).

(** The template a pending restore drives is armed with the restore's target. *)
Definition drives (p : PendingRestore) (t : Template) : Prop :=
  restore_pending (tm_hand_off t) = true /\ target_generation (tm_hand_off t) = restore_target_generation p.

Record runtime_ok (ts : gmap str Template) (counter : N) (id : str) (r : Runtime) : Prop := {
  ro_id : rt_id r = id;
  ro_nodup : NoDup (rt_templates r);
  ro_known : forall tid, tid ∈ rt_templates r -> known "tmpl-" counter tid;
  ro_owns : forall (tid : str) t, tid ∈ rt_templates r -> ts !! tid = Some t -> tm_runtime t = id;
  ro_restore : has_pending_restore (rt_restore r) = true ->
    known "tmpl-" counter (restore_template_id (rt_restore r)) /\
    forall t, ts !! restore_template_id (rt_restore r) = Some t ->
      tm_runtime t = id /\ drives (rt_restore r) t;
  ro_clean : has_pending_restore (rt_restore r) = false -> restore_template_id (rt_restore r) = []
}.

Record template_ok (rs : gmap str Runtime) (counter : N) (id : str) (t : Template) : Prop := {
  to_id : tm_id t = id;
  to_known : known "tmpl-" counter id;
  to_runtime : is_Some (rs !! tm_runtime t);
  to_hand_off : hand_off_ok (tm_hand_off t)
}.

Record boundary_ok (rs : gmap str Runtime) (bc tc : N) (id : str) (b : Boundary) : Prop := {
  bo_id : bd_id b = id;
  bo_known : known "bd-" bc id;
  bo_runtime : is_Some (rs !! bd_runtime b);
  bo_action : forall a, bd_action b = Some a ->
    act_operation a = bd_operation b /\
    (act a = lit "snapshot" /\ act_template a = bd_template b /\ act_error a = [] /\
       known "tmpl-" tc (act_template a) \/
     act a = lit "error" /\ act_template a = [])
}.

Record sup_ok (s : Supervisor) : Prop := {
  so_runtimes : forall id r, runtimes s !! id = Some r -> runtime_ok (templates s) (template_counter s) id r;
  so_templates : forall id t, templates s !! id = Some t -> template_ok (runtimes s) (template_counter s) id t;
  so_boundaries : forall id b, boundaries s !! id = Some b ->
    boundary_ok (runtimes s) (boundary_counter s) (template_counter s) id b
}.

(** *** Changing one entry *)

Lemma known_runtimes_put (s : Supervisor) (id k : str) r r0 :
  runtimes s !! id = Some r0 -> is_Some (runtimes s !! k) -> is_Some (runtimes (put_runtime id r s) !! k).
Proof. intros H0 [x H]. simpl. destruct (decide (id = k)) as [->|]; simpl_map; eauto. Qed.

Lemma put_runtime_ok s (id : str) r0 r :
  sup_ok s -> runtimes s !! id = Some r0 -> runtime_ok (templates s) (template_counter s) id r ->
  sup_ok (put_runtime id r s).
Proof.
  intros [Hr Ht Hb] H0 Hnew. split.
  - intros k x. simpl. intros [[<- <-]|[_ H]]%lookup_insert_Some; [done|]. by apply Hr.
  - intros k t H. destruct (Ht k t H) as [A B C D]. split; [done|done| |done].
    by eapply known_runtimes_put.
  - intros k b H. destruct (Hb k b H) as [A B C D]. split; [done|done| |done].
    by eapply known_runtimes_put.
Qed.

Lemma add_runtime_ok s (id : str) r :
  sup_ok s -> runtimes s !! id = None -> runtime_ok (templates s) (template_counter s) id r ->
  sup_ok (put_runtime id r s).
Proof.
  intros [Hr Ht Hb] H0 Hnew.
  assert (forall k, is_Some (runtimes s !! k) -> is_Some (runtimes (put_runtime id r s) !! k)) as Hk.
  { intros k [x H]. simpl. destruct (decide (id = k)) as [->|]; simpl_map; eauto. }
  split.
  - intros k x. simpl. intros [[<- <-]|[_ H]]%lookup_insert_Some; [done|]. by apply Hr.
  - intros k t H. destruct (Ht k t H) as [A B C D]. split; auto.
  - intros k b H. destruct (Hb k b H) as [A B C D]. split; auto.
Qed.

(** A template changes within its runtime; one a restore drives stays armed. *)
Lemma put_template_ok s (tid : str) t0 t :
  sup_ok s -> templates s !! tid = Some t0 -> tm_id t = tm_id t0 -> tm_runtime t = tm_runtime t0 ->
  hand_off_ok (tm_hand_off t) ->
  (forall r, runtimes s !! tm_runtime t0 = Some r -> has_pending_restore (rt_restore r) = true ->
     restore_template_id (rt_restore r) = tid -> drives (rt_restore r) t0 -> drives (rt_restore r) t) ->
  sup_ok (put_template tid t s).
Proof.
  intros [Hr Ht Hb] H0 Hi Hrt Hh Hd. split.
  - intros id r H. destruct (Hr id r H) as [A B C D E F]. split; [done|done|done| | |done].
    + intros k x Hin. simpl. intros [[<- <-]|[_ Hx]]%lookup_insert_Some; [|by eapply D].
      rewrite Hrt. by eapply D.
    + intros Hp. destruct (E Hp) as [E1 E2]. split; [done|]. intros x. simpl.
      intros [[Ek <-]|[_ Hx]]%lookup_insert_Some; [|by apply E2].
      rewrite <- Ek in E2. destruct (E2 t0 H0) as [E3 E4].
      split; [congruence|]. apply Hd; [by rewrite E3|done|done|done].
  - intros k x. simpl. intros [[<- <-]|[_ H]]%lookup_insert_Some; [|by apply Ht].
    destruct (Ht tid t0 H0) as [A B C D]. split; [congruence|done|by rewrite Hrt|done].
  - done.
Qed.

Lemma delete_template_ok s (tid : str) :
  sup_ok s -> sup_ok (set_templates (delete tid (templates s)) s).
Proof.
  intros [Hr Ht Hb]. split.
  - intros id r H. destruct (Hr id r H) as [A B C D E F]. split; [done|done|done| | |done].
    + intros k x Hin. simpl. intros [_ Hx]%lookup_delete_Some. by eapply D.
    + intros Hp. destruct (E Hp) as [E1 E2]. split; [done|]. simpl.
      intros x [_ Hx]%lookup_delete_Some. by apply E2.
  - intros k x. simpl. intros [_ H]%lookup_delete_Some. by apply Ht.
  - done.
Qed.

Lemma put_boundary_ok s (bid : str) b :
  sup_ok s -> boundary_ok (runtimes s) (boundary_counter s) (template_counter s) bid b ->
  sup_ok (put_boundary bid b s).
Proof.
  intros [Hr Ht Hb] Hnew. split; [done|done|].
  intros k x. simpl. intros [[<- <-]|[_ H]]%lookup_insert_Some; [done|]. by apply Hb.
Qed.

Lemma delete_boundary_ok s (bid : str) :
  sup_ok s -> sup_ok (set_boundaries (delete bid (boundaries s)) s).
Proof.
  intros [Hr Ht Hb]. split; [done|done|].
  intros k x. simpl. intros [_ H]%lookup_delete_Some. by apply Hb.
Qed.

(** The counters only grow. *)
Lemma counters_ok s rc tc bc oc :
  sup_ok s -> template_counter s <= tc -> boundary_counter s <= bc ->
  sup_ok (mkSupervisor (runtimes s) (boundaries s) (templates s) rc tc bc oc).
Proof.
  intros [Hr Ht Hb] H1 H2. split; simpl.
  - intros id r H. destruct (Hr id r H) as [A B C D E F].
    split; [done|done|by eauto using known_grows|done| |done].
    intros Hp. destruct (E Hp). split; [by eapply known_grows|done].
  - intros id t H. destruct (Ht id t H) as [A B C D]. split; [done|by eapply known_grows|done|done].
  - intros id b H. destruct (Hb id b H) as [A B C D]. split; [done|by eapply known_grows|done|].
    intros a Ha. destruct (D a Ha) as [D1 [(D2 & D3 & D4 & D5)|D2]]; (split; [done|]); [left|by right].
    split_and!; [done..|]. by eapply known_grows.
Qed.

(** *** Each operation *)

(** No counter is about to wrap. *)
Definition roomy (n : N) (s : Supervisor) : Prop :=
  template_counter s + n < 2 ^ 64 /\ boundary_counter s + n < 2 ^ 64.

Lemma runtime_ok_snapshot ts c id r p : runtime_ok ts c id r -> runtime_ok ts c id (with_snapshot p r).
Proof. by intros []; split. Qed.

Lemma runtime_ok_active ts c id r pid pgid g : runtime_ok ts c id r -> runtime_ok ts c id (with_active pid pgid g r).
Proof. by intros []; split. Qed.

Lemma runtime_ok_restore ts c id r p :
  runtime_ok ts c id r -> has_pending_restore p = false -> restore_template_id p = [] ->
  runtime_ok ts c id (with_restore p r).
Proof. intros [] Hp Hi. split; [done..| |done]. simpl. by rewrite Hp. Qed.

Lemma register_ok env q s : sup_ok s -> sup_ok (register_runtime env q s).1.
Proof.
  intros Hs. unfold register_runtime. destruct (pc_supported env); [done|].
  assert (exists s1 id, match cq_id q with [] => make_runtime_id s | id => (s, id) end = (s1, id) /\ sup_ok s1)
    as (s1 & id & -> & Hs1).
  { destruct (cq_id q); [|by eexists _, _]. eexists _, _. split; [reflexivity|]. by apply counters_ok. }
  destruct (runtimes s1 !! id) eqn:E; [done|]. apply add_runtime_ok; [done|done|].
  split; simpl; [done|constructor|set_solver|set_solver|done|done].
Qed.

Lemma begin_snapshot_ok q s : sup_ok s -> sup_ok (begin_snapshot q s).1.
Proof.
  intros Hs. unfold begin_snapshot. destruct (runtimes s !! sq_runtime q) as [r|] eqn:E; [|done].
  destruct (has_pending_snapshot _); [done|]. simpl.
  eapply put_runtime_ok; [by apply counters_ok|done|]. by apply runtime_ok_snapshot, (so_runtimes s).
Qed.

Lemma set_action_ok s (bid : str) b a tid :
  sup_ok s -> boundaries s !! bid = Some b -> act_operation a = bd_operation b ->
  (act a = lit "snapshot" /\ act_template a = tid /\ act_error a = [] /\
     known "tmpl-" (template_counter s) tid \/ act a = lit "error" /\ act_template a = []) ->
  sup_ok (put_boundary bid (with_action a tid b) s).
Proof.
  intros Hs Hb Hop Ha. destruct (so_boundaries _ Hs bid b Hb) as [A B C D].
  apply put_boundary_ok; [done|]. split; [done|done|done|]. intros x [= <-]. split; [done|].
  destruct Ha as [(H1 & H2 & H3 & H4)|H]; [left|by right]. subst tid. by split_and!.
Qed.

Lemma cancel_snapshot_ok rid s : sup_ok s -> sup_ok (cancel_snapshot rid s).1.
Proof.
  intros Hs. unfold cancel_snapshot. destruct (runtimes s !! rid) as [r|] eqn:E; [|done]. simpl.
  match goal with |- sup_ok (put_runtime _ _ ?x) => assert (sup_ok x /\ runtimes x = runtimes s /\
    templates x = templates s /\ template_counter x = template_counter s) as (H1 & H2 & H3 & H4) end.
  { destruct (_ && _); [|done]. destruct (boundaries s !! _) as [b|] eqn:Eb; [|done].
    destruct (bd_action b) eqn:Ea; [done|]. split; [|done].
    apply set_action_ok; [done|done|done|by right]. }
  eapply put_runtime_ok; [done|by rewrite H2|]. rewrite H3, H4. by apply runtime_ok_snapshot, (so_runtimes s).
Qed.

Lemma observe_boundary_ok rid token pid g kind s :
  sup_ok s -> boundary_counter s + 1 < 2 ^ 64 -> sup_ok (observe_boundary rid token pid g kind s).1.
Proof.
  intros Hs Hc. unfold observe_boundary. destruct (runtimes s !! rid) as [r|] eqn:E; [|done].
  destruct (negb _); [done|]. destruct (_ || _); [done|]. simpl.
  assert (boundary_counter s <= u64 (boundary_counter s + 1)) as Hle
    by (unfold u64; rewrite N.mod_small by done; lia).
  eapply put_runtime_ok; [apply put_boundary_ok; [by apply counters_ok|]|done|].
  - split; simpl; [done|by apply fresh_known|by eexists|done].
  - by apply runtime_ok_snapshot, (so_runtimes s).
Qed.

Lemma add_template_ok s (tid : str) t r :
  sup_ok s -> template_counter s + 1 < 2 ^ 64 -> tid = make_id "tmpl-" (u64 (template_counter s + 1)) ->
  tm_id t = tid -> runtimes s !! tm_runtime t = Some r -> tm_hand_off t = no_hand_off ->
  let s1 := (make_template_id s).1 in
  sup_ok (put_runtime (tm_runtime t) (with_templates (rt_templates r ++ [tid]) tid r) (put_template tid t s1)).
Proof.
  intros Hs Hc Htid Hid Hr Hh s1.
  pose proof (fresh_unknown "tmpl-" _ Hc) as Hnew. rewrite <- Htid in Hnew.
  pose proof (fresh_known "tmpl-" _ Hc) as Hk. rewrite <- Htid in Hk.
  assert (template_counter s <= template_counter s1) as Hle
    by (simpl; unfold u64; rewrite N.mod_small by done; lia).
  assert (forall k, known "tmpl-" (template_counter s) k -> k <> tid) as Hne by (by intros k Hkk ->).
  assert (forall id x, runtimes s !! id = Some x -> runtime_ok (<[tid := t]> (templates s)) (template_counter s1) id x) as Hrs.
  { intros id x Hx. destruct (so_runtimes _ Hs id x Hx) as [A B C D E F].
    split; [done|done|by eauto using known_grows| | |done].
    - intros k y Hin. rewrite lookup_insert_ne by (by apply not_eq_sym, Hne, C). by apply D.
    - intros [E1 E2]%E. split; [by eapply known_grows|]. intros y.
      rewrite lookup_insert_ne by (by apply not_eq_sym, Hne). by apply E2. }
  assert (sup_ok (put_template tid t s1)) as Hs2.
  { split; simpl.
    - intros id x Hx. by apply Hrs.
    - intros k x [[<- <-]|[_ H]]%lookup_insert_Some.
      + split; [done|done|by eexists|]. by rewrite Hh.
      + destruct (so_templates _ Hs k x H) as [A B C D]. split; [done|by eapply known_grows|done|done].
    - intros k b H. apply (counters_ok s 0 (u64 (template_counter s + 1)) (boundary_counter s) 0) in Hs as Hs';
        [|done|done]. by apply (so_boundaries _ Hs' k b H). }
  eapply put_runtime_ok; [done|exact Hr|]. destruct (Hrs _ _ Hr) as [A B C D E F].
  destruct (so_runtimes _ Hs _ _ Hr) as [_ _ C0 _ _ _]. split; simpl.
  - done.
  - apply NoDup_app. split; [done|]. split; [|apply NoDup_singleton].
    intros k Hin ->%list_elem_of_singleton. by apply Hnew, C0.
  - intros k [Hin| ->%list_elem_of_singleton]%elem_of_app; [by apply C|done].
  - intros k y [Hin| ->%list_elem_of_singleton]%elem_of_app; [by apply D|].
    rewrite lookup_insert_eq. by intros [= <-].
  - done.
  - done.
Qed.

Lemma release_boundary_ok bid s :
  sup_ok s -> template_counter s + 1 < 2 ^ 64 -> sup_ok (release_boundary_for_snapshot bid s).1.
Proof.
  intros Hs Hc. unfold release_boundary_for_snapshot. destruct (boundaries s !! bid) as [b|] eqn:E; [|done].
  destruct (bd_action b) eqn:Ea; [done|].
  destruct (so_boundaries _ Hs bid b E) as [_ _ [r Hr] _]. cbn [make_template_id fst snd].
  cbn [put_template set_templates runtimes]. rewrite Hr.
  apply set_action_ok; [|done|done|].
  - by apply (add_template_ok s _ (mkTemplate _ (bd_runtime b) (-1) (-1) (bd_generation b) false false [] []
      ZERO_HASH no_hand_off false) r).
  - left. split_and!; [done..|]. simpl. by apply fresh_known.
Qed.

Lemma release_error_ok bid msg s : sup_ok s -> sup_ok (release_boundary_with_error bid msg s).1.
Proof.
  intros Hs. unfold release_boundary_with_error. destruct (boundaries s !! bid) as [b|] eqn:E; [|done].
  destruct (bd_action b) eqn:Ea; [done|]. destruct (so_boundaries _ Hs bid b E) as [_ _ [r Hr] _].
  rewrite Hr. simpl. apply set_action_ok; [|done|done|by right].
  eapply put_runtime_ok; [done|done|]. by apply runtime_ok_snapshot, (so_runtimes s).
Qed.

(** A template's update that leaves its hand-off alone. *)
Lemma touch_template_ok s (tid : str) t0 t :
  sup_ok s -> templates s !! tid = Some t0 -> tm_id t = tm_id t0 -> tm_runtime t = tm_runtime t0 ->
  tm_hand_off t = tm_hand_off t0 -> sup_ok (put_template tid t s).
Proof.
  intros Hs H0 Hi Hr Hh. eapply put_template_ok; try done.
  - rewrite Hh. by apply (so_templates _ Hs tid t0).
  - intros r _ _ _. unfold drives. by rewrite Hh.
Qed.

Lemma template_ready_ok rid token tid pid pgid g s : sup_ok s -> sup_ok (template_ready rid token tid pid pgid g s).1.
Proof.
  intros Hs. unfold template_ready. destruct (templates s !! tid) as [t|] eqn:E; [|done].
  destruct (_ && _); [done|]. destruct (runtimes s !! tm_runtime t) as [r|]; [|done].
  destruct (negb _); [done|]. by eapply touch_template_ok.
Qed.

Lemma attach_ok tid us c s : sup_ok s -> sup_ok (attach_union_state tid us c s).1.
Proof.
  intros Hs. unfold attach_union_state. destruct (templates s !! tid) as [t|] eqn:E; [|done].
  by eapply touch_template_ok.
Qed.

Lemma fail_publish_ok tid msg s : sup_ok s -> sup_ok (fail_template_publish tid msg s).1.
Proof.
  intros Hs. unfold fail_template_publish. destruct (templates s !! tid) as [t|] eqn:E; [|done].
  by eapply touch_template_ok.
Qed.

Lemma disarm_runtimes keep tid s : runtimes (disarm keep tid s) = runtimes s.
Proof. unfold disarm. destruct tid; [done|]. by destruct (templates s !! _). Qed.

Lemma disarm_counter keep tid s : template_counter (disarm keep tid s) = template_counter s.
Proof. unfold disarm. destruct tid; [done|]. by destruct (templates s !! _). Qed.

(** Updates of different maps commute. *)
Lemma disarm_put_runtime keep tid id r s :
  put_runtime id r (disarm keep tid s) = disarm keep tid (put_runtime id r s).
Proof. unfold disarm. destruct tid; [done|]. simpl. by destruct (templates s !! _). Qed.

(** A template no pending restore drives can be disarmed. *)
Lemma disarm_ok keep tid s :
  sup_ok s ->
  (forall t r, templates s !! tid = Some t -> runtimes s !! tm_runtime t = Some r ->
     has_pending_restore (rt_restore r) = true -> restore_template_id (rt_restore r) <> tid) ->
  sup_ok (disarm keep tid s).
Proof.
  intros Hs Hno. unfold disarm. destruct tid as [|c tid]; [done|].
  destruct (templates s !! (c :: tid)) as [t|] eqn:E; [|done].
  eapply put_template_ok; try done. intros r Hr Hp He. by destruct (Hno t r eq_refl Hr Hp).
Qed.

(** Ending a runtime's restore and disarming its template. *)
Lemma end_restore_ok keep rid r r' s :
  sup_ok s -> runtimes s !! rid = Some r -> has_pending_restore (rt_restore r') = false ->
  runtime_ok (templates s) (template_counter s) rid r' ->
  sup_ok (put_runtime rid r' (disarm keep (restore_template_id (rt_restore r)) s)).
Proof.
  intros Hs Hr Hp' Hr'. rewrite disarm_put_runtime.
  assert (sup_ok (put_runtime rid r' s)) as Hs' by by eapply put_runtime_ok.
  destruct (so_runtimes _ Hs rid r Hr) as [_ _ _ _ Hd Hc].
  destruct (has_pending_restore (rt_restore r)); [|by rewrite Hc].
  apply disarm_ok; [done|]. simpl. intros t x Ht Hx Hpx.
  destruct Hd as [_ Hd]; [done|]. destruct (Hd t Ht) as [Hrt _].
  rewrite Hrt, lookup_insert_eq in Hx. injection Hx as <-. congruence.
Qed.

Lemma begin_restore_ok env i s : sup_ok s -> sup_ok (begin_restore env i s).1.1.
Proof.
  intros Hs. unfold begin_restore. destruct (runtimes s !! in_runtime i) as [r|] eqn:Er; [|done].
  destruct (templates s !! in_template i) as [t|] eqn:Et; [|done].
  case_bool_decide as Hrt; cbn [negb]; [|done]. destruct (if (0 <? rt_pgid r)%Z then _ else None); [done|].
  cbn [fst]. set (p := mkPendingRestore _ _ _ _ _).
  assert (put_template (in_template i) (with_hand_off (mkHandOff true false false (in_target i)) t)
            (put_runtime (in_runtime i) (with_restore p r) s) =
          put_runtime (in_runtime i) (with_restore p r)
            (put_template (in_template i) (with_hand_off (mkHandOff true false false (in_target i)) t)
              (put_runtime (in_runtime i) (with_restore no_restore r) s))) as ->.
  { unfold put_template, put_runtime, set_templates, set_runtimes. simpl. by rewrite insert_insert_eq. }
  destruct (so_runtimes _ Hs _ _ Er) as [A B C D E F].
  destruct (so_templates _ Hs _ _ Et) as [A' B' C' D'].
  eapply put_runtime_ok; [|simpl; apply lookup_insert_eq|].
  - eapply (put_template_ok _ _ t); [| |done|done|done|].
    + eapply put_runtime_ok; [done|done|]. by apply runtime_ok_restore.
    + done.
    + simpl. rewrite Hrt, lookup_insert_eq. by intros x [= <-].
  - split; simpl; [done|done|done| | |done].
    + intros k x Hin. intros [[<- <-]|[_ Hx]]%lookup_insert_Some; [done|by eapply D].
    + intros _. split; [done|]. intros x. rewrite lookup_insert_eq. by intros [= <-].
Qed.

Lemma publish_restore_ok rid s : sup_ok s -> sup_ok (publish_restore rid s).1.
Proof.
  intros Hs. unfold publish_restore. destruct (runtimes s !! rid) as [r|] eqn:Er; [|done].
  destruct (_ || _); [done|]. destruct (templates s !! _) as [t|] eqn:Et; [|done].
  destruct (restore_pending (tm_hand_off t)) eqn:Ep; cbn [negb orb]; [|done].
  case_bool_decide; cbn [negb]; [|done]. eapply put_template_ok; [done..| |].
  - by split.
  - intros x _ _ _ [? ?]. by split.
Qed.

Lemma abort_restore_ok env rid s : sup_ok s -> sup_ok (abort_restore env rid s).1.1.
Proof.
  intros Hs. unfold abort_restore. destruct (runtimes s !! rid) as [r|] eqn:Er; [|done].
  match goal with |- sup_ok (if _ then (?x, _, _) else _).1.1 => assert (sup_ok x) end; [|by destruct (_ <? _)%Z].
  apply end_restore_ok; [done|done|done|].
  apply runtime_ok_restore; [by apply (so_runtimes s)|done|done].
Qed.

Lemma template_poll_ok tid token s : sup_ok s -> sup_ok (template_poll tid token s).1.
Proof.
  intros Hs. unfold template_poll. destruct (templates s !! tid) as [t|] eqn:Et; [|done].
  destruct (runtimes s !! _); [|done]. destruct (negb _); [done|].
  destruct (tm_dropped t); [by apply delete_template_ok|].
  destruct (restore_pending (tm_hand_off t)) eqn:Ep; [|done].
  destruct (true && _ && _); [|done]. eapply put_template_ok; [done..| |].
  - by split.
  - intros x _ _ _ [? ?]. by split.
Qed.

Lemma generation_ready_ok rid token pid pgid g s : sup_ok s -> sup_ok (generation_ready rid token pid pgid g s).1.
Proof.
  intros Hs. unfold generation_ready. destruct (runtimes s !! rid) as [r|] eqn:Er; [|done].
  destruct (negb _); [done|]. destruct (_ || _); [done|].
  apply end_restore_ok; [done|done|done|].
  apply runtime_ok_restore; [by apply runtime_ok_active, (so_runtimes s)|done|done].
Qed.

Lemma retire_ok env rid s : sup_ok s -> sup_ok (retire_pending_generation env rid s).1.1.
Proof.
  intros Hs. unfold retire_pending_generation. destruct (runtimes s !! rid) as [r|] eqn:Er; [|done].
  match goal with |- sup_ok (if _ then (?x, _, _) else _).1.1 => assert (sup_ok x) end; [|by destruct (_ <? _)%Z].
  eapply put_runtime_ok; [done|done|]. by destruct (so_runtimes _ Hs _ _ Er); split.
Qed.

Lemma drop_template_ok tid s : sup_ok s -> sup_ok (drop_template tid s).1.
Proof.
  intros Hs. unfold drop_template. destruct (templates s !! tid) as [t|] eqn:Et; [|done].
  assert (sup_ok (put_template tid (with_dropped t) s)) as Hs1 by by eapply touch_template_ok.
  destruct (runtimes s !! tm_runtime t) as [r|] eqn:Er; [|done]. destruct (_ && _); [done|].
  eapply put_runtime_ok; [done|done|].
  destruct (so_runtimes _ Hs1 (tm_runtime t) r Er) as [A B C D E F]. split; simpl; [done| | | |done|done].
  - by apply NoDup_filter.
  - intros k [_ Hin]%list_elem_of_filter. by apply C.
  - intros k x [_ Hin]%list_elem_of_filter. by apply D.
Qed.

Lemma wait_action_ok bid s : sup_ok s -> sup_ok (wait_boundary_action bid s).1.
Proof.
  intros Hs. unfold wait_boundary_action. destruct (boundaries s !! bid); [|done]. by apply delete_boundary_ok.
Qed.

(** *** Runs *)

Lemma exec_op_ok env op s :
  sup_ok s -> roomy 1 s -> sup_ok (exec_op env op s).1.
Proof.
  intros Hs [Ht Hb]. destruct op; cbn [exec_op fst];
    auto using register_ok, begin_snapshot_ok, cancel_snapshot_ok, observe_boundary_ok, release_boundary_ok,
      release_error_ok, template_ready_ok, attach_ok, fail_publish_ok, drop_template_ok.
  - pose proof (begin_restore_ok env i s Hs) as H. by destruct (begin_restore env i s) as [[s' sent] r].
  - pose proof (publish_restore_ok rid s Hs) as H. by destruct (publish_restore rid s) as [s' r].
  - pose proof (abort_restore_ok env rid s Hs) as H. by destruct (abort_restore env rid s) as [[s' sent] r].
  - pose proof (template_poll_ok tid token s Hs) as H. by destruct (template_poll tid token s) as [s' r].
  - pose proof (generation_ready_ok rid token pid pgid generation s Hs) as H.
    by destruct (generation_ready rid token pid pgid generation s) as [s' r].
  - pose proof (retire_ok env rid s Hs) as H. by destruct (retire_pending_generation env rid s) as [[s' sent] r].
  - pose proof (wait_action_ok bid s Hs) as H. by destruct (wait_boundary_action bid s) as [s' r].
Qed.

(** Only two operations take a number, one each. *)
Definition counts (s s' : Supervisor) : Prop :=
  (template_counter s' = template_counter s \/ template_counter s' = u64 (template_counter s + 1)) /\
  (boundary_counter s' = boundary_counter s \/ boundary_counter s' = u64 (boundary_counter s + 1)).

Lemma exec_op_counts env op s : counts s (exec_op env op s).1.
Proof.
  unfold counts. destruct op; cbn [exec_op];
    unfold register_runtime, begin_snapshot, cancel_snapshot, observe_boundary, release_boundary_for_snapshot,
      release_boundary_with_error, template_ready, attach_union_state, fail_template_publish, begin_restore,
      publish_restore, abort_restore, template_poll, generation_ready, retire_pending_generation,
      drop_template, wait_boundary_action, disarm, make_runtime_id, make_template_id, make_boundary_id,
      make_operation_id, put_runtime, put_template, put_boundary, set_runtimes, set_templates, set_boundaries;
    repeat (case_match; simplify_eq); simpl; auto.
Qed.

Lemma run_ops_ok ops s :
  sup_ok s -> roomy (N.of_nat (length ops)) s -> sup_ok (run_ops ops s).1.
Proof.
  revert s. induction ops as [|[env op] ops IH]; intros s Hs Hr; [done|].
  cbn [run_ops]. destruct (exec_op env op s) as [s1 evs] eqn:E.
  destruct Hr as [Ht Hb]. simpl length in Ht, Hb.
  assert (sup_ok s1) as Hs1.
  { change s1 with (s1, evs).1. rewrite <- E. apply exec_op_ok; [done|]. split; lia. }
  assert (counts s s1) as [Hct Hcb] by (pose proof (exec_op_counts env op s) as H; by rewrite E in H).
  assert (roomy (N.of_nat (length ops)) s1) as Hr1.
  { unfold u64 in Hct, Hcb. rewrite N.mod_small in Hct, Hcb by lia. unfold roomy. lia. }
  specialize (IH s1 Hs1 Hr1). by destruct (run_ops ops s1).
Qed.

Lemma empty_ok : sup_ok empty_supervisor.
Proof. split; intros id x H; cbn in H; by rewrite lookup_empty in H. Qed.

(** ** Hand-offs *)

(** What the events say of a template's restore: its target, whether it was
    published and whether it was handed over, since it last began. *)
Definition armed : Type := N * bool * bool.

Definition trace_step (tid : str) (acc : option armed) (e : event) : option armed :=
  match e with
  | Began t g => if decide (t = tid) then Some (g, false, false) else acc
  | Published t =>
      if decide (t = tid) then (fun '(g, _, h) => (g, true, h)) <$> acc else acc
  | Handed t _ =>
      if decide (t = tid) then (fun '(g, p, _) => (g, p, true)) <$> acc else acc
  | _ => acc
  end.

Definition phase (tid : str) (trace : list event) : option armed := foldl (trace_step tid) None trace.

Definition armed_of (h : HandOff) : armed := (target_generation h, restore_released h, restore_in_flight h).

(** Every pending hand-off is where the events say. *)
Definition follows (trace : list event) (s : Supervisor) : Prop :=
  forall (tid : str) t, templates s !! tid = Some t -> restore_pending (tm_hand_off t) = true ->
    phase tid trace = Some (armed_of (tm_hand_off t)).

(** No hand-off appears or changes. *)
Definition keeps_hand_offs (s s' : Supervisor) : Prop :=
  forall (tid : str) t', templates s' !! tid = Some t' -> restore_pending (tm_hand_off t') = true ->
    exists t, templates s !! tid = Some t /\ tm_hand_off t = tm_hand_off t'.

Lemma keeps_same s s' : templates s' = templates s -> keeps_hand_offs s s'.
Proof. intros E tid t H _. rewrite E in H. by exists t. Qed.

Lemma keeps_put s (tid : str) t0 t :
  templates s !! tid = Some t0 -> tm_hand_off t = tm_hand_off t0 \/ restore_pending (tm_hand_off t) = false ->
  keeps_hand_offs s (put_template tid t s).
Proof.
  intros H0 Hh k x. simpl. intros [[<- <-]|[_ H]]%lookup_insert_Some Hp; [|by exists x].
  destruct Hh as [Hh|Hh]; [by exists t0|congruence].
Qed.

Lemma keeps_trans s1 s2 s3 : keeps_hand_offs s1 s2 -> keeps_hand_offs s2 s3 -> keeps_hand_offs s1 s3.
Proof.
  intros H1 H2 tid t H Hp. destruct (H2 tid t H Hp) as (t2 & E2 & Eh). rewrite <- Eh in Hp.
  destruct (H1 tid t2 E2 Hp) as (t1 & E1 & Eh1). exists t1. split; [done|congruence].
Qed.

Lemma keeps_disarm keep tid s : keeps_hand_offs s (disarm keep tid s).
Proof.
  unfold disarm. destruct tid as [|c tid]; [by apply keeps_same|].
  destruct (templates s !! (c :: tid)) eqn:E; [|by apply keeps_same]. eapply keeps_put; [done|by right].
Qed.

(** Events that say nothing of hand-offs. *)
Definition silent (e : event) : bool :=
  match e with Began _ _ | Published _ | Handed _ _ => false | _ => true end.

Lemma silent_phase tid evs acc : forallb silent evs = true -> foldl (trace_step tid) acc evs = acc.
Proof.
  induction evs as [|e evs IH]; simpl; [done|]. intros [He Hs]%andb_true_iff.
  destruct e; try done; by apply IH.
Qed.

Lemma follows_silent trace evs s s' :
  follows trace s -> keeps_hand_offs s s' -> forallb silent evs = true -> follows (trace ++ evs) s'.
Proof.
  intros Hf Hk Hs tid t H Hp. destruct (Hk tid t H Hp) as (t0 & E & Eh).
  unfold phase. rewrite foldl_app, silent_phase by done. rewrite <- Eh. apply Hf; [done|by rewrite Eh].
Qed.

Lemma signalled_silent l : forallb silent (Signalled <$> l) = true.
Proof. induction l; [done|]. by simpl. Qed.

Lemma register_keeps env q s : keeps_hand_offs s (register_runtime env q s).1.
Proof.
  apply keeps_same. unfold register_runtime. destruct (pc_supported env); [done|].
  destruct (cq_id q); cbn [make_runtime_id]; repeat case_match; done.
Qed.

Lemma snapshot_ops_keep s :
  (forall q, keeps_hand_offs s (begin_snapshot q s).1) /\
  (forall rid, keeps_hand_offs s (cancel_snapshot rid s).1) /\
  (forall rid token pid g kind, keeps_hand_offs s (observe_boundary rid token pid g kind s).1) /\
  (forall bid msg, keeps_hand_offs s (release_boundary_with_error bid msg s).1) /\
  (forall bid, keeps_hand_offs s (wait_boundary_action bid s).1).
Proof.
  split_and!; intros; apply keeps_same;
    unfold begin_snapshot, cancel_snapshot, observe_boundary, release_boundary_with_error, wait_boundary_action,
      make_operation_id, make_boundary_id, put_runtime, put_boundary, set_runtimes, set_boundaries;
    repeat (case_match; simplify_eq); done.
Qed.

Lemma release_keeps bid s : keeps_hand_offs s (release_boundary_for_snapshot bid s).1.
Proof.
  unfold release_boundary_for_snapshot. destruct (boundaries s !! bid) as [b|]; [|by apply keeps_same].
  destruct (bd_action b); [by apply keeps_same|]. cbn [make_template_id].
  intros tid t. destruct (runtimes _ !! _); simpl;
    (intros [[<- <-]|[_ H]]%lookup_insert_Some Hp; [done|by exists t]).
Qed.

Lemma template_ops_keep s :
  (forall rid token tid pid pgid g, keeps_hand_offs s (template_ready rid token tid pid pgid g s).1) /\
  (forall tid us c, keeps_hand_offs s (attach_union_state tid us c s).1) /\
  (forall tid msg, keeps_hand_offs s (fail_template_publish tid msg s).1) /\
  (forall tid, keeps_hand_offs s (drop_template tid s).1).
Proof.
  split_and!; intros;
    unfold template_ready, attach_union_state, fail_template_publish, drop_template;
    destruct (templates s !! tid) as [t|] eqn:E; try (by apply keeps_same).
  - destruct (_ && _); [by apply keeps_same|]. destruct (runtimes s !! _); [|by apply keeps_same].
    destruct (negb _); [by apply keeps_same|]. eapply keeps_put; [done|by left].
  - eapply keeps_put; [done|by left].
  - eapply keeps_put; [done|by left].
  - assert (keeps_hand_offs s (put_template tid (with_dropped t) s)) as Hk by (eapply keeps_put; [done|by left]).
    destruct (runtimes s !! _); [|done]. destruct (_ && _); [by apply keeps_same|].
    eapply keeps_trans; [done|]. by apply keeps_same.
Qed.

Lemma begin_follows env i s trace :
  follows trace s ->
  follows (trace ++ (exec_op env (OpBeginRestore i) s).2) (exec_op env (OpBeginRestore i) s).1.
Proof.
  intros Hf. cbn [exec_op]. unfold begin_restore.
  assert (forall sent, follows (trace ++ (Signalled <$> sent) ++ []) s) as Hsame.
  { intros sent. rewrite app_nil_r. eapply follows_silent; [done|by apply keeps_same|apply signalled_silent]. }
  destruct (runtimes s !! in_runtime i) as [r|]; [|apply (Hsame [])].
  destruct (templates s !! in_template i) as [t|] eqn:Et; [|apply (Hsame [])].
  destruct (negb _); [apply (Hsame [])|]. destruct (if (0 <? rt_pgid r)%Z then pc_freeze env _ else None); [apply Hsame|].
  cbn [fst snd is_ok]. intros tid x. simpl. intros Hx Hp. unfold phase. rewrite !foldl_app.
  rewrite (silent_phase _ (Signalled <$> _)) by apply signalled_silent. simpl.
  apply lookup_insert_Some in Hx as [[<- <-]|[Hne Hx]]; [by rewrite decide_True|].
  rewrite decide_False by done. by apply Hf.
Qed.

Lemma publish_follows rid s trace :
  follows trace s ->
  follows (trace ++ (exec_op (mkProcess None (fun _ => true) (fun _ => None) (fun _ => None) (fun _ => None))
                      (OpPublishRestore rid) s).2) (publish_restore rid s).1.
Proof.
  intros Hf. cbn [exec_op]. unfold publish_restore, driven_template.
  assert (follows (trace ++ []) s) as Hsame by by rewrite app_nil_r.
  destruct (runtimes s !! rid) as [r|]; [|done]. destruct (_ || _); [done|].
  destruct (templates s !! restore_template_id (rt_restore r)) as [t|] eqn:Et; [|done].
  destruct (restore_pending (tm_hand_off t)) eqn:Ep; [|done]. cbn [negb orb].
  destruct (negb _); [done|]. cbn [fst snd is_ok]. intros tid x. simpl. intros Hx Hp.
  unfold phase. rewrite foldl_app. simpl. fold (phase tid trace).
  apply lookup_insert_Some in Hx as [[<- <-]|[Hne Hx]].
  - rewrite decide_True by done. by rewrite (Hf _ _ Et Ep).
  - rewrite decide_False by done. by apply Hf.
Qed.

(** A poll hands a restore over only when one is published and not yet handed. *)
Lemma poll_follows tid token s s' r trace :
  follows trace s -> template_poll tid token s = (s', r) ->
  follows (trace ++ match r with Ok (ActRestore g) => [Handed tid g] | Ok ActDrop => [HandedDrop tid] | _ => [] end) s' /\
  forall g, r = Ok (ActRestore g) -> phase tid trace = Some (g, true, false).
Proof.
  intros Hf. unfold template_poll.
  assert (follows (trace ++ []) s) as Hsame by by rewrite app_nil_r.
  destruct (templates s !! tid) as [t|] eqn:Et; [|by intros [= <- <-]].
  destruct (runtimes s !! _); [|by intros [= <- <-]]. destruct (negb _); [by intros [= <- <-]|].
  destruct (tm_dropped t).
  { intros [= <- <-]. split; [|done]. eapply follows_silent; [done| |done].
    intros k x. simpl. intros [_ H]%lookup_delete_Some Hp. by exists x. }
  destruct (restore_pending (tm_hand_off t)) eqn:Ep; [|by intros [= <- <-]].
  destruct (restore_released (tm_hand_off t)) eqn:Er; [|by intros [= <- <-]].
  destruct (restore_in_flight (tm_hand_off t)) eqn:Ei; [by intros [= <- <-]|]. cbn [andb negb].
  intros [= <- <-]. pose proof (Hf _ _ Et Ep) as Hph. unfold armed_of in Hph. rewrite Er, Ei in Hph.
  split; [|by intros g [= <-]]. intros k x. simpl. intros Hx Hp.
  unfold phase. rewrite foldl_app. simpl. fold (phase k trace).
  apply lookup_insert_Some in Hx as [[<- <-]|[Hne Hx]].
  - rewrite decide_True by done. by rewrite Hph.
  - rewrite decide_False by done. by apply Hf.
Qed.

Lemma exec_follows env op s trace :
  follows trace s -> follows (trace ++ (exec_op env op s).2) (exec_op env op s).1.
Proof.
  intros Hf.
  destruct (snapshot_ops_keep s) as (K1 & K2 & K3 & K4 & K5), (template_ops_keep s) as (K6 & K7 & K8 & K9).
  destruct op; cbn [exec_op fst snd];
    try (eapply follows_silent; [done| |done]; by auto using register_keeps, release_keeps).
  - apply (begin_follows env i s trace Hf).
  - apply (publish_follows rid s) in Hf. cbn [exec_op] in Hf. by destruct (publish_restore rid s).
  - destruct (abort_restore env rid s) as [[s' sent] r] eqn:E. cbn [fst snd].
    eapply follows_silent; [done| |apply signalled_silent].
    revert E. unfold abort_restore. destruct (runtimes s !! rid); [|intros [= <- _ _]; by apply keeps_same].
    destruct (_ <? _)%Z; intros [= <- _ _]; (eapply keeps_trans; [apply keeps_disarm|by apply keeps_same]).
  - destruct (template_poll tid token s) as [s' r] eqn:E. by apply (poll_follows _ _ _ _ _ trace Hf) in E as [E _].
  - destruct (generation_ready rid token pid pgid generation s) as [s' r] eqn:E. cbn [fst snd].
    eapply follows_silent; [done| |by destruct r]. revert E. unfold generation_ready.
    destruct (runtimes s !! rid); [|intros [= <- _]; by apply keeps_same].
    destruct (negb _); [intros [= <- _]; by apply keeps_same|].
    destruct (_ || _); [intros [= <- _]; by apply keeps_same|].
    intros [= <- _]. eapply keeps_trans; [apply keeps_disarm|by apply keeps_same].
  - destruct (retire_pending_generation env rid s) as [[s' sent] r] eqn:E. cbn [fst snd].
    eapply follows_silent; [done| |apply signalled_silent]. apply keeps_same. revert E.
    unfold retire_pending_generation. repeat case_match; by intros [= <- _ _].
  - pose proof (K5 bid) as Hk. destruct (wait_boundary_action bid s) as [s' r]. cbn [fst snd].
    eapply follows_silent; [done|done|by destruct r].
Qed.

Lemma handed_in_events env op s trace evs t1 tid g t2 :
  follows trace s -> (exec_op env op s).2 = evs -> evs = t1 ++ Handed tid g :: t2 ->
  t1 = [] /\ phase tid trace = Some (g, true, false).
Proof.
  intros Hf <- E.
  assert (forallb silent (exec_op env op s).2 = false) as Hns.
  { rewrite E, forallb_app. simpl. by rewrite andb_false_r. }
  destruct op; cbn [exec_op] in *; try done.
  - destruct (begin_restore env i s) as [[s' sent] r]. cbn [snd] in E. destruct (is_ok r).
    + assert (Handed tid g ∈ (Signalled <$> sent) ++ [Began (in_template i) (in_target i)]) as Hin
        by (rewrite E; set_solver).
      apply elem_of_app in Hin as [(? & ? & _)%list_elem_of_fmap|Hin%list_elem_of_singleton]; done.
    + assert (Handed tid g ∈ (Signalled <$> sent) ++ []) as Hin by (rewrite E; set_solver).
      rewrite app_nil_r in Hin. by apply list_elem_of_fmap in Hin as (? & ? & _).
  - destruct (publish_restore rid s) as [s' r]. cbn [snd] in E. destruct (is_ok r); by destruct t1 as [|? []].
  - destruct (abort_restore env rid s) as [[s' sent] r]. cbn [snd] in Hns. by rewrite signalled_silent in Hns.
  - destruct (template_poll tid0 token s) as [s' r] eqn:Ep.
    apply (poll_follows _ _ _ _ _ trace Hf) in Ep as [_ Ep]. cbn [snd] in E.
    destruct r as [[|g'|]|]; try (by destruct t1 as [|? []]).
    destruct t1 as [|? []]; [|done..]. injection E as <- <- _. split; [done|]. by apply Ep.
  - destruct (generation_ready rid token pid pgid generation s) as [s' r]. cbn [snd] in E.
    destruct (is_ok r); by destruct t1 as [|? []].
  - destruct (retire_pending_generation env rid s) as [[s' sent] r]. cbn [snd] in Hns. by rewrite signalled_silent in Hns.
  - destruct (wait_boundary_action bid s) as [s' r]. cbn [snd] in E. destruct r; by destruct t1 as [|? []].
Qed.

Lemma run_handed ops s pre t1 tid g t2 :
  follows pre s -> (run_ops ops s).2 = t1 ++ Handed tid g :: t2 ->
  phase tid (pre ++ t1) = Some (g, true, false).
Proof.
  revert s pre t1. induction ops as [|[env op] ops IH]; intros s pre t1 Hf E; [by destruct t1|].
  cbn [run_ops] in E. pose proof (exec_follows env op s pre Hf) as Hf1.
  pose proof (handed_in_events env op s pre) as Hh.
  destruct (exec_op env op s) as [s1 evs]. cbn [fst snd] in *.
  specialize (IH s1 (pre ++ evs)). destruct (run_ops ops s1) as [s2 more]. cbn [snd] in *.
  apply app_eq_app in E as (l & [[-> E]|[-> E]]).
  - destruct l as [|e l]; simpl in E.
    + subst more. rewrite app_nil_r in IH, Hf1. specialize (IH [] Hf1 eq_refl). by rewrite app_nil_r in IH.
    + injection E as <- ->. destruct (Hh _ t1 tid g l Hf eq_refl eq_refl) as [-> Hp]. by rewrite app_nil_r.
  - rewrite app_assoc. by apply IH.
Qed.

Lemma empty_follows : follows [] empty_supervisor.
Proof. intros tid t H. cbn in H. by rewrite lookup_empty in H. Qed.

(** A phase read back as the events that made it. *)
Lemma phase_split tid trace g p h :
  phase tid trace = Some (g, p, h) ->
  exists u v, trace = u ++ Began tid g :: v /\ (forall g', Began tid g' ∉ v) /\
    (p = true -> Published tid ∈ v) /\ (h = false -> forall g', Handed tid g' ∉ v).
Proof.
  revert g p h. induction trace as [|e trace IH] using rev_ind; intros g p h; [done|].
  unfold phase. rewrite foldl_app. simpl. fold (phase tid trace).
  assert (forall p0 h0, phase tid trace = Some (g, p0, h0) -> (forall g', e <> Began tid g') ->
    (p = true -> p0 = true \/ e = Published tid) -> (h = false -> h0 = false /\ forall g', e <> Handed tid g') ->
    exists u v, trace ++ [e] = u ++ Began tid g :: v /\ (forall g', Began tid g' ∉ v) /\
    (p = true -> Published tid ∈ v) /\ (h = false -> forall g', Handed tid g' ∉ v)) as Hstep.
  { intros p0 h0 (u & v & -> & Hb & Hp & Hh)%IH Hne Hpp Hhh. exists u, (v ++ [e]).
    rewrite <- app_assoc. split; [done|]. split; [|split].
    - intros g' [?|Hx%list_elem_of_singleton]%elem_of_app; [by eapply Hb|by eapply Hne].
    - intros Hpt. apply elem_of_app. destruct (Hpp Hpt) as [->| ->]; [left; auto|right; by left].
    - intros Hht g' [Hx|Hx%list_elem_of_singleton]%elem_of_app; [|by eapply Hhh]. revert Hx. apply Hh, Hhh, Hht. }
  destruct e as [sg|t gt|t|t gt|t|? ? ?|? ?]; simpl; try (intros H; by eapply Hstep; eauto).
  - case_decide as Hd; [|intros H; eapply Hstep; eauto; by intros g' [=]].
    intros [= -> <- <-]. subst t. exists trace, []. split; [done|]. split; [intros g'; apply not_elem_of_nil|].
    split; [done|]. intros _ g'. apply not_elem_of_nil.
  - case_decide as Hd; [|intros H; by eapply Hstep; eauto]. subst t.
    destruct (phase tid trace) as [[[g0 p0] h0]|] eqn:E; simpl; [|done]. intros [= -> <- ->].
    eapply Hstep; eauto.
  - case_decide as Hd; [|intros H; eapply Hstep; eauto; intros Hh; split; [done|by intros g' [=]]].
    subst t. destruct (phase tid trace) as [[[g0 p0] h0]|] eqn:E; simpl; [|done]. intros [= -> -> <-].
    eapply Hstep; eauto; done.
Qed.

(** ** Properties *)

(** C5. In every run, whatever the calls and their order, a template is told to
    restore only after a [publish_restore] that follows the last
    [begin_restore] on it, with that call's target generation, and only once:
    no second hand-over comes before another [begin_restore]. *)
Theorem restore_handed_over_once ops t1 tid g t2 :
  (run_ops ops empty_supervisor).2 = t1 ++ Handed tid g :: t2 ->
  exists u v, t1 = u ++ Began tid g :: v /\ (forall g', Began tid g' ∉ v) /\ Published tid ∈ v /\
    (forall g', Handed tid g' ∉ v).
Proof.
  intros E. apply (run_handed ops empty_supervisor []) in E; [|apply empty_follows].
  cbn [app] in E. apply phase_split in E as (u & v & -> & Hb & Hp & Hh). exists u, v. auto.
Qed.

(** C27. In every run of fewer than 2^64 calls the supervisor's tables stay well
    formed: every entry is under its own id, a fresh id never replaces an
    entry, every template and boundary belongs to a registered runtime, a
    runtime lists each of its templates once and none of another's, an answer
    is [snapshot] with a template or [error] without one, for the operation
    that asked, and the template a pending restore drives is its own, armed
    with its target. *)
Theorem supervisor_well_formed ops :
  N.of_nat (length ops) < 2 ^ 64 -> sup_ok (run_ops ops empty_supervisor).1.
Proof. intros H. apply run_ops_ok; [apply empty_ok|]. by split. Qed.

(** ** Witnesses *)

Definition calm : ProcessEnv :=
  mkProcess None (fun pid => (0 <? pid)%Z) (fun _ => None) (fun _ => None) (fun _ => None).

Definition demo_rid : str := lit "rt".
Definition demo_token : str := lit "secret".
Definition demo_template : str := make_id "tmpl-" 1.

(** One runtime with a live template. *)
Definition demo_calls : list (ProcessEnv * sup_op) :=
  pair calm <$>
  [OpRegister (mkCreateRequest demo_rid (lit "main") 200 201 (lit "cmd") (lit "/w") true demo_token);
   OpBeginSnapshot (mkSnapshotRequest demo_rid (lit "manual") [] 1000);
   OpObserve demo_rid demo_token 200 1 (lit "manual");
   OpRelease (make_id "bd-" 1);
   OpTemplateReady demo_rid demo_token demo_template 210 211 1;
   OpCancelSnapshot demo_rid].

Definition demo_restore : list (ProcessEnv * sup_op) :=
  pair calm <$>
  [OpBeginRestore (mkIntent demo_rid demo_template 2); OpPoll demo_template demo_token;
   OpPublishRestore demo_rid; OpPoll demo_template demo_token; OpPoll demo_template demo_token].

Lemma restore_handed_over_once_witness :
  exists u v, [Signalled (Freeze 201); Began demo_template 2; Published demo_template] = u ++ Began demo_template 2 :: v /\
    (forall g', Began demo_template g' ∉ v) /\ Published demo_template ∈ v /\ (forall g', Handed demo_template g' ∉ v).
Proof.
  apply (restore_handed_over_once (demo_calls ++ demo_restore)
    [Signalled (Freeze 201); Began demo_template 2; Published demo_template] demo_template 2 []).
  vm_compute. reflexivity.
Defined.

Lemma supervisor_well_formed_witness : sup_ok (run_ops (demo_calls ++ demo_restore) empty_supervisor).1.
Proof. apply (supervisor_well_formed (demo_calls ++ demo_restore)). reflexivity. Defined.
