(* ===== verification/ProcessControl.v ===== *)
(** The two process controllers (cas/runtime_process_posix.cpp,
    cas/runtime_process_unsupported.cpp) as instances of the supervisor's
    interface. [kill] is the operating system's: it answers with [errno] or
    success. *)

From S2P Require Import Prelude Hashes ObjectStore RuntimeState Supervisor.

Definition EPERM : N := 1.
Definition ESRCH : N := 3.

(** [static_cast<pid_t>] of a 64-bit integer. *)
Definition pid_t (n : Z) : Z :=
  let m := (n mod 2 ^ 32)%Z in if (m <? 2 ^ 31)%Z then m else (m - 2 ^ 32)%Z.

Inductive signo : Type := SigNone | SigStop | SigCont | SigKill.

Section posix.
Context (kill : Z -> signo -> option N) (strerror : N -> str).

Definition posix_alive (pid : Z) : bool :=
  if (pid <=? 0)%Z then false
  else match kill (pid_t pid) SigNone with None => true | Some e => e =? EPERM end.

(** The argument of [kill]. *)
Definition group_target (pgid : Z) : Z := (- pid_t pgid)%Z.

Definition signal_process_group (sig : signo) (pgid : Z) : fault :=
  if (pgid <=? 0)%Z then Some (lit "invalid process group")
  else
    match kill (group_target pgid) sig with
    | None => None
    | Some e => if e =? ESRCH then None else Some (strerror e)
    end.

Definition freeze_process_group := signal_process_group SigStop.
Definition resume_process_group := signal_process_group SigCont.
Definition terminate_process_group := signal_process_group SigKill.

Definition posix_controller : ProcessEnv :=
  mkProcess None posix_alive freeze_process_group resume_process_group terminate_process_group.

End posix.

Definition kUnsupportedError : str :=
  lit "cooperative runtime control is unsupported on this platform".

Definition unsupported_controller : ProcessEnv :=
  mkProcess (Some kUnsupportedError) (fun _ => false) (fun _ => Some kUnsupportedError)
    (fun _ => Some kUnsupportedError) (fun _ => Some kUnsupportedError).

(** A group that exists is the one signalled as long as its number is a
    [pid_t]; the next larger numbers stand for the daemon's own group and for
    every process. *)
Theorem group_target_bounds pgid :
  ((0 < pgid < 2 ^ 31)%Z -> group_target pgid = (- pgid)%Z) /\
  group_target (2 ^ 32) = 0%Z /\ group_target (2 ^ 32 + 1) = (-1)%Z.
Proof.
  split; [|done]. intros [H1 H2]. unfold group_target, pid_t.
  rewrite Z.mod_small by lia. apply Z.ltb_lt in H2. by rewrite H2.
Qed.

(** Where runtimes are not supported none is ever registered. *)
Lemma unsupported_registers_nothing q s :
  register_runtime unsupported_controller q s = (s, Err kUnsupportedError).
Proof. done. Qed.
