(* ===== verification/Peers.v ===== *)
(** Who may speak for a runtime (cas/control_channel.h and the checks of
    cas/control_protocol.cpp): the credentials of a connection's peer against
    the operating system's process table. *)

From S2P Require Import Prelude Hashes KvCodec JsonText ObjectStore RuntimeState Supervisor ProcessControl.

Record PeerCredentials : Type := mkPeer {
  trusted : bool;
  available : bool;
  peer_pid : Z;
  peer_uid : Z;
  peer_gid : Z
}.

Definition trusted_peer : PeerCredentials := mkPeer true true (-1) (-1) (-1).

(** What the kernel answers: [kill], [getpgid] ([None] when it fails), and the
    contents of /proc/<pid>/stat ([None] when it cannot be opened). *)
Record ProcessTable : Type := mkTable {
  pt_kill : Z -> signo -> option N;
  pt_getpgid : Z -> option Z;
  pt_stat : Z -> option str
}.

Definition process_live (t : ProcessTable) (pid : Z) : bool :=
  if (pid <=? 0)%Z then false
  else match pt_kill t (pid_t pid) SigNone with None => true | Some e => e =? EPERM end.

Definition process_group_for_pid (t : ProcessTable) (pid : Z) : option Z :=
  if (pid <=? 0)%Z then None
  else match pt_getpgid t (pid_t pid) with
       | Some v => if (v <? 0)%Z then None else Some v
       | None => None
       end.

(** [fgets] into a buffer of [n] bytes: at most [n - 1], up to and with the
    first line feed; [None] at the end of the file. *)
Definition fgets (n : nat) (s : str) : option str :=
  match s with
  | [] => None
  | _ => Some (take (n - 1) (match find_char newline s with Some i => take (i + 1) s | None => s end))
  end.

(** A C string ends at its first zero byte. *)
Definition c_str (s : str) : str := take (strlen s) s.

(** The field after the last closing parenthesis and the state letter. *)
Definition stat_parent (line : str) : option Z :=
  i ← rfind_char ")"%char (c_str line);
  match skip_while is_space (drop (i + 1) (c_str line)) with
  | _ :: rest => strtol rest
  | [] => None
  end.

Definition parent_for_pid (t : ProcessTable) (pid : Z) : option Z :=
  if (pid <=? 0)%Z then None
  else file ← pt_stat t pid; line ← fgets 4096 file; stat_parent line.

Definition peer_available_or_trusted (p : PeerCredentials) : result unit :=
  if trusted p then Ok ()
  else if available p && (0 <? peer_pid p)%Z then Ok ()
  else Err (lit "peer credentials unavailable").

Definition require_peer_pid (p : PeerCredentials) (claimed_pid : Z) : result unit :=
  if trusted p then Ok ()
  else
    let* _ := peer_available_or_trusted p in
    if (peer_pid p =? claimed_pid)%Z then Ok () else Err (lit "peer pid mismatch").

Section table.
Context (t : ProcessTable).

Definition require_process_group (pid claimed_pgid : Z) : result unit :=
  if (pid <=? 0)%Z || (claimed_pgid <=? 0)%Z then Err (lit "invalid process group")
  else
    match process_group_for_pid t pid with
    | None => Err (lit "runtime process not live")
    | Some actual => if (actual =? claimed_pgid)%Z then Ok () else Err (lit "process group mismatch")
    end.

Definition require_launcher_peer (p : PeerCredentials) (root_pid process_group_id : Z) : result unit :=
  let* _ := require_process_group root_pid process_group_id in
  if trusted p then Ok ()
  else
    let* _ := peer_available_or_trusted p in
    match parent_for_pid t root_pid with
    | None => Err (lit "runtime parent not verifiable")
    | Some ppid => if (ppid =? peer_pid p)%Z then Ok () else Err (lit "runtime launcher mismatch")
    end.

Definition require_runtime_peer (p : PeerCredentials) (pid : Z) (st : RuntimeStatus) (generation : N) :
    result unit :=
  let* _ := require_peer_pid p pid in
  if trusted p then Ok ()
  else if negb (rs_root_pid st =? pid)%Z then Err (lit "runtime peer mismatch")
  else if negb (rs_generation st =? generation) then Err (lit "runtime generation mismatch")
  else
    match process_group_for_pid t pid with
    | None => Err (lit "runtime process not live")
    | Some actual => if (actual =? rs_pgid st)%Z then Ok () else Err (lit "process group mismatch")
    end.

Definition require_template_peer (p : PeerCredentials) (template_pid template_pgid : Z) : result unit :=
  let* _ := require_peer_pid p template_pid in
  if trusted p then Ok () else require_process_group template_pid template_pgid.

Definition require_generation_peer (p : PeerCredentials) (pid pgid : Z) (restore_template : TemplateStatus) :
    result unit :=
  let* _ := require_peer_pid p pid in
  let* _ := require_process_group pid pgid in
  if trusted p then Ok ()
  else
    match parent_for_pid t pid with
    | None => Err (lit "generation parent not verifiable")
    | Some ppid => if (ppid =? ts_pid restore_template)%Z then Ok () else Err (lit "generation template mismatch")
    end.

End table.

(** ** The parent in /proc *)

(** The file of a process, one line: its number, its name in parentheses, its
    state, its parent, and the rest. The kernel writes the name as it is. *)
Definition stat_file (pid name : str) (state : ascii) (ppid : N) (rest : str) : str :=
  pid ++ lit " (" ++ name ++ ")"%char :: " "%char :: state :: " "%char :: to_string ppid ++ " "%char :: rest ++ [newline].

Lemma to_string_cons n : exists c s, to_string n = c :: s /\ is_digit c = true.
Proof.
  pose proof (to_string_digits n) as H. destruct (to_string n) as [|c s] eqn:E.
  - exfalso. revert E. apply dec_go_nonempty. by right.
  - simpl in H. apply andb_true_iff in H as [Hc _]. by exists c, s.
Qed.

Lemma digit_facts c : is_digit c = true -> is_space c = false /\ is_char "+" c = false /\ is_char "-" c = false /\ c <> zero /\ c <> ")"%char.
Proof.
  intros Hc.
  assert (implb (is_digit c) (negb (is_space c) && negb (is_char "+" c) && negb (is_char "-" c) &&
    bool_decide (c <> zero) && bool_decide (c <> ")"%char)) = true) as H.
  { clear Hc. revert c. apply ascii_cases. by apply (forall_below 256). }
  rewrite Hc in H. cbn [implb] in H. rewrite !andb_true_iff, !negb_true_iff, !bool_decide_eq_true in H. tauto.
Qed.

Lemma take_while_app p w s : forallb p w = true -> starts_with p s = false -> take_while p (w ++ s) = w.
Proof.
  induction w as [|c w IH]; cbn; [destruct s as [|c s]; cbn; [done|by intros _ ->]|].
  rewrite andb_true_iff. intros [-> Hw] Hs. by rewrite IH.
Qed.

(** Reading back a number that something else follows. *)
Lemma strtol_to_string n s : (Z.of_N n <= LONG_MAX)%Z -> starts_with is_digit s = false ->
  strtol (to_string n ++ s) = Some (Z.of_N n).
Proof.
  intros Hn Hs. unfold strtol. destruct (to_string_cons n) as (c & d & E & Hc).
  destruct (digit_facts c Hc) as (H1 & H2 & H3 & _).
  assert (skip_while is_space (to_string n ++ s) = to_string n ++ s) as -> by by rewrite E; cbn; rewrite H1.
  assert (starts_with (is_char "-") (to_string n ++ s) = false) as -> by by rewrite E; cbn.
  unfold skip_if. assert (starts_with (fun c => is_char "+" c || is_char "-" c) (to_string n ++ s) = false) as ->
    by by rewrite E; cbn; rewrite H2, H3.
  rewrite take_while_app by (done || apply to_string_digits). rewrite E, <- E, to_string_value. f_equal. lia.
Qed.

Lemma c_str_clean s : zero ∉ s -> c_str s = s.
Proof.
  intros H. unfold c_str, strlen. rewrite (proj2 (find_char_None zero s)) by done. cbn. by rewrite firstn_all.
Qed.

Lemma to_string_no c n : is_digit c = false -> c ∉ to_string n.
Proof.
  intros Hc H. pose proof (to_string_digits n) as Hd. rewrite forallb_forall in Hd.
  apply list_elem_of_In, Hd in H. congruence.
Qed.

(** The state letter and the parent after the last parenthesis. *)
Lemma stat_parent_reads pre state ppid rest :
  zero ∉ pre -> zero ∉ rest -> state <> zero -> is_space state = false -> state <> ")"%char -> ")"%char ∉ rest ->
  starts_with is_digit rest = false -> (Z.of_N ppid <= LONG_MAX)%Z ->
  stat_parent (pre ++ ")"%char :: " "%char :: state :: " "%char :: to_string ppid ++ rest) = Some (Z.of_N ppid).
Proof.
  intros Hz1 Hz2 Hz3 Hsp Hst Hr Hd Hp. unfold stat_parent. rewrite c_str_clean.
  2:{ rewrite elem_of_app, !elem_of_cons, elem_of_app.
      pose proof (to_string_no zero ppid eq_refl) as Hz4. naive_solver discriminate. }
  rewrite rfind_char_app.
  2:{ rewrite !elem_of_cons, elem_of_app. pose proof (to_string_no ")" ppid eq_refl). naive_solver discriminate. }
  cbn [mbind option_bind]. rewrite drop_past. cbn [skip_while]. change (is_space " ") with true. cbv iota. rewrite Hsp.
  assert (forall s, strtol (" "%char :: s) = strtol s) as -> by done. by apply strtol_to_string.
Qed.

Lemma fgets_line n l r : newline ∉ l -> (length l + 2 <= n)%nat -> fgets n (l ++ newline :: r) = Some (l ++ [newline]).
Proof.
  intros Hl Hn. unfold fgets. destruct (l ++ newline :: r) as [|c0 l0] eqn:El; [by apply app_nil in El as [_ ?]|].
  rewrite <- El. clear El c0 l0. rewrite find_char_app by done. rewrite take_app, (take_ge l) by lia.
  replace (length l + 1 - length l)%nat with 1%nat by lia. change (take 1 (newline :: r)) with [newline].
  rewrite take_ge by (rewrite length_app; cbn [length]; lia). done.
Qed.

Lemma dec_go_length fuel : forall n acc, (length (dec_go fuel n acc) <= fuel + length acc)%nat.
Proof.
  induction fuel as [|fuel IH]; intros n acc; cbn [dec_go]; [done|].
  destruct (_ =? 0); [cbn; lia|]. etrans; [apply IH|]. cbn. lia.
Qed.

Lemma to_string_length n : (length (to_string n) <= S (N.to_nat (N.log2 n)))%nat.
Proof. etrans; [apply dec_go_length|]. cbn. lia. Qed.

(** A process whose name has no line feed is given its true parent, whatever
    else the name holds, as long as its line fits the buffer. *)
Lemma plain_name_true_parent t pid pid_text name state ppid rest :
  (0 < pid)%Z -> pt_stat t pid = Some (stat_file pid_text name state ppid rest) ->
  newline ∉ pid_text -> newline ∉ name -> newline ∉ rest -> zero ∉ pid_text -> zero ∉ name -> zero ∉ rest ->
  ")"%char ∉ rest -> state <> zero -> is_space state = false -> state <> ")"%char -> (Z.of_N ppid <= LONG_MAX)%Z ->
  (length (stat_file pid_text name state ppid rest) <= 4095)%nat ->
  parent_for_pid t pid = Some (Z.of_N ppid).
Proof.
  intros Hpid Hstat Hn1 Hn2 Hn3 Hz1 Hz2 Hz3 Hr Hs1 Hs2 Hs3 Hp Hlen. unfold parent_for_pid.
  replace (pid <=? 0)%Z with false by (symmetry; by apply Z.leb_gt). rewrite Hstat. cbn [mbind option_bind].
  assert (stat_file pid_text name state ppid rest =
    (pid_text ++ lit " (" ++ name ++ ")"%char :: " "%char :: state :: " "%char :: to_string ppid ++ " "%char :: rest) ++ newline :: []) as E
    by (unfold stat_file; by rewrite <- !app_assoc, <- !app_comm_cons, <- !app_assoc).
  rewrite E in *.
  match type of E with _ = ?l ++ _ => assert (newline ∉ l) as Hnl end.
  { rewrite !elem_of_app, !elem_of_cons, !elem_of_app, !elem_of_cons.
    pose proof (to_string_no newline ppid eq_refl).
    assert (newline ∉ lit " (") by (vm_compute; set_solver).
    assert (newline <> state) by (by intros <-). naive_solver discriminate. }
  rewrite length_app in Hlen. rewrite fgets_line by (done || (cbn [length] in Hlen; lia)). cbn [mbind option_bind].
  rewrite <- !app_assoc, <- !app_comm_cons, <- !app_assoc. rewrite app_assoc, app_assoc.
  apply stat_parent_reads; try done.
  - rewrite !elem_of_app. assert (zero ∉ lit " (") by (vm_compute; set_solver). tauto.
  - cbn. rewrite !elem_of_cons, elem_of_app, list_elem_of_singleton. naive_solver discriminate.
  - cbn. rewrite !elem_of_cons, elem_of_app, list_elem_of_singleton. naive_solver discriminate.
Qed.

(** Ten digits at most below 10^10. *)
Lemma dec_go_short k : forall fuel n acc, n < 10 ^ N.of_nat (S k) -> (length (dec_go fuel n acc) <= S k + length acc)%nat.
Proof.
  induction k as [|k IH]; intros [|fuel] n acc Hn; cbn [dec_go]; try lia.
  - assert (n / 10 = 0) as -> by by apply N.div_small. cbn. lia.
  - destruct (N.eqb_spec (n / 10) 0); [cbn [length]; lia|]. etrans; [apply IH|cbn [length]; lia].
    apply N.Div0.div_lt_upper_bound. rewrite Nat2N.inj_succ, N.pow_succ_r' in Hn. done.
Qed.

Lemma to_string_tight n : n < 10 ^ 10 -> (length (to_string n) <= 10)%nat.
Proof. intros H. apply (dec_go_short 9 _ n []) . exact H. Qed.

(** A name that closes its own parenthesis and ends its line. *)
Definition forged_name (claimed : N) : str :=
  ")"%char :: " "%char :: "S"%char :: " "%char :: to_string claimed ++ [newline].

(** With the forged name every process is taken for the child of the one it
    claims, whoever its parent is. *)
Lemma forged_name_forges_parent t pid pid_text state ppid rest claimed :
  (0 < pid)%Z -> pt_stat t pid = Some (stat_file pid_text (forged_name claimed) state ppid rest) ->
  newline ∉ pid_text -> zero ∉ pid_text -> (length pid_text <= 20)%nat -> claimed < 10 ^ 10 ->
  parent_for_pid t pid = Some (Z.of_N claimed).
Proof.
  intros Hpid Hstat Hn Hz Hl Hc. unfold parent_for_pid.
  replace (pid <=? 0)%Z with false by (symmetry; by apply Z.leb_gt). rewrite Hstat. cbn [mbind option_bind].
  set (line := (pid_text ++ lit " (") ++ ")"%char :: " "%char :: "S"%char :: " "%char :: to_string claimed).
  assert (exists r, stat_file pid_text (forged_name claimed) state ppid rest = line ++ newline :: r) as [r ->].
  { unfold stat_file, forged_name, line. eexists.
    rewrite <- !app_assoc, <- !app_comm_cons, <- !app_assoc. do 6 f_equal. }
  assert (newline ∉ line) as Hnl.
  { unfold line. rewrite !elem_of_app, !elem_of_cons. pose proof (to_string_no newline claimed eq_refl).
    assert (newline ∉ lit " (") by (vm_compute; set_solver). naive_solver discriminate. }
  rewrite fgets_line; [|done|].
  2:{ pose proof (to_string_length claimed) as Hs.
      assert (N.log2 claimed <= 33) as Hlog by (change 33 with (N.log2 (10 ^ 10)); apply N.log2_le_mono; lia).
      unfold line. rewrite !length_app. cbn [length]. change (length (lit " (")) with 2%nat. lia. }
  cbn [mbind option_bind].
  unfold line. rewrite <- !app_assoc. rewrite app_assoc, <- !app_comm_cons.
  assert (zero ∉ lit " (") as Hlit by (vm_compute; set_solver).
  apply stat_parent_reads.
  - rewrite elem_of_app. tauto.
  - by intros ?%list_elem_of_singleton.
  - done.
  - done.
  - done.
  - by intros ?%list_elem_of_singleton.
  - done.
  - unfold LONG_MAX. lia.
Qed.

(** ** Restored generations *)

(** A process as the kernel shows it. *)
Record Process : Type := mkProc {
  p_pid : Z;
  p_pid_text : str;
  p_name : str;
  p_state : ascii;
  p_parent : N;
  p_rest : str;
  p_group : Z
}.

(** Its entries in the table; only the name is the process's own choice. *)
Record shown (t : ProcessTable) (p : Process) : Prop := mkShown {
  shown_pid : (0 < p_pid p < 2 ^ 31)%Z;
  shown_group : pt_getpgid t (p_pid p) = Some (p_group p) /\ (0 < p_group p)%Z;
  shown_stat : pt_stat t (p_pid p) = Some (stat_file (p_pid_text p) (p_name p) (p_state p) (p_parent p) (p_rest p));
  shown_text : (newline ∉ p_pid_text p) /\ (zero ∉ p_pid_text p) /\ (length (p_pid_text p) <= 20)%nat;
  shown_rest : (newline ∉ p_rest p) /\ (zero ∉ p_rest p) /\ (")"%char ∉ p_rest p);
  shown_state : p_state p <> zero /\ is_space (p_state p) = false /\ p_state p <> ")"%char;
  shown_parent : (Z.of_N (p_parent p) <= LONG_MAX)%Z;
  shown_length : (length (stat_file (p_pid_text p) (p_name p) (p_state p) (p_parent p) (p_rest p)) <= 4095)%nat
}.

Lemma pid_t_small n : (0 < n < 2 ^ 31)%Z -> pid_t n = n.
Proof. intros H. unfold pid_t. rewrite Z.mod_small by lia. by replace (n <? 2 ^ 31)%Z with true by (symmetry; apply Z.ltb_lt; lia). Qed.

Lemma shown_process_group t p : shown t p -> require_process_group t (p_pid p) (p_group p) = Ok ().
Proof.
  intros [Hpid [Hg Hg0] _ _ _ _ _ _]. unfold require_process_group, process_group_for_pid.
  replace (p_pid p <=? 0)%Z with false by (symmetry; apply Z.leb_gt; lia).
  replace (p_group p <=? 0)%Z with false by (symmetry; by apply Z.leb_gt). cbn [orb].
  rewrite pid_t_small, Hg by done. replace (p_group p <? 0)%Z with false by (symmetry; apply Z.ltb_ge; lia).
  by rewrite Z.eqb_refl.
Qed.

(** Of the processes whose name has neither a line feed nor a zero byte, an
    untrusted peer speaks for a restored generation only as itself and only as a
    child of the template that was restored, in its own process group. *)
Theorem generation_peer_is_child t peer p claimed_pgid template :
  shown t p -> newline ∉ p_name p -> zero ∉ p_name p -> trusted peer = false ->
  require_generation_peer t peer (p_pid p) claimed_pgid template = Ok () ->
  peer_pid peer = p_pid p /\ claimed_pgid = p_group p /\ Z.of_N (p_parent p) = ts_pid template.
Proof.
  intros [Hpid [Hg Hg0] Hs (H1 & H2 & _) (H3 & H4 & H5) (H6 & H7 & H8) Hpar Hlen] Hn1 Hn2 Htr.
  unfold require_generation_peer, require_peer_pid. rewrite Htr.
  destruct (peer_available_or_trusted peer); [|done]. cbn [rbind].
  destruct (Z.eqb_spec (peer_pid peer) (p_pid p)) as [Hpeer|]; [|done]. cbn [rbind].
  unfold require_process_group, process_group_for_pid. destruct (_ || _); [done|].
  replace (p_pid p <=? 0)%Z with false by (symmetry; apply Z.leb_gt; lia). rewrite pid_t_small, Hg by done.
  replace (p_group p <? 0)%Z with false by (symmetry; apply Z.ltb_ge; lia).
  destruct (Z.eqb_spec (p_group p) claimed_pgid) as [Hgrp|]; [|done]. cbn [rbind].
  rewrite (plain_name_true_parent t (p_pid p) (p_pid_text p) (p_name p) (p_state p) (p_parent p) (p_rest p)) by (done || lia).
  destruct (Z.eqb_spec (Z.of_N (p_parent p)) (ts_pid template)) as [Hp|]; done.
Qed.

(** C39. The name is what the check trusts: any process that has the forged name
    for the template's pid, of fifteen bytes at most for a pid of ten digits,
    is accepted as its restored generation, whoever its parent is. *)
Theorem forged_generation_accepted t peer p template claimed :
  shown t p -> p_name p = forged_name claimed -> claimed < 10 ^ 10 ->
  ts_pid template = Z.of_N claimed -> available peer = true -> peer_pid peer = p_pid p ->
  require_generation_peer t peer (p_pid p) (p_group p) template = Ok () /\ (length (p_name p) <= 15)%nat.
Proof.
  intros Hsh Hname Hc Ht Ha Hpeer. split.
  - unfold require_generation_peer. pose proof Hsh as [Hpid _ Hs (H1 & H2 & H3) _ _ _ _].
    assert (require_peer_pid peer (p_pid p) = Ok ()) as ->.
    { unfold require_peer_pid, peer_available_or_trusted. rewrite Ha, Hpeer.
      replace (0 <? p_pid p)%Z with true by (symmetry; apply Z.ltb_lt; lia).
      destruct (trusted peer); [done|]. cbn. by rewrite Z.eqb_refl. }
    rewrite shown_process_group by done. cbn [rbind]. destruct (trusted peer); [done|].
    rewrite Hname in Hs. rewrite (forged_name_forges_parent t (p_pid p) _ _ _ _ claimed ltac:(lia) Hs H1 H2 H3 Hc).
    by rewrite Ht, Z.eqb_refl.
  - rewrite Hname. unfold forged_name. cbn [length]. rewrite length_app. cbn [length].
    pose proof (to_string_tight claimed Hc). lia.
Qed.

(** ** Witnesses *)

Definition child_rest : str := lit "7001 7001 0 -1 4194304".

Definition child (name : str) (parent : N) : Process :=
  mkProc 4242 (lit "4242") name "S" parent child_rest 4242.

Definition child_table (p : Process) : ProcessTable :=
  mkTable (fun _ _ => None) (fun _ => Some (p_group p))
    (fun _ => Some (stat_file (p_pid_text p) (p_name p) (p_state p) (p_parent p) (p_rest p))).

Lemma child_shown name parent : (length name <= 100)%nat -> parent < 10 ^ 10 -> shown (child_table (child name parent)) (child name parent).
Proof.
  intros Hl Hp. split; cbn [child p_pid p_pid_text p_name p_state p_parent p_rest p_group].
  - lia.
  - split; [done|lia].
  - done.
  - split_and!; [vm_compute; set_solver..|cbn; lia].
  - split_and!; vm_compute; set_solver.
  - done.
  - unfold LONG_MAX. lia.
  - unfold stat_file. rewrite !length_app. cbn [length]. rewrite length_app. cbn [length]. rewrite length_app.
    pose proof (to_string_tight parent Hp). change (length (lit " (")) with 2%nat. change (length (lit "4242")) with 4%nat.
    change (length child_rest) with 22%nat. cbn [length]. lia.
Qed.

Definition parked (pid : Z) : TemplateStatus := mkTemplateStatus [] [] pid pid 1 true [] ZERO_HASH LiveRuntimeRestorable.

Lemma generation_peer_is_child_witness :
  let p := child (lit "py) R 1") 7001 in
  p_pid p = 4242%Z /\ 4242%Z = p_group p /\ Z.of_N (p_parent p) = ts_pid (parked 7001).
Proof.
  intros p.
  exact (generation_peer_is_child (child_table p) (mkPeer false true 4242 0 0) p 4242 (parked 7001)
    (child_shown (lit "py) R 1") 7001 ltac:(cbn; lia) ltac:(lia)) ltac:(vm_compute; set_solver) ltac:(vm_compute; set_solver) eq_refl
    ltac:(vm_compute; reflexivity)).
Defined.

Lemma forged_generation_accepted_witness :
  let p := child (forged_name 7001) 1 in
  require_generation_peer (child_table p) (mkPeer false true 4242 0 0) 4242 4242 (parked 7001) = Ok () /\
  (length (p_name p) <= 15)%nat.
Proof.
  intros p.
  exact (forged_generation_accepted (child_table p) (mkPeer false true 4242 0 0) p (parked 7001) 7001
    (child_shown (forged_name 7001) 1 ltac:(vm_compute; lia) ltac:(lia)) eq_refl ltac:(lia) eq_refl eq_refl eq_refl).
Defined.
