(* ===== verification/BranchMerge.v ===== *)
(** Branch merging (cas/branch_merge.h, cas/branch_merge.cpp): the three-way
    merge of path maps, the search for a merge base, and the merge commit. *)

From S2P Require Import Prelude Hashes WorkingTree Codec ObjectStore TreeSerialize History Refs Checkpoint.

(** ** Entry states: [std::optional<WorkingTreeEntry>] *)

Abbreviation EntryState := (option WorkingTreeEntry).

(** [out[path] = entry] for each entry of the walk. *)
Definition to_path_map (wt : WorkingTree) : EntryMap := insert_all (for_each_including_deleted wt) ∅.

Definition lookup_state (entries : EntryMap) (path : str) : EntryState := entries !! path.

Definition same_entry (a b : EntryState) : bool :=
  match a, b with
  | None, None => true
  | Some x, Some y =>
      bool_decide (e_kind x = e_kind y) && bool_decide (e_mode x = e_mode y) &&
      (bool_decide (e_kind x = Tree) || bool_decide (e_hash x = e_hash y))
  | _, _ => false
  end.

Definition is_absent (s : EntryState) : bool :=
  match s with Some e => bool_decide (e_kind e = Deleted) | None => true end.

Definition same_merge_state (a b : EntryState) : bool :=
  (is_absent a && is_absent b) || same_entry a b.

Definition has_whiteout (s : EntryState) : bool :=
  match s with Some e => bool_decide (e_kind e = Deleted) | None => false end.

Definition equivalent_merge_state (a b : EntryState) : EntryState :=
  if has_whiteout a then a else if has_whiteout b then b
  else match a with Some _ => a | None => b end.

Definition apply_state (wt : WorkingTree) (path : str) (s : EntryState) : WorkingTree :=
  match s with Some e => wt_insert wt path e | None => wt end.

Definition is_tree (s : EntryState) : bool :=
  match s with Some e => bool_decide (e_kind e = Tree) | None => false end.

(** ** Structural conflicts *)

Definition parent_path (path : str) : str :=
  match rfind_char slash path with
  | None | Some O => []
  | Some i => take i path
  end.

(** The nearest recorded ancestor that is not a directory; each turn shortens
    the path, so its length is enough fuel. *)
Fixpoint blocking_ancestor (fuel : nat) (merged : gmap str EntryState) (ancestor : str) : option str :=
  match fuel with
  | O => None
  | S fuel' =>
      match ancestor with
      | [] => None
      | _ =>
          match merged !! ancestor with
          | Some s => if is_tree s then blocking_ancestor fuel' merged (parent_path ancestor) else Some ancestor
          | None => blocking_ancestor fuel' merged (parent_path ancestor)
          end
      end
  end.

Definition structural_conflict (merged : gmap str EntryState) (x : str * EntryState) : option str :=
  if is_absent x.2 then None
  else blocking_ancestor (length x.1) merged (parent_path x.1).

Definition detect_structural_conflicts (merged : gmap str EntryState) : list str :=
  omap (structural_conflict merged) (entries merged).

(** [std::unique]: drop the repetitions of neighbours. *)
Fixpoint unique (l : list str) : list str :=
  match l with
  | [] => []
  | x :: l' => match l' with y :: _ => if decide (x = y) then unique l' else x :: unique l' | [] => [x] end
  end.

(** [sort] then [erase(unique)]. *)
Definition sort_unique (l : list str) : list str := unique (merge_sort str_le l).

(** ** The merge *)

Record MergeResult : Type := mkMerge {
  mr_ok : bool;
  mr_merged : WorkingTree;
  mr_conflicts : list str;
  mr_error : str
}.

(** The state of one path after the merge; [None] is a conflict. *)
Definition merge_path (base source target : EntryState) : option EntryState :=
  let source_changed := negb (same_entry base source) in
  let target_changed := negb (same_entry base target) in
  if negb source_changed && negb target_changed then Some base
  else if negb source_changed then Some target
  else if negb target_changed then Some source
  else if same_merge_state source target then Some (equivalent_merge_state source target)
  else None.

Definition merge_step (b s t : EntryMap) (acc : gmap str EntryState * list str) (path : str) :
    gmap str EntryState * list str :=
  match merge_path (lookup_state b path) (lookup_state s path) (lookup_state t path) with
  | Some st => (<[path := st]> acc.1, acc.2)
  | None => (acc.1, acc.2 ++ [path])
  end.

Definition merge_trees (base source target : WorkingTree) : MergeResult :=
  let b := to_path_map base in
  let s := to_path_map source in
  let t := to_path_map target in
  let paths := sort_unique ((entries b).*1 ++ (entries s).*1 ++ (entries t).*1) in
  let '(merged, conflicts) := fold_left (merge_step b s t) paths (∅, []) in
  let conflicts := sort_unique (conflicts ++ detect_structural_conflicts merged) in
  match conflicts with
  | [] => mkMerge true (fold_left (fun wt x => apply_state wt x.1 x.2) (entries merged) empty_tree) [] []
  | _ => mkMerge false (wt_clear empty_tree) conflicts (lit "merge conflicts")
  end.

(** ** History *)

(** How a walk ends: [Wild] is undefined behaviour, [Starved] a limit of the
    definition that is never reached. *)
Inductive walk (A : Type) : Type :=
| Found (a : A)
| Broken (msg : str)
| Wild
| Starved.

Arguments Found {A} a.
Arguments Broken {A} msg.
Arguments Wild {A}.
Arguments Starved {A}.

Section history.
Context (st : ObjectStore).

Definition read_commit_data (io : bool) (hash : Hash) : walk CommitData :=
  match read_commit st io hash with
  | None => Broken (lit "failed to read commit " ++ hash_to_hex hash)
  | Some body =>
      match deserialize_commit body with
      | Parsed cd => Found cd
      | Rejected => Broken (lit "failed to parse commit " ++ hash_to_hex hash)
      | OutOfBounds => Wild
      end
  end.

(** The breadth-first loop over all parents that both searches share; [stop]
    ends it at a commit just seen. *)
Fixpoint bfs (fuel : nat) (io : Hash -> bool) (stop : Hash -> bool) (queue : list Hash) (seen : gset Hash) :
    walk (gset Hash * bool) :=
  match fuel with
  | O => Starved
  | S fuel' =>
      match queue with
      | [] => Found (seen, false)
      | h :: q =>
          if decide (h ∈ seen) then bfs fuel' io stop q seen
          else if stop h then Found ({[h]} ∪ seen, true)
          else
            match read_commit_data (io h) h with
            | Found cd => bfs fuel' io stop (q ++ parents cd) ({[h]} ∪ seen)
            | Broken msg => Broken msg
            | Wild => Wild
            | Starved => Starved
            end
      end
  end.

(** Every turn consumes a queue element; every push is a parent. *)
Definition bfs_fuel : nat := 2 + weight st ∅.

Definition collect_ancestors (io : Hash -> bool) (start : Hash) : walk (gset Hash) :=
  match bfs bfs_fuel io (fun _ => false) [start] ∅ with
  | Found (seen, _) => Found seen
  | Broken msg => Broken msg
  | Wild => Wild
  | Starved => Starved
  end.

(** A failed read counts as "no". *)
Definition is_ancestor_of (io : Hash -> bool) (candidate descendant : Hash) : walk bool :=
  match bfs bfs_fuel io (fun h => bool_decide (h = candidate)) [descendant] ∅ with
  | Found (_, b) => Found b
  | Broken _ => Found false
  | Wild => Wild
  | Starved => Starved
  end.

(** [std::map<std::string, Hash>] keyed by the hex names. *)
Definition hex_le (a b : Hash) : Prop := str_le (hash_to_hex a) (hash_to_hex b).
#[global] Instance hex_le_dec : RelDecision hex_le := fun a b => str_le_dec _ _.

Fixpoint superseded (io : Hash -> Hash -> Hash -> bool) (candidate : Hash) (others : list Hash) : walk bool :=
  match others with
  | [] => Found false
  | other :: rest =>
      if decide (candidate = other) then superseded io candidate rest
      else
        match is_ancestor_of (io candidate other) candidate other with
        | Found true => Found true
        | Found false => superseded io candidate rest
        | r => r
        end
  end.

Fixpoint best_bases (io : Hash -> Hash -> Hash -> bool) (candidates todo : list Hash) : walk (list Hash) :=
  match todo with
  | [] => Found []
  | c :: rest =>
      match superseded io c candidates with
      | Found s =>
          match best_bases io candidates rest with
          | Found l => Found (if s then l else c :: l)
          | r => r
          end
      | Broken msg => Broken msg
      | Wild => Wild
      | Starved => Starved
      end
  end.

(** The reads of the two collections and of each ancestry test. *)
Record MergeBaseEnv : Type := mkMBEnv {
  first_io : Hash -> bool;
  second_io : Hash -> bool;
  test_io : Hash -> Hash -> Hash -> bool
}.

(** [merge_bases.front()] of an empty vector is undefined. *)
Definition find_common_ancestor (env : MergeBaseEnv) (first second : Hash) : walk Hash :=
  if decide (first = ZERO_HASH \/ second = ZERO_HASH) then Broken (lit "no common ancestor")
  else
    match collect_ancestors (first_io env) first, collect_ancestors (second_io env) second with
    | Found a, Found b =>
        match merge_sort hex_le (elements (a ∩ b)) with
        | [] => Broken (lit "no common ancestor")
        | candidates =>
            match best_bases (test_io env) candidates candidates with
            | Found l => match merge_sort hex_le l with [] => Wild | c :: _ => Found c end
            | Broken msg => Broken msg
            | Wild => Wild
            | Starved => Starved
            end
        end
    | Found _, Broken msg => Broken msg
    | Found _, Wild => Wild
    | Found _, Starved => Starved
    | Broken msg, _ => Broken msg
    | Wild, _ => Wild
    | Starved, _ => Starved
    end.

End history.

(** ** Loading and writing commits *)

(** The out parameters are assigned on success only. *)
Definition load_commit_tree (blake3 : bytes -> Hash) (st : ObjectStore) (commit_io : bool)
    (fuel : nat) (tree_io : Hash -> bool) (status : Hash -> object_status) (commit_hash : Hash) :
    walk (WorkingTree * CommitData) :=
  match read_commit_data st commit_io commit_hash with
  | Found cd =>
      match @rebuild_working_tree _ _ (object_tree_store blake3) fuel tree_io status (tree_hash cd) st empty_tree with
      | None => Starved
      | Some (_, Err _) => Broken (lit "failed to rebuild tree " ++ hash_to_hex (tree_hash cd))
      | Some (wt, Ok _) => Found (wt, cd)
      end
  | Broken msg => Broken msg
  | Wild => Wild
  | Starved => Starved
  end.

Record MergeCommitEnv : Type := mkMCEnv {
  mc_tree_writes : nat -> WriteEnv;
  mc_commit_write : WriteEnv;
  mc_now_ns : N;
  mc_fsync : FsyncEnv
}.

Definition write_commit_with_parents (blake3 : bytes -> Hash) (env : MergeCommitEnv) (st : ObjectStore)
    (wt : WorkingTree) (ps : list Hash) (session_id policy_version : N) (label : str) :
    ObjectStore * result Hash :=
  let run := @serialize_working_tree _ _ (object_tree_store blake3) (mc_tree_writes env) wt st in
  match sr_result run with
  | Err _ => (sr_store run, Err (lit "failed to serialize merged tree"))
  | Ok th =>
      let cd := mkCommit th ps session_id (mc_now_ns env) label policy_version in
      let '(st2, commit) := write_commit blake3 (serialize_commit cd) (mc_commit_write env) (sr_store run) in
      if decide (commit = ZERO_HASH) then (st2, Err (lit "failed to write commit object"))
      else
        let '(st3, pending) := drain_pending st2 in
        let to_fsync := filter_to_committed_graph pending wt (sr_written run) commit in
        match fsync_objects (object_out (mc_fsync env)) to_fsync st3 with
        | (st4, false) => (restore_pending pending st4, Err (lit "failed to fsync merge objects"))
        | (st4, true) =>
            match fsync_shard_dirs (shard_out (mc_fsync env)) (objects_dir_out (mc_fsync env)) to_fsync st4 with
            | (st5, false) => (restore_pending pending st5, Err (lit "failed to fsync merge shard dirs"))
            | (st5, true) => (st5, Ok commit)
            end
        end
  end.

(** ** Sorted lists of paths *)

Lemma to_path_map_raw wt : to_path_map wt = raw wt.
Proof.
  unfold to_path_map, for_each_including_deleted. rewrite merged_for_each_raw, insert_all_entries.
  apply (right_id_L ∅ (∪)).
Qed.

Lemma elem_of_unique l x : x ∈ unique l <-> x ∈ l.
Proof.
  induction l as [|y l IH]; [done|]. simpl. destruct l as [|z l]; [done|].
  case_decide as Hd; [subst y|].
  - rewrite IH, !elem_of_cons. tauto.
  - rewrite elem_of_cons, IH, !elem_of_cons. done.
Qed.

Lemma unique_sorted l : StronglySorted str_le l -> StronglySorted str_lt (unique l).
Proof.
  induction l as [|y l IH]; intros Hs; [constructor|]. apply StronglySorted_cons in Hs as [Hy Hs].
  simpl. destruct l as [|z l]; [repeat constructor|].
  case_decide as Hd; [by apply IH|]. apply StronglySorted_cons. split; [|by apply IH].
  apply Forall_forall. intros x Hx. rewrite elem_of_unique in Hx.
  rewrite Forall_forall in Hy. apply StronglySorted_cons in Hs as [Hz _].
  assert (str_lt y z) as Hyz by (destruct (proj1 (str_le_lt_or_eq y z) (Hy z ltac:(by left))); done).
  apply elem_of_cons in Hx as [->|Hx]; [done|]. rewrite Forall_forall in Hz.
  destruct (proj1 (str_le_lt_or_eq z x) (Hz x Hx)) as [H|<-]; [by transitivity z|done].
Qed.

#[local] Instance str_le_total : Total str_le.
Proof. intros a b. apply (key_le_total (V := unit) (a, tt) (b, tt)). Qed.
#[local] Instance str_le_trans : Transitive str_le.
Proof. intros a b c. apply (key_le_trans (V := unit) (a, tt) (b, tt) (c, tt)). Qed.

Lemma elem_of_sort_unique l x : x ∈ sort_unique l <-> x ∈ l.
Proof. unfold sort_unique. by rewrite elem_of_unique, merge_sort_Permutation. Qed.

Lemma sort_unique_sorted l : StronglySorted str_lt (sort_unique l).
Proof. apply unique_sorted. apply Sorted_StronglySorted; [apply _|]. apply Sorted_merge_sort, _. Qed.

Lemma strictly_sorted_NoDup l : StronglySorted str_lt l -> NoDup l.
Proof.
  induction 1 as [|x l Hs IH Hx]; constructor; [|done]. intros Hin. rewrite Forall_forall in Hx.
  by apply Hx, (irreflexivity str_lt) in Hin.
Qed.

Lemma strictly_sorted_ext l1 l2 :
  StronglySorted str_lt l1 -> StronglySorted str_lt l2 -> (forall x, x ∈ l1 <-> x ∈ l2) -> l1 = l2.
Proof.
  intros H1 H2 He.
  assert (forall l, StronglySorted str_lt l -> ksorted ((fun x => (x, tt)) <$> l)) as Hk.
  { induction 1 as [|x l Hs IH Hx]; simpl; constructor; [done|]. by rewrite Forall_fmap. }
  assert ((fun x => (x, tt)) <$> l1 = (fun x => (x, tt)) <$> l2) as E.
  { apply ksorted_unique; [by apply Hk..|]. intros [x []]. rewrite !list_elem_of_fmap. split;
      intros (y & [= <-] & Hy); exists x; (split; [done|]); by apply He. }
  apply (f_equal (fmap fst)) in E. rewrite <- !list_fmap_compose in E.
  by rewrite !list_fmap_id in E.
Qed.

(** ** Ancestors of a path *)

(** [q] is a directory on the way to [p]. *)
Definition inside (q p : str) : Prop := q <> [] /\ exists rest, p = q ++ slash :: rest.

Lemma parent_path_cases p :
  (parent_path p = [] /\ forall q, ~ inside q p) \/
  (parent_path p <> [] /\ inside (parent_path p) p /\ (length (parent_path p) < length p)%nat /\
   forall q, inside q p -> q = parent_path p \/ inside q (parent_path p)).
Proof.
  unfold parent_path. destruct (rfind_char slash p) as [i|] eqn:E.
  2:{ left. split; [done|]. intros q (_ & rest & ->). apply rfind_char_None in E. set_solver. }
  apply rfind_char_Some in E as (pre & post & -> & Hl & Hpost).
  assert (forall q, inside q (pre ++ slash :: post) -> q = pre \/ inside q pre) as Hin.
  { intros q (Hq & rest & Heq).
    apply app_eq_inv in Heq as [(k & Hk & Heq)|(k & Hk & Heq)].
    - destruct k as [|c k]; [left; by rewrite app_nil_r in Hk|]. right.
      simpl in Heq. injection Heq as <- Heq. split; [done|]. by exists k.
    - destruct k as [|c k]; [left; by rewrite app_nil_r in Hk|].
      simpl in Heq. injection Heq as <- Heq. exfalso. apply Hpost. rewrite Heq. set_solver. }
  destruct i as [|i].
  - left. split; [done|]. intros q Hq. destruct pre; [|done].
    destruct (Hin q Hq) as [->|(Hne & rest & Hr)]; [by destruct Hq|].
    destruct q; [done|discriminate].
  - right. rewrite <- Hl, take_app_length. split; [by destruct pre|].
    split; [split; [by destruct pre|by exists post]|].
    split; [rewrite length_app; simpl; lia|done].
Qed.

(** Whether every recorded ancestor of [p] is a directory. *)
Definition open_way (merged : gmap str EntryState) (p : str) : Prop :=
  forall q s, inside q p -> merged !! q = Some s -> is_tree s = true.

Lemma blocking_ancestor_spec fuel merged a :
  (length a <= fuel)%nat ->
  match blocking_ancestor (S fuel) merged a with
  | Some q => (q = a \/ inside q a) /\ exists s, merged !! q = Some s /\ is_tree s = false
  | None => (forall s, a <> [] -> merged !! a = Some s -> is_tree s = true) /\ open_way merged a
  end.
Proof.
  revert a. induction fuel as [|fuel IH]; intros a Hl.
  { destruct a; [|simpl in Hl; lia]. simpl. split; [done|]. intros q s (Hq & rest & Hr).
    by destruct q. }
  destruct a as [|c a]; [simpl; split; [done|]; intros q s (Hq & rest & Hr); by destruct q|].
  change (blocking_ancestor (S (S fuel)) merged (c :: a)) with
    (match merged !! (c :: a) with
     | Some s => if is_tree s then blocking_ancestor (S fuel) merged (parent_path (c :: a)) else Some (c :: a)
     | None => blocking_ancestor (S fuel) merged (parent_path (c :: a))
     end).
  assert (match blocking_ancestor (S fuel) merged (parent_path (c :: a)) with
    | Some q => inside q (c :: a) /\ exists s, merged !! q = Some s /\ is_tree s = false
    | None => open_way merged (c :: a)
    end) as Hup.
  { destruct (parent_path_cases (c :: a)) as [[-> Hno]|(Hne & Hpar & Hlen & Hall)].
    - simpl. intros q s Hq. by apply Hno in Hq.
    - specialize (IH (parent_path (c :: a)) ltac:(lia)).
      destruct (blocking_ancestor (S fuel) merged (parent_path (c :: a))) as [q|].
      + destruct IH as [[->|Hq] Hs]; [done|]. split; [|done].
        destruct Hpar as (_ & r1 & Hr1), Hq as (Hq & r2 & Hr2). split; [done|].
        exists (r2 ++ slash :: r1). rewrite Hr1, Hr2 at 1. by rewrite <- app_assoc.
      + destruct IH as [Hself Hw]. intros q s Hq Hs. destruct (Hall q Hq) as [->|Hq2]; eauto. }
  destruct (merged !! (c :: a)) as [s|] eqn:Em.
  - destruct (is_tree s) eqn:Et.
    + destruct (blocking_ancestor _ _ _) as [q|]; [destruct Hup; auto|]. split; [by intros s' _ [= <-]|done].
    + split; [by left|]. by exists s.
  - destruct (blocking_ancestor _ _ _) as [q|]; [destruct Hup; auto|]. split; [done|done].
Qed.

(** The directories above a path are above one another. *)
Lemma inside_chain p q1 q2 : inside q1 p -> inside q2 p -> q1 = q2 \/ inside q1 q2 \/ inside q2 q1.
Proof.
  intros (H1 & r1 & ->) (H2 & r2 & Heq).
  apply app_eq_inv in Heq as [(k & -> & Heq)|(k & -> & Heq)]; destruct k as [|c k]; simpl in Heq.
  - left. by rewrite app_nil_r.
  - injection Heq as <- Heq. right; right. split; [done|by exists k].
  - left. by rewrite app_nil_r.
  - injection Heq as <- Heq. right; left. split; [done|by exists k].
Qed.

Lemma inside_trans q1 q2 q3 : inside q1 q2 -> inside q2 q3 -> inside q1 q3.
Proof.
  intros (H1 & r1 & ->) (_ & r2 & ->). split; [done|]. exists (r1 ++ slash :: r2).
  by rewrite <- app_assoc.
Qed.

(** Between the ancestor the search stops at and the path, every recorded one
    is a directory. *)
Lemma blocking_ancestor_nearest fuel merged a q q' s :
  (length a <= fuel)%nat -> blocking_ancestor (S fuel) merged a = Some q ->
  q' = a \/ inside q' a -> inside q q' -> merged !! q' = Some s -> is_tree s = true.
Proof.
  revert a. induction fuel as [|fuel IH]; intros a Hl Hb Ha Hq Hs.
  { destruct a; [done|simpl in Hl; lia]. }
  destruct a as [|c a]; [done|].
  change (blocking_ancestor (S (S fuel)) merged (c :: a)) with
    (match merged !! (c :: a) with
     | Some s => if is_tree s then blocking_ancestor (S fuel) merged (parent_path (c :: a)) else Some (c :: a)
     | None => blocking_ancestor (S fuel) merged (parent_path (c :: a))
     end) in Hb.
  assert (inside q' (c :: a) -> blocking_ancestor (S fuel) merged (parent_path (c :: a)) = Some q ->
    is_tree s = true) as Hup.
  { intros Hin Hb'. destruct (parent_path_cases (c :: a)) as [[_ Hno]|(_ & _ & Hlen & Hall)];
      [by apply Hno in Hin|]. apply (IH (parent_path (c :: a))); [lia|done|by apply Hall|done|done]. }
  assert (inside q (c :: a) -> q <> c :: a) as Hirr.
  { intros (_ & r & Hr) ->. apply (f_equal length) in Hr. rewrite length_app in Hr. simpl in Hr. lia. }
  assert (inside q (c :: a)) as Hqa by (destruct Ha as [<-|Ha]; [done|by eapply inside_trans]).
  destruct (merged !! (c :: a)) as [s'|] eqn:Em.
  - destruct (is_tree s') eqn:Et.
    + destruct Ha as [->|Ha]; [congruence|by apply Hup].
    + injection Hb as <-. by destruct (Hirr Hqa).
  - destruct Ha as [->|Ha]; [congruence|by apply Hup].
Qed.

(** ** What a three-way merge means, apart from the code *)

(** The same entry, up to the object of a directory (which is recomputed). *)
Definition same_thing (a b : EntryState) : Prop :=
  match a, b with
  | None, None => True
  | Some x, Some y => e_kind x = e_kind y /\ e_mode x = e_mode y /\ (e_kind x = Tree \/ e_hash x = e_hash y)
  | _, _ => False
  end.

Definition is_whiteout (s : EntryState) : Prop := exists e, s = Some e /\ e_kind e = Deleted.

Definition nothing_there (s : EntryState) : Prop := s = None \/ is_whiteout s.

(** The two sides agree on what is at the path. *)
Definition sides_agree (a b : EntryState) : Prop :=
  same_thing a b \/ (nothing_there a /\ nothing_there b).

(** The side that changed wins; when both did they have to agree, and a
    whiteout is kept so that the path stays deleted. *)
Definition three_way (base source target outcome : EntryState) : Prop :=
  (same_thing base source -> same_thing base target -> outcome = base) /\
  (same_thing base source -> ~ same_thing base target -> outcome = target) /\
  (~ same_thing base source -> same_thing base target -> outcome = source) /\
  (~ same_thing base source -> ~ same_thing base target ->
     sides_agree source target /\
     ((is_whiteout target /\ ~ is_whiteout source /\ outcome = target) \/
      ((is_whiteout source \/ ~ is_whiteout target) /\ outcome = source))).

(** Both sides changed the path, and to different things. *)
Definition in_dispute (base source target : EntryState) : Prop :=
  ~ same_thing base source /\ ~ same_thing base target /\ ~ sides_agree source target.

Lemma same_entry_thing a b : same_entry a b = true <-> same_thing a b.
Proof.
  destruct a, b; simpl; try done.
  rewrite !andb_true_iff, orb_true_iff, !bool_decide_eq_true. tauto.
Qed.

Lemma has_whiteout_spec s : has_whiteout s = true <-> is_whiteout s.
Proof.
  unfold is_whiteout. destruct s as [e|]; simpl; [rewrite bool_decide_eq_true|]; naive_solver.
Qed.

Lemma is_absent_spec s : is_absent s = true <-> nothing_there s.
Proof.
  unfold nothing_there, is_whiteout. destruct s as [e|]; simpl; [rewrite bool_decide_eq_true|]; naive_solver.
Qed.

Lemma same_state_agree a b : same_merge_state a b = true <-> sides_agree a b.
Proof.
  unfold same_merge_state, sides_agree.
  rewrite orb_true_iff, andb_true_iff, !is_absent_spec, same_entry_thing. tauto.
Qed.

Lemma not_thing a b : same_entry a b = false <-> ~ same_thing a b.
Proof. by rewrite <- same_entry_thing, not_true_iff_false. Qed.

Lemma equivalent_state_spec a b o :
  sides_agree a b -> equivalent_merge_state a b = o <->
    (is_whiteout b /\ ~ is_whiteout a /\ o = b) \/ ((is_whiteout a \/ ~ is_whiteout b) /\ o = a).
Proof.
  intros Hag. unfold equivalent_merge_state. rewrite <- !has_whiteout_spec.
  destruct (has_whiteout a) eqn:Ea, (has_whiteout b) eqn:Eb; try naive_solver.
  destruct a as [x|]; [naive_solver|]. destruct b as [y|]; [|naive_solver].
  destruct Hag as [[]|[_ Hb]]. apply is_absent_spec in Hb. simpl in *. congruence.
Qed.

Lemma merge_path_three_way b s t o : merge_path b s t = Some o <-> three_way b s t o.
Proof.
  unfold merge_path, three_way. rewrite !negb_involutive.
  pose proof (same_entry_thing b s) as Hs. pose proof (same_entry_thing b t) as Ht.
  pose proof (same_state_agree s t) as Hag. pose proof (equivalent_state_spec s t o) as Heq.
  destruct (same_entry b s), (same_entry b t); simpl; try (rewrite (inj_iff Some); intuition congruence).
  destruct (same_merge_state s t).
  - rewrite (inj_iff Some), Heq by tauto. intuition congruence.
  - intuition congruence.
Qed.

Lemma merge_path_dispute b s t : merge_path b s t = None <-> in_dispute b s t.
Proof.
  unfold merge_path, in_dispute. rewrite !negb_involutive, <- same_state_agree, <- !same_entry_thing.
  by destruct (same_entry b s), (same_entry b t), (same_merge_state s t); simpl; intuition.
Qed.

(** ** The merge path by path *)

Section merge.
Context (base source target : WorkingTree).

Definition merge_at (p : str) : option EntryState :=
  merge_path (raw base !! p) (raw source !! p) (raw target !! p).

(** A path some side records. *)
Definition recorded (p : str) : Prop :=
  is_Some (raw base !! p) \/ is_Some (raw source !! p) \/ is_Some (raw target !! p).

Definition merge_paths : list str :=
  sort_unique ((entries (raw base)).*1 ++ (entries (raw source)).*1 ++ (entries (raw target)).*1).

Definition merge_fold : gmap str EntryState * list str :=
  fold_left (merge_step (raw base) (raw source) (raw target)) merge_paths (∅, []).

Lemma elem_of_keys (m : EntryMap) p : p ∈ (entries m).*1 <-> is_Some (m !! p).
Proof.
  rewrite list_elem_of_fmap. split.
  - intros ([k e] & -> & H). apply elem_of_entries in H. by exists e.
  - intros [e He]. exists (p, e). split; [done|]. by apply elem_of_entries.
Qed.

Lemma elem_of_merge_paths p : p ∈ merge_paths <-> recorded p.
Proof. unfold merge_paths, recorded. by rewrite elem_of_sort_unique, !elem_of_app, !elem_of_keys. Qed.

Lemma merge_fold_spec l m c :
  NoDup l -> (forall p, p ∈ l -> m !! p = None) ->
  let r := fold_left (merge_step (raw base) (raw source) (raw target)) l (m, c) in
  (forall p, r.1 !! p = if decide (p ∈ l) then merge_at p else m !! p) /\
  (forall p, p ∈ r.2 <-> p ∈ c \/ p ∈ l /\ merge_at p = None).
Proof.
  revert m c. induction l as [|x l IH]; intros m c Hnd Hm; cbn [fold_left].
  { split; [done|]. intros p. simpl. split; [by left|]. intros [H|[H _]]; [done|by apply elem_of_nil in H]. }
  apply NoDup_cons in Hnd as [Hx Hnd].
  assert (merge_step (raw base) (raw source) (raw target) (m, c) x =
    match merge_at x with Some s => (<[x := s]> m, c) | None => (m, c ++ [x]) end) as E by done.
  rewrite E. clear E. destruct (merge_at x) as [s|] eqn:Ex.
  - destruct (IH (<[x := s]> m) c Hnd) as [H1 H2].
    { intros p Hp. rewrite lookup_insert_ne by congruence. apply Hm. by right. }
    split; intros p; [rewrite H1|rewrite H2].
    + destruct (decide (p = x)) as [->|Hne].
      * rewrite decide_False, lookup_insert_eq, decide_True by (done || by left). by rewrite Ex.
      * rewrite lookup_insert_ne by done. apply decide_ext. rewrite elem_of_cons. naive_solver.
    + rewrite elem_of_cons. split; [naive_solver|]. intros [H|[[->|H] Hn]]; [by left|congruence|by right].
  - destruct (IH m (c ++ [x]) Hnd) as [H1 H2]; [intros p Hp; apply Hm; by right|].
    split; intros p; [rewrite H1|rewrite H2].
    + destruct (decide (p = x)) as [->|Hne].
      * rewrite decide_False, decide_True by (done || by left). rewrite Ex. apply Hm. by left.
      * apply decide_ext. rewrite elem_of_cons. naive_solver.
    + rewrite elem_of_app, list_elem_of_singleton, elem_of_cons. naive_solver.
Qed.

Lemma merge_fold_at p :
  merge_fold.1 !! p = (if decide (recorded p) then merge_at p else None) /\
  (p ∈ merge_fold.2 <-> merge_at p = None).
Proof.
  destruct (merge_fold_spec merge_paths ∅ []) as [H1 H2].
  { apply strictly_sorted_NoDup, sort_unique_sorted. }
  { done. }
  split.
  - unfold merge_fold. rewrite H1. apply decide_ext, elem_of_merge_paths.
  - unfold merge_fold. rewrite H2, elem_of_merge_paths. split; [by intros [?%elem_of_nil|[_ ?]]|].
    intros Hn. right. split; [|done]. unfold recorded, merge_at, merge_path in *.
    destruct (raw base !! p); [by left; eexists|].
    destruct (raw source !! p); [by right; left; eexists|].
    destruct (raw target !! p); [by right; right; eexists|]. done.
Qed.

Lemma merge_fold_lookup p s :
  merge_fold.1 !! p = Some s <-> recorded p /\ merge_at p = Some s.
Proof. rewrite (proj1 (merge_fold_at p)). case_decide; naive_solver. Qed.

Lemma merged_live_recorded p e : merge_at p = Some (Some e) -> recorded p.
Proof.
  unfold merge_at, merge_path, recorded. intros H.
  destruct (raw base !! p); [by left; eexists|].
  destruct (raw source !! p); [by right; left; eexists|].
  destruct (raw target !! p); [by right; right; eexists|]. done.
Qed.

(** What the merge puts at a path, and the paths in dispute. *)
Definition merges_to (p : str) : EntryState -> Prop :=
  three_way (raw base !! p) (raw source !! p) (raw target !! p).

Definition disputed (p : str) : Prop :=
  in_dispute (raw base !! p) (raw source !! p) (raw target !! p).

(** Something is there after the merge. *)
Definition live_after (p : str) : Prop := exists e, merges_to p (Some e) /\ e_kind e <> Deleted.

(** A path some side records whose outcome is no directory. *)
Definition no_way_through (q : str) : Prop :=
  recorded q /\ exists s, merges_to q s /\ forall e, s = Some e -> e_kind e <> Tree.

(** The nearest such path above a live one. *)
Definition blocks (q : str) : Prop :=
  exists p, live_after p /\ inside q p /\ no_way_through q /\
    forall q', inside q' p -> inside q q' -> ~ no_way_through q'.

Lemma merges_to_fold p s : merge_fold.1 !! p = Some s <-> recorded p /\ merges_to p s.
Proof. rewrite merge_fold_lookup. unfold merge_at, merges_to. by rewrite merge_path_three_way. Qed.

Lemma no_way_fold q :
  no_way_through q <-> exists s, merge_fold.1 !! q = Some s /\ is_tree s = false.
Proof.
  assert (forall s : EntryState, is_tree s = false <-> forall e, s = Some e -> e_kind e <> Tree) as Ht.
  { intros [e|]; simpl; [rewrite bool_decide_eq_false|]; naive_solver. }
  unfold no_way_through. setoid_rewrite merges_to_fold. setoid_rewrite Ht. naive_solver.
Qed.

Lemma live_fold p :
  live_after p <-> exists s, merge_fold.1 !! p = Some s /\ is_absent s = false.
Proof.
  split.
  - intros (e & Ho & Hk). exists (Some e). simpl. rewrite bool_decide_eq_false. split; [|done].
    apply merges_to_fold. split; [|done]. eapply (merged_live_recorded p e). by apply merge_path_three_way.
  - intros ([e|] & Hm & Ha); [|done]. simpl in Ha. apply bool_decide_eq_false in Ha.
    exists e. by apply merges_to_fold in Hm as [_ ?].
Qed.

(** The search of the code finds exactly the nearest blocking path. *)
Lemma structural_conflict_spec p s q :
  is_absent s = false ->
  structural_conflict merge_fold.1 (p, s) = Some q <->
  inside q p /\ no_way_through q /\ forall q', inside q' p -> inside q q' -> ~ no_way_through q'.
Proof.
  intros Ha. unfold structural_conflict. cbn [fst snd]. rewrite Ha.
  destruct (length p) as [|n] eqn:El.
  { destruct p; [|done]. simpl. split; [done|]. intros ((Hq & r & Hr) & _). by destruct q. }
  destruct (parent_path_cases p) as [[-> Hno]|(Hne & Hpar & Hlen & Hall)].
  { simpl. split; [done|]. intros (Hq & _). by apply Hno in Hq. }
  assert (forall q', inside q' p <-> q' = parent_path p \/ inside q' (parent_path p)) as Hiff.
  { intros q'. split; [apply Hall|]. intros [->|Hq']; [done|by eapply inside_trans]. }
  pose proof (blocking_ancestor_spec n merge_fold.1 (parent_path p) ltac:(lia)) as Hs.
  destruct (blocking_ancestor (S n) merge_fold.1 (parent_path p)) as [q0|] eqn:Eb.
  - destruct Hs as [Hq0 Hs]. apply no_way_fold in Hs. apply Hiff in Hq0.
    assert (forall q', inside q' p -> inside q0 q' -> ~ no_way_through q') as Hnear.
    { intros q' Hq' Hin (s' & Hs' & Ht)%no_way_fold. apply Hiff in Hq'.
      assert (length (parent_path p) <= n)%nat as Hl by lia.
      pose proof (blocking_ancestor_nearest n merge_fold.1 _ q0 q' s' Hl Eb Hq' Hin Hs'). congruence. }
    split; [intros [= <-]; done|]. intros (Hq & Hw & Hnq).
    destruct (inside_chain p q0 q Hq0 Hq) as [->|[Hin|Hin]]; [done| |].
    + by destruct (Hnear q Hq Hin).
    + by destruct (Hnq q0 Hq0 Hin).
  - split; [done|]. intros (Hq & (s' & Hs' & Ht)%no_way_fold & _). destruct Hs as [Hself Hway].
    destruct (Hall q Hq) as [->|Hq2]; [by rewrite (Hself s') in Ht|by rewrite (Hway q s') in Ht].
Qed.

Lemma structural_blocks q : q ∈ detect_structural_conflicts merge_fold.1 <-> blocks q.
Proof.
  unfold detect_structural_conflicts, blocks. rewrite list_elem_of_omap. split.
  - intros ([p s] & Hin & Hc). apply elem_of_entries in Hin.
    assert (is_absent s = false) as Ha by (unfold structural_conflict in Hc; cbn [fst snd] in Hc; by destruct (is_absent s)).
    exists p. split; [apply live_fold; by exists s|]. by apply (structural_conflict_spec p s q Ha).
  - intros (p & (s & Hm & Ha)%live_fold & Hq). exists (p, s). split; [by apply elem_of_entries|].
    by apply structural_conflict_spec.
Qed.

Lemma merge_at_disputed p : merge_at p = None <-> disputed p.
Proof. apply merge_path_dispute. Qed.

Lemma apply_states_raw l wt p :
  NoDup l.*1 ->
  raw (fold_left (fun wt x => apply_state wt x.1 x.2) l wt) !! p =
  match (list_to_map l : gmap str EntryState) !! p with Some (Some e) => Some e | _ => raw wt !! p end.
Proof.
  revert wt. induction l as [|[k s] l IH]; intros wt Hnd; [done|].
  apply NoDup_cons in Hnd as [Hk Hnd]. cbn [fold_left fst snd]. rewrite IH by done. simpl.
  destruct (decide (k = p)) as [->|Hne].
  - rewrite lookup_insert_eq, not_elem_of_list_to_map_1 by done.
    destruct s as [e|]; simpl; [unfold wt_insert; by rewrite raw_insert, lookup_insert_eq|done].
  - rewrite lookup_insert_ne by done.
    destruct s as [e|]; simpl; [unfold wt_insert; by rewrite raw_insert, lookup_insert_ne|done].
Qed.

Definition all_conflicts : list str :=
  sort_unique (merge_fold.2 ++ detect_structural_conflicts merge_fold.1).

Lemma merge_trees_unfold :
  merge_trees base source target =
  match all_conflicts with
  | [] => mkMerge true (fold_left (fun wt x => apply_state wt x.1 x.2) (entries merge_fold.1) empty_tree) [] []
  | _ => mkMerge false (wt_clear empty_tree) all_conflicts (lit "merge conflicts")
  end.
Proof.
  unfold merge_trees. rewrite !to_path_map_raw. unfold all_conflicts, merge_fold, merge_paths.
  by destruct (fold_left _ _ _).
Qed.

Lemma elem_of_all_conflicts p : p ∈ all_conflicts <-> disputed p \/ blocks p.
Proof.
  unfold all_conflicts.
  by rewrite elem_of_sort_unique, elem_of_app, structural_blocks, (proj2 (merge_fold_at p)), merge_at_disputed.
Qed.

Lemma no_conflicts : all_conflicts = [] <-> (forall p, ~ disputed p) /\ (forall q, ~ blocks q).
Proof.
  pose proof elem_of_all_conflicts as He. split.
  - intros Hn. rewrite Hn in He. split; intros p Hp; apply (not_elem_of_nil p), He; auto.
  - intros [Hd Hb]. destruct all_conflicts as [|x l] eqn:E; [done|]. exfalso.
    destruct (proj1 (He x)) as [H|H]; [by left|by apply (Hd x)|by apply (Hb x)].
Qed.

End merge.

(** ** Symmetry *)

Lemma same_entry_refl a : same_entry a a = true.
Proof. apply same_entry_thing. destruct a; simpl; auto. Qed.

Lemma same_entry_sym a b : same_entry a b = same_entry b a.
Proof.
  apply eq_true_iff_eq. rewrite !same_entry_thing. destruct a, b; try done.
  split; intros (H1 & H2 & H3); rewrite <- ?H1, ?H1; repeat split; try done;
    destruct H3; [left|right|left|right]; congruence.
Qed.

Lemma same_state_sym a b : same_merge_state a b = same_merge_state b a.
Proof. unfold same_merge_state. by rewrite same_entry_sym, andb_comm. Qed.

Lemma same_state_refl a : same_merge_state a a = true.
Proof. unfold same_merge_state. by rewrite same_entry_refl, orb_true_r. Qed.

Lemma same_state_kind a b :
  same_merge_state a b = true -> is_absent a = is_absent b /\ is_tree a = is_tree b.
Proof.
  unfold same_merge_state. rewrite orb_true_iff, andb_true_iff, same_entry_thing.
  intros [[Ha Hb]|H].
  - split; [congruence|]. destruct a as [x|], b as [y|]; simpl in *; try done;
      repeat match goal with H : bool_decide _ = true |- _ => apply bool_decide_eq_true in H end;
      by rewrite ?Ha, ?Hb.
  - destruct a as [x|], b as [y|]; try done. destruct H as (H & _). simpl. by rewrite H.
Qed.

Lemma equivalent_state_same a b : same_merge_state a b = true -> same_merge_state a (equivalent_merge_state a b) = true.
Proof.
  intros H. unfold equivalent_merge_state.
  destruct (has_whiteout a); [apply same_state_refl|]. destruct (has_whiteout b); [done|].
  destruct a; [apply same_state_refl|done].
Qed.

Lemma same_state_trans a b c :
  same_merge_state a b = true -> same_merge_state b c = true -> same_merge_state a c = true.
Proof.
  intros H1 H2. pose proof (same_state_kind _ _ H1) as [Ha _]. pose proof (same_state_kind _ _ H2) as [Hb _].
  unfold same_merge_state in *. destruct (is_absent a) eqn:Ea.
  - rewrite <- Hb, <- Ha. done.
  - rewrite <- Ha in *. simpl in *. rewrite same_entry_thing in *.
    destruct a, b, c; try done. destruct H1 as (?&?&H1), H2 as (?&?&H2).
    split; [congruence|]. split; [congruence|]. destruct H1, H2; [left|left|left|right]; congruence.
Qed.

Lemma merge_path_sym b s t :
  match merge_path b s t, merge_path b t s with
  | Some x, Some y => same_merge_state x y = true
  | None, None => True
  | _, _ => False
  end.
Proof.
  unfold merge_path. rewrite !negb_involutive.
  destruct (same_entry b s) eqn:Es, (same_entry b t) eqn:Et; simpl; try apply same_state_refl.
  rewrite (same_state_sym t s). destruct (same_merge_state s t) eqn:E; [|done].
  apply (same_state_trans _ s); [rewrite same_state_sym; by apply equivalent_state_same|].
  apply (same_state_trans _ t); [done|]. apply equivalent_state_same. by rewrite same_state_sym.
Qed.

Section symmetry.
Context (base source target : WorkingTree).

Lemma merge_at_sym p :
  match merge_at base source target p, merge_at base target source p with
  | Some x, Some y => same_merge_state x y = true
  | None, None => True
  | _, _ => False
  end.
Proof. apply merge_path_sym. Qed.

Lemma recorded_sym p : recorded base source target p <-> recorded base target source p.
Proof. unfold recorded. tauto. Qed.

Lemma fold_sym p :
  match (merge_fold base source target).1 !! p, (merge_fold base target source).1 !! p with
  | Some x, Some y => same_merge_state x y = true
  | None, None => True
  | _, _ => False
  end.
Proof.
  rewrite (proj1 (merge_fold_at base source target p)), (proj1 (merge_fold_at base target source p)).
  rewrite (decide_ext (recorded base source target p) (recorded base target source p)) by apply recorded_sym.
  case_decide; [apply merge_at_sym|done].
Qed.

Lemma blocking_sym (m1 m2 : gmap str EntryState) fuel a :
  (forall p, match m1 !! p, m2 !! p with
             | Some x, Some y => same_merge_state x y = true | None, None => True | _, _ => False end) ->
  blocking_ancestor fuel m1 a = blocking_ancestor fuel m2 a.
Proof.
  intros Hm. revert a. induction fuel as [|fuel IH]; intros a; [done|]. simpl. destruct a as [|c a]; [done|].
  specialize (Hm (c :: a)). rewrite IH.
  destruct (m1 !! (c :: a)) as [x|], (m2 !! (c :: a)) as [y|]; try done.
  apply same_state_kind in Hm as [_ ->]. done.
Qed.

Lemma structural_sym q :
  q ∈ detect_structural_conflicts (merge_fold base source target).1 ->
  q ∈ detect_structural_conflicts (merge_fold base target source).1.
Proof.
  unfold detect_structural_conflicts. rewrite !list_elem_of_omap.
  intros ([p x] & Hin & Hc). apply elem_of_entries in Hin.
  pose proof (fold_sym p) as Hs. rewrite Hin in Hs.
  destruct ((merge_fold base target source).1 !! p) as [y|] eqn:Ey; [|done].
  exists (p, y). split; [by apply elem_of_entries|]. rewrite <- Hc. unfold structural_conflict. cbn [fst snd].
  apply same_state_kind in Hs as [-> _]. destruct (is_absent y); [done|].
  symmetry. apply blocking_sym, fold_sym.
Qed.

End symmetry.

Lemma conflicts_sym base source target p :
  p ∈ all_conflicts base source target -> p ∈ all_conflicts base target source.
Proof.
  unfold all_conflicts. rewrite !elem_of_sort_unique, !elem_of_app.
  intros [H|H]; [left|right; by apply structural_sym].
  apply merge_fold_at in H. apply merge_fold_at.
  pose proof (merge_at_sym base source target p) as Hs. rewrite H in Hs.
  by destruct (merge_at base target source p).
Qed.

(** ** Properties of the merge *)

(** C15. The three-way merge succeeds exactly when no path is in dispute (changed
    on both sides, to different things) and no recorded path without a directory
    after the merge stands above a live one. The merged tree then holds at every
    path the outcome a three-way merge prescribes: the base's entry where
    neither side changed it, the changed side's where one did, and the entry
    both agree on (a whiteout first) where both did. Otherwise the merged tree
    is empty and the conflicts are, in strict order, exactly the disputed paths
    and the nearest blocking ancestors of live ones. *)
Theorem merge_trees_three_way base source target :
  let r := merge_trees base source target in
  (mr_ok r = true <->
     (forall p, ~ disputed base source target p) /\ (forall q, ~ blocks base source target q)) /\
  (if mr_ok r
   then forall p, merges_to base source target p (raw (mr_merged r) !! p)
   else raw (mr_merged r) = ∅ /\ mr_conflicts r <> [] /\ StronglySorted str_lt (mr_conflicts r) /\
     (forall p, p ∈ mr_conflicts r <-> disputed base source target p \/ blocks base source target p)).
Proof.
  cbv zeta. rewrite <- no_conflicts, merge_trees_unfold.
  destruct (all_conflicts base source target) as [|x l] eqn:Ec; simpl; [split; [done|]|].
  - intros p. rewrite apply_states_raw, list_to_map_entries by apply entries_keys_NoDup.
    rewrite (proj1 (merge_fold_at _ _ _ p)).
    apply no_conflicts in Ec as [Hm _]. specialize (Hm p). rewrite <- merge_at_disputed in Hm.
    unfold merges_to. rewrite <- merge_path_three_way. fold (merge_at base source target p).
    destruct (merge_at base source target p) as [s|] eqn:Em; [|done].
    case_decide as Hr; [by destruct s|]. destruct s as [e|]; [by destruct Hr; eapply merged_live_recorded|done].
  - split; [done|]. split; [done|]. split; [done|]. rewrite <- Ec. split; [apply sort_unique_sorted|].
    intros p. apply elem_of_all_conflicts.
Qed.

(** Merging is symmetric: with source and target exchanged the verdict and
    the conflicts are the same, and the merged trees agree at every path on
    presence, kind, mode and, but for directories, content. *)
Theorem merge_trees_symmetric base source target :
  let r := merge_trees base source target in
  let r' := merge_trees base target source in
  mr_ok r' = mr_ok r /\ mr_conflicts r' = mr_conflicts r /\
  (forall p, same_merge_state (raw (mr_merged r) !! p) (raw (mr_merged r') !! p) = true).
Proof.
  assert (all_conflicts base target source = all_conflicts base source target) as Ec.
  { apply strictly_sorted_ext; [apply sort_unique_sorted..|]. intros p. split; apply conflicts_sym. }
  cbv zeta. rewrite !merge_trees_unfold, Ec.
  destruct (all_conflicts base source target) as [|x l]; simpl; (split; [done|]); (split; [done|]); intros p;
    [|apply same_state_refl].
  rewrite !apply_states_raw, !list_to_map_entries by apply entries_keys_NoDup.
  pose proof (fold_sym base source target p) as Hs.
  destruct ((merge_fold base source target).1 !! p) as [[a|]|], ((merge_fold base target source).1 !! p) as [[b|]|];
    done.
Qed.

(** ** The merge base *)

Section bases.
Context {st : ObjectStore}.

(** Some commit's parent count makes the decoder read past its body. *)
Definition wild_commit : Prop := exists c, load_commit st true c = Some OutOfBounds.

(** A commit that [head] reaches cannot be read or decoded. *)
Definition broken_history (head : Hash) : Prop :=
  exists c, ancestor st head c /\ forall cd, ~ commit_at st c cd.

Lemma read_commit_data_found io c cd : read_commit_data st io c = Found cd -> commit_at st c cd.
Proof.
  unfold read_commit_data, commit_at. intros H. apply (load_commit_io st io). unfold load_commit.
  destruct (read_commit st io c) as [body|]; [|done]. simpl.
  destruct (deserialize_commit body) as [cd'| |]; try done. congruence.
Qed.

Lemma read_commit_data_wild io c : read_commit_data st io c = Wild -> wild_commit.
Proof.
  unfold read_commit_data. intros H. exists c. apply (load_commit_io st io). unfold load_commit.
  destruct (read_commit st io c) as [body|]; [|done]. simpl.
  by destruct (deserialize_commit body) as [cd'| |].
Qed.

Lemma read_commit_data_broken c msg cd : read_commit_data st true c = Broken msg -> ~ commit_at st c cd.
Proof.
  unfold read_commit_data, commit_at, load_commit. destruct (read_commit st true c) as [body|]; [|done]. simpl.
  by destruct (deserialize_commit body).
Qed.

Lemma read_commit_data_fueled io c : read_commit_data st io c <> Starved.
Proof.
  unfold read_commit_data. destruct (read_commit st io c) as [body|]; [|done].
  by destruct (deserialize_commit body).
Qed.

Lemma ancestor_trans a b c : ancestor st a b -> ancestor st b c -> ancestor st a c.
Proof. intros Hab. induction 1; [done|]. by eapply anc_parent. Qed.

(** What the loop has established when it ends: the seen set holds the queue and
    every parent of a seen commit, all of them readable (but for the commit it
    stopped at), and nothing outside the ancestry of the start. *)
Lemma bfs_found fuel io stop start queue seen r b :
  bfs st fuel io stop queue seen = Found (r, b) ->
  (forall x, x ∈ queue \/ x ∈ seen -> ancestor st start x) ->
  (forall x, x ∈ seen -> stop x = false /\
     exists cd, commit_at st x cd /\ forall p, p ∈ parents cd -> p ∈ seen \/ p ∈ queue) ->
  (forall x, x ∈ r -> ancestor st start x) /\
  if b then exists x, stop x = true /\ ancestor st start x
  else (forall x, x ∈ queue \/ x ∈ seen -> x ∈ r) /\
    (forall x, x ∈ r -> stop x = false /\ exists cd, commit_at st x cd /\ forall p, p ∈ parents cd -> p ∈ r).
Proof.
  revert queue seen. induction fuel as [|fuel IH]; intros queue seen H Ha Hc; simpl in H; [done|].
  destruct queue as [|h q].
  { injection H as <- <-. split; [auto|]. split; [intros x [Hx|Hx]; [by apply elem_of_nil in Hx|done]|].
    intros x Hx. destruct (Hc x Hx) as (Hs & cd & Hcd & Hp). split; [done|]. exists cd. split; [done|].
    intros p Hin. destruct (Hp p Hin) as [|Hn]; [done|by apply elem_of_nil in Hn]. }
  case_decide as Hh.
  { apply IH in H as [H1 H2].
    - split; [done|]. destruct b; [done|]. destruct H2 as [H2 H3]. split; [|done].
      intros x [[->|Hx]%elem_of_cons|Hx]; auto.
    - intros x [Hx|Hx]; apply Ha; [left; by right|by right].
    - intros x Hx. destruct (Hc x Hx) as (Hs & cd & Hcd & Hp). split; [done|]. exists cd. split; [done|].
      intros p Hin. destruct (Hp p Hin) as [|[->|]%elem_of_cons]; auto. }
  assert (ancestor st start h) as Hah by (apply Ha; left; by left).
  destruct (stop h) eqn:Es.
  { injection H as <- <-. split; [|by exists h].
    intros x [->%elem_of_singleton|Hx]%elem_of_union; [done|]. apply Ha. by right. }
  destruct (read_commit_data st (io h) h) as [cd| | |] eqn:E; try done.
  apply read_commit_data_found in E. apply IH in H as [H1 H2].
  - split; [done|]. destruct b; [done|]. destruct H2 as [H2 H3]. split; [|done].
    intros x [[->|Hx]%elem_of_cons|Hx]; apply H2;
      [right; by apply elem_of_union_l, elem_of_singleton|left; apply elem_of_app; by left|right; by apply elem_of_union_r].
  - intros x [[Hx|Hx]%elem_of_app|[->%elem_of_singleton|Hx]%elem_of_union].
    + apply Ha. left. by right.
    + by eapply anc_parent.
    + done.
    + apply Ha. by right.
  - intros x [->%elem_of_singleton|Hx]%elem_of_union.
    + split; [done|]. exists cd. split; [done|]. intros p Hp. right. apply elem_of_app. by right.
    + destruct (Hc x Hx) as (Hs & cd' & Hcd & Hp). split; [done|]. exists cd'. split; [done|].
      intros p Hin. destruct (Hp p Hin) as [Hp1|[->|Hp1]%elem_of_cons];
        [left; by apply elem_of_union_r|left; by apply elem_of_union_l, elem_of_singleton|right; apply elem_of_app; by left].
Qed.

Lemma bfs_wild fuel io stop queue seen : bfs st fuel io stop queue seen = Wild -> wild_commit.
Proof.
  revert queue seen. induction fuel as [|fuel IH]; intros queue seen H; simpl in H; [done|].
  destruct queue as [|h q]; [done|]. case_decide; [by eapply IH|]. destruct (stop h); [done|].
  destruct (read_commit_data st (io h) h) as [cd| | |] eqn:E; try done; [by eapply IH|].
  by eapply read_commit_data_wild.
Qed.

Lemma bfs_broken fuel stop start queue seen msg :
  bfs st fuel (fun _ => true) stop queue seen = Broken msg ->
  (forall x, x ∈ queue -> ancestor st start x) -> broken_history start.
Proof.
  revert queue seen. induction fuel as [|fuel IH]; intros queue seen H Ha; simpl in H; [done|].
  destruct queue as [|h q]; [done|]. case_decide.
  { eapply IH; [done|]. intros x Hx. apply Ha. by right. }
  destruct (stop h); [done|].
  destruct (read_commit_data st true h) as [cd| | |] eqn:E; try done.
  - eapply IH; [done|]. apply read_commit_data_found in E.
    intros x [Hx|Hx]%elem_of_app; [apply Ha; by right|]. eapply anc_parent; [apply Ha; by left|done..].
  - exists h. split; [apply Ha; by left|]. intros cd. by eapply read_commit_data_broken.
Qed.

Lemma bfs_fueled fuel io stop queue seen :
  (length queue + weight st seen < fuel)%nat -> bfs st fuel io stop queue seen <> Starved.
Proof.
  revert queue seen. induction fuel as [|fuel IH]; intros queue seen Hf; [lia|]. simpl.
  destruct queue as [|h q]; [done|]. simpl in Hf. case_decide as Hh; [apply IH; lia|].
  destruct (stop h); [done|].
  destruct (read_commit_data st (io h) h) as [cd| | |] eqn:E; [|done|done|by apply read_commit_data_fueled in E].
  apply read_commit_data_found in E. destruct (load_commit_size _ _ _ _ E) as (o & Ho & Hl).
  rewrite (weight_visit st seen h o) in Hf by done. apply IH. rewrite length_app. lia.
Qed.

Lemma bfs_enough io stop h : bfs st (bfs_fuel st) io stop [h] ∅ <> Starved.
Proof. apply bfs_fueled. unfold bfs_fuel. simpl. lia. Qed.

(** ** The two searches *)

Lemma collect_ancestors_spec io start r :
  collect_ancestors st io start = Found r ->
  (forall x, x ∈ r <-> ancestor st start x) /\ ~ broken_history start.
Proof.
  unfold collect_ancestors. destruct (bfs _ _ _ _ _ _) as [[s b]| | |] eqn:E; try done. intros [= ->].
  apply (bfs_found _ _ _ start) in E as [H1 H2].
  - destruct b; [by destruct H2 as (x & ? & _)|]. destruct H2 as [H2 H3].
    assert (forall x, ancestor st start x -> x ∈ r) as Hall.
    { induction 1 as [|c cd p _ IH Hcd Hp]; [apply H2; left; by left|].
      destruct (H3 _ IH) as (_ & cd' & Hcd' & Hps). unfold commit_at in *. simplify_eq. auto. }
    split; [intros x; split; [apply H1|apply Hall]|].
    intros (c & Hc & Hno). destruct (H3 _ (Hall _ Hc)) as (_ & cd & Hcd & _). by apply (Hno cd).
  - intros x [->%list_elem_of_singleton|Hx]; [constructor|set_solver].
  - set_solver.
Qed.

Lemma is_ancestor_of_spec c d r :
  is_ancestor_of st (fun _ => true) c d = Found r -> ~ broken_history d -> r = true <-> ancestor st d c.
Proof.
  unfold is_ancestor_of. intros H Hb. destruct (bfs _ _ _ _ _ _) as [[s b]|msg| |] eqn:E; try done.
  2:{ exfalso. apply Hb. eapply bfs_broken; [done|]. intros x ->%list_elem_of_singleton. constructor. }
  injection H as <-. apply (bfs_found _ _ _ d) in E as [H1 H2].
  - destruct b.
    + destruct H2 as (x & Hx & Hax). apply bool_decide_eq_true in Hx as ->. done.
    + split; [done|]. destruct H2 as [H2 H3]. intros Hc.
      assert (forall x, ancestor st d x -> x ∈ s) as Hall.
      { induction 1 as [|y cd p _ IH Hcd Hp]; [apply H2; left; by left|].
        destruct (H3 _ IH) as (_ & cd' & Hcd' & Hps). unfold commit_at in *. simplify_eq. auto. }
      destruct (H3 _ (Hall _ Hc)) as [Hs _]. by apply bool_decide_eq_false in Hs.
  - intros x [->%list_elem_of_singleton|Hx]; [constructor|set_solver].
  - set_solver.
Qed.

Lemma is_ancestor_of_total io c d :
  match is_ancestor_of st io c d with Found _ => True | Wild => wild_commit | _ => False end.
Proof.
  unfold is_ancestor_of. destruct (bfs _ _ _ _ _ _) as [[s b]|msg| |] eqn:E; [done|done| |].
  - by eapply bfs_wild.
  - by apply bfs_enough in E.
Qed.

Lemma collect_total start :
  match collect_ancestors st (fun _ => true) start with
  | Found _ => True
  | Broken _ => broken_history start
  | Wild => wild_commit
  | Starved => False
  end.
Proof.
  unfold collect_ancestors. destruct (bfs _ _ _ _ _ _) as [[s b]|msg| |] eqn:E; [done| | |].
  - eapply bfs_broken; [done|]. intros x ->%list_elem_of_singleton. constructor.
  - by eapply bfs_wild.
  - by apply bfs_enough in E.
Qed.

Lemma superseded_spec c others r :
  superseded st (fun _ _ _ => true) c others = Found r -> (forall o, o ∈ others -> ~ broken_history o) ->
  r = true <-> exists o, o ∈ others /\ c <> o /\ ancestor st o c.
Proof.
  revert r. induction others as [|o others IH]; intros r H Hb; simpl in H.
  { injection H as <-. split; [done|]. by intros (o & ?%elem_of_nil & _). }
  assert (forall o', o' ∈ others -> ~ broken_history o') as Hb' by (intros; apply Hb; by right).
  case_decide as Hc.
  { rewrite (IH _ H Hb'). subst o. split; [intros (o & ? & ?); exists o; set_solver|].
    intros (o & [->|Ho]%elem_of_cons & Hne & Ha); [done|by exists o]. }
  destruct (is_ancestor_of st _ c o) as [[]| | |] eqn:E; try done.
  - injection H as <-. split; [|done]. intros _. exists o. split; [by left|]. split; [done|].
    apply (is_ancestor_of_spec _ _ _ E); [apply Hb; by left|done].
  - rewrite (IH _ H Hb'). split; [intros (o' & ? & ?); exists o'; set_solver|].
    intros (o' & [->|Ho]%elem_of_cons & Hne & Ha); [|by exists o'].
    apply (is_ancestor_of_spec _ _ _ E) in Ha; [done|]. apply Hb. by left.
Qed.

Lemma superseded_total io c others :
  match superseded st io c others with Found _ => True | Wild => wild_commit | _ => False end.
Proof.
  induction others as [|o others IH]; simpl; [done|]. case_decide; [done|].
  pose proof (is_ancestor_of_total (io c o) c o) as Ht.
  by destruct (is_ancestor_of st (io c o) c o) as [[]| | |].
Qed.

Lemma best_bases_spec candidates todo l :
  best_bases st (fun _ _ _ => true) candidates todo = Found l ->
  (forall o, o ∈ candidates -> ~ broken_history o) ->
  forall c, c ∈ l <-> c ∈ todo /\ forall o, o ∈ candidates -> c <> o -> ~ ancestor st o c.
Proof.
  revert l. induction todo as [|x todo IH]; intros l H Hb c; simpl in H.
  { injection H as <-. split; [by intros ?%elem_of_nil|by intros [?%elem_of_nil _]]. }
  destruct (superseded st _ x candidates) as [s| | |] eqn:Es; try done.
  destruct (best_bases st _ candidates todo) as [l'| | |] eqn:El; try done.
  injection H as <-. specialize (IH _ eq_refl Hb c). pose proof (superseded_spec _ _ _ Es Hb) as Hs.
  rewrite elem_of_cons. destruct s.
  - rewrite IH. split; [naive_solver|]. intros [[->|Hc] Ho]; [|done].
    destruct (proj1 Hs eq_refl) as (o & Hin & Hne & Ha). by destruct (Ho o Hin Hne).
  - rewrite elem_of_cons, IH. split; [|naive_solver]. intros [->|[Hc Ho]]; [|by split; [right|]].
    split; [by left|]. intros o Hin Hne Ha. discriminate (proj2 Hs). by exists o.
Qed.

Lemma best_bases_total io candidates todo :
  match best_bases st io candidates todo with Found _ => True | Wild => wild_commit | _ => False end.
Proof.
  induction todo as [|x todo IH]; simpl; [done|].
  pose proof (superseded_total io x candidates) as Ht. destruct (superseded st io x candidates) as [s| | |]; try done.
  by destruct (best_bases st io candidates todo).
Qed.

(** No commit is its own proper ancestor. *)
Definition acyclic : Prop :=
  exists rank : Hash -> nat, forall c cd p, commit_at st c cd -> p ∈ parents cd -> (rank p < rank c)%nat.

Lemma rank_ancestor rank o c :
  (forall c cd p, commit_at st c cd -> p ∈ parents cd -> (rank p < rank c)%nat) ->
  ancestor st o c -> c = o \/ (rank c < rank o)%nat.
Proof.
  intros Hr. induction 1 as [|c cd p _ IH Hcd Hp]; [by left|]. right. specialize (Hr _ _ _ Hcd Hp).
  destruct IH as [->|]; lia.
Qed.

Lemma has_maximum (rank : Hash -> nat) l : l <> [] -> exists x, x ∈ l /\ forall y, y ∈ l -> (rank y <= rank x)%nat.
Proof.
  induction l as [|a l IH]; [done|]. intros _. destruct l as [|b l].
  { exists a. split; [by left|]. by intros y ->%list_elem_of_singleton. }
  destruct IH as (x & Hx & Hm); [done|].
  destruct (le_lt_dec (rank a) (rank x)).
  - exists x. split; [by right|]. intros y [->|Hy]%elem_of_cons; auto.
  - exists a. split; [by left|]. intros y [->|Hy]%elem_of_cons; [done|]. specialize (Hm y Hy). lia.
Qed.

End bases.

Lemma merge_sort_hex_least l c rest :
  merge_sort hex_le l = c :: rest -> c ∈ l /\ forall o, o ∈ l -> hex_le c o.
Proof.
  intros H. assert (StronglySorted hex_le (c :: rest)) as Hs.
  { rewrite <- H. apply Sorted_StronglySorted; [intros a b d; apply str_le_trans|].
    apply Sorted_merge_sort. intros a b. apply str_le_total. }
  pose proof (merge_sort_Permutation hex_le l) as Hp. rewrite H in Hp.
  split; [rewrite <- Hp; by left|]. intros o. rewrite <- Hp. intros [->|Ho]%elem_of_cons.
  - unfold hex_le, str_le. apply str_ltb_irrefl.
  - apply StronglySorted_cons in Hs as [Hs _]. rewrite Forall_forall in Hs. auto.
Qed.

Definition all_base_reads : MergeBaseEnv := mkMBEnv (fun _ => true) (fun _ => true) (fun _ _ _ => true).

Definition common (st : ObjectStore) (first second c : Hash) : Prop :=
  ancestor st first c /\ ancestor st second c.

(** Not an ancestor of another common ancestor. *)
Definition best (st : ObjectStore) (first second c : Hash) : Prop :=
  common st first second c /\ forall o, common st first second o -> c <> o -> ~ ancestor st o c.

(** C29. The merge base is a best common ancestor: on an acyclic history whose
    reads work, the search returns the common ancestor with the lowest hex name
    among those that are not ancestors of another one. It says there is none
    only when there is none, fails otherwise only over an unreadable ancestor,
    and always ends. *)
Theorem merge_base_is_best st first second :
  @acyclic st ->
  match find_common_ancestor st all_base_reads first second with
  | Found c => best st first second c /\ forall o, best st first second o -> hex_le c o
  | Broken msg =>
      (msg = lit "no common ancestor" /\
       (first = ZERO_HASH \/ second = ZERO_HASH \/ forall c, ~ common st first second c)) \/
      @broken_history st first \/ @broken_history st second
  | Wild => @wild_commit st
  | Starved => False
  end.
Proof.
  intros [rank Hrank]. unfold find_common_ancestor. case_decide as Hz; [naive_solver|]. cbn [first_io second_io test_io all_base_reads].
  pose proof (collect_total (st := st) first) as Ht1. pose proof (collect_total (st := st) second) as Ht2.
  destruct (collect_ancestors st _ first) as [a|m1| |] eqn:E1; [|by auto|done|done].
  destruct (collect_ancestors st _ second) as [b|m2| |] eqn:E2; [|by auto|done|done].
  apply collect_ancestors_spec in E1 as [Ha Hb1], E2 as [Hb Hb2]. clear Ht1 Ht2.
  assert (forall x, x ∈ merge_sort hex_le (elements (a ∩ b)) <-> common st first second x) as Hc.
  { intros x. rewrite merge_sort_Permutation, elem_of_elements, elem_of_intersection, Ha, Hb. done. }
  destruct (merge_sort hex_le (elements (a ∩ b))) as [|x0 cs] eqn:Es.
  { left. split; [done|]. right. right. intros c Hcc. by apply Hc, elem_of_nil in Hcc. }
  rewrite <- Es in *. set (candidates := merge_sort hex_le (elements (a ∩ b))) in *.
  assert (forall o, o ∈ candidates -> ~ @broken_history st o) as Hnb.
  { intros o [Ho _]%Hc (c & Hca & Hno). apply Hb1. exists c. split; [by eapply ancestor_trans|done]. }
  pose proof (best_bases_total (st := st) (fun _ _ _ => true) candidates candidates) as Ht.
  destruct (best_bases st _ candidates candidates) as [l| | |] eqn:El; try done.
  pose proof (best_bases_spec _ _ _ El Hnb) as Hl.
  assert (forall x, x ∈ l <-> best st first second x) as Hbest.
  { intros x. rewrite Hl, Hc. unfold best. split; intros [H1 H2]; (split; [done|]); intros o Ho; apply H2; by apply Hc. }
  destruct (merge_sort hex_le l) as [|c rest] eqn:Em.
  - exfalso. destruct (has_maximum rank candidates) as (x & Hx & Hmax); [by rewrite Es|].
    assert (x ∈ l) as Hxl.
    { apply Hl. split; [done|]. intros o Ho Hne Hax.
      destruct (rank_ancestor rank o x Hrank Hax) as [|Hlt]; [done|]. specialize (Hmax o Ho). lia. }
    pose proof (merge_sort_Permutation hex_le l) as Hp. rewrite Em in Hp.
    rewrite <- Hp in Hxl. by apply elem_of_nil in Hxl.
  - apply merge_sort_hex_least in Em as [Hin Hleast]. split; [by apply Hbest|]. intros o Ho. by apply Hleast, Hbest.
Qed.

(** ** The merge commit *)

(** A successful write, step by step. *)
Lemma write_commit_with_parents_ok blake3 env st wt ps sid pv lb st' c :
  write_commit_with_parents blake3 env st wt ps sid pv lb = (st', Ok c) ->
  exists st1 st2 written root,
    @serialize_working_tree _ _ (object_tree_store blake3) (mc_tree_writes env) wt st = mkSer st1 written (Ok root) /\
    write_commit blake3 (serialize_commit (mkCommit root ps sid (mc_now_ns env) lb pv)) (mc_commit_write env) st1 =
      (st2, c) /\ c <> ZERO_HASH /\ disk st' = disk st2 /\
    forall h, h ∈ pending_ st2 -> h ∈ graph wt written c ->
      h ∈ data_synced st' /\ h ∈ entry_synced st' /\ shard_of h ∈ shard_synced st'.
Proof.
  unfold write_commit_with_parents.
  destruct (serialize_working_tree (mc_tree_writes env) wt st) as [st1 written [root|msg]] eqn:Es; simpl; [|done].
  destruct (write_commit _ _ _ _) as [st2 c'] eqn:Ew. case_decide as Hz; [done|].
  set (hs := filter_to_committed_graph _ _ _ _).
  destruct (fsync_objects _ hs _) as [st4 []] eqn:Eo; [|done].
  destruct (fsync_shard_dirs _ _ hs st4) as [st5 []] eqn:Ed; [|done].
  intros [= <- <-].
  apply fsync_objects_spec in Eo as (A1 & _ & _ & _ & _ & _ & _ & _ & A9).
  apply fsync_shard_dirs_spec in Ed as (B1 & _ & _ & _ & B5 & _ & _ & B8).
  simpl in *. exists st1, st2, written, root. do 3 (split; [done|]). split; [by rewrite B1, A1|].
  intros h Hp Hg. assert (h ∈ hs) as Hh.
  { apply list_elem_of_filter. split; [done|]. by apply elem_of_sorted_hashes. }
  destruct (A9 eq_refl h Hh) as [Hd Hs]. rewrite <- A1 in Hs. destruct (B8 eq_refl h Hh Hs) as [He Hsh].
  by rewrite B5.
Qed.

(** A merge commit loads back: when writing it succeeds, loading the returned
    hash gives the commit with exactly the given parents and a tree that
    restores the merged one, and every object of its graph that was pending
    survives a crash. *)
Theorem merge_commit_loads_back blake3 U env st wt ps sid pv lb st' c fuel status :
  collision_free blake3 U -> contents_ok blake3 U st -> tree_ok (raw wt) ->
  Forall (tree_body U) (merkle_bodies (tree_addr blake3) wt) ->
  let cd := mkCommit (merkle_root (tree_addr blake3) wt) ps sid (mc_now_ns env) lb pv in
  U (lit "commit" ++ serialize_commit cd) -> commit_ok cd -> N.of_nat (length ps) < 2 ^ 27 ->
  (2 + size (raw wt) <= fuel)%nat ->
  write_commit_with_parents blake3 env st wt ps sid pv lb = (st', Ok c) ->
  (exists m', load_commit_tree blake3 st' true fuel (fun _ => true) status c =
      Found (set_base empty_tree m', mkCommit (tree_hash cd) ps sid (mc_now_ns env) (clip lb) pv) /\
    restored (raw wt) m') /\
  (exists st2 written, disk st2 = disk st' /\
    forall h, h ∈ pending_ st2 -> h ∈ graph wt written c -> durable st' h).
Proof.
  intros Hcf Hst Hok Hb cd HU Hcd Hps Hfuel Hrun.
  apply write_commit_with_parents_ok in Hrun as (st1 & st2 & written & root & Ht & Hc & Hnz & Hdisk & Hdur).
  split; [|by exists st2, written].
  pose proof (object_tree_store_laws blake3 U Hcf) as Hlaws.
  destruct (serialize_working_tree_spec (mc_tree_writes env) wt st st1 written root Hst Hb Ht)
    as (-> & [Hi2 HU2] & _ & Hroot & Hdirs).
  apply (write_object_stores blake3 U) in Hc as (-> & _ & _ & (o & Ho & Hoc) & Hold); try done.
  fold cd in Ho, Hoc, Hnz, Hdur |- *. set (c := blake3 _) in *.
  assert (forall k b, read_tree st1 true k = Some b -> read_tree st' true k = Some b) as Hkeep.
  { intros k b (o1 & Ho1 & Hc1)%read_object_tag. destruct (Hold k o1 Ho1) as (o2 & Ho2 & Hc2).
    eapply read_object_content; [by rewrite Hdisk|congruence]. }
  assert (read_commit st' true c = Some (serialize_commit cd)) as Hread.
  { eapply read_object_content; [by rewrite Hdisk|done]. }
  unfold load_commit_tree, read_commit_data. rewrite Hread, commit_roundtrip_clip by done. subst cd. cbn [tree_hash parents session_id timestamp_ns label policy_version].
  destruct (@rebuild_restores _ _ (object_tree_store blake3) (tree_addr blake3) wt empty_tree st' fuel
    (fun _ => true) status (merkle_root (tree_addr blake3) wt)) as (m' & -> & Hres); try done.
  - intros d e0 He Hk. destruct (Hdirs d e0 He Hk) as (h & Hh & Hr). exists h. split; [done|]. by apply Hkeep.
  - by apply Hkeep.
  - by exists m'.
Qed.

(** ** Witnesses *)

Definition hash_num (n : N) : Hash := vreplicate 32 (ascii_of_N n).

(** A history that forks at 1 into 2 and 3, merged into 4. *)
Definition hist_commit (ps : list Hash) : ObjectFile :=
  mkFile (lit "commit" ++ serialize_commit (mkCommit (hash_num 9) ps 1 1 [] 0)) 0.

Definition hist_store : ObjectStore :=
  set_disk (list_to_map [(hash_num 1, hist_commit []); (hash_num 2, hist_commit [hash_num 1]);
    (hash_num 3, hist_commit [hash_num 1]); (hash_num 4, hist_commit [hash_num 2; hash_num 3])]) (empty_store (lit "/s")).

Lemma hist_acyclic : @acyclic hist_store.
Proof.
  exists (fun h => N.to_nat (N_of_ascii (hd zero (hash_bytes h)))). intros c cd p Hc Hp.
  unfold commit_at, load_commit, read_commit in Hc.
  destruct (read_object hist_store true c _) as [body|] eqn:Er; [|done].
  apply read_object_tag in Er as (o & Ho & Hb).
  apply elem_of_list_to_map_2 in Ho. rewrite !elem_of_cons, elem_of_nil in Ho. simpl in Hc. injection Hc as Hc.
  repeat destruct Ho as [Ho|Ho]; try done; injection Ho as -> ->;
    cbn [f_content hist_commit] in Hb; apply app_inv_head in Hb as <-;
    rewrite commit_roundtrip_clip in Hc by (repeat split || done);
    injection Hc as <-; cbn [parents] in Hp;
    rewrite ?elem_of_cons, elem_of_nil in Hp; repeat destruct Hp as [->|Hp]; try done; vm_compute; lia.
Qed.

Lemma merge_base_is_best_witness : best hist_store (hash_num 2) (hash_num 4) (hash_num 2).
Proof.
  pose proof (merge_base_is_best hist_store (hash_num 2) (hash_num 4) hist_acyclic) as H.
  assert (find_common_ancestor hist_store all_base_reads (hash_num 2) (hash_num 4) = Found (hash_num 2)) as E
    by exact eq_refl.
  rewrite E in H. apply H.
Defined.

Definition mc_env : MergeCommitEnv := mkMCEnv (fun _ => no_faults 7) (no_faults 8) 123 all_sync_ok.
Definition mc_parents : list Hash := [hash_num 1; hash_num 2].
Definition mc_cd : CommitData :=
  mkCommit (merkle_root (tree_addr toy_blake3) sample_wt) mc_parents 1 123 (lit "merge") 1.
Definition mc_contents : list bytes :=
  [hello_content; lit "commit" ++ serialize_commit mc_cd] ++ sample_contents.
Definition mc_U (c : bytes) : Prop := c ∈ mc_contents.
Definition mc_run : ObjectStore * result Hash :=
  write_commit_with_parents toy_blake3 mc_env (empty_store (lit "/s")) sample_wt mc_parents 1 1 (lit "merge").
Definition result_or {A} (d : A) (r : result A) : A := match r with Ok a => a | Err _ => d end.
Definition mc_hash : Hash := result_or ZERO_HASH mc_run.2.

Lemma run_result {A B} (x : A * result B) d :
  is_ok x.2 = true -> x = (x.1, Ok (result_or d x.2)).
Proof. by destruct x as [a []]. Qed.

Lemma merge_commit_loads_back_witness :
  exists m', load_commit_tree toy_blake3 mc_run.1 true 8 (fun _ => true) (fun _ => StillThere) mc_hash =
    Found (set_base empty_tree m', mkCommit (tree_hash mc_cd) mc_parents 1 123 (clip (lit "merge")) 1) /\
    restored (raw sample_wt) m'.
Proof.
  apply (merge_commit_loads_back toy_blake3 mc_U mc_env (empty_store (lit "/s")) sample_wt mc_parents 1 1
    (lit "merge") mc_run.1 mc_hash 8 (fun _ => StillThere)).
  - apply collision_free_list. vm_compute. reflexivity.
  - split; [|done]. split; simpl; [done|by intros h []|set_solver].
  - apply sample_tree_ok.
  - apply Forall_forall. intros b Hb. unfold tree_body, mc_U, mc_contents, sample_contents.
    apply elem_of_app. right. apply list_elem_of_fmap. by exists b.
  - apply list_elem_of_further, list_elem_of_here.
  - repeat split.
  - reflexivity.
  - vm_compute. lia.
  - exact (run_result mc_run ZERO_HASH eq_refl).
Defined.
