(* ===== verification/Gc.v ===== *)
(** Garbage collection (cas/gc.h, cas/gc.cpp): the mark phase over branch
    references, agent-state references and live roots, the age-fenced sweep, and
    the verify pass. *)

From S2P Require Import Prelude Hashes WorkingTree Codec ObjectStore History Refs AgentState RuntimeState.

Record GcPolicy : Type := mkPolicy {
  keep_last : option N;
  keep_labels : list str;
  dry_run : bool
}.

Record GcLiveRoots : Type := mkLive {
  expected_branch_refs : list str;
  wt_hashes : list Hash;
  fh_blob_hashes : list Hash;
  fh_pinned_commits : list Hash;
  live_pending : list Hash;
  runtime_union_states : list Hash
}.

(** [duration_ms], a clock reading, is left out. *)
Record GcResult : Type := mkGcResult {
  gc_ok : bool;
  gc_error : str;
  roots_branches : N;
  roots_state_refs : N;
  roots_runtime_states : N;
  marked_objects : N;
  marked_bytes : N;
  swept_objects : N;
  swept_bytes : N;
  sweep_errors : N;
  compacted_commits : N;
  missing_objects : N;
  gc_missing : list Hash
}.

(** ** The state of a mark phase

    [GcMarkSet]s are sets; [m_missing] is the vector the verify pass hands in.
    The root counters are those of the [GcResult] under construction. *)
Record MarkState : Type := mkMark {
  marked : gset Hash;
  retained_data : list Hash;
  compacted_candidates : gset Hash;
  m_trees : gset Hash;
  m_state_records : gset Hash;
  m_union_states : gset Hash;
  m_missing : option (list Hash);
  n_branches : N;
  n_state_refs : N;
  n_runtime_states : N
}.

Definition start_mark (missing : option (list Hash)) : MarkState :=
  mkMark ∅ [] ∅ ∅ ∅ ∅ missing 0 0 0.

Definition add_marked x '(mkMark m r c t a u w i j k) := mkMark ({[x]} ∪ m) r c t a u w i j k.
Definition add_retained x '(mkMark m r c t a u w i j k) := mkMark m (r ++ [x]) c t a u w i j k.
Definition add_compacted x '(mkMark m r c t a u w i j k) := mkMark m r ({[x]} ∪ c) t a u w i j k.
Definition add_tree x '(mkMark m r c t a u w i j k) := mkMark m r c ({[x]} ∪ t) a u w i j k.
Definition add_state x '(mkMark m r c t a u w i j k) := mkMark m r c t ({[x]} ∪ a) u w i j k.
Definition add_union x '(mkMark m r c t a u w i j k) := mkMark m r c t a ({[x]} ∪ u) w i j k.
Definition set_missing w '(mkMark m r c t a u _ i j k) := mkMark m r c t a u w i j k.
Definition count_branch '(mkMark m r c t a u w i j k) := mkMark m r c t a u w (i + 1) j k.
Definition count_state_ref '(mkMark m r c t a u w i j k) := mkMark m r c t a u w i (j + 1) k.
Definition count_runtime '(mkMark m r c t a u w i j k) := mkMark m r c t a u w i j (k + 1).

(** How a step of the mark phase ends. [Undefined] is a read past the end of a
    commit body (see Codec), [NoFuel] a limit of this definition that is never
    reached. *)
Inductive outcome : Type :=
| Done
| Failed (msg : str)
| Undefined
| NoFuel.

Definition action : Type := MarkState -> MarkState * outcome.

Definition pass : action := fun s => (s, Done).
Definition upd (f : MarkState -> MarkState) : action := fun s => (f s, Done).
Definition fail (msg : str) : action := fun s => (s, Failed msg).
Definition andthen (a b : action) : action :=
  fun s => match a s with (s', Done) => b s' | r => r end.

Notation "a ;; b" := (andthen a b) (at level 100, b at level 200, right associativity) : ctx_scope.

Fixpoint each {A} (f : A -> action) (l : list A) : action :=
  match l with [] => pass | x :: l' => f x;; each f l' end.

(** Whether each read of an object, and each existence check, works. *)
Record GcEnv : Type := mkGcEnv {
  read_io : Hash -> bool;
  window_io : Hash -> bool;      (** the reads of the keep-last walk *)
  exists_io : Hash -> bool
}.

Section mark.
Context (st : ObjectStore) (env : GcEnv) (policy : GcPolicy).

Definition record_missing_hash (hash : Hash) (s : MarkState) : MarkState :=
  match m_missing s with
  | Some l => if object_exists st (exists_io env hash) hash then s else set_missing (Some (l ++ [hash])) s
  | None => s
  end.

(** Note the object if it is gone, then fail. *)
Definition lost (hash : Hash) (msg : str) : action := upd (record_missing_hash hash);; fail msg.

Definition mark_required_hex_blob (hex : str) : action :=
  match hex with
  | [] => pass
  | _ =>
      match hex_to_hash_strict hex with
      | Some h => upd (add_marked h)
      | None => fail (lit "malformed object id: " ++ hex)
      end
  end.

Definition mark_opaque_cas_ref (value : str) : action :=
  match hex_to_hash_strict value with Some h => upd (add_marked h) | None => pass end.

(** ** Trees *)

Definition mark_entry (recurse : Hash -> action) (e : child) : action :=
  match e_kind e.2 with
  | Tree => recurse (e_hash e.2)
  | Deleted => pass
  | _ => if decide (e_hash e.2 = ZERO_HASH) then pass else upd (add_marked (e_hash e.2))
  end.

Fixpoint mark_tree_recursive (fuel : nat) (tree : Hash) : action := fun s =>
  match fuel with
  | O => (s, NoFuel)
  | S fuel' =>
      if decide (tree ∈ m_trees s) then (s, Done)
      else
        (upd (fun s => add_marked tree (add_tree tree s));;
         match read_tree st (read_io env tree) tree with
         | None => lost tree (lit "mark: tree object missing: " ++ hash_to_hex tree)
         | Some body =>
             match deserialize_tree_entries body with
             | Rejected => fail (lit "mark: corrupt tree object: " ++ hash_to_hex tree)
             | OutOfBounds => fun s => (s, Undefined)
             | Parsed entries => each (mark_entry (mark_tree_recursive fuel')) entries
             end
         end) s
  end.

(** Deep enough for every chain of distinct stored trees. *)
Definition tree_fuel : nat := 2 + size (disk st).

(** ** Commits *)

Definition mark_commit_data (commit : Hash) : action :=
  match load_commit st (read_io env commit) commit with
  | None => lost commit (lit "mark: commit object missing: " ++ hash_to_hex commit)
  | Some Rejected => fail (lit "mark: corrupt commit: " ++ hash_to_hex commit)
  | Some OutOfBounds => fun s => (s, Undefined)
  | Some (Parsed cd) => mark_tree_recursive tree_fuel (tree_hash cd)
  end.

(** The first [n] commits of the first-parent chain; [None] is undefined. *)
Fixpoint window_walk (n : nat) (cursor : Hash) : option (gset Hash) :=
  match n with
  | O => Some ∅
  | S n' =>
      match load_commit st (window_io env cursor) cursor with
      | None | Some Rejected => Some {[cursor]}
      | Some OutOfBounds => None
      | Some (Parsed cd) =>
          match parents cd with
          | [] => Some {[cursor]}
          | p :: _ => rest ← window_walk n' p; Some ({[cursor]} ∪ rest)
          end
      end
  end.

Definition keep_last_set (head : Hash) (apply_keep_last_window : bool) : option (gset Hash) :=
  match keep_last policy with
  | Some n => if apply_keep_last_window then window_walk (N.to_nat (N.max 1 n)) head else Some ∅
  | None => Some ∅
  end.

Definition retain_data (head cur : Hash) (window : gset Hash) (label : str) : bool :=
  match keep_last policy with
  | None => true
  | Some _ =>
      bool_decide (cur = head) || bool_decide (cur ∈ window) ||
      existsb (fun l => bool_decide (label = l)) (keep_labels policy)
  end.

(** The worklist loop; the head of [queue] is the back of the vector. *)
Fixpoint chain_loop (fuel : nat) (head : Hash) (window : gset Hash) (queue : list Hash)
    (seen : gset Hash) : action := fun s =>
  match fuel with
  | O => (s, NoFuel)
  | S fuel' =>
      match queue with
      | [] => (s, Done)
      | cur :: queue' =>
          if decide (cur ∈ seen) then chain_loop fuel' head window queue' seen s
          else
            match load_commit st (read_io env cur) cur with
            | None => lost cur (lit "mark: commit object missing: " ++ hash_to_hex cur) s
            | Some Rejected => fail (lit "mark: corrupt commit: " ++ hash_to_hex cur) s
            | Some OutOfBounds => (s, Undefined)
            | Some (Parsed cd) =>
                let retain := retain_data head cur window (label cd) in
                (upd (add_marked cur);;
                 upd (if retain then add_retained cur else add_compacted cur);;
                 chain_loop fuel' head window (rev (parents cd) ++ queue') ({[cur]} ∪ seen)) s
            end
      end
  end.

(** Every push comes with 32 bytes of some commit's body. *)
Definition chain_fuel : nat :=
  2 + map_fold (fun _ o n => length (f_content o) + n)%nat 0%nat (disk st).

Definition mark_commit_chain (head : Hash) (apply_keep_last_window : bool) : action :=
  match keep_last_set head apply_keep_last_window with
  | None => fun s => (s, Undefined)
  | Some window => chain_loop chain_fuel head window [head] ∅
  end.

(** ** State records *)

Definition mark_linked (recurse : Hash -> action) (hex : str) (malformed : str) : action :=
  match hex with
  | [] => pass
  | _ => match hex_to_hash_strict hex with Some next => recurse next | None => fail malformed end
  end.

Definition mark_fs_commit (c : Hash) : action :=
  if decide (c = ZERO_HASH) then pass else mark_commit_chain c false.

Fixpoint mark_state_record (fuel : nat) (id : Hash) : action := fun s =>
  match fuel with
  | O => (s, NoFuel)
  | S fuel' =>
      if decide (id ∈ m_state_records s) then (s, Done)
      else
        (upd (add_state id);;
         match read_agent_state_record st (read_io env id) id with
         | Err rerr => lost id (lit "mark: state record unreadable: " ++ hash_to_hex id ++ lit ": " ++ rerr)
         | Ok r =>
             upd (add_marked id);;
             mark_required_hex_blob (payload_ref r);;
             each (fun d => upd (add_marked d)) (dependency_hashes r);;
             mark_fs_commit (as_fs_commit r);;
             mark_linked (mark_union_state fuel') (as_union_state_id r)
               (lit "mark: malformed union_state_id on " ++ hash_to_hex id);;
             each (fun pid => mark_linked (mark_state_record fuel') pid
               (lit "mark: malformed state id on " ++ hash_to_hex id))
               [parent_state_id r; snapshot_base_state_id r]
         end) s
  end
with mark_union_state (fuel : nat) (id : Hash) : action := fun s =>
  match fuel with
  | O => (s, NoFuel)
  | S fuel' =>
      if decide (id ∈ m_union_states s) then (s, Done)
      else
        (upd (add_union id);;
         match read_union_runtime_state st (read_io env id) id with
         | Err rerr => lost id (lit "mark: union state unreadable: " ++ hash_to_hex id ++ lit ": " ++ rerr)
         | Ok us =>
             upd (add_marked id);;
             mark_fs_commit (us_fs_commit us);;
             mark_opaque_cas_ref (command_ref us);;
             mark_opaque_cas_ref (resource_manifest_ref us);;
             mark_linked (mark_state_record fuel') (us_agent_state_id us)
               (lit "mark: malformed agent_state_id on " ++ hash_to_hex id);;
             mark_linked (mark_union_state fuel') (parent_union_state_id us)
               (lit "mark: malformed parent_union_state_id")
         end) s
  end.

(** Deep enough for every chain of distinct stored records of both kinds. *)
Definition record_fuel : nat := 2 + 2 * size (disk st).

(** ** The agent-state references on disk: state/latest/<agent>/<branch> *)

(** A stream read of a file: [None] when it does not open, else its bytes and
    whether the stream went bad after them. *)
Record latest_ref : Type := mkLatest {
  lr_path : str;
  lr_type : str + bool;                 (** regular file?, or why unknown *)
  lr_stream : option (bytes * bool)
}.

Record agent_dir : Type := mkAgentDir {
  ad_type : str + bool;
  ad_open_fault : fault;
  ad_refs : list latest_ref;
  ad_end_fault : fault
}.

Fixpoint span_word (s : str) : str * str :=
  match s with
  | [] => ([], [])
  | c :: s' => if is_space c then ([], s) else let '(w, rest) := span_word s' in (c :: w, rest)
  end.

(** [in >> word] : the word read, if it is not empty and did not run into a bad
    end, and what is left. *)
Definition extract (s : str) (bad : bool) : option str * str :=
  let '(w, rest) := span_word (skip_space s) in
  (match w, rest with
   | [], _ => None
   | _, [] => if bad then None else Some w
   | _, _ => Some w
   end, rest).

Definition parse_latest_ref (path : str) (stream : option (bytes * bool)) : result Hash :=
  match stream with
  | None => Err (lit "mark: unreadable state latest ref: " ++ path)
  | Some (content, bad) =>
      match extract content bad with
      | (None, _) => Err (lit "mark: unreadable state latest ref: " ++ path)
      | (Some hex, rest) =>
          match (extract rest bad).1 with
          | Some _ => Err (lit "mark: malformed state latest ref: " ++ path)
          | None =>
              if bad then Err (lit "mark: unreadable state latest ref: " ++ path)
              else match hex_to_hash_strict hex with
                   | Some id => Ok id
                   | None => Err (lit "mark: malformed state latest ref: " ++ path)
                   end
          end
      end
  end.

Definition mark_latest_ref (r : latest_ref) : action :=
  match lr_type r with
  | inl msg => fail (lit "mark: inspect state latest ref failed: " ++ msg)
  | inr false => pass
  | inr true =>
      match parse_latest_ref (lr_path r) (lr_stream r) with
      | Err msg => fail msg
      | Ok id => upd count_state_ref;; mark_state_record record_fuel id
      end
  end.

Definition mark_agent_dir (d : agent_dir) : action :=
  match ad_type d with
  | inl msg => fail (lit "mark: inspect state/latest entry failed: " ++ msg)
  | inr false => pass
  | inr true =>
      match ad_open_fault d with
      | Some msg => fail (lit "mark: enumerate state/latest agent failed: " ++ msg)
      | None =>
          each mark_latest_ref (ad_refs d);;
          match ad_end_fault d with
          | Some msg => fail (lit "mark: enumerate state/latest agent failed: " ++ msg)
          | None => pass
          end
      end
  end.

(** What the directories show: the references, and state/latest ([None] when it
    does not exist). *)
Record RootsEnv : Type := mkRoots {
  refs_begin : fault;
  refs_entries : list ref_entry;
  refs_end : fault;
  ref_env : str -> ReadEnv;
  latest_fault : fault;
  latest_dirs : list agent_dir;
  latest_end : fault
}.

Definition mark_ref (roots : RootsEnv) (refs : Refs) (name : str) : action :=
  match read_ref (ref_env roots name) name refs with
  | None => fail (lit "mark: unreadable ref: " ++ name)
  | Some head => upd count_branch;; mark_commit_chain head true
  end.

(** [std::binary_search] on the sorted names is membership. *)
Definition expect_ref (names : list str) (expected : str) : action :=
  if decide (expected ∈ names) then pass
  else fail (lit "mark: expected branch ref missing: " ++ expected).

Definition mark_branches (roots : RootsEnv) (refs : Refs) (live : GcLiveRoots) : action :=
  match list_refs (refs_begin roots) (refs_entries roots) (refs_end roots) with
  | Err msg => fail (lit "mark: " ++ msg)
  | Ok names => each (expect_ref names) (expected_branch_refs live);; each (mark_ref roots refs) names
  end.

Definition mark_latest (roots : RootsEnv) : action :=
  match latest_fault roots with
  | Some msg => fail (lit "mark: enumerate state/latest failed: " ++ msg)
  | None =>
      each mark_agent_dir (latest_dirs roots);;
      match latest_end roots with
      | Some msg => fail (lit "mark: enumerate state/latest failed: " ++ msg)
      | None => pass
      end
  end.

Definition mark_hash (h : Hash) : action := upd (add_marked h).

(** The marking of [mark_impl]; the compaction count is read off the result. *)
Definition mark_all (roots : RootsEnv) (refs : Refs) (live : GcLiveRoots) : action :=
  mark_branches roots refs live;;
  mark_latest roots;;
  each (fun h => upd count_runtime;; mark_union_state record_fuel h) (runtime_union_states live);;
  each mark_hash (wt_hashes live);;
  each mark_hash (fh_blob_hashes live);;
  each mark_hash (fh_pinned_commits live);;
  each mark_hash (live_pending live);;
  (fun s => each mark_commit_data (retained_data s) s).

End mark.

Definition compacted_count (s : MarkState) : N :=
  N.of_nat (size (compacted_candidates s ∖ list_to_set (retained_data s))).

Definition result_of (s : MarkState) : GcResult :=
  mkGcResult false [] (n_branches s) (n_state_refs s) (n_runtime_states s) 0 0 0 0 0 0 0
    (default [] (m_missing s)).

Definition set_compacted n '(mkGcResult a b c d e f g h i j _ l m) := mkGcResult a b c d e f g h i j n l m.
Definition set_gc_error x '(mkGcResult a _ c d e f g h i j k l m) := mkGcResult a x c d e f g h i j k l m.
Definition set_gc_ok x '(mkGcResult _ b c d e f g h i j k l m) := mkGcResult x b c d e f g h i j k l m.
Definition count_marked sz '(mkGcResult a b c d e f g h i j k l m) := mkGcResult a b c d e (f + 1) (u64 (g + sz)) h i j k l m.
Definition count_swept sz '(mkGcResult a b c d e f g h i j k l m) := mkGcResult a b c d e f g (h + 1) (u64 (i + sz)) j k l m.
Definition count_error '(mkGcResult a b c d e f g h i j k l m) := mkGcResult a b c d e f g h i (j + 1) k l m.
Definition put_missing w '(mkGcResult a b c d e f g h i j k _ _) := mkGcResult a b c d e f g h i j k (N.of_nat (length w)) w.

(** [r.error] with [x] appended after a separator. *)
Definition append_error (sep x : str) (r : GcResult) : GcResult :=
  set_gc_error (match gc_error r with [] => x | e => e ++ sep ++ x end) r.

Inductive marking : Type :=
| Marked (m : gset Hash) (stats : GcResult)
| MarkFailed (error : str) (stats : GcResult)
| MarkUndefined.

Definition mark_impl (st : ObjectStore) (env : GcEnv) (policy : GcPolicy) (roots : RootsEnv)
    (refs : Refs) (live : GcLiveRoots) (missing : option (list Hash)) : marking :=
  match mark_all st env policy roots refs live (start_mark missing) with
  | (s, Done) => Marked (marked s) (set_compacted (compacted_count s) (result_of s))
  | (s, Failed msg) => MarkFailed msg (result_of s)
  | (_, Undefined) | (_, NoFuel) => MarkUndefined
  end.

(** ** Sweep *)

(** [time(nullptr)] at the start, the walk of objects/, and each removal. *)
Record SweepEnv : Type := mkSweep {
  mark_start : Z;
  listing : list shard_listing;
  root_fault : fault;
  removal : Hash -> RemoveEnv
}.

Definition sweep_one (env : SweepEnv) (dry : bool) (m : gset Hash) (x : Hash * N * Z)
    (sr : ObjectStore * GcResult) : ObjectStore * GcResult :=
  let '(h, sz, mtime) := x in
  let '(st, r) := sr in
  if decide (h ∈ m) then (st, count_marked sz r)
  else if (mark_start env <=? mtime + 2)%Z then (st, r)
  else if dry then (st, count_swept sz r)
  else
    match remove_object_if_older_than h (mark_start env - 2) (removal env h) st with
    | (st', Removed) => (st', count_swept sz r)
    | (st', Skipped) => (st', r)
    | (st', RemoveError msg) =>
        let r := count_error r in
        (st', if (N.of_nat (length (gc_error r)) <? 2000) then append_error (lit "; ") msg r else r)
    end.

Definition sweep (env : SweepEnv) (dry : bool) (m : gset Hash) (l : list (Hash * N * Z))
    (sr : ObjectStore * GcResult) : ObjectStore * GcResult :=
  fold_left (fun sr x => sweep_one env dry m x sr) l sr.

Definition run (st : ObjectStore) (env : GcEnv) (policy : GcPolicy) (roots : RootsEnv)
    (refs : Refs) (live : GcLiveRoots) (senv : SweepEnv) : option (ObjectStore * GcResult) :=
  match mark_impl st env policy roots refs live None with
  | MarkUndefined => None
  | MarkFailed msg r => Some (st, set_gc_error msg r)
  | Marked m r =>
      let '(visits, walked) := for_each_object (listing senv) (root_fault senv) in
      let '(st1, r1) := sweep senv (dry_run policy) m visits (st, r) in
      let '(r2, enum_ok) :=
        match walked with
        | Ok _ => (r1, true)
        | Err msg => (append_error (lit "; ") msg r1, false)
        end in
      let st2 := if negb (dry_run policy) && (0 <? swept_objects r2) then clear_size_cache st1 else st1 in
      Some (st2, set_gc_ok (enum_ok && (sweep_errors r2 =? 0)) r2)
  end.

(** ** Verify *)

(** The marked set is iterated in some order: [order]. *)
Definition verify_one (st : ObjectStore) (env : GcEnv) (h : Hash) (r : GcResult) : GcResult :=
  let r := count_marked 0 r in
  if object_exists st (exists_io env h) h then r
  else
    let r := put_missing (gc_missing r ++ [h]) r in
    if N.of_nat (length (gc_error r)) <? 2000
    then set_gc_error (gc_error r ++ (match gc_error r with [] => lit "missing: " | _ => lit ", " end) ++
                       hash_to_hex h) r
    else r.

Definition verify (st : ObjectStore) (env : GcEnv) (policy : GcPolicy) (roots : RootsEnv)
    (refs : Refs) (live : GcLiveRoots) (order : gset Hash -> list Hash) : option GcResult :=
  match mark_impl st env policy roots refs live (Some []) with
  | MarkUndefined => None
  | MarkFailed msg r => Some (set_gc_error msg (put_missing (sorted_hashes (list_to_set (gc_missing r))) r))
  | Marked m r =>
      let r := fold_left (fun r h => verify_one st env h r) (order m) r in
      let r := put_missing (merge_sort hash_le (gc_missing r)) r in
      Some (set_gc_ok (missing_objects r =? 0) r)
  end.
