(* ===== verification/GcMark.v ===== *)
(** The mark phase of the collector marks exactly what is needed: closure of
    what it visits, the specification [needed], completeness and soundness. *)

From S2P Require Import Prelude Hashes WorkingTree Codec ObjectStore History Refs AgentState RuntimeState Gc.

(** ** How actions compose *)

Lemma andthen_done a b s s' :
  (a;; b) s = (s', Done) -> exists s1, a s = (s1, Done) /\ b s1 = (s', Done).
Proof. unfold andthen. destruct (a s) as [s1 []]; try done. eauto. Qed.

Lemma lost_done st env h msg s s' : lost st env h msg s <> (s', Done).
Proof. done. Qed.

Ltac seq_inv :=
  repeat match goal with
  | H : (_;; _) _ = (_, Done) |- _ => apply andthen_done in H as (? & ? & ?)
  | H : upd _ _ = (_, Done) |- _ => injection H as <-
  | H : pass _ = (_, Done) |- _ => injection H as <-
  | H : fail _ _ = (_, Done) |- _ => discriminate
  | H : lost _ _ _ _ _ = (_, Done) |- _ => by apply lost_done in H
  | H : (_, Undefined) = (_, Done) |- _ => discriminate
  | H : (_, NoFuel) = (_, Done) |- _ => discriminate
  | H : (_, Done) = (_, Done) |- _ => injection H as <-
  end.

(** ** What a mark state promises *)

Section closure.
Context {st : ObjectStore} {env : GcEnv} {policy : GcPolicy}.

Abbreviation commit_at := (commit_at st).
Abbreviation ancestor := (ancestor st).

(** Marks only accumulate. *)
Record ext (s s' : MarkState) : Prop := {
  ext_marked : marked s ⊆ marked s';
  ext_retained : retained_data s ⊆ retained_data s';
  ext_trees : m_trees s ⊆ m_trees s';
  ext_states : m_state_records s ⊆ m_state_records s';
  ext_unions : m_union_states s ⊆ m_union_states s'
}.

#[global] Instance ext_preorder : PreOrder ext.
Proof.
  split; [by intros s; split|]. intros s1 s2 s3 [] []. split; by etransitivity.
Qed.

(** Statements that later marking keeps. *)
Class Persists (P : MarkState -> Prop) : Prop := persists : forall s s', ext s s' -> P s -> P s'.

#[local] Instance persists_marked h : Persists (fun s => h ∈ marked s).
Proof. intros s s' []. set_solver. Qed.
#[local] Instance persists_retained h : Persists (fun s => h ∈ retained_data s).
Proof. intros s s' []. set_solver. Qed.
#[local] Instance persists_tree h : Persists (fun s => h ∈ m_trees s).
Proof. intros s s' []. set_solver. Qed.
#[local] Instance persists_state h : Persists (fun s => h ∈ m_state_records s).
Proof. intros s s' []. set_solver. Qed.
#[local] Instance persists_union h : Persists (fun s => h ∈ m_union_states s).
Proof. intros s s' []. set_solver. Qed.
#[local] Instance persists_const (P : Prop) : Persists (fun _ => P).
Proof. by intros s s' _ H. Qed.
#[local] Instance persists_and P Q : Persists P -> Persists Q -> Persists (fun s => P s /\ Q s).
Proof. intros HP HQ s s' He [? ?]. eauto. Qed.
#[local] Instance persists_or P Q : Persists P -> Persists Q -> Persists (fun s => P s \/ Q s).
Proof. intros HP HQ s s' He [?|?]; eauto. Qed.
#[local] Instance persists_impl (P : Prop) Q : Persists Q -> Persists (fun s => P -> Q s).
Proof. intros HQ s s' He H HP. eauto. Qed.
#[local] Instance persists_forall {A} (P : A -> MarkState -> Prop) :
  (forall x, Persists (P x)) -> Persists (fun s => forall x, P x s).
Proof. intros HP s s' He H x. eapply HP; eauto. Qed.
#[local] Instance persists_exists {A} (P : A -> MarkState -> Prop) :
  (forall x, Persists (P x)) -> Persists (fun s => exists x, P x s).
Proof. intros HP s s' He [x H]. exists x. eapply HP; eauto. Qed.

Definition tree_at (t : Hash) (entries : list child) : Prop :=
  exists body, read_tree st true t = Some body /\ deserialize_tree_entries body = Parsed entries.

(** The first [n] commits from [h] along first parents. *)
Inductive first_parent : nat -> Hash -> Hash -> Prop :=
| fp_here n h : first_parent (S n) h h
| fp_next n h cd p rest c :
    commit_at h cd -> parents cd = p :: rest -> first_parent n p c -> first_parent (S n) h c.

(** What the policy says about the data of a commit reached from [head]. *)
Definition kept (head : Hash) (apply_window : bool) (c : Hash) (cd : CommitData) : Prop :=
  match keep_last policy with
  | None => True
  | Some n =>
      c = head \/ (apply_window = true /\ first_parent (N.to_nat (N.max 1 n)) head c) \/
      label cd ∈ keep_labels policy
  end.

Definition entry_done (e : child) (s : MarkState) : Prop :=
  match e_kind e.2 with
  | Tree => e_hash e.2 ∈ m_trees s
  | Deleted => True
  | _ => e_hash e.2 = ZERO_HASH \/ e_hash e.2 ∈ marked s
  end.

Definition chain_done (head : Hash) (apply_window : bool) (s : MarkState) : Prop :=
  forall c, ancestor head c ->
    c ∈ marked s /\ exists cd, commit_at c cd /\
      ((forall x, window_io env x = true) -> kept head apply_window c cd -> c ∈ retained_data s).

Definition fs_commit_done (c : Hash) (s : MarkState) : Prop := c <> ZERO_HASH -> chain_done c false s.

Definition linked (hex : str) (P : Hash -> MarkState -> Prop) (s : MarkState) : Prop :=
  hex <> [] -> exists h, hex_to_hash_strict hex = Some h /\ P h s.

Definition in_states (h : Hash) (s : MarkState) : Prop := h ∈ m_state_records s.
Definition in_unions (h : Hash) (s : MarkState) : Prop := h ∈ m_union_states s.
Definition in_marked (h : Hash) (s : MarkState) : Prop := h ∈ marked s.

Definition tree_closed (t : Hash) (s : MarkState) : Prop :=
  exists entries, tree_at t entries /\ t ∈ marked s /\ forall e, e ∈ entries -> entry_done e s.

Definition state_closed (id : Hash) (s : MarkState) : Prop :=
  exists r, read_agent_state_record st true id = Ok r /\ id ∈ marked s /\
    linked (payload_ref r) in_marked s /\
    (forall d, d ∈ dependency_hashes r -> d ∈ marked s) /\
    fs_commit_done (as_fs_commit r) s /\
    linked (as_union_state_id r) in_unions s /\
    (forall pid, pid ∈ [parent_state_id r; snapshot_base_state_id r] -> linked pid in_states s).

Definition opaque_done (value : str) (s : MarkState) : Prop :=
  forall h, hex_to_hash_strict value = Some h -> h ∈ marked s.

Definition union_closed (id : Hash) (s : MarkState) : Prop :=
  exists us, read_union_runtime_state st true id = Ok us /\ id ∈ marked s /\
    fs_commit_done (us_fs_commit us) s /\
    opaque_done (command_ref us) s /\ opaque_done (resource_manifest_ref us) s /\
    linked (us_agent_state_id us) in_states s /\
    linked (parent_union_state_id us) in_unions s.

#[local] Instance persists_entry_done e : Persists (entry_done e).
Proof. unfold entry_done. destruct (e_kind e.2); apply _. Qed.
#[local] Instance persists_chain head w : Persists (chain_done head w).
Proof. unfold chain_done. apply _. Qed.
#[local] Instance persists_fs_commit c : Persists (fs_commit_done c).
Proof. unfold fs_commit_done. apply _. Qed.
#[local] Instance persists_linked hex P : (forall h, Persists (P h)) -> Persists (linked hex P).
Proof. unfold linked. apply _. Qed.
#[local] Instance persists_in_states h : Persists (in_states h).
Proof. apply _. Qed.
#[local] Instance persists_in_unions h : Persists (in_unions h).
Proof. apply _. Qed.
#[local] Instance persists_in_marked h : Persists (in_marked h).
Proof. apply _. Qed.
#[local] Instance persists_opaque v : Persists (opaque_done v).
Proof. unfold opaque_done. apply _. Qed.
#[local] Instance persists_tree_closed t : Persists (tree_closed t).
Proof. unfold tree_closed. apply _. Qed.
#[local] Instance persists_state_closed t : Persists (state_closed t).
Proof. unfold state_closed. apply _. Qed.
#[local] Instance persists_union_closed t : Persists (union_closed t).
Proof. unfold union_closed. apply _. Qed.

(** Marking adds, and closes what it visits. *)
Record advances (s s' : MarkState) : Prop := {
  adv_ext : ext s s';
  adv_trees : forall t, t ∈ m_trees s' -> t ∈ m_trees s \/ tree_closed t s';
  adv_states : forall t, t ∈ m_state_records s' -> t ∈ m_state_records s \/ state_closed t s';
  adv_unions : forall t, t ∈ m_union_states s' -> t ∈ m_union_states s \/ union_closed t s'
}.

#[local] Instance advances_preorder : PreOrder advances.
Proof.
  split; [intros s; by split; [| left|left|left]|].
  intros s1 s2 s3 [E1 T1 S1 U1] [E2 T2 S2 U2]. split; [by etransitivity| | |].
  - intros t [[H|H]%T1|H]%T2; [by left|right; by eapply persists|by right].
  - intros t [[H|H]%S1|H]%S2; [by left|right; by eapply persists|by right].
  - intros t [[H|H]%U1|H]%U2; [by left|right; by eapply persists|by right].
Qed.

(** [does a P]: when [a] succeeds it advances the state and leaves [P]. *)
Definition does (a : action) (P : MarkState -> Prop) : Prop :=
  forall s s', a s = (s', Done) -> advances s s' /\ P s'.

Lemma does_andthen a b P Q :
  Persists P -> does a P -> does b Q -> does (a;; b) (fun s => P s /\ Q s).
Proof.
  intros HPs Ha Hb s s' H. seq_inv. destruct (Ha _ _ H) as [A1 P1]. destruct (Hb _ _ H0) as [A2 Q2].
  split; [by etransitivity|]. split; [|done]. eapply persists; [apply A2|done].
Qed.

Lemma does_weaken a (P Q : MarkState -> Prop) : does a P -> (forall s, P s -> Q s) -> does a Q.
Proof. intros Ha HPQ s s' H. destruct (Ha _ _ H). auto. Qed.

Lemma does_each {A} (f : A -> action) (P : A -> MarkState -> Prop) l :
  (forall x, Persists (P x)) -> (forall x, x ∈ l -> does (f x) (P x)) ->
  does (each f l) (fun s => forall x, x ∈ l -> P x s).
Proof.
  intros HP. induction l as [|x l IH]; intros Hf; cbn [each].
  { intros s s' H. seq_inv. split; [done|]. by intros x ?%elem_of_nil. }
  eapply does_weaken; [apply (does_andthen _ _ (P x)); [apply HP|apply Hf; by left|apply IH; intros y Hy; apply Hf; by right]|].
  intros s [H1 H2] y [->|Hy]%elem_of_cons; auto.
Qed.

Lemma does_fail msg P : does (fail msg) P.
Proof. by intros s s' H. Qed.

Lemma does_pass : does pass (fun _ => True).
Proof. intros s s' H. by seq_inv. Qed.

(** Updates that visit nothing. *)
Definition quiet (f : MarkState -> MarkState) : Prop :=
  forall s, ext s (f s) /\ m_trees (f s) = m_trees s /\ m_state_records (f s) = m_state_records s /\
    m_union_states (f s) = m_union_states s.

Lemma does_upd f (P : MarkState -> Prop) : quiet f -> (forall s, P (f s)) -> does (upd f) P.
Proof.
  intros Hq HP s s' H. injection H as <-. split; [|done]. destruct (Hq s) as (He & Ht & Ha & Hu).
  split; [done| | |]; intros t; rewrite ?Ht, ?Ha, ?Hu; by left.
Qed.

Lemma quiet_marked h : quiet (add_marked h).
Proof. intros []. split; [|done]. split; simpl; set_solver. Qed.
Lemma quiet_retained (b : bool) h : quiet (if b then add_retained h else add_compacted h).
Proof. destruct b; intros []; (split; [|done]); split; simpl; set_solver. Qed.
Lemma quiet_counts : quiet count_branch /\ quiet count_state_ref /\ quiet count_runtime.
Proof. split; [|split]; intros []; (split; [|done]); split; simpl; set_solver. Qed.

Lemma does_mark h : does (upd (add_marked h)) (in_marked h).
Proof. apply does_upd; [apply quiet_marked|]. intros []. unfold in_marked. simpl. set_solver. Qed.

(** ** Trees *)

(** A visited tree whose entries are done is closed. *)
Lemma advances_tree t s s' :
  advances (add_marked t (add_tree t s)) s' -> tree_closed t s' -> advances s s'.
Proof.
  intros [E T S U] Hc.
  assert (ext s (add_marked t (add_tree t s))) as E0 by (destruct s; split; simpl; set_solver).
  split; [by etransitivity| | |].
  - intros x [Hx|Hx]%T; [|by right]. destruct s; simpl in Hx.
    apply elem_of_union in Hx as [->%elem_of_singleton|Hx]; auto.
  - intros x [Hx|Hx]%S; [left; by destruct s|by right].
  - intros x [Hx|Hx]%U; [left; by destruct s|by right].
Qed.

Lemma advances_state t s s' : advances (add_state t s) s' -> state_closed t s' -> advances s s'.
Proof.
  intros [E T S U] Hc.
  assert (ext s (add_state t s)) as E0 by (destruct s; split; simpl; set_solver).
  split; [by etransitivity| | |].
  - intros x [Hx|Hx]%T; [left; by destruct s|by right].
  - intros x [Hx|Hx]%S; [|by right]. destruct s; simpl in Hx.
    apply elem_of_union in Hx as [->%elem_of_singleton|Hx]; auto.
  - intros x [Hx|Hx]%U; [left; by destruct s|by right].
Qed.

Lemma advances_union t s s' : advances (add_union t s) s' -> union_closed t s' -> advances s s'.
Proof.
  intros [E T S U] Hc.
  assert (ext s (add_union t s)) as E0 by (destruct s; split; simpl; set_solver).
  split; [by etransitivity| | |].
  - intros x [Hx|Hx]%T; [left; by destruct s|by right].
  - intros x [Hx|Hx]%S; [left; by destruct s|by right].
  - intros x [Hx|Hx]%U; [|by right]. destruct s; simpl in Hx.
    apply elem_of_union in Hx as [->%elem_of_singleton|Hx]; auto.
Qed.

Lemma does_entry recurse e :
  (forall t, does (recurse t) (fun s => t ∈ m_trees s)) -> does (mark_entry recurse e) (entry_done e).
Proof.
  intros Hr. unfold mark_entry, entry_done.
  destruct (e_kind e.2); [|apply Hr| |eapply does_weaken; [apply does_pass|done]|];
    (case_decide; [eapply does_weaken; [apply does_pass|by left]|
                   eapply does_weaken; [apply does_mark|by right]]).
Qed.

Lemma does_tree fuel t : does (mark_tree_recursive st env fuel t) (fun s => t ∈ m_trees s).
Proof.
  revert t. induction fuel as [|fuel IH]; intros t s s' H; simpl in H; [done|].
  case_decide as Ht; [by seq_inv|]. seq_inv.
  destruct (read_tree st (read_io env t) t) as [body|] eqn:Er; [|by apply lost_done in H0].
  destruct (deserialize_tree_entries body) as [entries| |] eqn:Ed; [|done|done].
  assert (does (each (mark_entry (mark_tree_recursive st env fuel)) entries)
    (fun s => forall e, e ∈ entries -> entry_done e s)) as Hdo.
  { apply does_each; [apply _|]. intros e _. by apply does_entry. }
  destruct (Hdo _ _ H0) as [Ha Hp].
  assert (t ∈ m_trees s' /\ t ∈ marked s') as [Hts Hms].
  { destruct Ha as [[Hm _ Hts _ _] _ _ _]. destruct s; simpl in *. set_solver. }
  split; [|done]. eapply advances_tree; [done|].
  exists entries. split; [|done]. exists body. split; [|done].
  by eapply read_object_io.
Qed.

(** ** Commits *)

Lemma does_commit_data c :
  does (mark_commit_data st env c) (fun s => exists cd, commit_at c cd /\ tree_hash cd ∈ m_trees s).
Proof.
  intros s s' H. unfold mark_commit_data in H.
  destruct (load_commit st (read_io env c) c) as [[cd| |]|] eqn:E; try done.
  apply does_tree in H as [Ha Ht]. split; [done|]. exists cd. split; [|done].
  by eapply load_commit_io.
Qed.

Definition seen_done (head : Hash) (w : gset Hash) (seen : gset Hash) (c : Hash) (s : MarkState) : Prop :=
  c ∈ marked s /\ exists cd, commit_at c cd /\
    (retain_data policy head c w (label cd) = true -> c ∈ retained_data s) /\
    (forall p, p ∈ parents cd -> p ∈ seen).

#[local] Instance persists_seen head w seen c : Persists (seen_done head w seen c).
Proof. unfold seen_done. apply _. Qed.

Lemma chain_loop_seen fuel head w queue seen s s' :
  chain_loop st env policy fuel head w queue seen s = (s', Done) ->
  (forall c, c ∈ seen -> seen_done head w (seen ∪ list_to_set queue) c s) ->
  advances s s' /\ exists seen', seen ∪ list_to_set queue ⊆ seen' /\
    forall c, c ∈ seen' -> seen_done head w seen' c s'.
Proof.
  revert queue seen s. induction fuel as [|fuel IH]; intros queue seen s H Hs; simpl in H; [done|].
  destruct queue as [|cur queue].
  { seq_inv. split; [done|]. exists seen. split; [set_solver|].
    intros c Hc. simpl in Hs. rewrite union_empty_r_L in Hs. auto. }
  case_decide as Hcur.
  { apply IH in H as (Ha & seen' & Hsub & Hc).
    - split; [done|]. exists seen'. split; [set_solver|done].
    - intros c Hc. replace (seen ∪ list_to_set queue) with (seen ∪ list_to_set (cur :: queue)); [auto|].
      set_solver. }
  destruct (load_commit st (read_io env cur) cur) as [[cd| |]|] eqn:E; try done.
  apply load_commit_io in E. seq_inv.
  set (s1 := (if retain_data _ _ _ _ _ then _ else _) _) in *.
  assert (advances s s1) as Ha1.
  { unfold s1. transitivity (add_marked cur s).
    - by apply (does_mark cur).
    - eapply (does_upd _ (fun _ => True) (quiet_retained _ cur)); done. }
  apply IH in H1 as (Ha & seen' & Hsub & Hc).
  - split; [by etransitivity|]. exists seen'. split; [|done].
    rewrite list_to_set_app_L in Hsub. simpl. set_solver.
  - intros c [->%elem_of_singleton|Hc]%elem_of_union.
    + split; [unfold s1; destruct (retain_data _ _ _ _ _), s; simpl; set_solver|].
      exists cd. split; [done|]. split.
      * intros Hk. unfold s1. rewrite Hk. destruct s; simpl. set_solver.
      * intros p Hp. rewrite list_to_set_app_L. apply elem_of_union_r, elem_of_union_l.
        apply elem_of_list_to_set, list_elem_of_In. rewrite <- in_rev. by apply list_elem_of_In.
    + destruct (persists _ _ (adv_ext _ _ Ha1) (Hs c Hc)) as (Hm & cd' & Hcd & Hk & Hp).
      split; [done|]. exists cd'. split; [done|]. split; [done|].
      intros p Hin. apply Hp in Hin. rewrite list_to_set_app_L. simpl in Hin. set_solver.
Qed.

Lemma window_walk_sound n h w c : window_walk st env n h = Some w -> c ∈ w -> first_parent n h c.
Proof.
  revert h w. induction n as [|n IH]; intros h w H Hc; simpl in H; [simplify_eq; set_solver|].
  destruct (load_commit st (window_io env h) h) as [[cd| |]|] eqn:E; simplify_eq.
  - apply load_commit_io in E. destruct (parents cd) as [|p rest] eqn:Ep.
    { simplify_eq. apply elem_of_singleton in Hc as ->. constructor. }
    destruct (window_walk st env n p) as [w1|] eqn:Ew; simplify_eq/=.
    apply elem_of_union in Hc as [->%elem_of_singleton|Hc]; [constructor|].
    econstructor; eauto.
  - apply elem_of_singleton in Hc as ->. constructor.
  - apply elem_of_singleton in Hc as ->. constructor.
Qed.

Lemma window_walk_complete n h w c :
  (forall c, window_io env c = true) -> window_walk st env n h = Some w -> first_parent n h c -> c ∈ w.
Proof.
  intros Hio H Hc. revert w H. induction Hc as [n h|n h cd p rest c Hcd Hp Hc IH]; intros w H; simpl in H.
  - destruct (load_commit st (window_io env h) h) as [[cd| |]|]; simplify_eq; try set_solver.
    destruct (parents cd) as [|p rest]; [simplify_eq; set_solver|].
    destruct (window_walk st env n p) as [w1|]; simplify_eq/=; set_solver.
  - rewrite Hio in H. unfold commit_at in Hcd. rewrite Hcd, Hp in H.
    destruct (window_walk st env n p) as [w1|] eqn:E; simplify_eq/=.
    apply elem_of_union_r. by apply IH.
Qed.

(** The loop's decision is the policy's, when the window walk's reads work. *)
Lemma retain_kept head ap w c cd :
  keep_last_set st env policy head ap = Some w ->
  retain_data policy head c w (label cd) = true -> kept head ap c cd.
Proof.
  unfold keep_last_set, retain_data, kept. destruct (keep_last policy) as [n|]; [|done].
  intros Hw [[Hh|Hin]%orb_true_iff|Hl]%orb_true_iff.
  - left. by apply bool_decide_eq_true in Hh.
  - right. left. apply bool_decide_eq_true in Hin. destruct ap; [|simplify_eq; set_solver].
    split; [done|]. by eapply window_walk_sound.
  - right. right. apply existsb_exists in Hl as (l & Hl & He).
    apply bool_decide_eq_true in He as ->. by apply list_elem_of_In.
Qed.

Lemma kept_retain head ap w c cd :
  (forall c, window_io env c = true) -> keep_last_set st env policy head ap = Some w ->
  kept head ap c cd -> retain_data policy head c w (label cd) = true.
Proof.
  unfold keep_last_set, retain_data, kept. destruct (keep_last policy) as [n|]; [|done].
  intros Hio Hw [->|[[-> Hf]|Hl]].
  - by rewrite bool_decide_true.
  - rewrite (bool_decide_true (c ∈ w)); [by rewrite orb_true_r|]. by eapply window_walk_complete.
  - apply orb_true_iff. right. apply existsb_exists. exists (label cd).
    split; [by apply list_elem_of_In|by apply bool_decide_true].
Qed.

Lemma does_chain head w : does (mark_commit_chain st env policy head w) (chain_done head w).
Proof.
  intros s s' H. unfold mark_commit_chain in H.
  destruct (keep_last_set st env policy head w) as [win|] eqn:Ew; [|done].
  apply chain_loop_seen in H as (Ha & seen & Hsub & Hc); [|set_solver].
  split; [done|].
  assert (forall c, ancestor head c -> c ∈ seen) as Hanc.
  { induction 1 as [|c cd p _ IHc Hcd Hp]; [set_solver|].
    destruct (Hc _ IHc) as (_ & cd' & Hcd' & _ & Hps). unfold commit_at in *. simplify_eq. auto. }
  intros c Hca. destruct (Hc _ (Hanc _ Hca)) as (Hm & cd & Hcd & Hk & _).
  split; [done|]. exists cd. split; [done|]. intros Hio Hr. apply Hk. by eapply kept_retain.
Qed.

Lemma does_fs_commit c : does (mark_fs_commit st env policy c) (fs_commit_done c).
Proof.
  unfold mark_fs_commit, fs_commit_done. case_decide as Hc.
  - eapply does_weaken; [apply does_pass|done].
  - eapply does_weaken; [apply does_chain|done].
Qed.

(** ** State records *)

Lemma does_required_hex hex : does (mark_required_hex_blob hex) (linked hex in_marked).
Proof.
  unfold mark_required_hex_blob, linked. destruct hex as [|c hex].
  { eapply does_weaken; [apply does_pass|done]. }
  destruct (hex_to_hash_strict (c :: hex)) as [h|]; [|apply does_fail].
  eapply does_weaken; [apply does_mark|]. intros s Hs _. by exists h.
Qed.

Lemma does_opaque value : does (mark_opaque_cas_ref value) (opaque_done value).
Proof.
  unfold mark_opaque_cas_ref, opaque_done. destruct (hex_to_hash_strict value) as [h|].
  - eapply does_weaken; [apply does_mark|]. by intros s Hs h' [= <-].
  - eapply does_weaken; [apply does_pass|done].
Qed.

Lemma does_linked recurse (P : Hash -> MarkState -> Prop) hex msg :
  (forall h, does (recurse h) (P h)) -> does (mark_linked recurse hex msg) (linked hex P).
Proof.
  intros Hr. unfold mark_linked, linked. destruct hex as [|c hex].
  { eapply does_weaken; [apply does_pass|done]. }
  destruct (hex_to_hash_strict (c :: hex)) as [h|]; [|apply does_fail].
  eapply does_weaken; [apply Hr|]. intros s Hs _. by exists h.
Qed.

Lemma read_agent_state_io io id r :
  read_agent_state_record st io id = Ok r -> read_agent_state_record st true id = Ok r.
Proof.
  unfold read_agent_state_record. destruct (read_blob st io id) eqn:E; [|done].
  by rewrite (read_blob_io _ _ _ _ E).
Qed.

Lemma read_union_state_io io id r :
  read_union_runtime_state st io id = Ok r -> read_union_runtime_state st true id = Ok r.
Proof.
  unfold read_union_runtime_state. destruct (read_blob st io id) eqn:E; [|done].
  by rewrite (read_blob_io _ _ _ _ E).
Qed.

Lemma does_state_body (recurse_state recurse_union : Hash -> action) id r m1 m2 :
  (forall h, does (recurse_state h) (in_states h)) -> (forall h, does (recurse_union h) (in_unions h)) ->
  read_agent_state_record st true id = Ok r ->
  does (upd (add_marked id);;
        mark_required_hex_blob (payload_ref r);;
        each (fun d => upd (add_marked d)) (dependency_hashes r);;
        mark_fs_commit st env policy (as_fs_commit r);;
        mark_linked recurse_union (as_union_state_id r) m1;;
        each (fun pid => mark_linked recurse_state pid m2) [parent_state_id r; snapshot_base_state_id r])
    (state_closed id).
Proof.
  intros Hs Hu Hr. eapply does_weaken.
  - apply (does_andthen _ _ (in_marked id)); [apply _|apply does_mark|].
    apply (does_andthen _ _ (linked (payload_ref r) in_marked)); [apply _|apply does_required_hex|].
    apply (does_andthen _ _ (fun s => forall d, d ∈ dependency_hashes r -> in_marked d s)); [apply _| |].
    { apply (does_each _ in_marked); [apply _|]. intros; apply does_mark. }
    apply (does_andthen _ _ (fs_commit_done (as_fs_commit r))); [apply _|apply does_fs_commit|].
    apply (does_andthen _ _ (linked (as_union_state_id r) in_unions)); [apply _|by apply does_linked|].
    apply (does_each _ (fun pid => linked pid in_states)); [apply _|]. intros; by apply does_linked.
  - intros s H. exists r. unfold in_marked in H at 1. tauto.
Qed.

Lemma does_union_body (recurse_state recurse_union : Hash -> action) id us m1 m2 :
  (forall h, does (recurse_state h) (in_states h)) -> (forall h, does (recurse_union h) (in_unions h)) ->
  read_union_runtime_state st true id = Ok us ->
  does (upd (add_marked id);;
        mark_fs_commit st env policy (us_fs_commit us);;
        mark_opaque_cas_ref (command_ref us);;
        mark_opaque_cas_ref (resource_manifest_ref us);;
        mark_linked recurse_state (us_agent_state_id us) m1;;
        mark_linked recurse_union (parent_union_state_id us) m2)
    (union_closed id).
Proof.
  intros Hs Hu Hr. eapply does_weaken.
  - apply (does_andthen _ _ (in_marked id)); [apply _|apply does_mark|].
    apply (does_andthen _ _ (fs_commit_done (us_fs_commit us))); [apply _|apply does_fs_commit|].
    apply (does_andthen _ _ (opaque_done (command_ref us))); [apply _|apply does_opaque|].
    apply (does_andthen _ _ (opaque_done (resource_manifest_ref us))); [apply _|apply does_opaque|].
    apply (does_andthen _ _ (linked (us_agent_state_id us) in_states)); [apply _|by apply does_linked|].
    by apply (does_linked _ in_unions).
  - intros s H. exists us. unfold in_marked in H at 1. tauto.
Qed.

Lemma does_records fuel :
  (forall id, does (mark_state_record st env policy fuel id) (in_states id)) /\
  (forall id, does (mark_union_state st env policy fuel id) (in_unions id)).
Proof.
  induction fuel as [|fuel [IHs IHu]]; [by split|].
  split; intros id s s' H; cbn [mark_state_record mark_union_state] in H;
    (case_decide as Ht; [by seq_inv|]);
    apply andthen_done in H as (s1 & Hs1 & H); injection Hs1 as <-.
  - destruct (read_agent_state_record st _ id) as [r|] eqn:Er; [|by apply lost_done in H].
    apply read_agent_state_io in Er. eapply does_state_body in H as [Ha Hp]; [|done..].
    split; [by eapply advances_state|].
    apply (ext_states _ _ (adv_ext _ _ Ha)). destruct s; simpl; set_solver.
  - destruct (read_union_runtime_state st _ id) as [r|] eqn:Er; [|by apply lost_done in H].
    apply read_union_state_io in Er. eapply does_union_body in H as [Ha Hp]; [|done..].
    split; [by eapply advances_union|].
    apply (ext_unions _ _ (adv_ext _ _ Ha)). destruct s; simpl; set_solver.
Qed.

(** ** The roots and what they need *)

Section roots.
Context (roots : RootsEnv) (refs : Refs) (live : GcLiveRoots).

Definition branch_head (head : Hash) : Prop :=
  exists names name, list_refs (refs_begin roots) (refs_entries roots) (refs_end roots) = Ok names /\
    name ∈ names /\ read_ref (ref_env roots name) name refs = Some head.

Definition latest_state (id : Hash) : Prop :=
  exists d r, d ∈ latest_dirs roots /\ ad_type d = inr true /\ r ∈ ad_refs d /\ lr_type r = inr true /\
    parse_latest_ref (lr_path r) (lr_stream r) = Ok id.

Definition live_object (h : Hash) : Prop :=
  h ∈ wt_hashes live \/ h ∈ fh_blob_hashes live \/ h ∈ fh_pinned_commits live \/ h ∈ live_pending live.

(** [ICommit] keeps a commit's metadata, [ISnapshot] its data as well. *)
Inductive item : Type := ICommit | ISnapshot | ITree | IObject | IState | IUnion.

Inductive needed : item -> Hash -> Prop :=
| need_branch head c : branch_head head -> ancestor head c -> needed ICommit c
| need_branch_data head c cd :
    branch_head head -> ancestor head c -> commit_at c cd -> kept head true c cd -> needed ISnapshot c
| need_latest id : latest_state id -> needed IState id
| need_runtime id : id ∈ runtime_union_states live -> needed IUnion id
| need_live h : live_object h -> needed IObject h
| need_linked c0 c : linked_commit c0 -> ancestor c0 c -> needed ICommit c
| need_linked_data c0 c cd :
    linked_commit c0 -> ancestor c0 c -> commit_at c cd -> kept c0 false c cd -> needed ISnapshot c
| need_state_union id r h :
    needed IState id -> read_agent_state_record st true id = Ok r ->
    hex_to_hash_strict (as_union_state_id r) = Some h -> needed IUnion h
| need_state_parent id r pid h :
    needed IState id -> read_agent_state_record st true id = Ok r ->
    pid ∈ [parent_state_id r; snapshot_base_state_id r] -> hex_to_hash_strict pid = Some h ->
    needed IState h
| need_state_object id r h :
    needed IState id -> read_agent_state_record st true id = Ok r ->
    hex_to_hash_strict (payload_ref r) = Some h \/ h ∈ dependency_hashes r -> needed IObject h
| need_union_state id us h :
    needed IUnion id -> read_union_runtime_state st true id = Ok us ->
    hex_to_hash_strict (us_agent_state_id us) = Some h -> needed IState h
| need_union_parent id us h :
    needed IUnion id -> read_union_runtime_state st true id = Ok us ->
    hex_to_hash_strict (parent_union_state_id us) = Some h -> needed IUnion h
| need_union_object id us h :
    needed IUnion id -> read_union_runtime_state st true id = Ok us ->
    hex_to_hash_strict (command_ref us) = Some h \/ hex_to_hash_strict (resource_manifest_ref us) = Some h ->
    needed IObject h
| need_tree c cd : needed ISnapshot c -> commit_at c cd -> needed ITree (tree_hash cd)
| need_subtree t entries e :
    needed ITree t -> tree_at t entries -> e ∈ entries -> e_kind e.2 = Tree -> needed ITree (e_hash e.2)
| need_leaf t entries e :
    needed ITree t -> tree_at t entries -> e ∈ entries -> e_kind e.2 <> Tree -> e_kind e.2 <> Deleted ->
    e_hash e.2 <> ZERO_HASH -> needed IObject (e_hash e.2)
with linked_commit : Hash -> Prop :=
| link_state id r :
    needed IState id -> read_agent_state_record st true id = Ok r -> as_fs_commit r <> ZERO_HASH ->
    linked_commit (as_fs_commit r)
| link_union id us :
    needed IUnion id -> read_union_runtime_state st true id = Ok us -> us_fs_commit us <> ZERO_HASH ->
    linked_commit (us_fs_commit us).

Scheme needed_ind' := Induction for needed Sort Prop
  with linked_commit_ind' := Induction for linked_commit Sort Prop.
Combined Scheme needed_mutind from needed_ind', linked_commit_ind'.

Definition present (k : item) (h : Hash) (s : MarkState) : Prop :=
  match k with
  | ICommit => h ∈ marked s
  | ISnapshot => h ∈ marked s /\ h ∈ retained_data s
  | ITree => h ∈ m_trees s
  | IObject => h ∈ marked s
  | IState => h ∈ m_state_records s
  | IUnion => h ∈ m_union_states s
  end.

(** What a finished mark phase has established. *)
Record complete (s : MarkState) : Prop := {
  cp_branches : forall h, branch_head h -> chain_done h true s;
  cp_latest : forall id, latest_state id -> in_states id s;
  cp_runtime : forall id, id ∈ runtime_union_states live -> in_unions id s;
  cp_live : forall h, live_object h -> in_marked h s;
  cp_data : forall c, c ∈ retained_data s -> exists cd, commit_at c cd /\ tree_hash cd ∈ m_trees s;
  cp_trees : forall t, t ∈ m_trees s -> tree_closed t s;
  cp_states : forall t, t ∈ m_state_records s -> state_closed t s;
  cp_unions : forall t, t ∈ m_union_states s -> union_closed t s
}.

Lemma linked_some hex (P : Hash -> MarkState -> Prop) s h :
  linked hex P s -> hex_to_hash_strict hex = Some h -> P h s.
Proof.
  intros Hl Hh. destruct hex as [|c hex]; [done|]. destruct Hl as (h' & Hh' & HP); [done|]. by simplify_eq.
Qed.

Lemma complete_needed s :
  (forall x, window_io env x = true) -> complete s ->
  (forall k h, needed k h -> present k h s) /\ (forall c, linked_commit c -> chain_done c false s).
Proof.
  intros Hio [Hb Hl Hr Hv Hd Ht Hs Hu].
  apply needed_mutind; simpl.
  - intros head c Hbr Hc. by apply (Hb _ Hbr).
  - intros head c cd Hbr Hc Hcd Hk. destruct (Hb _ Hbr c Hc) as (Hm & cd' & Hcd' & Hret).
    unfold commit_at in *. simplify_eq. auto.
  - intros id Hid. by apply Hl.
  - intros id Hid. by apply Hr.
  - intros h Hh. by apply Hv.
  - intros c0 c _ IH Hc. by apply IH.
  - intros c0 c cd _ IH Hc Hcd Hk. destruct (IH c Hc) as (Hm & cd' & Hcd' & Hret).
    unfold commit_at in *. simplify_eq. auto.
  - intros id r h _ IH Hrd Hh. destruct (Hs _ IH) as (r' & Hr' & _ & _ & _ & _ & HU & _).
    assert (r' = r) as -> by congruence.
    exact (linked_some _ _ _ _ HU Hh).
  - intros id r pid h _ IH Hrd Hp Hh. destruct (Hs _ IH) as (r' & Hr' & _ & _ & _ & _ & _ & HP).
    assert (r' = r) as -> by congruence.
    exact (linked_some _ _ _ _ (HP _ Hp) Hh).
  - intros id r h _ IH Hrd Ho. destruct (Hs _ IH) as (r' & Hr' & _ & Hpl & Hdep & _).
    assert (r' = r) as -> by congruence.
    destruct Ho as [Hh|Hh]; [exact (linked_some _ _ _ _ Hpl Hh)|by apply Hdep].
  - intros id r h _ IH Hrd Hh. destruct (Hu _ IH) as (r' & Hr' & _ & _ & _ & _ & HS & _).
    assert (r' = r) as -> by congruence.
    exact (linked_some _ _ _ _ HS Hh).
  - intros id r h _ IH Hrd Hh. destruct (Hu _ IH) as (r' & Hr' & _ & _ & _ & _ & _ & HP).
    assert (r' = r) as -> by congruence.
    exact (linked_some _ _ _ _ HP Hh).
  - intros id r h _ IH Hrd Ho. destruct (Hu _ IH) as (r' & Hr' & _ & _ & Hc & Hm & _).
    assert (r' = r) as -> by congruence.
    destruct Ho as [Ho|Ho]; [by apply Hc|by apply Hm].
  - intros c cd _ [_ IH] Hcd. destruct (Hd _ IH) as (cd' & Hcd' & Hin).
    unfold commit_at in *. by simplify_eq.
  - intros t entries e _ IH (body & Hb1 & Hb2) He Hk.
    destruct (Ht _ IH) as (entries' & (body' & Hb1' & Hb2') & _ & Hall).
    assert (entries' = entries) as -> by congruence.
    specialize (Hall _ He). unfold entry_done in Hall. by rewrite Hk in Hall.
  - intros t entries e _ IH (body & Hb1 & Hb2) He Hk1 Hk2 Hz.
    destruct (Ht _ IH) as (entries' & (body' & Hb1' & Hb2') & _ & Hall).
    assert (entries' = entries) as -> by congruence.
    specialize (Hall _ He). unfold entry_done in Hall. destruct (e_kind e.2); try done; by destruct Hall.
  - intros id r _ IH Hrd Hz. destruct (Hs _ IH) as (r' & Hr' & _ & _ & _ & HC & _).
    assert (r' = r) as -> by congruence. by apply HC.
  - intros id r _ IH Hrd Hz. destruct (Hu _ IH) as (r' & Hr' & _ & HC & _).
    assert (r' = r) as -> by congruence. by apply HC.
Qed.

Lemma complete_marked s k h : complete s -> present k h s -> h ∈ marked s.
Proof.
  intros [_ _ _ _ _ Ht Hs Hu] Hp. destruct k; simpl in Hp; [done|by destruct Hp| |done| |].
  - by destruct (Ht _ Hp) as (? & _ & ? & _).
  - by destruct (Hs _ Hp) as (? & _ & ? & _).
  - by destruct (Hu _ Hp) as (? & _ & ? & _).
Qed.

(** ** A finished mark phase is complete *)

Lemma does_fold {A} (f : A -> action) (P : A -> MarkState -> Prop) l (Q : MarkState -> Prop) :
  (forall x, Persists (P x)) -> (forall x, x ∈ l -> does (f x) (P x)) ->
  (forall s, (forall x, x ∈ l -> P x s) -> Q s) -> does (each f l) Q.
Proof. intros HP Hf HQ. eapply does_weaken; [by apply (does_each f P)|done]. Qed.

Lemma does_then_pass a (P : MarkState -> Prop) (o : fault) msg :
  Persists P -> does a P ->
  does (a;; match o with Some m => fail (msg m) | None => pass end) P.
Proof.
  intros HP Ha. eapply does_weaken; [apply (does_andthen _ _ P (fun _ => True)); [done|done|]|by intros s []].
  destruct o; [apply does_fail|apply does_pass].
Qed.

Lemma does_counted f a P : quiet f -> does a P -> does (upd f;; a) P.
Proof.
  intros Hq Ha. eapply does_weaken; [apply (does_andthen _ _ (fun _ => True) P)|by intros s []]; [apply _| |done].
  by apply does_upd.
Qed.

Lemma does_branches :
  does (mark_branches st env policy roots refs live)
    (fun s => forall h, branch_head h -> chain_done h true s).
Proof.
  unfold mark_branches.
  destruct (list_refs (refs_begin roots) (refs_entries roots) (refs_end roots)) as [names|msg] eqn:El;
    [|apply does_fail].
  eapply does_weaken;
    [apply (does_andthen _ _ (fun _ => True)
      (fun s => forall n, n ∈ names -> forall h, read_ref (ref_env roots n) n refs = Some h -> chain_done h true s))|].
  - apply _.
  - apply (does_fold _ (fun _ _ => True)); [apply _| |done]. intros n _. unfold expect_ref.
    case_decide; [apply does_pass|apply does_fail].
  - apply (does_each _ (fun n s => forall h, read_ref (ref_env roots n) n refs = Some h -> chain_done h true s));
      [apply _|]. intros n _. unfold mark_ref.
    destruct (read_ref _ n refs) as [h|]; [|apply does_fail].
    apply does_counted; [apply quiet_counts|].
    eapply does_weaken; [apply does_chain|]. by intros s Hs h' [= <-].
  - intros s [_ Hs] h (names' & n & Hn' & Hin & Hr). simplify_eq.
    assert (names' = names) as -> by congruence. by eapply Hs.
Qed.

Definition ref_done (r : latest_ref) (s : MarkState) : Prop :=
  lr_type r = inr true -> forall id, parse_latest_ref (lr_path r) (lr_stream r) = Ok id -> in_states id s.

Definition dir_done (d : agent_dir) (s : MarkState) : Prop :=
  ad_type d = inr true -> forall r, r ∈ ad_refs d -> ref_done r s.

#[local] Instance persists_ref_done r : Persists (ref_done r).
Proof. unfold ref_done. apply _. Qed.
#[local] Instance persists_dir_done d : Persists (dir_done d).
Proof. unfold dir_done. apply _. Qed.

Lemma does_latest_ref r : does (mark_latest_ref st env policy r) (ref_done r).
Proof.
  unfold mark_latest_ref, ref_done. destruct (lr_type r) as [|[]]; [apply does_fail| |].
  2:{ eapply does_weaken; [apply does_pass|done]. }
  destruct (parse_latest_ref _ _) as [id|]; [|apply does_fail].
  apply does_counted; [apply quiet_counts|].
  eapply does_weaken; [apply (does_records _)|]. by intros s Hs _ id' [= <-].
Qed.

Lemma does_agent_dir d : does (mark_agent_dir st env policy d) (dir_done d).
Proof.
  unfold mark_agent_dir, dir_done. destruct (ad_type d) as [|[]]; [apply does_fail| |].
  2:{ eapply does_weaken; [apply does_pass|done]. }
  destruct (ad_open_fault d); [apply does_fail|].
  apply does_then_pass; [apply _|]. apply (does_fold _ ref_done); [apply _| |auto].
  intros r _. apply does_latest_ref.
Qed.

Lemma does_latest :
  does (mark_latest st env policy roots) (fun s => forall id, latest_state id -> in_states id s).
Proof.
  unfold mark_latest. destruct (latest_fault roots); [apply does_fail|].
  apply does_then_pass; [apply _|].
  apply (does_fold _ dir_done); [apply _|intros d _; apply does_agent_dir|].
  intros s Hs id (d & r & Hd & Ht & Hr & Hrt & Hp). by eapply Hs.
Qed.

Lemma does_marks l : does (each mark_hash l) (fun s => forall h, h ∈ l -> in_marked h s).
Proof. apply (does_each _ in_marked); [apply _|]. intros h _. apply does_mark. Qed.

Lemma each_retained {A} (f : A -> action) l s s' :
  (forall x s s', f x s = (s', Done) -> retained_data s' = retained_data s) ->
  each f l s = (s', Done) -> retained_data s' = retained_data s.
Proof.
  intros Hf. revert s. induction l as [|x l IH]; intros s H; cbn [each] in H; seq_inv; [done|].
  etransitivity; [by eapply IH|by eapply Hf].
Qed.

Lemma mark_tree_retained fuel t s s' :
  mark_tree_recursive st env fuel t s = (s', Done) -> retained_data s' = retained_data s.
Proof.
  revert t s s'. induction fuel as [|fuel IH]; intros t s s' H; simpl in H; [done|].
  case_decide; [by seq_inv|]. seq_inv.
  destruct (read_tree _ _ _) as [body|]; [|by apply lost_done in H1].
  destruct (deserialize_tree_entries body) as [entries| |]; [|done|done].
  apply each_retained in H1; [by destruct s|].
  intros e s1 s2. unfold mark_entry. destruct (e_kind e.2); [|by apply IH| |intros; by seq_inv|];
    (case_decide; intros; seq_inv; [done|by destruct s1]).
Qed.

Lemma mark_data_retained c s s' :
  mark_commit_data st env c s = (s', Done) -> retained_data s' = retained_data s.
Proof.
  unfold mark_commit_data. destruct (load_commit _ _ _) as [[cd| |]|]; try done. apply mark_tree_retained.
Qed.

Lemma does_data :
  does (fun s => each (mark_commit_data st env) (retained_data s) s)
    (fun s => forall c, c ∈ retained_data s -> exists cd, commit_at c cd /\ tree_hash cd ∈ m_trees s).
Proof.
  intros s s' H. pose proof H as Hr. apply each_retained in Hr; [|apply mark_data_retained].
  apply (does_each _ (fun c s => exists cd, commit_at c cd /\ tree_hash cd ∈ m_trees s)) in H as [Ha H];
    [|apply _|intros c _; apply does_commit_data].
  split; [done|]. by rewrite Hr.
Qed.

Lemma does_mark_all :
  does (mark_all st env policy roots refs live) (fun s =>
    (forall h, branch_head h -> chain_done h true s) /\
    (forall id, latest_state id -> in_states id s) /\
    (forall id, id ∈ runtime_union_states live -> in_unions id s) /\
    (forall h, h ∈ wt_hashes live -> in_marked h s) /\
    (forall h, h ∈ fh_blob_hashes live -> in_marked h s) /\
    (forall h, h ∈ fh_pinned_commits live -> in_marked h s) /\
    (forall h, h ∈ live_pending live -> in_marked h s) /\
    (forall c, c ∈ retained_data s -> exists cd, commit_at c cd /\ tree_hash cd ∈ m_trees s)).
Proof.
  unfold mark_all.
  apply (does_andthen _ _ (fun s => forall h, branch_head h -> chain_done h true s));
    [apply _|apply does_branches|].
  apply (does_andthen _ _ (fun s => forall id, latest_state id -> in_states id s));
    [apply _|apply does_latest|].
  apply (does_andthen _ _ (fun s => forall id, id ∈ runtime_union_states live -> in_unions id s)); [apply _| |].
  { apply (does_each _ in_unions); [apply _|]. intros id _. apply does_counted; [apply quiet_counts|].
    apply (does_records _). }
  do 4 (match goal with |- does (each _ ?l;; _) _ =>
    apply (does_andthen _ _ (fun s => forall h, h ∈ l -> in_marked h s)); [apply _|apply does_marks|] end).
  apply does_data.
Qed.

Lemma mark_all_complete w s :
  mark_all st env policy roots refs live (start_mark w) = (s, Done) -> complete s.
Proof.
  intros H. apply does_mark_all in H as ([_ Ht Hs Hu] & H1 & H2 & H3 & H4 & H5 & H6 & H7 & H8).
  split; try done.
  - intros h [Hh|[Hh|[Hh|Hh]]]; auto.
  - intros t [Hx|Hx]%Ht; [set_solver|done].
  - intros t [Hx|Hx]%Hs; [set_solver|done].
  - intros t [Hx|Hx]%Hu; [set_solver|done].
Qed.

(** ** Nothing else is marked *)

Record sound (s : MarkState) : Prop := {
  sound_marked : forall h, h ∈ marked s -> exists k, needed k h;
  sound_retained : forall c, c ∈ retained_data s -> needed ISnapshot c
}.

Definition sure (a : action) : Prop := forall s s', a s = (s', Done) -> sound s -> sound s'.

Lemma sure_andthen a b : sure a -> sure b -> sure (a;; b).
Proof. intros Ha Hb s s' H Hs. seq_inv. eauto. Qed.

Lemma sure_each {A} (f : A -> action) l : (forall x, x ∈ l -> sure (f x)) -> sure (each f l).
Proof.
  induction l as [|x l IH]; intros Hf; cbn [each]; [intros s s' H; by seq_inv|].
  apply sure_andthen; [apply Hf; by left|apply IH; intros y Hy; apply Hf; by right].
Qed.

Lemma sure_pass : sure pass.
Proof. intros s s' H. by seq_inv. Qed.
Lemma sure_fail msg : sure (fail msg).
Proof. by intros s s' H. Qed.
Lemma sure_lost h msg : sure (lost st env h msg).
Proof. by intros s s' H. Qed.

(** Updates that leave the two sets alone. *)
Lemma sure_upd f :
  (forall s, marked (f s) = marked s /\ retained_data (f s) = retained_data s) -> sure (upd f).
Proof. intros Hf s s' [= <-] [Hm Hr]. destruct (Hf s) as [E1 E2]. split; by rewrite ?E1, ?E2. Qed.

Lemma sure_mark k h : needed k h -> sure (upd (add_marked h)).
Proof.
  intros Hn s s' [= <-] [Hm Hr]. destruct s; split; simpl in *; [|done].
  intros x [->%elem_of_singleton|Hx]%elem_of_union; eauto.
Qed.

Hint Resolve sure_pass sure_fail sure_lost sure_mark : ctx.

Lemma sure_tree fuel t : needed ITree t -> sure (mark_tree_recursive st env fuel t).
Proof.
  revert t. induction fuel as [|fuel IH]; intros t Hn s s' H; simpl in H; [done|].
  case_decide; [by seq_inv|]. revert H. apply sure_andthen.
  { intros s1 s2 [= <-] [Hm Hr]. destruct s1; split; simpl in *; [|done].
    intros x [->%elem_of_singleton|Hx]%elem_of_union; eauto. }
  destruct (read_tree st _ t) as [body|] eqn:Er; [|apply sure_lost].
  destruct (deserialize_tree_entries body) as [entries| |] eqn:Ed; [|apply sure_fail|by intros ? ? ?].
  assert (tree_at t entries) as Ht by (exists body; split; [by eapply read_object_io|done]).
  apply sure_each. intros e He. unfold mark_entry.
  assert (e_kind e.2 <> Tree -> e_kind e.2 <> Deleted ->
    sure (if decide (e_hash e.2 = ZERO_HASH) then pass else upd (add_marked (e_hash e.2)))) as Hl.
  { intros H1 H2. case_decide; [apply sure_pass|]. eapply sure_mark, need_leaf; done. }
  destruct (e_kind e.2) eqn:Ek; try (by apply Hl); [|apply sure_pass].
  apply IH. by eapply need_subtree.
Qed.

Lemma sure_chain head ap :
  (forall c, ancestor head c -> needed ICommit c) ->
  (forall c cd, ancestor head c -> commit_at c cd -> kept head ap c cd -> needed ISnapshot c) ->
  sure (mark_commit_chain st env policy head ap).
Proof.
  intros Hc Hd. unfold mark_commit_chain. destruct (keep_last_set _ _ _ _ _) as [w|] eqn:Ew; [|done].
  assert (forall fuel queue seen, (forall x, x ∈ queue -> ancestor head x) ->
    sure (chain_loop st env policy fuel head w queue seen)) as Hl.
  { induction fuel as [|fuel IH]; intros queue seen Hq s s' H; simpl in H; [done|].
    destruct queue as [|cur queue]; [by seq_inv|]. case_decide.
    { revert H. apply IH. intros x Hx. apply Hq. by right. }
    destruct (load_commit st _ cur) as [[cd| |]|] eqn:E; try done.
    apply load_commit_io in E. assert (ancestor head cur) as Hcur by (apply Hq; by left).
    revert H. apply sure_andthen; [by eapply sure_mark, Hc|]. apply sure_andthen.
    - destruct (retain_data _ _ _ _ _) eqn:Er; [|apply sure_upd; by intros []].
      apply (retain_kept _ _ _ _ _ Ew) in Er. intros s1 s2 [= <-] [Hm Hr]. destruct s1; split; simpl in *; [done|].
      intros c [Hin|Hin]%elem_of_app; [eauto|]. apply list_elem_of_singleton in Hin as ->. eauto.
    - apply IH. intros x [Hx|Hx]%elem_of_app; [|apply Hq; by right].
      eapply anc_parent; [done..|]. apply list_elem_of_In in Hx. rewrite <- in_rev in Hx.
      by apply list_elem_of_In. }
  apply Hl. intros x ->%list_elem_of_singleton. constructor.
Qed.

Lemma sure_fs_commit c : (c <> ZERO_HASH -> linked_commit c) -> sure (mark_fs_commit st env policy c).
Proof.
  intros Hl. unfold mark_fs_commit. case_decide; [apply sure_pass|].
  apply sure_chain; [intros; eapply need_linked; eauto|intros; eapply need_linked_data; eauto].
Qed.

Lemma sure_linked recurse hex msg :
  (forall h, hex_to_hash_strict hex = Some h -> sure (recurse h)) -> sure (mark_linked recurse hex msg).
Proof.
  intros Hr. unfold mark_linked. destruct hex as [|c hex]; [apply sure_pass|].
  destruct (hex_to_hash_strict (c :: hex)) as [h|]; [by apply Hr|apply sure_fail].
Qed.

Lemma sure_required k hex :
  (forall h, hex_to_hash_strict hex = Some h -> needed k h) -> sure (mark_required_hex_blob hex).
Proof.
  intros Hr. unfold mark_required_hex_blob. destruct hex as [|c hex]; [apply sure_pass|].
  destruct (hex_to_hash_strict (c :: hex)) as [h|]; [by eapply sure_mark, Hr|apply sure_fail].
Qed.

Lemma sure_opaque k v :
  (forall h, hex_to_hash_strict v = Some h -> needed k h) -> sure (mark_opaque_cas_ref v).
Proof.
  intros Hr. unfold mark_opaque_cas_ref.
  destruct (hex_to_hash_strict v) as [h|]; [by eapply sure_mark, Hr|apply sure_pass].
Qed.

Lemma sure_records fuel :
  (forall id, needed IState id -> sure (mark_state_record st env policy fuel id)) /\
  (forall id, needed IUnion id -> sure (mark_union_state st env policy fuel id)).
Proof.
  induction fuel as [|fuel [IHs IHu]]; [by split|].
  split; intros id Hn s s' H; cbn [mark_state_record mark_union_state] in H;
    (case_decide as Ht; [by seq_inv|]); revert H; (apply sure_andthen; [apply sure_upd; by intros []|]).
  - destruct (read_agent_state_record st _ id) as [r|] eqn:Er; [|apply sure_lost].
    apply read_agent_state_io in Er. apply sure_andthen; [by eapply sure_mark|].
    apply sure_andthen; [apply (sure_required IObject); intros; eapply need_state_object; eauto|].
    apply sure_andthen; [apply sure_each; intros; eapply sure_mark, need_state_object; eauto|].
    apply sure_andthen; [apply sure_fs_commit; by eapply link_state|].
    apply sure_andthen; [apply sure_linked; intros; by eapply IHu, need_state_union|].
    apply sure_each. intros pid Hp. apply sure_linked. intros. by eapply IHs, need_state_parent.
  - destruct (read_union_runtime_state st _ id) as [r|] eqn:Er; [|apply sure_lost].
    apply read_union_state_io in Er. apply sure_andthen; [by eapply sure_mark|].
    apply sure_andthen; [apply sure_fs_commit; by eapply link_union|].
    do 2 (apply sure_andthen; [apply (sure_opaque IObject); intros; eapply need_union_object; eauto|]).
    apply sure_andthen; apply sure_linked; intros;
      [by eapply IHs, need_union_state|by eapply IHu, need_union_parent].
Qed.

Lemma sure_marks l : (forall h, h ∈ l -> live_object h) -> sure (each mark_hash l).
Proof. intros Hl. apply sure_each. intros h Hh. by eapply sure_mark, need_live, Hl. Qed.

Lemma sure_end (o : fault) (msg : str -> str) :
  sure (match o with Some m => fail (msg m) | None => pass end).
Proof. destruct o; auto with ctx. Qed.

Lemma sure_counted f a : 
  (forall s, marked (f s) = marked s /\ retained_data (f s) = retained_data s) -> sure a -> sure (upd f;; a).
Proof. intros Hf Ha. apply sure_andthen; [by apply sure_upd|done]. Qed.

Lemma sure_mark_all : sure (mark_all st env policy roots refs live).
Proof.
  unfold mark_all. apply sure_andthen; [|apply sure_andthen; [|apply sure_andthen]].
  - unfold mark_branches. destruct (list_refs _ _ _) as [names|] eqn:El; [|apply sure_fail].
    apply sure_andthen; apply sure_each; intros n Hn.
    { unfold expect_ref. case_decide; [apply sure_pass|apply sure_fail]. }
    unfold mark_ref. destruct (read_ref _ n refs) as [h|] eqn:Er; [|apply sure_fail].
    apply sure_counted; [by intros []|].
    assert (branch_head h) by (exists names, n; done).
    apply sure_chain; [intros; by eapply need_branch|intros; by eapply need_branch_data].
  - unfold mark_latest. destruct (latest_fault roots); [apply sure_fail|].
    apply sure_andthen; [|apply sure_end]. apply sure_each. intros d Hd. unfold mark_agent_dir.
    destruct (ad_type d) as [|[]] eqn:Ed; [apply sure_fail| |apply sure_pass].
    destruct (ad_open_fault d); [apply sure_fail|]. apply sure_andthen; [|apply sure_end].
    apply sure_each. intros r Hr. unfold mark_latest_ref.
    destruct (lr_type r) as [|[]] eqn:Et; [apply sure_fail| |apply sure_pass].
    destruct (parse_latest_ref _ _) as [id|] eqn:Ep; [|apply sure_fail].
    apply sure_counted; [by intros []|]. apply sure_records, need_latest. by exists d, r.
  - apply sure_each. intros h Hh. apply sure_counted; [by intros []|]. by apply sure_records, need_runtime.
  - do 4 (apply sure_andthen; [apply sure_marks; unfold live_object; tauto|]).
    intros s s' H Hs. revert H Hs. assert (forall l, (forall c, c ∈ l -> sound s -> needed ISnapshot c) ->
      each (mark_commit_data st env) l s = (s', Done) -> sound s -> sound s') as Hl.
    { intros l Hl He Hs. eapply sure_each; [|done|done]. intros c Hc. unfold mark_commit_data.
      destruct (load_commit st _ c) as [[cd| |]|] eqn:E; [|apply sure_fail|by intros ? ? ?|apply sure_lost].
      apply sure_tree. eapply need_tree; [by eapply Hl|by eapply load_commit_io]. }
    apply Hl. intros c Hc Hs. by apply (sound_retained _ Hs).
Qed.

Lemma mark_all_exact w s :
  (forall x, window_io env x = true) ->
  mark_all st env policy roots refs live (start_mark w) = (s, Done) ->
  forall h, h ∈ marked s <-> exists k, needed k h.
Proof.
  intros Hio H h. split.
  - apply (sound_marked s), (sure_mark_all _ _ H). split; simpl; set_solver.
  - intros [k Hk]. apply mark_all_complete in H. eapply complete_marked; [done|].
    by apply (complete_needed _ Hio H).
Qed.

End roots.
End closure.
