(* ===== verification/GcFuel.v ===== *)
(** The mark phase of the collector terminates: budgets that each visit shrinks. *)

From S2P Require Import Prelude Hashes WorkingTree Codec ObjectStore History Refs AgentState RuntimeState Gc GcMark.

(** ** Termination: the fuel is enough *)

Section fuel.
Context {st : ObjectStore} {env : GcEnv} {policy : GcPolicy}.

Abbreviation weight := (weight st).

(** Some stored commit makes the decoder read out of bounds. *)
Definition wild_commit : Prop := exists c, load_commit st true c = Some OutOfBounds.

Definition ends (a : action) (s : MarkState) : Prop :=
  match (a s).2 with NoFuel => False | Undefined => wild_commit | _ => True end.

Lemma ends_andthen a b s : ends a s -> (forall s', a s = (s', Done) -> ends b s') -> ends (a;; b) s.
Proof. unfold ends, andthen. intros Ha Hb. destruct (a s) as [s' []]; try done. by apply Hb. Qed.

(** [each] ends if every turn does, from any state past [s]. *)
Lemma ends_each {A} (f : A -> action) (P : A -> MarkState -> Prop) l s :
  (forall x, @does st env policy (f x) (P x)) ->
  (forall x s', x ∈ l -> ext s s' -> ends (f x) s') -> ends (each f l) s.
Proof.
  intros Hd. revert s. induction l as [|x l IH]; intros s He; cbn [each]; [done|].
  apply ends_andthen; [apply He; [by left|done]|].
  intros s' Hs. apply Hd in Hs as [[Hx _ _ _] _]. apply IH. intros y s2 Hy Hx2.
  apply He; [by right|]. by etransitivity.
Qed.

Lemma ends_lost h msg s : ends (lost st env h msg) s.
Proof. done. Qed.

Definition tree_budget (s : MarkState) : nat := size (dom (disk st) ∖ m_trees s).

Lemma visit_smaller (D X Y : gset Hash) t :
  t ∈ D -> (t ∉ X) -> {[t]} ∪ X ⊆ Y -> (size (D ∖ Y) < size (D ∖ X))%nat.
Proof. intros. apply subset_size. set_solver. Qed.

Lemma visit_no_larger (D X Y : gset Hash) : X ⊆ Y -> (size (D ∖ Y) <= size (D ∖ X))%nat.
Proof. intros. apply subseteq_size. set_solver. Qed.

Lemma ends_tree fuel t s : (tree_budget s < fuel)%nat -> ends (mark_tree_recursive st env fuel t) s.
Proof.
  revert t s. induction fuel as [|fuel IH]; intros t s Hb; [lia|].
  unfold ends. cbn [mark_tree_recursive]. case_decide as Ht; [done|].
  match goal with |- match (?a s).2 with _ => _ end => change (ends a s) end.
  apply ends_andthen; [done|]. intros s1 [= <-].
  destruct (read_tree st (read_io env t) t) as [body|] eqn:Er; [|apply ends_lost].
  destruct (deserialize_tree_entries body) as [entries| |] eqn:Ed; [|done|].
  2:{ by apply deserialize_tree_entries_safe in Ed. }
  apply (ends_each _ entry_done).
  - intros e. apply does_entry, does_tree.
  - intros e s2 _ Hx. unfold mark_entry.
    destruct (e_kind e.2); try (by case_decide); [|done].
    apply IH. apply read_object_dom in Er.
    enough (tree_budget s2 < tree_budget s)%nat by lia.
    apply (visit_smaller _ _ _ t); [done|done|].
    etransitivity; [|apply (ext_trees _ _ Hx)]. by destruct s.
Qed.

Lemma ends_chain_loop fuel head w queue seen s :
  (length queue + weight seen < fuel)%nat -> ends (chain_loop st env policy fuel head w queue seen) s.
Proof.
  revert queue seen s. induction fuel as [|fuel IH]; intros queue seen s Hf; [lia|].
  unfold ends. cbn [chain_loop]. destruct queue as [|cur queue]; [done|]. simpl in Hf.
  case_decide as Hc; [apply IH; lia|].
  destruct (load_commit st (read_io env cur) cur) as [[cd| |]|] eqn:E; [|done| |done].
  - match goal with |- match (?a s).2 with _ => _ end => change (ends a s) end.
    do 2 (apply ends_andthen; [done|]; intros ? _). apply IH.
    destruct (load_commit_size _ _ _ _ E) as (o & Ho & Hl).
    rewrite (weight_visit st seen cur o) in Hf by done.
    rewrite length_app, length_rev. lia.
  - exists cur. by eapply load_commit_io.
Qed.

Lemma ends_window n head : window_walk st env n head = None -> wild_commit.
Proof.
  revert head. induction n as [|n IH]; intros head H; simpl in H; [done|].
  destruct (load_commit st (window_io env head) head) as [[cd| |]|] eqn:E; try done.
  - destruct (parents cd) as [|p rest]; [done|]. destruct (window_walk st env n p) eqn:Ew; [done|]. by eapply IH.
  - exists head. by eapply load_commit_io.
Qed.

Lemma ends_chain head ap s : ends (mark_commit_chain st env policy head ap) s.
Proof.
  unfold mark_commit_chain. destruct (keep_last_set st env policy head ap) as [w|] eqn:Ew.
  - apply ends_chain_loop. unfold chain_fuel, weight. simpl.
    rewrite map_filter_id; [lia|]. intros; set_solver.
  - unfold ends. simpl. unfold keep_last_set in Ew. destruct (keep_last policy); [|done].
    destruct ap; [|done]. by eapply ends_window.
Qed.

Lemma ends_fs_commit c s : ends (mark_fs_commit st env policy c) s.
Proof. unfold mark_fs_commit. case_decide; [done|]. apply ends_chain. Qed.

Lemma ends_linked recurse hex msg s : (forall h, ends (recurse h) s) -> ends (mark_linked recurse hex msg) s.
Proof.
  intros H. unfold mark_linked. destruct hex as [|c hex]; [done|].
  destruct (hex_to_hash_strict (c :: hex)); [apply H|done].
Qed.

Definition record_budget (s : MarkState) : nat :=
  size (dom (disk st) ∖ m_state_records s) + size (dom (disk st) ∖ m_union_states s).

Lemma ends_required hex s : ends (mark_required_hex_blob hex) s.
Proof.
  unfold mark_required_hex_blob. destruct hex as [|c hex]; [done|].
  by destruct (hex_to_hash_strict (c :: hex)).
Qed.

Lemma ends_opaque v s : ends (mark_opaque_cas_ref v) s.
Proof. unfold mark_opaque_cas_ref. by destruct (hex_to_hash_strict v). Qed.

Lemma record_budget_ext s s' : ext s s' -> (record_budget s' <= record_budget s)%nat.
Proof.
  intros [_ _ _ Hs Hu]. unfold record_budget.
  pose proof (visit_no_larger (dom (disk st)) _ _ Hs). pose proof (visit_no_larger (dom (disk st)) _ _ Hu). lia.
Qed.

Lemma read_state_dom io id r : read_agent_state_record st io id = Ok r -> id ∈ dom (disk st).
Proof.
  unfold read_agent_state_record. destruct (read_blob st io id) eqn:E; [|done]. intros _. by eapply read_blob_dom.
Qed.

Lemma read_union_dom io id r : read_union_runtime_state st io id = Ok r -> id ∈ dom (disk st).
Proof.
  unfold read_union_runtime_state. destruct (read_blob st io id) eqn:E; [|done]. intros _. by eapply read_blob_dom.
Qed.

Lemma record_budget_state id s s' :
  id ∈ dom (disk st) -> (id ∉ m_state_records s) -> ext (add_state id s) s' ->
  (record_budget s' < record_budget s)%nat.
Proof.
  intros Hd Hn [_ _ _ Hs Hu]. unfold record_budget. destruct s; simpl in *.
  pose proof (visit_smaller _ _ _ id Hd Hn Hs). pose proof (visit_no_larger (dom (disk st)) _ _ Hu). lia.
Qed.

Lemma record_budget_union id s s' :
  id ∈ dom (disk st) -> (id ∉ m_union_states s) -> ext (add_union id s) s' ->
  (record_budget s' < record_budget s)%nat.
Proof.
  intros Hd Hn [_ _ _ Hs Hu]. unfold record_budget. destruct s; simpl in *.
  pose proof (visit_smaller _ _ _ id Hd Hn Hu). pose proof (visit_no_larger (dom (disk st)) _ _ Hs). lia.
Qed.

(** Sequencing with the knowledge that the first part only adds marks. *)
Lemma ends_then a b P (s0 s : MarkState) :
  @does st env policy a P -> ext s0 s -> ends a s ->
  (forall s', ext s0 s' -> ends b s') -> ends (a;; b) s.
Proof.
  intros Hd Hx Ha Hb. apply ends_andthen; [done|]. intros s' Hs. apply Hd in Hs as [[Hx' _ _ _] _].
  apply Hb. by etransitivity.
Qed.

Lemma ends_records fuel :
  (forall id s, (record_budget s < fuel)%nat -> ends (mark_state_record st env policy fuel id) s) /\
  (forall id s, (record_budget s < fuel)%nat -> ends (mark_union_state st env policy fuel id) s).
Proof.
  induction fuel as [|fuel [IHs IHu]]; [split; intros; lia|].
  destruct (@does_records st env policy fuel) as [Ds Du].
  split; intros id s Hb; unfold ends; cbn [mark_state_record mark_union_state]; (case_decide as Ht; [done|]);
    match goal with |- match (?a s).2 with _ => _ end => change (ends a s) end;
    (apply ends_andthen; [done|]; intros s1 [= <-]).
  - destruct (read_agent_state_record st _ id) as [r|] eqn:Er; [|apply ends_lost].
    apply read_state_dom in Er.
    assert (forall s', ext (add_state id s) s' -> (record_budget s' < fuel)%nat) as Hbud.
    { intros s' Hx. pose proof (record_budget_state _ _ _ Er Ht Hx). lia. }
    eapply ends_then; [apply does_mark|reflexivity|done|intros s2 H2].
    eapply ends_then; [apply does_required_hex|exact H2|apply ends_required|intros s3 H3].
    eapply ends_then; [apply (does_each _ in_marked); [apply persists_in_marked|intros; apply does_mark]|exact H3| |].
    { apply (ends_each _ in_marked); [intros; apply does_mark|done]. }
    intros s4 H4. eapply ends_then; [apply does_fs_commit|exact H4|apply ends_fs_commit|intros s5 H5].
    eapply ends_then; [apply (does_linked _ in_unions), Du|exact H5|apply ends_linked; auto|intros s6 H6].
    apply (ends_each _ (fun pid => linked pid in_states)); [intros; by apply does_linked|].
    intros pid s7 _ H7. apply ends_linked. intros h. apply IHs, Hbud. by etransitivity.
  - destruct (read_union_runtime_state st _ id) as [r|] eqn:Er; [|apply ends_lost].
    apply read_union_dom in Er.
    assert (forall s', ext (add_union id s) s' -> (record_budget s' < fuel)%nat) as Hbud.
    { intros s' Hx. pose proof (record_budget_union _ _ _ Er Ht Hx). lia. }
    eapply ends_then; [apply does_mark|reflexivity|done|intros s2 H2].
    eapply ends_then; [apply does_fs_commit|exact H2|apply ends_fs_commit|intros s3 H3].
    eapply ends_then; [apply does_opaque|exact H3|apply ends_opaque|intros s4 H4].
    eapply ends_then; [apply does_opaque|exact H4|apply ends_opaque|intros s5 H5].
    eapply ends_then; [apply (does_linked _ in_states), Ds|exact H5|apply ends_linked; auto|intros s6 H6].
    apply ends_linked. auto.
Qed.

Lemma ends_marks l s : ends (each mark_hash l) s.
Proof. apply (ends_each _ in_marked); [apply does_mark|done]. Qed.

Lemma ends_data s : ends (fun s => each (mark_commit_data st env) (retained_data s) s) s.
Proof.
  change (ends (each (mark_commit_data st env) (retained_data s)) s).
  apply (ends_each _ (fun c s => exists cd, @commit_at st c cd /\ tree_hash cd ∈ m_trees s)).
  { intros c. apply does_commit_data. }
  intros c s' _ _. unfold mark_commit_data.
  destruct (load_commit st (read_io env c) c) as [[cd| |]|] eqn:E; [|done| |done].
  - apply ends_tree. unfold tree_budget, tree_fuel.
    assert (size (dom (disk st) ∖ m_trees s') <= size (dom (disk st)))%nat by (apply subseteq_size; set_solver).
    rewrite size_dom in *. lia.
  - exists c. by eapply load_commit_io.
Qed.

Lemma record_budget_fuel s : (record_budget s < record_fuel st)%nat.
Proof.
  unfold record_budget, record_fuel.
  assert (size (dom (disk st) ∖ m_state_records s) <= size (dom (disk st)))%nat by (apply subseteq_size; set_solver).
  assert (size (dom (disk st) ∖ m_union_states s) <= size (dom (disk st)))%nat by (apply subseteq_size; set_solver).
  rewrite size_dom in *. lia.
Qed.

Lemma ends_branches roots refs live s : ends (mark_branches st env policy roots refs live) s.
Proof.
  unfold mark_branches. destruct (list_refs _ _ _) as [names|]; [|done].
  apply ends_andthen.
  - apply (ends_each _ (fun _ _ => True)).
    + intros n. unfold expect_ref. case_decide; [apply does_pass|apply does_fail].
    + intros n s' _ _. unfold expect_ref. by case_decide.
  - intros s' _. apply (ends_each _ (fun _ _ => True)).
    + intros n. unfold mark_ref. destruct (read_ref _ n refs); [|apply does_fail].
      apply does_counted; [apply quiet_counts|]. by eapply does_weaken; [apply does_chain|].
    + intros n s2 _ _. unfold mark_ref. destruct (read_ref _ n refs); [|done].
      apply ends_andthen; [done|]. intros s3 _. apply ends_chain.
Qed.

Lemma ends_latest roots s : ends (mark_latest st env policy roots) s.
Proof.
  unfold mark_latest. destruct (latest_fault roots); [done|].
  assert (forall (o : fault) msg s, ends (match o with Some m => fail (msg m) | None => pass end) s) as Hend
    by (by intros []).
  assert (forall r s, ends (mark_latest_ref st env policy r) s) as Hr.
  { intros r s1. unfold mark_latest_ref. destruct (lr_type r) as [|[]]; [done| |done].
    destruct (parse_latest_ref _ _); [|done]. apply ends_andthen; [done|]. intros s2 _.
    apply ends_records, record_budget_fuel. }
  apply ends_andthen; [|intros s' _; apply Hend].
  apply (ends_each _ dir_done); [apply does_agent_dir|]. intros d s' _ _. unfold mark_agent_dir.
  destruct (ad_type d) as [|[]]; [done| |done]. destruct (ad_open_fault d); [done|].
  apply ends_andthen; [|intros s2 _; apply Hend].
  apply (ends_each _ ref_done); [apply does_latest_ref|]. auto.
Qed.

Lemma ends_mark_all roots refs live s : ends (mark_all st env policy roots refs live) s.
Proof.
  unfold mark_all. apply ends_andthen; [apply ends_branches|intros s1 _].
  apply ends_andthen; [apply ends_latest|intros s2 _].
  apply ends_andthen; [|intros s3 _].
  { apply (ends_each _ in_unions).
    - intros h. apply does_counted; [apply quiet_counts|]. apply does_records.
    - intros h s' _ _. apply ends_andthen; [done|]. intros s4 _. apply ends_records, record_budget_fuel. }
  do 4 (apply ends_andthen; [apply ends_marks|intros ? _]). apply ends_data.
Qed.

End fuel.
