(* ===== verification/GcSweep.v ===== *)
(** The sweep and the verify pass of the collector, and the properties of a whole
    collection. *)

From S2P Require Import Prelude Hashes WorkingTree Codec ObjectStore History Refs AgentState RuntimeState Gc GcMark GcFuel.

(** ** The sweep *)

Section sweep.
Context {senv : SweepEnv} {dry : bool} {m : gset Hash}.

(** What a sweep may do to a store. *)
Record swept (st st' : ObjectStore) : Prop := {
  sw_pending : pending_ st' = pending_ st;
  sw_objects : forall h, disk st' !! h = disk st !! h \/
    disk st' !! h = None /\ dry = false /\ (h ∉ m) /\ (h ∉ pending_ st) /\
    exists o, disk st !! h = Some o /\ (f_mtime o < mark_start senv - 2)%Z
}.

Lemma swept_refl st : swept st st.
Proof. split; [done|]. by left. Qed.

Lemma swept_trans st1 st2 st3 : swept st1 st2 -> swept st2 st3 -> swept st1 st3.
Proof.
  intros [P1 O1] [P2 O2]. split; [congruence|]. intros h.
  destruct (O2 h) as [E|(E & Hd & Hm & Hp & o & Ho & Ht)].
  - destruct (O1 h) as [E1|(E1 & H)]; [left; congruence|right]. split; [congruence|done].
  - right. rewrite P1 in Hp. split; [done|]. do 3 (split; [done|]).
    destruct (O1 h) as [E1|(E1 & _)]; [exists o; split; [congruence|done]|congruence].
Qed.

Lemma sweep_one_spec x st r st' r' :
  sweep_one senv dry m x (st, r) = (st', r') ->
  swept st st' /\
  (dry = false -> N.of_nat (size (disk st)) + swept_objects r = N.of_nat (size (disk st')) + swept_objects r') /\
  ((forall h, removal senv h = mkRemoveEnv None None) -> sweep_errors r' = sweep_errors r /\
    (dry = false -> forall o, disk st !! x.1.1 = Some o -> x.2 = f_mtime o -> (x.1.1 ∉ m) ->
     (x.1.1 ∉ pending_ st) -> (f_mtime o < mark_start senv - 2)%Z -> disk st' !! x.1.1 = None)).
Proof.
  destruct x as [[h sz] mt]. unfold sweep_one. cbn [fst snd].
  case_decide as Hm.
  { intros [= <- <-]. split; [apply swept_refl|]. destruct r; simpl.
    split; [intros; lia|]. intros _. split; [done|]. done. }
  destruct (Z.leb_spec (mark_start senv) (mt + 2)).
  { intros [= <- <-]. split; [apply swept_refl|].
    split; [intros; lia|]. intros _. split; [done|]. intros; lia. }
  destruct dry eqn:Hdry.
  { intros [= <- <-]. split; [apply swept_refl|]. split; [done|]. intros _. split; [by destruct r|done]. }
  destruct (remove_object_if_older_than _ _ _ st) as [st1 rr] eqn:Er.
  pose proof Er as Hsp. apply remove_object_spec in Hsp.
  assert ((forall h, removal senv h = mkRemoveEnv None None) -> forall o, disk st !! h = Some o ->
    (h ∉ pending_ st) -> (f_mtime o < mark_start senv - 2)%Z -> rr = Removed) as Hclean.
  { intros Hr o Ho Hp Ht. unfold remove_object_if_older_than in Er. rewrite Hr in Er. simpl in Er.
    rewrite decide_False, Ho in Er by done.
    destruct (Z.leb_spec (mark_start senv - 2) (f_mtime o)); [lia|]. by simplify_eq. }
  destruct rr as [| |msg].
  - destruct Hsp as (Hp & (o & Ho & Ht) & Hd & _ & Hpe & _). intros [= <- <-]. split.
    { split; [done|]. intros k. rewrite Hd. destruct (decide (k = h)) as [->|Hk].
      - right. rewrite lookup_delete_eq. do 4 (split; [done|]). by exists o.
      - left. by apply lookup_delete_ne. }
    split; [|intros _; split; [by destruct r|intros; rewrite Hd; apply lookup_delete_eq]].
    intros _. rewrite Hd, map_size_delete_Some by done.
    assert (size (disk st) <> 0)%nat by (apply map_size_ne_0_lookup; by exists h, o).
    destruct r; simpl. lia.
  - subst st1. intros [= <- <-]. split; [apply swept_refl|]. split; [intros; lia|].
    intros Hr. split; [done|]. intros _ o Ho _ _ Hp Ht. by specialize (Hclean Hr o Ho Hp Ht).
  - subst st1. intros [= <- <-]. split; [apply swept_refl|].
    split; [intros; destruct r, (_ <? _); simpl; lia|].
    intros Hr. exfalso. unfold remove_object_if_older_than in Er. rewrite Hr in Er. simpl in Er.
    case_decide; [done|]. destruct (disk st !! h); [|done]. by destruct (_ <=? _)%Z.
Qed.

Lemma sweep_spec l st r st' r' :
  sweep senv dry m l (st, r) = (st', r') ->
  swept st st' /\
  (dry = false -> N.of_nat (size (disk st)) + swept_objects r = N.of_nat (size (disk st')) + swept_objects r') /\
  ((forall h, removal senv h = mkRemoveEnv None None) -> sweep_errors r' = sweep_errors r /\
    (dry = false -> forall h o sz, (h, sz, f_mtime o) ∈ l -> disk st !! h = Some o -> (h ∉ m) ->
     (h ∉ pending_ st) -> (f_mtime o < mark_start senv - 2)%Z -> disk st' !! h = None)).
Proof.
  unfold sweep. revert st r. induction l as [|x l IH]; intros st r H; simpl in H.
  { injection H as <- <-. split; [apply swept_refl|]. split; [done|]. intros _. split; [done|].
    intros _ h o sz Hin. by apply elem_of_nil in Hin. }
  destruct (sweep_one senv dry m x (st, r)) as [st1 r1] eqn:E1.
  apply sweep_one_spec in E1 as (S1 & C1 & F1). apply IH in H as (S2 & C2 & F2).
  split; [by eapply swept_trans|]. split; [intros Hd; specialize (C1 Hd); specialize (C2 Hd); lia|].
  intros Hr. destruct (F1 Hr) as [Q1 G1], (F2 Hr) as [Q2 G2]. split; [congruence|].
  intros Hd h o sz Hin Ho Hm Hp Ht.
  assert (disk st1 !! h = None -> disk st' !! h = None) as Hgone.
  { intros Hn. destruct (sw_objects _ _ S2 h) as [E|[E _]]; congruence. }
  apply elem_of_cons in Hin as [<-|Hin]; [apply Hgone; by eapply G1|].
  destruct (sw_objects _ _ S1 h) as [E|[E _]]; [|auto].
  eapply G2; try done; [congruence|by rewrite (sw_pending _ _ S1)].
Qed.

End sweep.

(** The walk visits every object as it is on disk. *)
Definition listing_exact (senv : SweepEnv) (st : ObjectStore) : Prop :=
  exists visits, for_each_object (listing senv) (root_fault senv) = (visits, Ok ()) /\
    forall h o, disk st !! h = Some o -> exists sz, (h, sz, f_mtime o) ∈ visits.

(** The outcome of a run that marked. *)
Lemma run_swept st env policy roots refs live senv st' r m r0 :
  mark_impl st env policy roots refs live None = Marked m r0 ->
  run st env policy roots refs live senv = Some (st', r) ->
  exists visits walked r1 st1, for_each_object (listing senv) (root_fault senv) = (visits, walked) /\
    sweep senv (dry_run policy) m visits (st, r0) = (st1, r1) /\
    disk st' = disk st1 /\ swept_objects r = swept_objects r1 /\
    gc_ok r = is_ok walked && (sweep_errors r1 =? 0).
Proof.
  intros Hm. unfold run. rewrite Hm.
  destruct (for_each_object _ _) as [visits walked]. destruct (sweep _ _ _ _ _) as [st1 r1] eqn:Es.
  intros H. exists visits, walked, r1, st1. do 2 (split; [done|]).
  destruct walked as [[]|msg]; injection H as <- <-; destruct r1; simpl;
    (split; [by destruct (negb (dry_run policy) && _)|done]).
Qed.

Lemma mark_impl_inv st env policy roots refs live w m r :
  mark_impl st env policy roots refs live w = Marked m r ->
  exists s, mark_all st env policy roots refs live (start_mark w) = (s, Done) /\ m = marked s /\
    r = set_compacted (compacted_count s) (result_of s).
Proof.
  unfold mark_impl. destruct (mark_all _ _ _ _ _ _ _) as [s []]; [|intros H; discriminate H..].
  intros H. injection H as <- <-. by exists s.
Qed.

(** The missing vector only grows on the way to a failure. *)
Definition same_missing (a : action) : Prop := forall s s', a s = (s', Done) -> m_missing s' = m_missing s.

Lemma missing_andthen a b : same_missing a -> same_missing b -> same_missing (a;; b).
Proof. intros Ha Hb s s' H. seq_inv. etransitivity; [by eapply Hb|by eapply Ha]. Qed.

Lemma missing_pass : same_missing pass.
Proof. intros s s' H. by seq_inv. Qed.

Lemma missing_each {A} (f : A -> action) l : (forall x, same_missing (f x)) -> same_missing (each f l).
Proof. intros Hf. induction l as [|x l IH]; [apply missing_pass|]. by apply missing_andthen. Qed.

Lemma missing_upd f : (forall s, m_missing (f s) = m_missing s) -> same_missing (upd f).
Proof. by intros Hf s s' [= <-]. Qed.

Lemma missing_mark h : same_missing (upd (add_marked h)).
Proof. apply missing_upd. by intros []. Qed.

Section no_missing.
Context (st : ObjectStore) (env : GcEnv) (policy : GcPolicy).

Lemma missing_tree fuel t : same_missing (mark_tree_recursive st env fuel t).
Proof.
  revert t. induction fuel as [|fuel IH]; intros t s s' H; simpl in H; [done|].
  case_decide; [by seq_inv|]. revert H. apply missing_andthen; [apply missing_upd; by intros []|].
  destruct (read_tree _ _ _) as [body|]; [|done].
  destruct (deserialize_tree_entries body) as [entries| |]; [|done|done].
  apply missing_each. intros e. unfold mark_entry.
  destruct (e_kind e.2); [|apply IH| |apply missing_pass|];
    (case_decide; [apply missing_pass|apply missing_mark]).
Qed.

Lemma missing_chain head ap : same_missing (mark_commit_chain st env policy head ap).
Proof.
  unfold mark_commit_chain. destruct (keep_last_set _ _ _ _ _) as [w|]; [|done].
  generalize (chain_fuel st) ([head] : list Hash) (∅ : gset Hash). intros fuel.
  induction fuel as [|fuel IH]; intros queue seen s s' H; simpl in H; [done|].
  destruct queue as [|cur queue]; [by seq_inv|]. case_decide; [by eapply IH|].
  destruct (load_commit st _ cur) as [[cd| |]|]; try done.
  revert H. apply missing_andthen; [apply missing_mark|]. apply missing_andthen; [|apply IH].
  apply missing_upd. destruct (retain_data _ _ _ _ _); by intros [].
Qed.

Lemma missing_fs_commit c : same_missing (mark_fs_commit st env policy c).
Proof. unfold mark_fs_commit. case_decide; [apply missing_pass|apply missing_chain]. Qed.

Lemma missing_linked recurse hex msg :
  (forall h, same_missing (recurse h)) -> same_missing (mark_linked recurse hex msg).
Proof.
  intros Hr. unfold mark_linked. destruct hex as [|c hex]; [apply missing_pass|].
  by destruct (hex_to_hash_strict (c :: hex)).
Qed.

Lemma missing_blob_refs v :
  same_missing (mark_required_hex_blob v) /\ same_missing (mark_opaque_cas_ref v).
Proof.
  unfold mark_required_hex_blob, mark_opaque_cas_ref. split; [destruct v as [|c v]; [apply missing_pass|]|];
    (destruct (hex_to_hash_strict _); [apply missing_mark|]); [done|apply missing_pass].
Qed.

Lemma missing_records fuel :
  (forall id, same_missing (mark_state_record st env policy fuel id)) /\
  (forall id, same_missing (mark_union_state st env policy fuel id)).
Proof.
  induction fuel as [|fuel [IHs IHu]]; [by split|].
  split; intros id s s' H; cbn [mark_state_record mark_union_state] in H; (case_decide; [by seq_inv|]);
    revert H; (apply missing_andthen; [apply missing_upd; by intros []|]).
  - destruct (read_agent_state_record st _ id) as [r|]; [|done].
    do 2 (apply missing_andthen; [apply missing_mark || apply missing_blob_refs|]).
    apply missing_andthen; [apply missing_each; intros; apply missing_mark|].
    apply missing_andthen; [apply missing_fs_commit|].
    apply missing_andthen; [by apply missing_linked|]. apply missing_each. intros. by apply missing_linked.
  - destruct (read_union_runtime_state st _ id) as [us|]; [|done].
    apply missing_andthen; [apply missing_mark|]. apply missing_andthen; [apply missing_fs_commit|].
    do 2 (apply missing_andthen; [apply missing_blob_refs|]).
    apply missing_andthen; by apply missing_linked.
Qed.

Lemma missing_end (o : fault) (msg : str -> str) :
  same_missing (match o with Some m => fail (msg m) | None => pass end).
Proof. destruct o; [done|apply missing_pass]. Qed.

Lemma missing_mark_all roots refs live : same_missing (mark_all st env policy roots refs live).
Proof.
  unfold mark_all. apply missing_andthen; [|apply missing_andthen; [|apply missing_andthen]].
  - unfold mark_branches. destruct (list_refs _ _ _) as [names|]; [|done].
    apply missing_andthen; apply missing_each; intros n.
    + unfold expect_ref. case_decide; [apply missing_pass|done].
    + unfold mark_ref. destruct (read_ref _ n refs); [|done].
      apply missing_andthen; [apply missing_upd; by intros []|apply missing_chain].
  - unfold mark_latest. destruct (latest_fault roots); [done|]. apply missing_andthen; [|apply missing_end].
    apply missing_each. intros d. unfold mark_agent_dir. destruct (ad_type d) as [|[]]; [done| |apply missing_pass].
    destruct (ad_open_fault d); [done|]. apply missing_andthen; [|apply missing_end].
    apply missing_each. intros r. unfold mark_latest_ref. destruct (lr_type r) as [|[]]; [done| |apply missing_pass].
    destruct (parse_latest_ref _ _); [|done].
    apply missing_andthen; [apply missing_upd; by intros []|apply missing_records].
  - apply missing_each. intros h. apply missing_andthen; [apply missing_upd; by intros []|apply missing_records].
  - do 4 (apply missing_andthen; [apply missing_each; intros; apply missing_mark|]).
    intros s s' H. revert H. generalize (retained_data s). intros l.
    apply (missing_each (mark_commit_data st env)). intros c s1 s2. unfold mark_commit_data.
    destruct (load_commit _ _ _) as [[cd| |]|]; try done. apply missing_tree.
Qed.

End no_missing.

Lemma verify_fold st env l r :
  gc_missing (fold_left (fun r h => verify_one st env h r) l r) =
  gc_missing r ++ filter (fun h => object_exists st (exists_io env h) h = false) l.
Proof.
  revert r. induction l as [|h l IH]; intros r; simpl; [by rewrite app_nil_r|].
  rewrite IH. unfold verify_one. rewrite filter_cons.
  destruct (object_exists st (exists_io env h) h).
  - rewrite decide_False by done. by destruct r.
  - rewrite decide_True by done. destruct r as [a b c d e f g h' i j k w ms]; simpl.
    destruct (_ <? 2000); simpl; by rewrite <- app_assoc.
Qed.

(** Nothing needed goes, nor anything pending or fresh. *)
Lemma run_spares st env policy roots refs live senv st' r :
  (forall c, window_io env c = true) ->
  run st env policy roots refs live senv = Some (st', r) ->
  forall h, disk st' !! h = disk st !! h \/
     disk st' !! h = None /\ dry_run policy = false /\ (h ∉ pending_ st) /\
     (exists o, disk st !! h = Some o /\ (f_mtime o < mark_start senv - 2)%Z) /\
     (forall k, ~ @needed st policy roots refs live k h).
Proof.
  intros Hio Hr h. destruct (mark_impl st env policy roots refs live None) as [m r0|msg r0|] eqn:Em.
  - destruct (run_swept _ _ _ _ _ _ _ _ _ _ _ Em Hr) as (visits & walked & r1 & st1 & _ & Hs & Hd & _ & _).
    apply sweep_spec in Hs as ([_ Ho] & _). rewrite Hd.
    apply mark_impl_inv in Em as (s & Hs & -> & ->).
    pose proof (mark_all_exact _ _ _ _ _ Hio Hs) as Hex.
    destruct (Ho h) as [E|(E & Hdr & Hm & Hp & Hold)]; [by left|right].
    do 4 (split; [done|]). intros k Hk. apply Hm, Hex. by exists k.
  - unfold run in Hr. rewrite Em in Hr. injection Hr as <- <-. by left.
  - unfold run in Hr. by rewrite Em in Hr.
Qed.

(** ** Properties *)

(** C12. When the mark phase succeeds and the reads of its keep-last walk worked,
    the marked set is exactly the set of needed objects: the commits reachable
    from the branch references, state records and live runtimes, the trees and
    files of the commits the policy keeps, the state records and union states
    with everything they name, and the daemon's live objects. *)
Theorem gc_mark_exact st env policy roots refs live missing m r :
  (forall c, window_io env c = true) ->
  mark_impl st env policy roots refs live missing = Marked m r ->
  forall h, h ∈ m <-> exists k, @needed st policy roots refs live k h.
Proof.
  intros Hio (s & Hs & -> & _)%mark_impl_inv h. by eapply mark_all_exact.
Qed.

(** C36. The mark phase returns: every recursion and loop ends within its fuel on
    every store, cyclic ones included, and the only way to an undefined
    behaviour is a stored commit whose parent count makes the decoder read past
    its body. *)
Theorem gc_mark_terminates st env policy roots refs live missing :
  (mark_all st env policy roots refs live (start_mark missing)).2 <> NoFuel /\
  (mark_impl st env policy roots refs live missing = MarkUndefined ->
   exists c body, read_commit st true c = Some body /\ deserialize_commit body = OutOfBounds).
Proof.
  pose proof (@ends_mark_all st env policy roots refs live (start_mark missing)) as He.
  unfold ends in He. unfold mark_impl.
  destruct (mark_all _ _ _ _ _ _ _) as [s []]; simpl in He; try done.
  split; [done|]. intros _. destruct He as [c Hc]. unfold load_commit in Hc.
  destruct (read_commit st true c) as [body|] eqn:E; [|done]. injection Hc as Hc. by exists c, body.
Qed.

(** C11. When the reads of its keep-last walk work, a collection deletes only
    garbage: every object either stays as it is or
    was needed by nothing, not pending, and older than the fence two seconds
    before the run began. A dry run and a run whose mark phase failed delete
    nothing, the latter reporting the failure; and the swept count is the number
    of objects gone. *)
Theorem gc_run_safe st env policy roots refs live senv st' r :
  (forall c, window_io env c = true) ->
  run st env policy roots refs live senv = Some (st', r) ->
  (forall h, disk st' !! h = disk st !! h \/
     disk st' !! h = None /\ dry_run policy = false /\ (h ∉ pending_ st) /\
     (exists o, disk st !! h = Some o /\ (f_mtime o < mark_start senv - 2)%Z) /\
     (forall k, ~ @needed st policy roots refs live k h)) /\
  (dry_run policy = false -> N.of_nat (size (disk st)) = N.of_nat (size (disk st')) + swept_objects r) /\
  (forall msg r0, mark_impl st env policy roots refs live None = MarkFailed msg r0 ->
     st' = st /\ gc_ok r = false /\ gc_error r = msg).
Proof.
  intros Hio Hr. split; [by apply (run_spares _ _ _ _ _ _ _ _ _ Hio Hr)|].
  destruct (mark_impl st env policy roots refs live None) as [m r0|msg r0|] eqn:Em.
  - destruct (run_swept _ _ _ _ _ _ _ _ _ _ _ Em Hr) as (visits & walked & r1 & st1 & _ & Hs & Hd & Hn & _).
    apply sweep_spec in Hs as (_ & Hc & _). rewrite Hd, Hn.
    apply mark_impl_inv in Em as (s & Hs & -> & ->). split; [|done].
    intros Hdr. specialize (Hc Hdr). destruct s; simpl in Hc. lia.
  - unfold run in Hr. rewrite Em in Hr. injection Hr as <- <-.
    unfold mark_impl in Em. destruct (mark_all _ _ _ _ _ _ _) as [s []]; [discriminate Em| |discriminate Em..].
    injection Em as <- <-. destruct s; simpl. split; [intros; lia|]. intros msg' r1 Heq. by injection Heq as <- <-.
  - unfold run in Hr. by rewrite Em in Hr.
Qed.

(** C37. A collection leaves no old garbage: when the walk of objects/ and the
    removals meet no error, a run that marked ends well and every object that is
    not needed, not pending and older than the fence is gone. *)
Theorem gc_run_collects st env policy roots refs live senv st' r m r0 :
  (forall c, window_io env c = true) -> listing_exact senv st ->
  (forall h, removal senv h = mkRemoveEnv None None) -> dry_run policy = false ->
  mark_impl st env policy roots refs live None = Marked m r0 ->
  run st env policy roots refs live senv = Some (st', r) ->
  gc_ok r = true /\
  (forall h o, disk st !! h = Some o -> (forall k, ~ @needed st policy roots refs live k h) ->
     (h ∉ pending_ st) -> (f_mtime o < mark_start senv - 2)%Z -> disk st' !! h = None).
Proof.
  intros Hio (vs & Hvs & Hall) Hrm Hdry Em Hr.
  destruct (run_swept _ _ _ _ _ _ _ _ _ _ _ Em Hr) as (visits & walked & r1 & st1 & Hw & Hs & Hd & _ & Hok).
  rewrite Hw in Hvs. simplify_eq. apply sweep_spec in Hs as (_ & _ & Hc).
  destruct (Hc Hrm) as [Herr Hgone]. apply mark_impl_inv in Em as (s & Hs & -> & ->).
  pose proof (mark_all_exact _ _ _ _ _ Hio Hs) as Hex. split.
  - rewrite Hok, Herr. by destruct s.
  - intros h o Ho Hn Hp Ht. rewrite Hd. destruct (Hall h o Ho) as [sz Hin].
    eapply Hgone; try done. intros Hm. apply Hex in Hm as [k Hk]. by eapply Hn.
Qed.

(** A verify pass that marks reports exactly the needed objects that do not
    exist, each once, and says ok when there are none; one that cannot mark says
    not ok. *)
Theorem gc_verify_exact st env policy roots refs live order r :
  (forall c, window_io env c = true) -> (forall s, order s ≡ₚ elements s) ->
  verify st env policy roots refs live order = Some r ->
  match mark_impl st env policy roots refs live (Some []) with
  | Marked _ _ =>
      (forall h, h ∈ gc_missing r <->
         (exists k, @needed st policy roots refs live k h) /\
         object_exists st (exists_io env h) h = false) /\
      NoDup (gc_missing r) /\ missing_objects r = N.of_nat (length (gc_missing r)) /\
      (gc_ok r = true <-> gc_missing r = [])
  | _ => gc_ok r = false
  end.
Proof.
  intros Hio Hord. unfold verify.
  destruct (mark_impl _ _ _ _ _ _ _) as [m r0|msg r0|] eqn:Em; [| |done].
  2:{ intros [= <-]. unfold mark_impl in Em.
      destruct (mark_all _ _ _ _ _ _ _) as [s []]; [discriminate Em| |discriminate Em..].
      injection Em as <- <-. by destruct s. }
  pose proof (verify_fold st env (order m) r0) as Hf.
  destruct (fold_left _ (order m) r0) as [a b c d e f g h i j k w ms]. simpl in Hf. subst ms.
  intros [= <-]. simpl. apply mark_impl_inv in Em as (s & Hs & -> & ->).
  pose proof (missing_mark_all _ _ _ _ _ _ _ _ Hs) as Hmiss.
  pose proof (mark_all_exact _ _ _ _ _ Hio Hs) as Hex.
  replace (gc_missing (set_compacted (compacted_count s) (result_of s))) with (@nil Hash)
    by (destruct s; simpl in *; by subst).
  cbn [app]. set (l := filter _ _). pose proof (merge_sort_Permutation hash_le l) as Hp. split; [|split; [|split]].
  - intros x. rewrite Hp. unfold l. rewrite list_elem_of_filter, Hord, elem_of_elements, Hex. tauto.
  - rewrite Hp. unfold l. apply NoDup_filter. rewrite Hord. apply NoDup_elements.
  - done.
  - rewrite N.eqb_eq. destruct (merge_sort hash_le l); simpl; split; try done; lia.
Qed.

(** ** A small repository

    [main] is at [C2], whose parent is [C1]; each has a tree with one file, and
    one more object is named by nothing. *)

Definition hash_no (n : N) : Hash := vreplicate 32 (ascii_of_N n).
Definition C1 : Hash := hash_no 1.
Definition C2 : Hash := hash_no 2.
Definition T1 : Hash := hash_no 3.
Definition T2 : Hash := hash_no 4.
Definition B1 : Hash := hash_no 5.
Definition B2 : Hash := hash_no 6.
Definition stray : Hash := hash_no 7.

Definition commit_file (cd : CommitData) : ObjectFile := mkFile (lit "commit" ++ serialize_commit cd) 10.
Definition tree_file (name : str) (b : Hash) : ObjectFile :=
  mkFile (lit "tree" ++ serialize_tree_entries [(name, mkEntry Blob b 420)]) 10.
Definition blob_file (data : bytes) : ObjectFile := mkFile (lit "blob" ++ blob_body data) 10.

Definition gc_store : ObjectStore :=
  set_disk (list_to_map [
    (C1, commit_file (mkCommit T1 [] 1 100 (lit "first") 0));
    (C2, commit_file (mkCommit T2 [C1] 1 200 (lit "second") 0));
    (T1, tree_file (lit "a") B1); (T2, tree_file (lit "b") B2);
    (B1, blob_file (lit "one")); (B2, blob_file (lit "two")); (stray, blob_file (lit "lost"))])
    (empty_store (lit "/s")).

Definition gc_refs : Refs := mkRefs {[lit "main" := ref_content C2]} ∅.
Definition gc_roots : RootsEnv :=
  mkRoots None [(lit "main", inr true)] None (fun _ => reads_ok) None [] None.
Definition no_live : GcLiveRoots := mkLive [lit "main"] [] [] [] [] [].
Definition gc_reads_ok : GcEnv := mkGcEnv (fun _ => true) (fun _ => true) (fun _ => true).
Definition keep_two : GcPolicy := mkPolicy (Some 2) [] false.

Definition gc_visits : list dir_entry :=
  (fun h => (hash_to_hex h, Some (1, 10%Z))) <$> [C1; C2; T1; T2; B1; B2; stray].
Definition gc_sweep : SweepEnv :=
  mkSweep 100 [mkShard true gc_visits None] None (fun _ => mkRemoveEnv None None).

Definition marked_of (x : marking) : gset Hash := match x with Marked m _ => m | _ => ∅ end.
Definition stats_of (x : marking) : GcResult := match x with Marked _ r | MarkFailed _ r => r | _ => result_of (start_mark None) end.

(** A value is rebuilt from its parts, so that evaluation only has to find its
    constructor. *)
Lemma marking_parts x :
  match x with Marked _ _ => true | _ => false end = true -> x = Marked (marked_of x) (stats_of x).
Proof. by destruct x. Qed.

Lemma run_parts {A B} (o : option (A * B)) d :
  match o with Some _ => true | None => false end = true -> o = Some ((default d o).1, (default d o).2).
Proof. by destruct o as [[]|]. Qed.

Lemma verified_parts {A} (o : option A) d :
  match o with Some _ => true | None => false end = true -> o = Some (default d o).
Proof. by destruct o. Qed.

Definition gc_marking : marking := mark_impl gc_store gc_reads_ok keep_two gc_roots gc_refs no_live None.
Definition gc_after : ObjectStore * GcResult :=
  default (gc_store, stats_of gc_marking) (run gc_store gc_reads_ok keep_two gc_roots gc_refs no_live gc_sweep).

(** One failed read of [C2], in the keep-last walk. *)
Definition gc_read_fails : GcEnv :=
  mkGcEnv (fun _ => true) (fun h => negb (bool_decide (h = C2))) (fun _ => true).

Definition gc_lossy : ObjectStore * GcResult :=
  default (gc_store, stats_of gc_marking) (run gc_store gc_read_fails keep_two gc_roots gc_refs no_live gc_sweep).

(** The keep-last walk takes a failed read for the end of history: when the
    one read of the head fails there but works again in the walk over all
    parents, the collection succeeds and deletes the data of a commit inside the
    window, here the tree of the second of the two newest commits. *)
Theorem gc_window_read_failure_loses_data :
  @kept gc_store keep_two C2 true C1 (mkCommit T1 [] 1 100 (lit "first") 0) /\
  exists st' r, run gc_store gc_read_fails keep_two gc_roots gc_refs no_live gc_sweep = Some (st', r) /\
    gc_ok r = true /\ is_Some (disk gc_store !! T1) /\ disk st' !! T1 = None.
Proof.
  split.
  - right. left. split; [done|]. change (N.to_nat (N.max 1 2)) with 2%nat.
    apply (fp_next _ _ (mkCommit T2 [C1] 1 200 (lit "second") 0) C1 []); [|reflexivity|constructor].
    exact eq_refl.
  - exists gc_lossy.1, gc_lossy.2. split; [exact (run_parts (run gc_store gc_read_fails keep_two gc_roots gc_refs no_live gc_sweep) _ eq_refl)|].
    split; [exact eq_refl|].
    split; [|exact eq_refl]. by exists (tree_file (lit "a") B1).
Qed.

(** The collection and the verify pass of the small repository, evaluated once. *)
Lemma gc_marking_marked : gc_marking = Marked (marked_of gc_marking) (stats_of gc_marking).
Proof. exact (marking_parts gc_marking eq_refl). Qed.

Lemma gc_after_run :
  run gc_store gc_reads_ok keep_two gc_roots gc_refs no_live gc_sweep = Some (gc_after.1, gc_after.2).
Proof. exact (run_parts (run gc_store gc_reads_ok keep_two gc_roots gc_refs no_live gc_sweep) _ eq_refl). Qed.

Lemma gc_listing_exact : listing_exact gc_sweep gc_store.
Proof.
  exists ((fun h => (h, 1, 10%Z)) <$> [C1; C2; T1; T2; B1; B2; stray]). split; [exact eq_refl|].
  intros h o Ho. exists 1.
  apply elem_of_list_to_map_2 in Ho. rewrite !elem_of_cons, elem_of_nil in Ho.
  repeat destruct Ho as [Ho|Ho]; try done; injection Ho as -> ->; cbn [f_mtime]; set_solver.
Qed.

Lemma gc_mark_exact_witness :
  T1 ∈ marked_of gc_marking <-> exists k, @needed gc_store keep_two gc_roots gc_refs no_live k T1.
Proof.
  by apply (gc_mark_exact gc_store gc_reads_ok keep_two gc_roots gc_refs no_live None
    (marked_of gc_marking) (stats_of gc_marking)); [|apply gc_marking_marked].
Defined.

Lemma gc_run_safe_witness :
  disk gc_after.1 !! T1 = disk gc_store !! T1 \/
  disk gc_after.1 !! T1 = None /\ dry_run keep_two = false /\ (T1 ∉ pending_ gc_store) /\
  (exists o, disk gc_store !! T1 = Some o /\ (f_mtime o < mark_start gc_sweep - 2)%Z) /\
  (forall k, ~ @needed gc_store keep_two gc_roots gc_refs no_live k T1).
Proof.
  by apply (gc_run_safe gc_store gc_reads_ok keep_two gc_roots gc_refs no_live gc_sweep gc_after.1 gc_after.2);
    [|apply gc_after_run].
Defined.

Lemma gc_run_collects_witness : gc_ok gc_after.2 = true.
Proof.
  apply (gc_run_collects gc_store gc_reads_ok keep_two gc_roots gc_refs no_live gc_sweep gc_after.1 gc_after.2
    (marked_of gc_marking) (stats_of gc_marking)); [done|apply gc_listing_exact|done|done| |].
  - apply gc_marking_marked.
  - apply gc_after_run.
Defined.

Definition gc_verified : GcResult :=
  default (stats_of gc_marking) (verify gc_store gc_reads_ok keep_two gc_roots gc_refs no_live elements).

Lemma gc_verify_exact_witness : gc_ok gc_verified = true <-> gc_missing gc_verified = [].
Proof.
  pose proof (gc_verify_exact gc_store gc_reads_ok keep_two gc_roots gc_refs no_live elements gc_verified
    ltac:(done) ltac:(done) 
    (verified_parts (verify gc_store gc_reads_ok keep_two gc_roots gc_refs no_live elements) _ eq_refl)) as H.
  rewrite (marking_parts (mark_impl gc_store gc_reads_ok keep_two gc_roots gc_refs no_live (Some [])) eq_refl) in H.
  apply H.
Defined.
