(* ===== verification/BranchRouter.v ===== *)
(** Routing a process to a branch by its control group (cas/branch_router.h,
    cas/branch_router.cpp, cas/bpf/routing_fence.bpf.c).

    [resolve] takes the router's mutex up to three times and reads the kernel
    in between, so it is a state machine, [resolve_step], one step per locked
    section or kernel read. [step] interleaves the calls of many threads with
    registrations, evictions and the kernel's own changes, and the theorems
    are about the states such runs reach. *)

From S2P Require Import Prelude.

(** ** The kernel *)

Abbreviation Pid := Z (only parsing).

(** The cgroup hierarchy (directory to inode), the membership of each live
    process as /proc spells it, the next inode, and the fence's counter and
    table. Inodes are not reused. *)
Record World : Type := mkWorld {
  dirs : gmap str N;
  members : gmap Z str;
  next_inode : N;
  fence_gen : N;
  tracked_pids : gset Z
}.

Definition cgroup_mount : str := lit "/sys/fs/cgroup".

(** Path resolution ignores a trailing separator. *)
Definition resolved_path (path : str) : str :=
  match last path with
  | Some c => if decide (c = slash) then take (length path - 1) path else path
  | None => path
  end.

(** [stat]: the inode of a directory, 0 when there is none. *)
Definition cgroup_id (w : World) (path : str) : N := default 0 (dirs w !! resolved_path path).

(** The scan of /proc/<pid>/cgroup: the rest of the first line that starts
    with [0::]. [bol]: at the start of a line. *)
Definition line_of (l : bytes) : str :=
  match find_char newline l with Some i => take i l | None => l end.

Fixpoint scan_cgroup (bol : bool) (l : bytes) : str :=
  match l with
  | [] => []
  | c :: l' =>
      if bol && has_prefix (lit "0::") l then line_of (drop 3 l)
      else scan_cgroup (bool_decide (c = newline)) l'
  end.

(** [None]: the file cannot be opened. One [read] of at most 4095 bytes; a
    zero byte ends the text. *)
Definition read_proc_cgroup (content : option bytes) : str :=
  match content with
  | None => []
  | Some b =>
      let buf := take 4095 b in
      scan_cgroup true (match find_char zero buf with Some i => take i buf | None => buf end)
  end.

(** What /proc shows for a member. *)
Definition proc_file (w : World) (pid : Z) : option bytes :=
  (fun rel => lit "0::" ++ rel ++ [newline]) <$> members w !! pid.

Definition proc_cgroup (w : World) (pid : Z) : str := read_proc_cgroup (proc_file w pid).

Definition kMaxTracked : nat := 4096.

(** [bpf_map_update_elem] on the table of tracked processes. *)
Definition track (w : World) (pid : Z) : World * bool :=
  if decide (pid ∈ tracked_pids w \/ (size (tracked_pids w) < kMaxTracked)%nat)
  then (mkWorld (dirs w) (members w) (next_inode w) (fence_gen w) ({[pid]} ∪ tracked_pids w), true)
  else (w, false).

(** The two programs of the fence. *)
Definition on_cgroup_attach (w : World) : World :=
  mkWorld (dirs w) (members w) (next_inode w) (u64 (fence_gen w + 1)) (tracked_pids w).

Definition on_process_exit (w : World) (tid : Z) : World :=
  if decide (tid ∈ tracked_pids w)
  then mkWorld (dirs w) (members w) (next_inode w) (u64 (fence_gen w + 1)) (tracked_pids w ∖ {[tid]})
  else w.

(** ** The router *)

Record PathEntry : Type := mkPathEntry { leaf_cgroup_id : N; pe_branch : N }.
Record FenceEntry : Type := mkFenceEntry { fe_branch : N; fe_generation : N }.

Definition kPathCacheCap : nat := 1024.
Definition kFenceCacheCap : nat := 4096.

Record BranchRouter : Type := mkRouter {
  cgroup_branch_map_ : gmap N N;
  path_branch_cache_ : gmap str PathEntry;
  pid_fence_cache_ : gmap Z FenceEntry;
  generation_ : N;
  revalidate_leaf_ : bool;
  fence_on : bool
}.

Definition new_router (revalidate fence : bool) : BranchRouter := mkRouter ∅ ∅ ∅ 0 revalidate fence.

(** The registrations changed: both caches are dropped. *)
Definition changed (m : gmap N N) (gen : N) (r : BranchRouter) : BranchRouter :=
  mkRouter m ∅ ∅ gen (revalidate_leaf_ r) (fence_on r).

Definition bump (r : BranchRouter) : N := u64 (generation_ r + 1).

(** The locked part of each operation; [cg_id] was read before. *)
Definition register_locked (cg_id branch_id : N) (r : BranchRouter) : BranchRouter :=
  changed (<[cg_id := branch_id]> (cgroup_branch_map_ r)) (bump r) r.

Definition register_cgroup (w : World) (cgroup_path : str) (branch_id : N) (r : BranchRouter) :
    BranchRouter * bool :=
  let cg_id := cgroup_id w cgroup_path in
  if decide (cg_id = 0) then (r, false) else (register_locked cg_id branch_id r, true).

Definition unregister_locked (cg_id : N) (r : BranchRouter) : BranchRouter * bool :=
  let erased := bool_decide (is_Some (cgroup_branch_map_ r !! cg_id)) in
  (changed (delete cg_id (cgroup_branch_map_ r)) (if erased then bump r else generation_ r) r, erased).

Definition unregister_cgroup (w : World) (cgroup_path : str) (r : BranchRouter) :
    BranchRouter * bool :=
  let cg_id := cgroup_id w cgroup_path in
  if decide (cg_id = 0) then (r, false) else unregister_locked cg_id r.

Definition evict_cgroup_id (cg_id : N) (r : BranchRouter) : BranchRouter :=
  changed (delete cg_id (cgroup_branch_map_ r)) (bump r) r.

Definition invalidate_branch (branch_id : N) (r : BranchRouter) : BranchRouter :=
  changed (filter (fun x => x.2 <> branch_id) (cgroup_branch_map_ r)) (bump r) r.

Definition set_leaf_revalidation (on : bool) (r : BranchRouter) : BranchRouter :=
  mkRouter (cgroup_branch_map_ r) (path_branch_cache_ r) (pid_fence_cache_ r) (generation_ r) on
    (fence_on r).

Definition has_cgroup_for_branch (branch_id : N) (r : BranchRouter) : bool :=
  existsb (fun x => x.2 =? branch_id) (map_to_list (cgroup_branch_map_ r)).

Definition set_fence_cache (c : gmap Z FenceEntry) (r : BranchRouter) : BranchRouter :=
  mkRouter (cgroup_branch_map_ r) (path_branch_cache_ r) c (generation_ r) (revalidate_leaf_ r)
    (fence_on r).

Definition set_path_cache (c : gmap str PathEntry) (r : BranchRouter) : BranchRouter :=
  mkRouter (cgroup_branch_map_ r) c (pid_fence_cache_ r) (generation_ r) (revalidate_leaf_ r)
    (fence_on r).

Definition fence_cache_store (pid : Z) (branch_id gen : N) (r : BranchRouter) : BranchRouter :=
  let c := if (kFenceCacheCap <=? size (pid_fence_cache_ r))%nat then ∅ else pid_fence_cache_ r in
  set_fence_cache (<[pid := mkFenceEntry branch_id gen]> c) r.

(** [if (fence_cache) fence_cache_store(...)]. *)
Definition fence_store_if (fence : option N) (pid : Z) (branch_id : N) (r : BranchRouter) :
    BranchRouter :=
  match fence with Some gen => fence_cache_store pid branch_id gen r | None => r end.

Definition path_cache_store (rel : str) (e : PathEntry) (r : BranchRouter) : BranchRouter :=
  let c := if (kPathCacheCap <=? size (path_branch_cache_ r))%nat then ∅ else path_branch_cache_ r in
  set_path_cache (<[rel := e]> c) r.

(** The paths [cgroup_path_ids] stats, leaf first. *)
Definition parent_cgroup (path : str) : option str :=
  if decide (path = cgroup_mount) then None else
  match rfind_char slash path with
  | None => None
  | Some i => if decide (i <= length cgroup_mount)%nat then None else Some (take i path)
  end.

Fixpoint walk_paths (fuel : nat) (path : str) : list str :=
  match fuel with
  | O => []
  | S fuel' =>
      match path with
      | [] => []
      | _ => path :: match parent_cgroup path with
                     | Some p => walk_paths fuel' p
                     | None => []
                     end
      end
  end.

Definition cgroup_chain (path : str) : list str := walk_paths (length path) path.

(** [if (id != 0) ids.push_back(id)]. *)
Definition push_id (ids : list N) (id : N) : list N := if decide (id = 0) then ids else ids ++ [id].

Definition cgroup_path_ids (w : World) (path : str) (leaf : N) : list N :=
  fold_left push_id
    (match cgroup_chain path with [] => [] | _ :: up => leaf :: map (cgroup_id w) up end) [].

Fixpoint branch_for_cgroup_ids (m : gmap N N) (ids : list N) : N :=
  match ids with
  | [] => 0
  | id :: rest => match m !! id with Some b => b | None => branch_for_cgroup_ids m rest end
  end.

(** ** [resolve] *)

(** Where a call is. [fence] holds [fence_gen] when the call may fill the
    fence cache. *)
Inductive pc : Type :=
| FastGen (pid : Z)
| FastLookup (pid : Z) (gen : N)
| Track (pid : Z)
| SampleGen (pid : Z)
| ReadCgroup (pid : Z) (fence : option N)
| LoadFlag (pid : Z) (fence : option N) (rel : str)
| LeafStat (pid : Z) (fence : option N) (rel : str)
| CacheLookup (pid : Z) (fence : option N) (rel : str) (check_leaf : bool) (leaf : N)
| MissStat (pid : Z) (fence : option N) (rel : str) (miss_gen : N)
| Walk (pid : Z) (fence : option N) (rel : str) (leaf : N) (todo : list str) (ids : list N)
    (miss_gen : N)
| Finished (pid : Z) (branch_id : N).

Definition pc_pid (c : pc) : Z :=
  match c with
  | FastGen p | FastLookup p _ | Track p | SampleGen p | ReadCgroup p _ | LoadFlag p _ _
  | LeafStat p _ _ | CacheLookup p _ _ _ _ | MissStat p _ _ _ | Walk p _ _ _ _ _ _
  | Finished p _ => p
  end.

Definition resolve_begin (r : BranchRouter) (pid : Z) : pc :=
  if fence_on r then FastGen pid else ReadCgroup pid None.

Definition abs_path (rel : str) : str := cgroup_mount ++ rel.

(** The walk starts with the leaf already read. *)
Definition begin_walk (pid : Z) (fence : option N) (rel : str) (leaf miss_gen : N) : pc :=
  match cgroup_chain (abs_path rel) with
  | [] => Walk pid fence rel leaf [] [] miss_gen
  | _ :: up => Walk pid fence rel leaf up (push_id [] leaf) miss_gen
  end.

Definition resolve_step (w : World) (r : BranchRouter) (c : pc) : World * BranchRouter * pc :=
  match c with
  | FastGen pid => (w, r, FastLookup pid (fence_gen w))
  | FastLookup pid gen =>
      (w, r, match pid_fence_cache_ r !! pid with
             | Some e => if decide (fe_generation e = gen) then Finished pid (fe_branch e) else Track pid
             | None => Track pid
             end)
  | Track pid =>
      let '(w', ok) := track w pid in (w', r, if ok : bool then SampleGen pid else ReadCgroup pid None)
  | SampleGen pid => (w, r, ReadCgroup pid (Some (fence_gen w)))
  | ReadCgroup pid fence =>
      (w, r, match proc_cgroup w pid with [] => Finished pid 0 | rel => LoadFlag pid fence rel end)
  | LoadFlag pid fence rel =>
      (w, r, if revalidate_leaf_ r then LeafStat pid fence rel else CacheLookup pid fence rel false 0)
  | LeafStat pid fence rel => (w, r, CacheLookup pid fence rel true (cgroup_id w (abs_path rel)))
  | CacheLookup pid fence rel check_leaf leaf =>
      let miss := if check_leaf then begin_walk pid fence rel leaf (generation_ r)
                  else MissStat pid fence rel (generation_ r) in
      match path_branch_cache_ r !! rel with
      | Some e =>
          if negb check_leaf || bool_decide (leaf_cgroup_id e = leaf)
          then (w, fence_store_if fence pid (pe_branch e) r, Finished pid (pe_branch e))
          else (w, r, miss)
      | None => (w, r, miss)
      end
  | MissStat pid fence rel miss_gen =>
      (w, r, begin_walk pid fence rel (cgroup_id w (abs_path rel)) miss_gen)
  | Walk pid fence rel leaf (q :: todo) ids miss_gen =>
      (w, r, Walk pid fence rel leaf todo (push_id ids (cgroup_id w q)) miss_gen)
  | Walk pid fence rel leaf [] ids miss_gen =>
      let branch_id := branch_for_cgroup_ids (cgroup_branch_map_ r) ids in
      (w, if decide (generation_ r = miss_gen)
          then fence_store_if fence pid branch_id
                 (path_cache_store rel (mkPathEntry leaf branch_id) r)
          else r, Finished pid branch_id)
  | Finished pid branch_id => (w, r, c)
  end.

(** A call with no other activity in between. *)
Fixpoint run_resolve (fuel : nat) (w : World) (r : BranchRouter) (c : pc) :
    option (World * BranchRouter * N) :=
  match c with
  | Finished _ b => Some (w, r, b)
  | _ =>
      match fuel with
      | O => None
      | S fuel' => let '(w', r', c') := resolve_step w r c in run_resolve fuel' w' r' c'
      end
  end.

(** Ten steps besides the walk. *)
Definition resolve_fuel (w : World) (pid : Z) : nat :=
  (10 + length (cgroup_chain (abs_path (proc_cgroup w pid))))%nat.

Definition resolve (w : World) (r : BranchRouter) (pid : Z) : option (World * BranchRouter * N) :=
  run_resolve (resolve_fuel w pid) w r (resolve_begin r pid).

(** ** All threads together *)

(** A cgroup path as /proc shows it, short enough for one read. *)
Definition member_path (rel : str) : Prop :=
  rel <> [] /\ (newline ∉ rel) /\ (zero ∉ rel) /\ (length rel <= 4091)%nat /\
  (rel = [slash] \/ last rel <> Some slash).

Definition abs_dir (rel : str) : str := resolved_path (abs_path rel).

Definition add_dir (path : str) (w : World) : World :=
  mkWorld (<[path := next_inode w]> (dirs w)) (members w) (next_inode w + 1) (fence_gen w)
    (tracked_pids w).
Definition remove_dir (path : str) (w : World) : World :=
  mkWorld (delete path (dirs w)) (members w) (next_inode w) (fence_gen w) (tracked_pids w).
Definition set_member (pid : Z) (rel : str) (w : World) : World :=
  mkWorld (dirs w) (<[pid := rel]> (members w)) (next_inode w) (fence_gen w) (tracked_pids w).
Definition remove_member (pid : Z) (w : World) : World :=
  mkWorld (dirs w) (delete pid (members w)) (next_inode w) (fence_gen w) (tracked_pids w).

(** The kernel's own changes. A directory with members or subdirectories is
    not removed, and the mount point never; a process that waits for the
    answer to its request does not exit. The fence's counter does not wrap
    within a run. *)
Inductive kernel_step (busy : Z -> Prop) : World -> World -> Prop :=
| KMkdir w path :
    dirs w !! path = None -> resolved_path path = path ->
    (forall q, q ∈ cgroup_chain path -> q <> path -> is_Some (dirs w !! resolved_path q)) ->
    kernel_step busy w (add_dir path w)
| KRmdir w path :
    path <> cgroup_mount ->
    (forall pid rel, members w !! pid = Some rel -> abs_dir rel <> path) ->
    (forall p q, is_Some (dirs w !! p) -> p <> path -> q ∈ cgroup_chain p -> resolved_path q <> path) ->
    kernel_step busy w (remove_dir path w)
| KMigrate w pid rel rel0 :
    members w !! pid = Some rel0 -> member_path rel -> is_Some (dirs w !! abs_dir rel) ->
    fence_gen w + 1 < 2 ^ 64 ->
    kernel_step busy w (on_cgroup_attach (set_member pid rel w))
| KFork w pid rel :
    members w !! pid = None -> member_path rel -> is_Some (dirs w !! abs_dir rel) ->
    kernel_step busy w (set_member pid rel w)
| KExit w pid :
    ~ busy pid -> fence_gen w + 1 < 2 ^ 64 ->
    kernel_step busy w (on_process_exit (remove_member pid w) pid).

Record System : Type := mkSystem {
  world : World;
  router : BranchRouter;
  threads : gmap nat pc
}.

Definition busy (ts : gmap nat pc) (pid : Z) : Prop :=
  exists t c, ts !! t = Some c /\ pc_pid c = pid.

(** The inode an operation works on was read before, from a directory that
    may be gone since; the router's generation does not wrap within a run. *)
Inductive step : System -> System -> Prop :=
| SKernel w w' r ts :
    kernel_step (busy ts) w w' -> step (mkSystem w r ts) (mkSystem w' r ts)
| SRegister w r ts id b :
    0 < id /\ id < next_inode w -> generation_ r + 1 < 2 ^ 64 ->
    step (mkSystem w r ts) (mkSystem w (register_locked id b r) ts)
| SUnregister w r ts id :
    generation_ r + 1 < 2 ^ 64 ->
    step (mkSystem w r ts) (mkSystem w (unregister_locked id r).1 ts)
| SEvict w r ts id :
    generation_ r + 1 < 2 ^ 64 -> step (mkSystem w r ts) (mkSystem w (evict_cgroup_id id r) ts)
| SInvalidate w r ts b :
    generation_ r + 1 < 2 ^ 64 -> step (mkSystem w r ts) (mkSystem w (invalidate_branch b r) ts)
| SCall w r ts t pid :
    ts !! t = None -> is_Some (members w !! pid) ->
    step (mkSystem w r ts) (mkSystem w r (<[t := resolve_begin r pid]> ts))
| SStep w r ts t c w' r' c' :
    ts !! t = Some c -> resolve_step w r c = (w', r', c') ->
    step (mkSystem w r ts) (mkSystem w' r' (<[t := c']> ts))
| SReturn w r ts t pid b :
    ts !! t = Some (Finished pid b) -> step (mkSystem w r ts) (mkSystem w r (delete t ts)).

(** A hierarchy in order: inodes in use, one directory each, no directory
    without its parents, no member without its directory. *)
Record world_ok (w : World) : Prop := {
  ids_used : forall p i, dirs w !! p = Some i -> 0 < i /\ i < next_inode w;
  ids_unique : forall p q i, dirs w !! p = Some i -> dirs w !! q = Some i -> p = q;
  parents_exist : forall p q, is_Some (dirs w !! p) -> q ∈ cgroup_chain p ->
    is_Some (dirs w !! resolved_path q);
  members_placed : forall pid rel, members w !! pid = Some rel ->
    member_path rel /\ is_Some (dirs w !! abs_dir rel);
  gen_fits : fence_gen w < 2 ^ 64;
  inode_pos : 0 < next_inode w
}.

(** The daemon sets the revalidation flag before it serves: on, or off when a
    watch reports the removal of registered directories. *)
Inductive reach (revalidate : bool) : System -> Prop :=
| reach_init w fence :
    world_ok w -> reach revalidate (mkSystem w (new_router revalidate fence) ∅)
| reach_step s s' : reach revalidate s -> step s s' -> reach revalidate s'.

(** The answer without caches: the branch of the nearest registered group. *)
Definition current_ids (w : World) (rel : str) : list N :=
  map (cgroup_id w) (cgroup_chain (abs_path rel)).

Definition route (w : World) (r : BranchRouter) (pid : Z) : N :=
  match members w !! pid with
  | Some rel => branch_for_cgroup_ids (cgroup_branch_map_ r) (current_ids w rel)
  | None => 0
  end.

(** No registered directory is gone without its eviction. *)
Definition evictions_delivered (w : World) (r : BranchRouter) : Prop :=
  forall id b, cgroup_branch_map_ r !! id = Some b -> exists p, dirs w !! p = Some id.

(** ** Paths and ids *)

Lemma walk_paths_head fuel c p : exists up, walk_paths (S fuel) (c :: p) = (c :: p) :: up.
Proof. by eexists. Qed.

Lemma chain_cons rel : rel <> [] ->
  exists up, cgroup_chain (abs_path rel) = abs_path rel :: up.
Proof. intros _. apply walk_paths_head. Qed.

(** The walk is concrete enough for tactics to unroll it. *)
#[local] Opaque cgroup_chain.
#[global] Arguments abs_path : simpl never.

Lemma resolved_id p : last p <> Some slash -> resolved_path p = p.
Proof.
  unfold resolved_path. destruct (last p) as [c|]; [|done]. intros H.
  rewrite decide_False; [done|]. congruence.
Qed.

Lemma abs_dir_not_root rel : rel <> [] -> last rel <> Some slash -> abs_dir rel = abs_path rel.
Proof.
  intros Hr Hl. apply resolved_id. unfold abs_path. rewrite last_app.
  destruct (last rel) eqn:E; [done|]. by apply last_None in E.
Qed.

Lemma live_chain w rel :
  world_ok w -> member_path rel -> is_Some (dirs w !! abs_dir rel) ->
  forall q, q ∈ cgroup_chain (abs_path rel) -> is_Some (dirs w !! resolved_path q).
Proof.
  intros Hw (Hr & _ & _ & _ & [->|Hl]) Ha q Hq.
  - vm_compute in Hq. apply list_elem_of_singleton in Hq as ->. exact Ha.
  - rewrite abs_dir_not_root in Ha by done. by apply (parents_exist w Hw _ _ Ha).
Qed.

Lemma cgroup_id_Some w p i : world_ok w -> i <> 0 ->
  cgroup_id w p = i <-> dirs w !! resolved_path p = Some i.
Proof.
  intros Hw Hi. unfold cgroup_id. destruct (dirs w !! resolved_path p) as [j|]; simpl; split; congruence.
Qed.

Lemma cgroup_id_zero w p : world_ok w -> cgroup_id w p = 0 <-> dirs w !! resolved_path p = None.
Proof.
  intros Hw. unfold cgroup_id. destruct (dirs w !! resolved_path p) as [j|] eqn:E; simpl; [|done].
  apply (ids_used w Hw) in E. split; [lia|done].
Qed.

Lemma cgroup_id_lt w p : world_ok w -> cgroup_id w p < next_inode w \/ cgroup_id w p = 0.
Proof.
  intros Hw. unfold cgroup_id. destruct (dirs w !! resolved_path p) as [j|] eqn:E; simpl; [|by right].
  apply (ids_used w Hw) in E. left. lia.
Qed.
