(* ===== verification/RouterInv.v ===== *)
(** Why the router's caches are sound: the invariant of every state that
    threads, registrations and the kernel reach together.

    A cached path entry is right as long as its leaf inode is; a fence entry as
    long as the fence's counter stands; with the delete watch instead of
    revalidation, an id read earlier is still the directory's or is gone for
    good and harmless once evicted. *)

From S2P Require Import Prelude BranchRouter.

#[local] Opaque cgroup_chain.

(** ** What a kernel step leaves in place *)

(** [idle pid]: the process may exit. *)
Record evolves (idle : Z -> Prop) (w w' : World) : Prop := {
  ev_ok : world_ok w';
  ev_next : next_inode w <= next_inode w';
  ev_new : forall p i, dirs w' !! p = Some i -> dirs w !! p = Some i \/ next_inode w <= i;
  ev_chain : forall rel, member_path rel -> is_Some (dirs w !! abs_dir rel) ->
    dirs w' !! abs_dir rel = dirs w !! abs_dir rel ->
    forall q, q ∈ cgroup_chain (abs_path rel) -> cgroup_id w' q = cgroup_id w q;
  ev_member : forall pid rel, members w !! pid = Some rel -> members w' !! pid = Some rel ->
    dirs w' !! abs_dir rel = dirs w !! abs_dir rel;
  ev_gen : fence_gen w <= fence_gen w';
  ev_tracked : forall pid, pid ∈ tracked_pids w -> ~ idle pid \/ fence_gen w' = fence_gen w ->
    pid ∈ tracked_pids w';
  ev_stays : forall pid rel, fence_gen w' = fence_gen w -> pid ∈ tracked_pids w ->
    members w !! pid = Some rel -> members w' !! pid = Some rel
}.

(** The directories are the same. *)
Lemma evolves_same idle w w' :
  world_ok w' -> dirs w' = dirs w -> next_inode w' = next_inode w -> fence_gen w <= fence_gen w' ->
  (forall pid, pid ∈ tracked_pids w -> ~ idle pid \/ fence_gen w' = fence_gen w ->
     pid ∈ tracked_pids w') ->
  (forall pid rel, fence_gen w' = fence_gen w -> pid ∈ tracked_pids w ->
     members w !! pid = Some rel -> members w' !! pid = Some rel) ->
  evolves idle w w'.
Proof.
  intros Hok Hd Hn Hg Ht Hm. split; try done.
  - lia.
  - intros p i. rewrite Hd. by left.
  - intros rel _ _ _ q _. unfold cgroup_id. by rewrite Hd.
  - intros pid rel _ _. by rewrite Hd.
Qed.

Lemma track_evolves idle w pid w' ok : world_ok w -> track w pid = (w', ok) ->
  evolves idle w w' /\ dirs w' = dirs w /\ members w' = members w /\ fence_gen w' = fence_gen w /\
  (ok = true -> pid ∈ tracked_pids w').
Proof.
  intros [H1 H2 H3 H4 H5 H6]. unfold track. case_decide; intros [= <- <-].
  - split; [|simpl; repeat split; set_solver]. apply evolves_same; simpl; try done; set_solver.
  - split; [|done]. by apply evolves_same.
Qed.

Lemma chain_of_live w p q i : world_ok w -> dirs w !! p = Some i -> q ∈ cgroup_chain p ->
  exists j, dirs w !! resolved_path q = Some j.
Proof. intros Hw Hp Hq. by apply (parents_exist w Hw p); [eexists|]. Qed.

Lemma mkdir_evolves idle w path :
  world_ok w -> dirs w !! path = None ->
  (forall q, q ∈ cgroup_chain path -> q <> path -> is_Some (dirs w !! resolved_path q)) ->
  resolved_path path = path ->
  evolves idle w (add_dir path w).
Proof.
  intros Hw Hn Hp Hres. pose proof Hw as [H1 H2 H3 H4 H5 H6].
  assert (forall rel, member_path rel -> is_Some (dirs w !! abs_dir rel) ->
    forall q, q ∈ cgroup_chain (abs_path rel) -> cgroup_id (add_dir path w) q = cgroup_id w q) as Hch.
  { intros rel Hr Ha q Hq. pose proof (live_chain w rel Hw Hr Ha q Hq) as [j Hj].
    unfold cgroup_id. simpl. rewrite lookup_insert_ne; [done|]. congruence. }
  split; simpl; try done; try lia; auto.
  - split; simpl; try done.
    + intros p i. destruct (decide (path = p)) as [<-|Hne].
      * rewrite lookup_insert_eq. intros [= <-]. lia.
      * rewrite lookup_insert_ne by done. intros Hi%H1. lia.
    + intros p q i. destruct (decide (path = p)) as [<-|Hne], (decide (path = q)) as [<-|Hne'];
        rewrite ?lookup_insert_eq, ?lookup_insert_ne by done; try done.
      * intros [= <-] Hi%H1. lia.
      * intros Hi%H1 [= <-]. lia.
      * apply H2.
    + intros p q [i Hi] Hq. destruct (decide (path = resolved_path q)) as [<-|Hne].
      { rewrite lookup_insert_eq. by eexists. }
      rewrite lookup_insert_ne by done. destruct (decide (path = p)) as [<-|Hne'].
      * apply Hp; [done|]. intros ->. by rewrite Hres in Hne.
      * rewrite lookup_insert_ne in Hi by done. by apply (H3 p); [eexists|].
    + intros pid rel [Hr [i Hi]]%H4. split; [done|]. rewrite lookup_insert_ne; [by eexists|congruence].
    + lia.
  - intros p i. destruct (decide (path = p)) as [<-|Hne].
    + rewrite lookup_insert_eq. intros [= <-]. by right.
    + rewrite lookup_insert_ne by done. by left.
  - intros rel Hr Ha _. by apply Hch.
  - intros pid rel [Hr [i Hi]]%H4 _. rewrite lookup_insert_ne; [done|congruence].
Qed.

Lemma rmdir_evolves idle w path :
  world_ok w -> path <> cgroup_mount ->
  (forall pid rel, members w !! pid = Some rel -> abs_dir rel <> path) ->
  (forall p q, is_Some (dirs w !! p) -> p <> path -> q ∈ cgroup_chain p -> resolved_path q <> path) ->
  evolves idle w (remove_dir path w).
Proof.
  intros Hw Hroot Hmem Hsub. pose proof Hw as [H1 H2 H3 H4 H5 H6].
  assert (forall p i, delete path (dirs w) !! p = Some i -> path <> p /\ dirs w !! p = Some i) as Hdel.
  { intros p i. destruct (decide (path = p)) as [<-|Hne]; [by rewrite lookup_delete_eq|].
    by rewrite lookup_delete_ne. }
  split; simpl; try done; try lia; auto.
  - split; simpl; try done.
    + intros p i [_ Hi]%Hdel. by apply (H1 p).
    + intros p q i [_ Hi]%Hdel [_ Hj]%Hdel. by apply (H2 p q i).
    + intros p q [i [Hne Hi]%Hdel] Hq. rewrite lookup_delete_ne.
      * by apply (H3 p); [eexists|].
      * intros E. by apply (Hsub p q); [eexists|..].
    + intros pid rel Hm. destruct (H4 pid rel Hm) as [Hr Ha]. split; [done|].
      rewrite lookup_delete_ne; [done|]. intros ->. by eapply Hmem.
  - intros p i [_ Hi]%Hdel. by left.
  - intros rel (Hr & _ & _ & _ & Hl) [i Hi] Hsame q Hq. unfold cgroup_id. simpl.
    rewrite lookup_delete_ne; [done|]. rewrite Hi in Hsame. apply Hdel in Hsame as [Hne _].
    destruct Hl as [->|Hl].
    + vm_compute in Hq. apply list_elem_of_singleton in Hq as ->. done.
    + rewrite abs_dir_not_root in * by done. apply not_eq_sym. eapply Hsub; [by eexists|done..].
  - intros pid rel Hm _. rewrite lookup_delete_ne; [done|]. intros ->. by eapply Hmem.
Qed.

Lemma set_member_ok w pid rel :
  world_ok w -> member_path rel -> is_Some (dirs w !! abs_dir rel) -> world_ok (set_member pid rel w).
Proof.
  intros [H1 H2 H3 H4 H5 H6] Hr Ha. split; simpl; try done. intros p r.
  destruct (decide (pid = p)) as [<-|Hne]; [by rewrite lookup_insert_eq; intros [= <-]|].
  rewrite lookup_insert_ne by done. apply H4.
Qed.

Lemma next_gen w : fence_gen w + 1 < 2 ^ 64 -> u64 (fence_gen w + 1) = fence_gen w + 1.
Proof. apply N.mod_small. Qed.

Lemma kernel_evolves (busy : Z -> Prop) w w' :
  world_ok w -> kernel_step busy w w' -> evolves (fun pid => ~ busy pid) w w'.
Proof.
  intros Hw. destruct 1 as [w path Hn Hres Hp|w path Hroot Hmem Hsub|w pid rel rel0 Hm Hr Ha Hg
    |w pid rel Hm Hr Ha|w pid Hb Hg].
  - by apply mkdir_evolves.
  - by apply rmdir_evolves.
  - apply evolves_same; simpl; rewrite ?next_gen by done; try done; try lia.
    + destruct (set_member_ok w pid rel Hw Hr Ha). split; simpl in *; rewrite ?next_gen by done; done.
  - apply evolves_same; simpl; try done; try lia; [by apply set_member_ok|].
    intros p r _ _ Hp. rewrite lookup_insert_ne; [done|]. congruence.
  - pose proof Hw as [H1 H2 H3 H4 H5 H6]. unfold on_process_exit. simpl.
    assert (forall p r, delete pid (members w) !! p = Some r -> members w !! p = Some r) as Hdel.
    { intros p r. destruct (decide (pid = p)) as [<-|Hne]; [by rewrite lookup_delete_eq|].
      by rewrite lookup_delete_ne. }
    case_decide as Ht; (apply evolves_same; simpl; rewrite ?next_gen by done; try done; try lia).
    + split; simpl; rewrite ?next_gen by done; try done. intros p r Hp%Hdel. by eapply H4.
    + intros p Hp [Hbusy|E]; [|lia]. apply elem_of_difference. split; [done|].
      intros ->%elem_of_singleton. done.
    + split; simpl; try done. intros p r Hp%Hdel. by eapply H4.
    + intros p r _ Hp Hr. rewrite lookup_delete_ne; [done|]. by intros ->.
Qed.

(** ** What the caches hold

    An id read earlier either is still the directory's, or is gone for good
    and the directory's new id is not registered. *)
Definition gone (w : World) (i : N) : Prop :=
  i = 0 \/ i < next_inode w /\ forall p, dirs w !! p <> Some i.

Definition harmless (w : World) (m : gmap N N) (q : str) (i : N) : Prop :=
  i = cgroup_id w q \/ gone w i /\ (cgroup_id w q = 0 \/ m !! cgroup_id w q = None).

(** The ids read so far, on [done], of a walk from [p] whose leaf was [leaf].
    With revalidation, they are right as long as the leaf is. *)
Definition reads_ok (revalidate : bool) (w : World) (m : gmap N N) (p : str) (leaf : N)
    (done : list str) (reads : list N) : Prop :=
  if revalidate then leaf <> 0 -> cgroup_id w p = leaf -> reads = map (cgroup_id w) done
  else Forall2 (harmless w m) done reads.

Definition ids_registered (w : World) (m : gmap N N) : Prop :=
  forall id b, m !! id = Some b -> 0 < id /\ id < next_inode w.

Definition path_entry_ok (rv : bool) (w : World) (m : gmap N N) (rel : str) (e : PathEntry) : Prop :=
  member_path rel /\ leaf_cgroup_id e < next_inode w /\
  exists reads, pe_branch e = branch_for_cgroup_ids m reads /\
    reads_ok rv w m (abs_path rel) (leaf_cgroup_id e) (cgroup_chain (abs_path rel)) reads.

(** A branch the fence vouches for. *)
Definition vouched (rv : bool) (w : World) (m : gmap N N) (rel : str) (b : N) : Prop :=
  exists reads, b = branch_for_cgroup_ids m reads /\
    if rv then reads = current_ids w rel
    else Forall2 (harmless w m) (cgroup_chain (abs_path rel)) reads.

(** While the fence's counter is still [g]. *)
Definition since (w : World) (g : N) (P : Prop) : Prop :=
  g <= fence_gen w /\ (g = fence_gen w -> P).

Definition fence_entry_ok (rv : bool) (w : World) (m : gmap N N) (pid : Z) (e : FenceEntry) : Prop :=
  since w (fe_generation e) (pid ∈ tracked_pids w /\
    exists rel, members w !! pid = Some rel /\ vouched rv w m rel (fe_branch e)).

Definition held (w : World) (fence : option N) (P : Prop) : Prop :=
  forall g, fence = Some g -> since w g P.

Definition tracked_at (w : World) (pid : Z) (rel : str) : Prop :=
  pid ∈ tracked_pids w /\ members w !! pid = Some rel.

(** What a call knows. *)
Definition pc_ok (rv : bool) (w : World) (m : gmap N N) (gen : N) (c : pc) : Prop :=
  match c with
  | FastGen _ | FastLookup _ _ | Track _ | Finished _ _ => True
  | SampleGen pid => pid ∈ tracked_pids w
  | ReadCgroup pid fence => held w fence (pid ∈ tracked_pids w)
  | LoadFlag pid fence rel => member_path rel /\ held w fence (tracked_at w pid rel)
  | LeafStat pid fence rel => rv = true /\ member_path rel /\ held w fence (tracked_at w pid rel)
  | CacheLookup pid fence rel check_leaf leaf =>
      check_leaf = rv /\ member_path rel /\ leaf < next_inode w /\
      held w fence (tracked_at w pid rel /\ (rv = true -> leaf = cgroup_id w (abs_path rel)))
  | MissStat pid fence rel miss_gen =>
      rv = false /\ member_path rel /\ miss_gen <= gen /\ held w fence (tracked_at w pid rel)
  | Walk pid fence rel leaf todo ids miss_gen =>
      member_path rel /\ leaf < next_inode w /\ miss_gen <= gen /\
      held w fence (tracked_at w pid rel /\ (rv = true -> leaf = cgroup_id w (abs_path rel))) /\
      (miss_gen = gen -> exists done reads,
         cgroup_chain (abs_path rel) = done ++ todo /\ ids = fold_left push_id reads [] /\
         reads_ok rv w m (abs_path rel) leaf done reads)
  end.

Record inv (rv : bool) (s : System) : Prop := {
  i_world : world_ok (world s);
  i_flag : revalidate_leaf_ (router s) = rv;
  i_map : ids_registered (world s) (cgroup_branch_map_ (router s));
  i_gen : generation_ (router s) < 2 ^ 64;
  i_path : map_Forall (path_entry_ok rv (world s) (cgroup_branch_map_ (router s)))
             (path_branch_cache_ (router s));
  i_fence : map_Forall (fence_entry_ok rv (world s) (cgroup_branch_map_ (router s)))
             (pid_fence_cache_ (router s));
  i_threads : map_Forall (fun _ => pc_ok rv (world s) (cgroup_branch_map_ (router s))
                                     (generation_ (router s))) (threads s)
}.

(** ** Kernel steps keep it *)

Section evolving.
Context {idle : Z -> Prop} {w w' : World} {m : gmap N N}.
Context (Hw : world_ok w) (Hm : ids_registered w m) (Hev : evolves idle w w').

Lemma gone_evolves i : gone w i -> gone w' i.
Proof using Hev.
  intros [->|[Hi Hd]]; [by left|]. right. pose proof (ev_next _ _ _ Hev). split; [lia|].
  intros p Hp. apply (ev_new _ _ _ Hev) in Hp as [Hp|Hp]; [by apply Hd in Hp|lia].
Qed.

Lemma registered_evolves : ids_registered w' m.
Proof using Hm Hev. intros id b Hb. apply Hm in Hb. pose proof (ev_next _ _ _ Hev). lia. Qed.

(** An id of a directory after the step is the one before, or new. *)
Lemma id_evolves q :
  cgroup_id w' q = cgroup_id w q \/ cgroup_id w' q = 0 \/ next_inode w <= cgroup_id w' q.
Proof using Hev.
  unfold cgroup_id. destruct (dirs w' !! resolved_path q) as [j|] eqn:E; simpl; [|by auto].
  apply (ev_new _ _ _ Hev) in E as [E|E]; [left; by rewrite E|auto].
Qed.

Lemma harmless_evolves q i : harmless w m q i -> harmless w' m q i.
Proof using Hw Hm Hev.
  assert (cgroup_id w' q = cgroup_id w q \/ cgroup_id w' q = 0 \/ m !! cgroup_id w' q = None) as Hq.
  { destruct (id_evolves q) as [H|[H|H]]; [by left|by auto|right; right].
    destruct (m !! cgroup_id w' q) eqn:E; [|done]. apply Hm in E. lia. }
  intros [->|[Hg Hc]].
  - destruct (decide (cgroup_id w' q = cgroup_id w q)) as [E|Hne]; [left; congruence|].
    right. split; [|tauto]. destruct (decide (cgroup_id w q = 0)) as [E|Hz]; [by left|].
    pose proof (proj1 (cgroup_id_Some w q _ Hw Hz) eq_refl) as Hd.
    right. split; [destruct (ids_used w Hw _ _ Hd); pose proof (ev_next _ _ _ Hev); lia|].
    intros p Hp. apply (ev_new _ _ _ Hev) in Hp as Hp'. destruct Hp' as [Hp'|Hp'].
    + pose proof (ids_unique w Hw _ _ _ Hp' Hd) as ->. apply Hne.
      by apply (cgroup_id_Some w' q _ (ev_ok _ _ _ Hev)).
    + destruct (ids_used w Hw _ _ Hd). lia.
  - right. split; [by apply gone_evolves|]. destruct Hq as [E|[E|E]]; rewrite ?E; auto.
Qed.

Lemma chain_ids_evolve rel i :
  member_path rel -> i <> 0 -> i < next_inode w -> cgroup_id w' (abs_path rel) = i ->
  cgroup_id w (abs_path rel) = i /\
  forall q, q ∈ cgroup_chain (abs_path rel) -> cgroup_id w' q = cgroup_id w q.
Proof using Hw Hev.
  intros Hr Hi Hlt Hc. destruct (id_evolves (abs_path rel)) as [E|[E|E]]; [|lia|lia].
  rewrite E in Hc. split; [done|].
  pose proof (proj1 (cgroup_id_Some w _ i Hw Hi) Hc) as Hd.
  rewrite <- E in Hc. pose proof (proj1 (cgroup_id_Some w' _ i (ev_ok _ _ _ Hev) Hi) Hc) as Hd'.
  apply (ev_chain _ _ _ Hev); [done|by eexists|]. unfold abs_dir. congruence.
Qed.

Lemma reads_ok_evolves rv rel leaf done todo reads :
  member_path rel -> leaf < next_inode w -> cgroup_chain (abs_path rel) = done ++ todo ->
  reads_ok rv w m (abs_path rel) leaf done reads -> reads_ok rv w' m (abs_path rel) leaf done reads.
Proof using Hw Hm Hev.
  intros Hr Hl Hc. unfold reads_ok. destruct rv.
  - intros H Hnz Hc'. destruct (chain_ids_evolve rel leaf Hr Hnz Hl Hc') as [Hc0 Hch].
    rewrite (H Hnz Hc0). apply map_ext_in. intros q Hq. symmetry. apply Hch.
    rewrite Hc. apply elem_of_app. left. by apply list_elem_of_In.
  - intros H. eapply Forall2_impl; [exact H|]. apply harmless_evolves.
Qed.

Lemma since_evolves g (P Q : Prop) :
  since w g P -> (fence_gen w' = fence_gen w -> P -> Q) -> since w' g Q.
Proof using Hev.
  intros [Hg HP] H. pose proof (ev_gen _ _ _ Hev). split; [lia|]. intros ->.
  assert (fence_gen w' = fence_gen w) as E by lia. apply H; [done|]. apply HP. lia.
Qed.

(** A tracked member's directory and everything above it stays. *)
Lemma tracked_evolves pid rel : fence_gen w' = fence_gen w -> tracked_at w pid rel ->
  tracked_at w' pid rel /\
  forall q, q ∈ cgroup_chain (abs_path rel) -> cgroup_id w' q = cgroup_id w q.
Proof using Hw Hev.
  intros Hg [Ht Hmem]. pose proof (ev_stays _ _ _ Hev _ _ Hg Ht Hmem) as Hmem'. split.
  - split; [|done]. apply (ev_tracked _ _ _ Hev); [done|by right].
  - destruct (members_placed w Hw _ _ Hmem) as [Hr Ha]. apply (ev_chain _ _ _ Hev); [done..|].
    by apply (ev_member _ _ _ Hev pid).
Qed.

Lemma vouched_evolves rv pid rel b : fence_gen w' = fence_gen w -> tracked_at w pid rel ->
  vouched rv w m rel b -> vouched rv w' m rel b.
Proof using Hw Hm Hev.
  intros Hg Ht (reads & -> & H). destruct (tracked_evolves pid rel Hg Ht) as [_ Hch].
  exists reads. split; [done|]. destruct rv.
  - rewrite H. apply map_ext_in. intros q Hq. symmetry. apply Hch. by apply list_elem_of_In.
  - eapply Forall2_impl; [done|]. apply harmless_evolves.
Qed.

Lemma path_entry_evolves rv rel e : path_entry_ok rv w m rel e -> path_entry_ok rv w' m rel e.
Proof using Hw Hm Hev.
  intros (Hr & Hl & reads & Hb & H). split; [done|]. pose proof (ev_next _ _ _ Hev).
  split; [lia|]. exists reads. split; [done|].
  by eapply (reads_ok_evolves _ _ _ _ []); [..|rewrite app_nil_r|].
Qed.

Lemma fence_entry_evolves rv pid e : fence_entry_ok rv w m pid e -> fence_entry_ok rv w' m pid e.
Proof using Hw Hm Hev.
  intros H. eapply since_evolves; [done|]. intros Hg (Ht & rel & Hmem & Hv).
  destruct (tracked_evolves pid rel Hg) as [[Ht' Hm'] _]; [done|].
  split; [done|]. exists rel. split; [done|]. by apply (vouched_evolves rv pid).
Qed.

Lemma pc_evolves rv gen c : ~ idle (pc_pid c) -> pc_ok rv w m gen c -> pc_ok rv w' m gen c.
Proof using Hw Hm Hev.
  intros Hbusy. pose proof (ev_next _ _ _ Hev).
  assert (forall fence (P Q : Prop), held w fence P ->
    (fence_gen w' = fence_gen w -> P -> Q) -> held w' fence Q) as Hheld.
  { intros fence P Q Hf HPQ g Hg. by eapply since_evolves; [apply Hf|]. }
  destruct c as [pid|pid g|pid|pid|pid fence|pid fence rel|pid fence rel|pid fence rel chk leaf
    |pid fence rel mg|pid fence rel leaf todo ids mg|pid b]; simpl in *; try done.
  - intros Ht. apply (ev_tracked _ _ _ Hev); auto.
  - intros Hf. eapply Hheld; [done|]. intros Hg Ht. apply (ev_tracked _ _ _ Hev); auto.
  - intros [Hr Hf]. split; [done|]. eapply Hheld; [done|]. intros Hg Ht. by apply tracked_evolves.
  - intros (Hv & Hr & Hf). split_and!; [done..|]. eapply Hheld; [done|].
    intros Hg Ht. by apply tracked_evolves.
  - intros (Hc & Hr & Hl & Hf). split_and!; [done|done|lia|]. eapply Hheld; [done|].
    intros Hg [Ht Hleaf]. destruct (tracked_evolves pid rel Hg Ht) as [Ht' Hch].
    split; [done|]. intros Hv. rewrite (Hleaf Hv). symmetry. apply Hch.
    destruct (chain_cons rel) as [up ->]; [by destruct Hr|]. by left.
  - intros (Hv & Hr & Hl & Hf). split_and!; [done..|]. eapply Hheld; [done|].
    intros Hg Ht. by apply tracked_evolves.
  - intros (Hr & Hl & Hmg & Hf & Hids). split_and!; [done|lia|done| |].
    + eapply Hheld; [done|].
      intros Hg [Ht Hleaf]. destruct (tracked_evolves pid rel Hg Ht) as [Ht' Hch].
      split; [done|]. intros Hv. rewrite (Hleaf Hv). symmetry. apply Hch.
      destruct (chain_cons rel) as [up ->]; [by destruct Hr|]. by left.
    + intros Hgen. destruct (Hids Hgen) as (dn & reads & Hc & Hi & H1). exists dn, reads.
      split_and!; [done..|]. by eapply reads_ok_evolves.
Qed.

Lemma world_inv rv r ts :
  (forall t c, ts !! t = Some c -> ~ idle (pc_pid c)) ->
  inv rv (mkSystem w r ts) -> cgroup_branch_map_ r = m -> inv rv (mkSystem w' r ts).
Proof using Hw Hm Hev.
  intros Hbusy [I1 I2 I3 I4 I5 I6 I7] Em. simpl in *. split; simpl; rewrite ?Em in *; try done.
  - apply Hev.
  - by apply registered_evolves.
  - intros rel e He. apply path_entry_evolves. by apply I5.
  - intros pid e He. apply fence_entry_evolves. by apply I6.
  - intros t c Hc. apply pc_evolves; [by eapply Hbusy|]. by apply (I7 t).
Qed.

End evolving.

(** ** The router's operations keep it *)

Lemma pc_ok_later rv w m m' gen gen' c : gen < gen' -> pc_ok rv w m gen c -> pc_ok rv w m' gen' c.
Proof.
  intros Hlt. destruct c as [pid|pid g|pid|pid|pid fence|pid fence rel|pid fence rel|pid fence rel chk leaf
    |pid fence rel mg|pid fence rel leaf todo ids mg|pid b]; simpl; try done.
  - intros (Hv & Hr & Hl & Hf). split_and!; [done|done|lia|done].
  - intros (Hr & Hl & Hmg & Hf & _). split_and!; [done|done|lia|done|lia].
Qed.

Lemma changed_inv rv w r ts m' gen' :
  inv rv (mkSystem w r ts) -> gen' < 2 ^ 64 -> ids_registered w m' ->
  (generation_ r < gen' \/ (gen' = generation_ r /\ m' = cgroup_branch_map_ r)) ->
  inv rv (mkSystem w (changed m' gen' r) ts).
Proof.
  intros [I1 I2 I3 I4 I5 I6 I7] Hg Hm Hch. simpl in *. split; simpl; try done.
  intros t c Hc. specialize (I7 t c Hc). simpl in I7.
  destruct Hch as [Hlt|[-> ->]]; [by eapply pc_ok_later|done].
Qed.

Lemma bump_lt r : generation_ r + 1 < 2 ^ 64 -> bump r = generation_ r + 1.
Proof. apply N.mod_small. Qed.

Lemma bumped_inv rv w r ts m' :
  inv rv (mkSystem w r ts) -> generation_ r + 1 < 2 ^ 64 -> ids_registered w m' ->
  inv rv (mkSystem w (changed m' (bump r) r) ts).
Proof. intros Hi Hg Hm. apply changed_inv; rewrite ?bump_lt by done; [done|lia|done|left; lia]. Qed.

Lemma delete_registered w m id : ids_registered w m -> ids_registered w (delete id m).
Proof. intros Hm i b [_ H]%lookup_delete_Some. by eapply Hm. Qed.

Lemma registering_inv rv w r ts s' :
  inv rv (mkSystem w r ts) ->
  (exists id b, (0 < id /\ id < next_inode w) /\ s' = register_locked id b r) \/
  (exists id, s' = (unregister_locked id r).1) \/ (exists id, s' = evict_cgroup_id id r) \/
  (exists b, s' = invalidate_branch b r) ->
  generation_ r + 1 < 2 ^ 64 -> inv rv (mkSystem w s' ts).
Proof.
  intros Hi Hs Hg. pose proof (i_map _ _ Hi) as Hm. simpl in Hm.
  destruct Hs as [(id & b & Hid & ->)|[(id & ->)|[(id & ->)|(b & ->)]]].
  - apply bumped_inv; [done..|]. intros i b' [[<- _]|[_ H]]%lookup_insert_Some; [done|by eapply Hm].
  - unfold unregister_locked. simpl. case_bool_decide as Hd.
    + apply bumped_inv; [done..|]. by apply delete_registered.
    + apply changed_inv; [done|lia|by apply delete_registered|right]. split; [done|].
      apply delete_id. by apply eq_None_not_Some.
  - apply bumped_inv; [done..|]. by apply delete_registered.
  - apply bumped_inv; [done..|]. intros i b' [H _]%map_lookup_filter_Some. by eapply Hm.
Qed.

(** ** Looking up ids *)

Lemma push_ids reads acc :
  fold_left push_id reads acc = acc ++ filter (fun i => i <> 0) reads.
Proof.
  revert acc. induction reads as [|i reads IH]; intros acc; simpl; [by rewrite app_nil_r|].
  rewrite IH. unfold push_id. rewrite filter_cons. case_decide; case_decide; try lia; try done.
  by rewrite <- app_assoc.
Qed.

Lemma branch_for_pushed w m reads : ids_registered w m ->
  branch_for_cgroup_ids m (fold_left push_id reads []) = branch_for_cgroup_ids m reads.
Proof.
  intros Hm. rewrite push_ids. simpl. induction reads as [|i reads IH]; [done|].
  rewrite filter_cons. case_decide as Hi; simpl; rewrite IH; [done|].
  assert (i = 0) as -> by lia. destruct (m !! 0) eqn:E; [|done]. apply Hm in E. lia.
Qed.

Lemma push_id_snoc reads i : push_id (fold_left push_id reads []) i = fold_left push_id (reads ++ [i]) [].
Proof. by rewrite fold_left_app. Qed.

(** ** Steps of a call keep it *)

Lemma since_now w (P : Prop) : P -> since w (fence_gen w) P.
Proof. intros H. split; [lia|done]. Qed.

Lemma held_impl w fence (P Q : Prop) : held w fence P -> (P -> Q) -> held w fence Q.
Proof. intros H HPQ g Hg. destruct (H g Hg) as [H1 H2]. split; [done|]. auto. Qed.

Lemma held_and w fence (P Q : Prop) : held w fence P -> (fence <> None -> Q) -> held w fence (P /\ Q).
Proof. intros H HQ g Hg. destruct (H g Hg) as [H1 H2]. split; [done|]. intros E. split; [auto|]. apply HQ. congruence. Qed.

Lemma reads_ok_first rv w m rel leaf up :
  cgroup_chain (abs_path rel) = abs_path rel :: up ->
  (rv = false -> leaf = cgroup_id w (abs_path rel)) ->
  reads_ok rv w m (abs_path rel) leaf [abs_path rel] [leaf].
Proof.
  intros Hc Hl. unfold reads_ok. destruct rv.
  - intros _ E. by rewrite <- E.
  - constructor; [|constructor]. left. by apply Hl.
Qed.

Lemma reads_ok_snoc rv w m p leaf done reads q :
  reads_ok rv w m p leaf done reads ->
  reads_ok rv w m p leaf (done ++ [q]) (reads ++ [cgroup_id w q]).
Proof.
  unfold reads_ok. destruct rv.
  - intros H Hz Hc. rewrite (H Hz Hc), map_app. done.
  - intros H. apply Forall2_app; [done|]. constructor; [|constructor]. by left.
Qed.

(** The walk begins well. *)
Lemma begin_walk_ok rv w m gen pid fence rel leaf mg :
  member_path rel -> leaf < next_inode w -> mg <= gen ->
  (rv = false -> leaf = cgroup_id w (abs_path rel)) ->
  held w fence (tracked_at w pid rel /\ (rv = true -> leaf = cgroup_id w (abs_path rel))) ->
  pc_ok rv w m gen (begin_walk pid fence rel leaf mg).
Proof.
  intros Hr Hl Hmg Hleaf Hf. unfold begin_walk. destruct (chain_cons rel) as [up Hc]; [by destruct Hr|].
  rewrite Hc. simpl. split_and!; [done..|]. intros _. exists [abs_path rel], [leaf].
  split_and!; [done..|]. by eapply reads_ok_first.
Qed.

(** A member's leaf directory has an inode. *)
Lemma member_leaf w pid rel : world_ok w -> members w !! pid = Some rel ->
  cgroup_id w (abs_path rel) <> 0.
Proof.
  intros Hw Hm. destruct (members_placed w Hw _ _ Hm) as [_ [i Hi]]. unfold cgroup_id.
  unfold abs_dir in Hi. rewrite Hi. simpl. apply (ids_used w Hw) in Hi. lia.
Qed.

(** What the fence cache may be given. *)
Lemma vouched_now rv w m pid rel leaf reads :
  world_ok w -> members w !! pid = Some rel -> (rv = true -> leaf = cgroup_id w (abs_path rel)) ->
  reads_ok rv w m (abs_path rel) leaf (cgroup_chain (abs_path rel)) reads ->
  vouched rv w m rel (branch_for_cgroup_ids m reads).
Proof.
  intros Hw Hm Hl Hr. exists reads. split; [done|]. unfold reads_ok in Hr. destruct rv; [|done].
  apply Hr; [|by rewrite Hl]. rewrite Hl by done. by eapply member_leaf.
Qed.

(** ** Reading the membership *)

Lemma scan_line rest : scan_cgroup true (lit "0::" ++ rest) = line_of rest.
Proof. simpl. by rewrite drop_0. Qed.

Lemma read_proc_cgroup_line rel :
  member_path rel -> read_proc_cgroup (Some (lit "0::" ++ rel ++ [newline])) = rel.
Proof.
  intros (_ & Hn & Hz & Hl & _). unfold read_proc_cgroup.
  rewrite take_ge by (rewrite !length_app; simpl; lia).
  replace (find_char zero _) with (@None nat).
  - rewrite scan_line. unfold line_of. rewrite find_char_app by done. by rewrite take_app_length.
  - symmetry. apply find_char_None. rewrite !elem_of_app. intros [H|[H|H]]; [|done|].
    + exact (bool_decide_eq_true_1 (zero ∉ lit "0::") eq_refl H).
    + by apply list_elem_of_singleton in H.
Qed.

Lemma proc_cgroup_member w pid rel :
  world_ok w -> members w !! pid = Some rel -> proc_cgroup w pid = rel.
Proof.
  intros Hw Hm. unfold proc_cgroup, proc_file. rewrite Hm. apply read_proc_cgroup_line.
  by apply (members_placed w Hw pid).
Qed.

Lemma proc_cgroup_nonmember w pid : members w !! pid = None -> proc_cgroup w pid = [].
Proof. intros Hm. unfold proc_cgroup, proc_file. by rewrite Hm. Qed.

(** ** One step of a call *)

Lemma fence_store_inv rv w r ts fence pid b :
  inv rv (mkSystem w r ts) ->
  (forall g, fence = Some g -> fence_entry_ok rv w (cgroup_branch_map_ r) pid (mkFenceEntry b g)) ->
  inv rv (mkSystem w (fence_store_if fence pid b r) ts).
Proof.
  intros [I1 I2 I3 I4 I5 I6 I7] Hf. destruct fence as [g|]; [|by split].
  split; simpl in *; try done. apply map_Forall_insert_2; [by apply Hf|]. by case_match.
Qed.

Lemma path_store_inv rv w r ts rel e :
  inv rv (mkSystem w r ts) -> path_entry_ok rv w (cgroup_branch_map_ r) rel e ->
  inv rv (mkSystem w (path_cache_store rel e r) ts).
Proof.
  intros [I1 I2 I3 I4 I5 I6 I7] He. split; simpl in *; try done.
  apply map_Forall_insert_2; [done|]. by case_match.
Qed.

Lemma thread_inv rv w r ts t c :
  inv rv (mkSystem w r ts) -> pc_ok rv w (cgroup_branch_map_ r) (generation_ r) c ->
  inv rv (mkSystem w r (<[t := c]> ts)).
Proof.
  intros [I1 I2 I3 I4 I5 I6 I7] Hc. split; simpl in *; try done. by apply map_Forall_insert_2.
Qed.

(** The entry a call may store. *)
Lemma storable rv w m pid rel fence b :
  held w fence (tracked_at w pid rel /\ vouched rv w m rel b) ->
  forall g, fence = Some g -> fence_entry_ok rv w m pid (mkFenceEntry b g).
Proof.
  intros Hf g Hg. destruct (Hf g Hg) as [Hle H]. split; [done|]. intros E.
  destruct (H E) as [[Ht Hm] Hv]. split; [done|]. by exists rel.
Qed.

Lemma held_vouched rv w m pid rel leaf fence reads :
  world_ok w ->
  held w fence (tracked_at w pid rel /\ (rv = true -> leaf = cgroup_id w (abs_path rel))) ->
  reads_ok rv w m (abs_path rel) leaf (cgroup_chain (abs_path rel)) reads ->
  held w fence (tracked_at w pid rel /\ vouched rv w m rel (branch_for_cgroup_ids m reads)).
Proof.
  intros Hw Hf Hr. eapply held_impl; [done|]. intros [[Ht Hm] Hl]. split; [done|].
  by eapply vouched_now.
Qed.

(** A hit: the cached branch. *)
Lemma hit_inv rv w r ts pid fence rel leaf e :
  inv rv (mkSystem w r ts) -> path_branch_cache_ r !! rel = Some e ->
  (rv = true -> leaf_cgroup_id e = leaf) ->
  held w fence (tracked_at w pid rel /\ (rv = true -> leaf = cgroup_id w (abs_path rel))) ->
  inv rv (mkSystem w (fence_store_if fence pid (pe_branch e) r) ts).
Proof.
  intros Hi He Hle Hf. apply fence_store_inv; [done|]. apply (storable _ _ _ _ rel).
  pose proof (i_path _ _ Hi rel e He) as (_ & _ & reads & -> & Hr). simpl in Hr.
  eapply held_vouched; [by apply (i_world _ _ Hi)| |exact Hr].
  eapply held_impl; [done|]. intros [Ht Hl]. split; [done|]. intros Hv. rewrite Hle by done. auto.
Qed.

Lemma miss_inv rv w r ts pid fence rel leaf ids mg :
  inv rv (mkSystem w r ts) ->
  pc_ok rv w (cgroup_branch_map_ r) (generation_ r) (Walk pid fence rel leaf [] ids mg) ->
  mg = generation_ r ->
  inv rv (mkSystem w (fence_store_if fence pid (branch_for_cgroup_ids (cgroup_branch_map_ r) ids)
            (path_cache_store rel (mkPathEntry leaf (branch_for_cgroup_ids (cgroup_branch_map_ r) ids)) r)) ts).
Proof.
  intros Hi (Hr & Hl & _ & Hf & Hids) Hg. destruct (Hids Hg) as (dn & reads & Hc & -> & Hok).
  rewrite app_nil_r in Hc. subst dn. pose proof (i_world _ _ Hi) as Hw. pose proof (i_map _ _ Hi) as Hm.
  simpl in Hw, Hm. rewrite (branch_for_pushed w) by done. apply fence_store_inv; simpl.
  - apply path_store_inv; [done|]. split_and!; [done..|]. by exists reads.
  - apply (storable _ _ _ _ rel). by eapply held_vouched.
Qed.

Lemma resolve_step_inv rv w r ts t c w' r' c' :
  inv rv (mkSystem w r ts) -> ts !! t = Some c -> resolve_step w r c = (w', r', c') ->
  inv rv (mkSystem w' r' (<[t := c']> ts)).
Proof.
  intros Hi Ht Hs. pose proof (i_threads _ _ Hi t c Ht) as Hc.
  pose proof (i_world _ _ Hi) as Hw. pose proof (i_flag _ _ Hi) as Hrv. simpl in Hc, Hw, Hrv.
  destruct c as [pid|pid g|pid|pid|pid fence|pid fence rel|pid fence rel|pid fence rel chk leaf
    |pid fence rel mg|pid fence rel leaf [|q todo] ids mg|pid b]; simpl in Hs.
  - simplify_eq. by apply thread_inv.
  - simplify_eq. apply thread_inv; [done|]. by repeat case_match.
  - destruct (track w pid) as [w1 ok] eqn:E. injection Hs as <- <- <-.
    destruct (track_evolves (fun _ => False) _ _ _ _ Hw E) as (Hev & _ & _ & _ & Hok).
    apply thread_inv.
    + eapply (world_inv Hw (i_map _ _ Hi) Hev); [|done..]. tauto.
    + destruct ok; simpl; [auto|]. by intros g [=].
  - simplify_eq. apply thread_inv; [done|]. simpl. intros g [= <-]. by apply since_now.
  - injection Hs as <- <- <-. apply thread_inv; [done|].
    destruct (members w !! pid) as [rel|] eqn:E.
    + rewrite (proc_cgroup_member w pid rel) by done.
      destruct (members_placed w Hw _ _ E) as [Hr _].
      assert (pc_ok rv w (cgroup_branch_map_ r) (generation_ r) (LoadFlag pid fence rel)).
      { split; [done|]. eapply held_impl; [done|]. by split. }
      by destruct rel.
    + by rewrite proc_cgroup_nonmember.
  - destruct Hc as [Hr Hf]. injection Hs as <- <- <-. rewrite Hrv. apply thread_inv; [done|].
    destruct rv; simpl; [done|]. split_and!; [done..|pose proof (inode_pos w Hw); lia|].
    eapply held_impl; [done|]. done.
  - destruct Hc as (Hv & Hr & Hf). injection Hs as <- <- <-. apply thread_inv; [done|]. simpl.
    split_and!; [done..| |].
    + pose proof (inode_pos w Hw). destruct (cgroup_id_lt w (abs_path rel) Hw); lia.
    + eapply held_impl; [done|]. done.
  - destruct Hc as (-> & Hr & Hl & Hf).
    assert (pc_ok rv w (cgroup_branch_map_ r) (generation_ r)
      (if rv then begin_walk pid fence rel leaf (generation_ r) else MissStat pid fence rel (generation_ r)))
      as Hmiss.
    { destruct rv.
      - by apply begin_walk_ok.
      - simpl. split_and!; [done..|]. eapply held_impl; [done|]. by intros [??]. }
    destruct (path_branch_cache_ r !! rel) as [e|] eqn:He.
    + destruct (negb rv || _) eqn:Eh; injection Hs as <- <- <-.
      * apply thread_inv; [|done]. eapply hit_inv; [done..| |done]. intros ->. simpl in Eh.
        by apply bool_decide_eq_true in Eh.
      * by apply thread_inv.
    + injection Hs as <- <- <-. by apply thread_inv.
  - destruct Hc as (Hv & Hr & Hmg & Hf). injection Hs as <- <- <-. apply thread_inv; [done|].
    apply begin_walk_ok; [done| |done|done|].
    + pose proof (inode_pos w Hw). destruct (cgroup_id_lt w (abs_path rel) Hw); lia.
    + eapply held_impl; [done|]. done.
  - injection Hs as <- <- <-. apply thread_inv; [|done]. case_decide as Hg; [|done].
    by apply (miss_inv _ _ _ _ _ _ _ _ _ mg).
  - injection Hs as <- <- <-. apply thread_inv; [done|]. destruct Hc as (Hr & Hl & Hmg & Hf & Hids).
    simpl. split_and!; [done..|]. intros Hg. destruct (Hids Hg) as (dn & reads & Hc & -> & Hok).
    exists (dn ++ [q]), (reads ++ [cgroup_id w q]). split_and!.
    + by rewrite <- app_assoc.
    + apply push_id_snoc.
    + by apply reads_ok_snoc.
  - injection Hs as <- <- <-. by apply thread_inv.
Qed.

Theorem router_reach_inv rv s : reach rv s -> inv rv s.
Proof.
  induction 1 as [w fence Hw|s s' _ IH Hs].
  - split; simpl; try done; by apply map_Forall_empty.
  - destruct Hs as [w w' r ts Hk|w r ts id b Hid Hg|w r ts id Hg|w r ts id Hg|w r ts b Hg
      |w r ts t pid Hn Hm|w r ts t c w' r' c' Ht Hs|w r ts t pid b Ht].
    + pose proof (kernel_evolves _ _ _ (i_world _ _ IH) Hk) as Hev.
      eapply (world_inv (i_world _ _ IH) (i_map _ _ IH) Hev); [|done..].
      intros t c Hc Hb. apply Hb. by exists t, c.
    + eapply registering_inv; [done| |done]. left. by exists id, b.
    + eapply registering_inv; [done| |done]. right. left. by exists id.
    + eapply registering_inv; [done| |done]. right. right. left. by exists id.
    + eapply registering_inv; [done| |done]. right. right. right. by exists b.
    + apply thread_inv; [done|]. unfold resolve_begin. destruct (fence_on r); [done|].
      by intros g [=].
    + by eapply resolve_step_inv.
    + destruct IH as [I1 I2 I3 I4 I5 I6 I7]. split; simpl in *; try done.
      by apply map_Forall_delete.
Qed.
