(* ===== verification/RouterAnswers.v ===== *)
(** What the router promises to its callers: answers that the caches do not
    change, in a bounded number of steps; and runs that show it. *)

From S2P Require Import Prelude BranchRouter RouterInv.

#[local] Opaque cgroup_chain.

(** ** A call by itself *)

(** With every eviction delivered, an id that is gone is not registered. *)
Lemma harmless_branch w m done reads :
  ids_registered w m -> (forall id b, m !! id = Some b -> exists p, dirs w !! p = Some id) ->
  Forall2 (harmless w m) done reads ->
  branch_for_cgroup_ids m reads = branch_for_cgroup_ids m (map (cgroup_id w) done).
Proof.
  intros Hm Hlive. induction 1 as [|q i done reads Hq _ IH]; [reflexivity|]. simpl. rewrite IH.
  destruct Hq as [->|[Hg Hc]]; [reflexivity|].
  assert (m !! i = None) as ->.
  { destruct (m !! i) eqn:E; [|reflexivity]. destruct (Hlive _ _ E) as [p Hp].
    destruct Hg as [->|[_ Hd]]; [apply Hm in E; lia|by apply Hd in Hp]. }
  destruct Hc as [->| ->]; [|reflexivity]. destruct (m !! 0) eqn:E; [|reflexivity].
  apply Hm in E. lia.
Qed.

Definition settled (rv : bool) (w : World) (r : BranchRouter) : Prop :=
  rv = false -> evictions_delivered w r.

Lemma vouched_route rv w r pid rel b :
  settled rv w r -> ids_registered w (cgroup_branch_map_ r) -> members w !! pid = Some rel ->
  vouched rv w (cgroup_branch_map_ r) rel b -> b = route w r pid.
Proof.
  intros Hs Hm Hp (reads & -> & H). unfold route. rewrite Hp. destruct rv; [by rewrite H|].
  apply (harmless_branch w); [done|by apply Hs|done].
Qed.

(** Where a call is that nothing has interrupted. *)
Definition alone (w : World) (r : BranchRouter) (pid : Z) (rel : str) (c : pc) : Prop :=
  pc_pid c = pid /\
  match c with
  | FastGen _ | Track _ | SampleGen _ | ReadCgroup _ _ => True
  | FastLookup _ g => g = fence_gen w
  | LoadFlag _ _ rel' | LeafStat _ _ rel' | MissStat _ _ rel' _ => rel' = rel
  | CacheLookup _ _ rel' chk leaf => rel' = rel /\ (chk = true -> leaf = cgroup_id w (abs_path rel))
  | Walk _ _ rel' _ todo ids _ => rel' = rel /\ exists dn,
      cgroup_chain (abs_path rel) = dn ++ todo /\ ids = fold_left push_id (map (cgroup_id w) dn) []
  | Finished _ b => b = route w r pid
  end.

Definition steps_left (n : nat) (c : pc) : nat :=
  match c with
  | FastGen _ => 9 + n
  | FastLookup _ _ => 8 + n
  | Track _ => 7 + n
  | SampleGen _ => 6 + n
  | ReadCgroup _ _ => 5 + n
  | LoadFlag _ _ _ => 4 + n
  | LeafStat _ _ _ => 3 + n
  | CacheLookup _ _ _ _ _ => 2 + n
  | MissStat _ _ _ _ => 1 + n
  | Walk _ _ _ _ todo _ _ => 1 + length todo
  | Finished _ _ => 0
  end%nat.

Lemma begin_walk_alone w r pid rel fence mg : rel <> [] ->
  let c := begin_walk pid fence rel (cgroup_id w (abs_path rel)) mg in
  alone w r pid rel c /\ (steps_left 0 c <= length (cgroup_chain (abs_path rel)))%nat.
Proof.
  intros Hr. unfold begin_walk. destruct (chain_cons rel Hr) as [up Hc]. rewrite Hc. simpl.
  split; [|lia]. split; [done|]. split; [done|]. by exists [abs_path rel].
Qed.

(** The side conditions of a step that changes neither world nor router. *)
Ltac same_state := split_and!; try done; try lia; auto.

Lemma alone_step rv w r ts t c pid rel w' r' c' :
  inv rv (mkSystem w r ts) -> ts !! t = Some c -> members w !! pid = Some rel -> settled rv w r ->
  alone w r pid rel c -> resolve_step w r c = (w', r', c') ->
  let n := length (cgroup_chain (abs_path rel)) in
  (forall b, c <> Finished pid b) ->
  alone w' r' pid rel c' /\ (steps_left n c' < steps_left n c)%nat /\
  members w' !! pid = Some rel /\ settled rv w' r' /\ route w' r' pid = route w r pid.
Proof.
  intros Hi Ht Hp Hset Ha Hs n Hfin. pose proof (i_threads _ _ Hi t c Ht) as Hc.
  pose proof (i_world _ _ Hi) as Hw. pose proof (i_flag _ _ Hi) as Hrv. pose proof (i_map _ _ Hi) as Hm.
  simpl in Hc, Hw, Hrv, Hm. destruct (members_placed w Hw _ _ Hp) as [Hr _].
  assert (rel <> []) as Hne by by destruct Hr.
  destruct c as [p|p g|p|p|p fence|p fence rl|p fence rl|p fence rl chk leaf
    |p fence rl mg|p fence rl leaf [|q todo] ids mg|p b]; destruct Ha as [Hpid Ha];
    simpl in Hpid, Ha, Hs, Hc; subst p; simpl.
  - simplify_eq. same_state.
  - subst g. destruct (pid_fence_cache_ r !! pid) as [e|] eqn:He; [case_decide as Eg|];
      injection Hs as <- <- <-; simpl; try by (same_state).
    same_state. pose proof (i_fence _ _ Hi pid e He) as [_ Hv]. simpl in Hv.
    destruct (Hv Eg) as (_ & rel' & Hp' & Hv'). simplify_eq. split; [done|].
    by eapply vouched_route.
  - destruct (track w pid) as [w1 ok] eqn:E. injection Hs as <- <- <-.
    destruct (track_evolves (fun _ => False) _ _ _ _ Hw E) as (_ & Hd & Hmem & _ & _).
    split_and!.
    + destruct ok; by split.
    + destruct ok; simpl; lia.
    + by rewrite Hmem.
    + intros Hv id b Hb. rewrite Hd. by apply (Hset Hv id b).
    + unfold route, current_ids, cgroup_id. by rewrite Hmem, Hd.
  - simplify_eq. same_state.
  - injection Hs as <- <- <-. rewrite (proc_cgroup_member w pid rel) by done.
    destruct rel as [|c0 rel]; [done|]. same_state.
  - subst rl. injection Hs as <- <- <-. destruct (revalidate_leaf_ r);
      same_state.
  - subst rl. injection Hs as <- <- <-. same_state.
  - destruct Ha as [-> Hl]. destruct Hc as (-> & _ & _ & _).
    assert (forall e, path_branch_cache_ r !! rel = Some e ->
      negb rv || bool_decide (leaf_cgroup_id e = leaf) = true -> pe_branch e = route w r pid) as Hhit.
    { intros e He Eh. pose proof (i_path _ _ Hi rel e He) as (_ & _ & reads & Hb & Hok). simpl in Hok, Hb.
      apply (vouched_route rv w r pid rel); [done..|]. rewrite Hb.
      eapply (vouched_now _ _ _ pid _ (leaf_cgroup_id e)); [done..| |done].
      intros ->. simpl in Eh. apply bool_decide_eq_true in Eh. rewrite Eh. auto. }
    assert (alone w r pid rel (if rv then begin_walk pid fence rel leaf (generation_ r)
        else MissStat pid fence rel (generation_ r)) /\
      (steps_left n (if rv then begin_walk pid fence rel leaf (generation_ r)
        else MissStat pid fence rel (generation_ r)) < S (S n))%nat) as [Hm1 Hm2].
    { destruct rv; [|by split; [|simpl; lia]]. rewrite Hl by done.
      destruct (begin_walk_alone w r pid rel fence (generation_ r) Hne) as [H1 H2]. split; [done|].
      unfold begin_walk in *. destruct (chain_cons rel Hne) as [up Hc]. subst n. rewrite Hc in *.
      simpl in *. lia. }
    destruct (path_branch_cache_ r !! rel) as [e|] eqn:He; [destruct (negb rv || _) eqn:Eh|];
      injection Hs as <- <- <-; simpl; try by same_state.
    assert (route w (fence_store_if fence pid (pe_branch e) r) pid = route w r pid) as Hroute
      by by destruct fence.
    rewrite Hroute. same_state.
    + split; [done|]. rewrite Hroute. by apply Hhit.
    + by destruct fence.
  - subst rl. injection Hs as <- <- <-.
    destruct (begin_walk_alone w r pid rel fence mg Hne) as [H1 H2]. same_state.
  - injection Hs as <- <- <-. destruct Ha as [-> (dn & Hch & ->)]. rewrite app_nil_r in Hch. subst dn.
    assert (forall b, route w (if decide (generation_ r = mg)
        then fence_store_if fence pid b (path_cache_store rel (mkPathEntry leaf b) r) else r) pid
        = route w r pid) as Hroute by (intros b; case_decide; [by destruct fence|done]).
    rewrite Hroute. same_state.
    + split; [done|]. simpl. rewrite Hroute, (branch_for_pushed w) by done. unfold route. by rewrite Hp.
    + case_decide; [by destruct fence|done].
  - injection Hs as <- <- <-. destruct Ha as [-> (dn & Hch & ->)]. same_state.
    split; [done|]. simpl. split; [done|]. exists (dn ++ [q]). split.
    + by rewrite <- app_assoc.
    + by rewrite map_app, push_id_snoc.
  - by destruct (Hfin b).
Qed.

Lemma run_resolve_step fuel w r c : (forall p b, c <> Finished p b) ->
  run_resolve (S fuel) w r c =
  let '(w', r', c') := resolve_step w r c in run_resolve fuel w' r' c'.
Proof. intros H. destruct c; try done. by destruct (H pid branch_id). Qed.

Lemma alone_finished w r pid rel b : alone w r pid rel (Finished pid b) -> b = route w r pid.
Proof. by intros [_ H]. Qed.

Lemma run_alone rv fuel w r c pid rel :
  inv rv (mkSystem w r {[0%nat := c]}) -> members w !! pid = Some rel -> settled rv w r ->
  alone w r pid rel c -> (steps_left (length (cgroup_chain (abs_path rel))) c <= fuel)%nat ->
  exists w' r', run_resolve fuel w r c = Some (w', r', route w r pid).
Proof.
  revert w r c. induction fuel as [|fuel IH]; intros w r c Hi Hp Hset Ha Hf.
  { destruct c; simpl in Hf; try lia. destruct Ha as [_ ->]. by exists w, r. }
  assert ((exists b, c = Finished pid b) \/ (forall b, c <> Finished pid b)) as [[b ->]|Hfin].
  { destruct Ha as [Hpid _]. destruct c; simpl in Hpid; try (by right). left. subst. by eexists. }
  { apply alone_finished in Ha as ->. by exists w, r. }
  destruct (resolve_step w r c) as [[w1 r1] c1] eqn:Es.
  assert ({[0%nat := c]} !! 0%nat = Some c) as Ht by apply lookup_singleton_eq.
  pose proof (resolve_step_inv _ _ _ _ _ _ _ _ _ Hi Ht Es) as Hi'. rewrite insert_singleton_eq in Hi'.
  destruct (alone_step _ _ _ _ _ _ _ _ _ _ _ Hi Ht Hp Hset Ha Es Hfin) as (Ha' & Hl & Hp' & Hset' & Hroute).
  rewrite <- Hroute. destruct (IH _ _ _ Hi' Hp' Hset' Ha') as (w2 & r2 & Hrun); [lia|].
  exists w2, r2. rewrite run_resolve_step, Es; [done|]. intros p b ->. destruct Ha as [Hpid _].
  simpl in Hpid. subst p. by apply (Hfin b).
Qed.

Lemma lone_inv rv w r ts c :
  inv rv (mkSystem w r ts) -> pc_ok rv w (cgroup_branch_map_ r) (generation_ r) c ->
  inv rv (mkSystem w r {[0%nat := c]}).
Proof.
  intros [I1 I2 I3 I4 I5 I6 I7] Hc. split; simpl in *; try done. by apply map_Forall_singleton.
Qed.

Lemma begin_ok rv w r m gen pid : pc_ok rv w m gen (resolve_begin r pid).
Proof. unfold resolve_begin. destruct (fence_on r); simpl; [done|]. by intros g [=]. Qed.

Lemma begin_alone w r pid rel :
  alone w r pid rel (resolve_begin r pid) /\
  (steps_left (length (cgroup_chain (abs_path rel))) (resolve_begin r pid)
     <= 9 + length (cgroup_chain (abs_path rel)))%nat.
Proof. unfold resolve_begin, alone. destruct (fence_on r); simpl; split; [done|lia|done|lia]. Qed.

(** ** A call against an adversary *)

(** The world and the router a call finds at each of its steps. *)
Fixpoint driven (env : nat -> World * BranchRouter) (n : nat) (c : pc) : pc :=
  match n with
  | O => c
  | S n' => driven (fun k => env (S k)) n' (resolve_step (env 0%nat).1 (env 0%nat).2 c).2
  end.

Definition path_limit : nat := N.to_nat (4095 + 14).
Definition step_limit : nat := N.to_nat (4095 + 14 + 9).

Definition chain_length (rel : str) : nat := length (cgroup_chain (abs_path rel)).

Definition steps_to_go (c : pc) : nat :=
  match c with
  | LoadFlag _ _ rel | LeafStat _ _ rel | CacheLookup _ _ rel _ _ | MissStat _ _ rel _ =>
      steps_left (chain_length rel) c
  | _ => steps_left path_limit c
  end.

Lemma walk_paths_length fuel p : (length (walk_paths fuel p) <= fuel)%nat.
Proof.
  revert p. induction fuel as [|fuel IH]; intros p; [done|]. simpl. destruct p as [|c p]; simpl; [lia|].
  destruct (parent_cgroup (c :: p)) as [q|]; simpl; [|lia]. specialize (IH q). lia.
Qed.

Lemma chain_length_bound rel : (chain_length rel <= 14 + length rel)%nat.
Proof.
  unfold chain_length. Transparent cgroup_chain. unfold cgroup_chain. Opaque cgroup_chain.
  etrans; [apply walk_paths_length|]. unfold abs_path. by rewrite length_app.
Qed.

Lemma scan_cgroup_length bol l : (length (scan_cgroup bol l) <= length l)%nat.
Proof.
  revert bol. induction l as [|c l IH]; intros bol; [done|]. cbn [scan_cgroup].
  destruct (bol && _).
  - unfold line_of. destruct (find_char _ _); rewrite ?length_take, length_drop; simpl; lia.
  - simpl. etrans; [apply IH|]. lia.
Qed.

Lemma proc_cgroup_length w pid : (length (proc_cgroup w pid) <= N.to_nat 4095)%nat.
Proof.
  unfold proc_cgroup, read_proc_cgroup. destruct (proc_file w pid) as [b|]; [|simpl; lia].
  etrans; [apply scan_cgroup_length|]. destruct (find_char zero _); rewrite ?length_take; lia.
Qed.

Lemma begin_walk_steps pid fence rel leaf mg : rel <> [] ->
  (steps_to_go (begin_walk pid fence rel leaf mg) <= chain_length rel)%nat.
Proof.
  intros Hr. unfold begin_walk, chain_length. destruct (chain_cons rel Hr) as [up ->]. simpl. lia.
Qed.

(** The path a call has read is not empty. *)
Definition named (c : pc) : Prop :=
  match c with
  | LoadFlag _ _ rel | LeafStat _ _ rel | CacheLookup _ _ rel _ _ | MissStat _ _ rel _ => rel <> []
  | _ => True
  end.

Lemma step_decreases w r c : named c ->
  named (resolve_step w r c).2 /\ (steps_to_go (resolve_step w r c).2 <= steps_to_go c - 1)%nat.
Proof.
  intros Hc. destruct c as [p|p g|p|p|p fence|p fence rl|p fence rl|p fence rl chk leaf
    |p fence rl mg|p fence rl leaf [|q todo] ids mg|p b]; simpl in *;
    try (split; [done|simpl; lia]).
  - destruct (pid_fence_cache_ r !! p) as [e|]; [case_decide|]; (split; [done|simpl; lia]).
  - destruct (track w p) as [w' [|]]; (split; [done|simpl; lia]).
  - pose proof (proc_cgroup_length w p) as Hl. destruct (proc_cgroup w p) as [|c0 rel] eqn:E.
    + split; [done|simpl; lia].
    + split; [done|]. pose proof (chain_length_bound (c0 :: rel)). simpl. unfold path_limit. lia.
  - destruct (revalidate_leaf_ r); (split; [done|simpl; lia]).
  - pose proof (begin_walk_steps p fence rl leaf (generation_ r) Hc).
    assert (named (begin_walk p fence rl leaf (generation_ r))).
    { unfold begin_walk. by destruct (cgroup_chain _). }
    destruct (path_branch_cache_ r !! rl); [case_match|]; destruct chk;
      (split; [done|simpl; lia]).
  - split; [unfold begin_walk; by destruct (cgroup_chain _)|].
    pose proof (begin_walk_steps p fence rl (cgroup_id w (abs_path rl)) mg Hc). simpl. lia.
Qed.

Lemma driven_finishes env n c :
  named c -> (steps_to_go c <= n)%nat -> exists pid b, driven env n c = Finished pid b.
Proof.
  revert env c. induction n as [|n IH]; intros env c Hc Hn; simpl.
  - destruct c; simpl in Hn; try lia. by eexists _, _.
  - destruct (step_decreases (env 0%nat).1 (env 0%nat).2 c Hc) as [Hc' Hd]. apply IH; [done|lia].
Qed.

(** ** What the router promises *)


(** C38. Resolution is wait-free: whatever kernel and router a call finds at
    each of its steps, it returns within a fixed number of its own steps. *)
Theorem resolve_wait_free env r pid :
  exists pid' b, driven env step_limit (resolve_begin r pid) = Finished pid' b.
Proof.
  apply driven_finishes; unfold resolve_begin; destruct (fence_on r); simpl; try done;
    unfold step_limit, path_limit; lia.
Qed.

Lemma has_cgroup_spec b r :
  has_cgroup_for_branch b r = true <-> exists id, cgroup_branch_map_ r !! id = Some b.
Proof.
  unfold has_cgroup_for_branch. rewrite existsb_exists. split.
  - intros ([id b'] & Hin%list_elem_of_In & E%N.eqb_eq). simpl in E. subst b'. exists id.
    by apply elem_of_map_to_list.
  - intros [id Hid]. exists (id, b). split; [|apply N.eqb_refl].
    apply list_elem_of_In. by apply elem_of_map_to_list.
Qed.

Lemma branch_for_registered m ids b :
  branch_for_cgroup_ids m ids = b -> b <> 0 -> exists id, m !! id = Some b.
Proof.
  induction ids as [|id ids IH]; simpl; [by intros <-|].
  destruct (m !! id) as [b'|] eqn:E; [|done]. intros ->. by exists id.
Qed.

(** A process is only routed to a branch that has a registered group. *)
Lemma routed_has_cgroup w r pid : route w r pid <> 0 -> has_cgroup_for_branch (route w r pid) r = true.
Proof.
  intros Hr. apply has_cgroup_spec. unfold route in *. destruct (members w !! pid); [|done].
  by eapply branch_for_registered.
Qed.

(** What a registration means: after [register_cgroup] the processes whose
    nearest registered group it is are routed to the branch; a branch that a
    process is routed to has a registered group, and once the branch is
    invalidated none is left and nobody is routed to it. *)
Theorem registration_routes w r path b r' :
  world_ok w ->
  (register_cgroup w path b r = (r', true) ->
     (forall pid rel pre post, members w !! pid = Some rel ->
        current_ids w rel = pre ++ cgroup_id w path :: post ->
        Forall (fun i => cgroup_branch_map_ r !! i = None /\ i <> cgroup_id w path) pre ->
        route w r' pid = b) /\
     has_cgroup_for_branch b r' = true) /\
  (register_cgroup w path b r = (r', false) ->
     r' = r /\ dirs w !! resolved_path path = None) /\
  (has_cgroup_for_branch b (invalidate_branch b r) = false /\
   forall pid, (b <> 0 -> route w (invalidate_branch b r) pid <> b)).
Proof.
  intros Hw. unfold register_cgroup. split_and!.
  - case_decide as Hz; [done|]. intros [= <-]. split.
    + intros pid rel pre post Hm Hids Hpre. unfold route. rewrite Hm, Hids. simpl. clear Hids.
      induction Hpre as [|i pre [Hi Hne] _ IH]; simpl; [by rewrite lookup_insert_eq|].
      by rewrite lookup_insert_ne, Hi.
    + apply has_cgroup_spec. exists (cgroup_id w path). simpl. apply lookup_insert_eq.
  - case_decide as Hz; [|done]. intros [= <-]. split; [done|]. by apply cgroup_id_zero.
  - apply not_true_iff_false. rewrite has_cgroup_spec. intros [id H]. simpl in H.
    by apply map_lookup_filter_Some in H as [_ H].
  - intros pid Hb Hr. pose proof (routed_has_cgroup w (invalidate_branch b r) pid) as H.
    rewrite Hr in H. specialize (H Hb). apply has_cgroup_spec in H as [id H]. simpl in H.
    by apply map_lookup_filter_Some in H as [_ H].
Qed.

(** ** Concrete runs *)

Definition job : str := lit "/jobs/a".
Definition jobs_dir : str := lit "/sys/fs/cgroup/jobs".
Definition job_dir : str := lit "/sys/fs/cgroup/jobs/a".

Definition sample_world : World :=
  mkWorld (<[job_dir := 3]> (<[jobs_dir := 2]> (<[cgroup_mount := 1]> ∅))) {[7%Z := job]} 4 0 ∅.

Lemma sample_dirs p i : dirs sample_world !! p = Some i ->
  (p = job_dir /\ i = 3) \/ (p = jobs_dir /\ i = 2) \/ (p = cgroup_mount /\ i = 1).
Proof.
  intros Hi. simpl in Hi.
  repeat (apply lookup_insert_Some in Hi as [[<- <-]|[_ Hi]]; [by auto|]).
  by rewrite lookup_empty in Hi.
Qed.

Lemma sample_world_ok : world_ok sample_world.
Proof.
  split.
  - intros p i [[-> ->]|[[-> ->]|[-> ->]]]%sample_dirs; simpl; lia.
  - intros p q i [[-> ->]|[[-> ->]|[-> ->]]]%sample_dirs [[-> E]|[[-> E]|[-> E]]]%sample_dirs; done.
  - intros p q [i [[-> ->]|[[-> ->]|[-> ->]]]%sample_dirs] Hq; vm_compute in Hq;
      repeat (apply elem_of_cons in Hq as [->|Hq]; [vm_compute; by eexists|]);
      by apply elem_of_nil in Hq.
  - intros pid rel Hm. simpl in Hm. apply lookup_singleton_Some in Hm as [<- <-].
    split; [|vm_compute; by eexists].
    split_and!; [done|exact (bool_decide_eq_true_1 (newline ∉ job) eq_refl)
      |exact (bool_decide_eq_true_1 (zero ∉ job) eq_refl)|simpl; lia|by right].
  - reflexivity.
  - reflexivity.
Qed.

(** The group /jobs is registered for branch 5; process 7 asks, which warms
    both caches, and asks again. *)
Definition warmed (rv : bool) : World * BranchRouter :=
  match resolve sample_world (register_locked 2 5 (new_router rv true)) 7 with
  | Some (w, r, _) => (w, r)
  | None => (sample_world, new_router rv true)
  end.

Lemma is_finished c : (exists pid b, c = Finished pid b) \/ (forall pid b, c <> Finished pid b).
Proof. destruct c; try (by right). left. by eexists _, _. Qed.

Lemma run_reach rv fuel w r ts t c w' r' b :
  reach rv (mkSystem w r (<[t := c]> ts)) -> run_resolve fuel w r c = Some (w', r', b) ->
  exists pid, reach rv (mkSystem w' r' (<[t := Finished pid b]> ts)).
Proof.
  revert w r c. induction fuel as [|fuel IH]; intros w r c Hr Hrun.
  { destruct c; try done. simplify_eq/=. by eexists. }
  destruct (is_finished c) as [(pid & b' & ->)|Hfin]; [simplify_eq/=; by eexists|].
  rewrite run_resolve_step in Hrun by done. destruct (resolve_step w r c) as [[w1 r1] c1] eqn:E.
  apply (IH w1 r1 c1); [|done]. rewrite <- (insert_insert_eq ts t c1 c).
  eapply reach_step; [exact Hr|]. apply (SStep _ _ _ t c); [apply lookup_insert_eq|done].
Qed.

Lemma resolve_eq w r pid : resolve w r pid = run_resolve (resolve_fuel w pid) w r (resolve_begin r pid).
Proof. unfold resolve. reflexivity. Qed.

(** A call from start to return. *)
Lemma resolve_reach rv w r ts t pid w' r' b :
  reach rv (mkSystem w r ts) -> ts !! t = None -> is_Some (members w !! pid) ->
  resolve w r pid = Some (w', r', b) -> reach rv (mkSystem w' r' ts).
Proof.
  intros Hr Ht Hm Hrun. rewrite resolve_eq in Hrun.
  assert (reach rv (mkSystem w r (<[t := resolve_begin r pid]> ts))) as Hc.
  { eapply reach_step; [exact Hr|]. by apply SCall. }
  destruct (run_reach _ _ _ _ _ _ _ _ _ _ Hc Hrun) as [p Hf].
  rewrite <- (delete_insert_id ts t (Finished p b)) by done.
  eapply reach_step; [exact Hf|]. apply (SReturn _ _ _ _ p b). apply lookup_insert_eq.
Qed.

Lemma sample_reach rv : reach rv (mkSystem sample_world (register_locked 2 5 (new_router rv true)) ∅).
Proof.
  eapply reach_step; [apply (reach_init rv sample_world true), sample_world_ok|].
  apply SRegister; [done|reflexivity].
Qed.

Lemma sample_member : members sample_world !! 7%Z = Some job.
Proof. reflexivity. Qed.

(** A call changes neither the hierarchy nor the registrations. *)
Lemma run_keeps fuel w r c w' r' b : run_resolve fuel w r c = Some (w', r', b) ->
  dirs w' = dirs w /\ members w' = members w /\ cgroup_branch_map_ r' = cgroup_branch_map_ r.
Proof.
  revert w r c. induction fuel as [|fuel IH]; intros w r c Hrun.
  { destruct c; try done. by simplify_eq/=. }
  destruct (is_finished c) as [(pid & b' & ->)|Hfin]; [by simplify_eq/=|].
  rewrite run_resolve_step in Hrun by done. destruct (resolve_step w r c) as [[w1 r1] c1] eqn:E.
  apply IH in Hrun as (-> & -> & ->).
  destruct c as [p|p g|p|p|p fence|p fence rl|p fence rl|p fence rl chk leaf
    |p fence rl mg|p fence rl leaf [|q todo] ids mg|p b']; simpl in E; try by simplify_eq.
  - unfold track in E. case_decide; by simplify_eq.
  - destruct (path_branch_cache_ r !! rl) as [e|]; [case_match|]; simplify_eq; try done.
    by destruct fence.
  - injection E as <- <- <-. case_decide; [by destruct fence|done].
Qed.


Lemma registration_routes_witness :
  let r := (register_cgroup sample_world jobs_dir 5 (new_router true true)).1 in
  route sample_world r 7 = 5 /\ has_cgroup_for_branch 5 (invalidate_branch 5 r) = false.
Proof.
  destruct (registration_routes sample_world (new_router true true) jobs_dir 5
    (register_locked 2 5 (new_router true true)) sample_world_ok) as (H & _ & _).
  destruct (registration_routes sample_world (register_locked 2 5 (new_router true true)) jobs_dir 5
    (new_router true true) sample_world_ok) as (_ & _ & H' & _).
  split; [|exact H']. destruct H as [H _]; [reflexivity|].
  apply (H 7%Z job [3] []); [exact sample_member|reflexivity|].
  constructor; [|constructor]. split; [reflexivity|discriminate].
Defined.
