(* ===== verification/CgroupWatch.v ===== *)
(** The cgroup delete watch (cas/cgroup_watch.h, cas/cgroup_watch.cpp): inotify
    watches on the parents of registered control groups, so that the router
    drops the registration of a group that is removed behind its back.

    The event thread's loop is one function per event; [inotify_add_watch] and
    [stat] answer from an environment. The callback is the one main.cpp
    installs. *)

From S2P Require Import Prelude BranchRouter.

Record Child : Type := mkChild { ch_path : str; ch_inode : N }.
Record Parent : Type := mkParent { pa_dir : str; pa_children : gmap str Child }.

Record CgroupWatch : Type := mkWatch {
  by_wd_ : gmap Z Parent;
  wd_by_parent_ : gmap str Z;
  running_ : bool
}.

Definition no_watch : CgroupWatch := mkWatch ∅ ∅ false.

(** [while (size > 1 && back() == '/') pop_back()]. *)
Fixpoint trim_back (fuel : nat) (s : str) : str :=
  match fuel with
  | O => s
  | S fuel' =>
      match last s with
      | Some c => if decide (c = slash /\ (1 < length s)%nat) then trim_back fuel' (take (length s - 1) s) else s
      | None => s
      end
  end.

(** Parent directory and name. *)
Definition split_path (dir : str) : option (str * str) :=
  let trimmed := trim_back (length dir) dir in
  match rfind_char slash trimmed with
  | None => None
  | Some i =>
      if decide (length trimmed <= i + 1)%nat then None
      else Some (if decide (i = 0)%nat then [slash] else take i trimmed, drop (i + 1) trimmed)
  end.

(** [inotify_init1] and [eventfd]. *)
Definition watch_start (inotify_ok event_ok : bool) (w : CgroupWatch) : CgroupWatch * bool :=
  if running_ w then (w, true)
  else if negb inotify_ok || negb event_ok then (w, false)
  else (mkWatch (by_wd_ w) (wd_by_parent_ w) true, true).

Definition active (w : CgroupWatch) : bool := running_ w.

Definition children_of (wd : Z) (w : CgroupWatch) : gmap str Child :=
  match by_wd_ w !! wd with Some p => pa_children p | None => ∅ end.

(** [stat]: the inode of a directory; [add]: the watch descriptor. *)
Definition watch (stat : option N) (add : str -> option Z) (dir : str) (w : CgroupWatch) : CgroupWatch * bool :=
  match split_path dir with
  | None => (w, false)
  | Some (parent, name) =>
      match stat with
      | None => (w, false)
      | Some inode =>
          if negb (running_ w) then (w, false)
          else
            match add parent with
            | None => (w, false)
            | Some wd =>
                (mkWatch (<[wd := mkParent parent (<[name := mkChild dir inode]> (children_of wd w))]> (by_wd_ w))
                   (<[parent := wd]> (wd_by_parent_ w)) true, true)
            end
      end
  end.

(** The descriptors given to [inotify_rm_watch] are the second result. *)
Definition unwatch (dir : str) (w : CgroupWatch) : CgroupWatch * list Z :=
  match split_path dir with
  | None => (w, [])
  | Some (parent, name) =>
      match wd_by_parent_ w !! parent with
      | None => (w, [])
      | Some wd =>
          match by_wd_ w !! wd with
          | None => (w, [])
          | Some p =>
              let rest := delete name (pa_children p) in
              if decide (rest = ∅) then
                (mkWatch (delete wd (by_wd_ w)) (delete parent (wd_by_parent_ w)) (running_ w),
                 if running_ w then [wd] else [])
              else (mkWatch (<[wd := mkParent (pa_dir p) rest]> (by_wd_ w)) (wd_by_parent_ w) (running_ w), [])
          end
      end
  end.

Definition watch_stop (w : CgroupWatch) : CgroupWatch := if running_ w then mkWatch ∅ ∅ false else w.

(** What [run] tells apart: a name removed under a watched parent, the watch
    itself gone (ignored or unmounted), anything else. *)
Inductive InotifyEvent : Type :=
| NameGone (wd : Z) (name : str)
| WatchGone (wd : Z)
| OtherEvent (wd : Z).

(** The calls of [on_delete_] and of [inotify_rm_watch]. *)
Definition handle_event (e : InotifyEvent) (w : CgroupWatch) : CgroupWatch * list Child * list Z :=
  match e with
  | NameGone wd name =>
      match by_wd_ w !! wd with
      | None => (w, [], [])
      | Some p =>
          match pa_children p !! name with
          | None => (w, [], [])
          | Some child =>
              let rest := delete name (pa_children p) in
              if decide (rest = ∅) then
                (mkWatch (delete wd (by_wd_ w)) (delete (pa_dir p) (wd_by_parent_ w)) (running_ w), [child], [wd])
              else (mkWatch (<[wd := mkParent (pa_dir p) rest]> (by_wd_ w)) (wd_by_parent_ w) (running_ w), [child], [])
          end
      end
  | WatchGone wd =>
      match by_wd_ w !! wd with
      | None => (w, [], [])
      | Some p =>
          (mkWatch (delete wd (by_wd_ w)) (delete (pa_dir p) (wd_by_parent_ w)) (running_ w),
           snd <$> map_to_list (pa_children p), [])
      end
  | OtherEvent _ => (w, [], [])
  end.

(** The daemon's callback. *)
Definition on_delete (c : Child) (r : BranchRouter) : BranchRouter := evict_cgroup_id (ch_inode c) r.

Definition deliver (l : list Child) (r : BranchRouter) : BranchRouter := foldl (fun r c => on_delete c r) r l.

(** ** Until the deletion *)

(** Everything that happens to the watch. *)
Inductive watch_op : Type :=
| OpWatch (stat : option N) (add : str -> option Z) (dir : str)
| OpUnwatch (dir : str)
| OpEvent (e : InotifyEvent).

Definition exec (op : watch_op) (x : CgroupWatch * BranchRouter) : CgroupWatch * BranchRouter :=
  let '(w, r) := x in
  match op with
  | OpWatch stat add dir => ((watch stat add dir w).1, r)
  | OpUnwatch dir => ((unwatch dir w).1, r)
  | OpEvent e => let '(w', calls, _) := handle_event e w in (w', deliver calls r)
  end.

Definition watched (wd : Z) (name : str) (c : Child) (w : CgroupWatch) : Prop := children_of wd w !! name = Some c.

(** The operation is not about the child [name] of the directory of [wd]: no
    path of another spelling is watched or given up for it either. *)
Definition elsewhere (wd : Z) (name : str) (op : watch_op) : Prop :=
  match op with
  | OpWatch _ add dir => forall parent, split_path dir = Some (parent, name) -> add parent <> Some wd
  | OpUnwatch dir => forall parent n, split_path dir = Some (parent, n) -> n <> name
  | OpEvent (NameGone wd' n) => wd' <> wd \/ n <> name
  | OpEvent (WatchGone wd') => wd' <> wd
  | OpEvent (OtherEvent _) => True
  end.

Lemma children_insert wd p w m b wd' :
  children_of wd' (mkWatch (<[wd := p]> (by_wd_ w)) m b) = if decide (wd' = wd) then pa_children p else children_of wd' w.
Proof.
  unfold children_of. cbn [by_wd_]. destruct (decide (wd' = wd)) as [->|H]; [by rewrite lookup_insert_eq|].
  by rewrite lookup_insert_ne by congruence.
Qed.

Lemma children_delete wd w m b wd' : wd' <> wd ->
  children_of wd' (mkWatch (delete wd (by_wd_ w)) m b) = children_of wd' w.
Proof. intros H. unfold children_of. cbn [by_wd_]. by rewrite lookup_delete_ne by congruence. Qed.

(** Taking a child out of a directory leaves the others. *)
Lemma drop_child wd p name n w m1 m2 b wd' c :
  by_wd_ w !! wd = Some p -> wd' <> wd \/ n <> name -> watched wd' name c w ->
  watched wd' name c
    (if decide (delete n (pa_children p) = ∅) then mkWatch (delete wd (by_wd_ w)) m1 b
     else mkWatch (<[wd := mkParent (pa_dir p) (delete n (pa_children p))]> (by_wd_ w)) m2 b).
Proof.
  intros Hp Hne Hw. unfold watched in *. destruct (decide (wd' = wd)) as [->|Hwd].
  - destruct Hne as [?|Hne]; [done|]. unfold children_of in Hw. rewrite Hp in Hw.
    case_decide as He.
    + assert (delete n (pa_children p) !! name = None) as Hn by by rewrite He, lookup_empty.
      rewrite lookup_delete_ne in Hn by done. congruence.
    + rewrite children_insert, decide_True by done. cbn. by rewrite lookup_delete_ne by done.
  - case_decide; [by rewrite children_delete|]. by rewrite children_insert, decide_False.
Qed.

Lemma elsewhere_keeps wd name c op w r :
  elsewhere wd name op -> watched wd name c w -> watched wd name c (exec op (w, r)).1.
Proof.
  intros He Hw. destruct op as [stat add dir|dir|e]; cbn [exec fst elsewhere] in *.
  - unfold watch. destruct (split_path dir) as [[parent n]|]; [|done]. destruct stat as [inode|]; [|done].
    destruct (negb _); [done|]. destruct (add parent) as [wd'|] eqn:Ea; [|done]. cbn [fst].
    unfold watched. rewrite children_insert. case_decide as Hd; [subst wd'|done]. cbn [pa_children].
    destruct (decide (n = name)) as [->|Hn]; [by destruct (He parent eq_refl)|]. by rewrite lookup_insert_ne.
  - unfold unwatch. destruct (split_path dir) as [[parent n]|]; [|done].
    destruct (wd_by_parent_ w !! parent) as [wd'|]; [|done]. destruct (by_wd_ w !! wd') as [p|] eqn:Hp; [|done].
    pose proof (drop_child wd' p name n w (delete parent (wd_by_parent_ w)) (wd_by_parent_ w) (running_ w) wd c Hp
      (or_intror (He parent n eq_refl)) Hw) as H. by case_decide.
  - destruct e as [wd' n|wd'|wd']; cbn [handle_event].
    + destruct (by_wd_ w !! wd') as [p|] eqn:Hp; [|done]. destruct (pa_children p !! n) as [c'|]; [|done].
      assert (wd <> wd' \/ n <> name) as Hne by (destruct He; [left; congruence|by right]).
      pose proof (drop_child wd' p name n w (delete (pa_dir p) (wd_by_parent_ w)) (wd_by_parent_ w) (running_ w) wd c Hp Hne Hw) as H.
      by case_decide.
    + destruct (by_wd_ w !! wd') as [p|] eqn:Hp; [|done]. unfold watched. cbn [fst]. by rewrite children_delete by congruence.
    + done.
Qed.

Lemma watch_makes_watched stat add dir w w' parent name inode wd :
  split_path dir = Some (parent, name) -> stat = Some inode -> add parent = Some wd ->
  watch stat add dir w = (w', true) -> watched wd name (mkChild dir inode) w'.
Proof.
  intros Hs -> Ha. unfold watch. rewrite Hs, Ha. destruct (negb _); [done|]. intros [= <-].
  unfold watched. rewrite children_insert, decide_True by done. cbn [pa_children]. by rewrite lookup_insert_eq.
Qed.

Lemma deleted_calls_back wd name c w :
  watched wd name c w -> (handle_event (NameGone wd name) w).1.2 = [c] /\
  forall c', ~ watched wd name c' (handle_event (NameGone wd name) w).1.1.
Proof.
  unfold watched. unfold children_of at 1. cbn [handle_event]. destruct (by_wd_ w !! wd) as [p|] eqn:Hp; [|by rewrite lookup_empty].
  intros ->. case_decide; cbn [fst snd]; (split; [done|]); intros c'.
  - unfold children_of. cbn [by_wd_]. by rewrite lookup_delete_eq, lookup_empty.
  - rewrite children_insert, decide_True by done. cbn [pa_children]. by rewrite lookup_delete_eq.
Qed.

(** C19. A group that was watched is dropped from the router when it is removed,
    whatever is done about other directories in between, as long as no path of
    its name is given up, it is not watched again under its parent's descriptor
    and the watch of its parent is not lost: the removal is reported once, with
    the inode read when it was watched, and no process is routed by that inode
    any more. *)
Theorem watched_deletion_evicts stat add dir w w' r parent name inode wd ops :
  split_path dir = Some (parent, name) -> stat = Some inode -> add parent = Some wd ->
  watch stat add dir w = (w', true) -> Forall (elsewhere wd name) ops ->
  let '(w1, r1) := foldl (fun x op => exec op x) (w', r) ops in
  let '(w2, r2) := exec (OpEvent (NameGone wd name)) (w1, r1) in
  (handle_event (NameGone wd name) w1).1.2 = [mkChild dir inode] /\
  cgroup_branch_map_ r2 !! inode = None /\ path_branch_cache_ r2 = ∅ /\ pid_fence_cache_ r2 = ∅ /\
  (handle_event (NameGone wd name) w2).1.2 = [].
Proof.
  intros Hs Hst Ha Hw Hops. pose proof (watch_makes_watched _ _ _ _ _ _ _ _ _ Hs Hst Ha Hw) as Hc. clear Hw.
  revert w' r Hc. induction Hops as [|op ops Hop _ IH]; intros w' r Hc.
  - cbn [foldl exec]. pose proof (deleted_calls_back _ _ _ _ Hc) as [H1 H2].
    destruct (handle_event (NameGone wd name) w') as [[w2 calls] rm] eqn:E. cbn [fst snd] in *. subst calls.
    split_and!; [done| |done|done|].
    + cbn. by rewrite lookup_delete_eq.
    + cbn [handle_event]. destruct (by_wd_ w2 !! wd) as [p|] eqn:Hp; [|done].
      destruct (pa_children p !! name) as [c'|] eqn:Hn; [|done]. exfalso. apply (H2 c').
      unfold watched, children_of. by rewrite Hp.
  - cbn [foldl]. pose proof (elsewhere_keeps wd name _ op w' r Hop Hc) as Hc'.
    destruct (exec op (w', r)) as [w1 r1]. by apply IH.
Qed.

(** ** A group removed while another is watched and given up *)

Definition group_a : str := lit "/sys/fs/cgroup/jobs/a".
Definition group_b : str := lit "/sys/fs/cgroup/jobs/b".

Definition one_wd : str -> option Z := fun _ => Some 1%Z.

Definition watched_a : CgroupWatch := (watch (Some 3) one_wd group_a (watch_start true true no_watch).1).1.

Definition jobs_ops : list watch_op := [OpWatch (Some 4) one_wd group_b; OpUnwatch group_b; OpEvent (OtherEvent 1)].

Lemma jobs_elsewhere : Forall (elsewhere 1 (lit "a")) jobs_ops.
Proof.
  repeat (apply Forall_cons; split); try apply Forall_nil_2; cbn [elsewhere].
  - intros parent Hs. vm_compute in Hs. discriminate.
  - intros parent n Hs. vm_compute in Hs. by injection Hs as <- <-.
  - done.
Qed.

Lemma watched_deletion_evicts_witness :
  let '(w1, r1) := foldl (fun x op => exec op x) (watched_a, register_locked 3 5 (new_router false false)) jobs_ops in
  let '(w2, r2) := exec (OpEvent (NameGone 1 (lit "a"))) (w1, r1) in
  (handle_event (NameGone 1 (lit "a")) w1).1.2 = [mkChild group_a 3] /\
  cgroup_branch_map_ r2 !! 3 = None /\ path_branch_cache_ r2 = ∅ /\ pid_fence_cache_ r2 = ∅ /\
  (handle_event (NameGone 1 (lit "a")) w2).1.2 = [].
Proof.
  apply (watched_deletion_evicts (Some 3) one_wd group_a (watch_start true true no_watch).1 watched_a
    (register_locked 3 5 (new_router false false)) (lit "/sys/fs/cgroup/jobs") (lit "a") 3 1 jobs_ops).
  - vm_compute. reflexivity.
  - reflexivity.
  - reflexivity.
  - vm_compute. reflexivity.
  - exact jobs_elsewhere.
Defined.
