(* ===== verification/Handles.v ===== *)
(** Open file handles ([FhState] of cas/daemon.h and the handle table of
    cas/daemon.cpp).

    A handle shows its base blob, loaded on first use, under its own write
    buffer. Flushing writes what it shows as a new blob, publishes it at the
    handle's path and makes it the new base. *)

From S2P Require Import Prelude Hashes WorkingTree WriteBuffer ObjectStore TreeSerialize.

Record FhState : Type := mkFh {
  fh_path : str;
  fh_branch : N;
  pinned_commit : Hash;
  base_blob : Hash;
  base_size : N;
  base_cache : bytes;
  base_cache_loaded : bool;
  write_buf : option WriteBuffer;
  stale : bool;
  blob_view : BlobView;
  fd_read_eligible : bool
}.

Definition set_cache (c : bytes) (s : FhState) : FhState :=
  mkFh (fh_path s) (fh_branch s) (pinned_commit s) (base_blob s) (base_size s) c true (write_buf s)
    (stale s) (blob_view s) (fd_read_eligible s).
Definition set_buf (w : WriteBuffer) (s : FhState) : FhState :=
  mkFh (fh_path s) (fh_branch s) (pinned_commit s) (base_blob s) (base_size s) (base_cache s)
    (base_cache_loaded s) (Some w) (stale s) (blob_view s) (fd_read_eligible s).
Definition set_stale (s : FhState) : FhState :=
  mkFh (fh_path s) (fh_branch s) (pinned_commit s) (base_blob s) (base_size s) (base_cache s)
    (base_cache_loaded s) (write_buf s) true (blob_view s) (fd_read_eligible s).
Definition forfeit_fd (s : FhState) : FhState :=
  mkFh (fh_path s) (fh_branch s) (pinned_commit s) (base_blob s) (base_size s) (base_cache s)
    (base_cache_loaded s) (write_buf s) (stale s) (blob_view s) false.

(** After a flush: the data is the new base, the buffer is clear. *)
Definition rebased (blob : Hash) (data : bytes) (w : WriteBuffer) (s : FhState) : FhState :=
  mkFh (fh_path s) (fh_branch s) (pinned_commit s) blob (len data) data true (Some (wb_clear w))
    (stale s) (blob_view s) (fd_read_eligible s).

(** A read failure leaves the cache empty, and loaded. *)
Definition ensure_base_cache (st : ObjectStore) (io : bool) (s : FhState) : FhState :=
  if base_cache_loaded s then s
  else set_cache (if decide (base_blob s = ZERO_HASH) then base_cache s
                  else default (base_cache s) (read_blob st io (base_blob s))) s.

Definition kDefaultMode : N := 33188.  (** 0100644 *)

Definition mode_at (wt : WorkingTree) (path : str) : N :=
  match wt_lookup wt path with Some e => e_mode e | None => kDefaultMode end.

(** Outcomes of the base read and of the write, one pair for each handle. *)
Record FlushEnv : Type := mkFlush { base_io : bool; blob_write : WriteEnv }.

Section hashing.
Context (blake3 : bytes -> Hash).

(** The body both flushes share, for a handle that is not stale. *)
Definition flush_handle (env : FlushEnv) (s : FhState) (st : ObjectStore) (wt : WorkingTree) :
    ObjectStore * WorkingTree * FhState * bool :=
  match write_buf s with
  | None => (st, wt, s, true)
  | Some w =>
      if negb (is_dirty w) then (st, wt, s, true)
      else
        let s1 := ensure_base_cache st (base_io env) s in
        let data := materialize w (base_cache s1) in
        let '(st', new_blob) := write_blob blake3 data (blob_write env) st in
        if decide (new_blob = ZERO_HASH) then (st', wt, s1, false)
        else (st', wt_insert wt (fh_path s) (mkEntry Blob new_blob (mode_at wt (fh_path s))),
              rebased new_blob data w s1, true)
  end.

Abbreviation fh_table := (gmap N FhState).

(** The loop over the table, in the iteration order of the hash map. *)
Fixpoint flush_loop (envs : N -> FlushEnv) (branch_id : N) (order : list N) (st : ObjectStore)
    (wt : WorkingTree) (t : fh_table) : ObjectStore * WorkingTree * fh_table * bool :=
  match order with
  | [] => (st, wt, t, true)
  | fh :: rest =>
      match t !! fh with
      | None => flush_loop envs branch_id rest st wt t
      | Some s =>
          if negb (fh_branch s =? branch_id) || stale s then flush_loop envs branch_id rest st wt t
          else
            let '(st', wt', s', ok) := flush_handle (envs fh) s st wt in
            let t' := <[fh := s']> t in
            if ok : bool then flush_loop envs branch_id rest st' wt' t' else (st', wt', t', false)
      end
  end.

End hashing.

Definition invalidate_fhs (branch_id : N) (t : gmap N FhState) : gmap N FhState :=
  (fun s => if fh_branch s =? branch_id then set_stale s else s) <$> t.

(** [static_cast<int64_t>]. *)
Definition i64 (n : N) : Z :=
  if u64 n <? 2 ^ 63 then Z.of_N (u64 n) else (Z.of_N (u64 n) - 2 ^ 64)%Z.

Definition dirty_size (s : FhState) (w : WriteBuffer) : Z :=
  i64 (effective_size w (if base_cache_loaded s then len (base_cache s) else base_size s)).

Fixpoint dirty_fh_size (path : str) (branch_id : N) (order : list N) (t : gmap N FhState) : Z :=
  match order with
  | [] => (-1)%Z
  | fh :: rest =>
      match t !! fh with
      | Some s =>
          match write_buf s with
          | Some w =>
              if negb (stale s) && bool_decide (fh_path s = path) && (fh_branch s =? branch_id) &&
                 is_dirty w
              then dirty_size s w else dirty_fh_size path branch_id rest t
          | None => dirty_fh_size path branch_id rest t
          end
      | None => dirty_fh_size path branch_id rest t
      end
  end.

(** ** What a handle shows *)

(** The base the handle stands on, if it can be read. *)
Definition base_of (st : ObjectStore) (s : FhState) : option bytes :=
  if base_cache_loaded s then Some (base_cache s)
  else if decide (base_blob s = ZERO_HASH) then Some (base_cache s)
  else read_blob st true (base_blob s).

(** The file as the handle shows it. *)
Definition shown_file (st : ObjectStore) (s : FhState) : option bytes :=
  match write_buf s with
  | Some w => materialize w <$> base_of st s
  | None => None
  end.

(** The blob and the size the handle records are those of its base. *)
Record fh_ok (st : ObjectStore) (s : FhState) : Prop := {
  fh_buf : exists w, write_buf s = Some w /\ wb_inv w;
  fh_base : exists b, base_of st s = Some b /\ base_size s = len b /\ len b < 2 ^ 63
}.

Lemma ensure_base_cache_ok st s :
  fh_ok st s -> ensure_base_cache st true s = set_cache (default [] (base_of st s)) s.
Proof.
  intros [_ (b & Hb & _)]. unfold ensure_base_cache, base_of in *.
  destruct s as [p bi pc bb bs c l w sl v e]. simpl in *. destruct l; [done|].
  case_decide; [done|]. by rewrite Hb.
Qed.

(** ** Flushing *)

(** Every blob that could be read still can. *)
Definition blobs_kept (st st' : ObjectStore) : Prop :=
  forall h d, read_blob st true h = Some d -> read_blob st' true h = Some d.

#[global] Instance blobs_kept_preorder : PreOrder blobs_kept.
Proof. split; [by intros st h d|]. intros s1 s2 s3 H1 H2 h d Hd. by apply H2, H1. Qed.

(** A file the store can hold. *)
Definition storable (U : bytes -> Prop) (data : bytes) : Prop :=
  U (lit "blob" ++ blob_body data) /\ len data < 2 ^ 63 - 12.

Lemma blob_written blake3 U data env st st' h :
  contents_ok blake3 U st -> collision_free blake3 U -> storable U data ->
  write_blob blake3 data env st = (st', h) -> h <> ZERO_HASH ->
  contents_ok blake3 U st' /\ read_blob st' true h = Some data /\ blobs_kept st st'.
Proof.
  intros [Hi HU] Hcf [HUc Hl] Hw Hne. unfold len in Hl.
  apply (write_object_stores blake3 U) in Hw as (-> & Hi' & HU' & (o & Ho & Hc) & Hold); try done.
  split; [done|]. split.
  - apply read_blob_body; [lia|]. by eapply read_object_content.
  - intros k d. unfold read_blob. destruct (read_object st true k (lit "blob")) as [body|] eqn:E; [|done].
    apply read_object_tag in E as (o1 & Ho1 & Hc1). destruct (Hold k o1 Ho1) as (o2 & Ho2 & Hc2).
    rewrite (read_object_content st' k o2 (lit "blob") body); [done..|congruence].
Qed.

Lemma grown_blobs st st' :
  (forall h o, disk st !! h = Some o -> exists o', disk st' !! h = Some o' /\ f_content o' = f_content o) ->
  blobs_kept st st'.
Proof.
  intros Hg h d. unfold read_blob. destruct (read_object st true h (lit "blob")) as [body|] eqn:E; [|done].
  apply read_object_tag in E as (o & Ho & Hc). destruct (Hg h o Ho) as (o' & Ho' & Hc').
  rewrite (read_object_content st' h o' (lit "blob") body); [done..|congruence].
Qed.

Lemma base_of_kept st st' s b : blobs_kept st st' -> base_of st s = Some b -> base_of st' s = Some b.
Proof. intros Hk. unfold base_of. destruct (base_cache_loaded s); [done|]. case_decide; [done|]. apply Hk. Qed.

Lemma fh_ok_kept st st' s : blobs_kept st st' -> fh_ok st s -> fh_ok st' s.
Proof.
  intros Hk [Hw (b & Hb & H)]. split; [done|]. exists b. split; [|done]. by eapply base_of_kept.
Qed.

Lemma shown_file_kept st st' s d : blobs_kept st st' -> shown_file st s = Some d -> shown_file st' s = Some d.
Proof.
  intros Hk. unfold shown_file. destruct (write_buf s) as [w|]; [|done].
  destruct (base_of st s) as [b|] eqn:E; [|done]. by rewrite (base_of_kept st st' s b).
Qed.

Lemma shown_file_ok st s : fh_ok st s -> exists d, shown_file st s = Some d.
Proof. intros [(w & Hw & _) (b & Hb & _)]. unfold shown_file. rewrite Hw, Hb. by eexists. Qed.

Lemma is_dirty_clear w : is_dirty (wb_clear w) = false.
Proof. reflexivity. Qed.

Lemma materialize_clean w base : wb_inv w -> is_dirty w = false -> materialize w base = base.
Proof.
  intros Hw Hd. unfold is_dirty in Hd. apply orb_false_iff in Hd as [Hd Ho].
  assert (overlay_ w = []) as He.
  { destruct Hw as [Hr Hs _]. rewrite Hs in Hd. apply N.ltb_ge in Hd.
    destruct (overlay_ w) as [|r l]; [done|]. simpl in Hd. destruct Hr as (_ & Hne & _).
    apply len_pos in Hne. lia. }
  assert (size_override_ w = None) as Hso.
  { apply bool_decide_eq_false in Ho. destruct (size_override_ w); [|done]. by destruct Ho. }
  apply materialize_ext; [done| |].
  - unfold effective_size. rewrite Hso, He. unfold len. simpl. lia.
  - intros i Hi. rewrite He. unfold shown. simpl. rewrite Nat2N.id.
    destruct (base !! i) eqn:E; [done|]. apply lookup_ge_None in E. lia.
Qed.

Section flushing.
Context (blake3 : bytes -> Hash) (U : bytes -> Prop).
Context (Hcf : collision_free blake3 U).

(** What a flush leaves of a handle that shows [data]. *)
Record flushed (s : FhState) (data : bytes) (st st' : ObjectStore) (wt wt' : WorkingTree)
    (s' : FhState) : Prop := {
  fl_store : contents_ok blake3 U st';
  fl_kept : blobs_kept st st';
  fl_ok : fh_ok st' s';
  fl_shown : shown_file st' s' = Some data;
  fl_clean : forall w, write_buf s' = Some w -> is_dirty w = false;
  fl_same : fh_path s' = fh_path s /\ fh_branch s' = fh_branch s /\ stale s' = stale s;
  fl_tree : wt' = wt \/ exists h, read_blob st' true h = Some data /\ h <> ZERO_HASH /\
    wt' = wt_insert wt (fh_path s) (mkEntry Blob h (mode_at wt (fh_path s)));
  fl_unwritten : (forall w, write_buf s = Some w -> is_dirty w = false) -> wt' = wt;
  fl_written : forall w, write_buf s = Some w -> is_dirty w = true ->
    exists h, read_blob st' true h = Some data /\ h <> ZERO_HASH /\
    wt' = wt_insert wt (fh_path s) (mkEntry Blob h (mode_at wt (fh_path s)))
}.

Lemma flush_handle_ok env s st wt st' wt' s' data :
  contents_ok blake3 U st -> fh_ok st s -> shown_file st s = Some data -> storable U data ->
  base_io env = true -> flush_handle blake3 env s st wt = (st', wt', s', true) ->
  flushed s data st st' wt wt' s'.
Proof using Hcf.
  intros Hst Hok Hsh Hu Hio. pose proof Hok as [(w & Hw & Hwi) (b & Hb & Hsz & Hlt)].
  unfold flush_handle. rewrite Hw. destruct (is_dirty w) eqn:Hd; simpl.
  - rewrite Hio, ensure_base_cache_ok by done. rewrite Hb. simpl.
    assert (materialize w b = data) as -> by (unfold shown_file in Hsh; rewrite Hw, Hb in Hsh; by simplify_eq/=).
    destruct (write_blob blake3 data (blob_write env) st) as [st1 h] eqn:E. case_decide as Hz; [done|].
    intros [= <- <- <-].
    destruct (blob_written blake3 U data _ _ _ _ Hst Hcf Hu E Hz) as (Hc & Hr & Hk).
    assert (fh_ok st1 (rebased h data w (set_cache b s))) as Hok'.
    { split; simpl; [eexists; split; [done|apply wb_inv_clear]|]. exists data.
      destruct Hu as [_ Hl]. split_and!; [done..|lia]. }
    split; try done.
    + unfold shown_file, base_of. simpl. by rewrite materialize_clear.
    + intros w0 [= <-]. apply is_dirty_clear.
    + right. by exists h.
    + intros Hcl. by rewrite (Hcl w Hw) in Hd.
    + intros w0 _ _. by exists h.
  - intros [= <- <- <-]. split; try done; [by intros w0 [= <-]%(eq_trans (eq_sym Hw))|by left|].
    intros w0 Hw0. rewrite Hw in Hw0. simplify_eq. by rewrite Hd.
Qed.

(** A failed flush leaves the tree alone. *)
Lemma flush_handle_fails env s st wt st' wt' s' :
  flush_handle blake3 env s st wt = (st', wt', s', false) ->
  wt' = wt /\ write_buf s' = write_buf s /\ base_blob s' = base_blob s.
Proof.
  unfold flush_handle. destruct (write_buf s) as [w|] eqn:Hw; [|done].
  destruct (is_dirty w); simpl; [|done].
  destruct (write_blob _ _ _ _) as [st1 h]. case_decide; [|done]. intros [= _ <- <-].
  unfold ensure_base_cache. by destruct (base_cache_loaded s).
Qed.

(** A dirty, current handle of the branch open on [p]. *)
Definition dirty_here (bid : N) (p : str) (t : gmap N FhState) (fh : N) : bool :=
  match t !! fh with
  | Some s =>
      (fh_branch s =? bid) && negb (stale s) && bool_decide (fh_path s = p) &&
      match write_buf s with Some w => is_dirty w | None => false end
  | None => false
  end.

Definition writers (bid : N) (p : str) (t : gmap N FhState) (order : list N) : list N :=
  filter (fun fh => dirty_here bid p t fh = true) order.

(** The handles of the table are in order, and the store can take their files. *)
Definition table_ok (st : ObjectStore) (t : gmap N FhState) : Prop :=
  forall fh s, t !! fh = Some s -> fh_ok st s /\ forall d, shown_file st s = Some d -> storable U d.

(** The file at [p] after the loop: of the last writer in order, if any. *)
Definition tree_flushed (bid : N) (order : list N) (t : gmap N FhState) (st st' : ObjectStore)
    (wt wt' : WorkingTree) (p : str) : Prop :=
  match last (writers bid p t order) with
  | None => raw wt' !! p = raw wt !! p
  | Some fh => exists s data h,
      t !! fh = Some s /\ shown_file st s = Some data /\ read_blob st' true h = Some data /\
      h <> ZERO_HASH /\ raw wt' !! p = Some (mkEntry Blob h (mode_at wt p))
  end.

Definition handle_flushed (bid : N) (st st' : ObjectStore) (s s' : FhState) : Prop :=
  fh_path s' = fh_path s /\ fh_branch s' = fh_branch s /\ stale s' = stale s /\
  shown_file st' s' = shown_file st s /\
  (fh_branch s = bid -> stale s = false -> forall w, write_buf s' = Some w -> is_dirty w = false).

Lemma table_ok_kept st st' t : blobs_kept st st' -> table_ok st t -> table_ok st' t.
Proof using.
  intros Hk Ht fh s Hs. destruct (Ht fh s Hs) as [Hok Hu]. split; [by eapply fh_ok_kept|].
  intros d Hd. destruct (shown_file_ok _ _ Hok) as [d' Hd']. apply Hu.
  pose proof (shown_file_kept _ _ _ _ Hk Hd'). congruence.
Qed.

Lemma table_ok_insert st t fh s : table_ok st t -> fh_ok st s ->
  (forall d, shown_file st s = Some d -> storable U d) -> table_ok st (<[fh := s]> t).
Proof using.
  intros Ht Hok Hu fh' s'. destruct (decide (fh = fh')) as [<-|Hne].
  - rewrite lookup_insert_eq. by intros [= <-].
  - rewrite lookup_insert_ne by done. apply Ht.
Qed.

Lemma dirty_here_insert bid p t fh s x : x <> fh ->
  dirty_here bid p (<[fh := s]> t) x = dirty_here bid p t x.
Proof using. intros Hne. unfold dirty_here. by rewrite lookup_insert_ne. Qed.

Lemma writers_insert bid p t order fh s : fh ∉ order ->
  writers bid p (<[fh := s]> t) order = writers bid p t order.
Proof using.
  induction order as [|x order IH]; [done|]. intros [Hne Hn]%not_elem_of_cons.
  unfold writers in *. rewrite !filter_cons, IH by done. by rewrite dirty_here_insert.
Qed.

Lemma writers_elem bid p t order fh : fh ∈ writers bid p t order -> fh ∈ order.
Proof using. unfold writers. by intros [_ H]%list_elem_of_filter. Qed.

Lemma writers_cons bid p t fh order :
  writers bid p t (fh :: order) =
  if dirty_here bid p t fh then fh :: writers bid p t order else writers bid p t order.
Proof using. unfold writers. rewrite filter_cons. by destruct (dirty_here bid p t fh). Qed.

Lemma raw_wt_insert wt p e q : raw (wt_insert wt p e) !! q = if decide (p = q) then Some e else raw wt !! q.
Proof using.
  unfold wt_insert. rewrite raw_insert. case_decide as Hd; [by rewrite Hd, lookup_insert_eq|].
  by rewrite lookup_insert_ne.
Qed.

Lemma mode_at_raw wt wt' p : raw wt' !! p = raw wt !! p -> mode_at wt' p = mode_at wt p.
Proof using. intros H. unfold mode_at. rewrite !wt_lookup_live. unfold live. by rewrite !lookup_live_of, H. Qed.

Lemma mode_at_insert wt p h q :
  mode_at (wt_insert wt p (mkEntry Blob h (mode_at wt p))) q = mode_at wt q.
Proof using.
  destruct (decide (p = q)) as [<-|Hne].
  - unfold mode_at at 1. rewrite wt_lookup_live. unfold live.
    rewrite lookup_live_of, raw_wt_insert, decide_True by done.
    done.
  - apply mode_at_raw. rewrite raw_wt_insert. by rewrite decide_False.
Qed.

(** The first handle's flush, then the rest. *)
Lemma tree_flushed_cons bid fh rest t s s' data st st1 st' wt wt1 wt' p :
  fh ∉ rest -> t !! fh = Some s -> fh_branch s = bid -> stale s = false ->
  table_ok st t -> shown_file st s = Some data -> blobs_kept st1 st' ->
  flushed s data st st1 wt wt1 s' ->
  tree_flushed bid rest (<[fh := s']> t) st1 st' wt1 wt' p ->
  tree_flushed bid (fh :: rest) t st st' wt wt' p.
Proof using.
  intros Hn Hs Hb Hst Ht Hsh Hk Hf. unfold tree_flushed.
  rewrite writers_cons, writers_insert by done.
  assert (mode_at wt1 p = mode_at wt p) as Hm.
  { destruct (fl_tree _ _ _ _ _ _ _ Hf) as [->|(h & _ & _ & ->)]; [done|]. apply mode_at_insert. }
  destruct (last (writers bid p t rest)) as [x|] eqn:El.
  - assert (last (if dirty_here bid p t fh then fh :: writers bid p t rest else writers bid p t rest) = Some x)
      as -> by (destruct (dirty_here bid p t fh); [by rewrite last_cons, El|done]).
    intros (sx & d & h & Hx & Hd & Hr & Hz & Hraw). apply last_Some_elem_of, writers_elem in El.
    rewrite lookup_insert_ne in Hx by (intros ->; done). exists sx, d, h. split_and!; try done.
    + destruct (Ht x sx Hx) as [Hok _]. destruct (shown_file_ok _ _ Hok) as [d' Hd'].
      pose proof (shown_file_kept _ _ _ _ (fl_kept _ _ _ _ _ _ _ Hf) Hd'). congruence.
    + by rewrite <- Hm.
  - apply last_None in El. rewrite El. intros Hraw.
    destruct (dirty_here bid p t fh) eqn:Ed; simpl.
    + unfold dirty_here in Ed. rewrite Hs in Ed. apply andb_true_iff in Ed as [Ed Hd].
      apply andb_true_iff in Ed as [_ Hp]. apply bool_decide_eq_true in Hp.
      destruct (write_buf s) as [w|] eqn:Ew; [|done].
      destruct (fl_written _ _ _ _ _ _ _ Hf w Ew Hd) as (h & Hr & Hz & ->).
      exists s, data, h. split_and!; try done; [by apply Hk|].
      rewrite Hraw, raw_wt_insert, decide_True by done. by rewrite Hp.
    + rewrite Hraw. destruct (decide (fh_path s = p)) as [Hp|Hp].
      * rewrite (fl_unwritten _ _ _ _ _ _ _ Hf); [done|]. intros w Hw. unfold dirty_here in Ed.
        rewrite Hs, Hw, Hb, Hst, N.eqb_refl in Ed. simpl in Ed. by rewrite bool_decide_true in Ed.
      * destruct (fl_tree _ _ _ _ _ _ _ Hf) as [->|(h & _ & _ & ->)]; [done|].
        by rewrite raw_wt_insert, decide_False.
Qed.

Lemma flush_loop_ok envs bid order st wt t st' wt' t' :
  NoDup order -> contents_ok blake3 U st -> table_ok st t ->
  (forall fh, base_io (envs fh) = true) ->
  flush_loop blake3 envs bid order st wt t = (st', wt', t', true) ->
  contents_ok blake3 U st' /\ blobs_kept st st' /\ table_ok st' t' /\
  (forall fh, fh ∉ order -> t' !! fh = t !! fh) /\
  (forall fh s, t !! fh = Some s -> fh ∈ order ->
     exists s', t' !! fh = Some s' /\ handle_flushed bid st st' s s') /\
  (forall p, tree_flushed bid order t st st' wt wt' p).
Proof using Hcf.
  intros Hnd. revert st wt t. induction Hnd as [|fh rest Hn Hnd IH]; intros st wt t Hst Ht Hio.
  { simpl. intros [= <- <- <-]. split_and!; try done. intros fh s _ []%elem_of_nil. }
  simpl. destruct (t !! fh) as [s|] eqn:Es.
  2:{ intros Hl. destruct (IH _ _ _ Hst Ht Hio Hl) as (A1 & A2 & A3 & A4 & A5 & A6).
      split_and!; try done.
      - intros x [_ Hx]%not_elem_of_cons. by apply A4.
      - intros x s Hx [->|Hin]%elem_of_cons; [congruence|]. by apply A5.
      - intros p. specialize (A6 p). unfold tree_flushed in *. rewrite writers_cons.
        unfold dirty_here at 1. by rewrite Es. }
  destruct (Ht fh s Es) as [Hok Hu]. destruct (shown_file_ok _ _ Hok) as [data Hsh].
  destruct (negb (fh_branch s =? bid) || stale s) eqn:Eskip.
  - intros Hl. destruct (IH _ _ _ Hst Ht Hio Hl) as (A1 & A2 & A3 & A4 & A5 & A6).
    assert (dirty_here bid (fh_path s) t fh = false /\ forall p, dirty_here bid p t fh = false) as [_ Hnd'].
    { assert (forall p, dirty_here bid p t fh = false) as H; [|by split].
      intros p. unfold dirty_here. rewrite Es. apply orb_true_iff in Eskip as [E|E].
      - apply negb_true_iff in E. by rewrite E.
      - rewrite E. by destruct (fh_branch s =? bid). }
    split_and!; try done.
    + intros x [_ Hx]%not_elem_of_cons. by apply A4.
    + intros x sx Hx [->|Hin]%elem_of_cons; [|by apply A5]. simplify_eq.
      exists s. split; [by rewrite A4|]. split_and!; try done.
      * rewrite Hsh. by apply (shown_file_kept st).
      * intros Hb Hf w _. apply orb_true_iff in Eskip as [E|E]; [|congruence].
        apply negb_true_iff, N.eqb_neq in E. done.
    + intros p. specialize (A6 p). unfold tree_flushed in *. rewrite writers_cons. by rewrite Hnd'.
  - apply orb_false_iff in Eskip as [Eb Est]. apply negb_false_iff, N.eqb_eq in Eb.
    destruct (flush_handle blake3 (envs fh) s st wt) as [[[st1 wt1] s1] [|]] eqn:Ef; [|done].
    pose proof (flush_handle_ok _ _ _ _ _ _ _ _ Hst Hok Hsh (Hu _ Hsh) (Hio fh) Ef) as Hf.
    assert (table_ok st1 (<[fh := s1]> t)) as Ht1.
    { apply table_ok_insert; [|apply Hf|].
      - eapply table_ok_kept; [apply Hf|done].
      - intros d Hd. rewrite (fl_shown _ _ _ _ _ _ _ Hf) in Hd. simplify_eq. by apply Hu. }
    intros Hl. destruct (IH _ _ _ (fl_store _ _ _ _ _ _ _ Hf) Ht1 Hio Hl) as (A1 & A2 & A3 & A4 & A5 & A6).
    split_and!; try done.
    + etrans; [apply Hf|done].
    + intros x [Hne Hx]%not_elem_of_cons. rewrite A4 by done. by rewrite lookup_insert_ne.
    + intros x sx Hx [->|Hin]%elem_of_cons.
      * simplify_eq. exists s1. split; [rewrite A4 by done; by rewrite lookup_insert_eq|].
        destruct (fl_same _ _ _ _ _ _ _ Hf) as (B1 & B2 & B3). split_and!; try done.
        -- rewrite Hsh. apply (shown_file_kept st1); [done|apply Hf].
        -- intros _ _. apply Hf.
      * assert (x <> fh) as Hne by by intros ->.
        destruct (A5 x sx) as (s' & Hs' & B1 & B2 & B3 & B4 & B5); [by rewrite lookup_insert_ne|done|].
        exists s'. split; [done|]. split_and!; try done. rewrite B4.
        destruct (Ht x sx Hx) as [Hokx _]. destruct (shown_file_ok _ _ Hokx) as [dx Hdx].
        rewrite Hdx. apply (shown_file_kept st); [apply Hf|done].
    + intros p. eapply tree_flushed_cons; [done|exact Es|done..|exact Hsh|exact A2|exact Hf|apply A6].
Qed.

End flushing.

(** ** A base that cannot be read *)

(** When reading the base fails, the flush still succeeds: the blob it
    publishes at the handle's path is the dirty runs over an empty base, every
    other byte of the file replaced by zero or cut off, and the handle takes
    that as its clean base. *)
Theorem flush_read_failure_loses_base blake3 U env s st wt w st' wt' s' :
  collision_free blake3 U -> contents_ok blake3 U st ->
  write_buf s = Some w -> is_dirty w = true -> base_cache_loaded s = false -> base_cache s = [] ->
  base_io env = false -> storable U (materialize w []) ->
  flush_handle blake3 env s st wt = (st', wt', s', true) ->
  exists h, wt_lookup wt' (fh_path s) = Some (mkEntry Blob h (mode_at wt (fh_path s))) /\
    read_blob st' true h = Some (materialize w []) /\ base_cache s' = materialize w [] /\
    forall w', write_buf s' = Some w' -> is_dirty w' = false.
Proof.
  intros Hcf Hst Hw Hd Hl Hc Hio Hu.
  assert (base_cache (ensure_base_cache st (base_io env) s) = []) as Hb.
  { unfold ensure_base_cache. rewrite Hl, Hc, Hio. by case_decide. }
  unfold flush_handle. rewrite Hw, Hd. simpl. rewrite Hb.
  destruct (write_blob blake3 _ (blob_write env) st) as [st1 h] eqn:E. case_decide as Hz; [done|].
  intros [= <- <- <-]. destruct (blob_written blake3 U _ _ _ _ _ Hst Hcf Hu E Hz) as (_ & Hr & _).
  exists h. split_and!; [|done..|].
  - rewrite wt_lookup_live, live_insert. unfold Spec.put. simpl. apply lookup_insert_eq.
  - intros w' [= <-]. apply is_dirty_clear.
Qed.

(** A run is rebuilt from its parts, given its verdict. *)
Lemma pair_true {A} (x : A * bool) : x.2 = true -> x = (x.1, true).
Proof. destruct x. simpl. by intros ->. Qed.

Lemma quad_true {A B C} (x : A * B * C * bool) : x.2 = true -> x = (x.1.1.1, x.1.1.2, x.1.2, true).
Proof. destruct x as [[[]]]. simpl. by intros ->. Qed.

Definition lost_handle : FhState :=
  mkFh (lit "/f") 0 ZERO_HASH (toy_blake3 hello_content) 5 [] false
    (Some (wb_write (new_write_buffer (toy_blake3 hello_content) 5) 1 (lit "J"))) false empty_view false.
Definition lost_env : FlushEnv := mkFlush false (no_faults 6).
Definition lost_run : ObjectStore * WorkingTree * FhState * bool :=
  flush_handle toy_blake3 lost_env lost_handle (empty_store (lit "/s")) empty_tree.
Definition lost_U (c : bytes) : Prop := c = lit "blob" ++ blob_body [zero; "J"%char].

Lemma flush_read_failure_loses_base_witness : exists h,
  wt_lookup lost_run.1.1.2 (lit "/f") = Some (mkEntry Blob h (mode_at empty_tree (lit "/f"))) /\
  read_blob lost_run.1.1.1 true h = Some [zero; "J"%char].
Proof.
  destruct (flush_read_failure_loses_base toy_blake3 lost_U lost_env lost_handle (empty_store (lit "/s"))
    empty_tree (wb_write (new_write_buffer (toy_blake3 hello_content) 5) 1 (lit "J"))
    lost_run.1.1.1 lost_run.1.1.2 lost_run.1.2) as (h & H1 & H2 & _).
  - by intros a b -> ->.
  - split; [|done]. split; simpl; [done|by intros h []|set_solver].
  - reflexivity.
  - vm_compute. reflexivity.
  - reflexivity.
  - reflexivity.
  - reflexivity.
  - split; [|reflexivity]. unfold lost_U. vm_compute. reflexivity.
  - apply (quad_true lost_run). vm_compute. reflexivity.
  - exists h. split; [exact H1|]. rewrite H2. vm_compute. reflexivity.
Defined.
