(* ===== verification/Bootstrap.v ===== *)
(** Taking the source directory into the main branch (cas/bootstrap.h,
    cas/bootstrap.cpp), and the table of inode numbers (cas/inode_map.h).

    Two paths lead in: [ensure_path], which each file system call runs first on
    the path it is about, and a background walk. Both hold the branch's mutex
    from the lookup to the insertion of an entry and give it up in between, so
    every locked section is one step; [others] is what the rest of the daemon
    does before a step. The source directory is the world's: every call on it
    takes its outcome from the environment. *)

From S2P Require Import Prelude Hashes WorkingTree WriteBuffer Codec ObjectStore TreeSerialize Refs Checkpoint Handles.

Inductive file_type : Type := TRegular | TDirectory | TSymlink | TSpecial | TNotFound | TUnknown.
#[global] Instance file_type_eq_dec : EqDecision file_type.
Proof. solve_decision. Defined.

(** [symlink_status]: an error (is it ENOENT or ENOTDIR? its message), or the
    type and the permission bits. *)
Abbreviation file_status := ((bool * str) + (file_type * N))%type.

(** The calls on absolute source paths, and the writes to the store. *)
Record SourceEnv : Type := mkSource {
  src_status : str -> file_status;
  src_link : str -> result bytes;
  src_size : str -> result N;
  src_data : str -> option (bytes * bool);   (** [None]: cannot be opened; the bytes, and [bad()] *)
  src_write : str -> WriteEnv
}.

Inductive IngestResult : Type := Inserted | Missing | Unsupported | IngestFailed (error : str).

Definition reserved_names : list str := [lit ".agentvfs-store"; lit ".agentvfs-control"].

Definition is_reserved_root_name (name : str) : bool := bool_decide (name ∈ reserved_names).

Definition source_abs (root vpath : str) : str := if decide (vpath = [slash]) then root else root ++ vpath.

Definition encode_mode (t : file_type) (perms : N) : N :=
  N.lor (N.land perms 4095)
    match t with
    | TRegular => 32768      (** 0100000 *)
    | TDirectory => 16384    (** 0040000 *)
    | TSymlink => 40960      (** 0120000 *)
    | _ => 0
    end.

Section ingest.
Context (blake3 : bytes -> Hash) (env : SourceEnv).

(** The last part of both the symlink and the file case. *)
Definition ingest_blob (kind : EntryKind) (what : str) (vpath abspath : str) (mode : N) (data : bytes)
    (st : ObjectStore) (wt : WorkingTree) : ObjectStore * WorkingTree * IngestResult :=
  let '(st', h) := write_blob blake3 data (src_write env abspath) st in
  if decide (h = ZERO_HASH)
  then (st', wt, IngestFailed match last_error_ st' with
                              | [] => what
                              | msg => msg
                              end)
  else (st', insert_source wt vpath (mkEntry kind h mode), Inserted).

Definition ingest_entry (vpath abspath : str) (st : ObjectStore) (wt : WorkingTree) :
    ObjectStore * WorkingTree * IngestResult :=
  let failed msg := (st, wt, IngestFailed (lit msg)) in
  match src_status env abspath with
  | inl (true, _) => (st, wt, Missing)
  | inl (false, msg) => (st, wt, IngestFailed (lit "symlink_status: " ++ msg))
  | inr (t, perms) =>
      let mode := encode_mode t perms in
      match t with
      | TNotFound => (st, wt, Missing)
      | TDirectory => (st, insert_source wt vpath (mkEntry Tree ZERO_HASH mode), Inserted)
      | TSymlink =>
          match src_link env abspath with
          | Err msg => (st, wt, IngestFailed (lit "read_symlink: " ++ msg))
          | Ok target =>
              ingest_blob Symlink (lit "write symlink blob returned zero hash") vpath abspath mode target st wt
          end
      | TRegular =>
          match src_size env abspath with
          | Err msg => (st, wt, IngestFailed (lit "file_size: " ++ msg))
          | Ok size =>
              if 2 ^ 63 - 1 <? size then failed "file is too large to ingest"
              else
                match src_data env abspath with
                | None => failed "open for reading failed"
                | Some (content, bad) =>
                    if (0 <? size) && ((len content <? size) || bad)
                    then failed "short or failed file read"
                    else ingest_blob Blob (lit "write file blob returned zero hash") vpath abspath mode
                           (take (N.to_nat size) content) st wt
                end
          end
      | TSpecial => (st, wt, Unsupported)
      | TUnknown => failed "unknown filesystem entry type"
      end
  end.

(** [cur.rfind('/')] and [substr]; without a slash the loop does not move. *)
Definition parent_path (cur : str) : str :=
  match rfind_char slash cur with
  | Some O => [slash]
  | Some k => take k cur
  | None => cur
  end.

Inductive climbed : Type :=
| Whiteout
| Unrecorded (missing : list str)   (** deepest first *)
| Endless.

Fixpoint climb (fuel : nat) (wt : WorkingTree) (cur : str) : climbed :=
  match fuel with
  | O => Endless
  | S fuel' =>
      if decide (cur = [slash]) then Unrecorded []
      else
        match lookup_raw wt cur with
        | Some e => if is_deleted e then Whiteout else Unrecorded []
        | None =>
            match climb fuel' wt (parent_path cur) with
            | Unrecorded l => Unrecorded (cur :: l)
            | c => c
            end
        end
  end.

Definition base_name (path : str) : str :=
  match rfind_char slash path with Some k => drop (k + 1) path | None => path end.

(** The missing ancestors, from the top. *)
Fixpoint ingest_missing (root : str) (paths : list str) (st : ObjectStore) (wt : WorkingTree) :
    ObjectStore * WorkingTree * bool :=
  match paths with
  | [] => (st, wt, true)
  | p :: rest =>
      match lookup_raw wt p with
      | Some e => if is_deleted e then (st, wt, false) else ingest_missing root rest st wt
      | None =>
          if is_reserved_root_name (base_name p) then (st, wt, false)
          else
            match ingest_entry p (source_abs root p) st wt with
            | (st', wt', Inserted) => ingest_missing root rest st' wt'
            | (st', wt', _) => (st', wt', false)
            end
      end
  end.

(** [None]: the first loop never ends. *)
Definition ensure_path (root vpath : str) (st : ObjectStore) (wt : WorkingTree) :
    option (ObjectStore * WorkingTree * bool) :=
  if decide (vpath = [slash] \/ vpath = []) then Some (st, wt, true)
  else
    match climb (S (length vpath)) wt vpath with
    | Endless => None
    | Whiteout => Some (st, wt, false)
    | Unrecorded missing => Some (ingest_missing root (reverse missing) st wt)
    end.

End ingest.

(** ** The background walk *)

Definition start_background (wt : WorkingTree) : WorkingTree := begin_source_walk wt.

(** One directory entry: its name, its status, and the outcome of [increment]. *)
Record dirent : Type := mkDirent { de_name : str; de_status : file_status; de_next : fault }.

Definition child_vpath (vpath name : str) : str :=
  if decide (vpath = [slash]) then [slash] ++ name else vpath ++ [slash] ++ name.

(** [entry.path()]. *)
Definition path_join (dir name : str) : str :=
  if decide (last dir = Some slash) then dir ++ name else dir ++ [slash] ++ name.

(** What the walk meets: listings, the source at each step, the polls of the
    stop flag, and the other threads. *)
Record WalkEnv : Type := mkWalk {
  w_listing : str -> result (list dirent);   (** by absolute path *)
  w_source : nat -> SourceEnv;
  w_stop : nat -> bool;
  w_others : nat -> ObjectStore -> WorkingTree -> ObjectStore * WorkingTree
}.

Record WalkState : Type := mkWalkState {
  w_store : ObjectStore;
  w_tree : WorkingTree;
  w_queue : list str;
  w_step : nat
}.

Section walk.
Context (blake3 : bytes -> Hash) (env : WalkEnv) (root : str).

Definition tick (s : WalkState) : WalkState :=
  let '(st, wt) := w_others env (w_step s) (w_store s) (w_tree s) in
  mkWalkState st wt (w_queue s) (S (w_step s)).

(** The locked section; the verdict is [complete]. *)
Definition walk_child (vpath : str) (e : dirent) (t : file_type) (s : WalkState) : WalkState * bool :=
  let child := child_vpath vpath (de_name e) in
  let is_dir := bool_decide (t = TDirectory) in
  let push (b : bool) q := if b then q ++ [child] else q in
  match lookup_raw (w_tree s) child with
  | Some x =>
      (mkWalkState (w_store s) (w_tree s) (push (bool_decide (e_kind x = Tree) && is_dir) (w_queue s)) (w_step s),
       true)
  | None =>
      let '(st, wt, r) := ingest_entry blake3 (w_source env (w_step s)) child
                            (path_join (source_abs root vpath) (de_name e)) (w_store s) (w_tree s) in
      match r with
      | Inserted => (mkWalkState st wt (push is_dir (w_queue s)) (w_step s), true)
      | Unsupported => (mkWalkState st wt (w_queue s) (w_step s), true)
      | Missing | IngestFailed _ => (mkWalkState st wt (w_queue s) (w_step s), false)
      end
  end.

Definition skipped_entry (vpath : str) (e : dirent) : bool :=
  bool_decide (vpath = [slash]) && is_reserved_root_name (de_name e).

Definition walk_entry (vpath : str) (e : dirent) (s : WalkState) : WalkState * bool :=
  if skipped_entry vpath e then (s, true)
  else
    match de_status e with
    | inl _ => (s, false)
    | inr (t, _) => walk_child vpath e t s
    end.

Fixpoint walk_entries (vpath : str) (l : list dirent) (s0 : WalkState) : WalkState * bool :=
  match l with
  | [] => (s0, true)
  | e :: rest =>
      let s := tick s0 in
      if w_stop env (w_step s) then (s, false)
      else
        let '(s', complete) := walk_entry vpath e s in
        if negb complete then (s', false)
        else
          match de_next e with
          | Some _ => (s', false)
          | None => walk_entries vpath rest s'
          end
  end.

(** [None]: the walk has not ended within its fuel of directories. *)
Fixpoint walk_loop (fuel : nat) (s0 : WalkState) : option (WalkState * bool) :=
  match w_queue s0 with
  | [] => Some (s0, true)
  | vpath :: q =>
      match fuel with
      | O => None
      | S fuel' =>
          let s := tick (mkWalkState (w_store s0) (w_tree s0) q (w_step s0)) in
          if w_stop env (w_step s) then Some (s, false)
          else
            match w_listing env (source_abs root vpath) with
            | Err _ => Some (s, false)
            | Ok l =>
                match walk_entries vpath l s with
                | (s', false) => Some (s', false)
                | (s', true) => walk_loop fuel' s'
                end
            end
      end
  end.

(** The whole walk: the store and the tree it leaves, and whether it folded. *)
Definition walk_bg (fuel : nat) (st : ObjectStore) (wt : WorkingTree) : option (WalkState * bool) :=
  match walk_loop fuel (mkWalkState st wt [[slash]] 0) with
  | None => None
  | Some (s0, complete) =>
      let s := tick s0 in
      Some (if complete && negb (w_stop env (w_step s))
            then (mkWalkState (w_store s) (fold_into_base (w_tree s)) (w_queue s) (w_step s), true)
            else (s, false))
  end.

End walk.

(** ** Inode numbers *)

Record InodeKey : Type := mkInode { dev : N; ino : N; gen : N }.

#[global] Instance InodeKey_eq_dec : EqDecision InodeKey.
Proof. solve_decision. Defined.
#[global] Instance InodeKey_countable : Countable InodeKey.
Proof.
  refine (inj_countable' (fun k => (dev k, ino k, gen k)) (fun x => mkInode x.1.1 x.1.2 x.2) _).
  by intros [].
Defined.

Module InodeMap.
Abbreviation inode_map := (gmap InodeKey str).

Definition set (k : InodeKey) (path : str) (m : inode_map) : inode_map := <[k := path]> m.
Definition get (k : InodeKey) (m : inode_map) : str := default [] (m !! k).
Definition erase_by_path (path : str) (m : inode_map) : inode_map :=
  filter (fun x => x.2 <> path) m.
End InodeMap.

(** ** Lemmas *)

Definition absolute (p : str) : Prop := head p = Some slash.

(** [p] is [q] or one of the directories above it. *)
Definition at_or_above (p q : str) : Prop := p = q \/ exists r, q = p ++ slash :: r.

Lemma at_or_above_trans p q r : at_or_above p q -> at_or_above q r -> at_or_above p r.
Proof.
  intros [->|[x Hx]] [->|[y Hy]]; unfold at_or_above; [by left|right; eauto..|].
  right. exists (x ++ slash :: y). by rewrite Hy, Hx, <- app_assoc.
Qed.

Lemma parent_path_spec cur :
  absolute cur -> cur <> [slash] ->
  absolute (parent_path cur) /\ (length (parent_path cur) < length cur)%nat /\
  (parent_path cur = [slash] \/ at_or_above (parent_path cur) cur).
Proof.
  intros Ha Hne. unfold parent_path. destruct (rfind_char slash cur) as [k|] eqn:E.
  - apply rfind_char_Some in E as (pre & post & -> & <- & Hn). destruct pre as [|x pre].
    + destruct post; [done|]. simpl. split; [done|]. split; [lia|]. by left.
    + unfold absolute in *. simpl in Ha. injection Ha as ->. simpl.
      rewrite take_app_length. split; [done|]. split; [rewrite length_app; simpl; lia|].
      right. right. by exists post.
  - apply rfind_char_None in E. destruct cur as [|x cur]; [done|]. injection Ha as ->.
    destruct E. apply list_elem_of_here.
Qed.

Lemma climb_spec fuel wt cur :
  absolute cur -> (length cur < fuel)%nat ->
  match climb fuel wt cur with
  | Whiteout => exists q e, at_or_above q cur /\ raw wt !! q = Some e /\ is_deleted e = true
  | Unrecorded l =>
      Forall (fun q => absolute q /\ at_or_above q cur /\ raw wt !! q = None) l /\
      (cur = [slash] \/ cur ∈ l \/ exists e, raw wt !! cur = Some e /\ is_deleted e = false)
  | Endless => False
  end.
Proof.
  revert cur. induction fuel as [|fuel IH]; intros cur Ha Hl; [lia|]. cbn [climb].
  case_decide as Hr; [split; [constructor|by left]|].
  unfold lookup_raw. rewrite lookup_raw_locked_raw. destruct (raw wt !! cur) as [e|] eqn:Er.
  { destruct (is_deleted e) eqn:Ed; [by exists cur, e; split; [left|]|]. split; [constructor|]. right. right. by exists e. }
  destruct (parent_path_spec cur Ha Hr) as (Hpa & Hpl & Hup).
  specialize (IH (parent_path cur) Hpa ltac:(lia)).
  destruct (climb fuel wt (parent_path cur)) as [|l|] eqn:Ec; [|split|done].
  - destruct IH as (q & e & Hq & He). exists q, e. split; [|done].
    destruct Hup as [Hp|Hp]; [|by eapply at_or_above_trans].
    rewrite Hp in Ec. destruct fuel; [done|]. by cbn [climb] in Ec; rewrite decide_True in Ec.
  - constructor; [by split_and!; [|left|]|]. destruct IH as [IH _].
    destruct Hup as [Hp|Hp].
    + rewrite Hp in Ec. destruct fuel; [done|]. cbn [climb] in Ec. rewrite decide_True in Ec by done.
      by injection Ec as <-.
    + eapply Forall_impl; [exact IH|]. intros q (H1 & H2 & H3). split_and!; [done| |done].
      by eapply at_or_above_trans.
  - right. left. apply list_elem_of_here.
Qed.

Lemma raw_insert_source wt p e : raw (insert_source wt p e) = <[p := e]> (raw wt).
Proof. unfold raw, insert_source. simpl. by rewrite insert_union_l. Qed.

(** Recorded paths stay as they are. *)
Definition records_kept (wt wt' : WorkingTree) : Prop :=
  forall p e, raw wt !! p = Some e -> raw wt' !! p = Some e.

#[global] Instance records_kept_preorder : PreOrder records_kept.
Proof. split; [by intros wt p e|]. intros t1 t2 t3 H1 H2 p e Hp. by apply H2, H1. Qed.

Lemma insert_source_kept wt p e : raw wt !! p = None -> records_kept wt (insert_source wt p e).
Proof.
  intros Hn q x Hq. rewrite raw_insert_source, lookup_insert_ne; [done|]. congruence.
Qed.

(** An entry that shows a source file as it was read. *)
Definition shows_source (env : SourceEnv) (st : ObjectStore) (abspath : str) (e : WorkingTreeEntry) : Prop :=
  exists t perms, src_status env abspath = inr (t, perms) /\ e_mode e = encode_mode t perms /\
    match e_kind e with
    | Tree => t = TDirectory /\ e_hash e = ZERO_HASH
    | Symlink => t = TSymlink /\ exists target, src_link env abspath = Ok target /\
        read_blob st true (e_hash e) = Some target
    | Blob => t = TRegular /\ exists size content bad, src_size env abspath = Ok size /\
        src_data env abspath = Some (content, bad) /\ size <= len content /\
        read_blob st true (e_hash e) = Some (take (N.to_nat size) content)
    | _ => False
    end.

Lemma shows_source_kept env st st' a e : blobs_kept st st' -> shows_source env st a e -> shows_source env st' a e.
Proof.
  intros Hk (t & perms & Hs & Hm & H). exists t, perms. do 2 (split; [done|]).
  destruct (e_kind e); try done.
  - destruct H as (Ht & size & content & bad & H1 & H2 & H3 & H4). split; [done|].
    exists size, content, bad. split_and!; try done. by apply Hk.
  - destruct H as (Ht & target & H1 & H2). split; [done|]. exists target. split; [done|]. by apply Hk.
Qed.

Lemma shows_source_live env st a e : shows_source env st a e -> is_deleted e = false.
Proof. intros (t & perms & _ & _ & H). unfold is_deleted. by destruct (e_kind e). Qed.

Section ingesting.
Context (blake3 : bytes -> Hash) (U : bytes -> Prop) (Hcf : collision_free blake3 U).

(** The store can hold what is in the source. *)
Definition source_fits (env : SourceEnv) : Prop :=
  (forall a target, src_link env a = Ok target -> storable U target) /\
  (forall a content bad n, src_data env a = Some (content, bad) -> storable U (take n content)).

(** What one ingest does. *)
Record ingested (env : SourceEnv) (vpath abspath : str) (st st' : ObjectStore) (wt wt' : WorkingTree)
    (r : IngestResult) : Prop := {
  in_blobs : blobs_kept st st';
  in_store : r = Inserted -> contents_ok blake3 U st';
  in_tree : match r with
            | Inserted => exists e, wt' = insert_source wt vpath e /\ shows_source env st' abspath e
            | _ => wt' = wt
            end
}.

Lemma ingest_blob_spec env kind what vpath abspath mode data st wt st' wt' r :
  contents_ok blake3 U st -> storable U data ->
  ingest_blob blake3 env kind what vpath abspath mode data st wt = (st', wt', r) ->
  blobs_kept st st' /\ (r = Inserted -> contents_ok blake3 U st') /\
  match r with
  | Inserted => exists h, wt' = insert_source wt vpath (mkEntry kind h mode) /\ read_blob st' true h = Some data
  | _ => wt' = wt
  end.
Proof using Hcf.
  intros Hst Hd. unfold ingest_blob.
  destruct (write_blob blake3 data (src_write env abspath) st) as [st1 h] eqn:E.
  pose proof (write_object_grows _ _ _ _ _ _ _ E) as Hg. pose proof (grown_blobs _ _ (gr_content _ _ Hg)) as Hk.
  case_decide as Hz; intros [= <- <- <-]; [done|].
  destruct (blob_written blake3 U _ _ _ _ _ Hst Hcf Hd E Hz) as (Hc & Hr & _).
  split_and!; [done..|]. by exists h.
Qed.

Lemma ingest_entry_spec env vpath abspath st wt st' wt' r :
  contents_ok blake3 U st -> source_fits env ->
  ingest_entry blake3 env vpath abspath st wt = (st', wt', r) ->
  ingested env vpath abspath st st' wt wt' r.
Proof using Hcf.
  intros Hst [Hl Hd]. unfold ingest_entry.
  assert (forall r0, (r0 = Inserted -> False) -> (st, wt, r0) = (st', wt', r) ->
    ingested env vpath abspath st st' wt wt' r) as Hsame.
  { intros r0 Hr [= <- <- <-]. split; [done|by intros ?%Hr|]. destruct r0; done. }
  destruct (src_status env abspath) as [[[|] msg]|[t perms]] eqn:Es; try (by apply Hsame).
  destruct t; try (by apply Hsame).
  - destruct (src_size env abspath) as [size|msg] eqn:Esz; [|by apply Hsame].
    destruct (_ <? size); [by apply Hsame|].
    destruct (src_data env abspath) as [[content bad]|] eqn:Ed; [|by apply Hsame].
    destruct ((0 <? size) && _) eqn:Eshort; [by apply Hsame|]. intros Hb.
    apply ingest_blob_spec in Hb as (H1 & H2 & H3); [|done|by eapply Hd].
    split; [done..|]. destruct r; try done. destruct H3 as (h & -> & Hr). eexists. split; [done|].
    exists TRegular, perms. simpl. split_and!; try done. exists size, content, bad. split_and!; try done.
    destruct (N.ltb_spec 0 size) as [Hp|Hp]; [|lia]. simpl in Eshort.
    apply orb_false_iff in Eshort as [Hlen%N.ltb_ge _]. done.
  - intros [= <- <- <-]. split; [done..|]. eexists. split; [done|]. exists TDirectory, perms. simpl. by split_and!.
  - destruct (src_link env abspath) as [target|msg] eqn:El; [|by apply Hsame]. intros Hb.
    apply ingest_blob_spec in Hb as (H1 & H2 & H3); [|done|by eapply Hl].
    split; [done..|]. destruct r; try done. destruct H3 as (h & -> & Hr). eexists. split; [done|].
    exists TSymlink, perms. simpl. split_and!; try done. by exists target.
Qed.

(** Entries that were not recorded before come from the source. *)
Definition new_from_source (env : SourceEnv) (root : str) (ps : list str) (st' : ObjectStore)
    (wt wt' : WorkingTree) : Prop :=
  forall p e, raw wt !! p = None -> raw wt' !! p = Some e ->
    p ∈ ps /\ is_reserved_root_name (base_name p) = false /\ shows_source env st' (source_abs root p) e.

Lemma ingest_missing_spec env root ps st wt st' wt' b :
  contents_ok blake3 U st -> source_fits env ->
  ingest_missing blake3 env root ps st wt = (st', wt', b) ->
  blobs_kept st st' /\ records_kept wt wt' /\ new_from_source env root ps st' wt wt' /\
  (b = true -> contents_ok blake3 U st' /\
     Forall (fun p => exists e, raw wt' !! p = Some e /\ is_deleted e = false) ps).
Proof using Hcf.
  intros Hst Hfit. revert st wt Hst. induction ps as [|p ps IH]; intros st wt Hst; simpl.
  { intros [= <- <- <-]. split_and!; [done..| |done]. intros p e. congruence. }
  assert (forall r b0, r <> Inserted -> (st, wt, b0) = (st', wt', b) -> b0 = false ->
    blobs_kept st st' /\ records_kept wt wt' /\ new_from_source env root (p :: ps) st' wt wt' /\
    (b = true -> contents_ok blake3 U st' /\
       Forall (fun p => exists e, raw wt' !! p = Some e /\ is_deleted e = false) (p :: ps))) as Hstop.
  { intros r b0 _ [= <- <- <-] ->. split_and!; [done..| |done]. intros q e. congruence. }
  unfold lookup_raw. rewrite lookup_raw_locked_raw. destruct (raw wt !! p) as [e|] eqn:Er.
  - destruct (is_deleted e) eqn:Ed; [intros H; by eapply (Hstop Missing)|].
    intros (H1 & H2 & H3 & H4)%IH; [|done]. split_and!; [done|done| |].
    + intros q x Hq Hx. destruct (H3 q x Hq Hx) as (A & B & C). split_and!; [by apply list_elem_of_further|done|done].
    + intros Hb. destruct (H4 Hb) as [Hc Hall]. split; [done|]. constructor; [|done]. exists e. by split; [apply H2|].
  - destruct (is_reserved_root_name (base_name p)) eqn:Eres; [intros H; by eapply (Hstop Missing)|].
    destruct (ingest_entry _ _ _ _ _ _) as [[st1 wt1] r] eqn:Ei.
    apply ingest_entry_spec in Ei as [I1 I2 I3]; [|done|done].
    destruct r as [| | |msg].
    2-4: intros [= <- <- <-]; subst wt1; split_and!; [done..| |done]; intros q e; congruence.
    destruct I3 as (e & -> & Hsh). intros (H1 & H2 & H3 & H4)%IH; [|by apply I2].
    assert (raw wt' !! p = Some e) as Hp.
    { apply H2. rewrite raw_insert_source. apply lookup_insert_eq. }
    split_and!.
    + by etrans.
    + etrans; [|exact H2]. by apply insert_source_kept.
    + intros q x Hq Hx. destruct (decide (q = p)) as [->|Hne].
      * rewrite Hp in Hx. injection Hx as <-. split_and!; [apply list_elem_of_here|done|].
        by eapply shows_source_kept.
      * destruct (H3 q x) as (A & B & C); [by rewrite raw_insert_source, lookup_insert_ne|done|].
        split_and!; [by apply list_elem_of_further|done|done].
    + intros Hb. destruct (H4 Hb) as [Hc Hall]. split; [done|]. constructor; [|done].
      exists e. split; [done|]. by eapply shows_source_live.
Qed.

End ingesting.

(** ** Properties *)

(** [ensure_path] returns on every absolute path, and only adds: what the
    branch records, whiteouts included, stays as it is; every entry that appears
    is the path itself or a directory above it, has no reserved name, and shows
    the source file as it was read; and when the call says yes the path is live.
    Below a whiteout it does nothing. *)
Theorem ensure_path_adds_source blake3 U env root vpath st wt :
  collision_free blake3 U -> contents_ok blake3 U st -> source_fits U env -> absolute vpath ->
  exists st' wt' b, ensure_path blake3 env root vpath st wt = Some (st', wt', b) /\
    blobs_kept st st' /\ records_kept wt wt' /\
    (forall p e, raw wt !! p = None -> raw wt' !! p = Some e ->
       at_or_above p vpath /\ is_reserved_root_name (base_name p) = false /\
       shows_source env st' (source_abs root p) e) /\
    (b = true -> vpath = [slash] \/ exists e, wt_lookup wt' vpath = Some e).
Proof.
  intros Hcf Hst Hfit Ha. unfold ensure_path. case_decide as Hr.
  { exists st, wt, true. split_and!; [done..| |].
    - intros p e. congruence.
    - intros _. destruct Hr as [-> | ->]; [by left|done]. }
  pose proof (climb_spec (S (length vpath)) wt vpath Ha ltac:(lia)) as Hc.
  destruct (climb _ wt vpath) as [|l|]; [|destruct Hc as [Hall Hlast]|done].
  { exists st, wt, false. split_and!; [done..| |done]. intros p e. congruence. }
  destruct (ingest_missing blake3 env root (reverse l) st wt) as [[st' wt'] b] eqn:E.
  destruct (ingest_missing_spec blake3 U Hcf env root _ _ _ _ _ _ Hst Hfit E) as (H1 & H2 & H3 & H4).
  exists st', wt', b. split_and!; [done..| |].
  - intros p e Hp He. destruct (H3 p e Hp He) as (Hin & Hres & Hsh). split_and!; [|done|done].
    rewrite Forall_forall in Hall. rewrite elem_of_reverse in Hin. by apply Hall in Hin as (_ & Hin & _).
  - intros Hb. destruct (H4 Hb) as [_ Hlive]. destruct Hlast as [->|[Hin|(e & He & Hd)]]; [by left|right..].
    + rewrite Forall_forall in Hlive. destruct (Hlive vpath) as (e & He & Hd); [by apply elem_of_reverse|].
      exists e. rewrite wt_lookup_live. unfold live. by rewrite lookup_live_of, He, Hd.
    + exists e. rewrite wt_lookup_live. unfold live. by rewrite lookup_live_of, (H2 _ _ He), Hd.
Qed.

(** ** The walk *)

Section walking.
Context (blake3 : bytes -> Hash) (env : WalkEnv) (root : str).

(** A directory tree with finitely many directories below [d]; links are not
    followed, so only mounts could make it infinite. [n] counts them. *)
#[warnings="-register-all"]
Inductive dir_weight : str -> nat -> Prop :=
| dw d n ns :
    (forall l, w_listing env (source_abs root d) = Ok l ->
       Forall2 dir_weight ((fun e => child_vpath d (de_name e)) <$> l) ns) ->
    n = S (sum_list ns) -> dir_weight d n.

Lemma walk_child_queue vpath e t s s' c :
  walk_child blake3 env root vpath e t s = (s', c) ->
  w_queue s' = w_queue s \/ w_queue s' = w_queue s ++ [child_vpath vpath (de_name e)].
Proof.
  unfold walk_child. destruct (lookup_raw _ _) as [x|].
  - intros [= <- _]. simpl. destruct (_ && _); auto.
  - destruct (ingest_entry _ _ _ _ _ _) as [[st wt] []]; intros [= <- _]; simpl; try case_match; auto.
Qed.

Lemma tick_queue s : w_queue (tick env s) = w_queue s.
Proof. unfold tick. by destruct (w_others _ _ _ _). Qed.

Lemma sublist_sum ds ns ds' : sublist ds' ds -> Forall2 dir_weight ds ns ->
  exists ns', Forall2 dir_weight ds' ns' /\ (sum_list ns' <= sum_list ns)%nat.
Proof.
  intros Hs. revert ns. induction Hs as [|x l1 l2 Hs IH|x l1 l2 Hs IH]; intros ns H.
  - exists []. split; [by apply Forall2_nil|simpl; lia].
  - apply Forall2_cons_inv_l in H as (n & ns0 & Hx & Hr & ->). destruct (IH _ Hr) as (ns' & H1 & H2).
    exists (n :: ns'). split; [by apply Forall2_cons|simpl; lia].
  - apply Forall2_cons_inv_l in H as (n & ns0 & Hx & Hr & ->). destruct (IH _ Hr) as (ns' & H1 & H2).
    exists ns'. split; [done|simpl; lia].
Qed.

Lemma walk_entries_queue vpath l s s' :
  walk_entries blake3 env root vpath l s = (s', true) ->
  exists ds, w_queue s' = w_queue s ++ ds /\ sublist ds ((fun e => child_vpath vpath (de_name e)) <$> l).
Proof.
  revert s. induction l as [|e l IH]; intros s; cbn [walk_entries].
  { intros [= <-]. exists []. split; [by rewrite app_nil_r|constructor]. }
  destruct (w_stop _ _); [done|].
  destruct (walk_entry _ _ _ _ _ _) as [s1 c] eqn:E. destruct (negb c) eqn:Ec; [done|].
  destruct (de_next e); [done|].
  assert (w_queue s1 = w_queue s \/ w_queue s1 = w_queue s ++ [child_vpath vpath (de_name e)]) as Hq.
  { rewrite <- (tick_queue s). unfold walk_entry in E. destruct (skipped_entry _ _); [injection E as <- <-; auto|].
    destruct (de_status e) as [|[t p]]; [injection E as <- <-; auto|]. by eapply walk_child_queue. }
  intros (ds & Hds & Hsub)%IH. rewrite Hds. destruct Hq as [->| ->].
  - exists ds. split; [done|]. by constructor.
  - exists (child_vpath vpath (de_name e) :: ds). split; [by rewrite <- app_assoc|]. by constructor.
Qed.

Lemma walk_loop_ends fuel s ns :
  Forall2 dir_weight (w_queue s) ns -> (sum_list ns <= fuel)%nat ->
  walk_loop blake3 env root fuel s <> None.
Proof.
  revert s ns. induction fuel as [|fuel IH]; intros s ns Hw Hl; cbn [walk_loop];
    destruct (w_queue s) as [|d q] eqn:Eq; try done;
    apply Forall2_cons_inv_l in Hw as (n & ns0 & Hd & Hr & ->).
  - destruct Hd as [d n ns Hc ->]. simpl in Hl. lia.
  - destruct (w_stop _ _); [done|]. destruct (w_listing _ _) as [l|] eqn:El; [|done].
    destruct (walk_entries _ _ _ _ _ _) as [s' [|]] eqn:E; [|done].
    apply walk_entries_queue in E as (ds & Hds & Hsub). rewrite tick_queue in Hds. simpl in Hds.
    destruct Hd as [d n ns Hc ->]. destruct (sublist_sum _ _ _ Hsub (Hc l El)) as (ns' & H1 & H2).
    apply (IH s' (ns0 ++ ns')); [rewrite Hds; by apply Forall2_app|].
    rewrite sum_list_with_app. simpl in Hl. unfold sum_list in *. lia.
Qed.

(** What holds of the store and the tree throughout: the others keep it, and
    so does taking in an entry at a path that is not recorded. *)
Section invariant.
Context (P : ObjectStore -> WorkingTree -> Prop).
Context (Hothers : forall n st wt, P st wt -> P (w_others env n st wt).1 (w_others env n st wt).2).
Context (Hingest : forall n p a st wt st' wt' r, P st wt -> raw wt !! p = None ->
  ingest_entry blake3 (w_source env n) p a st wt = (st', wt', r) -> P st' wt').

Definition holds (s : WalkState) : Prop := P (w_store s) (w_tree s).

Lemma tick_holds s : holds s -> holds (tick env s).
Proof using Hothers.
  intros H. unfold tick. specialize (Hothers (w_step s) _ _ H). by destruct (w_others _ _ _ _).
Qed.

Lemma walk_child_holds vpath e t s s' c :
  holds s -> walk_child blake3 env root vpath e t s = (s', c) -> holds s'.
Proof using Hingest.
  intros H. unfold walk_child, lookup_raw. rewrite lookup_raw_locked_raw.
  destruct (raw _ !! _) as [x|] eqn:Er; [by intros [= <- _]|].
  destruct (ingest_entry _ _ _ _ _ _) as [[st wt] r] eqn:E.
  pose proof (Hingest _ _ _ _ _ _ _ _ H Er E). destruct r; by intros [= <- _].
Qed.

Lemma walk_entries_holds vpath l s s' c :
  holds s -> walk_entries blake3 env root vpath l s = (s', c) -> holds s'.
Proof using Hothers Hingest.
  revert s. induction l as [|e l IH]; intros s H; cbn [walk_entries]; [by intros [= <- _]|].
  pose proof (tick_holds s H) as Ht. destruct (w_stop _ _); [by intros [= <- _]|].
  destruct (walk_entry _ _ _ _ _ _) as [s1 c1] eqn:E.
  assert (holds s1) as H1.
  { unfold walk_entry in E. destruct (skipped_entry _ _); [by injection E as <- _|]. destruct (de_status e) as [|[t p]]; [by injection E as <- _|].
    by eapply walk_child_holds. }
  destruct (negb c1); [by intros [= <- _]|]. destruct (de_next e); [by intros [= <- _]|]. by apply IH.
Qed.

Lemma walk_loop_holds fuel s s' c :
  holds s -> walk_loop blake3 env root fuel s = Some (s', c) -> holds s'.
Proof using Hothers Hingest.
  revert s. induction fuel as [|fuel IH]; intros s H; cbn [walk_loop];
    destruct (w_queue s) as [|d q]; try (by intros [= <- _]); try discriminate.
  set (s1 := mkWalkState _ _ q _). assert (holds s1) as H1 by done. pose proof (tick_holds s1 H1) as Ht.
  destruct (w_stop _ _); [by intros [= <- _]|]. destruct (w_listing _ _) as [l|]; [|by intros [= <- _]].
  destruct (walk_entries _ _ _ _ _ _) as [s2 [|]] eqn:E; [|by intros [= <- _]; eapply walk_entries_holds].
  apply IH. by eapply walk_entries_holds.
Qed.

End invariant.
End walking.


(** A quiet walk: nothing else runs, the source does not change. *)
Section quiet.
Context (blake3 : bytes -> Hash) (U : bytes -> Prop) (Hcf : collision_free blake3 U).
Context (env : WalkEnv) (root : str) (src : SourceEnv).

Record quiet : Prop := {
  q_alone : forall n st wt, w_others env n st wt = (st, wt);
  q_source : forall n, w_source env n = src;
  q_listing : forall d l e, w_listing env (source_abs root d) = Ok l -> e ∈ l ->
    de_status e = src_status src (path_join (source_abs root d) (de_name e))
}.

Context (Hq : quiet) (Hfit : source_fits U src).

(** The branch records the entry, or the walk cannot. *)
Definition taken (d : str) (e : dirent) (wt : WorkingTree) : Prop :=
  exists t perms, de_status e = inr (t, perms) /\
    (t = TSpecial \/ is_Some (raw wt !! child_vpath d (de_name e))).

(** A directory both in the source and in the branch. *)
Definition subdirectory (d : str) (e : dirent) (wt : WorkingTree) : Prop :=
  exists perms x, de_status e = inr (TDirectory, perms) /\
    raw wt !! child_vpath d (de_name e) = Some x /\ e_kind x = Tree.

Definition from_source (st : ObjectStore) (wt wt' : WorkingTree) : Prop :=
  forall p x, raw wt !! p = None -> raw wt' !! p = Some x ->
    exists d l e, w_listing env (source_abs root d) = Ok l /\ e ∈ l /\ skipped_entry d e = false /\
      p = child_vpath d (de_name e) /\ shows_source src st (path_join (source_abs root d) (de_name e)) x.

(** What a piece of the walk that did not fail did. *)
Record advanced (s s' : WalkState) : Prop := {
  ad_records : records_kept (w_tree s) (w_tree s');
  ad_queue : forall d, d ∈ w_queue s -> d ∈ w_queue s';
  ad_blobs : blobs_kept (w_store s) (w_store s');
  ad_store : contents_ok blake3 U (w_store s) -> contents_ok blake3 U (w_store s');
  ad_new : contents_ok blake3 U (w_store s) -> from_source (w_store s') (w_tree s) (w_tree s')
}.

Lemma advanced_refl s : advanced s s.
Proof using. split; try done. intros _ p x. congruence. Qed.

Lemma advanced_trans s1 s2 s3 : advanced s1 s2 -> advanced s2 s3 -> advanced s1 s3.
Proof using.
  intros [A1 A2 A3 A4 A5] [B1 B2 B3 B4 B5]. split; [by etrans|auto|by etrans|auto|].
  intros Hst p x Hp Hx. destruct (raw (w_tree s2) !! p) as [y|] eqn:E.
  - assert (x = y) as -> by (pose proof (B1 p y E); congruence).
    destruct (A5 Hst p y Hp E) as (d & l & e & H1 & H2 & H3 & H4 & H5).
    exists d, l, e. split_and!; try done. by eapply shows_source_kept.
  - by apply (B5 (A4 Hst)).
Qed.

Lemma tick_quiet s : advanced s (tick env s) /\ w_tree (tick env s) = w_tree s /\ w_store (tick env s) = w_store s /\ w_queue (tick env s) = w_queue s.
Proof using Hq. unfold tick. rewrite (q_alone Hq). split; [|done]. split; try done. intros _ p x. simpl. congruence. Qed.

Lemma walk_child_advances d l e t perms s s' :
  contents_ok blake3 U (w_store s) ->
  w_listing env (source_abs root d) = Ok l -> e ∈ l -> skipped_entry d e = false ->
  de_status e = inr (t, perms) -> walk_child blake3 env root d e t s = (s', true) ->
  advanced s s' /\ taken d e (w_tree s') /\
  (subdirectory d e (w_tree s') -> child_vpath d (de_name e) ∈ w_queue s').
Proof using Hcf Hq Hfit.
  intros Hst Hl He Hsk Hs. unfold walk_child, lookup_raw. rewrite lookup_raw_locked_raw.
  destruct (raw (w_tree s) !! _) as [x|] eqn:Er.
  - intros [= <-]. simpl. split; [|split].
    + split; simpl; try done; [|intros _ p y; congruence].
      intros y Hy. destruct (_ && _); [|done]. apply elem_of_app. by left.
    + exists t, perms. split; [done|]. right. by exists x.
    + intros (perms' & y & Hs' & Hy & Hk). simpl in Hy. rewrite Hs in Hs'. simplify_eq.
      rewrite !bool_decide_true by done. simpl. apply elem_of_app. right. by apply list_elem_of_singleton.
  - rewrite (q_source Hq). destruct (ingest_entry _ _ _ _ _ _) as [[st wt] r] eqn:E.
    pose proof (ingest_entry_spec blake3 U Hcf _ _ _ _ _ _ _ _ Hst Hfit E) as [I1 I2 I3].
    pose proof (q_listing Hq d l e Hl He) as Hstat. rewrite Hs in Hstat.
    destruct r; try done; intros [= <-]; simpl.
    + destruct I3 as (y & -> & Hsh). split; [|split].
      * split; simpl; try done; [by apply insert_source_kept| |by intros _; apply I2|].
        -- intros z Hz. case_match; [|done]. apply elem_of_app. by left.
        -- intros _ p z Hp. rewrite raw_insert_source.
           destruct (decide (child_vpath d (de_name e) = p)) as [<-|Hne].
           ++ rewrite lookup_insert_eq. intros [= <-]. by exists d, l, e.
           ++ rewrite lookup_insert_ne by done. congruence.
      * exists t, perms. split; [done|]. right. simpl. rewrite raw_insert_source, lookup_insert_eq. by eexists.
      * intros (perms' & z & Hs' & _). rewrite Hs in Hs'. simplify_eq.
        rewrite bool_decide_true by done. apply elem_of_app. right. by apply list_elem_of_singleton.
    + subst wt. split; [|split].
      * split; try done; simpl; [|intros _ p z; congruence].
        intros _. unfold ingest_entry in E. rewrite <- Hstat in E.
        destruct t; try (by simplify_eq);
          (destruct (src_size _ _) || destruct (src_link _ _)); try (by simplify_eq); try case_match;
          unfold ingest_blob in E; repeat case_match; by simplify_eq.
      * exists t, perms. split; [done|]. left. unfold ingest_entry in E. rewrite <- Hstat in E.
        destruct t; try done; repeat case_match; try done; unfold ingest_blob in E; repeat case_match; by simplify_eq.
      * intros (perms' & z & _ & Hz & _). simpl in Hz. congruence.
Qed.

(** Every entry of the listing was dealt with, and its directories are known. *)
Definition dealt (d : str) (l : list dirent) (s : WalkState) (known : str -> Prop) : Prop :=
  forall e, e ∈ l -> skipped_entry d e = false ->
    taken d e (w_tree s) /\ (subdirectory d e (w_tree s) -> known (child_vpath d (de_name e))).

Lemma taken_later d e wt wt' : records_kept wt wt' -> taken d e wt -> taken d e wt'.
Proof using.
  intros Hk (t & perms & Hs & H). exists t, perms. split; [done|].
  destruct H as [->|[x Hx]]; [by left|right]. exists x. by apply Hk.
Qed.

Lemma subdirectory_before d l e wt wt' :
  w_listing env (source_abs root d) = Ok l -> e ∈ l ->
  records_kept wt wt' -> taken d e wt -> subdirectory d e wt' -> subdirectory d e wt.
Proof using.
  intros _ _ Hk (t & perms & Hs & H) (perms' & x & Hs' & Hx & Hd). rewrite Hs in Hs'. simplify_eq.
  destruct H as [|[y Hy]]; [done|]. pose proof (Hk _ _ Hy). simplify_eq. by exists perms', x.
Qed.

Lemma walk_entries_advance d l0 l s s' :
  contents_ok blake3 U (w_store s) -> w_listing env (source_abs root d) = Ok l0 ->
  (forall e, e ∈ l -> e ∈ l0) -> walk_entries blake3 env root d l s = (s', true) ->
  advanced s s' /\ dealt d l s' (fun x => x ∈ w_queue s').
Proof using Hcf Hq Hfit.
  intros Hst Hl. revert s Hst. induction l as [|e l IH]; intros s Hst Hin; cbn [walk_entries].
  { intros [= <-]. split; [apply advanced_refl|]. by intros e ?%elem_of_nil. }
  destruct (tick_quiet s) as (Hadv & Et & Es & Eq). destruct (w_stop _ _); [done|].
  destruct (walk_entry _ _ _ _ _ _) as [s1 [|]] eqn:E; [|done]. simpl. destruct (de_next e); [done|].
  assert (advanced (tick env s) s1 /\ (skipped_entry d e = false -> taken d e (w_tree s1) /\
    (subdirectory d e (w_tree s1) -> child_vpath d (de_name e) ∈ w_queue s1))) as [H1 Hmine].
  { unfold walk_entry in E. destruct (skipped_entry d e) eqn:Esk.
    - injection E as <-. split; [apply advanced_refl|done].
    - destruct (de_status e) as [|[t perms]] eqn:Estat; [done|].
      destruct (walk_child_advances d l0 e t perms (tick env s) s1) as (A & B & C); try done.
      { by rewrite Es. } { by apply Hin, list_elem_of_here. } }
  pose proof (advanced_trans _ _ _ Hadv H1) as H2. intros Hrest.
  destruct (IH s1 (ad_store _ _ H2 Hst) ltac:(intros; by apply Hin, list_elem_of_further) Hrest) as [H3 Hd].
  split; [by eapply advanced_trans|]. intros x [->|Hx]%elem_of_cons Hsk; [|by apply Hd].
  destruct (Hmine Hsk) as [Ht Hsub]. split; [by eapply taken_later; [apply H3|]|].
  intros Hs. apply (ad_queue _ _ H3), Hsub. eapply subdirectory_before; [exact Hl| |apply H3|done|done].
  apply Hin, list_elem_of_here.
Qed.

Definition closed_upto (seen : list str) (s : WalkState) : Prop :=
  forall d, d ∈ seen -> exists l, w_listing env (source_abs root d) = Ok l /\
    dealt d l s (fun x => x ∈ seen \/ x ∈ w_queue s).

Lemma walk_loop_covers fuel seen s s' :
  contents_ok blake3 U (w_store s) -> closed_upto seen s ->
  walk_loop blake3 env root fuel s = Some (s', true) ->
  advanced (mkWalkState (w_store s) (w_tree s) [] (w_step s)) s' /\
  exists seen', closed_upto seen' s' /\ w_queue s' = [] /\ (forall d, d ∈ seen \/ d ∈ w_queue s -> d ∈ seen').
Proof using Hcf Hq Hfit.
  revert seen s. induction fuel as [|fuel IH]; intros seen s Hst Hc; cbn [walk_loop];
    destruct (w_queue s) as [|d q] eqn:Eq; try discriminate.
  1,2: intros [= <-]; split; [split; try done; [by intros x ?%elem_of_nil|intros _ p x; simpl; congruence]|];
    exists seen; split_and!; [done|done|]; intros x [Hx|Hx%elem_of_nil]; done.
  set (s1 := mkWalkState (w_store s) (w_tree s) q (w_step s)).
  destruct (tick_quiet s1) as (Hadv & Et & Es & Eq1). destruct (w_stop _ _); [done|].
  destruct (w_listing _ _) as [l|] eqn:El; [|done].
  destruct (walk_entries _ _ _ _ _ _) as [s2 [|]] eqn:E; [|done].
  destruct (walk_entries_advance d l l (tick env s1) s2) as [H2 Hd]; try done.
  { by rewrite Es. }
  pose proof (advanced_trans _ _ _ Hadv H2) as H12.
  intros Hrest. destruct (IH (d :: seen) s2) as (H3 & seen' & A & B & C); [by apply H12| |done|].
  { intros x [->|Hx]%elem_of_cons.
    - exists l. split; [done|]. intros e He Hsk. destruct (Hd e He Hsk) as [Ht Hsub]. split; [done|].
      intros Hs. right. by apply Hsub.
    - destruct (Hc x Hx) as (l' & Hl' & Hdl). exists l'. split; [done|]. intros e He Hsk.
      destruct (Hdl e He Hsk) as [Ht Hsub]. split; [eapply taken_later; [apply H12|done]|].
      intros Hs. eapply subdirectory_before in Hs; [|exact Hl'|exact He|apply H12|exact Ht].
      destruct (Hsub Hs) as [Hin|Hin]; [left; by apply list_elem_of_further|].
      rewrite Eq in Hin. apply elem_of_cons in Hin as [->|Hin].
      + left. apply list_elem_of_here.
      + right. apply (ad_queue _ _ H12). done. }
  split.
  - destruct H12 as [A1 A2 A3 A4 A5], H3 as [B1 B2 B3 B4 B5]. simpl in *.
    assert (advanced (mkWalkState (w_store s) (w_tree s) [] (w_step s)) (mkWalkState (w_store s2) (w_tree s2) [] (w_step s2))) as P1
      by (by split).
    assert (advanced (mkWalkState (w_store s2) (w_tree s2) [] (w_step s2)) s') as P2 by (by split).
    by eapply advanced_trans.
  - exists seen'. split_and!; [done|done|]. intros x [Hx|[->|Hx]%elem_of_cons]; apply C.
    + left. by apply list_elem_of_further.
    + left. apply list_elem_of_here.
    + right. by apply (ad_queue _ _ H12).
Qed.

(** The directories both sides have, from the root. *)
Inductive shared_dir (wt : WorkingTree) : str -> Prop :=
| shared_root : shared_dir wt [slash]
| shared_child d l e :
    shared_dir wt d -> w_listing env (source_abs root d) = Ok l -> e ∈ l -> skipped_entry d e = false ->
    subdirectory d e wt -> shared_dir wt (child_vpath d (de_name e)).

End quiet.

Lemma raw_fold wt : raw (fold_into_base wt) = raw wt.
Proof.
  unfold raw, fold_into_base. simpl. rewrite map_empty_union.
  destruct (base_ wt) as [b|]; simpl; [|by rewrite map_union_empty].
  case_decide; subst; [by rewrite map_union_empty|]. by rewrite insert_all_entries.
Qed.

(** C32. A completed walk takes the source in: when nothing else runs and the
    source does not change, everything the branch recorded stays as it was,
    every new entry shows a source file as it was read, and the result is one
    base that the branch no longer falls through. Of every directory the branch
    still shares with the source, from the root down, each entry has some record,
    if only an older whiteout (special files and reserved names at the root
    aside). *)
Theorem walk_takes_in_source blake3 U env root src fuel st wt s :
  collision_free blake3 U -> quiet env root src -> source_fits U src -> contents_ok blake3 U st ->
  walk_bg blake3 env root fuel st wt = Some (s, true) ->
  records_kept wt (w_tree s) /\ from_source env root src (w_store s) wt (w_tree s) /\
  (forall d, shared_dir env root (w_tree s) d -> exists l, w_listing env (source_abs root d) = Ok l /\
     forall e, e ∈ l -> skipped_entry d e = false -> taken d e (w_tree s)) /\
  base_authoritative_ (w_tree s) = true /\ delta_ (w_tree s) = ∅.
Proof.
  intros Hcf Hq Hfit Hst. unfold walk_bg.
  destruct (walk_loop _ _ _ _ _) as [[s0 [|]]|] eqn:E; [|by intros [= <-]|done].
  destruct (walk_loop_covers blake3 U Hcf env root src Hq Hfit fuel [] (mkWalkState st wt [[slash]] 0) s0
    Hst ltac:(by intros d ?%elem_of_nil) E) as ([A1 _ _ _ A5] & seen & Hc & Hnil & Hroot). simpl in *.
  destruct (tick_quiet blake3 U env root src Hq s0) as (_ & Et & Es & _).
  destruct (w_stop _ _); [done|]. intros [= <-]. simpl. rewrite Et, Es.
  assert (forall p, raw (fold_into_base (w_tree s0)) !! p = raw (w_tree s0) !! p) as Hf by (intros; by rewrite raw_fold).
  split_and!; [| | |done|done].
  - intros p e Hp. rewrite Hf. by apply A1.
  - intros p x Hp. rewrite Hf. by apply A5.
  - intros d Hd. assert (d ∈ seen) as Hin.
    { induction Hd as [|d l e Hd IH Hl He Hsk Hsub]; [apply Hroot; right; apply list_elem_of_here|].
      destruct (Hc d IH) as (l' & Hl' & Hdl). rewrite Hl in Hl'. simplify_eq.
      destruct (Hdl e He Hsk) as [_ Hk]. destruct Hk as [Hk|Hk]; [|done|by rewrite Hnil in Hk; apply elem_of_nil in Hk].
      destruct Hsub as (perms & x & H1 & H2 & H3). rewrite Hf in H2. by exists perms, x. }
    destruct (Hc d Hin) as (l & Hl & Hdl). exists l. split; [done|]. intros e He Hsk.
    destruct (Hdl e He Hsk) as [(t & perms & H1 & H2) _]. exists t, perms. split; [done|]. by rewrite Hf.
Qed.

(** The walk ends when the source has finitely many directories, whatever
    else runs and however the source changes meanwhile. *)
Theorem walk_ends blake3 env root n st wt :
  dir_weight env root [slash] n -> exists s folded, walk_bg blake3 env root n st wt = Some (s, folded).
Proof.
  intros Hn. unfold walk_bg.
  pose proof (walk_loop_ends blake3 env root n (mkWalkState st wt [[slash]] 0) [n]) as H.
  destruct (walk_loop _ _ _ _ _) as [[s0 c]|]; [by destruct (_ && _); eexists _, _|].
  destruct H; [by apply Forall2_cons|simpl; lia|done].
Qed.

(** ** A small source: /src/f holds "hello", /src/d is an empty directory. *)

Definition small_root : str := lit "/src".
Definition file_f : str := lit "/src/f".
Definition dir_d : str := lit "/src/d".

Definition small_status (a : str) : file_status :=
  if decide (a = file_f) then inr (TRegular, 420)
  else if decide (a = dir_d) then inr (TDirectory, 493) else inl (true, lit "no such file").

Definition small_source : SourceEnv :=
  mkSource small_status (fun _ => Err (lit "not a link")) (fun _ => Ok 5)
    (fun a => if decide (a = file_f) then Some (hello, false) else None) (fun _ => no_faults 5).

Definition small_listing (a : str) : result (list dirent) :=
  if decide (a = small_root)
  then Ok [mkDirent (lit "f") (inr (TRegular, 420)) None; mkDirent (lit "d") (inr (TDirectory, 493)) None]
  else if decide (a = dir_d) then Ok [] else Err (lit "no such directory").

Definition small_walk : WalkEnv :=
  mkWalk small_listing (fun _ => small_source) (fun _ => false) (fun _ st wt => (st, wt)).

Definition prefixes : list bytes := (fun n => lit "blob" ++ blob_body (take n hello)) <$> seq 0 6.
Definition boot_U (c : bytes) : Prop := c ∈ prefixes.

Lemma boot_collision_free : collision_free toy_blake3 boot_U.
Proof. apply collision_free_list. vm_compute. reflexivity. Qed.

Lemma small_source_fits : source_fits boot_U small_source.
Proof.
  split; [done|]. intros a content bad n. simpl. case_decide; [|done]. intros [= <- <-].
  assert (take n hello = take (n `min` 5) hello) as ->.
  { destruct (decide (n <= 5)%nat); [by rewrite Nat.min_l by lia|].
    rewrite Nat.min_r by lia. rewrite !take_ge; [done|change (length hello) with 5%nat; lia..]. }
  split.
  - apply list_elem_of_fmap. exists (n `min` 5)%nat. split; [done|]. apply elem_of_seq. lia.
  - unfold len. rewrite length_take. change (length hello) with 5%nat. lia.
Qed.

Lemma empty_contents : contents_ok toy_blake3 boot_U (empty_store (lit "/s")).
Proof. split; [|done]. split; simpl; [done|by intros h []|set_solver]. Qed.

Lemma small_quiet : quiet small_walk small_root small_source.
Proof.
  split; [done|done|]. intros d l e. simpl. unfold small_listing.
  destruct (decide (source_abs small_root d = small_root)) as [->|].
  - intros [= <-]. rewrite !elem_of_cons. intros [->|[->|[]%elem_of_nil]]; vm_compute; reflexivity.
  - case_decide; [|done]. intros [= <-] []%elem_of_nil.
Qed.

Lemma ensure_path_adds_source_witness : exists st' wt' b,
  ensure_path toy_blake3 small_source small_root (lit "/f") (empty_store (lit "/s")) empty_tree = Some (st', wt', b).
Proof.
  destruct (ensure_path_adds_source toy_blake3 boot_U small_source small_root (lit "/f")
    (empty_store (lit "/s")) empty_tree) as (st' & wt' & b & H & _).
  - apply boot_collision_free.
  - apply empty_contents.
  - apply small_source_fits.
  - reflexivity.
  - by exists st', wt', b.
Defined.

Definition small_walked : WalkState :=
  match walk_bg toy_blake3 small_walk small_root 3 (empty_store (lit "/s")) empty_tree with
  | Some (s, _) => s
  | None => mkWalkState (empty_store []) empty_tree [] 0
  end.

Lemma walk_takes_in_source_witness : base_authoritative_ (w_tree small_walked) = true.
Proof.
  destruct (walk_takes_in_source toy_blake3 boot_U small_walk small_root small_source 3
    (empty_store (lit "/s")) empty_tree small_walked) as (_ & _ & _ & H & _).
  - apply boot_collision_free.
  - apply small_quiet.
  - apply small_source_fits.
  - apply empty_contents.
  - vm_compute. reflexivity.
  - exact H.
Defined.

Lemma small_leaf d : small_listing (source_abs small_root d) = Err (lit "no such directory") \/
  small_listing (source_abs small_root d) = Ok [] -> dir_weight small_walk small_root d 1.
Proof.
  intros H. apply (dw _ _ _ _ []); [|done]. intros l Hl. change (w_listing small_walk) with small_listing in Hl.
  destruct H as [H|H]; rewrite H in Hl; [done|]. injection Hl as <-. by apply Forall2_nil.
Qed.

Lemma walk_ends_witness : exists s folded,
  walk_bg toy_blake3 small_walk small_root 3 (empty_store (lit "/s")) empty_tree = Some (s, folded).
Proof.
  apply walk_ends. apply (dw _ _ _ _ [1; 1]%nat); [|done]. intros l [= <-].
  apply Forall2_cons. split; [apply small_leaf; left; vm_compute; reflexivity|].
  apply Forall2_cons. split; [apply small_leaf; right; vm_compute; reflexivity|].
  by apply Forall2_nil.
Defined.
