(* ===== verification/Daemon.v ===== *)
(** The daemon: branches, open handles and the operations that publish
    (cas/daemon.h, cas/daemon.cpp, cas/branch_context.h).

    Every publisher holds [gc_publish_mu_] for its whole body, so publishers
    exclude each other and each is one step. Handle operations take the
    branch's own mutex only; they reach a [BranchContext] through a shared
    pointer that may have been taken before the branch was deleted, so contexts
    live in a heap, and [branches_] holds the ids of the ones still listed. *)

From S2P Require Import Prelude Hashes WorkingTree WriteBuffer Codec ObjectStore TreeSerialize Refs Checkpoint BranchMerge Gc BranchRouter Handles.

Record BranchContext : Type := mkBranch {
  bc_name : str;
  bc_wt : WorkingTree;
  retired : bool
}.

Record Daemon : Type := mkDaemon {
  store_ : ObjectStore;
  refs_ : Refs;
  heap : gmap N BranchContext;
  branches_ : gset N;
  branch_name_ids_ : gmap str N;
  branch_create_reservations_ : gset str;
  branch_source_reservations_ : gmap str N;
  next_branch_id_ : N;
  router_ : BranchRouter;
  fh_table_ : gmap N FhState;
  next_fh_id_ : N;
  session_id_ : N;
  policy_version_ : N
}.

Definition main_name : str := lit "main".
Definition main_id : N := 0.
Definition UINT32_MAX : N := 2 ^ 32 - 1.

(** ** Field updates *)

Definition set_store (st : ObjectStore) (d : Daemon) : Daemon :=
  mkDaemon st (refs_ d) (heap d) (branches_ d) (branch_name_ids_ d) (branch_create_reservations_ d)
    (branch_source_reservations_ d) (next_branch_id_ d) (router_ d) (fh_table_ d) (next_fh_id_ d)
    (session_id_ d) (policy_version_ d).
Definition set_refs (r : Refs) (d : Daemon) : Daemon :=
  mkDaemon (store_ d) r (heap d) (branches_ d) (branch_name_ids_ d) (branch_create_reservations_ d)
    (branch_source_reservations_ d) (next_branch_id_ d) (router_ d) (fh_table_ d) (next_fh_id_ d)
    (session_id_ d) (policy_version_ d).
Definition set_heap (h : gmap N BranchContext) (d : Daemon) : Daemon :=
  mkDaemon (store_ d) (refs_ d) h (branches_ d) (branch_name_ids_ d) (branch_create_reservations_ d)
    (branch_source_reservations_ d) (next_branch_id_ d) (router_ d) (fh_table_ d) (next_fh_id_ d)
    (session_id_ d) (policy_version_ d).
Definition set_listed (b : gset N) (ids : gmap str N) (d : Daemon) : Daemon :=
  mkDaemon (store_ d) (refs_ d) (heap d) b ids (branch_create_reservations_ d)
    (branch_source_reservations_ d) (next_branch_id_ d) (router_ d) (fh_table_ d) (next_fh_id_ d)
    (session_id_ d) (policy_version_ d).
Definition set_reservations (c : gset str) (s : gmap str N) (d : Daemon) : Daemon :=
  mkDaemon (store_ d) (refs_ d) (heap d) (branches_ d) (branch_name_ids_ d) c s
    (next_branch_id_ d) (router_ d) (fh_table_ d) (next_fh_id_ d) (session_id_ d) (policy_version_ d).
Definition set_next_branch (n : N) (d : Daemon) : Daemon :=
  mkDaemon (store_ d) (refs_ d) (heap d) (branches_ d) (branch_name_ids_ d)
    (branch_create_reservations_ d) (branch_source_reservations_ d) n (router_ d) (fh_table_ d)
    (next_fh_id_ d) (session_id_ d) (policy_version_ d).
Definition set_router (r : BranchRouter) (d : Daemon) : Daemon :=
  mkDaemon (store_ d) (refs_ d) (heap d) (branches_ d) (branch_name_ids_ d)
    (branch_create_reservations_ d) (branch_source_reservations_ d) (next_branch_id_ d) r
    (fh_table_ d) (next_fh_id_ d) (session_id_ d) (policy_version_ d).
Definition set_fhs (t : gmap N FhState) (n : N) (d : Daemon) : Daemon :=
  mkDaemon (store_ d) (refs_ d) (heap d) (branches_ d) (branch_name_ids_ d)
    (branch_create_reservations_ d) (branch_source_reservations_ d) (next_branch_id_ d) (router_ d)
    t n (session_id_ d) (policy_version_ d).

Definition set_table (t : gmap N FhState) (d : Daemon) : Daemon := set_fhs t (next_fh_id_ d) d.

(** Write a context's tree; a context not in the heap does not exist. *)
Definition set_wt (bid : N) (wt : WorkingTree) (d : Daemon) : Daemon :=
  match heap d !! bid with
  | Some b => set_heap (<[bid := mkBranch (bc_name b) wt (retired b)]> (heap d)) d
  | None => d
  end.

Definition wt_of (d : Daemon) (bid : N) : WorkingTree :=
  match heap d !! bid with Some b => bc_wt b | None => empty_tree end.

Definition name_of (d : Daemon) (bid : N) : str :=
  match heap d !! bid with Some b => bc_name b | None => [] end.

(** ** Handles *)

(** [next_fh_id_.fetch_add(1)]. *)
Definition allocate_fh (s : FhState) (d : Daemon) : Daemon * N :=
  let fh := next_fh_id_ d in (set_fhs (<[fh := s]> (fh_table_ d)) (u64 (fh + 1)) d, fh).

Definition get_fh (d : Daemon) (fh : N) : option FhState := fh_table_ d !! fh.

Definition release_fh (fh : N) (d : Daemon) : Daemon := set_table (delete fh (fh_table_ d)) d.

Definition put_fh (fh : N) (s : FhState) (d : Daemon) : Daemon := set_table (<[fh := s]> (fh_table_ d)) d.

Definition invalidate_fhs_for_branch (bid : N) (d : Daemon) : Daemon :=
  set_table (invalidate_fhs bid (fh_table_ d)) d.

Definition dirty_fh_size_for_path (d : Daemon) (order : list N) (path : str) (bid : N) : Z :=
  dirty_fh_size path bid order (fh_table_ d).

(** Outcomes of a flush of a branch: the table's iteration order and each
    handle's calls. *)
Record FlushFhsEnv : Type := mkFlushFhs { fh_order : list N; fh_envs : N -> FlushEnv }.

(** ** Branches *)

Definition branch (d : Daemon) (bid : N) : option N :=
  if decide (bid ∈ branches_ d) then Some bid else None.

Definition branch_by_name (d : Daemon) (name : str) : option N :=
  match branch_name_ids_ d !! name with Some bid => branch d bid | None => None end.

(** Together with the branch's mutex. *)
Definition branch_by_name_locked := branch_by_name.

Definition branch_or_main (d : Daemon) (bid : N) : N := default main_id (branch d bid).

(** [None]: the route did not terminate, which [resolve] excludes. *)
Definition branch_for_pid (w : World) (d : Daemon) (pid : Z) : option (World * Daemon * N) :=
  match resolve w (router_ d) pid with
  | Some (w', r, bid) => Some (w', set_router r d, branch_or_main d bid)
  | None => None
  end.

(** Ids in the order of the [std::map]. *)
Definition sorted_ids (s : gset N) : list N := merge_sort N.le (elements s).

Definition list_branches (d : Daemon) : list N := sorted_ids (branches_ d).

Section hashing.
Context (blake3 : bytes -> Hash).

Definition flush_fhs_for_branch (env : FlushFhsEnv) (bid : N) (d : Daemon) : Daemon * bool :=
  match branch d bid with
  | None => (d, false)
  | Some _ =>
      let '(st, wt, t, ok) :=
        flush_loop blake3 (fh_envs env) bid (fh_order env) (store_ d) (wt_of d bid) (fh_table_ d) in
      (set_table t (set_wt bid wt (set_store st d)), ok)
  end.

(** [checkpoint_locked] runs its callback once, on the store and the tree it
    was called with; the callback also writes the handle table. *)
Definition flush_callback (env : FlushFhsEnv) (bid : N) (t : gmap N FhState) : flush_fn :=
  fun st wt =>
    let '(st', wt', _, ok) := flush_loop blake3 (fh_envs env) bid (fh_order env) st wt t in
    (st', wt', ok).

Definition flushed_table (env : FlushFhsEnv) (bid : N) (d : Daemon) : gmap N FhState :=
  (flush_loop blake3 (fh_envs env) bid (fh_order env) (store_ d) (wt_of d bid) (fh_table_ d)).1.2.

(** Outcomes of a checkpoint of a branch. *)
Record PublishEnv : Type := mkPublish { pub_flush : FlushFhsEnv; pub_checkpoint : CheckpointEnv }.

Definition checkpoint_context (env : PublishEnv) (bid : N) (branch_name label : str) (d : Daemon) :
    Daemon * CheckpointResult :=
  let t := flushed_table (pub_flush env) bid d in
  let '(st, rf, wt, r) :=
    checkpoint_locked blake3 (pub_checkpoint env) label (session_id_ d) (policy_version_ d)
      (flush_callback (pub_flush env) bid (fh_table_ d)) branch_name (store_ d) (refs_ d)
      (wt_of d bid) in
  (set_table t (set_wt bid wt (set_refs rf (set_store st d))), r).

Definition unknown_branch : CheckpointResult := failed (lit "unknown branch").

(** By pointer; [None] is a null pointer. *)
Definition checkpoint_branch (env : PublishEnv) (br : option N) (label : str) (d : Daemon) :
    Daemon * CheckpointResult :=
  match br with
  | None => (d, unknown_branch)
  | Some bid =>
      match branch d bid with
      | None => (d, unknown_branch)
      | Some _ => checkpoint_context env bid (name_of d bid) label d
      end
  end.

Definition checkpoint_branch_by_name (env : PublishEnv) (branch_name label : str) (d : Daemon) :
    Daemon * CheckpointResult :=
  match branch_by_name_locked d branch_name with
  | None => (d, unknown_branch)
  | Some bid => checkpoint_context env bid (name_of d bid) label d
  end.

Definition rollback_context (env : RollbackEnv) (bid : N) (target : Hash) (branch_name : str)
    (d : Daemon) : option (parse (Daemon * RollbackResult)) :=
  match rollback_locked blake3 env (hash_to_hex target) branch_name (store_ d) (refs_ d) (wt_of d bid) with
  | None => None
  | Some OutOfBounds => Some OutOfBounds
  | Some Rejected => Some Rejected
  | Some (Parsed (rf, wt, invalidated, r)) =>
      let d' := set_wt bid wt (set_refs rf d) in
      Some (Parsed (if invalidated : bool then invalidate_fhs_for_branch bid d' else d', r))
  end.

Definition rollback_branch_to_commit (env : RollbackEnv) (branch_name : str) (target : Hash)
    (d : Daemon) : option (parse (Daemon * RollbackResult)) :=
  match branch_by_name_locked d branch_name with
  | None => Some (Parsed (d, unknown_branch))
  | Some bid => rollback_context env bid target branch_name d
  end.

End hashing.

(** ** Creating and deleting *)

(** Under [branches_mu_]: the source's id, or nothing was reserved. *)
Definition reserve (name from : str) (d : Daemon) : option (Daemon * N) :=
  if decide (is_Some (branch_name_ids_ d !! name)) then None
  else if decide (name ∈ branch_create_reservations_ d) then None
  else
    match branch_by_name d from with
    | None => None
    | Some src =>
        Some (set_reservations ({[name]} ∪ branch_create_reservations_ d)
                (<[from := default 0 (branch_source_reservations_ d !! from) + 1]>
                   (branch_source_reservations_ d)) d, src)
    end.

Definition drop_source (from : str) (m : gmap str N) : gmap str N :=
  match m !! from with
  | None => m
  | Some n => if n <=? 1 then delete from m else <[from := n - 1]> m
  end.

Definition clear_reservations (name from : str) (d : Daemon) : Daemon :=
  set_reservations (branch_create_reservations_ d ∖ {[name]})
    (drop_source from (branch_source_reservations_ d)) d.

Record CreateEnv : Type := mkCreate { source_read : ReadEnv; create_write : WriteRefEnv }.

(** The new id, or [UINT32_MAX]. *)
Definition create_branch (env : CreateEnv) (name from : str) (d : Daemon) : Daemon * N :=
  match reserve name from d with
  | None => (d, UINT32_MAX)
  | Some (d1, src) =>
      let id := next_branch_id_ d1 in
      let d2 := set_next_branch (u32 (id + 1)) d1 in
      match read_ref (source_read env) from (refs_ d2) with
      | None => (clear_reservations name from d2, UINT32_MAX)
      | Some src_commit =>
          let br := mkBranch name (clone (wt_of d2 src)) false in
          match write_ref (create_write env) name src_commit (refs_ d2) with
          | (rf, false) => (clear_reservations name from (set_refs rf d2), UINT32_MAX)
          | (rf, true) =>
              let d3 := clear_reservations name from (set_refs rf d2) in
              if decide (is_Some (branch_name_ids_ d3 !! name)) then (d3, UINT32_MAX)
              else
                (set_listed ({[id]} ∪ branches_ d3) (<[name := id]> (branch_name_ids_ d3))
                   (set_heap (<[id := br]> (heap d3)) d3), id)
          end
      end
  end.

Definition retire (bid : N) (d : Daemon) : Daemon :=
  match heap d !! bid with
  | Some b => set_heap (<[bid := mkBranch (bc_name b) (bc_wt b) true]> (heap d)) d
  | None => d
  end.

(** A failed [remove_ref] may have unlinked the file (Refs). *)
Definition delete_branch (env : RemoveRefEnv) (name : str) (d : Daemon) : Daemon * bool :=
  if decide (name = main_name) then (d, false)
  else
    match branch_by_name d name with
    | None => (d, false)
    | Some bid =>
        if decide (is_Some (branch_source_reservations_ d !! name)) then (d, false)
        else if has_cgroup_for_branch bid (router_ d) then (d, false)
        else
          match remove_ref env name (refs_ d) with
          | (rf, false) => (set_refs rf d, false)
          | (rf, true) =>
              let d1 := invalidate_fhs_for_branch bid (retire bid (set_refs rf d)) in
              (set_listed (branches_ d1 ∖ {[bid]}) (delete name (branch_name_ids_ d1)) d1, true)
          end
    end.

(** ** Merging *)

Record BranchMergeResult : Type := mkBMR {
  bmr_ok : bool;
  bmr_commit : Hash;
  bmr_conflicts : list str;
  bmr_error : str
}.

Definition merge_error (msg : str) : BranchMergeResult := mkBMR false ZERO_HASH [] msg.

(** Outcomes of the reads of one [load_commit_tree]. *)
Record LoadEnv : Type := mkLoad {
  load_commit_io : bool;
  load_fuel : nat;
  load_tree_io : Hash -> bool;
  load_status : Hash -> object_status
}.

Record MergeEnv : Type := mkMergeEnv {
  source_publish : PublishEnv;
  target_publish : PublishEnv;
  base_search : MergeBaseEnv;
  base_load : LoadEnv;
  source_load : LoadEnv;
  target_load : LoadEnv;
  merge_commit_env : MergeCommitEnv;
  merge_ref_write : WriteRefEnv
}.

(** The last listed branch of that name, in the order of the ids. *)
Definition branch_named (d : Daemon) (name : str) : option N :=
  last (filter (fun bid => name_of d bid = name) (list_branches d)).

Definition default_merge_label (source_name target_name requested_label : str) : str :=
  match requested_label with
  | [] => lit "merge " ++ source_name ++ lit " into " ++ target_name
  | _ => requested_label
  end.

Definition pre_merge_label (source_name target_name side : str) : str :=
  lit "pre-merge " ++ source_name ++ lit " into " ++ target_name ++ [" "%char] ++ side.

(** An undefined or unfinished walk ends the operation. *)
Definition after_walk {A R} (r : walk A) (ok : A -> option (parse R)) (err : str -> option (parse R)) :
    option (parse R) :=
  match r with
  | Found a => ok a
  | Broken msg => err msg
  | Wild => Some OutOfBounds
  | Starved => None
  end.

Section merging.
Context (blake3 : bytes -> Hash).

Definition load_tree (env : LoadEnv) (st : ObjectStore) (commit : Hash) : walk (WorkingTree * CommitData) :=
  load_commit_tree blake3 st (load_commit_io env) (load_fuel env) (load_tree_io env) (load_status env) commit.

(** Once both branches are checkpointed: the merge of the two commits. *)
Definition merge_commits (env : MergeEnv) (source target : N) (source_name target_name label : str)
    (source_commit target_commit : Hash) (d : Daemon) : option (parse (Daemon * BranchMergeResult)) :=
  let stop msg := Some (Parsed (d, merge_error msg)) in
  after_walk (find_common_ancestor (store_ d) (base_search env) source_commit target_commit) (fun base_commit =>
  after_walk (load_tree (base_load env) (store_ d) base_commit) (fun '(base_wt, _) =>
  after_walk (load_tree (source_load env) (store_ d) source_commit) (fun '(source_wt, _) =>
  after_walk (load_tree (target_load env) (store_ d) target_commit) (fun '(target_wt, _) =>
    let merge := merge_trees base_wt source_wt target_wt in
    if negb (mr_ok merge)
    then Some (Parsed (d, mkBMR false ZERO_HASH (mr_conflicts merge) (mr_error merge)))
    else
      let '(st, written) :=
        write_commit_with_parents blake3 (merge_commit_env env) (store_ d) (mr_merged merge)
          [target_commit; source_commit] (session_id_ d) (policy_version_ d)
          (default_merge_label source_name target_name label) in
      let d1 := set_store st d in
      match written with
      | Err msg => Some (Parsed (d1, merge_error msg))
      | Ok commit =>
          match write_ref (merge_ref_write env) target_name commit (refs_ d1) with
          | (rf, false) =>
              Some (Parsed (set_refs rf d1, merge_error (lit "failed to advance refs/" ++ target_name)))
          | (rf, true) =>
              let d2 := set_wt target (mr_merged merge) (set_refs rf d1) in
              Some (Parsed (invalidate_fhs_for_branch target d2, mkBMR true commit [] []))
          end
      end) stop) stop) stop) stop.

Definition merge_branch (env : MergeEnv) (source_name target_name label : str) (d : Daemon) :
    option (parse (Daemon * BranchMergeResult)) :=
  match branch_named d source_name, branch_named d target_name with
  | Some source, Some target =>
      if decide (source = target)
      then Some (Parsed (d, merge_error (lit "cannot merge branch into itself")))
      else
        let '(d1, source_cp) :=
          checkpoint_context blake3 (source_publish env) source source_name
            (pre_merge_label source_name target_name (lit "source")) d in
        if negb (ok source_cp) then Some (Parsed (d1, merge_error (cr_error source_cp)))
        else
          let '(d2, target_cp) :=
            checkpoint_context blake3 (target_publish env) target target_name
              (pre_merge_label source_name target_name (lit "target")) d1 in
          if negb (ok target_cp) then Some (Parsed (d2, merge_error (cr_error target_cp)))
          else merge_commits env source target source_name target_name label
                 (commit_hash source_cp) (commit_hash target_cp) d2
  | _, _ => Some (Parsed (d, merge_error (lit "unknown branch")))
  end.

End merging.

(** ** Statistics *)

Record BranchMemoryStats : Type := mkBMS { bs_name : str; bs_tree : WorkingTreeMemoryStats }.

Record MemoryStats : Type := mkMemoryStats {
  ms_branches : list BranchMemoryStats;
  write_buffer_count : N;
  write_buffer_dirty_bytes : N;
  rss_kb : N
}.

(** [use_count] and [rss] are facts of the process. *)
Definition collect_memory_stats (use_count : N -> Z) (rss : N) (d : Daemon) : MemoryStats :=
  let bufs := omap (fun x => write_buf x.2) (map_to_list (fh_table_ d)) in
  mkMemoryStats
    ((fun bid => mkBMS (name_of d bid) (memory_stats (use_count bid) (wt_of d bid))) <$> list_branches d)
    (u64 (N.of_nat (length bufs)))
    (u64 (foldr (fun w n => dirty_bytes_ w + n) 0 bufs))
    rss.

(** ** Garbage collection *)

(** The hashes of a tree's blobs and links, whiteouts filtered out. *)
Definition live_hash (x : str * WorkingTreeEntry) : option Hash :=
  match e_kind x.2 with
  | Blob | Symlink => if decide (e_hash x.2 = ZERO_HASH) then None else Some (e_hash x.2)
  | _ => None
  end.

Definition nonzero (h : Hash) : option Hash := if decide (h = ZERO_HASH) then None else Some h.

(** [template_ids]: the union state ids of the supervisor's templates. *)
Definition collect_live_roots (order : list N) (template_ids : list str) (d : Daemon) : GcLiveRoots :=
  let fhs := omap (fun fh => fh_table_ d !! fh) order in
  mkLive (name_of d <$> list_branches d)
    (list_branches d ≫= fun bid => omap live_hash (for_each_including_deleted (wt_of d bid)))
    (omap (fun s => nonzero (base_blob s)) fhs)
    (omap (fun s => nonzero (pinned_commit s)) fhs)
    (pending_snapshot (store_ d))
    (omap (fun id => if decide (length id = 64%nat) then hex_to_hash id else None) template_ids).

Record RunGcEnv : Type := mkRunGc {
  gc_fh_order : list N;
  gc_templates : list str;
  gc_reads : GcEnv;
  gc_roots_env : RootsEnv;
  gc_sweep_env : SweepEnv
}.

(** The mark and the sweep, with roots that were collected before. *)
Definition mark_and_sweep (env : RunGcEnv) (policy : GcPolicy) (live : GcLiveRoots) (d : Daemon) :
    option (Daemon * GcResult) :=
  match run (store_ d) (gc_reads env) policy (gc_roots_env env) (refs_ d) live (gc_sweep_env env) with
  | Some (st, r) => Some (set_store st d, r)
  | None => None
  end.

Definition mark_and_verify (env : RunGcEnv) (order : gset Hash -> list Hash) (policy : GcPolicy)
    (live : GcLiveRoots) (d : Daemon) : option GcResult :=
  verify (store_ d) (gc_reads env) policy (gc_roots_env env) (refs_ d) live order.

Definition daemon_roots (env : RunGcEnv) (d : Daemon) : GcLiveRoots :=
  collect_live_roots (gc_fh_order env) (gc_templates env) d.

(** The roots are collected under the locks of the branches, which are
    released before the mark: [between] is what other threads do then. *)
Definition run_gc (env : RunGcEnv) (between : Daemon -> Daemon) (policy : GcPolicy) (d : Daemon) :
    option (Daemon * GcResult) :=
  mark_and_sweep env policy (daemon_roots env d) (between d).

Definition verify_gc (env : RunGcEnv) (between : Daemon -> Daemon) (order : gset Hash -> list Hash)
    (policy : GcPolicy) (d : Daemon) : option GcResult :=
  mark_and_verify env order policy (daemon_roots env d) (between d).

(** ** Start-up *)

Definition hidden_root : str := lit "/.agentvfs-store".

Definition is_hidden (path : str) : bool :=
  bool_decide (path = hidden_root) || has_prefix (hidden_root ++ [slash]) path.

Section startup.
Context (blake3 : bytes -> Hash).

Record RebuildEnv : Type := mkRebuild { rb_ref : ReadEnv; rb_load : LoadEnv }.

(** The new context, or the error. *)
Definition rebuild_branch_from_ref (env : RebuildEnv) (name : str) (st : ObjectStore) (refs : Refs) :
    option (parse (result BranchContext)) :=
  match read_ref (rb_ref env) name refs with
  | None => Some (Parsed (Err (lit "failed to read refs/" ++ name)))
  | Some commit_hash =>
      let l := rb_load env in
      match read_commit st (load_commit_io l) commit_hash with
      | None => Some (Parsed (Err (lit "failed to read commit " ++ hash_to_hex commit_hash)))
      | Some body =>
          match deserialize_commit body with
          | OutOfBounds => Some OutOfBounds
          | Rejected => Some (Parsed (Err (lit "failed to parse commit " ++ hash_to_hex commit_hash)))
          | Parsed cd =>
              match @rebuild_working_tree _ _ (object_tree_store blake3) (load_fuel l) (load_tree_io l)
                      (load_status l) (tree_hash cd) st empty_tree with
              | None => None
              | Some (_, Err _) =>
                  Some (Parsed (Err (lit "failed to rebuild tree " ++ hash_to_hex (tree_hash cd))))
              | Some (wt, Ok _) => Some (Parsed (Ok (mkBranch name wt false)))
              end
          end
      end
  end.

(** One persisted reference: skipped on any problem. *)
Definition load_persisted_branch (env : RebuildEnv) (name : str) (d : Daemon) : option (parse Daemon) :=
  if decide (name = main_name) then Some (Parsed d)
  else if negb (is_valid_branch_name name) then Some (Parsed d)
  else
    let id := next_branch_id_ d in
    let d1 := set_next_branch (u32 (id + 1)) d in
    match rebuild_branch_from_ref env name (store_ d1) (refs_ d1) with
    | None => None
    | Some OutOfBounds => Some OutOfBounds
    | Some Rejected => Some Rejected
    | Some (Parsed (Err _)) => Some (Parsed d1)
    | Some (Parsed (Ok b)) =>
        Some (Parsed (if decide (is_Some (branch_name_ids_ d1 !! name)) then d1
                      else set_listed ({[id]} ∪ branches_ d1) (<[name := id]> (branch_name_ids_ d1))
                             (set_heap (<[id := b]> (heap d1)) d1)))
    end.

Fixpoint load_persisted_branches (envs : str -> RebuildEnv) (names : list str) (d : Daemon) :
    option (parse Daemon) :=
  match names with
  | [] => Some (Parsed d)
  | name :: rest =>
      match load_persisted_branch (envs name) name d with
      | Some (Parsed d') => load_persisted_branches envs rest d'
      | r => r
      end
  end.

(** The constructor: main alone, empty. *)
Definition new_daemon (st : ObjectStore) (refs : Refs) (router : BranchRouter) (session : N) : Daemon :=
  mkDaemon st refs {[main_id := mkBranch main_name empty_tree false]} {[main_id]}
    {[main_name := main_id]} ∅ ∅ 1 router ∅ 1 session 1.

Record InitEnv : Type := mkInit {
  init_layout_env : LayoutEnv;
  tmp_remove : str -> fault;
  main_read : ReadEnv;
  init_tree_writes : nat -> WriteEnv;
  init_commit_write : WriteEnv;
  init_now_ns : N;
  init_fsync : FsyncEnv;
  main_write : WriteRefEnv;
  list_begin : fault;
  list_entries : list ref_entry;
  list_end : fault;
  rebuild_env : str -> RebuildEnv
}.

(** A fresh store gets an empty first commit; the verdict of [initialize]. *)
Definition first_commit (env : InitEnv) (d : Daemon) : Daemon * bool :=
  let run := @serialize_working_tree _ _ (object_tree_store blake3) (init_tree_writes env)
               (wt_of d main_id) (store_ d) in
  match sr_result run with
  | Err _ => (set_store (sr_store run) d, false)
  | Ok empty_tree_hash =>
      let cd := mkCommit empty_tree_hash [] (session_id_ d) (init_now_ns env) (lit "initial")
                  (policy_version_ d) in
      let '(st, commit) := write_commit blake3 (serialize_commit cd) (init_commit_write env) (sr_store run) in
      if decide (commit = ZERO_HASH) then (set_store st d, false)
      else
        let '(st1, to_fsync) := drain_pending st in
        match fsync_objects (object_out (init_fsync env)) to_fsync st1 with
        | (st2, false) => (set_store (restore_pending to_fsync st2) d, false)
        | (st2, true) =>
            match fsync_shard_dirs (shard_out (init_fsync env)) (objects_dir_out (init_fsync env))
                    to_fsync st2 with
            | (st3, false) => (set_store (restore_pending to_fsync st3) d, false)
            | (st3, true) =>
                let '(rf, ok) := write_main (main_write env) commit (refs_ d) in
                (set_refs rf (set_store st3 d), ok)
            end
        end
  end.

Definition load_branches (env : InitEnv) (d : Daemon) : option (parse (Daemon * bool)) :=
  match load_persisted_branches (rebuild_env env)
          (list_refs_or_nothing (list_begin env) (list_entries env) (list_end env)) d with
  | None => None
  | Some OutOfBounds => Some OutOfBounds
  | Some Rejected => Some Rejected
  | Some (Parsed d') => Some (Parsed (d', true))
  end.

(** A failed layout check leaves the daemon as it was. *)
Definition initialize (env : InitEnv) (d0 : Daemon) : option (parse (Daemon * bool)) :=
  if negb (init_layout (init_layout_env env) (store_ d0)).2 then Some (Parsed (d0, false))
  else
    let d := set_store (cleanup_tmp (tmp_remove env) (store_ d0)) d0 in
    match read_main (main_read env) (refs_ d) with
    | None =>
        match first_commit env d with
        | (d1, false) => Some (Parsed (d1, false))
        | (d1, true) => load_branches env d1
        end
    | Some _ =>
        match rebuild_branch_from_ref (rebuild_env env main_name) main_name (store_ d) (refs_ d) with
        | None => None
        | Some OutOfBounds => Some OutOfBounds
        | Some Rejected => Some Rejected
        | Some (Parsed (Err _)) => Some (Parsed (d, false))
        | Some (Parsed (Ok b)) => load_branches env (set_wt main_id (bc_wt b) d)
        end
    end.

End startup.
