(* ===== verification/DaemonTables.v ===== *)
(** The daemon's tables agree with one another, in every state its publishers
    reach: names, listed ids, contexts and open handles. *)

From S2P Require Import Prelude Hashes WorkingTree WriteBuffer Codec ObjectStore TreeSerialize Refs Checkpoint BranchMerge Gc BranchRouter Handles Daemon.

Record tables_ok (d : Daemon) : Prop := {
  t_ids : forall name bid, branch_name_ids_ d !! name = Some bid <->
    bid ∈ branches_ d /\ exists b, heap d !! bid = Some b /\ bc_name b = name;
  t_heap : forall bid b, heap d !! bid = Some b -> bid < next_branch_id_ d;
  t_listed : forall bid, bid ∈ branches_ d <-> exists b, heap d !! bid = Some b /\ retired b = false;
  t_main : branch_name_ids_ d !! main_name = Some main_id;
  t_handles : forall fh s, fh_table_ d !! fh = Some s -> stale s = false -> fh_branch s ∈ branches_ d;
  t_idle : branch_create_reservations_ d = ∅ /\ branch_source_reservations_ d = ∅
}.

(** A handle of the new table comes from the old one, as current at most. *)
Definition handles_from (t t' : gmap N FhState) : Prop :=
  forall fh s', t' !! fh = Some s' ->
    exists s, t !! fh = Some s /\ fh_branch s' = fh_branch s /\ (stale s = true -> stale s' = true).

Lemma handles_from_refl t : handles_from t t.
Proof. intros fh s Hs. by exists s. Qed.

Lemma handles_from_trans t1 t2 t3 : handles_from t1 t2 -> handles_from t2 t3 -> handles_from t1 t3.
Proof.
  intros H1 H2 fh s3 Hs3. destruct (H2 fh s3 Hs3) as (s2 & Hs2 & B2 & C2).
  destruct (H1 fh s2 Hs2) as (s1 & Hs1 & B1 & C1). exists s1. split; [done|]. split; [congruence|auto].
Qed.

Lemma flush_handle_from blake3 env s st wt st' wt' s' ok :
  flush_handle blake3 env s st wt = (st', wt', s', ok) ->
  fh_branch s' = fh_branch s /\ stale s' = stale s /\ fh_path s' = fh_path s.
Proof.
  unfold flush_handle. destruct (write_buf s) as [w|]; [|by intros [= _ _ <- _]].
  destruct (negb (is_dirty w)); [by intros [= _ _ <- _]|].
  destruct (write_blob _ _ _ _) as [st1 h]. unfold ensure_base_cache.
  destruct (base_cache_loaded s); case_decide; by intros [= _ _ <- _].
Qed.

Lemma flush_loop_from blake3 envs bid order st wt t st' wt' t' ok :
  flush_loop blake3 envs bid order st wt t = (st', wt', t', ok) -> handles_from t t'.
Proof.
  revert st wt t. induction order as [|fh rest IH]; intros st wt t; simpl.
  { intros [= _ _ <- _]. apply handles_from_refl. }
  destruct (t !! fh) as [s|] eqn:Es; [|apply IH].
  destruct (_ || _); [apply IH|].
  destruct (flush_handle _ _ _ _ _) as [[[st1 wt1] s1] ok1] eqn:E.
  assert (handles_from t (<[fh := s1]> t)) as Ht.
  { apply flush_handle_from in E as (B & C & _). intros x sx. destruct (decide (fh = x)) as [<-|Hne].
    - rewrite lookup_insert_eq. intros [= <-]. exists s. split; [done|]. split; [done|congruence].
    - rewrite lookup_insert_ne by done. intros Hx. by exists sx. }
  destruct ok1; [|by intros [= _ _ <- _]]. intros Hl. eapply handles_from_trans; [exact Ht|by eapply IH].
Qed.

Lemma invalidate_from bid t : handles_from t (invalidate_fhs bid t).
Proof.
  intros fh s'. unfold invalidate_fhs. rewrite lookup_fmap.
  destruct (t !! fh) as [s|] eqn:E; [|done]. intros [= <-]. exists s. split; [done|].
  by destruct (fh_branch s =? bid).
Qed.

(** The heap keeps its contexts, with their names and flags. *)
Definition same_contexts (h h' : gmap N BranchContext) : Prop :=
  forall bid, (fun b => (bc_name b, retired b)) <$> h' !! bid = (fun b => (bc_name b, retired b)) <$> h !! bid.

(** Only trees, the store, references and handles change. *)
Record in_place (d d' : Daemon) : Prop := {
  ip_heap : same_contexts (heap d) (heap d');
  ip_listed : branches_ d' = branches_ d;
  ip_ids : branch_name_ids_ d' = branch_name_ids_ d;
  ip_next : next_branch_id_ d' = next_branch_id_ d;
  ip_reserved : branch_create_reservations_ d' = branch_create_reservations_ d /\
    branch_source_reservations_ d' = branch_source_reservations_ d;
  ip_handles : handles_from (fh_table_ d) (fh_table_ d');
  ip_session : session_id_ d' = session_id_ d /\ policy_version_ d' = policy_version_ d /\
    router_ d' = router_ d
}.

Lemma in_place_refl d : in_place d d.
Proof. split; try done. apply handles_from_refl. Qed.

Lemma in_place_trans d1 d2 d3 : in_place d1 d2 -> in_place d2 d3 -> in_place d1 d3.
Proof.
  intros [A1 A2 A3 A4 [A5 A5'] A6 (A7 & A8 & A9)] [B1 B2 B3 B4 [B5 B5'] B6 (B7 & B8 & B9)].
  split; try congruence.
  - split; congruence.
  - by eapply handles_from_trans.
  - split_and!; congruence.
Qed.

Lemma same_contexts_lookup h h' bid b' : same_contexts h h' -> h' !! bid = Some b' ->
  exists b, h !! bid = Some b /\ bc_name b = bc_name b' /\ retired b = retired b'.
Proof.
  intros H Hb. specialize (H bid). rewrite Hb in H. simpl in H.
  destruct (h !! bid) as [b|]; [|done]. simpl in H. injection H as H1 H2. by exists b.
Qed.

Lemma same_contexts_sym h h' : same_contexts h h' -> same_contexts h' h.
Proof. intros H bid. by rewrite H. Qed.

Lemma in_place_tables d d' : in_place d d' -> tables_ok d -> tables_ok d'.
Proof.
  intros [A1 A2 A3 A4 [A5 A5'] A6 _] [B1 B2 B3 B4 B5 B6].
  pose proof (same_contexts_sym _ _ A1) as A1'.
  split; rewrite ?A2, ?A3, ?A4, ?A5, ?A5'; try done.
  - intros name bid. rewrite B1. split; intros (Hl & b & Hb & <-); (split; [done|]).
    + destruct (same_contexts_lookup _ _ _ _ A1' Hb) as (b' & Hb' & Hn & _). by exists b'.
    + destruct (same_contexts_lookup _ _ _ _ A1 Hb) as (b' & Hb' & Hn & _). by exists b'.
  - intros bid b Hb. destruct (same_contexts_lookup _ _ _ _ A1 Hb) as (b' & Hb' & _). by eapply B2.
  - intros bid. rewrite B3. split; intros (b & Hb & Hr).
    + destruct (same_contexts_lookup _ _ _ _ A1' Hb) as (b' & Hb' & _ & Hr'). exists b'. by rewrite Hr'.
    + destruct (same_contexts_lookup _ _ _ _ A1 Hb) as (b' & Hb' & _ & Hr'). exists b'. by rewrite Hr'.
  - intros fh s' Hs' Hst. destruct (A6 fh s' Hs') as (s & Hs & -> & Hc). apply (B5 fh); [done|].
    destruct (stale s); [|done]. by rewrite Hc in Hst.
Qed.

(** ** Each operation *)

Lemma set_wt_contexts bid wt d : same_contexts (heap d) (heap (set_wt bid wt d)).
Proof.
  intros x. unfold set_wt. destruct (heap d !! bid) as [b|] eqn:E; [|done]. simpl.
  destruct (decide (bid = x)) as [<-|Hne]; [by rewrite lookup_insert_eq, E|].
  by rewrite lookup_insert_ne.
Qed.

Lemma set_wt_frame bid wt d :
  store_ (set_wt bid wt d) = store_ d /\ refs_ (set_wt bid wt d) = refs_ d /\
  branches_ (set_wt bid wt d) = branches_ d /\ branch_name_ids_ (set_wt bid wt d) = branch_name_ids_ d /\
  branch_create_reservations_ (set_wt bid wt d) = branch_create_reservations_ d /\
  branch_source_reservations_ (set_wt bid wt d) = branch_source_reservations_ d /\
  next_branch_id_ (set_wt bid wt d) = next_branch_id_ d /\ router_ (set_wt bid wt d) = router_ d /\
  fh_table_ (set_wt bid wt d) = fh_table_ d /\ next_fh_id_ (set_wt bid wt d) = next_fh_id_ d /\
  session_id_ (set_wt bid wt d) = session_id_ d /\ policy_version_ (set_wt bid wt d) = policy_version_ d.
Proof. unfold set_wt. by destruct (heap d !! bid). Qed.

(** A new store, new references, a new tree for one context, a new table. *)
Lemma update_in_place bid st rf wt t d :
  handles_from (fh_table_ d) t ->
  in_place d (set_table t (set_wt bid wt (set_refs rf (set_store st d)))).
Proof.
  intros Ht. destruct (set_wt_frame bid wt (set_refs rf (set_store st d)))
    as (_ & _ & E1 & E2 & E3 & E4 & E5 & E6 & _ & _ & E7 & E8).
  split; simpl; try done. intros x. exact (set_wt_contexts bid wt (set_refs rf (set_store st d)) x).
Qed.

Lemma checkpoint_in_place blake3 env bid name label d d' r :
  checkpoint_context blake3 env bid name label d = (d', r) -> in_place d d'.
Proof.
  unfold checkpoint_context. destruct (checkpoint_locked _ _ _ _ _ _ _ _ _ _) as [[[st rf] wt] r'].
  intros [= <- _]. apply update_in_place. unfold flushed_table.
  destruct (flush_loop _ _ _ _ _ _ _) as [[[st1 wt1] t1] ok1] eqn:E. by eapply flush_loop_from.
Qed.

Lemma invalidate_table bid x wt rf st d :
  invalidate_fhs_for_branch bid (set_wt x wt (set_refs rf (set_store st d))) =
  set_table (invalidate_fhs bid (fh_table_ d)) (set_wt x wt (set_refs rf (set_store st d))).
Proof.
  unfold invalidate_fhs_for_branch.
  by destruct (set_wt_frame x wt (set_refs rf (set_store st d))) as (_ & _ & _ & _ & _ & _ & _ & _ & -> & _).
Qed.

Lemma set_table_id d : set_table (fh_table_ d) d = d.
Proof. by destruct d. Qed.
Lemma set_store_id d : set_store (store_ d) d = d.
Proof. by destruct d. Qed.

Lemma rollback_in_place blake3 env bid target name d d' r :
  rollback_context blake3 env bid target name d = Some (Parsed (d', r)) -> in_place d d'.
Proof.
  unfold rollback_context.
  destruct (rollback_locked _ _ _ _ _ _ _) as [[[[[rf wt] inv] r']| |]|]; try done.
  intros [= <- _]. destruct (set_wt_frame bid wt (set_refs rf d))
    as (_ & _ & E1 & E2 & E3 & E4 & E5 & E6 & E7 & _ & E8 & E9).
  assert (in_place d (set_wt bid wt (set_refs rf d))) as Hip.
  { split; try done.
    - intros x. exact (set_wt_contexts bid wt (set_refs rf d) x).
    - rewrite E7. apply handles_from_refl. }
  destruct inv; [|done]. eapply in_place_trans; [exact Hip|].
  split; try done. apply invalidate_from.
Qed.

Lemma merge_commits_in_place blake3 env source target sn tn label sc tc d d' r :
  merge_commits blake3 env source target sn tn label sc tc d = Some (Parsed (d', r)) -> in_place d d'.
Proof.
  unfold merge_commits.
  destruct (find_common_ancestor _ _ _ _) as [base|msg| |]; cbn [after_walk];
    [|intros [= <- _]; apply in_place_refl|discriminate|discriminate].
  destruct (load_tree _ _ _ base) as [[bw bc]|msg| |]; cbn [after_walk];
    [|intros [= <- _]; apply in_place_refl|discriminate|discriminate].
  destruct (load_tree _ _ _ sc) as [[sw sd]|msg| |]; cbn [after_walk];
    [|intros [= <- _]; apply in_place_refl|discriminate|discriminate].
  destruct (load_tree _ _ _ tc) as [[tw td]|msg| |]; cbn [after_walk];
    [|intros [= <- _]; apply in_place_refl|discriminate|discriminate].
  destruct (negb (mr_ok _)); [intros [= <- _]; apply in_place_refl|].
  destruct (write_commit_with_parents _ _ _ _ _ _ _ _) as [st [commit|msg]].
  2:{ intros [= <- _]. split; simpl; try done. apply handles_from_refl. }
  simpl. destruct (write_ref _ _ _ _) as [rf [|]]; intros [= <- _].
  - rewrite invalidate_table. apply update_in_place, invalidate_from.
  - split; simpl; try done. apply handles_from_refl.
Qed.

Lemma merge_in_place blake3 env source_name target_name label d d' r :
  merge_branch blake3 env source_name target_name label d = Some (Parsed (d', r)) -> in_place d d'.
Proof.
  unfold merge_branch. destruct (branch_named d source_name) as [s|]; [|intros [= <- _]; apply in_place_refl].
  destruct (branch_named d target_name) as [t|]; [|intros [= <- _]; apply in_place_refl].
  case_decide; [intros [= <- _]; apply in_place_refl|].
  destruct (checkpoint_context _ _ s _ _ d) as [d1 r1] eqn:E1. apply checkpoint_in_place in E1.
  destruct (negb (ok r1)); [by intros [= <- _]|].
  destruct (checkpoint_context _ _ t _ _ d1) as [d2 r2] eqn:E2. apply checkpoint_in_place in E2.
  pose proof (in_place_trans _ _ _ E1 E2) as E12.
  destruct (negb (ok r2)); [by intros [= <- _]|]. intros Hm.
  eapply in_place_trans; [exact E12|]. by eapply merge_commits_in_place.
Qed.

(** ** Creating and deleting *)

Lemma branch_by_name_spec d name bid : tables_ok d ->
  branch_by_name d name = Some bid <-> branch_name_ids_ d !! name = Some bid.
Proof.
  intros Ht. unfold branch_by_name, branch. split.
  - destruct (branch_name_ids_ d !! name) as [x|]; [|done]. case_decide; [done|done].
  - intros Hn. rewrite Hn. apply (t_ids _ Ht) in Hn as [Hl _]. by rewrite decide_True.
Qed.

(** Releasing what [reserve] took, on idle tables. *)
Lemma released name from d :
  branch_create_reservations_ d = ∅ -> branch_source_reservations_ d = ∅ ->
  branch_create_reservations_ d ∪ {[name]} ∖ {[name]} = ∅ /\
  (({[name]} ∪ branch_create_reservations_ d) ∖ {[name]} : gset str) = ∅ /\
  drop_source from (<[from := default 0 (branch_source_reservations_ d !! from) + 1]>
    (branch_source_reservations_ d)) = ∅.
Proof.
  intros -> ->. split_and!; [set_solver|set_solver|]. rewrite lookup_empty. simpl.
  unfold drop_source. rewrite lookup_insert_eq. simpl. by rewrite delete_insert_eq.
Qed.

Lemma create_branch_cases env name from d d' id :
  tables_ok d -> create_branch env name from d = (d', id) ->
  (d' = d /\ id = UINT32_MAX /\
     (is_Some (branch_name_ids_ d !! name) \/ branch_name_ids_ d !! from = None)) \/
  (exists src rf, branch_name_ids_ d !! name = None /\ branch_name_ids_ d !! from = Some src /\
     d' = set_next_branch (u32 (next_branch_id_ d + 1)) (set_refs rf d) /\ id = UINT32_MAX /\
     (rf = refs_ d /\ read_ref (source_read env) from (refs_ d) = None \/
      exists c, read_ref (source_read env) from (refs_ d) = Some c /\
        write_ref (create_write env) name c (refs_ d) = (rf, false))) \/
  (exists src c rf, branch_name_ids_ d !! name = None /\ branch_name_ids_ d !! from = Some src /\
     read_ref (source_read env) from (refs_ d) = Some c /\
     write_ref (create_write env) name c (refs_ d) = (rf, true) /\
     id = next_branch_id_ d /\
     d' = set_listed ({[id]} ∪ branches_ d) (<[name := id]> (branch_name_ids_ d))
            (set_heap (<[id := mkBranch name (clone (wt_of d src)) false]> (heap d))
              (set_next_branch (u32 (id + 1)) (set_refs rf d)))).
Proof.
  intros Ht. destruct (t_idle _ Ht) as [Hc Hs]. unfold create_branch, reserve.
  destruct (decide (is_Some (branch_name_ids_ d !! name))) as [Hn|Hn].
  { intros [= <- <-]. left. auto. }
  rewrite decide_False by (rewrite Hc; set_solver).
  apply eq_None_not_Some in Hn.
  destruct (branch_by_name d from) as [src|] eqn:Hf.
  2:{ intros [= <- <-]. left. split_and!; auto. right.
      destruct (branch_name_ids_ d !! from) eqn:E; [|done].
      apply (branch_by_name_spec _ _ _ Ht) in E. congruence. }
  apply (branch_by_name_spec _ _ _ Ht) in Hf. simpl.
  destruct (released name from d Hc Hs) as (_ & R1 & R2).
  assert (forall r, clear_reservations name from
    (set_refs r (set_next_branch (u32 (next_branch_id_ d + 1))
      (set_reservations ({[name]} ∪ branch_create_reservations_ d)
        (<[from:=default 0 (branch_source_reservations_ d !! from) + 1]> (branch_source_reservations_ d)) d))) =
    set_next_branch (u32 (next_branch_id_ d + 1)) (set_refs r d)) as Hclear.
  { intros r. unfold clear_reservations. simpl. rewrite R1, R2.
    unfold set_reservations, set_next_branch, set_refs. simpl. by rewrite Hc, Hs. }
  destruct (read_ref (source_read env) from (refs_ d)) as [c|] eqn:Er.
  - destruct (write_ref (create_write env) name c (refs_ d)) as [rf [|]] eqn:Ew.
    + rewrite Hclear. simpl. rewrite decide_False by (rewrite Hn; by intros []).
      intros [= <- <-]. right. right. exists src, c, rf. split_and!; done.
    + intros [= <- <-]. right. left. exists src, rf. rewrite Hclear. split_and!; try done.
      right. by exists c.
  - intros [= <- <-]. right. left. exists src, (refs_ d). split_and!; try done; [|by left].
    specialize (Hclear (refs_ d)). rewrite <- Hclear. by destruct d.
Qed.

Lemma next_id n : n + 1 < 2 ^ 32 -> u32 (n + 1) = n + 1.
Proof. apply N.mod_small. Qed.

(** Listing one more context, under a fresh id and a fresh name. *)
Lemma add_branch_tables d name c rf :
  tables_ok d -> next_branch_id_ d + 1 < 2 ^ 32 -> branch_name_ids_ d !! name = None ->
  bc_name c = name -> retired c = false ->
  tables_ok (set_listed ({[next_branch_id_ d]} ∪ branches_ d)
    (<[name := next_branch_id_ d]> (branch_name_ids_ d))
    (set_heap (<[next_branch_id_ d := c]> (heap d))
      (set_next_branch (u32 (next_branch_id_ d + 1)) (set_refs rf d)))).
Proof.
  intros Ht Hw Hn Hc Hrt. pose proof Ht as [B1 B2 B3 B4 B5 B6].
  assert (heap d !! next_branch_id_ d = None) as Hfree.
  { destruct (heap d !! next_branch_id_ d) eqn:E; [|done]. apply B2 in E. lia. }
  split; simpl; rewrite ?next_id by done; try done.
  - intros nm bid. destruct (decide (name = nm)) as [<-|Hne].
    + rewrite lookup_insert_eq. split.
      * intros [= <-]. split; [set_solver|]. exists c. by rewrite lookup_insert_eq.
      * intros [Hl (b & Hb & Hnm)]. destruct (decide (next_branch_id_ d = bid)) as [<-|Hb']; [done|].
        rewrite lookup_insert_ne in Hb by done.
        assert (bid ∈ branches_ d) as Hin by set_solver.
        assert (branch_name_ids_ d !! name = Some bid) by (apply B1; split; [done|by exists b]).
        congruence.
    + rewrite lookup_insert_ne, B1 by done. split; intros [Hl (b & Hb & Hnm)].
      * split; [set_solver|]. exists b. rewrite lookup_insert_ne; [done|]. congruence.
      * destruct (decide (next_branch_id_ d = bid)) as [<-|Hb'].
        -- rewrite lookup_insert_eq in Hb. by simplify_eq/=.
        -- rewrite lookup_insert_ne in Hb by done. split; [set_solver|by exists b].
  - intros bid b [[<- _]|[_ Hb]]%lookup_insert_Some; [lia|]. apply B2 in Hb. lia.
  - intros bid. rewrite elem_of_union, elem_of_singleton, B3. split.
    + intros [->|(b & Hb & Hr)]; [exists c; by rewrite lookup_insert_eq|].
      exists b. rewrite lookup_insert_ne; [done|congruence].
    + intros (b & [[<- _]|[_ Hb]]%lookup_insert_Some & Hr); [by left|right; by exists b].
  - rewrite lookup_insert_ne; [done|congruence].
  - intros fh s Hs Hst. apply elem_of_union. right. by eapply B5.
Qed.

Lemma bump_next_tables d rf :
  tables_ok d -> next_branch_id_ d + 1 < 2 ^ 32 ->
  tables_ok (set_next_branch (u32 (next_branch_id_ d + 1)) (set_refs rf d)).
Proof.
  intros [B1 B2 B3 B4 B5 B6] Hw. split; simpl; rewrite ?next_id by done; try done.
  intros b bc Hb%B2. lia.
Qed.

Lemma create_branch_tables env name from d d' id :
  tables_ok d -> next_branch_id_ d + 1 < 2 ^ 32 -> create_branch env name from d = (d', id) -> tables_ok d'.
Proof.
  intros Ht Hw Hcr.
  destruct (create_branch_cases _ _ _ _ _ _ Ht Hcr)
    as [(-> & _ & _)|[(src & rf & _ & _ & -> & _)|(src & c & rf & Hn & Hf & _ & _ & -> & ->)]]; [done| |].
  - by apply bump_next_tables.
  - by apply add_branch_tables.
Qed.

Lemma delete_branch_cases env name d d' b :
  tables_ok d -> delete_branch env name d = (d', b) ->
  (b = false /\ d' = set_refs (refs_ d') d /\
     (refs_ d' = refs_ d \/ remove_ref env name (refs_ d) = (refs_ d', false))) \/
  (exists bid bc, b = true /\ name <> main_name /\ branch_name_ids_ d !! name = Some bid /\ bid <> main_id /\
     heap d !! bid = Some bc /\ has_cgroup_for_branch bid (router_ d) = false /\
     remove_ref env name (refs_ d) = (refs_ d', true) /\
     d' = set_listed (branches_ d ∖ {[bid]}) (delete name (branch_name_ids_ d))
            (set_table (invalidate_fhs bid (fh_table_ d))
              (set_heap (<[bid := mkBranch (bc_name bc) (bc_wt bc) true]> (heap d)) (set_refs (refs_ d') d)))).
Proof.
  intros Ht. unfold delete_branch.
  assert (forall dd : Daemon, dd = d -> dd = set_refs (refs_ dd) d) as Hid by (intros ? ->; by destruct d).
  case_decide as Hm; [intros [= <- <-]; left; auto|].
  destruct (branch_by_name d name) as [bid|] eqn:Hn; [|intros [= <- <-]; left; auto].
  apply (branch_by_name_spec _ _ _ Ht) in Hn.
  case_decide; [intros [= <- <-]; left; auto|].
  destruct (has_cgroup_for_branch bid (router_ d)) eqn:Hg; [intros [= <- <-]; left; auto|].
  destruct (remove_ref env name (refs_ d)) as [rf [|]] eqn:Hr; [|intros [= <- <-]; left; simpl; auto].
  pose proof (proj1 (t_ids _ Ht _ _) Hn) as [Hl (bc & Hb & Hnm)].
  unfold retire. simpl. rewrite Hb. intros [= <- <-]. right. exists bid, bc. simpl.
  split_and!; try done. intros ->. apply Hm. pose proof (t_main _ Ht) as E.
  apply (t_ids _ Ht) in E as [_ (bm & Hbm & Hnm')]. congruence.
Qed.

Lemma delete_branch_tables env name d d' res :
  tables_ok d -> delete_branch env name d = (d', res) -> tables_ok d'.
Proof.
  intros Ht Hdel. pose proof Ht as [B1 B2 B3 B4 B5 B6].
  destruct (delete_branch_cases _ _ _ _ _ Ht Hdel)
    as [(_ & -> & _)|(bid & bc & _ & Hm & Hn & H0 & Hb & _ & _ & ->)]; [by split|].
  apply B1 in Hn as Hn'. destruct Hn' as [Hl (bc' & Hb' & Hnm)]. simplify_eq.
  split; simpl; try done.
  - intros nm x. destruct (decide (bc_name bc = nm)) as [<-|Hne].
    + rewrite lookup_delete_eq. split; [done|]. intros [Hx (b & Hbx & Hnm)].
      assert (x <> bid) as Hxb by set_solver. rewrite lookup_insert_ne in Hbx by done.
      assert (branch_name_ids_ d !! bc_name bc = Some x) by (apply B1; split; [set_solver|by exists b]).
      congruence.
    + rewrite lookup_delete_ne, B1 by done. split; intros [Hx (b & Hbx & Hnm)].
      * assert (x <> bid) by (intros ->; congruence). split; [set_solver|].
        exists b. by rewrite lookup_insert_ne.
      * assert (x <> bid) as Hxb by set_solver. rewrite lookup_insert_ne in Hbx by done.
        split; [set_solver|by exists b].
  - intros x b [[<- _]|[_ Hx]]%lookup_insert_Some; [by eapply B2|by eapply B2].
  - intros x. rewrite elem_of_difference, elem_of_singleton, B3. split.
    + intros [(b & Hx & Hr) Hne]. exists b. by rewrite lookup_insert_ne.
    + intros (b & [[<- <-]|[Hne Hx]]%lookup_insert_Some & Hr); [done|].
      split; [by exists b|done].
  - rewrite lookup_delete_ne; [done|]. congruence.
  - intros fh s'. unfold invalidate_fhs. rewrite lookup_fmap.
    destruct (fh_table_ d !! fh) as [s|] eqn:E; [|done]. intros [= <-].
    destruct (N.eqb_spec (fh_branch s) bid) as [Heq|Hne]; [done|]. intros Hst.
    apply elem_of_difference. split; [by eapply B5|set_solver].
Qed.

(** ** Loading at start-up *)

Lemma set_refs_id d : set_refs (refs_ d) d = d.
Proof. by destruct d. Qed.

Lemma rebuild_name blake3 env name st refs b :
  rebuild_branch_from_ref blake3 env name st refs = Some (Parsed (Ok b)) ->
  bc_name b = name /\ retired b = false.
Proof.
  unfold rebuild_branch_from_ref. destruct (read_ref _ _ _); [|done].
  destruct (read_commit _ _ _); [|done]. destruct (deserialize_commit _); try done.
  destruct (rebuild_working_tree _ _ _ _ _ _) as [[wt [u|m]]|]; try done. by intros [= <-].
Qed.

Lemma load_branch_tables blake3 env name d d' :
  tables_ok d -> next_branch_id_ d + 1 < 2 ^ 32 ->
  load_persisted_branch blake3 env name d = Some (Parsed d') ->
  tables_ok d' /\ next_branch_id_ d' <= next_branch_id_ d + 1.
Proof.
  intros Ht Hw. unfold load_persisted_branch.
  case_decide as Hm; [intros [= <-]; split; [done|lia]|].
  destruct (negb _); [intros [= <-]; split; [done|lia]|].
  assert (tables_ok (set_next_branch (u32 (next_branch_id_ d + 1)) d)) as Ht1.
  { rewrite <- (set_refs_id d) at 2. by apply bump_next_tables. }
  destruct (rebuild_branch_from_ref _ _ _ _ _) as [[[b|msg]| |]|] eqn:Er; try done.
  2:{ intros [= <-]. split; [done|]. simpl. rewrite next_id by done. lia. }
  apply rebuild_name in Er as [Hnm Hrt].
  case_decide as Hdup; intros [= <-]; (split; [|simpl; rewrite next_id by done; lia]); [done|].
  simpl in Hdup. apply eq_None_not_Some in Hdup.
  pose proof (add_branch_tables d name b (refs_ d) Ht Hw Hdup Hnm Hrt) as Hadd.
  by rewrite set_refs_id in Hadd.
Qed.

Lemma load_branches_tables blake3 envs names d d' :
  tables_ok d -> next_branch_id_ d + N.of_nat (length names) < 2 ^ 32 ->
  load_persisted_branches blake3 envs names d = Some (Parsed d') -> tables_ok d'.
Proof.
  revert d. induction names as [|name names IH]; intros d Ht Hw; simpl; [by intros [= <-]|].
  simpl in Hw. destruct (load_persisted_branch _ _ _ _) as [[d1| |]|] eqn:E; try done.
  apply load_branch_tables in E as [Ht1 Hn]; [|done|lia]. apply IH; [done|lia].
Qed.

Lemma new_daemon_tables st refs router session : tables_ok (new_daemon st refs router session).
Proof.
  split; simpl; try done.
  - intros name bid. split.
    + intros [<- <-]%lookup_singleton_Some. split; [set_solver|]. eexists. by rewrite lookup_singleton_eq.
    + intros [Hb (b & [<- <-]%lookup_singleton_Some & <-)]. apply lookup_singleton_eq.
  - intros bid b [<- _]%lookup_singleton_Some. done.
  - intros bid. rewrite elem_of_singleton. split.
    + intros ->. eexists. by rewrite lookup_singleton_eq.
    + by intros (b & [<- _]%lookup_singleton_Some & _).
Qed.
