(* ===== verification/DaemonProps.v ===== *)
(** What the daemon's publishers do, from the components they compose. *)

From S2P Require Import Prelude Hashes WorkingTree WriteBuffer Codec ObjectStore TreeSerialize Refs Checkpoint BranchMerge Gc BranchRouter Handles Daemon DaemonTables.

(** ** Checkpoints *)

(** Every read and every stat of a load works, with fuel for [n] entries. *)
Definition load_ok (n : nat) (env : LoadEnv) : Prop :=
  load_commit_io env = true /\ (forall h, load_tree_io env h = true) /\ (2 + n <= load_fuel env)%nat.

Lemma wt_of_set bid wt d b : heap d !! bid = Some b -> wt_of (set_wt bid wt d) bid = wt.
Proof. intros Hb. unfold wt_of, set_wt. rewrite Hb. simpl. by rewrite lookup_insert_eq. Qed.

(** The pieces of a checkpoint of a context. *)
Lemma checkpoint_context_parts blake3 env bid name label d d' r b :
  heap d !! bid = Some b -> checkpoint_context blake3 env bid name label d = (d', r) -> ok r = true ->
  exists st1 wt1 t1 c,
    flush_loop blake3 (fh_envs (pub_flush env)) bid (fh_order (pub_flush env)) (store_ d) (wt_of d bid)
      (fh_table_ d) = (st1, wt1, t1, true) /\
    checkpoint_locked blake3 (pub_checkpoint env) label (session_id_ d) (policy_version_ d)
      (flush_callback blake3 (pub_flush env) bid (fh_table_ d)) name (store_ d) (refs_ d) (wt_of d bid) =
      (store_ d', refs_ d', wt1, mkCR true c []) /\
    r = mkCR true c [] /\ wt_of d' bid = wt1 /\ fh_table_ d' = t1.
Proof.
  intros Hb. unfold checkpoint_context, flushed_table.
  destruct (flush_loop _ _ _ _ _ _ _) as [[[st1 wt1] t1] okf] eqn:Ef.
  destruct (checkpoint_locked _ _ _ _ _ _ _ _ _ _) as [[[st rf] wt] r'] eqn:Ec.
  intros [= <- <-] Hok. destruct r' as [o c e]. simpl in Hok. subst o.
  pose proof (checkpoint_success _ _ _ _ _ _ _ _ _ _ _ _ _ _ _ Ec)
    as (-> & s1 & s2 & s3 & s5 & root & written & Hck).
  pose proof (ck_flush _ _ _ _ _ _ _ _ _ _ _ _ _ _ _ _ _ _ _ _ Hck) as Hfl.
  unfold flush_callback in Hfl. rewrite Ef in Hfl. injection Hfl as <- <- ->.
  destruct (set_wt_frame bid wt1 (set_refs rf (set_store st d))) as (E1 & E2 & _).
  exists st1, wt1, t1, c. simpl. rewrite E1, E2. split_and!; try done.
  unfold set_table. unfold wt_of. simpl. unfold set_wt. simpl. rewrite Hb. simpl. by rewrite lookup_insert_eq.
Qed.

Definition commit_of (env : PublishEnv) (name label : str) (d : Daemon) (tree : Hash) : CommitData :=
  new_commit (pub_checkpoint env) label (session_id_ d) (policy_version_ d) tree
    (read_ref (parent_read (pub_checkpoint env)) name (refs_ d)).

(** C9. A checkpoint survives a restart, with what was being written, provided the
    base blobs of the handles can be read when they are flushed. After a
    successful checkpoint of a branch, rebuilding the branch from its reference
    in a new daemon gives exactly the checkpointed tree; in that tree every
    path with a dirty open handle has the file the (last such) handle showed,
    every other path is as before; and every handle of the branch is clean and
    shows what it showed. *)
Theorem checkpoint_survives_restart blake3 U env bid name label d d' r b renv :
  collision_free blake3 U -> contents_ok blake3 U (store_ d) -> table_ok U (store_ d) (fh_table_ d) ->
  NoDup (fh_order (pub_flush env)) -> (forall fh, fh ∈ fh_order (pub_flush env) <-> is_Some (fh_table_ d !! fh)) ->
  (forall fh, base_io (fh_envs (pub_flush env) fh) = true) ->
  heap d !! bid = Some b -> checkpoint_context blake3 env bid name label d = (d', r) -> ok r = true ->
  let wt := wt_of d' bid in
  tree_ok (raw wt) -> Forall (tree_body U) (merkle_bodies (tree_addr blake3) wt) ->
  U (lit "commit" ++ serialize_commit (commit_of env name label d (merkle_root (tree_addr blake3) wt))) ->
  session_id_ d < 2 ^ 64 -> now_ns (pub_checkpoint env) < 2 ^ 64 -> policy_version_ d < 2 ^ 32 ->
  rb_ref renv = reads_ok -> load_ok (size (raw wt)) (rb_load renv) ->
  (exists m, rebuild_branch_from_ref blake3 renv name (store_ d') (refs_ d') =
      Some (Parsed (Ok (mkBranch name (set_base empty_tree m) false))) /\ restored (raw wt) m) /\
  (forall p, tree_flushed bid (fh_order (pub_flush env)) (fh_table_ d) (store_ d) (store_ d')
               (wt_of d bid) wt p) /\
  (forall fh s, fh_table_ d !! fh = Some s -> exists s', fh_table_ d' !! fh = Some s' /\
     handle_flushed bid (store_ d) (store_ d') s s').
Proof.
  intros Hcf Hst Ht Hnd Hord Hio Hb Hrun Hok wt Htok Hbod HU Hsid Hts Hpv Hrr (Hl1 & Hl2 & Hl3).
  destruct (checkpoint_context_parts _ _ _ _ _ _ _ _ _ Hb Hrun Hok)
    as (st1 & wt1 & t1 & c & Hf & Hc & -> & Hwt & Htab).
  assert (wt = wt1) as Ew by exact Hwt. clear Hwt. clearbody wt. subst wt1.
  destruct (flush_loop_ok blake3 U Hcf _ _ _ _ _ _ _ _ _ Hnd Hst Ht Hio Hf) as (A1 & A2 & A3 & A4 & A5 & A6).
  assert (flush_callback blake3 (pub_flush env) bid (fh_table_ d) (store_ d) (wt_of d bid) = (st1, wt, true))
    as Hfl by (unfold flush_callback; by rewrite Hf).
  destruct (checkpoint_stores blake3 U _ _ _ _ _ _ _ _ _ _ _ _ _ _ _ Hcf Hfl A1 Htok Hbod HU Hsid Hts Hpv Hc)
    as (Hnz & _ & (body & cd & Hread & Hdec & Hth & _) & Hkeep & Href & Hreb).
  apply grown_blobs in Hkeep. split; [|split].
  - unfold rebuild_branch_from_ref. rewrite Hrr, (read_ref_write _ _ _ _ _ Href), Hl1, Hread, Hdec, Hth.
    destruct (Hreb empty_tree (load_fuel (rb_load renv)) (load_tree_io (rb_load renv))
      (load_status (rb_load renv)) Hl2 Hl3) as (m & -> & Hm). by exists m.
  - intros p. specialize (A6 p). unfold tree_flushed in *. destruct (last _) as [fh|]; [|done].
    destruct A6 as (s & data & h & H1 & H2 & H3 & H4 & H5). exists s, data, h.
    split_and!; try done. by apply Hkeep.
  - intros fh s Hs. destruct (A5 fh s Hs) as (s' & Hs' & B1 & B2 & B3 & B4 & B5).
    { apply Hord. by eexists. }
    exists s'. rewrite Htab. split; [done|]. split_and!; try done.
    destruct (Ht fh s Hs) as [Hoks _]. destruct (shown_file_ok _ _ Hoks) as [data Hd].
    rewrite Hd in B4 |- *. by apply (shown_file_kept st1).
Qed.

(** ** A reference to main that cannot be read *)

Lemma load_branch_frame blake3 env name d d' :
  load_persisted_branch blake3 env name d = Some (Parsed d') -> store_ d' = store_ d /\ refs_ d' = refs_ d.
Proof.
  unfold load_persisted_branch. case_decide; [by intros [= <-]|]. destruct (negb _); [by intros [= <-]|].
  destruct (rebuild_branch_from_ref _ _ _ _ _) as [[[b|msg]| |]|]; try done; [|by intros [= <-]].
  case_decide; by intros [= <-].
Qed.

Lemma load_branches_frame blake3 envs names d d' :
  load_persisted_branches blake3 envs names d = Some (Parsed d') -> store_ d' = store_ d /\ refs_ d' = refs_ d.
Proof.
  revert d. induction names as [|n names IH]; intros d; simpl; [by intros [= <-]|].
  destruct (load_persisted_branch _ _ _ _) as [[d1| |]|] eqn:E; try done.
  apply load_branch_frame in E as [<- <-]. apply IH.
Qed.

Definition initial_commit (env : InitEnv) (d : Daemon) (tree : Hash) : CommitData :=
  mkCommit tree [] (session_id_ d) (init_now_ns env) (lit "initial") (policy_version_ d).

Lemma first_commit_head blake3 U env d d1 :
  collision_free blake3 U -> contents_ok blake3 U (store_ d) ->
  let cd := initial_commit env d (merkle_root (tree_addr blake3) (wt_of d main_id)) in
  U (lit "commit" ++ serialize_commit cd) ->
  Forall (tree_body U) (merkle_bodies (tree_addr blake3) (wt_of d main_id)) ->
  first_commit blake3 env d = (d1, true) ->
  read_ref reads_ok main_name (refs_ d1) = Some (blake3 (lit "commit" ++ serialize_commit cd)).
Proof.
  intros Hcf Hst cd HU Hb. unfold first_commit.
  destruct (serialize_working_tree _ _ _) as [st1 written [tree|msg]] eqn:Es; simpl; [|done].
  pose proof (object_tree_store_laws blake3 U Hcf) as Hlaws.
  destruct (serialize_working_tree_spec _ _ _ _ _ _ Hst Hb Es) as (-> & [Hi HU1] & _).
  destruct (write_commit _ _ _ _) as [st2 c] eqn:Ec. case_decide as Hz; [done|].
  apply (write_object_stores blake3 U) in Ec as (-> & _); try done.
  destruct (drain_pending st2) as [st3 hs]. destruct (fsync_objects _ _ _) as [st4 []]; [|done].
  destruct (fsync_shard_dirs _ _ _ _) as [st5 []]; [|done].
  destruct (write_main _ _ _) as [rf ok'] eqn:Ew. intros [= <- ->].
  by apply read_ref_write in Ew.
Qed.

(** A reference to main that exists but cannot be read at start-up is taken
    for a fresh mount: when the read fails, a successful [initialize] moves
    main from its commit to a new one without parents, and the old history is
    no longer reachable from it. *)
Theorem unreadable_main_is_overwritten blake3 U env st refs router session d' old :
  collision_free blake3 U -> contents_ok blake3 U st ->
  let d0 := new_daemon st refs router session in
  U (lit "commit" ++
     serialize_commit (initial_commit env d0 (merkle_root (tree_addr blake3) empty_tree))) ->
  Forall (tree_body U) (merkle_bodies (tree_addr blake3) empty_tree) ->
  read_ref reads_ok main_name refs = Some old -> open_ok (main_read env) = false ->
  initialize blake3 env d0 = Some (Parsed (d', true)) ->
  exists cd, parents cd = [] /\ label cd = lit "initial" /\
    read_ref reads_ok main_name (refs_ d') = Some (blake3 (lit "commit" ++ serialize_commit cd)).
Proof.
  intros Hcf Hst d0 HU Hb _ Hio. unfold initialize.
  destruct (negb _); [by intros [= _ H]|]. unfold read_main at 1, read_ref at 1. rewrite Hio. simpl.
  set (d := set_store _ d0). destruct (first_commit blake3 env d) as [d1 [|]] eqn:E; [|by intros [= _ H]].
  assert (contents_ok blake3 U (store_ d)) as Hst' by (destruct Hst as [[A1 A2 A3] B]; by split; [split|]).
  pose proof (first_commit_head blake3 U env d d1 Hcf Hst' HU Hb E) as Hhead.
  unfold load_branches. destruct (load_persisted_branches _ _ _ _) as [[d2| |]|] eqn:El; try done.
  intros [= <-]. apply load_branches_frame in El as [_ ->].
  by exists (initial_commit env d (merkle_root (tree_addr blake3) (wt_of d main_id))).
Qed.

(** ** Creating and deleting a branch *)

Lemma removed_ref env name r r' :
  remove_ref env name r = (r', true) ->
  ref_files r' !! name = None /\ forall b, b <> name -> ref_files r' !! b = ref_files r !! b.
Proof.
  unfold remove_ref. case_decide; [done|]. destruct (negb _); [done|]. destruct (negb _); [done|].
  intros [= <- _]. simpl. split; [by rewrite lookup_delete_eq|]. intros b Hb. by rewrite lookup_delete_ne.
Qed.

(** Creating a branch forks its source: under a fresh name, the new branch
    shows exactly what the source shows, its reference names the commit the
    source's does, and nothing else changes; on failure no branch appears or
    changes. *)
Theorem create_branch_forks env name from d d' id :
  tables_ok d -> next_branch_id_ d + 1 < 2 ^ 32 -> create_branch env name from d = (d', id) ->
  store_ d' = store_ d /\ fh_table_ d' = fh_table_ d /\
  if decide (id = UINT32_MAX) then
    branches_ d' = branches_ d /\ branch_name_ids_ d' = branch_name_ids_ d /\ heap d' = heap d
  else
    branch_by_name d name = None /\ branch_by_name d' name = Some id /\
    (exists src c, branch_by_name d from = Some src /\ raw (wt_of d' id) = raw (wt_of d src) /\
       read_ref (source_read env) from (refs_ d) = Some c /\
       read_ref reads_ok name (refs_ d') = Some c) /\
    (forall other, other <> name -> branch_by_name d' other = branch_by_name d other /\
       read_ref reads_ok other (refs_ d') = read_ref reads_ok other (refs_ d)) /\
    (forall x, x <> id -> heap d' !! x = heap d !! x).
Proof.
  intros Ht Hw Hcr. pose proof (create_branch_tables _ _ _ _ _ _ Ht Hw Hcr) as Ht'.
  destruct (create_branch_cases _ _ _ _ _ _ Ht Hcr)
    as [(-> & -> & _)|[(src & rf & _ & _ & -> & -> & _)|(src & c & rf & Hn & Hf & Hr & Hwr & Hid & Ed)]].
  1,2: split; [done|]; split; [done|]; by rewrite decide_True.
  subst id. assert (next_branch_id_ d <> UINT32_MAX) by (unfold UINT32_MAX; lia).
  assert (forall n x, branch_by_name d' n = Some x <-> branch_name_ids_ d' !! n = Some x) as Hl'
    by (intros n x; by apply branch_by_name_spec).
  subst d'. do 2 (split; [done|]). rewrite decide_False by done.
  assert (branch_by_name d name = None) as Hnone by (unfold branch_by_name; by rewrite Hn).
  split; [done|]. split; [apply Hl'; apply lookup_insert_eq|]. split; [|split].
  - exists src, c. split; [by apply branch_by_name_spec|]. split.
    + unfold wt_of at 1. simpl. by rewrite lookup_insert_eq.
    + split; [done|]. by apply read_ref_write in Hwr.
  - intros other Hne. split.
    + apply option_eq. intros x. rewrite Hl', (branch_by_name_spec d) by done. simpl.
      by rewrite lookup_insert_ne.
    + simpl. apply write_ref_spec in Hwr as [Ho _]. unfold read_ref. simpl. by rewrite Ho.
  - intros x Hx. simpl. by rewrite lookup_insert_ne.
Qed.

(** Deleting a branch retires it: it is never main nor a branch some
    registered process group runs on, its reference and its name go, its
    context is retired and each of its handles is stale, while every other
    branch and handle stays. A refused deletion changes nothing but, at most,
    the reference file a failed removal unlinked. *)
Theorem delete_branch_retires env name d d' b :
  tables_ok d -> delete_branch env name d = (d', b) ->
  if b : bool then
    name <> main_name /\ branch_by_name d' name = None /\ read_ref reads_ok name (refs_ d') = None /\
    (exists bid, branch_by_name d name = Some bid /\ has_cgroup_for_branch bid (router_ d) = false /\
       (forall c, heap d' !! bid = Some c -> retired c = true) /\
       (forall fh s, fh_table_ d' !! fh = Some s -> fh_branch s = bid -> stale s = true) /\
       (forall fh s, fh_table_ d !! fh = Some s -> fh_branch s <> bid -> fh_table_ d' !! fh = Some s) /\
       (forall x, x <> bid -> heap d' !! x = heap d !! x)) /\
    (forall other, other <> name -> branch_by_name d' other = branch_by_name d other /\
       read_ref reads_ok other (refs_ d') = read_ref reads_ok other (refs_ d))
  else
    d' = set_refs (refs_ d') d /\
    (refs_ d' = refs_ d \/ remove_ref env name (refs_ d) = (refs_ d', false)).
Proof.
  intros Ht Hdel. pose proof (delete_branch_tables _ _ _ _ _ Ht Hdel) as Ht'.
  destruct (delete_branch_cases _ _ _ _ _ Ht Hdel)
    as [(-> & H)|(bid & bc & -> & Hm & Hn & H0 & Hb & Hg & Hr & Ed)]; [done|].
  assert (forall n x, branch_by_name d' n = Some x <-> branch_name_ids_ d' !! n = Some x) as Hl'
    by (intros n x; by apply branch_by_name_spec).
  apply removed_ref in Hr as [Hr1 Hr2].
  split; [done|]. split; [|split; [|split]].
  - apply eq_None_not_Some. intros [x Hx%Hl']. rewrite Ed in Hx. simpl in Hx. by rewrite lookup_delete_eq in Hx.
  - unfold read_ref. simpl. by rewrite Hr1.
  - exists bid. split; [by apply branch_by_name_spec|]. split; [done|]. rewrite Ed. simpl. split_and!.
    + intros c. rewrite lookup_insert_eq. by intros [= <-].
    + intros fh s. unfold invalidate_fhs. rewrite lookup_fmap.
      destruct (fh_table_ d !! fh) as [s0|]; [|done]. intros [= <-].
      destruct (N.eqb_spec (fh_branch s0) bid); [done|]. by intros.
    + intros fh s Hs Hne. unfold invalidate_fhs. rewrite lookup_fmap, Hs. simpl.
      by destruct (N.eqb_spec (fh_branch s) bid).
    + intros x Hx. by rewrite lookup_insert_ne.
  - intros other Hne. split.
    + apply option_eq. intros x. rewrite Hl', (branch_by_name_spec d) by done. rewrite Ed. simpl.
      by rewrite lookup_delete_ne.
    + unfold read_ref. simpl. by rewrite Hr2.
Qed.

(** ** A small daemon

    [main] shows [sample_wt], and one handle on its file has a byte written. *)

Definition open_handle : FhState :=
  mkFh (lit "/a/x") main_id ZERO_HASH sample_blob_hash (len hello) [] false
    (Some (wb_write (new_write_buffer sample_blob_hash (len hello)) 0 (lit "J"))) false empty_view false.

Definition small_router : BranchRouter := new_router false false.

Definition small_daemon : Daemon :=
  mkDaemon blob_store no_refs {[main_id := mkBranch main_name sample_wt false]} {[main_id]}
    {[main_name := main_id]} ∅ ∅ 1 small_router {[5 := open_handle]} 6 1 1.

Definition small_publish : PublishEnv :=
  mkPublish (mkFlushFhs [5] (fun _ => mkFlush true (no_faults 6))) ck_env.

Definition new_data : bytes := materialize (wb_write (new_write_buffer sample_blob_hash (len hello)) 0 (lit "J")) hello.
Definition new_blob_content : bytes := lit "blob" ++ blob_body new_data.
Definition new_wt : WorkingTree :=
  wt_insert sample_wt (lit "/a/x") (mkEntry Blob (toy_blake3 new_blob_content) 420).

Definition small_contents : list bytes :=
  [hello_content; new_blob_content;
   lit "commit" ++ serialize_commit (commit_of small_publish main_name (lit "v1") small_daemon
     (merkle_root (tree_addr toy_blake3) new_wt))] ++
  ((fun b => lit "tree" ++ b) <$> merkle_bodies (tree_addr toy_blake3) new_wt).

Definition small_U (c : bytes) : Prop := c ∈ small_contents.

Definition small_run : Daemon * CheckpointResult :=
  checkpoint_context toy_blake3 small_publish main_id main_name (lit "v1") small_daemon.

Definition small_rebuild : RebuildEnv := mkRebuild reads_ok (mkLoad true 8 (fun _ => true) (fun _ => StillThere)).

Lemma small_collision_free : collision_free toy_blake3 small_U.
Proof. apply collision_free_list. vm_compute. reflexivity. Qed.

Lemma blob_store_new_contents : contents_ok toy_blake3 small_U blob_store.
Proof.
  destruct (write_object_stores toy_blake3 small_U (lit "blob") (blob_body hello) (no_faults 5)
    (empty_store (lit "/s")) blob_store sample_blob_hash) as (_ & Hi & HU & _).
  - split; simpl; [done|by intros h []|set_solver].
  - done.
  - apply small_collision_free.
  - apply list_elem_of_here.
  - vm_compute. reflexivity.
  - vm_compute. discriminate.
  - done.
Qed.

Lemma small_table_ok : table_ok small_U blob_store {[5 := open_handle]}.
Proof.
  intros fh s [<- <-]%lookup_singleton_Some.
  assert (base_of blob_store open_handle = Some hello) as Hb by (vm_compute; reflexivity).
  split.
  - split.
    + eexists. split; [reflexivity|]. apply (exec_wop_inv _ (WWrite 0 (lit "J"))); [|done].
      apply new_write_buffer_inv.
    + exists hello. split; [done|]. split; [reflexivity|reflexivity].
  - unfold shown_file. rewrite Hb. simpl. intros d [= <-]. split; [|reflexivity].
    apply list_elem_of_further, list_elem_of_here.
Qed.

Lemma small_tree : wt_of small_run.1 main_id = new_wt.
Proof. vm_compute. reflexivity. Qed.

Lemma new_tree_ok : tree_ok (raw new_wt).
Proof.
  split; [|vm_compute; reflexivity].
  assert (Forall (fun x => path_ok x.1 /\ e_mode x.2 < 2 ^ 32 /\ kind_ok (e_kind x.2))
    (map_to_list (raw new_wt))) as H.
  { apply (bool_decide_unpack _). vm_compute. constructor. }
  intros p e Hp. rewrite Forall_forall in H. apply (H (p, e)). by apply elem_of_map_to_list.
Qed.

Lemma new_tree_bodies : Forall (tree_body small_U) (merkle_bodies (tree_addr toy_blake3) new_wt).
Proof.
  apply Forall_forall. intros b Hb. unfold tree_body, small_U, small_contents.
  apply elem_of_app. right. apply list_elem_of_fmap. by exists b.
Qed.

Lemma checkpoint_survives_restart_witness :
  exists m, rebuild_branch_from_ref toy_blake3 small_rebuild main_name (store_ small_run.1) (refs_ small_run.1) =
    Some (Parsed (Ok (mkBranch main_name (set_base empty_tree m) false))).
Proof.
  destruct (checkpoint_survives_restart toy_blake3 small_U small_publish main_id main_name (lit "v1") small_daemon
    small_run.1 small_run.2 (mkBranch main_name sample_wt false) small_rebuild) as [(m & Hm & _) _].
  - apply small_collision_free.
  - apply blob_store_new_contents.
  - apply small_table_ok.
  - apply NoDup_singleton.
  - intros fh. simpl. rewrite list_elem_of_singleton. split.
    + intros ->. by exists open_handle.
    + by intros [s [<- _]%lookup_singleton_Some].
  - done.
  - reflexivity.
  - apply surjective_pairing.
  - vm_compute. reflexivity.
  - rewrite small_tree. apply new_tree_ok.
  - rewrite small_tree. apply new_tree_bodies.
  - rewrite small_tree. apply list_elem_of_further, list_elem_of_further, list_elem_of_here.
  - reflexivity.
  - reflexivity.
  - reflexivity.
  - reflexivity.
  - split; [reflexivity|]. split; [reflexivity|]. vm_compute. lia.
  - by exists m.
Defined.

(** A daemon that starts with a reference to main it cannot read. *)
Definition blind_init : InitEnv :=
  mkInit (mkLayoutEnv (fun _ => None) true (replicate 256 (true, true)) None) (fun _ => None) (mkReadEnv false None true) (fun _ => no_faults 7) (no_faults 8) 55
    all_sync_ok ref_writes_ok None [] None (fun _ => small_rebuild).

Definition old_refs : Refs := mkRefs {[main_name := ref_content sample_blob_hash]} ∅.
Definition old_daemon : Daemon := new_daemon (empty_store (lit "/s")) old_refs small_router 9.

Definition blind_contents : list bytes :=
  [lit "commit" ++ serialize_commit (initial_commit blind_init old_daemon (merkle_root (tree_addr toy_blake3) empty_tree))] ++
  ((fun b => lit "tree" ++ b) <$> merkle_bodies (tree_addr toy_blake3) empty_tree).

Definition blind_run : Daemon :=
  match initialize toy_blake3 blind_init old_daemon with Some (Parsed (d, _)) => d | _ => old_daemon end.

Lemma unreadable_main_is_overwritten_witness :
  read_ref reads_ok main_name old_refs = Some sample_blob_hash /\
  exists cd, parents cd = [] /\ label cd = lit "initial" /\
    read_ref reads_ok main_name (refs_ blind_run) = Some (toy_blake3 (lit "commit" ++ serialize_commit cd)).
Proof.
  split; [vm_compute; reflexivity|].
  apply (unreadable_main_is_overwritten toy_blake3 (fun c => c ∈ blind_contents) blind_init
    (empty_store (lit "/s")) old_refs small_router 9 blind_run sample_blob_hash).
  - apply collision_free_list. vm_compute. reflexivity.
  - split; [|done]. split; simpl; [done|by intros h []|set_solver].
  - apply list_elem_of_here.
  - apply Forall_forall. intros b Hb. unfold tree_body, blind_contents. apply list_elem_of_further.
    apply list_elem_of_fmap. by exists b.
  - vm_compute. reflexivity.
  - reflexivity.
  - vm_compute. reflexivity.
Defined.

Definition dev_name : str := lit "dev".
Definition dev_created : Daemon * N :=
  create_branch (mkCreate reads_ok ref_writes_ok) dev_name main_name (set_refs old_refs small_daemon).

Lemma small_tables : tables_ok (set_refs old_refs small_daemon).
Proof.
  split; simpl; try done.
  - intros name bid. split.
    + intros [<- <-]%lookup_singleton_Some. split; [set_solver|]. eexists. by rewrite lookup_singleton_eq.
    + intros [Hb (b & [<- <-]%lookup_singleton_Some & <-)]. apply lookup_singleton_eq.
  - intros bid b [<- _]%lookup_singleton_Some. done.
  - intros bid. rewrite elem_of_singleton. split.
    + intros ->. eexists. by rewrite lookup_singleton_eq.
    + by intros (b & [<- _]%lookup_singleton_Some & _).
  - intros fh s [<- <-]%lookup_singleton_Some _. set_solver.
Qed.

Lemma create_branch_forks_witness : branch_by_name dev_created.1 dev_name = Some 1.
Proof.
  pose proof (create_branch_forks (mkCreate reads_ok ref_writes_ok) dev_name main_name
    (set_refs old_refs small_daemon) dev_created.1 dev_created.2 small_tables) as H.
  destruct H as (_ & _ & H); [reflexivity|apply surjective_pairing|].
  revert H. change dev_created.2 with 1. rewrite decide_False by done. intros (_ & H & _). exact H.
Defined.

Lemma dev_tables : tables_ok dev_created.1.
Proof.
  apply (create_branch_tables (mkCreate reads_ok ref_writes_ok) dev_name main_name
    (set_refs old_refs small_daemon) _ dev_created.2); [apply small_tables|done|apply surjective_pairing].
Qed.

Definition dev_deleted : Daemon * bool :=
  delete_branch (mkRemoveRefEnv true true true true) dev_name dev_created.1.

Lemma delete_branch_retires_witness : branch_by_name dev_deleted.1 dev_name = None.
Proof.
  destruct (delete_branch_retires (mkRemoveRefEnv true true true true) dev_name dev_created.1
    dev_deleted.1 true) as (_ & H & _).
  - apply dev_tables.
  - apply (pair_true dev_deleted). vm_compute. reflexivity.
  - exact H.
Defined.
