(* ===== verification/DaemonGc.v ===== *)
(** A collection seen from the daemon: what branches show, what open handles
    show and what a restart would restore is the same before and after. *)

From S2P Require Import Prelude Hashes WorkingTree WriteBuffer Codec ObjectStore TreeSerialize History Refs Checkpoint BranchMerge Gc GcMark GcFuel GcSweep BranchRouter Handles Daemon.

(** ** Reads of two stores that agree *)

Lemma read_object_agree st st' io h tag :
  disk st' !! h = disk st !! h -> read_object st' io h tag = read_object st io h tag.
Proof. intros Hd. unfold read_object. by rewrite Hd. Qed.

Lemma read_blob_agree st st' io h :
  disk st' !! h = disk st !! h -> read_blob st' io h = read_blob st io h.
Proof. intros Hd. unfold read_blob. by rewrite (read_object_agree st st'). Qed.

(** Rebuilding from trees on which the stores agree. *)
Section rebuild.
Context (blake3 : bytes -> Hash) (st st' : ObjectStore) (P : Hash -> Prop).
Context (Hagree : forall t, P t -> disk st' !! t = disk st !! t).
Context (Hclosed : forall t es e, P t -> @tree_at st t es -> e ∈ es -> e_kind e.2 = Tree -> P (e_hash e.2)).

Lemma add_entries_stack prefix es sc stack :
  Forall (fun e => e_kind e.2 = Tree -> P (e_hash e.2)) es -> Forall (fun x => P x.1) stack ->
  Forall (fun x => P x.1) (fold_left (add_entry prefix) es (sc, stack)).2.
Proof using.
  intros Hes. revert sc stack. induction Hes as [|e es He Hes IH]; intros sc stack Hs; [done|].
  simpl. apply IH. case_decide; [|done]. constructor; [by apply He|done].
Qed.

Lemma rebuild_loop_agree fuel io status scratch stack :
  Forall (fun x => P x.1) stack ->
  @rebuild_loop _ _ (object_tree_store blake3) fuel io status st' scratch stack =
  @rebuild_loop _ _ (object_tree_store blake3) fuel io status st scratch stack.
Proof using Hagree Hclosed.
  revert scratch stack. induction fuel as [|fuel IH]; intros scratch stack Hs; [done|].
  cbn [rebuild_loop]. unfold rebuild_turn. destruct stack as [|[h prefix] rest]; [done|].
  apply Forall_cons in Hs as [Hh Hs]. cbn [ts_read object_tree_store] in *. unfold read_tree in *.
  rewrite (read_object_agree st st') by by apply Hagree.
  destruct (if io h then read_object st true h (lit "tree") else None) as [body|] eqn:Eb; [|done].
  destruct (deserialize_tree_entries body) as [es| |] eqn:Ed; [|done|done].
  destruct (fold_left (add_entry prefix) es (scratch, rest)) as [scratch' stack'] eqn:Ef.
  apply IH. change stack' with (scratch', stack').2. rewrite <- Ef. apply add_entries_stack; [|done].
  apply Forall_forall. intros e He Hk. eapply Hclosed; [exact Hh| |exact He|exact Hk].
  exists body. split; [|done]. by destruct (io h).
Qed.

End rebuild.

(** ** Which roots a successful marking visited *)

Lemma each_done {A} (f : A -> action) l s s' x :
  each f l s = (s', Done) -> x ∈ l -> exists s1 s2, f x s1 = (s2, Done).
Proof.
  revert s. induction l as [|y l IH]; intros s H Hx; [by apply elem_of_nil in Hx|].
  simpl in H. apply andthen_done in H as (s1 & H1 & H2).
  apply elem_of_cons in Hx as [->|Hx]; [by exists s, s1|by eapply IH].
Qed.

Lemma marked_heads st env policy roots refs live s s' name :
  mark_all st env policy roots refs live s = (s', Done) -> name ∈ expected_branch_refs live ->
  exists head, read_ref (ref_env roots name) name refs = Some head /\ @branch_head roots refs head.
Proof.
  unfold mark_all. intros (s1 & H1 & _)%andthen_done Hn. unfold mark_branches in H1.
  destruct (list_refs _ _ _) as [names|] eqn:El; [|done].
  apply andthen_done in H1 as (s2 & H2 & H3).
  destruct (each_done _ _ _ _ _ H2 Hn) as (a & b & Hab). unfold expect_ref in Hab.
  case_decide as Hin; [|done].
  destruct (each_done _ _ _ _ _ H3 Hin) as (a' & b' & Hm). unfold mark_ref in Hm.
  destruct (read_ref (ref_env roots name) name refs) as [head|] eqn:Er; [|done].
  exists head. split; [done|]. by exists names, name.
Qed.

(** Two reads of one reference that both work agree. *)
Lemma read_ref_agree e1 e2 name r h1 h2 :
  read_ref e1 name r = Some h1 -> read_ref e2 name r = Some h2 -> h1 = h2.
Proof.
  assert (forall e h content, ref_files r !! name = Some content -> read_ref e name r = Some h ->
    hex_to_hash_strict (take 64 content) = Some h) as H.
  { intros e h content Hc. unfold read_ref, parse_ref. rewrite Hc. destruct (negb _); [done|].
    destruct (close_ok e); [|done]. case_decide as Hl; [|done]. case_decide; [|done].
    intros <-. f_equal. destruct (read_stop e) as [n|]; rewrite !take_take; [|done].
    rewrite !length_take in Hl. f_equal. lia. }
  intros H1 H2. destruct (ref_files r !! name) as [content|] eqn:Ec.
  - pose proof (H e1 h1 content eq_refl H1). pose proof (H e2 h2 content eq_refl H2). congruence.
  - unfold read_ref in H1. rewrite Ec in H1. by destruct (negb _).
Qed.

(** ** The daemon's collection *)

Lemma live_in_wt d order tpl bid p e :
  bid ∈ branches_ d -> wt_lookup (wt_of d bid) p = Some e -> e_kind e = Blob \/ e_kind e = Symlink ->
  e_hash e <> ZERO_HASH -> e_hash e ∈ wt_hashes (collect_live_roots order tpl d).
Proof.
  intros Hb Hp Hk Hz. unfold collect_live_roots. cbn [wt_hashes]. apply list_elem_of_bind.
  exists bid. split.
  - apply list_elem_of_omap. exists (p, e). split.
    + unfold for_each_including_deleted. rewrite merged_for_each_raw. apply elem_of_entries.
      rewrite wt_lookup_live in Hp. unfold live in Hp. rewrite lookup_live_of in Hp.
      destruct (raw (wt_of d bid) !! p) as [e'|]; [|done]. by destruct (is_deleted e'); simplify_eq.
    + unfold live_hash. simpl. rewrite decide_False by done. by destruct Hk as [-> | ->].
  - unfold list_branches, sorted_ids. rewrite merge_sort_Permutation. by apply elem_of_elements.
Qed.

Lemma live_base d order tpl fh s :
  fh ∈ order -> fh_table_ d !! fh = Some s -> base_blob s <> ZERO_HASH ->
  base_blob s ∈ fh_blob_hashes (collect_live_roots order tpl d).
Proof.
  intros Hin Hs Hz. unfold collect_live_roots. cbn [fh_blob_hashes]. apply list_elem_of_omap.
  exists s. split; [|unfold nonzero; by rewrite decide_False].
  apply list_elem_of_omap. by exists fh.
Qed.

Lemma live_name d order tpl bid :
  bid ∈ branches_ d -> name_of d bid ∈ expected_branch_refs (collect_live_roots order tpl d).
Proof.
  intros Hb. unfold collect_live_roots. cbn [expected_branch_refs]. apply list_elem_of_fmap.
  exists bid. split; [done|]. unfold list_branches, sorted_ids. rewrite merge_sort_Permutation.
  by apply elem_of_elements.
Qed.

(** ** What the daemon uses *)

(** A listed branch shows a file or link with this content, or a handle was
    opened on it. *)
Inductive uses (d : Daemon) (h : Hash) : Prop :=
| UseEntry bid p e :
    bid ∈ branches_ d -> wt_lookup (wt_of d bid) p = Some e -> e_kind e = Blob \/ e_kind e = Symlink ->
    e_hash e = h -> h <> ZERO_HASH -> uses d h
| UseHandle fh s : fh_table_ d !! fh = Some s -> base_blob s = h -> h <> ZERO_HASH -> uses d h.

(** Written or taken over no longer ago than the sweep's fence. *)
Definition recent (fence : Z) (st : ObjectStore) (h : Hash) : Prop :=
  h ∈ pending_ st \/ exists o, disk st !! h = Some o /\ (fence <= f_mtime o)%Z.

(** What the file operations of other threads make of [d] while the roots of
    [d] are already collected: no branch comes or goes, and a content they start
    to use is one the daemon used already or a recent one. *)
Definition meanwhile (fence : Z) (d d1 : Daemon) : Prop :=
  (forall bid, bid ∈ branches_ d1 -> bid ∈ branches_ d /\ name_of d1 bid = name_of d bid) /\
  (forall h, uses d1 h -> uses d h \/ recent fence (store_ d1) h).

(** A write leaves its object pending, or takes one over and sets its time. *)
Lemma write_recent blake3 tag body env st st' h :
  write_object blake3 tag body env st = (st', h) -> h <> ZERO_HASH ->
  recent (Z.min (begin_now env) (publish_now env)) st' h.
Proof.
  unfold write_object. destruct (write_begin blake3 tag body env st) as [st1 [h1|h1 c p]] eqn:E.
  - intros [= -> ->] Hz. unfold write_begin in E.
    destruct (touch _ _ _ (set_last_error [] st)) as [st2| |msg] eqn:Et.
    + apply touch_spec in Et as (o & Ho & ->). simplify_eq. right. eexists. split.
      * simpl. by rewrite lookup_insert_eq.
      * simpl. lia.
    + destruct (mkdir_fault env); [|destruct (open_fault env); [|destruct (write_fault env)]]; by simplify_eq.
    + by simplify_eq.
  - intros Hp Hz. revert Hp. unfold write_publish.
    destruct (touch _ _ _ _) as [st2| |msg] eqn:Et; [|destruct (rename_fault env)|]; intros [= <- <-]; try done.
    + apply touch_spec in Et as (o & Ho & ->). right. eexists. split; [simpl; by rewrite lookup_insert_eq|]. simpl. lia.
    + left. simpl. set_solver.
Qed.

Section collecting.
Context (env : RunGcEnv) (policy : GcPolicy) (d0 d : Daemon) (st' : ObjectStore) (r : GcResult).
Context (Hwin : forall c, window_io (gc_reads env) c = true).
Context (Hmean : meanwhile (mark_start (gc_sweep_env env) - 2) d0 d).
Let live := daemon_roots env d0.
Context (Hrun : run (store_ d) (gc_reads env) policy (gc_roots_env env) (refs_ d) live (gc_sweep_env env) =
  Some (st', r)).

Lemma kept_object k h : @needed (store_ d) policy (gc_roots_env env) (refs_ d) live k h ->
  disk st' !! h = disk (store_ d) !! h.
Proof using Hwin Hrun.
  intros Hk. destruct (run_spares _ _ _ _ _ _ _ _ _ Hwin Hrun h) as [E|(_ & _ & _ & _ & Hn)]; [done|].
  by destruct (Hn k).
Qed.

Lemma kept_recent h : recent (mark_start (gc_sweep_env env) - 2) (store_ d) h -> disk st' !! h = disk (store_ d) !! h.
Proof using Hwin Hrun.
  intros Hh. destruct (run_spares _ _ _ _ _ _ _ _ _ Hwin Hrun h) as [E|(_ & _ & Hp & (o & Ho & Hold) & _)]; [done|].
  destruct Hh as [Hh|(o' & Ho' & Hage)]; [done|]. exfalso. simplify_eq. lia.
Qed.

Lemma used_live h : (forall fh, is_Some (fh_table_ d0 !! fh) -> fh ∈ gc_fh_order env) ->
  uses d0 h -> @live_object live h.
Proof using Type.
  intros Hord [bid p e Hb Hp Hk <- Hz|fh s Hs <- Hz].
  - left. by eapply live_in_wt.
  - right. left. eapply live_base; [apply Hord; by exists s|done|done].
Qed.

Lemma kept_used h : (forall fh, is_Some (fh_table_ d0 !! fh) -> fh ∈ gc_fh_order env) ->
  uses d h -> disk st' !! h = disk (store_ d) !! h.
Proof using Hwin Hrun Hmean.
  intros Hord Hu. destruct Hmean as [_ Hm]. destruct (Hm h Hu) as [H0|Hr]; [|by apply kept_recent].
  apply (kept_object IObject). apply need_live. by apply used_live.
Qed.

Lemma rebuild_unchanged blake3 renv bid :
  bid ∈ branches_ d ->
  rebuild_branch_from_ref blake3 renv (name_of d bid) st' (refs_ d) =
  rebuild_branch_from_ref blake3 renv (name_of d bid) (store_ d) (refs_ d).
Proof using Hwin Hrun Hmean.
  intros Hb. destruct Hmean as [Hnames _]. destruct (Hnames bid Hb) as [Hb0 Hname].
  destruct (mark_impl (store_ d) (gc_reads env) policy (gc_roots_env env) (refs_ d) live None)
    as [m r0|msg r0|] eqn:Em.
  2:{ unfold run in Hrun. rewrite Em in Hrun. by injection Hrun as <- <-. }
  2:{ unfold run in Hrun. by rewrite Em in Hrun. }
  apply mark_impl_inv in Em as (s & Hs & _ & _).
  pose proof (live_name d0 (gc_fh_order env) (gc_templates env) bid Hb0) as Hl. rewrite <- Hname in Hl.
  destruct (marked_heads _ _ _ _ _ _ _ _ _ Hs Hl) as (head & Hh & Hbh).
  unfold rebuild_branch_from_ref.
  destruct (read_ref (rb_ref renv) (name_of d bid) (refs_ d)) as [c|] eqn:Er; [|done].
  pose proof (read_ref_agree _ _ _ _ _ _ Hh Er) as <-. unfold read_commit.
  rewrite (read_object_agree (store_ d) st').
  2:{ eapply kept_object. eapply need_branch; [exact Hbh|constructor]. }
  destruct (read_object (store_ d) _ head _) as [body|] eqn:Eb; [|done].
  destruct (deserialize_commit body) as [cd| |] eqn:Ed; [|done|done].
  unfold rebuild_working_tree.
  rewrite (rebuild_loop_agree blake3 (store_ d) st'
    (fun t => @needed (store_ d) policy (gc_roots_env env) (refs_ d) live ITree t)); [done|..].
  - intros t Ht. by eapply kept_object.
  - intros t es e Ht Hes He Hk. by eapply need_subtree.
  - apply Forall_singleton. simpl.
    assert (@commit_at (store_ d) head cd) as Hcd.
    { unfold commit_at, load_commit, read_commit. by rewrite (read_object_io _ _ _ _ _ Eb), <- Ed. }
    eapply need_tree; [|exact Hcd]. eapply need_branch_data; [exact Hbh|constructor|exact Hcd|].
    unfold kept. destruct (keep_last policy); [by left|done].
Qed.

End collecting.

(** C13. A collection is invisible, also to what goes on beside it. Let the reads
    of the keep-last walk work, and let the other threads, once the roots are
    collected and the branches unlocked, add and remove no branch and start to
    use only contents the daemon used already or that are recent (as every write
    of an object leaves it). Then whatever the policy and however the run ends,
    the trees and the handles are as those threads left them, every file a
    listed branch shows reads as it did before the mark and the sweep, every open
    handle shows what it showed, and rebuilding any listed branch from its
    reference (a restart) gives what it gave. *)
Theorem gc_invisible blake3 env between policy d d' r :
  (forall c, window_io (gc_reads env) c = true) ->
  (forall fh, is_Some (fh_table_ d !! fh) -> fh ∈ gc_fh_order env) ->
  meanwhile (mark_start (gc_sweep_env env) - 2) d (between d) ->
  run_gc env between policy d = Some (d', r) ->
  let d1 := between d in
  (forall bid, wt_of d' bid = wt_of d1 bid) /\ fh_table_ d' = fh_table_ d1 /\
  (forall bid p e, bid ∈ branches_ d1 -> wt_lookup (wt_of d1 bid) p = Some e ->
     e_kind e = Blob \/ e_kind e = Symlink -> e_hash e <> ZERO_HASH ->
     forall io, read_blob (store_ d') io (e_hash e) = read_blob (store_ d1) io (e_hash e)) /\
  (forall fh s, fh_table_ d1 !! fh = Some s -> shown_file (store_ d') s = shown_file (store_ d1) s) /\
  (forall bid renv, bid ∈ branches_ d1 ->
     rebuild_branch_from_ref blake3 renv (name_of d1 bid) (store_ d') (refs_ d') =
     rebuild_branch_from_ref blake3 renv (name_of d1 bid) (store_ d1) (refs_ d1)).
Proof.
  intros Hwin Hord Hmean. unfold run_gc, mark_and_sweep.
  destruct (run _ _ _ _ _ _ _) as [[st' r']|] eqn:Hrun; [|done]. intros [= <- <-].
  split_and!; [done|done|..]; simpl.
  - intros bid p e Hb Hp Hk Hz io. apply read_blob_agree.
    eapply (kept_used env policy d); [done|done|exact Hrun|done|by eapply UseEntry].
  - intros fh s Hs. unfold shown_file, base_of. destruct (write_buf s) as [w|]; [|done].
    destruct (base_cache_loaded s); [done|]. case_decide as Hz; [done|]. f_equal. apply read_blob_agree.
    eapply (kept_used env policy d); [done|done|exact Hrun|done|by eapply UseHandle].
  - intros bid renv Hb. by eapply (rebuild_unchanged env policy d).
Qed.

(** ** The small repository of GcSweep, in a daemon *)

Definition gc_daemon : Daemon :=
  mkDaemon gc_store gc_refs {[main_id := mkBranch main_name empty_tree false]} {[main_id]}
    {[main_name := main_id]} ∅ ∅ 1 (new_router false false) ∅ 1 1 1.

Definition gc_run_env : RunGcEnv := mkRunGc [] [] gc_reads_ok gc_roots gc_sweep.

(** While it runs, a file is published in main. *)
Definition late_write : ObjectStore * Hash := write_blob toy_blake3 (lit "late") (no_faults 900) gc_store.

Definition late_entry : WorkingTreeEntry := mkEntry Blob late_write.2 420.

Definition late_file (d : Daemon) : Daemon :=
  set_wt main_id (wt_insert (wt_of d main_id) (lit "/late") late_entry) (set_store late_write.1 d).

Lemma late_branches : branches_ (late_file gc_daemon) = {[main_id]}.
Proof. reflexivity. Qed.

Lemma late_written : write_blob toy_blake3 (lit "late") (no_faults 900) gc_store = (late_write.1, late_write.2).
Proof. apply surjective_pairing. Qed.

(** The only content main shows is the late one. *)
Lemma late_uses h : uses (late_file gc_daemon) h -> h = late_write.2.
Proof.
  intros [bid p e Hb Hp _ <- Hz|fh s Hs _ _]; [|discriminate Hs].
  rewrite late_branches in Hb. apply elem_of_singleton in Hb as ->.
  change (wt_of (late_file gc_daemon) main_id) with (wt_insert empty_tree (lit "/late") late_entry) in Hp.
  rewrite wt_lookup_live, live_insert in Hp. unfold Spec.put in Hp.
  change (is_deleted late_entry) with false in Hp. cbv iota in Hp.
  apply lookup_insert_Some in Hp as [[_ <-]|[_ Hp]]; [done|].
  change (live empty_tree) with (∅ : EntryMap) in Hp. by rewrite lookup_empty in Hp.
Qed.

Lemma late_meanwhile : meanwhile 98 gc_daemon (late_file gc_daemon).
Proof.
  split.
  - intros bid Hb. rewrite late_branches in Hb. split; [exact Hb|]. by apply elem_of_singleton in Hb as ->.
  - intros h Hu. right. apply late_uses in Hu as E. rewrite E.
    destruct (write_recent toy_blake3 (lit "blob") (blob_body (lit "late")) (no_faults 900) gc_store late_write.1
      late_write.2 late_written) as [Hr|(o & Ho & Hm)].
    + rewrite <- E. destruct Hu as [bid p e _ _ _ _ Hz|fh s _ _ Hz]; exact Hz.
    + by left.
    + right. exists o. split; [exact Ho|]. revert Hm. change (Z.min _ _) with 900%Z. lia.
Qed.

Definition late_result : option (Daemon * GcResult) := run_gc gc_run_env late_file keep_two gc_daemon.
Definition late_after : Daemon * GcResult := default (gc_daemon, stats_of gc_marking) late_result.

Lemma late_run : late_result = Some (late_after.1, late_after.2).
Proof. apply (run_parts late_result). vm_compute. reflexivity. Qed.

Definition gc_restart : RebuildEnv := mkRebuild reads_ok (mkLoad true 8 (fun _ => true) (fun _ => StillThere)).

Lemma gc_invisible_witness :
  rebuild_branch_from_ref toy_blake3 gc_restart main_name (store_ late_after.1) (refs_ late_after.1) =
  rebuild_branch_from_ref toy_blake3 gc_restart main_name (store_ (late_file gc_daemon)) gc_refs.
Proof.
  destruct (gc_invisible toy_blake3 gc_run_env late_file keep_two gc_daemon late_after.1 late_after.2)
    as (_ & _ & _ & _ & H).
  - done.
  - intros fh [s Hs]. discriminate Hs.
  - exact late_meanwhile.
  - exact late_run.
  - apply (H main_id gc_restart). rewrite late_branches. set_solver.
Defined.
