(* ===== verification/RuntimeOps.v ===== *)
(** Snapshots and restores of cooperative runtimes: [Daemon::snapshot_runtime]
    and [Daemon::restore_runtime] (cas/daemon.cpp), where the supervisor meets
    checkpoints and rollbacks.

    Both hold [gc_publish_mu_] from end to end, so they and the other publishers
    exclude each other. The handler threads of the runtimes and the file system
    do not take that mutex: what they do between two steps is a [Gap], calls on
    the supervisor and changes to the daemon, given by the environment. *)

From S2P Require Import Prelude Hashes WorkingTree WriteBuffer Codec ObjectStore TreeSerialize Refs Checkpoint RuntimeState BranchRouter Handles Daemon Supervisor SupervisorRuns.

Record Host : Type := mkHost { h_daemon : Daemon; h_sup : Supervisor }.

Definition with_daemon (d : Daemon) (h : Host) : Host := mkHost d (h_sup h).
Definition with_sup (s : Supervisor) (h : Host) : Host := mkHost (h_daemon h) s.

(** What other threads do in between. *)
Record Gap : Type := mkGap {
  g_calls : list (ProcessEnv * sup_op);
  g_files : Daemon -> Daemon
}.

Definition between (g : Gap) (h : Host) : Host :=
  mkHost (g_files g (h_daemon h)) (run_ops (g_calls g) (h_sup h)).1.

(** The calls the handlers of a runtime's control connection make. *)
Definition handler_call (op : sup_op) : bool :=
  match op with
  | OpRegister _ | OpObserve _ _ _ _ _ | OpTemplateReady _ _ _ _ _ _ | OpPoll _ _
  | OpGenerationReady _ _ _ _ _ | OpDrop _ | OpWaitAction _ => true
  | _ => false
  end.

Definition gap_calls (g : Gap) : bool := forallb (fun x => handler_call x.2) (g_calls g).

(** Continue after a call that may run out of fuel, read past a commit's end or
    throw. *)
Definition then_walk {A B} (r : option (parse A)) (k : A -> option (parse B)) : option (parse B) :=
  match r with
  | None => None
  | Some OutOfBounds => Some OutOfBounds
  | Some Rejected => Some Rejected
  | Some (Parsed x) => k x
  end.

Definition or_message (e : str) (what : string) : str := match e with [] => lit what | _ => e end.

Section daemon.
Context (blake3 : bytes -> Hash).

(** ** Snapshots *)

Record RuntimeSnapshotResult : Type := mkSnapshotResult {
  sr_ok : bool;
  sr_runtime : str;
  sr_template : str;
  sr_union_state : str;
  sr_fs_commit : Hash;
  sr_generation : N;
  sr_eligibility : RestoreEligibility;
  sr_error : str
}.

(** Outcomes of the steps of a snapshot, and the gaps before the supervisor's
    calls. *)
Record SnapshotEnv : Type := mkSnapshotEnv {
  se_proc : ProcessEnv;
  se_wait : Gap;                (** until the boundary is observed *)
  se_release : Gap;             (** around the checkpoint *)
  se_checkpoint : PublishEnv;
  se_ready : Gap;               (** until the template is ready *)
  se_union : WriteEnv;
  se_fsync : FsyncEnv;
  se_attach : Gap;              (** while the union state is written *)
  se_finish : Gap;
  se_now : N
}.

Definition snapshot_failed (runtime error : str) : RuntimeSnapshotResult :=
  mkSnapshotResult false runtime [] [] ZERO_HASH 0 MetadataOnly error.

Definition cancel (rid : str) (h : Host) : Host := with_sup (cancel_snapshot rid (h_sup h)).1 h.

Definition snapshot_label (q : SnapshotRequest) : str :=
  lit "runtime:" ++ sq_runtime q ++ lit ":" ++ sq_kind q.

Definition snapshot_warnings : list ResourceWarning :=
  [mkWarning (lit "process_group_descendants")
     (lit "Only the cooperative root runtime memory is restored; descendant processes are managed as a process group for termination/status only.")
     false;
   mkWarning (lit "external_resources")
     (lit "External resources such as sockets, devices, network connections, and external service state are not inspected or restored by this first slice.")
     false].

Definition snapshot_state (q : SnapshotRequest) (st : RuntimeStatus) (fs_commit : Hash) (tid : str)
    (now : N) : UnionRuntimeState :=
  mkUS 1 [] [] (rs_branch st) fs_commit (sq_agent_state q) (sq_runtime q) (rs_generation st) tid
    (lit "live_fork") (sq_kind q) (rs_command st) (lit "inline:cooperative-process-group") now
    snapshot_warnings.

(** Steps 7 to 11, with the template ready. *)
Definition publish_snapshot (env : SnapshotEnv) (q : SnapshotRequest) (st : RuntimeStatus)
    (fs_commit : Hash) (tid : str) (h : Host) : Host * RuntimeSnapshotResult :=
  let rid := sq_runtime q in
  let alive := match template_status (se_proc env) tid (h_sup h) with
               | Ok ts => ts_alive ts | Err _ => false end in
  let withdraw msg h :=
    (cancel rid (with_sup (fail_template_publish tid msg (h_sup h)).1 h), snapshot_failed rid msg) in
  let us := snapshot_state q st fs_commit tid (se_now env) in
  let '(st1, us1, w) := write_union_runtime_state blake3 (store_ (h_daemon h)) us (se_union env) in
  let h1 := with_daemon (set_store st1 (h_daemon h)) h in
  match w with
  | Err e => withdraw (or_message e "union state write failed") h1
  | Ok uh =>
      let '(st2, f) := fsync_pending (se_fsync env) [uh] st1 in
      let h2 := between (se_attach env) (with_daemon (set_store st2 (h_daemon h1)) h1) in
      match f with
      | Err e => withdraw (or_message e "failed to fsync union runtime state") h2
      | Ok _ =>
          match attach_union_state tid (RuntimeState.union_state_id us1) fs_commit (h_sup h2) with
          | (s, Err e) => withdraw (or_message e "attach union state failed") (with_sup s h2)
          | (s, Ok _) =>
              (cancel rid (between (se_finish env) (with_sup s h2)),
               mkSnapshotResult true rid tid (RuntimeState.union_state_id us1) fs_commit
                 (rs_generation st) (if alive then LiveRuntimeRestorable else FsOnly) [])
          end
      end
  end.

(** Steps 4 to 6, with the boundary observed: the branch is checkpointed while
    the runtime is parked there. *)
Definition snapshot_at_boundary (env : SnapshotEnv) (q : SnapshotRequest) (st : RuntimeStatus)
    (boundary_id : str) (h : Host) : Host * RuntimeSnapshotResult :=
  let rid := sq_runtime q in
  let refuse msg h :=
    (with_sup (release_boundary_with_error boundary_id msg (h_sup h)).1 h, snapshot_failed rid msg) in
  match branch_by_name_locked (h_daemon h) (rs_branch st) with
  | None => refuse (lit "unknown branch") (between (se_release env) h)
  | Some bid =>
      let '(d, cp) := checkpoint_context blake3 (se_checkpoint env) bid (name_of (h_daemon h) bid)
                        (snapshot_label q) (h_daemon h) in
      let h1 := between (se_release env) (with_daemon d h) in
      if negb (Checkpoint.ok cp) then refuse (cr_error cp) h1
      else
        match release_boundary_for_snapshot boundary_id (h_sup h1) with
        | (s, Err e) => (cancel rid (with_sup s h1), snapshot_failed rid e)
        | (s, Ok a) =>
            let h2 := between (se_ready env) (with_sup s h1) in
            match wait_for_template_ready rid (h_sup h2) with
            | Err e =>
                (cancel rid (with_sup (drop_template (act_template a) (h_sup h2)).1 h2), snapshot_failed rid e)
            | Ok _ => publish_snapshot env q st (commit_hash cp) (act_template a) h2
            end
        end
  end.

Definition snapshot_runtime (env : SnapshotEnv) (q : SnapshotRequest) (h : Host) :
    Host * RuntimeSnapshotResult :=
  let rid := sq_runtime q in
  match pc_supported (se_proc env) with
  | Some e => (h, snapshot_failed rid e)
  | None =>
      match status (se_proc env) rid (h_sup h) with
      | Err e => (h, snapshot_failed rid e)
      | Ok st =>
          if negb (rs_cooperative st) then (h, snapshot_failed rid (lit "runtime is not cooperative"))
          else
            match branch_by_name (h_daemon h) (rs_branch st) with
            | None => (h, snapshot_failed rid (lit "unknown branch"))
            | Some _ =>
                match begin_snapshot q (h_sup h) with
                | (s, Err e) => (with_sup s h, snapshot_failed rid e)
                | (s, Ok _) =>
                    let h1 := between (se_wait env) (with_sup s h) in
                    match wait_for_boundary rid (h_sup h1) with
                    | Err e => (cancel rid h1, snapshot_failed rid e)
                    | Ok boundary_id => snapshot_at_boundary env q st boundary_id h1
                    end
                end
            end
      end
  end.

(** ** Restores *)

Record RuntimeRestoreResult : Type := mkRestoreResult {
  rr_success : bool;
  rr_runtime : str;
  rr_template : str;
  rr_target : N;
  rr_fs_commit : Hash;
  rr_eligibility : RestoreEligibility;
  rr_partial : str;
  rr_message : str
}.

Record RestoreEnv : Type := mkRestoreEnv {
  re_proc : ProcessEnv;
  re_union_io : bool;
  re_head : ReadEnv;
  re_recovery_io : bool;
  re_target_io : bool;
  re_begin : Gap;               (** before the active group is frozen *)
  re_roll : Gap;                (** before the rollback *)
  re_rollback : RollbackEnv;
  re_publish : Gap;             (** before the template is released *)
  re_wait : Gap;                (** until the generation is ready *)
  re_recover : RollbackEnv;
  re_abort : Gap;               (** after the wait, around the recovery *)
  re_done : Gap
}.

Definition restore_refused (error : str) : RuntimeRestoreResult :=
  mkRestoreResult false [] [] 0 ZERO_HASH MetadataOnly [] error.

(** The members filled in from the union state. *)
Definition restore_result (us : UnionRuntimeState) (success : bool) (e : RestoreEligibility)
    (partial error : str) : RuntimeRestoreResult :=
  mkRestoreResult success (us_runtime_id us) (RuntimeState.template_id us)
    (u64 (runtime_generation us + 1)) (us_fs_commit us) e partial error.

Definition restore_failed (us : UnionRuntimeState) (error : str) : RuntimeRestoreResult :=
  restore_result us false MetadataOnly [] error.

(** A host, the signals sent, and the result. *)
Abbreviation restored := (Host * list Signal * RuntimeRestoreResult)%type.

Definition roll_back (env : RollbackEnv) (bid : N) (target : Hash) (branch_name : str) (h : Host) :
    option (parse (Host * RollbackResult)) :=
  then_walk (rollback_context blake3 env bid target branch_name (h_daemon h)) (fun '(d, r) =>
    Some (Parsed (with_daemon d h, r))).

(** [recover_branch_tip]. *)
Definition recover_branch_tip (env : RollbackEnv) (recovery : Hash) (branch_name : str) (h : Host) :
    option (parse (Host * bool)) :=
  match branch_by_name_locked (h_daemon h) branch_name with
  | None => Some (Parsed (h, false))
  | Some bid =>
      then_walk (roll_back env bid recovery branch_name h) (fun '(h', r) =>
        Some (Parsed (h', Checkpoint.ok r)))
  end.

Definition abort (env : ProcessEnv) (rid : str) (h : Host) : Host * list Signal :=
  let '(s, sent, _) := abort_restore env rid (h_sup h) in (with_sup s h, sent).

(** Steps 8 and 9 failing: the branch goes back to where it was, the frozen
    group is resumed. A failed recovery is reported with the error when
    [publish_restore] failed and without it after a timeout. *)
Definition restore_undone (env : RestoreEnv) (us : UnionRuntimeState) (recovery : Hash)
    (reported error : str) (sent : list Signal) (h : Host) : option (parse restored) :=
  then_walk (recover_branch_tip (re_recover env) recovery (us_branch us) h) (fun '(h1, recovered) =>
    let '(h2, more) := abort (re_proc env) (us_runtime_id us) (between (re_abort env) h1) in
    Some (Parsed (h2, sent ++ more,
      if recovered : bool then restore_failed us error
      else restore_result us false MetadataOnly (lit "recovery_failed_runtime_resumed") reported))).

(** Step 9b on: the generation is ready. *)
Definition restore_done (env : RestoreEnv) (us : UnionRuntimeState) (sent : list Signal) (h : Host) :
    restored :=
  let rid := us_runtime_id us in
  let h1 := between (re_abort env) h in
  match retire_pending_generation (re_proc env) rid (h_sup h1) with
  | (s, killed, Err e) =>
      let '(h2, more) := abort (re_proc env) rid (with_sup s h1) in
      (h2, sent ++ killed ++ more,
       restore_result us false MetadataOnly (lit "retire_unknown_prior_frozen") e)
  | (s, killed, Ok _) =>
      let h2 := between (re_done env) (with_sup s h1) in
      let live := match template_status (re_proc env) (RuntimeState.template_id us) (h_sup h2) with
                  | Ok ts => ts_alive ts | Err _ => false end in
      (h2, sent ++ killed, restore_result us true (if live then LiveRuntimeRestorable else FsOnly) [] [])
  end.

(** Steps 8 on: the branch is rolled back. *)
Definition release_restore (env : RestoreEnv) (us : UnionRuntimeState) (recovery : Hash)
    (sent : list Signal) (h : Host) : option (parse restored) :=
  let rid := us_runtime_id us in
  let h1 := between (re_publish env) h in
  match publish_restore rid (h_sup h1) with
  | (s, Err e) => restore_undone env us recovery e e sent (with_sup s h1)
  | (s, Ok _) =>
      let h2 := between (re_wait env) (with_sup s h1) in
      match wait_for_generation_ready rid (h_sup h2) with
      | Err e => restore_undone env us recovery [] e sent h2
      | Ok _ => Some (Parsed (restore_done env us sent h2))
      end
  end.

(** Steps 6 and 7. *)
Definition freeze_and_roll_back (env : RestoreEnv) (us : UnionRuntimeState) (recovery : Hash) (bid : N)
    (h : Host) : option (parse restored) :=
  let rid := us_runtime_id us in
  let h1 := between (re_begin env) h in
  let intent := mkIntent rid (RuntimeState.template_id us) (u64 (runtime_generation us + 1)) in
  match begin_restore (re_proc env) intent (h_sup h1) with
  | (s, sent, Err e) => Some (Parsed (with_sup s h1, sent, restore_failed us e))
  | (s, sent, Ok _) =>
      let h2 := between (re_roll env) (with_sup s h1) in
      let withdraw error h :=
        let '(h', more) := abort (re_proc env) rid h in
        Some (Parsed (h', sent ++ more, restore_failed us error)) in
      match branch_by_name_locked (h_daemon h2) (us_branch us) with
      | None => withdraw (lit "unknown branch") h2
      | Some locked =>
          then_walk (roll_back (re_rollback env) locked (us_fs_commit us) (us_branch us) h2) (fun '(h3, rb) =>
            if negb (Checkpoint.ok rb) then withdraw (cr_error rb) h3
            else release_restore env us recovery sent
                   (with_daemon (invalidate_fhs_for_branch bid (h_daemon h3)) h3))
      end
  end.

Definition restore_runtime (env : RestoreEnv) (union_state_id_hex : str) (h : Host) :
    option (parse restored) :=
  let refuse error := Some (Parsed (h, [], restore_refused error)) in
  match pc_supported (re_proc env) with
  | Some e => refuse e
  | None =>
      match hex_to_hash_strict union_state_id_hex with
      | None => refuse (lit "invalid union_state_id")
      | Some id =>
          match read_union_runtime_state (store_ (h_daemon h)) (re_union_io env) id with
          | Err e => refuse e
          | Ok us =>
              let refuse_us error := Some (Parsed (h, [], restore_failed us error)) in
              match template_status (re_proc env) (RuntimeState.template_id us) (h_sup h) with
              | Err _ => refuse_us unknown_template
              | Ok ts =>
                  if negb (ts_alive ts) then refuse_us (lit "template is not live")
                  else
                    match branch_by_name (h_daemon h) (us_branch us) with
                    | None => refuse_us (lit "unknown branch")
                    | Some bid =>
                        let recovery := current_commit (re_head env) (us_branch us) (refs_ (h_daemon h)) in
                        if decide (recovery = ZERO_HASH) then refuse_us (lit "recovery commit not found")
                        else if negb (bool_decide (is_Some (read_commit (store_ (h_daemon h)) (re_recovery_io env) recovery)))
                        then refuse_us (lit "failed to read recovery commit")
                        else if negb (bool_decide (is_Some (read_commit (store_ (h_daemon h)) (re_target_io env) (us_fs_commit us))))
                        then refuse_us (lit "failed to read target commit")
                        else freeze_and_roll_back env us recovery bid h
                    end
              end
          end
      end
  end.

End daemon.
