(* ===== verification/RuntimeProps.v ===== *)
(** What a restore and a snapshot of a runtime come to, whatever the handler
    threads do meanwhile (cas/daemon.cpp, cas/runtime_supervisor.cpp). *)

From S2P Require Import Prelude Hashes WorkingTree WriteBuffer Codec ObjectStore Refs Checkpoint RuntimeState BranchRouter Handles Daemon Supervisor SupervisorRuns RuntimeOps.

(** ** What handlers do to a runtime *)

(** Its restore is left alone, or ended by the generation it waits for. *)
Inductive handled (r r' : Runtime) : Prop :=
| HandledSame :
    rt_restore r' = rt_restore r -> rt_pgid r' = rt_pgid r -> rt_generation r' = rt_generation r -> handled r r'
| HandledReady :
    has_pending_restore (rt_restore r) = true ->
    rt_restore r' = mkPendingRestore false [] (restore_target_generation (rt_restore r)) true (rt_pgid r) ->
    rt_generation r' = restore_target_generation (rt_restore r) -> handled r r'.

Lemma handled_trans r1 r2 r3 : handled r1 r2 -> handled r2 r3 -> handled r1 r3.
Proof.
  intros [E1 E2 E3|Hp E1 E2] [F1 F2 F3|Hq F1 F2].
  - apply HandledSame; congruence.
  - apply HandledReady; congruence.
  - apply HandledReady; congruence.
  - rewrite E1 in Hq. discriminate Hq.
Qed.

(** Runtimes stay registered, each handled; a pending snapshot stays pending. *)
Definition follows_on (s s' : Supervisor) : Prop :=
  forall (rid : str) r, runtimes s !! rid = Some r ->
    exists r', runtimes s' !! rid = Some r' /\ handled r r' /\
      has_pending_snapshot (rt_snapshot r') = has_pending_snapshot (rt_snapshot r).

Lemma follows_on_refl s s' : runtimes s' = runtimes s -> follows_on s s'.
Proof. intros E rid r H. exists r. rewrite E. split; [done|]. by split; [apply HandledSame|]. Qed.

Lemma follows_on_trans s1 s2 s3 : follows_on s1 s2 -> follows_on s2 s3 -> follows_on s1 s3.
Proof.
  intros H1 H2 rid r (r2 & E2 & A & B)%H1. apply H2 in E2 as (r3 & E3 & C & D).
  exists r3. split; [done|]. split; [by eapply handled_trans|congruence].
Qed.

(** One runtime's entry changes. *)
Lemma follows_on_put s s' (rid : str) r r' :
  runtimes s !! rid = Some r -> runtimes s' = <[rid := r']> (runtimes s) -> handled r r' ->
  has_pending_snapshot (rt_snapshot r') = has_pending_snapshot (rt_snapshot r) -> follows_on s s'.
Proof.
  intros Hr E Hh Hp k x Hk. rewrite E. destruct (decide (rid = k)) as [<-|Hne].
  - rewrite lookup_insert_eq. exists r'. by assert (x = r) as -> by congruence.
  - rewrite lookup_insert_ne by done. exists x. split; [done|]. by split; [apply HandledSame|].
Qed.

Lemma follows_on_add s s' (rid : str) r' :
  runtimes s !! rid = None -> runtimes s' = <[rid := r']> (runtimes s) -> follows_on s s'.
Proof.
  intros Hr E k x Hk. rewrite E, lookup_insert_ne by congruence.
  exists x. split; [done|]. by split; [apply HandledSame|].
Qed.

Lemma register_follows env q s : follows_on s (register_runtime env q s).1.
Proof.
  unfold register_runtime. destruct (pc_supported env); [by apply follows_on_refl|].
  assert (exists s1 id, match cq_id q with [] => make_runtime_id s | id => (s, id) end = (s1, id) /\ runtimes s1 = runtimes s)
    as (s1 & id & -> & Es).
  { destruct (cq_id q); by eexists _, _. }
  destruct (runtimes s1 !! id) eqn:E; cbn [fst]; [by apply follows_on_refl|].
  eapply follows_on_add; [by rewrite <- Es|]. simpl. by rewrite Es.
Qed.

Lemma observe_follows rid token pid g kind s : follows_on s (observe_boundary rid token pid g kind s).1.
Proof.
  unfold observe_boundary. destruct (runtimes s !! rid) as [r|] eqn:E; [|by apply follows_on_refl].
  destruct (negb _); [by apply follows_on_refl|]. destruct (_ || _); [by apply follows_on_refl|].
  eapply follows_on_put; [done|done|by apply HandledSame|done].
Qed.

Lemma ready_follows rid token pid pgid g s : follows_on s (generation_ready rid token pid pgid g s).1.
Proof.
  unfold generation_ready. destruct (runtimes s !! rid) as [r|] eqn:E; [|by apply follows_on_refl].
  destruct (negb (token_ok r token)); [by apply follows_on_refl|].
  destruct (has_pending_restore (rt_restore r)) eqn:Ep; cbn [negb orb]; [|by apply follows_on_refl].
  destruct (restore_target_generation (rt_restore r) =? g) eqn:Eg; cbn [negb]; [|by apply follows_on_refl].
  apply N.eqb_eq in Eg. eapply follows_on_put; [done|simpl; by rewrite disarm_runtimes| |done].
  by apply HandledReady.
Qed.

Lemma drop_follows tid s : follows_on s (drop_template tid s).1.
Proof.
  unfold drop_template. destruct (templates s !! tid) as [t|]; [|by apply follows_on_refl].
  destruct (runtimes s !! tm_runtime t) as [r|] eqn:E; [|by apply follows_on_refl].
  destruct (_ && _); [by apply follows_on_refl|].
  eapply follows_on_put; [done|done|by apply HandledSame|done].
Qed.

Lemma handler_follows env op s : handler_call op = true -> follows_on s (exec_op env op s).1.
Proof.
  destruct op; cbn [handler_call exec_op fst]; try done; intros _.
  - apply register_follows.
  - apply observe_follows.
  - apply follows_on_refl. unfold template_ready. by repeat case_match.
  - destruct (template_poll tid token s) as [s' r] eqn:E. apply follows_on_refl. cbn [fst]. revert E.
    unfold template_poll. repeat case_match; by intros [= <- _].
  - pose proof (ready_follows rid token pid pgid generation s) as H. by destruct (generation_ready _ _ _ _ _ _).
  - apply drop_follows.
  - destruct (wait_boundary_action bid s) as [s' r] eqn:E. apply follows_on_refl. cbn [fst]. revert E.
    unfold wait_boundary_action. case_match; by intros [= <- _].
Qed.

Lemma gap_follows g h : gap_calls g = true -> follows_on (h_sup h) (h_sup (between g h)).
Proof.
  unfold gap_calls, between. cbn [h_sup]. generalize (h_sup h). clear h.
  induction (g_calls g) as [|[env op] ops IH]; intros s; cbn [forallb run_ops snd]; [by intros _; apply follows_on_refl|].
  intros [Hop Hops]%andb_true_iff. pose proof (handler_follows env op s Hop) as H1.
  destruct (exec_op env op s) as [s1 evs]. specialize (IH s1 Hops). destruct (run_ops ops s1) as [s2 more].
  by eapply follows_on_trans.
Qed.

(** ** The end of a restore *)

(** A signal goes to a positive group only. *)
Definition on (pgid : Z) (sig : Z -> Signal) : list Signal :=
  if (0 <? pgid)%Z then [sig pgid] else [].

(** The runtime between freezing and the end: still waiting, with [old] frozen,
    or its new generation is ready and [old] is kept aside. *)
Inductive underway (old : Z) (gen target : N) (r : Runtime) : Prop :=
| Waiting tid :
    rt_restore r = mkPendingRestore true tid target false 0 -> rt_pgid r = old ->
    rt_generation r = gen -> underway old gen target r
| Ready :
    rt_restore r = mkPendingRestore false [] target true old -> rt_generation r = target ->
    underway old gen target r.

Lemma handled_underway old gen target r r' :
  underway old gen target r -> handled r r' -> underway old gen target r'.
Proof.
  intros [tid E1 E2 E3|E1 E2] [F1 F2 F3|Hp F1 F2].
  - by apply Waiting with tid; congruence.
  - apply Ready; rewrite E1 in *; cbn in *; congruence.
  - apply Ready; congruence.
  - by rewrite E1 in Hp.
Qed.

(** The runtime's entry satisfies [P]. *)
Definition runtime_at (rid : str) (P : Runtime -> Prop) (h : Host) : Prop :=
  exists r, runtimes (h_sup h) !! rid = Some r /\ P r.

Lemma between_at g rid (P : Runtime -> Prop) h :
  gap_calls g = true -> (forall r r', P r -> handled r r' -> P r') ->
  runtime_at rid P h -> runtime_at rid P (between g h).
Proof.
  intros Hg HP (r & Hr & Hp). destruct (gap_follows g h Hg rid r Hr) as (r' & Hr' & Hh & _).
  exists r'. split; [done|by eapply HP].
Qed.

(** How a restore can leave the runtime, which had [old] as its active group
    and [gen] as its generation. *)
Inductive restore_end (old : Z) (gen target : N) (sent : list Signal) (success : bool) (r : Runtime) : Prop :=
| EndRefused :                (** nothing was frozen *)
    success = false -> sent = [] \/ sent = on old Freeze -> rt_pgid r = old -> rt_generation r = gen ->
    restore_end old gen target sent success r
| EndRestored :               (** the new generation runs, the old group is killed *)
    success = true -> sent = on old Freeze ++ on old Terminate -> rt_generation r = target ->
    restore_end old gen target sent success r
| EndUndone :                 (** the old group runs again *)
    success = false -> sent = on old Freeze ++ on old Resume -> rt_pgid r = old -> rt_generation r = gen ->
    restore_end old gen target sent success r
| EndOvertaken :              (** the new generation became active all the same *)
    success = false -> sent = on old Freeze ++ on (rt_pgid r) Resume -> rt_generation r = target ->
    retire_pgid (rt_restore r) = old -> restore_end old gen target sent success r.

Definition over (old : Z) (gen target : N) (sent : list Signal) (success : bool) (r : Runtime) : Prop :=
  has_pending_restore (rt_restore r) = false /\ restore_end old gen target sent success r.

(** At rest: no restore is pending, [old] is active. *)
Definition at_rest (old : Z) (gen : N) (r : Runtime) : Prop :=
  has_pending_restore (rt_restore r) = false /\ rt_pgid r = old /\ rt_generation r = gen.

Lemma handled_rest old gen r r' : at_rest old gen r -> handled r r' -> at_rest old gen r'.
Proof.
  intros (E1 & E2 & E3) [F1 F2 F3|Hp F1 F2]; [|congruence]. unfold at_rest. rewrite F1, F2, F3. done.
Qed.

Lemma begin_effect env i old gen h s sent r0 :
  runtime_at (in_runtime i) (at_rest old gen) h -> begin_restore env i (h_sup h) = (s, sent, r0) ->
  if is_ok r0 then sent = on old Freeze /\ runtime_at (in_runtime i) (underway old gen (in_target i)) (with_sup s h)
  else (sent = [] \/ sent = on old Freeze) /\ s = h_sup h.
Proof.
  intros (r & Hr & Hp & <- & <-). unfold begin_restore. rewrite Hr.
  destruct (templates (h_sup h) !! in_template i) as [t|]; [|intros [= <- <- <-]; cbn; auto].
  destruct (negb _); [intros [= <- <- <-]; cbn; auto|].
  destruct (if (0 <? rt_pgid r)%Z then pc_freeze env (rt_pgid r) else None).
  - intros [= <- <- <-]. split; [by right|done].
  - intros [= <- <- <-]. split; [done|]. eexists. split; [simpl; apply lookup_insert_eq|].
    by eapply Waiting.
Qed.

Lemma abort_effect env rid old gen target h h' more :
  runtime_at rid (underway old gen target) h -> abort env rid h = (h', more) ->
  runtime_at rid (over old gen target (on old Freeze ++ more) false) h'.
Proof.
  intros (r & Hr & Hu). unfold abort, abort_restore. rewrite Hr.
  set (r1 := with_restore _ r).
  assert (runtimes (put_runtime rid r1 (disarm (fun _ => 0) (restore_template_id (rt_restore r)) (h_sup h))) !! rid = Some r1) as Hl.
  { simpl. apply lookup_insert_eq. }
  assert (over old gen target (on old Freeze ++ on (rt_pgid r) Resume) false r1) as Ho.
  { split; [done|]. destruct Hu as [tid E1 E2 E3|E1 E2].
    - apply EndUndone; [done|by rewrite E2|done|done].
    - apply EndOvertaken; [done|done|done|]. simpl. by rewrite E1. }
  unfold on at 2 in Ho. destruct (0 <? rt_pgid r)%Z; intros [= <- <-]; by exists r1.
Qed.

Lemma publish_restore_runtimes rid s : runtimes (publish_restore rid s).1 = runtimes s.
Proof. unfold publish_restore. by repeat case_match. Qed.

Section restore.
Context (blake3 : bytes -> Hash).

Lemma then_walk_Parsed {A B} (r : option (parse A)) (k : A -> option (parse B)) y :
  then_walk r k = Some (Parsed y) -> exists x, r = Some (Parsed x) /\ k x = Some (Parsed y).
Proof. destruct r as [[x| |]|]; simpl; [|done..]. intros H. by exists x. Qed.

Lemma roll_back_sup env bid target name h h' r :
  roll_back blake3 env bid target name h = Some (Parsed (h', r)) -> h_sup h' = h_sup h.
Proof. intros ([d x] & _ & [= <- _])%then_walk_Parsed. done. Qed.

Lemma recover_sup env recovery name h h' r :
  recover_branch_tip blake3 env recovery name h = Some (Parsed (h', r)) -> h_sup h' = h_sup h.
Proof.
  unfold recover_branch_tip. destruct (branch_by_name_locked _ name); [|by intros [= <- _]].
  intros ([h1 x] & H & [= <- _])%then_walk_Parsed. by eapply roll_back_sup.
Qed.

(** The handlers' calls are all the gaps hold. *)
Definition restore_gaps (env : RestoreEnv) : Prop :=
  gap_calls (re_begin env) = true /\ gap_calls (re_roll env) = true /\ gap_calls (re_publish env) = true /\
  gap_calls (re_wait env) = true /\ gap_calls (re_abort env) = true /\ gap_calls (re_done env) = true.

Lemma runtime_at_sup rid P h h' : h_sup h' = h_sup h -> runtime_at rid P h -> runtime_at rid P h'.
Proof. unfold runtime_at. by intros ->. Qed.

Lemma undone_end env us recovery reported error old gen target h h' sent res :
  restore_gaps env -> runtime_at (us_runtime_id us) (underway old gen target) h ->
  restore_undone blake3 env us recovery reported error (on old Freeze) h = Some (Parsed (h', sent, res)) ->
  rr_success res = false /\ runtime_at (us_runtime_id us) (over old gen target sent false) h'.
Proof.
  intros (_ & _ & _ & _ & Hg & _) Hu. unfold restore_undone.
  intros ([h1 rec] & H1 & H)%then_walk_Parsed. apply recover_sup in H1.
  assert (runtime_at (us_runtime_id us) (underway old gen target) (between (re_abort env) h1)) as Hu1.
  { eapply between_at; [done|by apply handled_underway|]. by eapply runtime_at_sup. }
  destruct (abort (re_proc env) _ _) as [h2 more] eqn:Ea. injection H as <- <- <-.
  split; [by destruct rec|]. by eapply abort_effect.
Qed.

Lemma done_end env us old gen target h h' sent res :
  restore_gaps env -> runtime_at (us_runtime_id us) (fun r => rt_restore r = mkPendingRestore false [] target true old /\ rt_generation r = target) h ->
  restore_done env us (on old Freeze) h = (h', sent, res) ->
  rr_success res = true /\ runtime_at (us_runtime_id us) (over old gen target sent true) h'.
Proof.
  intros (_ & _ & _ & _ & Hg & Hd) Hu. unfold restore_done.
  assert (runtime_at (us_runtime_id us) (fun r => rt_restore r = mkPendingRestore false [] target true old /\ rt_generation r = target)
    (between (re_abort env) h)) as (r & Hr & Er & Eg).
  { eapply between_at; [done| |done]. intros r r' [E1 E2] [F1 F2 F3|Hp _ _]; [split; congruence|].
    by rewrite E1 in Hp. }
  unfold retire_pending_generation. rewrite Hr, Er. cbn [retire_pgid has_pending_restore restore_template_id
    restore_target_generation generation_ready_flag].
  set (r1 := with_restore _ r). set (h2 := between (re_done env) (with_sup (put_runtime (us_runtime_id us) r1
    (h_sup (between (re_abort env) h))) (between (re_abort env) h))).
  assert (runtime_at (us_runtime_id us) (fun r => has_pending_restore (rt_restore r) = false /\ rt_generation r = target) h2)
    as (r2 & Hr2 & Ep & Eg2).
  { eapply between_at; [done| |].
    - intros x x' [E1 E2] [F1 F2 F3|Hp _ _]; [split; congruence|congruence].
    - exists r1. split; [simpl; apply lookup_insert_eq|done]. }
  assert (over old gen target (on old Freeze ++ on old Terminate) true r2) as Ho by (split; [done|by apply EndRestored]).
  unfold on at 2 in Ho. destruct (0 <? old)%Z; intros [= <- <- <-]; (split; [done|by exists r2]).
Qed.

Lemma release_end env us recovery old gen target h h' sent res :
  restore_gaps env -> runtime_at (us_runtime_id us) (underway old gen target) h ->
  release_restore blake3 env us recovery (on old Freeze) h = Some (Parsed (h', sent, res)) ->
  runtime_at (us_runtime_id us) (over old gen target sent (rr_success res)) h'.
Proof.
  intros Hgaps Hu. pose proof Hgaps as (_ & _ & Hp & Hw & _). unfold release_restore.
  set (h1 := between (re_publish env) h).
  assert (runtime_at (us_runtime_id us) (underway old gen target) h1) as Hu1
    by (eapply between_at; [done|by apply handled_underway|done]).
  pose proof (publish_restore_runtimes (us_runtime_id us) (h_sup h1)) as Hpub.
  destruct (publish_restore (us_runtime_id us) (h_sup h1)) as [s [u|e]]; cbn [fst] in Hpub.
  2:{ intros H. eapply undone_end in H as [-> H]; [done|done|].
      destruct Hu1 as (r & Hr & Hur). exists r. split; [simpl; by rewrite Hpub|done]. }
  set (h2 := between (re_wait env) (with_sup s h1)).
  assert (runtime_at (us_runtime_id us) (underway old gen target) h2) as (r & Hr & Hur).
  { eapply between_at; [done|by apply handled_underway|].
    destruct Hu1 as (r & Hr & Hur). exists r. split; [simpl; by rewrite Hpub|done]. }
  unfold wait_for_generation_ready. rewrite Hr.
  destruct (generation_ready_flag (rt_restore r)) eqn:Ef.
  - intros [= H]. destruct Hur as [tid E1 _ _|E1 E2]; [by rewrite E1 in Ef|].
    eapply done_end in H as [-> H]; [done|done|]. by exists r.
  - intros H. eapply undone_end in H as [-> H]; [done|done|]. by exists r.
Qed.

Lemma freeze_end env us recovery bid old gen h h' sent res :
  restore_gaps env -> runtime_at (us_runtime_id us) (at_rest old gen) h ->
  freeze_and_roll_back blake3 env us recovery bid h = Some (Parsed (h', sent, res)) ->
  runtime_at (us_runtime_id us) (over old gen (u64 (runtime_generation us + 1)) sent (rr_success res)) h'.
Proof.
  intros Hgaps Hrest Hrun. pose proof Hgaps as (Hb & Hr & _). unfold freeze_and_roll_back in Hrun.
  set (h1 := between (re_begin env) h) in *. set (target := u64 (runtime_generation us + 1)) in *.
  assert (runtime_at (us_runtime_id us) (at_rest old gen) h1) as Hrest1
    by (eapply between_at; [done|by apply handled_rest|done]).
  destruct (begin_restore _ _ _) as [[s frozen] r0] eqn:Eb.
  apply (begin_effect _ _ old gen) in Eb; [|done]. cbn [in_runtime in_target] in Eb.
  destruct r0 as [u|e]; cbn [is_ok] in Eb.
  2:{ destruct Eb as [Hf ->]. injection Hrun as <- <- <-.
      destruct Hrest1 as (r & Er & Ep & Eo & Eg). exists r. split; [done|]. split; [done|].
      by apply EndRefused. }
  destruct Eb as [-> Hu]. set (h2 := between (re_roll env) (with_sup s h1)) in *.
  assert (runtime_at (us_runtime_id us) (underway old gen target) h2) as Hu2
    by (eapply between_at; [done|by apply handled_underway|done]).
  assert (forall h3 e, runtime_at (us_runtime_id us) (underway old gen target) h3 ->
    (let '(h', more) := abort (re_proc env) (us_runtime_id us) h3 in
     Some (Parsed (h', on old Freeze ++ more, restore_failed us e))) = Some (Parsed (h', sent, res)) ->
    runtime_at (us_runtime_id us) (over old gen target sent (rr_success res)) h') as Hab.
  { intros h3 e Hu3. destruct (abort _ _ h3) as [h4 more] eqn:Ea. intros [= <- <- <-].
    by eapply abort_effect. }
  destruct (branch_by_name_locked _ _) as [locked|]; [|by eapply Hab].
  apply then_walk_Parsed in Hrun as ([h3 rb] & Hrb & Hrun). apply roll_back_sup in Hrb.
  assert (runtime_at (us_runtime_id us) (underway old gen target) h3) as Hu3 by by eapply runtime_at_sup.
  destruct (negb _); [by eapply Hab|]. eapply release_end in Hrun; [exact Hrun|done|exact Hu3].
Qed.

(** The union state a restore is asked for. *)
Definition requested_state (env : RestoreEnv) (id : str) (h : Host) : option UnionRuntimeState :=
  i ← hex_to_hash_strict id;
  match read_union_runtime_state (store_ (h_daemon h)) (re_union_io env) i with
  | Ok us => Some us
  | Err _ => None
  end.

(** C6. Whatever the handlers of the runtimes do meanwhile, a restore that
    returns leaves no restore pending, and in one of four states: nothing was
    frozen for good; the old process group was frozen and killed and the
    runtime is at the target generation, exactly when it succeeds; the old
    group was frozen and runs again as the active one; or the new generation
    became active although the restore failed, and the group resumed is the new
    one. *)
Theorem restore_outcome env id h h' sent res us old gen :
  restore_gaps env -> requested_state env id h = Some us ->
  runtime_at (us_runtime_id us) (at_rest old gen) h ->
  restore_runtime blake3 env id h = Some (Parsed (h', sent, res)) ->
  runtime_at (us_runtime_id us) (over old gen (u64 (runtime_generation us + 1)) sent (rr_success res)) h'.
Proof.
  intros Hgaps Hus Hrest Hrun. unfold restore_runtime in Hrun. unfold requested_state in Hus.
  assert (forall rs, rr_success rs = false -> runtime_at (us_runtime_id us)
    (over old gen (u64 (runtime_generation us + 1)) [] (rr_success rs)) h) as Href.
  { intros rs ->. destruct Hrest as (r & Er & Ep & Eo & Eg). exists r. split; [done|]. split; [done|].
    apply EndRefused; auto. }
  destruct (pc_supported _); [injection Hrun as <- <- <-; by apply Href|].
  destruct (hex_to_hash_strict id) as [i|]; [|done]. cbn [mbind option_bind] in Hus.
  destruct (read_union_runtime_state _ _ _) as [us0|e]; [injection Hus as ->|done].
  destruct (template_status _ _ _) as [ts|]; [|injection Hrun as <- <- <-; by apply Href].
  destruct (negb _); [injection Hrun as <- <- <-; by apply Href|].
  destruct (branch_by_name _ _) as [bid|]; [|injection Hrun as <- <- <-; by apply Href].
  case_decide; [injection Hrun as <- <- <-; by apply Href|].
  do 2 (destruct (negb _); [injection Hrun as <- <- <-; by apply Href|]).
  by eapply freeze_end.
Qed.

End restore.

(** ** Two races *)

(** A runtime and a template of it. *)
Definition standing (rid : str) (r : Runtime) (tid : str) (s : Supervisor) : Prop :=
  runtimes s !! rid = Some r /\ exists t, templates s !! tid = Some t /\ tm_runtime t = rid.

Lemma standing_disarm rid r r' tid keep k s :
  standing rid r tid s -> standing rid r' tid (put_runtime rid r' (disarm keep k s)).
Proof.
  intros [Hr (t & Ht & Hrt)]. split; [simpl; apply lookup_insert_eq|].
  unfold disarm. destruct k as [|c k]; [by exists t|].
  destruct (templates s !! (c :: k)) as [u|] eqn:E; simpl; [|by exists t].
  destruct (decide (c :: k = tid)) as [<-|Hne]; [|rewrite lookup_insert_ne by done; by exists t].
  rewrite lookup_insert_eq. eexists. split; [done|]. simpl. congruence.
Qed.

Lemma begin_step env rid tid target r s :
  standing rid r tid s -> (0 < rt_pgid r)%Z -> pc_freeze env (rt_pgid r) = None ->
  exists s', exec_op env (OpBeginRestore (mkIntent rid tid target)) s =
      (s', [Signalled (Freeze (rt_pgid r)); Began tid target]) /\
    standing rid (with_restore (mkPendingRestore true tid target false 0) r) tid s'.
Proof.
  intros [Hr (t & Ht & Hrt)] Hpos%Z.ltb_lt Hfr. cbn [exec_op]. unfold begin_restore. cbn [in_runtime in_template in_target].
  rewrite Hr, Ht, bool_decide_eq_true_2 by done. cbn [negb]. rewrite Hpos, Hfr.
  eexists. split; [done|]. split; simpl; [by rewrite lookup_insert_eq|].
  rewrite lookup_insert_eq. by eexists.
Qed.

Lemma abort_step env rid tid r s :
  standing rid r tid s -> (0 < rt_pgid r)%Z ->
  exists s' p, exec_op env (OpAbortRestore rid) s = (s', [Signalled (Resume (rt_pgid r))]) /\
    standing rid (with_restore p r) tid s'.
Proof.
  intros Hs Hpos%Z.ltb_lt. pose proof Hs as [Hr _]. cbn [exec_op]. unfold abort_restore. rewrite Hr, Hpos.
  eexists _, _. split; [done|]. by eapply standing_disarm.
Qed.

Lemma ready_step env rid tid token pid pgid target r s :
  standing rid r tid s -> token_ok r token = true ->
  has_pending_restore (rt_restore r) && (restore_target_generation (rt_restore r) =? target) = true ->
  exists s', exec_op env (OpGenerationReady rid token pid pgid target) s = (s', [Activated rid pgid target]) /\
    standing rid (with_restore (mkPendingRestore false [] target true (rt_pgid r)) (with_active pid pgid target r)) tid s'.
Proof.
  intros Hs Htok [Hp Hg]%andb_true_iff. pose proof Hs as [Hr _]. cbn [exec_op]. unfold generation_ready.
  rewrite Hr, Htok, Hp, Hg. cbn [negb orb]. eexists. split; [done|].
  apply N.eqb_eq in Hg. rewrite Hg. by eapply standing_disarm.
Qed.

Lemma publish_none_step env rid tid r s :
  standing rid r tid s -> has_pending_restore (rt_restore r) = false ->
  exec_op env (OpPublishRestore rid) s = (s, []).
Proof. intros [Hr _] Hp. cbn [exec_op]. unfold publish_restore. by rewrite Hr, Hp. Qed.

(** A ready call is matched with a pending restore by its generation only,
    and restoring the same state again asks for the same generation: the child
    of an aborted attempt, reporting late, is taken for the next attempt's,
    before the file system is rolled back. The release then fails, and the
    abort resumes the child's group; the group frozen for the attempt stays
    stopped. *)
Theorem late_ready_is_honoured env s rid tid r t token child_pid child target :
  runtimes s !! rid = Some r -> templates s !! tid = Some t -> tm_runtime t = rid ->
  (0 < rt_pgid r)%Z -> (0 < child)%Z -> pc_freeze env (rt_pgid r) = None -> token_ok r token = true ->
  let i := mkIntent rid tid target in
  let calls := [(env, OpBeginRestore i); (env, OpAbortRestore rid);     (* the first attempt *)
                (env, OpBeginRestore i);                                (* the second *)
                (env, OpGenerationReady rid token child_pid child target);
                (env, OpPublishRestore rid); (env, OpAbortRestore rid)] in
  (run_ops calls s).2 =
    [Signalled (Freeze (rt_pgid r)); Began tid target; Signalled (Resume (rt_pgid r));
     Signalled (Freeze (rt_pgid r)); Began tid target; Activated rid child target;
     Signalled (Resume child)] /\
  rt_pgid <$> runtimes (run_ops calls s).1 !! rid = Some child.
Proof.
  intros Hr Ht Hrt Hpos Hchild Hfr Htok. cbv zeta. cbn [run_ops].
  assert (standing rid r tid s) as S0 by (split; [done|by exists t]).
  edestruct (begin_step env rid tid target r s S0 Hpos Hfr) as (s1 & -> & S1).
  edestruct (abort_step env rid tid _ s1 S1 Hpos) as (s2 & p & -> & S2).
  edestruct (begin_step env rid tid target _ s2 S2 Hpos Hfr) as (s3 & -> & S3).
  edestruct (ready_step env rid tid token child_pid child target _ s3 S3 Htok (N.eqb_refl target)) as (s4 & -> & S4).
  rewrite (publish_none_step env rid tid _ s4 S4 eq_refl).
  edestruct (abort_step env rid tid _ s4 S4 Hchild) as (s5 & p5 & -> & S5). split; [done|].
  cbn [fst]. by rewrite (proj1 S5).
Qed.

(** Dropping a template does not take it out of the restores: it still
    counts as live and a restore of it begins and is published, but its next
    poll is told to exit and the record goes, so no generation will report. *)
Theorem dropped_template_is_restored env s rid tid r t target token :
  runtimes s !! rid = Some r -> templates s !! tid = Some t -> tm_runtime t = rid -> tid <> [] ->
  has_pending_restore (rt_restore r) = false -> (0 < rt_pgid r)%Z -> pc_freeze env (rt_pgid r) = None ->
  token_ok r token = true ->
  let dropped := (exec_op env (OpDrop tid) s).1 in
  let calls := [(env, OpBeginRestore (mkIntent rid tid target)); (env, OpPublishRestore rid);
                (env, OpPoll tid token)] in
  template_status env tid dropped = template_status env tid s /\
  (run_ops calls dropped).2 =
    [Signalled (Freeze (rt_pgid r)); Began tid target; Published tid; HandedDrop tid] /\
  templates (run_ops calls dropped).1 !! tid = None.
Proof.
  intros Hr Ht Hrt Hne Hp Hpos%Z.ltb_lt Hfr Htok. cbv zeta. destruct tid as [|c tid]; [done|].
  set (r1 := with_templates (filter (fun x => x <> c :: tid) (rt_templates r))
    (if decide (rt_pending_template r = c :: tid) then [] else rt_pending_template r) r).
  assert ((exec_op env (OpDrop (c :: tid)) s).1 =
    put_runtime rid r1 (put_template (c :: tid) (with_dropped t) s)) as ->.
  { cbn [exec_op fst]. unfold drop_template. rewrite Ht, Hrt, Hr, Hp. done. }
  set (s1 := put_runtime rid r1 _).
  assert (templates s1 !! (c :: tid) = Some (with_dropped t)) as Ht1 by apply lookup_insert_eq.
  assert (runtimes s1 !! rid = Some r1) as Hr1 by apply lookup_insert_eq.
  split; [unfold template_status; by rewrite Ht, Ht1|].
  cbn [run_ops exec_op]. unfold begin_restore. cbn [in_runtime in_template in_target].
  rewrite Hr1, Ht1, bool_decide_eq_true_2 by done. cbn [negb].
  change (rt_pgid r1) with (rt_pgid r). rewrite Hpos, Hfr. cbn [is_ok].
  set (s2 := put_template _ _ (put_runtime _ _ s1)).
  assert (runtimes s2 !! rid = Some (with_restore (mkPendingRestore true (c :: tid) target false 0) r1)) as Hr2
    by apply lookup_insert_eq.
  assert (templates s2 !! (c :: tid) = Some (with_hand_off (mkHandOff true false false target) (with_dropped t))) as Ht2
    by apply lookup_insert_eq.
  unfold publish_restore, driven_template. rewrite Hr2. cbn [with_restore rt_restore has_pending_restore restore_template_id negb orb].
  rewrite bool_decide_eq_false_2 by done. rewrite Ht2. cbn [with_hand_off tm_hand_off restore_pending negb orb tm_runtime with_dropped].
  rewrite bool_decide_eq_true_2 by done. cbn [negb is_ok].
  set (s3 := put_template _ _ s2).
  assert (templates s3 !! (c :: tid) = Some (with_hand_off (mkHandOff true true false target) (with_dropped t))) as Ht3
    by apply lookup_insert_eq.
  unfold template_poll. rewrite Ht3. cbn [with_hand_off tm_runtime with_dropped tm_dropped].
  change (runtimes s3) with (runtimes s2). rewrite Hrt, Hr2.
  change (token_ok _ token) with (token_ok r token). rewrite Htok. cbn [negb fst snd].
  split; [done|]. simpl. apply lookup_delete_eq.
Qed.

(** ** Snapshots *)

(** When the checkpoint at a boundary fails after the boundary's waiter has
    timed out, the snapshot ends without clearing the pending one: every later
    snapshot of the runtime is refused as one already in progress. *)
Theorem failed_checkpoint_wedges_snapshots blake3 env q st boundary_id h r :
  match branch_by_name_locked (h_daemon h) (rs_branch st) with
  | None => True
  | Some bid => Checkpoint.ok (checkpoint_context blake3 (se_checkpoint env) bid (name_of (h_daemon h) bid)
                  (snapshot_label q) (h_daemon h)).2 = false
  end ->
  gap_calls (se_release env) = true ->
  runtimes (h_sup h) !! sq_runtime q = Some r -> has_pending_snapshot (rt_snapshot r) = true ->
  boundaries (h_sup (between (se_release env) h)) !! boundary_id = None ->
  let '(h', res) := snapshot_at_boundary blake3 env q st boundary_id h in
  sr_ok res = false /\
  forall q', sq_runtime q' = sq_runtime q ->
    (begin_snapshot q' (h_sup h')).2 = Err (lit "snapshot already in progress").
Proof.
  intros Hbad Hg Hr Hp Hgone. unfold snapshot_at_boundary.
  destruct (gap_follows _ h Hg _ r Hr) as (r' & Hr' & _ & Hp'). rewrite Hp in Hp'.
  assert (forall msg d, let '(h', res) := (with_sup (release_boundary_with_error boundary_id msg
      (h_sup (between (se_release env) (with_daemon d h)))).1 (between (se_release env) (with_daemon d h)),
      snapshot_failed (sq_runtime q) msg) in
    sr_ok res = false /\ forall q', sq_runtime q' = sq_runtime q ->
    (begin_snapshot q' (h_sup h')).2 = Err (lit "snapshot already in progress")) as Hend.
  { intros msg d. split; [done|]. intros q' Eq. unfold release_boundary_with_error.
    change (h_sup (between (se_release env) (with_daemon d h))) with (h_sup (between (se_release env) h)).
    rewrite Hgone. cbn [fst with_sup h_sup]. unfold begin_snapshot. by rewrite Eq, Hr', Hp'. }
  destruct (branch_by_name_locked _ _) as [bid|].
  - destruct (checkpoint_context _ _ _ _ _ _) as [d cp]. cbn [snd] in Hbad. rewrite Hbad. cbn [negb].
    apply (Hend (cr_error cp) d).
  - apply (Hend (lit "unknown branch") (h_daemon h)).
Qed.

(** What is published of a template; handlers leave it alone. *)
Definition keeps_published (s s' : Supervisor) : Prop :=
  forall (tid : str) t', templates s' !! tid = Some t' ->
    exists t, templates s !! tid = Some t /\ tm_published t' = tm_published t /\
      tm_union_state t' = tm_union_state t /\ tm_fs_commit t' = tm_fs_commit t.

Lemma keeps_published_refl s s' : templates s' = templates s -> keeps_published s s'.
Proof. intros E tid t H. rewrite E in H. by exists t. Qed.

Lemma keeps_published_put s s' (tid : str) t0 t :
  templates s !! tid = Some t0 -> templates s' = <[tid := t]> (templates s) ->
  tm_published t = tm_published t0 -> tm_union_state t = tm_union_state t0 ->
  tm_fs_commit t = tm_fs_commit t0 -> keeps_published s s'.
Proof.
  intros H0 E P1 P2 P3 k x H. rewrite E in H.
  apply lookup_insert_Some in H as [[<- <-]|[_ H]]; [by exists t0|by exists x].
Qed.

Lemma handler_keeps env op s : handler_call op = true -> keeps_published s (exec_op env op s).1.
Proof.
  destruct op; cbn [handler_call exec_op fst]; try done; intros _.
  - apply keeps_published_refl. unfold register_runtime, make_runtime_id.
    repeat (case_match; simplify_eq); done.
  - apply keeps_published_refl. unfold observe_boundary, make_boundary_id. by repeat case_match.
  - unfold template_ready. destruct (templates s !! tid) eqn:E; [|by apply keeps_published_refl].
    repeat case_match; try (by apply keeps_published_refl). by eapply keeps_published_put.
  - destruct (template_poll tid token s) as [s' r] eqn:E. cbn [fst]. revert E. unfold template_poll.
    destruct (templates s !! tid) as [t|] eqn:E; [|intros [= <- _]; by apply keeps_published_refl].
    destruct (runtimes s !! _); [|intros [= <- _]; by apply keeps_published_refl].
    destruct (negb _); [intros [= <- _]; by apply keeps_published_refl|].
    destruct (tm_dropped t); [|destruct (_ && _)]; intros [= <- _].
    + intros k x. simpl. intros [_ H]%lookup_delete_Some. by exists x.
    + by eapply keeps_published_put.
    + by apply keeps_published_refl.
  - destruct (generation_ready rid token pid pgid generation s) as [s' r] eqn:E. cbn [fst]. revert E.
    unfold generation_ready. repeat case_match; intros [= <- _]; try (by apply keeps_published_refl).
    unfold disarm. repeat case_match; try (by apply keeps_published_refl). by eapply keeps_published_put.
  - unfold drop_template. destruct (templates s !! tid) eqn:E; [|by apply keeps_published_refl].
    repeat case_match; try (by apply keeps_published_refl); by eapply keeps_published_put.
  - destruct (wait_boundary_action bid s) as [s' r] eqn:E. cbn [fst]. apply keeps_published_refl.
    revert E. unfold wait_boundary_action. case_match; by intros [= <- _].
Qed.

Lemma keeps_published_trans s1 s2 s3 : keeps_published s1 s2 -> keeps_published s2 s3 -> keeps_published s1 s3.
Proof.
  intros H1 H2 tid t (t2 & E2 & A & B & C)%H2. apply H1 in E2 as (t1 & E1 & A1 & B1 & C1).
  exists t1. split_and!; congruence.
Qed.

Lemma gap_keeps g h : gap_calls g = true -> keeps_published (h_sup h) (h_sup (between g h)).
Proof.
  unfold gap_calls, between. cbn [h_sup]. generalize (h_sup h). clear h.
  induction (g_calls g) as [|[env op] ops IH]; intros s; cbn [forallb run_ops snd];
    [by intros _; apply keeps_published_refl|].
  intros [Hop Hops]%andb_true_iff. pose proof (handler_keeps env op s Hop) as H1.
  destruct (exec_op env op s) as [s1 evs]. specialize (IH s1 Hops). destruct (run_ops ops s1) as [s2 more].
  by eapply keeps_published_trans.
Qed.

Lemma cancel_templates rid h : templates (h_sup (cancel rid h)) = templates (h_sup h).
Proof. unfold cancel, cancel_snapshot. cbn [with_sup h_sup]. by repeat case_match. Qed.

(** The file system loses no object, and nothing that was durable. *)
Definition files_keep (g : Gap) : Prop :=
  forall d, retains (store_ d) (store_ (g_files g d)) /\
    forall x, durable (store_ d) x -> durable (store_ (g_files g d)) x.

(** C26. A snapshot that succeeds has published the union state it names: it
    reads back as the state of that boundary - the runtime, its generation,
    branch, template and the commit of the checkpoint - is durable, and the
    template carries its id and commit for as long as it exists, whatever the
    handlers do meanwhile. *)
Theorem published_snapshot_reads_back blake3 U env q st fs_commit tid h h' res :
  let us := snapshot_state q st fs_commit tid (se_now env) in
  let body := serialize_union_runtime_state us in
  store_inv blake3 (store_ (h_daemon h)) ->
  (forall k o, disk (store_ (h_daemon h)) !! k = Some o -> U (f_content o)) ->
  collision_free blake3 U -> U (lit "blob" ++ blob_body body) ->
  N.of_nat (length body) < 2 ^ 63 - 12 -> union_fits us ->
  gap_calls (se_attach env) = true -> gap_calls (se_finish env) = true ->
  files_keep (se_attach env) -> files_keep (se_finish env) ->
  publish_snapshot blake3 env q st fs_commit tid h = (h', res) -> sr_ok res = true ->
  exists uh, sr_union_state res = hash_to_hex uh /\ sr_fs_commit res = fs_commit /\
    sr_template res = tid /\
    read_union_runtime_state (store_ (h_daemon h')) true uh = Ok (put_id (hash_to_hex uh) us) /\
    durable (store_ (h_daemon h')) uh /\
    forall t, templates (h_sup h') !! tid = Some t ->
      tm_published t = true /\ tm_union_state t = hash_to_hex uh /\ tm_fs_commit t = fs_commit.
Proof.
  intros us body Hi HU Hcf HUb Hl Hf Hga Hgf Ka Kf Hrun Hok. unfold publish_snapshot in Hrun. fold us in Hrun.
  destruct (write_union_runtime_state _ _ us _) as [[st1 us1] w] eqn:Ew.
  destruct w as [uh|e]; [|by injection Hrun as <- <-].
  apply (write_union_reads blake3 U) in Ew as [Hread ->]; try done.
  destruct (fsync_pending _ [uh] st1) as [st2 f] eqn:Ef.
  apply fsync_pending_spec in Ef as (Hd & _ & _ & _ & _ & _ & Hsync).
  destruct f as [u|e]; [|by injection Hrun as <- <-].
  destruct Hsync as [_ Hdur]. destruct (Hdur uh) as [Hdur' _]; [by apply list_elem_of_singleton|].
  set (h2 := between (se_attach env) _) in Hrun.
  unfold attach_union_state in Hrun.
  destruct (templates (h_sup h2) !! tid) as [t0|] eqn:Et; [|by injection Hrun as <- <-].
  cbn [RuntimeState.union_state_id] in Hrun.
  assert (union_state_id (put_id (hash_to_hex uh) us) = hash_to_hex uh) as Eid by (by destruct us).
  rewrite Eid in Hrun. injection Hrun as <- <-. clear Hok.
  set (h3 := with_sup _ h2). destruct (Ka (set_store st2 (set_store st1 (h_daemon h)))) as [Ka1 Ka2].
  destruct (Kf (h_daemon h3)) as [Kf1 Kf2].
  exists uh. split; [done|]. split; [done|]. split; [done|]. split; [|split].
  - unfold read_union_runtime_state in Hread |- *.
    destruct (read_blob st1 true uh) as [b|] eqn:Eb; [|done]. rewrite <- (read_blob_disk st1 st2) in Eb by done.
    apply (retains_read_blob _ _ _ _ Ka1) in Eb. apply (retains_read_blob _ _ _ _ Kf1) in Eb.
    cbn [cancel with_sup h_daemon between]. by rewrite Eb.
  - by apply Kf2, Ka2.
  - intros t Ht. rewrite cancel_templates in Ht. apply (gap_keeps _ h3 Hgf) in Ht as (t1 & Ht1 & -> & -> & ->).
    simpl in Ht1. rewrite lookup_insert_eq in Ht1. by injection Ht1 as <-.
Qed.

(** ** Witnesses *)

Definition demo_tree : Hash := vreplicate 32 "t"%char.
Definition demo_commit : Hash := vreplicate 32 "c"%char.
Definition demo_union : Hash := vreplicate 32 "u"%char.

(** The union state of the demo's template, and the commit it was taken at. *)
Definition demo_state : UnionRuntimeState :=
  mkUS 1 [] [] (lit "main") demo_commit [] demo_rid 1 demo_template (lit "live_fork") (lit "manual")
    (lit "cmd") [] 5 [].

Definition demo_store : ObjectStore :=
  set_disk (list_to_map
    [(demo_tree, mkFile (lit "tree" ++ serialize_tree_entries []) 5);
     (demo_commit, mkFile (lit "commit" ++ serialize_commit (mkCommit demo_tree [] 7 5 (lit "c") 1)) 5);
     (demo_union, mkFile (lit "blob" ++ blob_body (serialize_union_runtime_state demo_state)) 5)])
    (empty_store (lit "/s")).

Definition demo_host : Host :=
  mkHost (new_daemon demo_store (mkRefs {[lit "main" := ref_content demo_commit]} ∅) (new_router false false) 7)
    (run_ops demo_calls empty_supervisor).1.

Definition still : Gap := mkGap [] id.

(** The template takes the restore, its child reports. *)
Definition demo_wait : Gap :=
  mkGap (pair calm <$> [OpPoll demo_template demo_token; OpGenerationReady demo_rid demo_token 300 301 2]) id.

Definition demo_env : RestoreEnv :=
  mkRestoreEnv calm true reads_ok true true still still rb_env still demo_wait rb_env still still.

Definition demo_run : option (parse (Host * list Signal * RuntimeRestoreResult)) :=
  restore_runtime toy_blake3 demo_env (hash_to_hex demo_union) demo_host.

Lemma demo_signals :
  match demo_run with Some (Parsed (_, sent, res)) => Some (sent, rr_success res) | _ => None end =
  Some ([Freeze 201; Terminate 201], true).
Proof. vm_compute. reflexivity. Qed.

Lemma demo_requested :
  requested_state demo_env (hash_to_hex demo_union) demo_host = Some (put_id (hash_to_hex demo_union) demo_state).
Proof. vm_compute. reflexivity. Qed.

Lemma demo_rest : runtime_at demo_rid (at_rest 201 1) demo_host.
Proof. unfold runtime_at. eexists. split; [vm_compute; reflexivity|]. by split_and!. Qed.

Lemma restore_outcome_witness :
  match demo_run with
  | Some (Parsed (h', sent, res)) =>
      rr_success res = true /\ sent = [Freeze 201; Terminate 201] /\
      runtime_at demo_rid (over 201 1 2 sent (rr_success res)) h'
  | _ => False
  end.
Proof.
  pose proof demo_signals as Hs.
  destruct demo_run as [[[[h' sent] res]| |]|] eqn:E; try discriminate Hs.
  injection Hs as H1 H2.
  split; [exact H2|]. split; [exact H1|].
  assert (restore_gaps demo_env) as Hg by by split_and!.
  exact (restore_outcome toy_blake3 demo_env (hash_to_hex demo_union) demo_host h' sent res
    (put_id (hash_to_hex demo_union) demo_state) 201 1 Hg demo_requested demo_rest E).
Defined.

Definition demo_sup : Supervisor := h_sup demo_host.

Definition late_calls : list (ProcessEnv * sup_op) :=
  let i := mkIntent demo_rid demo_template 2 in
  pair calm <$> [OpBeginRestore i; OpAbortRestore demo_rid; OpBeginRestore i;
    OpGenerationReady demo_rid demo_token 300 301 2; OpPublishRestore demo_rid; OpAbortRestore demo_rid].

Lemma late_ready_is_honoured_witness :
  rt_pgid <$> runtimes (run_ops late_calls demo_sup).1 !! demo_rid = Some 301%Z.
Proof.
  edestruct (late_ready_is_honoured calm demo_sup demo_rid demo_template) with
    (token := demo_token) (child_pid := 300%Z) (child := 301%Z) (target := 2) as [_ H];
    [vm_compute; reflexivity|vm_compute; reflexivity|reflexivity|reflexivity|reflexivity|reflexivity|reflexivity|exact H].
Defined.

Lemma dropped_template_is_restored_witness :
  templates (run_ops (pair calm <$> [OpBeginRestore (mkIntent demo_rid demo_template 2);
    OpPublishRestore demo_rid; OpPoll demo_template demo_token])
    (exec_op calm (OpDrop demo_template) demo_sup).1).1 !! demo_template = None.
Proof.
  edestruct (dropped_template_is_restored calm demo_sup demo_rid demo_template) with
    (target := 2) (token := demo_token) as (_ & _ & H);
    [vm_compute; reflexivity|vm_compute; reflexivity|reflexivity|discriminate|reflexivity|reflexivity|reflexivity
    |reflexivity|exact H].
Defined.

(** The boundary's waiter gives up while the branch is looked up. *)
Definition wedge_env : SnapshotEnv :=
  mkSnapshotEnv calm still (mkGap (pair calm <$> [OpWaitAction (make_id "bd-" 1)]) id)
    (mkPublish (mkFlushFhs [] (fun _ => mkFlush true (no_faults 5))) ck_env) still (no_faults 5) all_sync_ok still still 5.

Definition wedge_request : SnapshotRequest := mkSnapshotRequest demo_rid (lit "manual") [] 1000.

(** A runtime of a branch that is gone, at its boundary. *)
Definition wedge_host : Host :=
  mkHost (h_daemon demo_host) (run_ops (take 3 demo_calls) empty_supervisor).1.

Definition wedge_status : RuntimeStatus :=
  mkRuntimeStatus demo_rid (lit "gone") 200 201 1 (lit "cmd") true MetadataOnly [].

Lemma failed_checkpoint_wedges_snapshots_witness :
  sr_ok (snapshot_at_boundary toy_blake3 wedge_env wedge_request wedge_status (make_id "bd-" 1) wedge_host).2 = false /\
  (begin_snapshot wedge_request (h_sup (snapshot_at_boundary toy_blake3 wedge_env wedge_request wedge_status
    (make_id "bd-" 1) wedge_host).1)).2 = Err (lit "snapshot already in progress").
Proof.
  pose proof (failed_checkpoint_wedges_snapshots toy_blake3 wedge_env wedge_request wedge_status (make_id "bd-" 1)
    wedge_host) as H.
  destruct (snapshot_at_boundary _ _ _ _ _ _) as [h' res]. cbn [fst snd].
  edestruct H as [H1 H2].
  - vm_compute. exact I.
  - reflexivity.
  - vm_compute. reflexivity.
  - reflexivity.
  - vm_compute. reflexivity.
  - split; [exact H1|]. apply H2. reflexivity.
Defined.

Definition snap_state : UnionRuntimeState :=
  snapshot_state wedge_request wedge_status demo_commit demo_template 5.

Definition snap_contents (c : bytes) : Prop := c = lit "blob" ++ blob_body (serialize_union_runtime_state snap_state).

Definition snap_host : Host := mkHost (set_store (empty_store (lit "/s")) (h_daemon demo_host)) demo_sup.

Definition snap_env : SnapshotEnv :=
  mkSnapshotEnv calm still still (mkPublish (mkFlushFhs [] (fun _ => mkFlush true (no_faults 5))) ck_env) still
    (no_faults 5) all_sync_ok demo_wait still 5.

Definition snap_run : Host * RuntimeSnapshotResult :=
  publish_snapshot toy_blake3 snap_env wedge_request wedge_status demo_commit demo_template snap_host.

Lemma published_snapshot_reads_back_witness :
  exists uh, sr_union_state snap_run.2 = hash_to_hex uh /\
    read_union_runtime_state (store_ (h_daemon snap_run.1)) true uh = Ok (put_id (hash_to_hex uh) snap_state).
Proof.
  edestruct (published_snapshot_reads_back toy_blake3 snap_contents snap_env wedge_request wedge_status demo_commit
    demo_template snap_host snap_run.1 snap_run.2) as (uh & H1 & _ & _ & H2 & _).
  - split; simpl; [done|by intros h []|set_solver].
  - done.
  - by intros a b -> ->.
  - reflexivity.
  - vm_compute. reflexivity.
  - by split.
  - reflexivity.
  - reflexivity.
  - split; [reflexivity|by intros x Hx].
  - split; [reflexivity|by intros x Hx].
  - apply surjective_pairing.
  - vm_compute. reflexivity.
  - exists uh. split; [exact H1|exact H2].
Defined.
