(* ===== verification/FuseAdapter.v ===== *)
(** The Linux file system callbacks (cas/platform/linux/fuse_adapter.cpp,
    cas/platform/linux/fuse_read_buffer.cpp).

    A path call asks the bootstrap for its paths, resolves the caller's branch
    and then works under that branch's mutex; a handle call works under the
    mutex of the handle's own branch. [br] is the context the call resolved,
    which may have been retired before the mutex was taken. Errors are positive
    [errno] values on the left. *)

From S2P Require Import Prelude Hashes WorkingTree WriteBuffer Codec ObjectStore TreeSerialize Refs Checkpoint BranchMerge Gc BranchRouter Handles Bootstrap Daemon.

Definition ENOENT : N := 2.
Definition EBADF : N := 9.
Definition ENOMEM : N := 12.
Definition EACCES : N := 13.
Definition EEXIST : N := 17.
Definition ENOTDIR : N := 20.
Definition EISDIR : N := 21.
Definition EINVAL : N := 22.
Definition ENOTTY : N := 25.
Definition ENOTEMPTY : N := 39.
Definition ESTALE : N := 116.

Definition S_IFREG : N := 32768.
Definition S_IFDIR : N := 16384.
Definition S_IFLNK : N := 40960.
Definition S_IFMT : N := 61440.

Definition perm_bits (mode : N) : N := N.land mode 4095.

(** [static_cast<uint64_t>] of an [off_t]. *)
Definition u64z (z : Z) : N := Z.to_N (z mod 2 ^ 64).

Record Caller : Type := mkCaller { uid : N; gid : N }.
Record Attr : Type := mkAttr { st_mode : N; st_nlink : N; st_uid : N; st_gid : N; st_size : Z }.

(** Outcomes of the calls an operation makes. *)
Record FuseEnv : Type := mkFuse {
  fe_caller : Caller;
  fe_open : OpenEnv;
  fe_write : WriteEnv;
  fe_ref : ReadEnv;
  fe_flush : FlushEnv;
  fe_read : bool;
  fe_order : list N;          (** iteration order of the handle table *)
  fe_mem : bool * bool        (** the two [malloc]s of a buffered read *)
}.

(** ** The fast control file *)

Definition AGENTVFS_FAST_CONTROL_PATH : str := lit "/.agentvfs-control".

Definition is_fast_control_path (path : str) : bool := bool_decide (path = AGENTVFS_FAST_CONTROL_PATH).
Definition is_fast_control_descendant (path : str) : bool :=
  has_prefix (AGENTVFS_FAST_CONTROL_PATH ++ [slash]) path.
Definition touches_fast_control_path (path : str) : bool :=
  is_fast_control_path path || is_fast_control_descendant path.
Definition fast_control_mutation_error (path : str) : N :=
  if is_fast_control_descendant path then ENOTDIR else EACCES.

Definition fast_control_attr (c : Caller) : Attr := mkAttr (N.lor S_IFREG 384) 1 (uid c) (gid c) 0.

(** ** Branch contexts *)

Definition branch_for_fh (d : Daemon) (s : FhState) : N := branch_or_main d (fh_branch s).

Definition is_retired (d : Daemon) (br : N) : bool :=
  match heap d !! br with Some b => retired b | None => true end.

Definition lookup_at (d : Daemon) (br : N) (path : str) : option WorkingTreeEntry := wt_lookup (wt_of d br) path.

Definition insert_at (br : N) (path : str) (e : WorkingTreeEntry) (d : Daemon) : Daemon :=
  set_wt br (wt_insert (wt_of d br) path e) d.

Section adapter.
Context (blake3 : bytes -> Hash).

(** ** Attributes *)

Definition payload_attr (env : FuseEnv) (hash : Hash) (a : Attr) (d : Daemon) : Daemon * (N + Attr) :=
  if decide (hash = ZERO_HASH) then (d, inr a)
  else
    match blob_payload_size (fe_open env) hash (store_ d) with
    | (st, inl err) => (set_store st d, inl err)
    | (st, inr n) => (set_store st d, inr (mkAttr (st_mode a) (st_nlink a) (st_uid a) (st_gid a) (i64 n)))
    end.

Definition with_size (size : Z) (a : Attr) : Attr := mkAttr (st_mode a) (st_nlink a) (st_uid a) (st_gid a) size.

(** A file or a link: the size an open handle shows, or the stored one. *)
Definition leaf_attr (env : FuseEnv) (path : str) (fi : option N) (s : option FhState) (br : N)
    (entry : WorkingTreeEntry) (mode : N) (d : Daemon) : Daemon * (N + Attr) :=
  let a := mkAttr mode 1 (uid (fe_caller env)) (gid (fe_caller env)) 0 in
  match s with
  | Some s =>
      match write_buf s with
      | Some w => (d, inr (with_size (i64 (effective_size w (base_size s))) a))
      | None => payload_attr env (e_hash entry) a d
      end
  | None =>
      match payload_attr env (e_hash entry) a d with
      | (d', inl err) => (d', inl err)
      | (d', inr a') =>
          match fi with
          | Some _ => (d', inr a')
          | None =>
              let eff := dirty_fh_size_for_path d' (fe_order env) path br in
              (d', inr (if (0 <=? eff)%Z then with_size eff a' else a'))
          end
      end
  end.

(** [fi]: the handle number, when the kernel passes one. *)
Definition cas_getattr (env : FuseEnv) (path : str) (fi : option N) (br0 : N) (d : Daemon) :
    Daemon * (N + Attr) :=
  let c := fe_caller env in
  if is_fast_control_path path then (d, inr (fast_control_attr c))
  else if is_fast_control_descendant path then (d, inl ENOTDIR)
  else if is_hidden path then (d, inl ENOENT)
  else if decide (path = [slash]) then (d, inr (mkAttr (N.lor S_IFDIR 493) 2 (uid c) (gid c) 0))
  else
    let s := fi ≫= get_fh d in
    let br := match s with Some s => branch_for_fh d s | None => br0 end in
    if is_retired d br then (d, inl ESTALE)
    else if match s with Some s => stale s | None => false end then (d, inl ESTALE)
    else
      match lookup_at d br path with
      | None => (d, inl ENOENT)
      | Some entry =>
          match e_kind entry with
          | Blob => leaf_attr env path fi s br entry (N.lor S_IFREG (perm_bits (e_mode entry))) d
          | Tree => (d, inr (mkAttr (N.lor S_IFDIR (perm_bits (e_mode entry))) 2 (uid c) (gid c) 0))
          | Symlink => leaf_attr env path fi s br entry (N.lor S_IFLNK 511) d
          | _ => (d, inl ENOENT)
          end
      end.

(** ** Opening *)

Inductive access_mode : Type := O_RDONLY | O_WRONLY | O_RDWR.
#[global] Instance access_mode_eq_dec : EqDecision access_mode.
Proof. solve_decision. Defined.

Record OpenFlags : Type := mkFlags { accmode : access_mode; o_trunc : bool; o_append : bool }.

Definition view_valid (v : BlobView) : bool := (0 <=? fd_ v)%Z.

Definition pinned (env : FuseEnv) (br : N) (d : Daemon) : Hash :=
  default ZERO_HASH (read_ref (fe_ref env) (name_of d br) (refs_ d)).

Definition truncated_handle (path : str) (br : N) (pin blob : Hash) : FhState :=
  mkFh path br pin blob 0 [] true (Some (new_write_buffer blob 0)) false empty_view false.

(** The new handle's number; the control file has none. *)
Definition cas_open (env : FuseEnv) (path : str) (flags : OpenFlags) (br : N) (d : Daemon) :
    Daemon * (N + option N) :=
  if is_fast_control_path path then
    if negb (bool_decide (accmode flags = O_RDONLY)) then (d, inl EACCES)
    else if o_trunc flags || o_append flags then (d, inl EACCES)
    else (d, inr None)
  else if is_fast_control_descendant path then (d, inl ENOTDIR)
  else if is_hidden path then (d, inl ENOENT)
  else if is_retired d br then (d, inl ESTALE)
  else
    match lookup_at d br path with
    | None => (d, inl ENOENT)
    | Some entry =>
        if negb (bool_decide (e_kind entry = Blob)) then (d, inl EISDIR)
        else
          let finish d1 s := let '(d2, fh) := allocate_fh s d1 in (d2, inr (Some fh)) in
          if o_trunc flags then
            let '(st, blob) := write_blob blake3 [] (fe_write env) (store_ d) in
            let d1 := insert_at br path (mkEntry Blob blob (e_mode entry)) (set_store st d) in
            finish d1 (truncated_handle path br (pinned env br d1) blob)
          else
            let blob := e_hash entry in
            let opened_blob :=
              if decide (blob = ZERO_HASH) then (store_ d, inr empty_view)
              else open_blob (fe_open env) blob (store_ d) in
            match opened_blob with
            | (st, inl err) => (set_store st d, inl err)
            | (st, inr view) =>
                let size := payload_size_ view in
                let d1 := set_store st d in
                let eligible := negb (bool_decide (accmode flags = O_WRONLY)) && view_valid view in
                finish d1 (mkFh path br (pinned env br d1) blob size [] false
                  (Some (new_write_buffer blob size)) false (if eligible then view else empty_view) eligible)
            end
    end.

Definition cas_create (env : FuseEnv) (path : str) (mode : N) (br : N) (d : Daemon) : Daemon * (N + N) :=
  if touches_fast_control_path path then (d, inl (fast_control_mutation_error path))
  else if is_hidden path then (d, inl EACCES)
  else if is_retired d br then (d, inl ESTALE)
  else
    let '(st, empty) := write_blob blake3 [] (fe_write env) (store_ d) in
    let d1 := insert_at br path (mkEntry Blob empty (N.lor (perm_bits mode) S_IFREG)) (set_store st d) in
    let '(d2, fh) := allocate_fh (truncated_handle path br (pinned env br d1) empty) d1 in
    (d2, inr fh).

(** ** Calls on a handle *)

(** The checks every one of them makes, under the mutex of the handle's branch. *)
Definition with_handle {A} (fh : N) (d : Daemon) (body : N -> FhState -> Daemon * (N + A)) : Daemon * (N + A) :=
  match get_fh d fh with
  | None => (d, inl EBADF)
  | Some s =>
      let br := branch_for_fh d s in
      if is_retired d br then (d, inl ESTALE)
      else if stale s then (d, inl ESTALE)
      else body br s
  end.

(** A handle has a buffer from the start; without one the code would crash. *)
Definition buffer_of (s : FhState) : WriteBuffer := default (new_write_buffer ZERO_HASH 0) (write_buf s).

(** The base cache is filled, then the overlay read. *)
Definition overlay_read (env : FuseEnv) (fh size : N) (offset : Z) (s : FhState) (d : Daemon) : Daemon * bytes :=
  let s1 := ensure_base_cache (store_ d) (fe_read env) s in
  (put_fh fh s1 d, wb_read (buffer_of s1) (u64z offset) size (base_cache s1)).

Definition cas_read (env : FuseEnv) (fh size : N) (offset : Z) (d : Daemon) : Daemon * (N + bytes) :=
  with_handle fh d (fun _ s => let '(d1, data) := overlay_read env fh size offset s d in (d1, inr data)).

Definition cas_write (fh : N) (data : bytes) (offset : Z) (d : Daemon) : Daemon * (N + N) :=
  with_handle fh d (fun _ s =>
    let s1 := forfeit_fd s in
    (put_fh fh (set_buf (wb_write (buffer_of s1) (u64z offset) data) s1) d, inr (len data))).

Definition cas_flush (env : FuseEnv) (fh : N) (d : Daemon) : Daemon * (N + unit) :=
  with_handle fh d (fun br s =>
    let '(st, wt, s1, ok) := flush_handle blake3 (fe_flush env) s (store_ d) (wt_of d br) in
    (put_fh fh s1 (set_wt br wt (set_store st d)), if ok : bool then inr () else inl EIO)).

Definition cas_fsync := cas_flush.

Definition cas_release (env : FuseEnv) (fh : N) (d : Daemon) : Daemon := release_fh fh (cas_flush env fh d).1.

(** ** Buffered and zero-copy reads *)

Inductive read_reply : Type :=
| FdReply (fd : Z) (pos count : N)
| MemReply (data : bytes).

Definition make_fd_read_buf (mem : bool) (view : BlobView) (requested : N) (offset : Z) : N + read_reply :=
  if negb (view_valid view) then inl EIO
  else if (offset <? 0)%Z then inl EINVAL
  else
    let logical := u64z offset in
    let bounded := N.min logical (payload_size_ view) in
    let remaining := if logical <? payload_size_ view then payload_size_ view - logical else 0 in
    if mem then inr (FdReply (fd_ view) (N.of_nat kPayloadOffset + bounded) (N.min remaining requested))
    else inl ENOMEM.

Definition make_overlay_read_buf (env : FuseEnv) (fh size : N) (offset : Z) (s : FhState) (d : Daemon) :
    Daemon * (N + read_reply) :=
  if (offset <? 0)%Z then (d, inl EINVAL)
  else if negb (fe_mem env).1 then (d, inl ENOMEM)
  else if negb (bool_decide (size = 0)) && negb (fe_mem env).2 then (d, inl ENOMEM)
  else let '(d1, data) := overlay_read env fh size offset s d in (d1, inr (MemReply data)).

Definition cas_read_buf (env : FuseEnv) (fh size : N) (offset : Z) (d : Daemon) : Daemon * (N + read_reply) :=
  with_handle fh d (fun _ s =>
    if (offset <? 0)%Z then (d, inl EINVAL)
    else if fd_read_eligible s then (d, make_fd_read_buf (fe_mem env).1 (blob_view s) size offset)
    else make_overlay_read_buf env fh size offset s d).

(** ** Directories and paths *)

(** Neither the mutex nor [retired]: the tree has its own lock. *)
Definition cas_readdir (path : str) (br : N) (d : Daemon) : N + list str :=
  if is_hidden path then inl ENOENT
  else
    let listing :=
      inr ([lit "."; lit ".."] ++
           filter (fun n => n <> lit ".agentvfs-store" /\ n <> lit ".agentvfs-control")
             ((fun x => base_name x.1) <$> list_dir (wt_of d br) path)) in
    if decide (path = [slash]) then listing
    else
      match lookup_at d br path with
      | Some e => if decide (e_kind e = Tree) then listing else inl ENOENT
      | None => inl ENOENT
      end.

Definition resize (n : N) (data : bytes) : bytes := Spec.ftruncate data n.

Definition cas_truncate (env : FuseEnv) (path : str) (length : Z) (fi : option N) (br : N) (d : Daemon) :
    Daemon * (N + unit) :=
  if touches_fast_control_path path then (d, inl (fast_control_mutation_error path))
  else if is_hidden path then (d, inl EACCES)
  else
    match fi with
    | Some fh =>
        with_handle fh d (fun _ s =>
          let s1 := forfeit_fd s in
          (put_fh fh (set_buf (wb_truncate (buffer_of s1) (u64z length)) s1) d, inr ()))
    | None =>
        if is_retired d br then (d, inl ESTALE)
        else
          match lookup_at d br path with
          | None => (d, inl ENOENT)
          | Some entry =>
              if negb (bool_decide (e_kind entry = Blob)) then (d, inl EISDIR)
              else
                let blob := if decide (e_hash entry = ZERO_HASH) then []
                            else default [] (read_blob (store_ d) (fe_read env) (e_hash entry)) in
                let '(st, new_blob) := write_blob blake3 (resize (u64z length) blob) (fe_write env) (store_ d) in
                (insert_at br path (mkEntry Blob new_blob (e_mode entry)) (set_store st d), inr ())
          end
    end.

Record AccessMask : Type := mkMask { want_r : bool; want_w : bool; want_x : bool }.

Definition F_OK : AccessMask := mkMask false false false.

Definition cas_access (path : str) (mask : AccessMask) (br : N) (d : Daemon) : N + unit :=
  if is_fast_control_path path then if want_w mask || want_x mask then inl EACCES else inr ()
  else if is_fast_control_descendant path then inl ENOTDIR
  else if is_hidden path then inl ENOENT
  else if decide (path = [slash]) then inr ()
  else
    match lookup_at d br path with
    | None => inl ENOENT
    | Some e =>
        if (want_r mask && negb (N.testbit (e_mode e) 8)) || (want_w mask && negb (N.testbit (e_mode e) 7)) ||
           (want_x mask && negb (N.testbit (e_mode e) 6))
        then inl EACCES else inr ()
    end.

(** The checks every changing path call makes. *)
Definition with_path (path : str) (br : N) (d : Daemon) (body : Daemon * (N + unit)) : Daemon * (N + unit) :=
  if touches_fast_control_path path then (d, inl (fast_control_mutation_error path))
  else if is_hidden path then (d, inl EACCES)
  else if is_retired d br then (d, inl ESTALE)
  else body.

Definition remove_at (br : N) (path : str) (d : Daemon) : Daemon := set_wt br (wt_remove (wt_of d br) path) d.

Definition cas_unlink (path : str) (br : N) (d : Daemon) : Daemon * (N + unit) :=
  with_path path br d
    match lookup_at d br path with
    | None => (d, inl ENOENT)
    | Some e => if decide (e_kind e = Tree) then (d, inl EISDIR) else (remove_at br path d, inr ())
    end.

Definition cas_rmdir (path : str) (br : N) (d : Daemon) : Daemon * (N + unit) :=
  with_path path br d
    match lookup_at d br path with
    | None => (d, inl ENOENT)
    | Some e =>
        if negb (bool_decide (e_kind e = Tree)) then (d, inl ENOTDIR)
        else if negb (bool_decide (list_dir (wt_of d br) path = [])) then (d, inl ENOTEMPTY)
        else (remove_at br path d, inr ())
    end.

Definition cas_mkdir (path : str) (mode : N) (br : N) (d : Daemon) : Daemon * (N + unit) :=
  with_path path br d
    (if decide (is_Some (lookup_at d br path)) then (d, inl EEXIST)
     else (insert_at br path (mkEntry Tree ZERO_HASH (N.lor (perm_bits mode) S_IFDIR)) d, inr ())).

(** [flags]: [RENAME_NOREPLACE] and the like. *)
Definition cas_rename (from to : str) (flags : N) (br : N) (d : Daemon) : Daemon * (N + unit) :=
  if touches_fast_control_path from || touches_fast_control_path to then (d, inl EACCES)
  else if is_hidden from || is_hidden to then (d, inl EACCES)
  else if is_retired d br then (d, inl ESTALE)
  else
    match lookup_at d br from with
    | None => (d, inl ENOENT)
    | Some e =>
        (set_wt br (if decide (e_kind e = Tree) then rename_dir (wt_of d br) from to
                    else rename_entry (wt_of d br) from to) d, inr ())
    end.

Definition cas_symlink (env : FuseEnv) (target linkpath : str) (br : N) (d : Daemon) : Daemon * (N + unit) :=
  with_path linkpath br d
    (if decide (is_Some (lookup_at d br linkpath)) then (d, inl EEXIST)
     else
       let '(st, blob) := write_blob blake3 target (fe_write env) (store_ d) in
       (insert_at br linkpath (mkEntry Symlink blob 41471) (set_store st d), inr ())).

(** What is copied into a buffer of [size] bytes, before the final NUL. *)
Definition cas_readlink (env : FuseEnv) (path : str) (size : N) (br : N) (d : Daemon) : N + bytes :=
  if is_fast_control_path path then inl EINVAL
  else if is_fast_control_descendant path then inl ENOTDIR
  else if is_hidden path then inl ENOENT
  else
    match lookup_at d br path with
    | None => inl ENOENT
    | Some e =>
        if negb (bool_decide (e_kind e = Symlink)) then inl EINVAL
        else
          match read_blob (store_ d) (fe_read env) (e_hash e) with
          | None => inl EIO
          | Some blob => inr (take (N.to_nat (N.min (u64 (size + 2 ^ 64 - 1)) (len blob))) blob)
          end
    end.

(** [utimens] and [chown] check that the path is there. *)
Definition cas_touch (path : str) (br : N) (d : Daemon) : N + unit :=
  if touches_fast_control_path path then inl (fast_control_mutation_error path)
  else if is_hidden path then inl ENOENT
  else match lookup_at d br path with None => inl ENOENT | Some _ => inr () end.

Definition cas_utimens := cas_touch.
Definition cas_chown := cas_touch.

Definition cas_chmod (path : str) (mode : N) (br : N) (d : Daemon) : Daemon * (N + unit) :=
  if touches_fast_control_path path then (d, inl (fast_control_mutation_error path))
  else if is_hidden path then (d, inl ENOENT)
  else if is_retired d br then (d, inl ESTALE)
  else
    match lookup_at d br path with
    | None => (d, inl ENOENT)
    | Some e =>
        (insert_at br path
           (mkEntry (e_kind e) (e_hash e) (N.lor (N.land (e_mode e) S_IFMT) (perm_bits mode))) d, inr ())
    end.

(** ** The control call *)

Definition FAST_CONTROL_VERSION : N := 1.
Definition LABEL_MAX : nat := 128.
Definition ERROR_MAX : nat := 256.
(** [_IOWR('A', 1, struct agentvfs_checkpoint_ioc)] *)
Definition IOC_CHECKPOINT : N := 3 * 2 ^ 30 + 464 * 2 ^ 16 + 65 * 2 ^ 8 + 1.

(** The fields the caller reads and writes; [ioc_label] is the whole array. *)
Record CheckpointIoc : Type := mkIoc {
  ioc_version : N;
  ioc_flags : N;
  ioc_label : bytes;
  commit_hex : str;
  result_errno : N;
  ioc_error : str
}.

Definition until_nul (s : str) : str := take (default (length s) (find_char zero s)) s.

(** [snprintf("%s")] into an array of [n] bytes. *)
Definition snprintf_s (n : nat) (s : str) : str := take (n - 1) (until_nul s).

Definition ioc_fail (e : N) (msg : str) (r : CheckpointIoc) : CheckpointIoc :=
  mkIoc (ioc_version r) (ioc_flags r) (ioc_label r) (commit_hex r) e (snprintf_s ERROR_MAX msg).

Definition cas_ioctl (publish : PublishEnv) (path : str) (cmd : N) (data : option CheckpointIoc) (br : N) (d : Daemon) :
    Daemon * (N + CheckpointIoc) :=
  if negb (is_fast_control_path path) then (d, inl ENOTTY)
  else if negb (cmd =? IOC_CHECKPOINT) then (d, inl ENOTTY)
  else
    match data with
    | None => (d, inl EINVAL)
    | Some r =>
        if negb (ioc_version r =? FAST_CONTROL_VERSION)
        then (d, inr (ioc_fail EINVAL (lit "unsupported fast control version") r))
        else if negb (ioc_flags r =? 0) then (d, inr (ioc_fail EINVAL (lit "unsupported flags") r))
        else
          match find_char zero (take LABEL_MAX (ioc_label r)) with
          | None => (d, inr (ioc_fail EINVAL (lit "checkpoint label is not nul-terminated") r))
          | Some n =>
              match checkpoint_branch blake3 publish (Some br) (take n (ioc_label r)) d with
              | (d', cp) =>
                  (d', inr (if ok cp
                            then mkIoc (ioc_version r) (ioc_flags r) (ioc_label r)
                                   (hash_to_hex (commit_hash cp)) 0 []
                            else ioc_fail EIO (cr_error cp) r))
              end
          end
    end.

(** ** The operation table *)

Inductive call : Type :=
| Getattr (path : str) (fi : option N) (br : N)
| Open (path : str) (flags : OpenFlags) (br : N)
| Create (path : str) (mode : N) (br : N)
| Read (fh size : N) (offset : Z)
| ReadBuf (fh size : N) (offset : Z)
| Write (fh : N) (data : bytes) (offset : Z)
| Flush (fh : N)
| Fsync (fh : N)
| Release (fh : N)
| Readdir (path : str) (br : N)
| Truncate (path : str) (length : Z) (fi : option N) (br : N)
| Access (path : str) (mask : AccessMask) (br : N)
| Unlink (path : str) (br : N)
| Rmdir (path : str) (br : N)
| Mkdir (path : str) (mode : N) (br : N)
| Rename (from to : str) (flags : N) (br : N)
| MakeSymlink (target linkpath : str) (br : N)
| Readlink (path : str) (size : N) (br : N)
| Utimens (path : str) (br : N)
| Chmod (path : str) (mode : N) (br : N)
| Chown (path : str) (br : N).

Inductive reply : Type :=
| RErr (e : N)
| ROk
| RAttr (a : Attr)
| RHandle (fh : option N)
| RCount (n : N)
| RData (data : bytes)
| RNames (names : list str).

Definition reply_of {A} (f : A -> reply) (r : N + A) : reply :=
  match r with inl e => RErr e | inr a => f a end.

(** The bytes libfuse sends: its own copy, or [count] bytes of the descriptor's
    file, which is the object of the handle's base blob. *)
Definition delivered (d : Daemon) (fh : N) (r : read_reply) : bytes :=
  match r with
  | MemReply data => data
  | FdReply _ pos count =>
      match get_fh d fh ≫= (fun s => disk (store_ d) !! base_blob s) with
      | Some o => take (N.to_nat count) (drop (N.to_nat pos) (f_content o))
      | None => []
      end
  end.

Definition done_or (r : N + unit) : reply := reply_of (fun _ => ROk) r.
Definition finish {A} (f : A -> reply) (x : Daemon * (N + A)) : Daemon * reply := (x.1, reply_of f x.2).

Definition exec_call (env : FuseEnv) (c : call) (d : Daemon) : Daemon * reply :=
  match c with
  | Getattr path fi br => finish RAttr (cas_getattr env path fi br d)
  | Open path flags br => finish RHandle (cas_open env path flags br d)
  | Create path mode br => finish (fun fh => RHandle (Some fh)) (cas_create env path mode br d)
  | Read fh size offset => finish RData (cas_read env fh size offset d)
  | ReadBuf fh size offset =>
      let '(d', r) := cas_read_buf env fh size offset d in (d', reply_of (fun x => RData (delivered d' fh x)) r)
  | Write fh data offset => finish RCount (cas_write fh data offset d)
  | Flush fh => finish (fun _ => ROk) (cas_flush env fh d)
  | Fsync fh => finish (fun _ => ROk) (cas_fsync env fh d)
  | Release fh => (cas_release env fh d, ROk)
  | Readdir path br => (d, reply_of RNames (cas_readdir path br d))
  | Truncate path length fi br => finish (fun _ => ROk) (cas_truncate env path length fi br d)
  | Access path mask br => (d, done_or (cas_access path mask br d))
  | Unlink path br => finish (fun _ => ROk) (cas_unlink path br d)
  | Rmdir path br => finish (fun _ => ROk) (cas_rmdir path br d)
  | Mkdir path mode br => finish (fun _ => ROk) (cas_mkdir path mode br d)
  | Rename from to flags br => finish (fun _ => ROk) (cas_rename from to flags br d)
  | MakeSymlink target linkpath br => finish (fun _ => ROk) (cas_symlink env target linkpath br d)
  | Readlink path size br => (d, reply_of RData (cas_readlink env path size br d))
  | Utimens path br => (d, done_or (cas_utimens path br d))
  | Chmod path mode br => finish (fun _ => ROk) (cas_chmod path mode br d)
  | Chown path br => (d, done_or (cas_chown path br d))
  end.

(** ** The bootstrap before a call *)

(** The paths a callback has the bootstrap take in, once its first checks are
    passed and before it resolves the caller's branch. *)
Definition asks (path : str) : list str :=
  if touches_fast_control_path path || is_hidden path then [] else [path].

Definition asked (c : call) : list str :=
  match c with
  | Getattr path _ _ | Open path _ _ | Truncate path _ _ _ | Access path _ _ | Unlink path _ | Rmdir path _
  | Mkdir path _ _ | MakeSymlink _ path _ | Readlink path _ _ | Utimens path _ | Chmod path _ _ | Chown path _ => asks path
  | Readdir path _ => if is_hidden path then [] else [path]
  | Rename from to _ _ =>
      if touches_fast_control_path from || touches_fast_control_path to || is_hidden from || is_hidden to
      then [] else [from; to]
  | Create _ _ _ | Read _ _ _ | ReadBuf _ _ _ | Write _ _ _ | Flush _ | Fsync _ | Release _ => []
  end.

(** A daemon with a bootstrap of main from the source directory [lz_root]. *)
Record LazyIngest : Type := mkLazy { lz_env : SourceEnv; lz_root : str }.

(** [None]: a path without a slash, for which the bootstrap's loop never ends. *)
Fixpoint take_in (b : LazyIngest) (paths : list str) (d : Daemon) : option Daemon :=
  match paths with
  | [] => Some d
  | path :: rest =>
      match ensure_path blake3 (lz_env b) (lz_root b) path (store_ d) (wt_of d main_id) with
      | Some (st, wt, _) => take_in b rest (set_wt main_id wt (set_store st d))
      | None => None
      end
  end.

(** A callback as libfuse makes it. *)
Definition callback (boot : option LazyIngest) (env : FuseEnv) (c : call) (d : Daemon) : option (Daemon * reply) :=
  match boot with
  | Some b => exec_call env c <$> take_in b (asked c) d
  | None => Some (exec_call env c d)
  end.

(** Where the tree already has a record of the paths, even a whiteout, the
    bootstrap does nothing, and the callback is the call alone. *)
Lemma take_in_recorded b paths d :
  Forall (fun p => p = [slash] \/ is_Some (lookup_raw (wt_of d main_id) p)) paths -> take_in b paths d = Some d.
Proof.
  intros H. induction H as [|p paths Hp Hps IH]; [done|]. cbn [take_in].
  assert (exists ok, ensure_path blake3 (lz_env b) (lz_root b) p (store_ d) (wt_of d main_id) =
    Some (store_ d, wt_of d main_id, ok)) as [ok ->].
  { unfold ensure_path. case_decide as Hc; [by eexists|]. destruct Hp as [->|[e He]]; [by destruct Hc; left|].
    cbn [climb]. case_decide; [by eexists|]. rewrite He. by destruct (is_deleted e); eexists. }
  assert (set_wt main_id (wt_of d main_id) (set_store (store_ d) d) = d) as ->; [|done].
  unfold set_wt, wt_of, set_store. cbn [heap]. destruct d as [st rf hp]. cbn. destruct (hp !! main_id) as [c|] eqn:E; [|done].
  unfold set_heap. cbn. destruct c. by rewrite insert_id.
Qed.

Lemma callback_recorded boot env c d :
  Forall (fun p => p = [slash] \/ is_Some (lookup_raw (wt_of d main_id) p)) (asked c) ->
  callback boot env c d = Some (exec_call env c d).
Proof. intros H. unfold callback. destruct boot as [b|]; [|done]. by rewrite take_in_recorded. Qed.

End adapter.
