(* ===== verification/FuseSpec.v ===== *)
(** The file system a session sees: what the callbacks of [FuseAdapter] promise.

    A branch is a finite map from paths to nodes that carry their bytes; an open
    file is a path and the bytes it shows. There are no objects, no layers, no
    write buffers and no caches here. One thing is the program's and not a plain
    file system's: an open file is published at the path it was opened on, even
    when that was renamed or removed meanwhile. [FuseRefines] proves that the callbacks
    implement this. *)

From S2P Require Import Prelude Hashes WorkingTree WriteBuffer ObjectStore Bootstrap Daemon FuseAdapter.

Record Node : Type := mkNode { n_kind : EntryKind; n_mode : N; n_data : bytes }.

(** [o_floor]: the length of the file last published through the handle. *)
Record OpenFile : Type := mkOpen {
  o_path : str;
  o_branch : N;
  o_data : bytes;
  o_floor : N;
  o_dirty : bool;
  o_stale : bool
}.

Abbreviation Nodes := (gmap str Node).

(** The branches not retired, the open files, the next handle. *)
Record Session : Type := mkSession {
  trees : gmap N Nodes;
  opens : gmap N OpenFile;
  next_open : N
}.

Definition set_tree (br : N) (t : Nodes) (s : Session) : Session :=
  mkSession (<[br := t]> (trees s)) (opens s) (next_open s).
Definition set_open (fh : N) (f : OpenFile) (s : Session) : Session :=
  mkSession (trees s) (<[fh := f]> (opens s)) (next_open s).
Definition new_open (f : OpenFile) (s : Session) : Session * N :=
  (mkSession (trees s) (<[next_open s := f]> (opens s)) (u64 (next_open s + 1)), next_open s).

Definition set_data (data : bytes) (dirty : bool) (f : OpenFile) : OpenFile :=
  mkOpen (o_path f) (o_branch f) data (o_floor f) dirty (o_stale f).
Definition published (f : OpenFile) : OpenFile :=
  mkOpen (o_path f) (o_branch f) (o_data f) (len (o_data f)) false (o_stale f).

(** ** Paths *)

(** A call on a node of a branch. *)
Definition at_node {A} (path : str) (br : N) (s : Session) (none : N) (k : Nodes -> Node -> A) : N + A :=
  match trees s !! br with
  | None => inl ESTALE
  | Some t => match t !! path with None => inl none | Some n => inr (k t n) end
  end.

Definition spec_path (path : str) (br : N) (s : Session) (body : Nodes -> Session * reply) : Session * reply :=
  if touches_fast_control_path path then (s, RErr (fast_control_mutation_error path))
  else if is_hidden path then (s, RErr EACCES)
  else match trees s !! br with None => (s, RErr ESTALE) | Some t => body t end.

(** A read-only call on a path. *)
Definition spec_look (path : str) (br : N) (s : Session) (body : Nodes -> Node -> reply) : reply :=
  match trees s !! br with
  | None => RErr ESTALE
  | Some t => match t !! path with None => RErr ENOENT | Some n => body t n end
  end.

Definition spec_handle (fh : N) (s : Session) (body : OpenFile -> Session * reply) : Session * reply :=
  match opens s !! fh with
  | None => (s, RErr EBADF)
  | Some f => if o_stale f then (s, RErr ESTALE) else body f
  end.

(** ** Attributes *)

(** The dirty open file a path's size is taken from: the first in [order]. *)
Fixpoint writer_of (order : list N) (path : str) (br : N) (opens : gmap N OpenFile) : option OpenFile :=
  match order with
  | [] => None
  | fh :: rest =>
      match opens !! fh with
      | Some f =>
          if negb (o_stale f) && bool_decide (o_path f = path) && (o_branch f =? br) && o_dirty f
          then Some f else writer_of rest path br opens
      | None => writer_of rest path br opens
      end
  end.

Definition shown_size (order : list N) (path : str) (fi : option N) (br : N) (n : Node) (s : Session) : Z :=
  Z.of_N (len match fi with
              | Some fh => match opens s !! fh with Some f => o_data f | None => n_data n end
              | None => match writer_of order path br (opens s) with Some f => o_data f | None => n_data n end
              end).

Definition spec_getattr (c : Caller) (order : list N) (path : str) (fi : option N) (br0 : N) (s : Session) : reply :=
  if is_fast_control_path path then RAttr (fast_control_attr c)
  else if is_fast_control_descendant path then RErr ENOTDIR
  else if is_hidden path then RErr ENOENT
  else if decide (path = [slash]) then RAttr (mkAttr (N.lor S_IFDIR 493) 2 (uid c) (gid c) 0)
  else
    let f := fi ≫= (fun fh => opens s !! fh) in
    if match f with Some f => o_stale f | None => false end then RErr ESTALE
    else
      spec_look path (match f with Some f => o_branch f | None => br0 end) s (fun t n =>
        let size := shown_size order path fi br0 n s in
        match n_kind n with
        | Blob => RAttr (mkAttr (N.lor S_IFREG (perm_bits (n_mode n))) 1 (uid c) (gid c) size)
        | Tree => RAttr (mkAttr (N.lor S_IFDIR (perm_bits (n_mode n))) 2 (uid c) (gid c) 0)
        | Symlink => RAttr (mkAttr (N.lor S_IFLNK 511) 1 (uid c) (gid c) size)
        | _ => RErr ENOENT
        end).

(** ** Opening *)

Definition spec_open (path : str) (flags : OpenFlags) (br : N) (s : Session) : Session * reply :=
  if is_fast_control_path path then
    if negb (bool_decide (accmode flags = O_RDONLY)) then (s, RErr EACCES)
    else if o_trunc flags || o_append flags then (s, RErr EACCES)
    else (s, RHandle None)
  else if is_fast_control_descendant path then (s, RErr ENOTDIR)
  else if is_hidden path then (s, RErr ENOENT)
  else
    match trees s !! br with
    | None => (s, RErr ESTALE)
    | Some t =>
        match t !! path with
        | None => (s, RErr ENOENT)
        | Some n =>
            if negb (bool_decide (n_kind n = Blob)) then (s, RErr EISDIR)
            else
              let data := if o_trunc flags then [] else n_data n in
              let s1 := if o_trunc flags then set_tree br (<[path := mkNode Blob (n_mode n) []]> t) s else s in
              let '(s2, fh) := new_open (mkOpen path br data (len data) false false) s1 in
              (s2, RHandle (Some fh))
        end
    end.

Definition spec_create (path : str) (mode : N) (br : N) (s : Session) : Session * reply :=
  spec_path path br s (fun t =>
    let s1 := set_tree br (<[path := mkNode Blob (N.lor (perm_bits mode) S_IFREG) []]> t) s in
    let '(s2, fh) := new_open (mkOpen path br [] 0 false false) s1 in (s2, RHandle (Some fh))).

(** ** Calls on an open file *)

Definition window (data : bytes) (offset : Z) (size : N) : bytes :=
  take (N.to_nat size) (drop (Z.to_nat offset) data).

Definition spec_read (fh size : N) (offset : Z) (s : Session) : Session * reply :=
  spec_handle fh s (fun f => (s, RData (window (o_data f) offset size))).

Definition spec_read_buf (fh size : N) (offset : Z) (s : Session) : Session * reply :=
  spec_handle fh s (fun f =>
    (s, if (offset <? 0)%Z then RErr EINVAL else RData (window (o_data f) offset size))).

Definition written (f : OpenFile) (data : bytes) (offset : Z) : OpenFile :=
  set_data (Spec.pwrite (o_data f) (Z.to_N offset) data) (o_dirty f || negb (bool_decide (data = []))) f.

Definition spec_write (fh : N) (data : bytes) (offset : Z) (s : Session) : Session * reply :=
  spec_handle fh s (fun f => (set_open fh (written f data offset) s, RCount (len data))).

(** Publishing a dirty file at its path. *)
Definition publish_node (t : Nodes) (f : OpenFile) : Nodes :=
  <[o_path f := mkNode Blob (match t !! o_path f with Some n => n_mode n | None => 33188 end) (o_data f)]> t.

Definition spec_flush (fh : N) (s : Session) : Session * reply :=
  spec_handle fh s (fun f =>
    match trees s !! o_branch f with
    | None => (s, RErr ESTALE)
    | Some t =>
        if o_dirty f
        then (set_open fh (published f) (set_tree (o_branch f) (publish_node t f) s), ROk)
        else (s, ROk)
    end).

Definition spec_release (fh : N) (s : Session) : Session * reply :=
  let s1 := (spec_flush fh s).1 in (mkSession (trees s1) (delete fh (opens s1)) (next_open s1), ROk).

(** ** Directories and paths *)

Definition is_child (dir : str) (p : str) : Prop :=
  has_prefix (with_slash dir) p = true /\ slash ∉ drop (length (with_slash dir)) p.

#[global] Instance is_child_dec dir p : Decision (is_child dir p).
Proof. unfold is_child. apply _. Defined.

(** The names in a directory, in the order of their paths. *)
Definition children (t : Nodes) (dir : str) : list str :=
  base_name <$> filter (is_child dir) (entries t).*1.

Definition reserved_name (n : str) : Prop := n = lit ".agentvfs-store" \/ n = lit ".agentvfs-control".

#[global] Instance reserved_name_dec n : Decision (reserved_name n).
Proof. unfold reserved_name. apply _. Defined.

Definition spec_readdir (path : str) (br : N) (s : Session) : reply :=
  if is_hidden path then RErr ENOENT
  else
    match trees s !! br with
    | None => RErr ENOENT
    | Some t =>
        if bool_decide (path = [slash]) || match t !! path with Some n => bool_decide (n_kind n = Tree) | None => false end
        then RNames (lit "." :: lit ".." :: filter (fun n => ~ reserved_name n) (children t path))
        else RErr ENOENT
    end.

Definition spec_truncate (path : str) (length : Z) (fi : option N) (br : N) (s : Session) : Session * reply :=
  match fi with
  | Some fh =>
      if touches_fast_control_path path then (s, RErr (fast_control_mutation_error path))
      else if is_hidden path then (s, RErr EACCES)
      else spec_handle fh s (fun f =>
        (set_open fh (set_data (Spec.ftruncate (o_data f) (Z.to_N length)) true f) s, ROk))
  | None =>
      spec_path path br s (fun t =>
        match t !! path with
        | None => (s, RErr ENOENT)
        | Some n =>
            if negb (bool_decide (n_kind n = Blob)) then (s, RErr EISDIR)
            else (set_tree br (<[path := mkNode Blob (n_mode n) (Spec.ftruncate (n_data n) (Z.to_N length))]> t) s, ROk)
        end)
  end.

Definition spec_access (path : str) (mask : AccessMask) (br : N) (s : Session) : reply :=
  if is_fast_control_path path then if want_w mask || want_x mask then RErr EACCES else ROk
  else if is_fast_control_descendant path then RErr ENOTDIR
  else if is_hidden path then RErr ENOENT
  else if decide (path = [slash]) then ROk
  else spec_look path br s (fun _ n =>
    if (want_r mask && negb (N.testbit (n_mode n) 8)) || (want_w mask && negb (N.testbit (n_mode n) 7)) ||
       (want_x mask && negb (N.testbit (n_mode n) 6))
    then RErr EACCES else ROk).

Definition spec_unlink (path : str) (br : N) (s : Session) : Session * reply :=
  spec_path path br s (fun t =>
    match t !! path with
    | None => (s, RErr ENOENT)
    | Some n => if decide (n_kind n = Tree) then (s, RErr EISDIR) else (set_tree br (delete path t) s, ROk)
    end).

Definition spec_rmdir (path : str) (br : N) (s : Session) : Session * reply :=
  spec_path path br s (fun t =>
    match t !! path with
    | None => (s, RErr ENOENT)
    | Some n =>
        if negb (bool_decide (n_kind n = Tree)) then (s, RErr ENOTDIR)
        else if negb (bool_decide (children t path = [])) then (s, RErr ENOTEMPTY)
        else (set_tree br (delete path t) s, ROk)
    end).

Definition spec_mkdir (path : str) (mode : N) (br : N) (s : Session) : Session * reply :=
  spec_path path br s (fun t =>
    match t !! path with
    | Some _ => (s, RErr EEXIST)
    | None => (set_tree br (<[path := mkNode Tree (N.lor (perm_bits mode) S_IFDIR) []]> t) s, ROk)
    end).

(** Everything at or under [from], at the same place under [to]. *)
Definition moved_nodes (from to : str) (t : Nodes) : Nodes :=
  list_to_map ((fun x => (to ++ drop (length from) x.1, x.2)) <$>
    filter (fun x => under from x.1 = true) (map_to_list t)).

Definition rename_subtree (from to : str) (t : Nodes) : Nodes :=
  moved_nodes from to t ∪ filter (fun x => under from x.1 = false) t.

Definition spec_rename (from to : str) (br : N) (s : Session) : Session * reply :=
  if touches_fast_control_path from || touches_fast_control_path to then (s, RErr EACCES)
  else if is_hidden from || is_hidden to then (s, RErr EACCES)
  else
    match trees s !! br with
    | None => (s, RErr ESTALE)
    | Some t =>
        match t !! from with
        | None => (s, RErr ENOENT)
        | Some n =>
            (set_tree br (if decide (n_kind n = Tree) then rename_subtree from to t
                          else <[to := n]> (delete from t)) s, ROk)
        end
    end.

Definition spec_symlink (target linkpath : str) (br : N) (s : Session) : Session * reply :=
  spec_path linkpath br s (fun t =>
    match t !! linkpath with
    | Some _ => (s, RErr EEXIST)
    | None => (set_tree br (<[linkpath := mkNode Symlink 41471 target]> t) s, ROk)
    end).

Definition spec_readlink (path : str) (size : N) (br : N) (s : Session) : reply :=
  if is_fast_control_path path then RErr EINVAL
  else if is_fast_control_descendant path then RErr ENOTDIR
  else if is_hidden path then RErr ENOENT
  else spec_look path br s (fun _ n =>
    if negb (bool_decide (n_kind n = Symlink)) then RErr EINVAL
    else RData (take (N.to_nat (size - 1)) (n_data n))).

Definition spec_touch (path : str) (br : N) (s : Session) : reply :=
  if touches_fast_control_path path then RErr (fast_control_mutation_error path)
  else if is_hidden path then RErr ENOENT
  else spec_look path br s (fun _ _ => ROk).

Definition spec_chmod (path : str) (mode : N) (br : N) (s : Session) : Session * reply :=
  if touches_fast_control_path path then (s, RErr (fast_control_mutation_error path))
  else if is_hidden path then (s, RErr ENOENT)
  else
    match trees s !! br with
    | None => (s, RErr ESTALE)
    | Some t =>
        match t !! path with
        | None => (s, RErr ENOENT)
        | Some n =>
            (set_tree br (<[path := mkNode (n_kind n) (N.lor (N.land (n_mode n) S_IFMT) (perm_bits mode)) (n_data n)]> t) s,
             ROk)
        end
    end.

Definition spec_call (caller : Caller) (order : list N) (c : call) (s : Session) : Session * reply :=
  match c with
  | Getattr path fi br => (s, spec_getattr caller order path fi br s)
  | Open path flags br => spec_open path flags br s
  | Create path mode br => spec_create path mode br s
  | Read fh size offset => spec_read fh size offset s
  | ReadBuf fh size offset => spec_read_buf fh size offset s
  | Write fh data offset => spec_write fh data offset s
  | Flush fh | Fsync fh => spec_flush fh s
  | Release fh => spec_release fh s
  | Readdir path br => (s, spec_readdir path br s)
  | Truncate path length fi br => spec_truncate path length fi br s
  | Access path mask br => (s, spec_access path mask br s)
  | Unlink path br => spec_unlink path br s
  | Rmdir path br => spec_rmdir path br s
  | Mkdir path mode br => spec_mkdir path mode br s
  | Rename from to _ br => spec_rename from to br s
  | MakeSymlink target linkpath br => spec_symlink target linkpath br s
  | Readlink path size br => (s, spec_readlink path size br s)
  | Utimens path br | Chown path br => (s, spec_touch path br s)
  | Chmod path mode br => spec_chmod path mode br s
  end.

(** ** Facts about the contract *)

Lemma list_filter_fmap_comm {A B} (f : A -> B) (P : B -> Prop) `{!forall x, Decision (P x)} (l : list A) :
  filter P (f <$> l) = f <$> filter (fun x => P (f x)) l.
Proof.
  induction l as [|x l IH]; [done|]. rewrite fmap_cons, !filter_cons, IH. by repeat case_decide.
Qed.

Lemma entries_fmap_keys {A B} (f : A -> B) (m : gmap str A) : (entries (f <$> m)).*1 = (entries m).*1.
Proof.
  assert (entries (f <$> m) = prod_map id f <$> entries m) as ->.
  { symmetry. apply entries_unique.
    - induction (entries_sorted m) as [|x l Hl IH HF]; [constructor|]. rewrite fmap_cons.
      constructor; [done|]. rewrite Forall_fmap. exact HF.
    - intros k v. rewrite list_elem_of_fmap, lookup_fmap. split.
      + intros ([k' x] & [= -> ->] & Hx%elem_of_entries). by rewrite Hx.
      + intros (x & Hx & ->)%fmap_Some. exists (k, x). by rewrite elem_of_entries. }
  rewrite <- list_fmap_compose. by apply list_fmap_ext.
Qed.

Lemma live_entries t : filter (fun x => is_deleted x.2 = false) (entries (raw t)) = entries (live t).
Proof. apply filter_entries. Qed.

(** The listing of the two layers is the contract's. *)
Lemma children_list_dir {f : WorkingTreeEntry -> Node} t dir :
  children (f <$> live t) dir = (fun x => base_name x.1) <$> list_dir t dir.
Proof.
  unfold children. rewrite entries_fmap_keys, list_dir_entries, <- live_entries.
  rewrite list_filter_fmap_comm, list_filter_filter, <- list_fmap_compose. f_equal.
  apply list_filter_iff. intros x. unfold direct_child, is_child. tauto.
Qed.

Lemma moved_nodes_lookup from to t p : dir_path from -> dir_path to ->
  moved_nodes from to t !! p = if under to p then t !! (from ++ drop (length to) p) else None.
Proof.
  intros Hf Ht. apply option_eq. intros v. unfold moved_nodes. rewrite <- elem_of_list_to_map.
  2:{ rewrite <- list_fmap_compose. apply NoDup_fmap_2_strong.
      - intros [k x] [k' x'] [Hk Hx]%list_elem_of_filter [Hk' Hx']%list_elem_of_filter. simpl in *.
        intros He%app_inv_head. rewrite (under_app _ _ Hf Hk), (under_app _ _ Hf Hk'), He.
        apply elem_of_map_to_list in Hx, Hx'.
        assert (k = k') as -> by (rewrite (under_app _ _ Hf Hk), (under_app _ _ Hf Hk'); by f_equal).
        congruence.
      - apply NoDup_filter, NoDup_map_to_list. }
  rewrite list_elem_of_fmap. split.
  - intros ([k x] & [= -> ->] & [Hk Hx%elem_of_map_to_list]%list_elem_of_filter). simpl in *.
    rewrite (under_swap from to k Hf Ht Hk), drop_app_length, <- (under_app _ _ Hf Hk). done.
  - destruct (under to p) eqn:Hp; [|done]. intros Hv.
    exists (from ++ drop (length to) p, v). simpl. rewrite drop_app_length, <- (under_app _ _ Ht Hp).
    split; [done|]. apply list_elem_of_filter. split; [by apply under_swap|]. by apply elem_of_map_to_list.
Qed.

Lemma rename_subtree_lookup from to t p : dir_path from -> dir_path to ->
  rename_subtree from to t !! p =
  if under to p then
    match t !! (from ++ drop (length to) p) with
    | Some n => Some n
    | None => if under from p then None else t !! p
    end
  else if under from p then None else t !! p.
Proof.
  intros Hf Ht. unfold rename_subtree.
  assert (filter (fun x => under from x.1 = false) t !! p = if under from p then None else t !! p) as Hrest.
  { apply option_eq. intros v. rewrite map_lookup_filter_Some. simpl. destruct (under from p); naive_solver. }
  rewrite lookup_union, moved_nodes_lookup, Hrest by done.
  destruct (under to p); [|by rewrite (left_id None _)].
  destruct (t !! (from ++ _)); [|by rewrite (left_id None _)]. by destruct (if under from p then _ else _).
Qed.
