(* ===== verification/FuseRefines.v ===== *)
(** The callbacks implement the session file system: what they answer and leave
    is what [FuseSpec] says of the session the daemon's state stands for. *)

From S2P Require Import Prelude Hashes WorkingTree WriteBuffer Codec ObjectStore TreeSerialize Refs Checkpoint BranchMerge Gc BranchRouter Handles Bootstrap Daemon DaemonTables FuseAdapter FuseSpec.

(** ** What a state stands for *)

(** The bytes an entry names; a failed write's entry is an empty file. *)
Definition content (st : ObjectStore) (h : Hash) : bytes :=
  if decide (h = ZERO_HASH) then [] else default [] (read_blob st true h).

Definition node_of (st : ObjectStore) (e : WorkingTreeEntry) : Node :=
  mkNode (e_kind e) (e_mode e)
    match e_kind e with Blob | Symlink => content st (e_hash e) | _ => [] end.

Definition nodes (st : ObjectStore) (wt : WorkingTree) : Nodes := node_of st <$> live wt.

Definition handle_dirty (s : FhState) : bool :=
  match write_buf s with Some w => is_dirty w | None => false end.

Definition open_of (st : ObjectStore) (s : FhState) : OpenFile :=
  mkOpen (fh_path s) (fh_branch s) (default [] (shown_file st s)) (base_size s) (handle_dirty s) (stale s).

Definition tree_of (st : ObjectStore) (b : BranchContext) : option Nodes :=
  if retired b then None else Some (nodes st (bc_wt b)).

Definition abs (d : Daemon) : Session :=
  mkSession (omap (tree_of (store_ d)) (heap d)) (open_of (store_ d) <$> fh_table_ d) (next_fh_id_ d).

(** ** The invariant *)

Section refinement.
Context (blake3 : bytes -> Hash) (U : bytes -> Prop).

Definition readable (st : ObjectStore) (h : Hash) : Prop :=
  exists data, read_blob st true h = Some data /\ storable U data.

Definition entry_ok (st : ObjectStore) (e : WorkingTreeEntry) : Prop :=
  match e_kind e with
  | Blob => e_hash e = ZERO_HASH \/ readable st (e_hash e)
  | Symlink => e_hash e <> ZERO_HASH /\ readable st (e_hash e)
  | _ => True
  end.

(** A handle that may read through its descriptor is clean, and the descriptor
    is open on its base. *)
Definition view_ok (st : ObjectStore) (s : FhState) : Prop :=
  fd_read_eligible s = true ->
  handle_dirty s = false /\ (0 <= fd_ (blob_view s))%Z /\ payload_size_ (blob_view s) = base_size s /\
  exists base, base_of st s = Some base /\ read_blob st true (base_blob s) = Some base.

Record handle_ok (st : ObjectStore) (s : FhState) : Prop := {
  ho_fh : fh_ok st s;
  ho_storable : forall data, shown_file st s = Some data -> storable U data;
  ho_view : view_ok st s
}.

Definition sizes_ok (st : ObjectStore) : Prop :=
  forall h n, size_cache_ st !! h = Some n -> exists c, U c /\ blake3 c = h /\ blob_size c = Some n.

Record session_ok (d : Daemon) : Prop := {
  so_store : contents_ok blake3 U (store_ d);
  so_sizes : sizes_ok (store_ d);
  so_tables : tables_ok d;
  so_handles : forall fh s, fh_table_ d !! fh = Some s -> handle_ok (store_ d) s;
  so_trees : forall bid b p e, heap d !! bid = Some b -> retired b = false ->
    live (bc_wt b) !! p = Some e -> entry_ok (store_ d) e
}.

(** A call leaves the session it should, with the answer it should. *)
Definition simulates (x : Daemon * reply) (y : Session * reply) : Prop :=
  session_ok x.1 /\ abs x.1 = y.1 /\ x.2 = y.2.

(** ** Growing the store *)

Lemma readable_kept st st' h : blobs_kept st st' -> readable st h -> readable st' h.
Proof. intros Hk (data & Hr & Hs). exists data. auto. Qed.

Lemma entry_ok_kept st st' e : blobs_kept st st' -> entry_ok st e -> entry_ok st' e.
Proof.
  intros Hk. unfold entry_ok. destruct (e_kind e); [|done| |done..].
  - intros [H|H]; [by left|right; by eapply readable_kept].
  - intros [H H']. split; [done|by eapply readable_kept].
Qed.

Lemma handle_ok_kept st st' s : blobs_kept st st' -> handle_ok st s -> handle_ok st' s.
Proof.
  intros Hk [H1 H2 H3]. split; [by eapply fh_ok_kept| |].
  - intros data Hd. destruct (shown_file_ok _ _ H1) as [d Hd0]. apply H2.
    pose proof (shown_file_kept _ _ _ _ Hk Hd0). congruence.
  - intros He. destruct (H3 He) as (A & B & C & base & D & F). split_and!; try done.
    exists base. split; [by eapply base_of_kept|by apply Hk].
Qed.

Lemma content_kept st st' h : blobs_kept st st' -> h = ZERO_HASH \/ readable st h ->
  content st' h = content st h.
Proof.
  intros Hk Hr. unfold content. case_decide as Hz; [done|]. destruct Hr as [|(data & Hd & _)]; [done|].
  by rewrite Hd, (Hk _ _ Hd).
Qed.

Lemma node_of_kept st st' e : blobs_kept st st' -> entry_ok st e -> node_of st' e = node_of st e.
Proof.
  intros Hk He. unfold node_of, entry_ok in *. f_equal. destruct (e_kind e); try done.
  - by apply content_kept.
  - apply content_kept; [done|right; apply He].
Qed.

Lemma open_of_kept st st' s : blobs_kept st st' -> fh_ok st s -> open_of st' s = open_of st s.
Proof.
  intros Hk Hs. unfold open_of. destruct (shown_file_ok _ _ Hs) as [d Hd].
  by rewrite Hd, (shown_file_kept _ _ _ _ Hk Hd).
Qed.

Lemma abs_store d st : session_ok d -> blobs_kept (store_ d) st -> abs (set_store st d) = abs d.
Proof.
  intros Hok Hk. unfold abs. simpl. f_equal.
  - apply map_eq. intros bid. rewrite !lookup_omap. destruct (heap d !! bid) as [b|] eqn:Hb; [|done]. simpl.
    unfold tree_of. destruct (retired b) eqn:Hr; [done|]. f_equal. unfold nodes. apply map_fmap_ext.
    intros p e He. apply node_of_kept; [done|]. by eapply so_trees.
  - apply map_fmap_ext. intros fh s Hs. apply open_of_kept; [done|]. by apply (so_handles _ Hok fh).
Qed.

Lemma ok_store d st :
  session_ok d -> contents_ok blake3 U st -> sizes_ok st -> blobs_kept (store_ d) st ->
  session_ok (set_store st d).
Proof.
  intros [A1 A2 A3 A4 A5] Hc Hs Hk. split; simpl; try done.
  - by destruct A3; split.
  - intros fh s Hfh. eapply handle_ok_kept; [done|by eapply A4].
  - intros. eapply entry_ok_kept; [done|by eapply A5].
Qed.

(** ** Changing one tree *)

Lemma set_wt_heap bid wt d b : heap d !! bid = Some b ->
  set_wt bid wt d = set_heap (<[bid := mkBranch (bc_name b) wt (retired b)]> (heap d)) d.
Proof. intros Hb. unfold set_wt. by rewrite Hb. Qed.

Lemma wt_of_heap d bid b : heap d !! bid = Some b -> wt_of d bid = bc_wt b.
Proof. intros Hb. unfold wt_of. by rewrite Hb. Qed.

Lemma abs_tree d bid b wt : heap d !! bid = Some b -> retired b = false ->
  abs (set_wt bid wt d) = set_tree bid (nodes (store_ d) wt) (abs d).
Proof.
  intros Hb Hr. rewrite (set_wt_heap _ _ _ _ Hb). unfold abs, set_tree. simpl. f_equal.
  apply omap_insert_Some. unfold tree_of. simpl. by rewrite Hr.
Qed.

Lemma ok_tree d bid b wt : session_ok d -> heap d !! bid = Some b -> retired b = false ->
  (forall p e, live wt !! p = Some e -> entry_ok (store_ d) e) -> session_ok (set_wt bid wt d).
Proof.
  intros Hok Hb Hr He. destruct (set_wt_frame bid wt d) as (E1 & E2 & E3 & E4 & E5 & E6 & E7 & E8 & E9 & E10 & E11 & E12).
  destruct Hok as [A1 A2 A3 A4 A5]. split; rewrite ?E1, ?E9; try done.
  - eapply in_place_tables; [|exact A3]. split; rewrite ?E3, ?E4, ?E5, ?E6, ?E7, ?E8, ?E9, ?E11, ?E12; try done.
    + apply set_wt_contexts.
    + apply handles_from_refl.
  - intros x bx p e. rewrite (set_wt_heap _ _ _ _ Hb). simpl.
    intros [[<- <-]|[_ Hx]]%lookup_insert_Some; [intros _; apply He|]. by eapply A5.
Qed.

Lemma live_entry d bid p e b : heap d !! bid = Some b ->
  lookup_at d bid p = Some e <-> live (bc_wt b) !! p = Some e.
Proof. intros Hb. unfold lookup_at. by rewrite (wt_of_heap _ _ _ Hb), wt_lookup_live. Qed.

Lemma nodes_insert st wt p e : is_deleted e = false ->
  nodes st (wt_insert wt p e) = <[p := node_of st e]> (nodes st wt).
Proof. intros He. unfold nodes. rewrite live_insert. unfold Spec.put. by rewrite He, fmap_insert. Qed.

Lemma nodes_remove st wt p : nodes st (wt_remove wt p) = delete p (nodes st wt).
Proof. unfold nodes, wt_remove. by rewrite live_remove, fmap_delete. Qed.

Lemma live_insert_ok st wt p e q x :
  (forall p e, live wt !! p = Some e -> entry_ok st e) -> entry_ok st e ->
  live (wt_insert wt p e) !! q = Some x -> entry_ok st x.
Proof.
  intros Hall He. rewrite live_insert, lookup_put. case_decide; [|by apply Hall].
  destruct (is_deleted e); [done|]. by intros [= <-].
Qed.

(** ** Changing one handle *)

Lemma abs_put d fh s : abs (put_fh fh s d) = set_open fh (open_of (store_ d) s) (abs d).
Proof. unfold abs, put_fh, set_table, set_open. simpl. by rewrite fmap_insert. Qed.

Lemma ok_table d t n : session_ok d ->
  (forall fh s, t !! fh = Some s -> handle_ok (store_ d) s /\ (stale s = false -> fh_branch s ∈ branches_ d)) ->
  session_ok (set_fhs t n d).
Proof.
  intros [A1 A2 A3 A4 A5] Ht. split; simpl; try done.
  - destruct A3 as [B1 B2 B3 B4 B5 B6]. split; simpl; try done. intros fh s Hs. by apply (Ht fh s).
  - intros fh s Hs. by apply (Ht fh s).
Qed.

Lemma ok_put d fh s : session_ok d -> handle_ok (store_ d) s ->
  (stale s = false -> fh_branch s ∈ branches_ d) -> session_ok (put_fh fh s d).
Proof.
  intros Hok Hs Hb. apply ok_table; [done|]. intros x sx [[_ <-]|[_ Hx]]%lookup_insert_Some; [done|].
  split; [by eapply so_handles|]. by apply (t_handles _ (so_tables _ Hok) x).
Qed.

Lemma abs_same_handle d fh s s' : fh_table_ d !! fh = Some s ->
  open_of (store_ d) s' = open_of (store_ d) s -> abs (put_fh fh s' d) = abs d.
Proof.
  intros Hs He. rewrite abs_put, He. unfold set_open, abs. simpl. f_equal.
  apply insert_id. by rewrite lookup_fmap, Hs.
Qed.


(** ** Reading and writing blobs *)

Context (Hcf : collision_free blake3 U).

Definition open_works (env : OpenEnv) : Prop :=
  (exists fd, opened env = inr fd /\ (0 <= fd)%Z) /\ seek_ok env = true /\ header_ok env = true.

Lemma read_blob_object st h data : read_blob st true h = Some data ->
  exists o l8, disk st !! h = Some o /\ f_content o = lit "blob" ++ l8 ++ data /\
    length l8 = 8%nat /\ le_decode l8 = len data.
Proof.
  unfold read_blob. destruct (read_object st true h (lit "blob")) as [body|] eqn:E; [|done].
  case_decide as Hl; [done|]. case_decide as Hd; [|done]. intros [= <-].
  apply read_object_tag in E as (o & Ho & Hc). exists o, (take 8 body).
  split_and!; [done|by rewrite take_drop|rewrite length_take; lia|].
  unfold len. rewrite length_drop. done.
Qed.

Lemma blob_file l8 data : length l8 = 8%nat -> le_decode l8 = len data -> len data < 2 ^ 63 - 12 ->
  let raw := lit "blob" ++ l8 ++ data in
  length raw = (12 + length data)%nat /\ take 4 raw = lit "blob" /\ le_decode (take 8 (drop 4 raw)) = len data /\
  blob_size raw = Some (len data).
Proof.
  intros H8 Hd Hl raw.
  assert (length raw = 12 + length data)%nat as Hlen by (unfold raw; rewrite !length_app, H8; done).
  assert (le_decode (take 8 (drop 4 raw)) = len data) as Hn.
  { change (drop 4 raw) with (l8 ++ data). rewrite <- H8. by rewrite take_app_length. }
  split_and!; [done..|]. unfold blob_size. rewrite Hn, Hlen. unfold kPayloadOffset, len in *.
  rewrite decide_False by lia. rewrite decide_True by done.
  replace (_ <? _) with false by (symmetry; apply N.ltb_ge; lia).
  rewrite decide_True by lia. done.
Qed.

Lemma open_blob_ok env st h data :
  open_works env -> read_blob st true h = Some data -> len data < 2 ^ 63 - 12 ->
  exists fd, open_blob env h st = (set_last_error [] st, inr (mkView fd (len data))) /\ (0 <= fd)%Z.
Proof.
  intros [(fd & Hfd & Hpos) [Hs Hh]] Hr Hl. exists fd. split; [|done].
  apply read_blob_object in Hr as (o & l8 & Ho & Hc & H8 & Hd).
  destruct (blob_file l8 data H8 Hd Hl) as (B1 & B2 & B3 & _).
  unfold open_blob. rewrite Hfd, Ho, Hs, Hh, Hc. cbn [negb orb].
  rewrite bool_decide_false by (rewrite B1; unfold kPayloadOffset; lia).
  rewrite decide_True by done. rewrite B3, B1. unfold kPayloadOffset, len in *.
  replace (_ <? _) with false by (symmetry; apply N.ltb_ge; lia).
  rewrite decide_True by lia. done.
Qed.

(** Only the error message changes. *)
Lemma set_error_kept st e :
  contents_ok blake3 U st -> sizes_ok st ->
  contents_ok blake3 U (set_last_error e st) /\ sizes_ok (set_last_error e st) /\ blobs_kept st (set_last_error e st).
Proof. intros [[A1 A2 A3] B] Hs. split; [by split; [split|]|]. split; [done|]. by intros h d. Qed.

Lemma payload_size_ok env st h data :
  open_works env -> contents_ok blake3 U st -> sizes_ok st -> read_blob st true h = Some data ->
  len data < 2 ^ 63 - 12 ->
  exists st', blob_payload_size env h st = (st', inr (len data)) /\ contents_ok blake3 U st' /\ sizes_ok st' /\
    blobs_kept st st'.
Proof.
  intros He Hc Hs Hr Hl. pose proof (read_blob_object _ _ _ Hr) as (o & l8 & Ho & Hcont & H8 & Hd).
  destruct (blob_file l8 data H8 Hd Hl) as (_ & _ & _ & Hsize). rewrite <- Hcont in Hsize.
  pose proof Hc as [[Hinv _ _] HU]. pose proof (HU _ _ Ho) as HUo. pose proof (Hinv _ _ Ho) as Haddr.
  unfold blob_payload_size. destruct (size_cache_ st !! h) as [n|] eqn:En.
  - exists st. destruct (Hs h n En) as (c & HUc & Hb & Hn).
    assert (c = f_content o) as -> by (apply Hcf; [done..|congruence]).
    assert (n = len data) as -> by congruence. split_and!; [done..|by intros k d].
  - destruct (open_blob_ok env st h data He Hr Hl) as (fd & -> & _). eexists. split; [done|].
    destruct Hc as [[A1 A2 A3] B]. split; [by split; [split|]|]. split; [|by intros k d].
    intros k n. simpl. intros [[<- <-]|[_ Hk]]%lookup_insert_Some; [by exists (f_content o)|].
    destruct (_ <=? _); [done|by apply Hs].
Qed.

Lemma write_object_sizes tag body env st : size_cache_ (write_object blake3 tag body env st).1 = size_cache_ st.
Proof.
  unfold write_object, write_begin, write_publish, touch. repeat (case_match; simplify_eq/=; try done).
Qed.

Lemma write_object_any tag body env st st' h :
  store_inv blake3 st -> write_object blake3 tag body env st = (st', h) ->
  store_inv blake3 st' /\ exists now st0, disk st0 = disk st /\
    wrote now (blake3 (tag ++ body)) (tag ++ body) st0 st' h.
Proof.
  intros Hi. unfold write_object.
  destruct (write_begin blake3 tag body env st) as [st1 [h1|h1 c p]] eqn:E.
  - apply write_begin_done in E as (Hw & Hch & _). intros [= <- <-].
    split; [by eapply disk_change_inv, Hch|]. by exists (begin_now env), st.
  - apply write_begin_publish in E as (-> & -> & _ & Hd & H1 & H2 & Hsh & _). intros Hw.
    apply write_publish_wrote in Hw as (Hwr & Hsh' & _). split; [|by exists (publish_now env), st1].
    assert (store_inv blake3 st1) as Hinv1.
    { destruct Hi as [Ha Hs Hy]. split; rewrite ?Hd, ?Hsh, ?H1, ?H2; [done|set_solver|done]. }
    eapply disk_change_inv; [exact Hinv1|]. eapply wrote_change; try done; rewrite Hsh', Hsh; set_solver.
Qed.

Lemma wrote_grows now hash content st st' h : wrote now hash content st st' h ->
  forall k o, disk st !! k = Some o -> exists o', disk st' !! k = Some o' /\ f_content o' = f_content o.
Proof.
  intros Hw k o Hk. destruct Hw as [-> _ _|o1 Ho -> _ _|Ho -> _ _ _]; [by exists o| |].
  - destruct (decide (hash = k)) as [<-|Hne]; [|by exists o; rewrite lookup_insert_ne].
    eexists. rewrite lookup_insert_eq. split; [done|]. simpl. congruence.
  - exists o. rewrite lookup_insert_ne by congruence. done.
Qed.

(** Whatever a write of a blob returns, nothing is lost; a hash it returns
    reads back. *)
Lemma write_blob_facts data env st st' h :
  contents_ok blake3 U st -> sizes_ok st -> storable U data -> write_blob blake3 data env st = (st', h) ->
  contents_ok blake3 U st' /\ sizes_ok st' /\ blobs_kept st st' /\
  (h <> ZERO_HASH -> read_blob st' true h = Some data).
Proof.
  intros Hc Hs Hd Hw. pose proof Hc as [Hi HU].
  pose proof (write_object_any _ _ _ _ _ _ Hi Hw) as (Hi' & now & st0 & Hd0 & Hwr).
  split; [|split; [|split]].
  - split; [done|]. eapply wrote_in_U; [exact Hwr|apply Hd|by rewrite Hd0].
  - unfold sizes_ok. pose proof (write_object_sizes (lit "blob") (blob_body data) env st) as E.
    unfold write_blob in Hw. rewrite Hw in E. simpl in E. by rewrite E.
  - apply grown_blobs. intros k o Hk. eapply wrote_grows; [exact Hwr|by rewrite Hd0].
  - intros Hz. by apply (blob_written blake3 U data) in Hw as (_ & Hr & _).
Qed.

(** The node a write leaves at a path. *)
Lemma written_entry data env st st' h m :
  contents_ok blake3 U st -> sizes_ok st -> storable U data -> write_blob blake3 data env st = (st', h) ->
  entry_ok st' (mkEntry Blob h m) /\
  node_of st' (mkEntry Blob h m) = mkNode Blob m (if decide (h = ZERO_HASH) then [] else data).
Proof.
  intros Hc Hs Hd Hw. destruct (write_blob_facts _ _ _ _ _ Hc Hs Hd Hw) as (_ & _ & _ & Hr).
  unfold entry_ok, node_of, content. simpl. case_decide as Hz; [split; [by left|done]|].
  rewrite (Hr Hz). split; [|done]. right. exists data. auto.
Qed.

(** ** Branches and paths *)

Lemma simulates_same d r : session_ok d -> simulates (d, r) (abs d, r).
Proof. done. Qed.

Lemma abs_trees d br : trees (abs d) !! br = heap d !! br ≫= tree_of (store_ d).
Proof. simpl. apply lookup_omap. Qed.

Lemma branch_cases d br :
  (is_retired d br = true /\ trees (abs d) !! br = None) \/
  exists b, heap d !! br = Some b /\ retired b = false /\ is_retired d br = false /\
    trees (abs d) !! br = Some (nodes (store_ d) (bc_wt b)).
Proof.
  rewrite abs_trees. unfold is_retired. destruct (heap d !! br) as [b|] eqn:Hb; [|by left]. simpl.
  unfold tree_of. destruct (retired b) eqn:Hr; [by left|]. right. by exists b.
Qed.

Lemma nodes_lookup d br b p : heap d !! br = Some b ->
  nodes (store_ d) (bc_wt b) !! p = node_of (store_ d) <$> lookup_at d br p.
Proof.
  intros Hb. unfold nodes, lookup_at. rewrite lookup_fmap, (wt_of_heap _ _ _ Hb). by rewrite wt_lookup_live.
Qed.

Lemma lookup_live d br p e : lookup_at d br p = Some e -> is_deleted e = false.
Proof.
  unfold lookup_at. rewrite wt_lookup_live. unfold live. rewrite lookup_live_of.
  destruct (raw _ !! p) as [e'|]; [|done]. destruct (is_deleted e') eqn:E; [done|]. by intros [= <-].
Qed.

Lemma with_path_sim path br d body sbody :
  session_ok d ->
  (forall b, heap d !! br = Some b -> retired b = false ->
     simulates (finish (fun _ => ROk) body) (sbody (nodes (store_ d) (bc_wt b)))) ->
  simulates (finish (fun _ => ROk) (with_path path br d body)) (spec_path path br (abs d) sbody).
Proof.
  intros Hok Hbody. unfold with_path, spec_path.
  destruct (touches_fast_control_path path); [by apply simulates_same|].
  destruct (is_hidden path); [by apply simulates_same|].
  destruct (branch_cases d br) as [[-> ->]|(b & Hb & Hr & -> & ->)]; [by apply simulates_same|].
  by apply Hbody.
Qed.

(** A new entry at a path, in a store that may have grown. *)
Lemma insert_sim d br b st path e r :
  session_ok d -> heap d !! br = Some b -> retired b = false ->
  contents_ok blake3 U st -> sizes_ok st -> blobs_kept (store_ d) st ->
  entry_ok st e -> is_deleted e = false ->
  simulates (insert_at br path e (set_store st d), r)
    (set_tree br (<[path := node_of st e]> (nodes (store_ d) (bc_wt b))) (abs d), r).
Proof.
  intros Hok Hb Hr Hc Hs Hk He Hd. pose proof (ok_store _ _ Hok Hc Hs Hk) as Hok1.
  assert (nodes st (bc_wt b) = nodes (store_ d) (bc_wt b)) as Hn.
  { apply map_fmap_ext. intros p x Hx. apply node_of_kept; [done|]. by eapply so_trees. }
  assert (wt_of (set_store st d) br = bc_wt b) as Hwt by by apply wt_of_heap.
  unfold insert_at, simulates. rewrite Hwt. simpl. split_and!; [|unfold insert_at; simpl|done].
  - eapply ok_tree; [done|exact Hb|done|]. intros p x Hx. simpl.
    eapply live_insert_ok; [|exact He|exact Hx]. intros q y Hy. by eapply (so_trees _ Hok1 br b).
  - rewrite (abs_tree _ _ b) by done. simpl. rewrite nodes_insert by done. rewrite Hn.
    rewrite <- (abs_store d st) by done. done.
Qed.

Lemma tree_sim d br b wt t r :
  session_ok d -> heap d !! br = Some b -> retired b = false -> nodes (store_ d) wt = t ->
  (forall p e, live wt !! p = Some e -> exists q, live (bc_wt b) !! q = Some e) ->
  simulates (set_wt br wt d, r) (set_tree br t (abs d), r).
Proof.
  intros Hok Hb Hr <- Hfrom. split; [|split; [by apply (abs_tree _ _ b)|done]].
  eapply ok_tree; [done|exact Hb|done|]. intros p e He. destruct (Hfrom p e He) as [q Hq].
  by eapply (so_trees _ Hok br b).
Qed.
(** ** The calls on paths *)

(** Writing [data] through [env] succeeds, and the store can hold it. *)
Definition writes (env : WriteEnv) (d : Daemon) (data : bytes) : Prop :=
  storable U data /\ (write_blob blake3 data env (store_ d)).2 <> ZERO_HASH.

Lemma wt_heap_lookup d br b p : heap d !! br = Some b -> live (bc_wt b) !! p = lookup_at d br p.
Proof. intros Hb. unfold lookup_at. by rewrite (wt_of_heap _ _ _ Hb), wt_lookup_live. Qed.

(** Removing entries. *)
Lemma remove_sim d br b path r :
  session_ok d -> heap d !! br = Some b -> retired b = false ->
  simulates (remove_at br path d, r) (set_tree br (delete path (nodes (store_ d) (bc_wt b))) (abs d), r).
Proof.
  intros Hok Hb Hr. unfold remove_at. rewrite (wt_of_heap _ _ _ Hb). apply (tree_sim _ _ b); try done.
  - apply nodes_remove.
  - intros p e He. exists p. unfold wt_remove in He. rewrite live_remove in He.
    by apply lookup_delete_Some in He as [_ He].
Qed.

Lemma insert_here d br b path e r :
  session_ok d -> heap d !! br = Some b -> retired b = false -> entry_ok (store_ d) e -> is_deleted e = false ->
  simulates (insert_at br path e d, r)
    (set_tree br (<[path := node_of (store_ d) e]> (nodes (store_ d) (bc_wt b))) (abs d), r).
Proof.
  intros Hok Hb Hr He Hd. pose proof (insert_sim d br b (store_ d) path e r Hok Hb Hr) as H.
  rewrite set_store_id in H. apply H; [apply Hok|apply Hok|done..].
Qed.

Lemma unlink_sim path br d : session_ok d ->
  simulates (finish (fun _ => ROk) (cas_unlink path br d)) (spec_unlink path br (abs d)).
Proof.
  intros Hok. apply with_path_sim; [done|]. intros b Hb Hr. rewrite (nodes_lookup _ _ _ _ Hb).
  destruct (lookup_at d br path) as [e|]; simpl; [|by apply simulates_same].
  case_decide; [by apply simulates_same|]. by apply remove_sim.
Qed.

Lemma mkdir_sim path mode br d : session_ok d ->
  simulates (finish (fun _ => ROk) (cas_mkdir path mode br d)) (spec_mkdir path mode br (abs d)).
Proof.
  intros Hok. apply with_path_sim; [done|]. intros b Hb Hr. rewrite (nodes_lookup _ _ _ _ Hb).
  destruct (lookup_at d br path) as [e|]; simpl.
  - by apply simulates_same.
  - by apply (insert_here d br b path (mkEntry Tree ZERO_HASH _)).
Qed.

Lemma symlink_sim env target path br d : session_ok d ->
  writes (fe_write env) d target ->
  simulates (finish (fun _ => ROk) (cas_symlink blake3 env target path br d)) (spec_symlink target path br (abs d)).
Proof.
  intros Hok [Hs Hw]. apply with_path_sim; [done|]. intros b Hb Hr. rewrite (nodes_lookup _ _ _ _ Hb).
  destruct (lookup_at d br path) as [e|]; simpl.
  - by apply simulates_same.
  - destruct (write_blob blake3 target (fe_write env) (store_ d)) as [st h] eqn:E. simpl in Hw.
    destruct (write_blob_facts _ _ _ _ _ (so_store _ Hok) (so_sizes _ Hok) Hs E) as (A1 & A2 & A3 & A4).
    assert (node_of st (mkEntry Symlink h 41471) = mkNode Symlink 41471 target) as <-.
    { unfold node_of, content. simpl. by rewrite decide_False, A4. }
    apply (insert_sim d br b st); try done. split; [done|]. exists target. auto.
Qed.

Lemma chmod_sim path mode br d : session_ok d ->
  simulates (finish (fun _ => ROk) (cas_chmod path mode br d)) (spec_chmod path mode br (abs d)).
Proof.
  intros Hok. unfold cas_chmod, spec_chmod.
  destruct (touches_fast_control_path path); [by apply simulates_same|].
  destruct (is_hidden path); [by apply simulates_same|].
  destruct (branch_cases d br) as [[-> ->]|(b & Hb & Hr & -> & ->)]; [by apply simulates_same|].
  rewrite (nodes_lookup _ _ _ _ Hb).
  destruct (lookup_at d br path) as [e|] eqn:He; simpl; [|by apply simulates_same].
  apply (insert_here d br b path (mkEntry (e_kind e) (e_hash e) _)); try done.
  - unfold entry_ok. simpl. apply (so_trees _ Hok br b path e); [done..|]. by rewrite (wt_heap_lookup _ _ _ _ Hb).
  - exact (lookup_live _ _ _ _ He).
Qed.

Lemma truncate_path_sim env path length br d : session_ok d -> (0 <= length < 2 ^ 63)%Z ->
  fe_read env = true ->
  (forall t n, trees (abs d) !! br = Some t -> t !! path = Some n -> n_kind n = Blob ->
     writes (fe_write env) d (Spec.ftruncate (n_data n) (Z.to_N length))) ->
  simulates (finish (fun _ => ROk) (cas_truncate blake3 env path length None br d))
    (spec_truncate path length None br (abs d)).
Proof.
  intros Hok Hl Hio Hw. unfold cas_truncate, spec_truncate. rewrite Hio.
  apply (with_path_sim path br d); [done|]. intros b Hb Hr. rewrite (nodes_lookup _ _ _ _ Hb).
  destruct (lookup_at d br path) as [e|] eqn:He; simpl; [|by apply simulates_same].
  destruct (decide (e_kind e = Blob)) as [Hk|Hk].
  2:{ rewrite bool_decide_false by done. by apply simulates_same. }
  rewrite bool_decide_true by done. simpl.
  destruct (Hw (nodes (store_ d) (bc_wt b)) (node_of (store_ d) e)) as [Hs Hne].
  { rewrite abs_trees, Hb. simpl. unfold tree_of. by rewrite Hr. }
  { by rewrite (nodes_lookup _ _ _ _ Hb), He. }
  { done. }
  assert (u64z length = Z.to_N length) as Hu by (unfold u64z; rewrite Z.mod_small by lia; done).
  unfold resize. rewrite Hu. fold (content (store_ d) (e_hash e)). simpl in Hs, Hne. rewrite Hk in *.
  destruct (write_blob blake3 _ (fe_write env) (store_ d)) as [st h] eqn:E. simpl in Hne.
  destruct (write_blob_facts _ _ _ _ _ (so_store _ Hok) (so_sizes _ Hok) Hs E) as (A1 & A2 & A3 & A4).
  destruct (written_entry _ _ _ _ _ (e_mode e) (so_store _ Hok) (so_sizes _ Hok) Hs E) as [B1 B2].
  rewrite decide_False in B2 by done. rewrite <- B2. by apply (insert_sim d br b st).
Qed.

Lemma rmdir_sim path br d : session_ok d ->
  simulates (finish (fun _ => ROk) (cas_rmdir path br d)) (spec_rmdir path br (abs d)).
Proof.
  intros Hok. apply with_path_sim; [done|]. intros b Hb Hr.
  rewrite (nodes_lookup _ _ _ _ Hb), (wt_of_heap _ _ _ Hb).
  destruct (lookup_at d br path) as [e|]; simpl; [|by apply simulates_same].
  case_bool_decide; simpl; [|by apply simulates_same].
  rewrite (bool_decide_ext (children (nodes (store_ d) (bc_wt b)) path = []) (list_dir (bc_wt b) path = []))
    by (unfold nodes; rewrite children_list_dir; by destruct (list_dir _ _)).
  case_bool_decide; simpl; [|by apply simulates_same]. by apply remove_sim.
Qed.

(** The directories a rename may name: neither inside the other, nothing
    strictly under the new one. *)
Definition can_move (from to : str) (t : Nodes) : Prop :=
  dir_path from /\ dir_path to /\ under from to = false /\ under to from = false /\
  forall p, has_prefix (with_slash to) p = true -> t !! p = None.

Lemma rename_dir_nodes st wt from to :
  can_move from to (nodes st wt) -> is_Some (live wt !! from) ->
  nodes st (rename_dir wt from to) = rename_subtree from to (nodes st wt).
Proof.
  intros (Hf & Ht & Hft & Htf & Hemp) [e He]. apply map_eq. intros p.
  rewrite rename_subtree_lookup by done. unfold nodes in *.
  rewrite !lookup_fmap, (live_rename_dir wt from to p) by done.
  assert (raw wt !! from = Some e /\ is_deleted e = false) as [Hrf Hdel].
  { unfold live in He. rewrite lookup_live_of in He. destruct (raw wt !! from) as [x|]; [|done].
    destruct (is_deleted x) eqn:E; [done|]. by simplify_eq. }
  destruct (under from p) eqn:Hup, (under to p) eqn:Hut; [|done| |done].
  { destruct (under_nested _ _ _ Hf Ht Hup Hut); congruence. }
  set (k := from ++ drop (length to) p). pose proof (lookup_live_of (raw wt) k) as Hlk. fold (live wt) in Hlk.
  rewrite Hlk.
  destruct (raw wt !! k) as [x|] eqn:Hk.
  - destruct (is_deleted x) eqn:Hx; [|done]. simpl.
    destruct (decide (p = to)) as [->|Hne].
    + unfold k in Hk. rewrite drop_all, app_nil_r in Hk. congruence.
    + unfold under in Hut. rewrite bool_decide_false in Hut by done. simpl in Hut.
      specialize (Hemp p Hut). rewrite lookup_fmap in Hemp. by rewrite Hemp.
  - done.
Qed.

Lemma rename_dir_from wt from to p e :
  dir_path from -> dir_path to -> under from to = false -> under to from = false ->
  live (rename_dir wt from to) !! p = Some e -> exists q, live wt !! q = Some e.
Proof.
  intros Hf Ht Hft Htf. rewrite live_rename_dir by done.
  destruct (under from p); [done|]. destruct (under to p); [|by exists p].
  destruct (raw wt !! _) as [x|] eqn:Hk; [|by exists p]. destruct (is_deleted x) eqn:Hx; [done|].
  intros [= <-]. eexists. unfold live. rewrite lookup_live_of, Hk, Hx. done.
Qed.

Lemma live_rename_entry t o n e : live t !! o = Some e -> live (rename_entry t o n) = <[n := e]> (delete o (live t)).
Proof.
  intros He. assert (raw t !! o = Some e /\ is_deleted e = false) as [Hr Hd].
  { unfold live in He. rewrite lookup_live_of in He. destruct (raw t !! o) as [x|]; [|done].
    destruct (is_deleted x) eqn:E; [done|]. by simplify_eq. }
  unfold rename_entry. rewrite lookup_raw_locked_raw, Hr, Hd, live_set. unfold Spec.put.
  by rewrite Hd, live_remove.
Qed.

Lemma rename_sim from to flags br d : session_ok d ->
  (forall t n, trees (abs d) !! br = Some t -> t !! from = Some n -> n_kind n = Tree -> can_move from to t) ->
  simulates (finish (fun _ => ROk) (cas_rename from to flags br d)) (spec_rename from to br (abs d)).
Proof.
  intros Hok Hmv. unfold cas_rename, spec_rename.
  destruct (_ || _); [by apply simulates_same|]. destruct (_ || _); [by apply simulates_same|].
  destruct (branch_cases d br) as [[-> ->]|(b & Hb & Hr & -> & Ht)]; [by apply simulates_same|].
  rewrite Ht. specialize (Hmv _ (node_of (store_ d) (default whiteout (lookup_at d br from))) Ht).
  rewrite (nodes_lookup _ _ _ _ Hb) in *. rewrite (wt_of_heap _ _ _ Hb).
  destruct (lookup_at d br from) as [e|] eqn:He; [|by apply simulates_same].
  rewrite <- (wt_heap_lookup _ _ _ _ Hb) in He. simpl in *.
  case_decide as Hk.
  - specialize (Hmv eq_refl Hk). pose proof Hmv as (Hf & Hto & Hft & Htf & _).
    apply (tree_sim _ _ b); try done; [by apply rename_dir_nodes|].
    intros p x. by apply rename_dir_from.
  - apply (tree_sim _ _ b); try done; unfold nodes; rewrite (live_rename_entry _ _ _ _ He).
    + by rewrite fmap_insert, fmap_delete.
    + intros p x [[_ <-]|[_ [_ Hx]%lookup_delete_Some]]%lookup_insert_Some; by eexists.
Qed.

(** ** The calls that only look *)

Lemma look_sim (d : Daemon) (br : N) (path : str) (body : Nodes -> Node -> reply) (r : reply) :
  (forall b, heap d !! br = Some b -> retired b = false ->
     r = match lookup_at d br path with
         | None => RErr ENOENT
         | Some e => body (nodes (store_ d) (bc_wt b)) (node_of (store_ d) e)
         end) ->
  is_Some (trees (abs d) !! br) -> r = spec_look path br (abs d) body.
Proof.
  intros Hr [t Ht]. unfold spec_look.
  destruct (branch_cases d br) as [[_ Hn]|(b & Hb & Hret & _ & Ht')]; [congruence|].
  rewrite Ht', (nodes_lookup _ _ _ _ Hb), (Hr b Hb Hret). by destruct (lookup_at d br path).
Qed.

Lemma access_sim path mask br d : is_Some (trees (abs d) !! br) ->
  done_or (cas_access path mask br d) = spec_access path mask br (abs d).
Proof.
  intros Hbr. unfold cas_access, spec_access. destruct (is_fast_control_path path); [by destruct (_ || _)|].
  destruct (is_fast_control_descendant path); [done|]. destruct (is_hidden path); [done|].
  case_decide; [done|]. apply look_sim; [|done]. intros b _ _.
  destruct (lookup_at d br path) as [e|]; simpl; [|done]. by destruct (_ || _).
Qed.

Lemma touch_sim path br d : is_Some (trees (abs d) !! br) ->
  done_or (cas_touch path br d) = spec_touch path br (abs d).
Proof.
  intros Hbr. unfold cas_touch, spec_touch. destruct (touches_fast_control_path path); [done|].
  destruct (is_hidden path); [done|]. apply look_sim; [|done]. intros b _ _.
  by destruct (lookup_at d br path).
Qed.

Lemma readlink_sim env path size br d : session_ok d -> is_Some (trees (abs d) !! br) ->
  fe_read env = true -> 0 < size < 2 ^ 64 ->
  reply_of RData (cas_readlink env path size br d) = spec_readlink path size br (abs d).
Proof.
  intros Hok Hbr Hio Hs. unfold cas_readlink, spec_readlink. rewrite Hio.
  destruct (is_fast_control_path path); [done|]. destruct (is_fast_control_descendant path); [done|].
  destruct (is_hidden path); [done|]. apply look_sim; [|done]. intros b Hb Hr.
  destruct (lookup_at d br path) as [e|] eqn:He; simpl; [|done].
  rewrite <- (wt_heap_lookup _ _ _ _ Hb) in He.
  pose proof (so_trees _ Hok br b path e Hb Hr He) as Hent. unfold entry_ok in Hent.
  case_bool_decide as Hk; simpl; [|done]. rewrite Hk in *. unfold content.
  destruct Hent as [Hz (data & Hd & _)]. rewrite Hd, decide_False by done. simpl. f_equal.
  unfold u64. replace (size + 2 ^ 64 - 1) with (size - 1 + 1 * 2 ^ 64) by lia.
  rewrite N.Div0.mod_add, N.mod_small by lia. unfold len.
  destruct (N.le_gt_cases (size - 1) (N.of_nat (length data))) as [Hle|Hgt].
  - by rewrite N.min_l.
  - rewrite N.min_r by lia. rewrite !take_ge by lia. done.
Qed.

Lemma readdir_sim path br d : is_Some (trees (abs d) !! br) ->
  reply_of RNames (cas_readdir path br d) = spec_readdir path br (abs d).
Proof.
  intros [t Ht]. unfold cas_readdir, spec_readdir. destruct (is_hidden path); [done|].
  destruct (branch_cases d br) as [[_ Hn]|(b & Hb & _ & _ & Ht')]; [congruence|]. rewrite Ht'.
  rewrite (nodes_lookup _ _ _ _ Hb). unfold nodes. rewrite (@children_list_dir (node_of (store_ d)) (bc_wt b) path), (wt_of_heap _ _ _ Hb).
  assert (forall l : list str, filter (fun n => n <> lit ".agentvfs-store" /\ n <> lit ".agentvfs-control") l =
    filter (fun n => ~ reserved_name n) l) as Hfil.
  { intros l. apply list_filter_iff. intros x. unfold reserved_name. tauto. }
  case_decide as Hp; [rewrite bool_decide_true by done; simpl; by rewrite Hfil|].
  rewrite bool_decide_false by done. destruct (lookup_at d br path) as [e|]; simpl; [|done].
  case_decide as Hk; [rewrite bool_decide_true by done; simpl; by rewrite Hfil|].
  by rewrite bool_decide_false.
Qed.

(** ** The calls on handles *)

(** A handle in order shows its buffer over its base. *)
Lemma handle_shown st s : handle_ok st s -> exists w b,
  write_buf s = Some w /\ wb_inv w /\ base_of st s = Some b /\ base_size s = len b /\
  shown_file st s = Some (materialize w b) /\ effective_size w (len b) = len (materialize w b) /\
  storable U (materialize w b).
Proof.
  intros [[(w & Hw & Hwi) (b & Hb & Hbs & _)] Hst _]. exists w, b.
  assert (shown_file st s = Some (materialize w b)) as Hsh by (unfold shown_file; by rewrite Hw, Hb).
  split_and!; try done; [|by apply Hst]. destruct (materialize_shown w b Hwi) as [Hl _]. unfold len at 2. rewrite Hl. by rewrite N2Nat.id.
Qed.

Lemma open_of_shown st s w b :
  write_buf s = Some w -> shown_file st s = Some (materialize w b) -> base_size s = len b ->
  open_of st s = mkOpen (fh_path s) (fh_branch s) (materialize w b) (len b) (is_dirty w) (stale s).
Proof. intros Hw Hs Hb. unfold open_of, handle_dirty. by rewrite Hw, Hs, Hb. Qed.

Lemma abs_opens d fh : opens (abs d) !! fh = open_of (store_ d) <$> fh_table_ d !! fh.
Proof. simpl. apply lookup_fmap. Qed.

(** The branch of a current handle is its own, listed and not retired. *)
Lemma handle_branch d fh s : session_ok d -> fh_table_ d !! fh = Some s -> stale s = false ->
  branch_for_fh d s = fh_branch s /\ fh_branch s ∈ branches_ d /\
  exists b, heap d !! fh_branch s = Some b /\ retired b = false.
Proof.
  intros Hok Hs Hst. pose proof (t_handles _ (so_tables _ Hok) fh s Hs Hst) as Hin.
  split_and!; [|done|by apply (t_listed _ (so_tables _ Hok))].
  unfold branch_for_fh, branch_or_main, branch. by rewrite decide_True.
Qed.

Lemma with_handle_sim {A} (f : A -> reply) fh d body sbody :
  session_ok d ->
  (forall s b, fh_table_ d !! fh = Some s -> stale s = false -> fh_branch s ∈ branches_ d ->
     heap d !! fh_branch s = Some b -> retired b = false ->
     simulates (finish f (body (fh_branch s) s)) (sbody (open_of (store_ d) s))) ->
  simulates (finish f (with_handle fh d body)) (spec_handle fh (abs d) sbody).
Proof.
  intros Hok Hbody. unfold with_handle, spec_handle. rewrite abs_opens. unfold get_fh.
  destruct (fh_table_ d !! fh) as [s|] eqn:Hs; simpl; [|by apply simulates_same].
  destruct (stale s) eqn:Hst.
  { destruct (is_retired d (branch_for_fh d s)); by apply simulates_same. }
  destruct (handle_branch d fh s Hok Hs Hst) as (-> & Hin & b & Hb & Hr).
  unfold is_retired. rewrite Hb, Hr. by apply (Hbody s b).
Qed.

Lemma put_sim d fh s f (r : reply) : session_ok d -> handle_ok (store_ d) s ->
  (stale s = false -> fh_branch s ∈ branches_ d) -> open_of (store_ d) s = f ->
  simulates (put_fh fh s d, r) (set_open fh f (abs d), r).
Proof. intros Hok Hs Hb <-. split; [by apply ok_put|]. split; [apply abs_put|done]. Qed.

(** A new buffer over the same base. *)
Lemma new_buffer_ok st s w w' b : handle_ok st s -> write_buf s = Some w -> base_of st s = Some b ->
  wb_inv w' -> storable U (materialize w' b) ->
  handle_ok st (set_buf w' (forfeit_fd s)) /\
  open_of st (set_buf w' (forfeit_fd s)) =
    set_data (materialize w' b) (is_dirty w') (open_of st s).
Proof.
  intros [[_ (b' & Hb & Hbs & Hlt)] Hst _] Hw Hbase Hwi Hu.
  assert (b' = b) as -> by congruence.
  assert (base_of st (set_buf w' (forfeit_fd s)) = Some b) as Hb' by done.
  split; [split|].
  - split; [by exists w'|by exists b].
  - unfold shown_file. simpl. rewrite Hb'. simpl. by intros data [= <-].
  - done.
  - unfold open_of, set_data, shown_file, handle_dirty. simpl. rewrite Hb'. done.
Qed.

(** Filling the cache of a handle shows nothing. *)
Lemma cached_ok st s b : handle_ok st s -> base_of st s = Some b ->
  handle_ok st (set_cache b s) /\ open_of st (set_cache b s) = open_of st s.
Proof.
  intros [[Hbuf (b' & Hb & Hbs & Hlt)] Hst Hv] Hbase.
  assert (b' = b) as -> by congruence.
  assert (shown_file st (set_cache b s) = shown_file st s) as Hsh.
  { unfold shown_file. simpl. by rewrite Hbase. }
  split; [split|].
  - split; [done|by exists b].
  - by rewrite Hsh.
  - intros He. destruct (Hv He) as (A & B & C & base & D & F). split_and!; try done.
    exists b. split; [done|]. simpl; congruence.
  - unfold open_of. by rewrite Hsh.
Qed.

Lemma overlay_read_ok env fh size offset d s : session_ok d -> fe_read env = true ->
  fh_table_ d !! fh = Some s -> stale s = false -> (0 <= offset < 2 ^ 63)%Z ->
  exists d', overlay_read env fh size offset s d = (d', window (o_data (open_of (store_ d) s)) offset size) /\
    session_ok d' /\ abs d' = abs d.
Proof.
  intros Hok Hio Hs Hst Hoff. pose proof (so_handles _ Hok fh s Hs) as Hh.
  destruct (handle_shown _ _ Hh) as (w & b & Hw & Hwi & Hb & Hbs & Hsh & Hes & Hu).
  destruct (cached_ok _ _ _ Hh Hb) as [Hc Ho].
  unfold overlay_read. rewrite Hio, (ensure_base_cache_ok _ _ (ho_fh _ _ Hh)), Hb. simpl.
  eexists. split; [f_equal|split].
  - unfold buffer_of. simpl. rewrite Hw, Hsh. simpl.
    rewrite wb_read_slice by (try done; rewrite Hes; destruct Hu as [_ Hl]; lia).
    unfold window, u64z. rewrite Z.mod_small by lia. f_equal. f_equal. lia.
  - apply ok_put; [done|done|]. intros _. by apply (handle_branch d fh s).
  - by apply (abs_same_handle _ _ s).
Qed.

Lemma read_sim env fh size offset d : session_ok d -> fe_read env = true -> (0 <= offset < 2 ^ 63)%Z ->
  simulates (finish RData (cas_read env fh size offset d)) (spec_read fh size offset (abs d)).
Proof.
  intros Hok Hio Hoff. apply with_handle_sim; [done|]. intros s b Hs Hst _ _ _.
  destruct (overlay_read_ok env fh size offset d s Hok Hio Hs Hst Hoff) as (d' & -> & Hok' & Ha).
  by split.
Qed.

(** Writing into a hole before the last published length would show old bytes. *)
Definition floor_ok (f : OpenFile) (n : N) : Prop := o_floor f <= len (o_data f) \/ n <= len (o_data f).

Lemma is_dirty_write w offset data : wb_inv w -> offset + len data < 2 ^ 64 ->
  is_dirty (wb_write w offset data) = is_dirty w || negb (bool_decide (data = [])).
Proof.
  intros Hwi Hl. destruct (decide (data = [])) as [->|Hne]; [by rewrite orb_false_r|].
  rewrite bool_decide_false, orb_true_r by done.
  destruct (wb_write_facts w offset data Hwi Hne Hl) as (Hi & _ & _ & Hd).
  assert (0 < sum_len (overlay_ (wb_write w offset data))) as Hp.
  { specialize (Hd offset). rewrite decide_True in Hd by (pose proof (len_pos _ Hne); lia).
    rewrite N.sub_diag in Hd. destruct (overlay_ (wb_write w offset data)) as [|r l] eqn:E.
    - destruct data as [|x data']; [done|]. discriminate Hd.
    - destruct Hi as [Hr _ _]. rewrite E in Hr. destruct Hr as (_ & Hn & _). apply len_pos in Hn. simpl. lia. }
  unfold is_dirty. rewrite (wb_dirty _ Hi). apply orb_true_iff. left. by apply N.ltb_lt.
Qed.

Lemma write_sim fh data offset d : session_ok d -> (0 <= offset)%Z -> (offset + Z.of_N (len data) < 2 ^ 63)%Z ->
  (forall f, opens (abs d) !! fh = Some f ->
     floor_ok f (Z.to_N offset + len data) /\ storable U (o_data (written f data offset))) ->
  simulates (finish RCount (cas_write fh data offset d)) (spec_write fh data offset (abs d)).
Proof.
  intros Hok Hpos Hoff Hf. apply with_handle_sim; [done|]. intros s b Hs Hst Hin _ _.
  pose proof (so_handles _ Hok fh s Hs) as Hh.
  destruct (handle_shown _ _ Hh) as (w & base & Hw & Hwi & Hb & Hbs & Hsh & Hes & Hu).
  destruct (Hf (open_of (store_ d) s)) as [Hfl Hst']; [by rewrite abs_opens, Hs|].
  rewrite (open_of_shown _ _ _ _ Hw Hsh Hbs) in Hfl, Hst'. unfold floor_ok in Hfl. simpl in Hfl, Hst'.
  assert (u64z offset = Z.to_N offset) as Hoz by (unfold u64z; rewrite Z.mod_small by lia; done).
  assert (Z.to_N offset + len data < 2 ^ 64) as Hfit by lia.
  pose proof (write_is_pwrite w base (Z.to_N offset) data Hwi Hfit ltac:(rewrite Hes; lia)) as Hpw.
  assert (wb_inv (wb_write w (Z.to_N offset) data)) as Hwi'.
  { destruct data as [|x data']; [done|]. by apply wb_write_facts. }
  destruct (new_buffer_ok _ _ _ (wb_write w (Z.to_N offset) data) base Hh Hw Hb Hwi' ltac:(by rewrite Hpw)) as [Hh' Ho].
  simpl. unfold buffer_of. simpl. rewrite Hw, Hoz. simpl. unfold finish. simpl.
  apply put_sim; [done|exact Hh'|done|]. rewrite Ho, Hpw, is_dirty_write by done.
  unfold written. by rewrite (open_of_shown _ _ _ _ Hw Hsh Hbs).
Qed.

Lemma truncate_fh_sim env path length fh br d : session_ok d -> (0 <= length < 2 ^ 63)%Z ->
  (forall f, opens (abs d) !! fh = Some f ->
     floor_ok f (Z.to_N length) /\ storable U (Spec.ftruncate (o_data f) (Z.to_N length))) ->
  simulates (finish (fun _ => ROk) (cas_truncate blake3 env path length (Some fh) br d))
    (spec_truncate path length (Some fh) br (abs d)).
Proof.
  intros Hok Hl Hf. unfold cas_truncate, spec_truncate.
  destruct (touches_fast_control_path path); [by apply simulates_same|].
  destruct (is_hidden path); [by apply simulates_same|].
  apply with_handle_sim; [done|]. intros s b Hs Hst Hin _ _.
  pose proof (so_handles _ Hok fh s Hs) as Hh.
  destruct (handle_shown _ _ Hh) as (w & base & Hw & Hwi & Hb & Hbs & Hsh & Hes & Hu).
  destruct (Hf (open_of (store_ d) s)) as [Hfl Hst']; [by rewrite abs_opens, Hs|].
  rewrite (open_of_shown _ _ _ _ Hw Hsh Hbs) in Hfl, Hst'. unfold floor_ok in Hfl. simpl in Hfl, Hst'.
  assert (u64z length = Z.to_N length) as Hlz by (unfold u64z; rewrite Z.mod_small by lia; done).
  pose proof (truncate_is_ftruncate w base (Z.to_N length) Hwi ltac:(rewrite Hes; lia)) as Htr.
  destruct (wb_truncate_facts w (Z.to_N length) Hwi) as (Hwi' & _).
  destruct (new_buffer_ok _ _ _ (wb_truncate w (Z.to_N length)) base Hh Hw Hb Hwi' ltac:(by rewrite Htr)) as [Hh' Ho].
  simpl. unfold buffer_of. simpl. rewrite Hw, Hlz. simpl. unfold finish. simpl.
  apply put_sim; [done|exact Hh'|done|]. rewrite Ho, Htr, (open_of_shown _ _ _ _ Hw Hsh Hbs).
  unfold set_data. simpl. f_equal; [by rewrite Hsh|]. unfold wb_truncate, is_dirty.
  destruct (lower_split (Z.to_N length) (overlay_ w)) as [x1 x2].
  destruct (trim_last (Z.to_N length) x1) as [x3 x4].
  apply orb_true_iff. right. apply bool_decide_eq_true. by eexists.
Qed.

(** ** Publishing a handle *)

Lemma flush_sizes env s st wt : sizes_ok st -> sizes_ok (flush_handle blake3 env s st wt).1.1.1.
Proof.
  intros Hs. unfold flush_handle. destruct (write_buf s) as [w|]; [|done].
  destruct (negb (is_dirty w)); [done|].
  set (data := materialize w _). pose proof (write_object_sizes (lit "blob") (blob_body data) (blob_write env) st) as E.
  unfold write_blob. destruct (write_object _ _ _ _ _) as [st' h]. simpl in *.
  case_decide; simpl; unfold sizes_ok; by rewrite E.
Qed.

Lemma flush_clean env s st wt : handle_dirty s = false -> flush_handle blake3 env s st wt = (st, wt, s, true).
Proof.
  unfold handle_dirty, flush_handle. destruct (write_buf s) as [w|]; [|done]. by intros ->.
Qed.

(** A flush of a dirty handle, its parts. *)
Lemma flush_dirty env s st wt w b :
  handle_ok st s -> write_buf s = Some w -> base_of st s = Some b -> is_dirty w = true -> base_io env = true ->
  (write_blob blake3 (materialize w b) (blob_write env) st).2 <> ZERO_HASH ->
  exists st' h, write_blob blake3 (materialize w b) (blob_write env) st = (st', h) /\ h <> ZERO_HASH /\
    flush_handle blake3 env s st wt =
      (st', wt_insert wt (fh_path s) (mkEntry Blob h (mode_at wt (fh_path s))),
       rebased h (materialize w b) w (set_cache b s), true).
Proof.
  intros Hs Hw Hb Hd Hio Hne. unfold flush_handle. rewrite Hw, Hd. simpl.
  rewrite Hio, (ensure_base_cache_ok _ _ (ho_fh _ _ Hs)), Hb. simpl.
  destruct (write_blob _ _ _ _) as [st' h]. simpl in Hne. exists st', h. rewrite decide_False by done. done.
Qed.

Lemma rebased_ok st st' s w b h :
  handle_ok st s -> write_buf s = Some w -> is_dirty w = true -> storable U (materialize w b) ->
  handle_ok st' (rebased h (materialize w b) w (set_cache b s)) /\
  open_of st' (rebased h (materialize w b) w (set_cache b s)) =
    mkOpen (fh_path s) (fh_branch s) (materialize w b) (len (materialize w b)) false (stale s).
Proof.
  intros [_ _ Hv] Hw Hd Hu. set (s' := rebased _ _ _ _).
  assert (shown_file st' s' = Some (materialize w b)) as Hsh.
  { unfold shown_file, base_of. simpl. by rewrite materialize_clear. }
  split; [split|].
  - split; [eexists; split; [done|apply wb_inv_clear]|]. exists (materialize w b).
    destruct Hu as [_ Hl]. split_and!; [done..|lia].
  - rewrite Hsh. by intros data [= <-].
  - intros He. destruct (Hv He) as [Hcl _]. unfold handle_dirty in Hcl. rewrite Hw in Hcl. congruence.
  - unfold open_of. rewrite Hsh. done.
Qed.

Lemma mode_at_node st wt p :
  mode_at wt p = match nodes st wt !! p with Some n => n_mode n | None => 33188 end.
Proof. unfold mode_at, nodes. rewrite lookup_fmap, wt_lookup_live. by destruct (live wt !! p). Qed.

Definition flush_writes (env : FuseEnv) (d : Daemon) (fh : N) : Prop :=
  forall f, opens (abs d) !! fh = Some f -> o_stale f = false -> o_dirty f = true ->
    writes (blob_write (fe_flush env)) d (o_data f).

Lemma flush_sim env fh d : session_ok d -> base_io (fe_flush env) = true -> flush_writes env d fh ->
  simulates (finish (fun _ => ROk) (cas_flush blake3 env fh d)) (spec_flush fh (abs d)).
Proof.
  intros Hok Hio Hwr. apply with_handle_sim; [done|]. intros s b Hs Hst Hin Hb Hr.
  pose proof (so_handles _ Hok fh s Hs) as Hh. simpl.
  assert (trees (abs d) !! fh_branch s = Some (nodes (store_ d) (bc_wt b))) as Ht.
  { rewrite abs_trees, Hb. simpl. unfold tree_of. by rewrite Hr. }
  simpl in Ht. rewrite Ht.
  destruct (handle_shown _ _ Hh) as (w & base & Hw & Hwi & Hbase & Hbs & Hsh & Hes & Hu).
  assert (handle_dirty s = is_dirty w) as Hdw by (unfold handle_dirty; by rewrite Hw).
  destruct (handle_dirty s) eqn:Hd.
  2:{ rewrite flush_clean by done. rewrite set_store_id, (wt_of_heap _ _ _ Hb). unfold finish. simpl.
      assert (set_wt (fh_branch s) (bc_wt b) d = d) as ->.
      { rewrite (set_wt_heap _ _ _ _ Hb). rewrite insert_id; [by destruct d|]. rewrite Hb. by destruct b. }
      split; [apply ok_put; try done|]. split; [by apply (abs_same_handle _ _ s)|done]. }
  destruct (Hwr (open_of (store_ d) s)) as [Hst' Hne]; [by rewrite abs_opens, Hs|done|done|].
  rewrite (open_of_shown _ _ _ _ Hw Hsh Hbs) in Hne. simpl in Hne.
  destruct (flush_dirty (fe_flush env) s (store_ d) (wt_of d (fh_branch s)) w base Hh Hw Hbase
    (eq_sym Hdw) Hio Hne) as (st & h & Hwb & Hz & ->).
  destruct (written_entry _ _ _ _ _ (mode_at (bc_wt b) (fh_path s)) (so_store _ Hok) (so_sizes _ Hok) Hu Hwb) as [He Hn].
  rewrite decide_False in Hn by done.
  destruct (write_blob_facts _ _ _ _ _ (so_store _ Hok) (so_sizes _ Hok) Hu Hwb) as (A1 & A2 & A3 & _).
  destruct (insert_sim d (fh_branch s) b st (fh_path s) (mkEntry Blob h (mode_at (bc_wt b) (fh_path s))) ROk
    Hok Hb Hr A1 A2 A3 He eq_refl) as (Hok1 & Habs1 & _). simpl in Hok1, Habs1.
  unfold insert_at in Hok1, Habs1. change (wt_of (set_store st d) (fh_branch s)) with (wt_of d (fh_branch s)) in *.
  rewrite (wt_of_heap _ _ _ Hb) in *. rewrite Hn in Habs1. unfold finish. simpl.
  set (d1 := set_wt (fh_branch s) _ (set_store st d)) in *.
  destruct (set_wt_frame (fh_branch s) (wt_insert (bc_wt b) (fh_path s) (mkEntry Blob h (mode_at (bc_wt b) (fh_path s))))
    (set_store st d)) as (E1 & _ & E3 & _). fold d1 in E1, E3. simpl in E1, E3.
  destruct (rebased_ok (store_ d) st s w base h Hh Hw (eq_sym Hdw) Hu) as [Hrh Hro].
  unfold publish_node, published. rewrite (open_of_shown _ _ _ _ Hw Hsh Hbs). simpl.
  rewrite <- mode_at_node, <- Habs1.
  apply put_sim; [done|by rewrite E1|by rewrite E3|by rewrite E1].
Qed.

Lemma release_sim env fh d : session_ok d -> base_io (fe_flush env) = true -> flush_writes env d fh ->
  simulates (cas_release blake3 env fh d, ROk) (spec_release fh (abs d)).
Proof.
  intros Hok Hio Hwr. destruct (flush_sim env fh d Hok Hio Hwr) as (Hok1 & Habs & _).
  unfold cas_release, spec_release. rewrite <- Habs. simpl in Hok1. set (d1 := (cas_flush _ _ _ _).1) in *.
  split; [|split; [|done]]; simpl.
  - apply ok_table; [done|]. intros x sx [_ Hx]%lookup_delete_Some. split; [by eapply so_handles|].
    by apply (t_handles _ (so_tables _ Hok1) x).
  - unfold abs, release_fh, set_table. simpl. f_equal. by rewrite fmap_delete.
Qed.

(** ** Opening *)

Lemma allocate_sim d s f : session_ok d -> handle_ok (store_ d) s ->
  (stale s = false -> fh_branch s ∈ branches_ d) -> open_of (store_ d) s = f ->
  let x := allocate_fh s d in let y := new_open f (abs d) in
  simulates (x.1, RHandle (Some x.2)) (y.1, RHandle (Some y.2)).
Proof.
  intros Hok Hs Hb <-. split; [|split; [|done]].
  - apply ok_table; [done|]. intros x sx [[_ <-]|[_ Hx]]%lookup_insert_Some; [done|].
    split; [by eapply so_handles|]. by apply (t_handles _ (so_tables _ Hok) x).
  - unfold abs, allocate_fh, new_open. simpl. by rewrite fmap_insert.
Qed.

Lemma listed d br b : session_ok d -> heap d !! br = Some b -> retired b = false -> br ∈ branches_ d.
Proof. intros Hok Hb Hr. apply (t_listed _ (so_tables _ Hok)). by exists b. Qed.

Lemma truncated_ok st path br pin blob : storable U [] ->
  handle_ok st (truncated_handle path br pin blob) /\
  open_of st (truncated_handle path br pin blob) = mkOpen path br [] 0 false false.
Proof.
  intros Hu. split; [split|done].
  - split; [eexists; split; [done|apply new_write_buffer_inv]|]. by exists [].
  - by intros data [= <-].
  - done.
Qed.

(** The node of an empty file is the same, written or not. *)
Lemma empty_blob_sim d br b env path m st h : session_ok d -> storable U [] ->
  heap d !! br = Some b -> retired b = false -> write_blob blake3 [] env (store_ d) = (st, h) ->
  let d1 := insert_at br path (mkEntry Blob h m) (set_store st d) in
  session_ok d1 /\ branches_ d1 = branches_ d /\
  abs d1 = set_tree br (<[path := mkNode Blob m []]> (nodes (store_ d) (bc_wt b))) (abs d).
Proof.
  intros Hok Hu Hb Hr Hw d1.
  destruct (written_entry _ _ _ _ _ m (so_store _ Hok) (so_sizes _ Hok) Hu Hw) as [He Hn].
  destruct (write_blob_facts _ _ _ _ _ (so_store _ Hok) (so_sizes _ Hok) Hu Hw) as (A1 & A2 & A3 & _).
  destruct (insert_sim d br b st path (mkEntry Blob h m) ROk Hok Hb Hr A1 A2 A3 He eq_refl) as (B1 & B2 & _).
  split; [exact B1|]. split; [|].
  - unfold d1, insert_at. by destruct (set_wt_frame br (wt_insert (wt_of (set_store st d) br) path (mkEntry Blob h m))
      (set_store st d)) as (_ & _ & -> & _).
  - unfold d1. simpl in B2. rewrite B2, Hn. by case_decide.
Qed.

Lemma create_sim env path mode br d : session_ok d -> storable U [] ->
  simulates (finish (fun fh => RHandle (Some fh)) (cas_create blake3 env path mode br d))
    (spec_create path mode br (abs d)).
Proof.
  intros Hok Hu. unfold cas_create, spec_create, spec_path.
  destruct (touches_fast_control_path path); [by apply simulates_same|].
  destruct (is_hidden path); [by apply simulates_same|].
  destruct (branch_cases d br) as [[-> ->]|(b & Hb & Hr & -> & ->)]; [by apply simulates_same|].
  destruct (write_blob blake3 [] (fe_write env) (store_ d)) as [st h] eqn:E.
  destruct (empty_blob_sim d br b _ path (N.lor (perm_bits mode) S_IFREG) _ _ Hok Hu Hb Hr E) as (B1 & B2 & <-).
  set (d1 := insert_at _ _ _ _) in *.
  destruct (truncated_ok (store_ d1) path br (pinned env br d1) h Hu) as [Hh Ho].
  apply (allocate_sim d1 _ _ B1 Hh); [|done]. intros _. rewrite B2. by eapply listed.
Qed.

Lemma opened_ok d path br pin blob view flags data : br ∈ branches_ d ->
  (blob = ZERO_HASH /\ view = empty_view /\ data = [] \/
   read_blob (store_ d) true blob = Some data /\ payload_size_ view = len data /\ blob <> ZERO_HASH) ->
  storable U data ->
  let eligible := negb (bool_decide (accmode flags = O_WRONLY)) && view_valid view in
  let s := mkFh path br pin blob (payload_size_ view) [] false
             (Some (new_write_buffer blob (payload_size_ view))) false
             (if eligible then view else empty_view) eligible in
  handle_ok (store_ d) s /\ open_of (store_ d) s = mkOpen path br data (len data) false false.
Proof.
  intros Hin Hcase Hu eligible s.
  assert (base_of (store_ d) s = Some data) as Hb.
  { unfold base_of. simpl. destruct Hcase as [(-> & _ & ->)|(Hr & _ & Hz)]; [done|]. by rewrite decide_False. }
  assert (payload_size_ view = len data) as Hp by (by destruct Hcase as [(_ & -> & ->)|(_ & ? & _)]).
  assert (shown_file (store_ d) s = Some data) as Hsh.
  { unfold shown_file. rewrite Hb. simpl. f_equal. apply materialize_clean; [apply new_write_buffer_inv|done]. }
  split; [split|].
  - split; [eexists; split; [done|apply new_write_buffer_inv]|]. exists data. destruct Hu as [_ Hl].
    split_and!; [done|done|lia].
  - rewrite Hsh. by intros x [= <-].
  - intros He. simpl in *. rewrite He. apply andb_true_iff in He as [_ Hv]. split_and!; [done|by apply Z.leb_le|done|].
    exists data. split; [done|]. destruct Hcase as [(_ & -> & _)|(Hr & _)]; [done|done].
  - unfold open_of. rewrite Hsh. simpl. by rewrite Hp.
Qed.

Lemma open_sim env path flags br d : session_ok d -> storable U [] -> open_works (fe_open env) ->
  simulates (finish RHandle (cas_open blake3 env path flags br d)) (spec_open path flags br (abs d)).
Proof.
  intros Hok Hu Hop. unfold cas_open, spec_open.
  destruct (is_fast_control_path path).
  { destruct (negb _); [by apply simulates_same|]. destruct (_ || _); by apply simulates_same. }
  destruct (is_fast_control_descendant path); [by apply simulates_same|].
  destruct (is_hidden path); [by apply simulates_same|].
  destruct (branch_cases d br) as [[-> ->]|(b & Hb & Hr & -> & ->)]; [by apply simulates_same|].
  rewrite (nodes_lookup _ _ _ _ Hb).
  destruct (lookup_at d br path) as [e|] eqn:He; simpl; [|by apply simulates_same].
  case_bool_decide as Hk; simpl; [|by apply simulates_same]. rewrite Hk.
  pose proof (listed _ _ _ Hok Hb Hr) as Hin. destruct (o_trunc flags).
  - destruct (write_blob blake3 [] (fe_write env) (store_ d)) as [st h] eqn:E.
    destruct (empty_blob_sim d br b _ path (e_mode e) _ _ Hok Hu Hb Hr E) as (B1 & B2 & <-).
    set (d1 := insert_at _ _ _ _) in *.
    destruct (truncated_ok (store_ d1) path br (pinned env br d1) h Hu) as [Hh Ho].
    apply (allocate_sim d1 _ _ B1 Hh); [|done]. intros _. by rewrite B2.
  - rewrite <- (wt_heap_lookup _ _ _ _ Hb) in He.
    pose proof (so_trees _ Hok br b path e Hb Hr He) as Hent. unfold entry_ok in Hent. rewrite Hk in Hent.
    unfold content. case_decide as Hz.
    + rewrite Hz, set_store_id.
      destruct (opened_ok d path br (pinned env br d) ZERO_HASH empty_view flags [] Hin) as [Hh Ho]; [by left|done|].
      by apply (allocate_sim d _ _ Hok Hh).
    + destruct Hent as [|(data & Hd & Hs)]; [done|].
      destruct (open_blob_ok (fe_open env) (store_ d) (e_hash e) data Hop Hd) as (fd & -> & Hfd); [apply Hs|].
      destruct (set_error_kept (store_ d) [] (so_store _ Hok) (so_sizes _ Hok)) as (A1 & A2 & A3).
      pose proof (ok_store _ _ Hok A1 A2 A3) as Hok1. rewrite <- (abs_store d _ Hok A3). rewrite Hd. simpl.
      set (d1 := set_store _ d) in *.
      destruct (opened_ok d1 path br (pinned env br d1) (e_hash e) (mkView fd (len data)) flags data Hin) as [Hh Ho];
        [right; by split_and!|done|].
      by apply (allocate_sim d1 _ _ Hok1 Hh).
Qed.

(** ** Zero-copy reads *)

Lemma fd_window l8 data offset size : length l8 = 8%nat -> (0 <= offset < 2 ^ 63)%Z ->
  let logical := u64z offset in
  take (N.to_nat (N.min (if logical <? len data then len data - logical else 0) size))
    (drop (N.to_nat (N.of_nat kPayloadOffset + N.min logical (len data))) (lit "blob" ++ l8 ++ data)) =
  window data offset size.
Proof.
  intros H8 Hoff logical. unfold window.
  assert (logical = Z.to_N offset) as Hl by (unfold logical, u64z; rewrite Z.mod_small by lia; done).
  rewrite N2Nat.inj_add, Nat2N.id, <- drop_drop.
  assert (drop kPayloadOffset (lit "blob" ++ l8 ++ data) = data) as ->.
  { rewrite (assoc_L (++)). apply drop_app_length'. rewrite length_app, H8. done. }
  rewrite Hl. unfold len. destruct (N.ltb_spec (Z.to_N offset) (N.of_nat (length data))) as [Hlt|Hge].
  - rewrite (N.min_l (Z.to_N offset)) by lia. replace (N.to_nat (Z.to_N offset)) with (Z.to_nat offset) by lia.
    destruct (N.le_gt_cases size (N.of_nat (length data) - Z.to_N offset)).
    + by rewrite N.min_r.
    + rewrite N.min_l by lia. rewrite !take_ge by (rewrite length_drop; lia). done.
  - rewrite !drop_ge by lia. by rewrite !take_nil.
Qed.

Lemma read_buf_sim env fh size offset d : session_ok d -> fe_read env = true -> fe_mem env = (true, true) ->
  (offset < 2 ^ 63)%Z ->
  let x := cas_read_buf env fh size offset d in
  simulates (x.1, reply_of (fun r => RData (delivered x.1 fh r)) x.2) (spec_read_buf fh size offset (abs d)).
Proof.
  intros Hok Hio Hmem Hoff. unfold cas_read_buf, with_handle, spec_read_buf, spec_handle.
  rewrite abs_opens. unfold get_fh. destruct (fh_table_ d !! fh) as [s|] eqn:Hs; [|by apply simulates_same].
  simpl. destruct (stale s) eqn:Hst; [destruct (is_retired d _); by apply simulates_same|].
  destruct (handle_branch d fh s Hok Hs Hst) as (-> & Hin & b & Hb & Hr).
  unfold is_retired. rewrite Hb, Hr. destruct (offset <? 0)%Z eqn:Hneg; [by apply simulates_same|].
  apply Z.ltb_ge in Hneg. pose proof (so_handles _ Hok fh s Hs) as Hh.
  destruct (fd_read_eligible s) eqn:He.
  - destruct (ho_view _ _ Hh He) as (Hd & Hfd & Hp & base & Hbase & Hread).
    destruct (handle_shown _ _ Hh) as (w & base' & Hw & Hwi & Hb' & Hbs & Hsh & _).
    assert (base' = base) as -> by congruence.
    assert (default [] (shown_file (store_ d) s) = base) as ->.
    { rewrite Hsh. apply materialize_clean; [done|]. unfold handle_dirty in Hd. by rewrite Hw in Hd. }
    unfold make_fd_read_buf, view_valid. rewrite (proj2 (Z.leb_le _ _) Hfd), (proj2 (Z.ltb_ge _ _) Hneg), Hmem. simpl.
    destruct (read_blob_object _ _ _ Hread) as (o & l8 & Ho & Hc & H8 & _).
    unfold get_fh. rewrite Hs. simpl. rewrite Ho, Hc, Hp, Hbs, fd_window by (done || lia). by apply simulates_same.
  - unfold make_overlay_read_buf. rewrite (proj2 (Z.ltb_ge _ _) Hneg), Hmem. cbn [fst snd negb]. rewrite andb_false_r.
    destruct (overlay_read_ok env fh size offset d s Hok Hio Hs Hst ltac:(lia)) as (d' & -> & Hok' & Ha).
    by split.
Qed.

(** ** Attributes *)

Lemma i64_small n : n < 2 ^ 63 -> i64 n = Z.of_N n.
Proof. intros H. unfold i64, u64. rewrite N.mod_small by lia. by rewrite (proj2 (N.ltb_lt _ _) H). Qed.

Lemma payload_attr_ok env d e a : session_ok d -> open_works (fe_open env) -> entry_ok (store_ d) e ->
  e_kind e = Blob \/ e_kind e = Symlink -> st_size a = 0%Z ->
  exists d', payload_attr env (e_hash e) a d = (d', inr (with_size (Z.of_N (len (content (store_ d) (e_hash e)))) a)) /\
    session_ok d' /\ abs d' = abs d.
Proof.
  intros Hok Hop He Hk Ha. unfold payload_attr, content. destruct (decide (e_hash e = ZERO_HASH)) as [Hz|Hz].
  { exists d. split_and!; try done. unfold with_size. destruct a. simpl in *. by subst. }
  assert (readable (store_ d) (e_hash e)) as (data & Hr & Hs).
  { unfold entry_ok in He. destruct Hk as [Hk|Hk]; rewrite Hk in He; [by destruct He|apply He]. }
  destruct (payload_size_ok (fe_open env) (store_ d) (e_hash e) data Hop (so_store _ Hok) (so_sizes _ Hok) Hr)
    as (st & -> & A1 & A2 & A3); [apply Hs|].
  exists (set_store st d). rewrite Hr. simpl. split; [|split; [by apply ok_store|by apply abs_store]].
  do 3 f_equal. destruct Hs as [_ Hl]. rewrite i64_small by lia. done.
Qed.

Lemma dirty_size_ok st s w : handle_ok st s -> write_buf s = Some w ->
  dirty_size s w = Z.of_N (len (default [] (shown_file st s))) /\
  i64 (effective_size w (base_size s)) = Z.of_N (len (default [] (shown_file st s))).
Proof.
  intros Hh Hw0. destruct (handle_shown _ _ Hh) as (w' & b & Hw & _ & Hb & Hbs & Hsh & Hes & [_ Hl]).
  assert (w' = w) as -> by congruence. rewrite Hsh. simpl.
  assert (i64 (effective_size w (len b)) = Z.of_N (len (materialize w b))) as Hi.
  { rewrite Hes, i64_small by lia. done. }
  split; [|by rewrite Hbs]. unfold dirty_size. destruct (base_cache_loaded s) eqn:El; [|by rewrite Hbs].
  unfold base_of in Hb. rewrite El in Hb. by simplify_eq.
Qed.

Lemma dirty_fh_size_ok st path br order t : (forall fh s, t !! fh = Some s -> handle_ok st s) ->
  dirty_fh_size path br order t =
  match writer_of order path br (open_of st <$> t) with
  | Some f => Z.of_N (len (o_data f))
  | None => (-1)%Z
  end.
Proof.
  intros Ht. induction order as [|fh order IH]; simpl; [done|]. rewrite lookup_fmap.
  destruct (t !! fh) as [s|] eqn:Hs; simpl; [|done].
  destruct (handle_shown _ _ (Ht fh s Hs)) as (w & b & Hw & _). unfold handle_dirty. rewrite Hw.
  destruct (negb (stale s) && bool_decide (fh_path s = path) && (fh_branch s =? br) && is_dirty w); [|done].
  by apply (dirty_size_ok st s w (Ht fh s Hs)).
Qed.

Lemma leaf_attr_ok env path fi br d e mode : session_ok d -> open_works (fe_open env) -> entry_ok (store_ d) e ->
  e_kind e = Blob \/ e_kind e = Symlink ->
  simulates (finish RAttr (leaf_attr env path fi (fi ≫= get_fh d) br e mode d))
    (abs d, RAttr (mkAttr mode 1 (uid (fe_caller env)) (gid (fe_caller env))
      (shown_size (fe_order env) path fi br (node_of (store_ d) e) (abs d)))).
Proof.
  intros Hok Hop He Hk. unfold leaf_attr, shown_size.
  assert (n_data (node_of (store_ d) e) = content (store_ d) (e_hash e)) as Hn.
  { unfold node_of. simpl. by destruct Hk as [-> | ->]. }
  rewrite Hn. set (a := mkAttr mode 1 _ _ 0).
  destruct (payload_attr_ok env d e a Hok Hop He Hk eq_refl) as (d' & Hp & Hok' & Ha).
  destruct fi as [fh|]; simpl; unfold get_fh.
  - rewrite lookup_fmap. destruct (fh_table_ d !! fh) as [s|] eqn:Hs; simpl; [|by rewrite Hp].
    pose proof (so_handles _ Hok fh s Hs) as Hh. destruct (handle_shown _ _ Hh) as (w & _ & Hw & _). rewrite Hw.
    split; [done|]. split; [done|]. simpl. unfold with_size. simpl. do 2 f_equal. by apply dirty_size_ok.
  - rewrite Hp. split; [done|]. split; [done|]. simpl. unfold dirty_fh_size_for_path.
    rewrite (dirty_fh_size_ok (store_ d')) by apply Hok'.
    assert (open_of (store_ d') <$> fh_table_ d' = opens (abs d)) as Ho by by rewrite <- Ha.
    rewrite Ho. simpl. destruct (writer_of _ _ _ _) as [f|]; [|done].
    rewrite (proj2 (Z.leb_le _ _)) by lia. done.
Qed.

Lemma getattr_sim env path fi br d : session_ok d -> open_works (fe_open env) ->
  simulates (finish RAttr (cas_getattr env path fi br d))
    (abs d, spec_getattr (fe_caller env) (fe_order env) path fi br (abs d)).
Proof.
  intros Hok Hop. unfold cas_getattr, spec_getattr.
  destruct (is_fast_control_path path); [by apply simulates_same|].
  destruct (is_fast_control_descendant path); [by apply simulates_same|].
  destruct (is_hidden path); [by apply simulates_same|]. case_decide; [by apply simulates_same|].
  assert (fi ≫= (fun fh => opens (abs d) !! fh) = open_of (store_ d) <$> (fi ≫= get_fh d)) as ->.
  { destruct fi as [fh|]; simpl; [apply lookup_fmap|done]. }
  destruct (match fi ≫= get_fh d with Some s => stale s | None => false end) eqn:Hst.
  { assert (match open_of (store_ d) <$> (fi ≫= get_fh d) with Some f => o_stale f | None => false end = true) as ->
      by by destruct (fi ≫= get_fh d).
    destruct (is_retired d _); by apply simulates_same. }
  assert (match open_of (store_ d) <$> (fi ≫= get_fh d) with Some f => o_stale f | None => false end = false) as ->
    by by destruct (fi ≫= get_fh d).
  set (br1 := match fi ≫= get_fh d with Some s => branch_for_fh d s | None => br end).
  assert (match open_of (store_ d) <$> (fi ≫= get_fh d) with Some f => o_branch f | None => br end = br1) as ->.
  { unfold br1. destruct fi as [fh|]; [|done]. simpl in *. unfold get_fh in *.
    destruct (fh_table_ d !! fh) as [s|] eqn:Hs; [|done]. simpl. symmetry. by apply (handle_branch d fh s). }
  unfold spec_look. destruct (branch_cases d br1) as [[-> ->]|(b & Hb & Hr & -> & ->)]; [by apply simulates_same|].
  rewrite (nodes_lookup _ _ _ _ Hb).
  destruct (lookup_at d br1 path) as [e|] eqn:He; simpl; [|by apply simulates_same].
  rewrite <- (wt_heap_lookup _ _ _ _ Hb) in He. pose proof (so_trees _ Hok br1 b path e Hb Hr He) as Hent.
  assert (forall order, shown_size order path fi br (node_of (store_ d) e) (abs d) =
    shown_size order path fi br1 (node_of (store_ d) e) (abs d)) as Hsz by (intros order; by destruct fi).
  destruct (e_kind e) eqn:Hk; try (by apply simulates_same); rewrite Hsz; apply leaf_attr_ok; auto.
Qed.

End refinement.
