(* ===== verification/FuseSession.v ===== *)
(** Whole sessions: any sequence of callbacks, run on the daemon's state, answers
    as the session file system of [FuseSpec] does. *)

From S2P Require Import Prelude Hashes WorkingTree WriteBuffer Codec ObjectStore TreeSerialize Refs Checkpoint BranchMerge Gc BranchRouter Handles Bootstrap Daemon DaemonTables DaemonProps FuseAdapter FuseSpec FuseRefines.

(** No call to the operating system fails. *)
Record env_ok (env : FuseEnv) : Prop := {
  eo_open : open_works (fe_open env);
  eo_read : fe_read env = true;
  eo_flush : base_io (fe_flush env) = true;
  eo_mem : fe_mem env = (true, true)
}.

Section sessions.
Context (blake3 : bytes -> Hash) (U : bytes -> Prop).

(** What a call needs. Offsets and sizes are those the kernel passes; what it
    writes is written and can be stored; a write or a truncation past the end
    of a file stays above the length last published through its handle
    (otherwise see [extend_after_shrink_exposes_base]); a directory moves to a
    place with nothing under it. Calls that do not take the branch's mutex
    look at a branch that is there. *)
Definition call_fits (env : FuseEnv) (c : call) (d : Daemon) : Prop :=
  let s := abs d in
  match c with
  | Open _ _ _ | Create _ _ _ => storable U []
  | Read _ _ offset => (0 <= offset < 2 ^ 63)%Z
  | ReadBuf _ _ offset => (offset < 2 ^ 63)%Z
  | Write fh data offset =>
      (0 <= offset)%Z /\ (offset + Z.of_N (len data) < 2 ^ 63)%Z /\
      forall f, opens s !! fh = Some f ->
        floor_ok f (Z.to_N offset + len data) /\ storable U (o_data (written f data offset))
  | Truncate _ length (Some fh) _ =>
      (0 <= length < 2 ^ 63)%Z /\
      forall f, opens s !! fh = Some f ->
        floor_ok f (Z.to_N length) /\ storable U (Spec.ftruncate (o_data f) (Z.to_N length))
  | Truncate path length None br =>
      (0 <= length < 2 ^ 63)%Z /\
      forall t n, trees s !! br = Some t -> t !! path = Some n -> n_kind n = Blob ->
        writes blake3 U (fe_write env) d (Spec.ftruncate (n_data n) (Z.to_N length))
  | Flush fh | Fsync fh | Release fh => flush_writes blake3 U env d fh
  | MakeSymlink target _ _ => writes blake3 U (fe_write env) d target
  | Rename from to _ br =>
      forall t n, trees s !! br = Some t -> t !! from = Some n -> n_kind n = Tree -> can_move from to t
  | Readlink _ size br => 0 < size < 2 ^ 64 /\ is_Some (trees s !! br)
  | Readdir _ br | Access _ _ br | Utimens _ br | Chown _ br => is_Some (trees s !! br)
  | Getattr _ _ _ | Unlink _ _ | Rmdir _ _ | Mkdir _ _ _ | Chmod _ _ _ => True
  end.

Lemma call_simulated env c d :
  collision_free blake3 U -> session_ok blake3 U d -> env_ok env -> call_fits env c d ->
  simulates blake3 U (exec_call blake3 env c d) (spec_call (fe_caller env) (fe_order env) c (abs d)).
Proof.
  intros Hcf Hok [Ho Hr Hf Hm].
  destruct c as [path fi br|path fl br|path mode br|fh size off|fh size off|fh data off|fh|fh|fh|path br
    |path l [fh|] br|path mask br|path br|path br|path mode br|from to flags br|target path br|path size br|path br
    |path mode br|path br]; simpl; intros H.
  - by apply getattr_sim.
  - by apply open_sim.
  - by apply create_sim.
  - by apply read_sim.
  - pose proof (read_buf_sim blake3 U env fh size off d Hok Hr Hm H) as Hs.
    by destruct (cas_read_buf env fh size off d) as [d' r].
  - destruct H as (H1 & H2 & H3). by apply write_sim.
  - by apply flush_sim.
  - by apply flush_sim.
  - by apply release_sim.
  - split; [done|]. split; [done|]. by apply readdir_sim.
  - destruct H as [H1 H2]. by apply truncate_fh_sim.
  - destruct H as [H1 H2]. by apply truncate_path_sim.
  - split; [done|]. split; [done|]. by apply access_sim.
  - by apply unlink_sim.
  - by apply rmdir_sim.
  - by apply mkdir_sim.
  - by apply rename_sim.
  - by apply symlink_sim.
  - destruct H as [H1 H2]. split; [done|]. split; [done|]. by eapply readlink_sim.
  - split; [done|]. split; [done|]. by apply touch_sim.
  - by apply chmod_sim.
  - split; [done|]. split; [done|]. by apply touch_sim.
Qed.

Fixpoint run_calls (l : list (FuseEnv * call)) (d : Daemon) : Daemon * list reply :=
  match l with
  | [] => (d, [])
  | (env, c) :: l =>
      let '(d1, r) := exec_call blake3 env c d in
      let '(d', rs) := run_calls l d1 in (d', r :: rs)
  end.

Fixpoint calls_fit (l : list (FuseEnv * call)) (d : Daemon) : Prop :=
  match l with
  | [] => True
  | (env, c) :: l => env_ok env /\ call_fits env c d /\ calls_fit l (exec_call blake3 env c d).1
  end.

End sessions.

Fixpoint spec_run (l : list (FuseEnv * call)) (s : Session) : Session * list reply :=
  match l with
  | [] => (s, [])
  | (env, c) :: l =>
      let '(s1, r) := spec_call (fe_caller env) (fe_order env) c s in
      let '(s', rs) := spec_run l s1 in (s', r :: rs)
  end.

Lemma run_simulated blake3 U l d :
  collision_free blake3 U -> session_ok blake3 U d -> calls_fit blake3 U l d ->
  session_ok blake3 U (run_calls blake3 l d).1 /\
  spec_run l (abs d) = (abs (run_calls blake3 l d).1, (run_calls blake3 l d).2).
Proof.
  intros Hcf. revert d. induction l as [|[env c] l IH]; intros d Hok; [done|]. simpl. intros (He & Hc & Hl).
  pose proof (call_simulated blake3 U env c d Hcf Hok He Hc) as (Hok1 & Ha & Hr).
  destruct (exec_call blake3 env c d) as [d1 r]. destruct (spec_call _ _ c (abs d)) as [s1 r']. simpl in *. subst.
  destruct (IH d1 Hok1 Hl) as [Hok' Hs]. rewrite Hs. by destruct (run_calls blake3 l d1).
Qed.

Lemma calls_fit_take blake3 U n l d : calls_fit blake3 U l d -> calls_fit blake3 U (take n l) d.
Proof.
  revert l d. induction n as [|n IH]; intros [|[env c] l] d; [done..|]. simpl. intros (He & Hc & Hl).
  split; [exact He|]. split; [exact Hc|]. by apply IH.
Qed.

(** C4. The callbacks implement the session file system. Whatever sequence of
    calls a session makes (opening, reading through the descriptor or the
    overlay, writing, truncating, flushing, renaming, removing, listing and the
    rest), every answer is the one a map from paths to files with open files
    gives, the final state stands for the map's, and the invariant holds again.
    The sequence has to fit: no system call fails, offsets and sizes are in
    range, no write or truncation past the end of a file follows a shrink below
    the length last published through the handle, no directory is renamed onto
    one with something under it, and the bootstrap has nothing left to take in
    for the paths ([callback_recorded]). A handle publishes at the path it was
    opened on, as [spec_flush] says. *)
Theorem callbacks_refine_session blake3 U l d :
  collision_free blake3 U -> session_ok blake3 U d -> calls_fit blake3 U l d ->
  session_ok blake3 U (run_calls blake3 l d).1 /\
  spec_run l (abs d) = (abs (run_calls blake3 l d).1, (run_calls blake3 l d).2).
Proof. apply run_simulated. Qed.

(** ** A session *)

Definition fs_U (c : bytes) : Prop :=
  c ∈ [lit "blob" ++ blob_body []; lit "blob" ++ blob_body (lit "hi"); lit "blob" ++ blob_body (zeros 2)].

Lemma fs_collision_free : collision_free toy_blake3 fs_U.
Proof. apply collision_free_list. vm_compute. reflexivity. Qed.

Definition fs_daemon : Daemon :=
  new_daemon (empty_store (lit "/s")) (mkRefs ∅ ∅) (new_router false false) 7.

Lemma fs_daemon_ok : session_ok toy_blake3 fs_U fs_daemon.
Proof.
  split.
  - split; [split; [done|by intros h []|set_solver]|by intros].
  - by intros h n.
  - apply new_daemon_tables.
  - by intros fh s.
  - intros bid b p e Hb _. simpl in Hb. apply lookup_singleton_Some in Hb as [<- <-]. rewrite <- wt_lookup_live. done.
Qed.

Definition fs_env : FuseEnv :=
  mkFuse (mkCaller 1000 1000) (mkOpenEnv (inr 9%Z) true true) (no_faults 5) reads_ok
    (mkFlush true (no_faults 6)) true [1; 2] (true, true).

Definition rdonly : OpenFlags := mkFlags O_RDONLY false false.

Definition fs_calls : list (FuseEnv * call) := (fun c => (fs_env, c)) <$>
  [Create (lit "/f") 420 main_id; Write 1 (lit "hi") 0; Getattr (lit "/f") None main_id; Release 1;
   Rename (lit "/f") (lit "/g") 0 main_id; Open (lit "/g") rdonly main_id; ReadBuf 2 10 1;
   Readdir [slash] main_id].

Lemma fs_env_ok : env_ok fs_env.
Proof. split; try done. split; [by exists 9%Z|done]. Qed.

Lemma fs_storable data : bool_decide (lit "blob" ++ blob_body data ∈
    [lit "blob" ++ blob_body []; lit "blob" ++ blob_body (lit "hi"); lit "blob" ++ blob_body (zeros 2)]) = true ->
  (len data <? 2 ^ 63 - 12) = true -> storable fs_U data.
Proof. intros H1%bool_decide_eq_true H2%N.ltb_lt. by split. Qed.

Ltac opened_file H := vm_compute in H; injection H as <-.

Lemma fs_calls_fit : calls_fit toy_blake3 fs_U fs_calls fs_daemon.
Proof.
  unfold fs_calls. cbn [fmap list_fmap calls_fit]. pose proof fs_env_ok as He.
  split_and!; try exact He; try exact I.
  - by apply fs_storable.
  - split; [done|]. split; [done|]. intros f Hf. opened_file Hf. split; [by left|by apply fs_storable].
  - intros f Hf _ _. opened_file Hf. split; [by apply fs_storable|]. vm_compute. discriminate.
  - intros t n Ht Hn Hk. vm_compute in Ht. injection Ht as <-. vm_compute in Hn. injection Hn as <-. discriminate Hk.
  - by apply fs_storable.
  - done.
  - vm_compute. by eexists.
Qed.

Definition fs_answered : list reply :=
  [RHandle (Some 1); RCount 2; RAttr (mkAttr 33188 1 1000 1000 2); ROk; ROk; RHandle (Some 2);
   RData (lit "i"); RNames [lit "."; lit ".."; lit "g"]].

Lemma fs_answers : (run_calls toy_blake3 fs_calls fs_daemon).2 = fs_answered.
Proof. vm_compute. reflexivity. Qed.

Lemma callbacks_refine_session_witness :
  spec_run fs_calls (abs fs_daemon) = (abs (run_calls toy_blake3 fs_calls fs_daemon).1, fs_answered).
Proof.
  rewrite <- fs_answers.
  apply (callbacks_refine_session toy_blake3 fs_U fs_calls fs_daemon fs_collision_free fs_daemon_ok fs_calls_fit).
Defined.
