(* ===== verification/FuseFaults.v ===== *)
(** Calls that fail, and calls that should have. *)

From S2P Require Import Prelude Hashes WorkingTree WriteBuffer Codec ObjectStore TreeSerialize Refs Checkpoint BranchMerge Gc BranchRouter Handles Bootstrap Daemon DaemonTables DaemonProps FuseAdapter FuseSpec FuseRefines FuseSession.

Section faults.
Context (blake3 : bytes -> Hash) (U : bytes -> Prop).
Context (Hcf : collision_free blake3 U).

Definition unchanged (d d' : Daemon) : Prop := session_ok blake3 U d' /\ abs d' = abs d.

Lemma unchanged_refl d : session_ok blake3 U d -> unchanged d d.
Proof. done. Qed.

Lemma unchanged_error d e : session_ok blake3 U d -> unchanged d (set_store (set_last_error e (store_ d)) d).
Proof.
  intros Hok. destruct (set_error_kept blake3 U (store_ d) e (so_store _ _ _ Hok) (so_sizes _ _ _ Hok)) as (A1 & A2 & A3).
  split; [by apply ok_store|by eapply abs_store].
Qed.

Lemma unchanged_size d env h st r : session_ok blake3 U d -> blob_payload_size env h (store_ d) = (st, r) ->
  unchanged d (set_store st d).
Proof.
  intros Hok Hs. pose proof (blob_payload_size_store _ _ _ _ _ Hs) as (E1 & E2 & E3 & E4 & E5).
  apply blob_payload_size_cache in Hs as [Hc _]. pose proof (so_store _ _ _ Hok) as [[A1 A2 A3] B].
  assert (blobs_kept (store_ d) st) as Hk by (intros k x; by rewrite (read_blob_disk (store_ d) st)).
  split; [apply ok_store|by eapply abs_store]; try done.
  - split; [|by rewrite E1]. split; rewrite ?E1, ?E2, ?E4, ?E5; done.
  - intros k n [Hk'|(o & Ho & Hn)]%Hc; [by eapply so_sizes|]. exists (f_content o).
    split_and!; [by eapply B|by eapply A1|done].
Qed.

Lemma payload_attr_unchanged env h a d d' r : session_ok blake3 U d -> payload_attr env h a d = (d', r) -> unchanged d d'.
Proof.
  intros Hok. unfold payload_attr. case_decide; [by intros [= <- _]|].
  destruct (blob_payload_size (fe_open env) h (store_ d)) as [st [e|n]] eqn:E; intros [= <- _]; by eapply unchanged_size.
Qed.

Lemma leaf_attr_unchanged env path fi s br e mode d d' r :
  session_ok blake3 U d -> leaf_attr env path fi s br e mode d = (d', r) -> unchanged d d'.
Proof.
  intros Hok. unfold leaf_attr. destruct s as [s|].
  - destruct (write_buf s); [by intros [= <- _]|]. by apply payload_attr_unchanged.
  - destruct (payload_attr env (e_hash e) _ d) as [d1 [err|a]] eqn:E; apply payload_attr_unchanged in E; try done.
    + by intros [= <- _].
    + destruct fi; by intros [= <- _].
Qed.

(** A flush that fails shows what was there. *)
Lemma flush_unchanged env fh d d' e : session_ok blake3 U d -> base_io (fe_flush env) = true ->
  cas_flush blake3 env fh d = (d', inl e) -> unchanged d d'.
Proof.
  intros Hok Hio. unfold cas_flush, with_handle, get_fh. destruct (fh_table_ d !! fh) as [s|] eqn:Hs; [|by intros [= <- _]].
  destruct (is_retired d _) eqn:Hret; [by intros [= <- _]|]. destruct (stale s) eqn:Hst; [by intros [= <- _]|].
  destruct (handle_branch blake3 U d fh s Hok Hs Hst) as (-> & Hin & b & Hb & Hr).
  pose proof (so_handles _ _ _ Hok fh s Hs) as Hh.
  destruct (handle_shown _ _ _ Hh) as (w & base & Hw & Hwi & Hbase & Hbs & Hsh & Hes & Hu).
  unfold flush_handle. rewrite Hw. destruct (negb (is_dirty w)); [done|].
  rewrite Hio, (ensure_base_cache_ok _ _ (ho_fh _ _ _ Hh)), Hbase. simpl.
  destruct (write_blob blake3 (materialize w base) (blob_write (fe_flush env)) (store_ d)) as [st h] eqn:E.
  case_decide as Hz; [|done]. intros [= <- _].
  destruct (write_blob_facts _ _ Hcf _ _ _ _ _ (so_store _ _ _ Hok) (so_sizes _ _ _ Hok) Hu E) as (A1 & A2 & A3 & _).
  rewrite (wt_of_heap _ _ _ Hb).
  assert (set_wt (fh_branch s) (bc_wt b) (set_store st d) = set_store st d) as ->.
  { assert (heap (set_store st d) !! fh_branch s = Some b) as Hb' by done.
    rewrite (set_wt_heap _ _ _ _ Hb'), insert_id; [by destruct d|]. simpl. rewrite Hb. by destruct b. }
  pose proof (ok_store _ _ _ _ Hok A1 A2 A3) as Hok1.
  pose proof (handle_ok_kept U _ _ _ A3 Hh) as Hh1.
  assert (base_of st s = Some base) as Hbase1 by by eapply base_of_kept.
  destruct (cached_ok U _ _ _ Hh1 Hbase1) as [Hc Ho].
  split; [by apply ok_put|]. rewrite <- (abs_store blake3 U d st Hok A3).
  by apply (abs_same_handle _ _ s).
Qed.

Lemma open_unchanged env path flags br d d' e : session_ok blake3 U d ->
  cas_open blake3 env path flags br d = (d', inl e) -> unchanged d d'.
Proof.
  intros Hok. unfold cas_open.
  destruct (is_fast_control_path path).
  { destruct (negb _); [by intros [= <- _]|]. by destruct (_ || _); intros [= <- _]. }
  destruct (is_fast_control_descendant path); [by intros [= <- _]|].
  destruct (is_hidden path); [by intros [= <- _]|]. destruct (is_retired d br); [by intros [= <- _]|].
  destruct (lookup_at d br path) as [entry|]; [|by intros [= <- _]].
  destruct (negb _); [by intros [= <- _]|]. destruct (o_trunc flags); [by destruct (write_blob _ _ _ _)|].
  case_decide; [done|]. destruct (open_blob (fe_open env) (e_hash entry) (store_ d)) as [st [err|v]] eqn:E; [|done].
  intros [= <- _]. apply open_blob_store in E as [msg ->]. by apply unchanged_error.
Qed.

Lemma getattr_unchanged env path fi br d d' r : session_ok blake3 U d ->
  cas_getattr env path fi br d = (d', r) -> unchanged d d'.
Proof.
  intros Hok. unfold cas_getattr. destruct (is_fast_control_path path); [by intros [= <- _]|].
  destruct (is_fast_control_descendant path); [by intros [= <- _]|]. destruct (is_hidden path); [by intros [= <- _]|].
  case_decide; [by intros [= <- _]|]. destruct (is_retired d _); [by intros [= <- _]|].
  destruct (match _ with Some s => stale s | None => false end); [by intros [= <- _]|].
  destruct (lookup_at d _ path) as [e|]; [|by intros [= <- _]].
  destruct (e_kind e); try (by intros [= <- _]); by apply leaf_attr_unchanged.
Qed.

Lemma with_handle_unchanged {A} fh d (body : N -> FhState -> Daemon * (N + A)) d' e : session_ok blake3 U d ->
  (forall br s, body br s = (d', inl e) -> unchanged d d') ->
  with_handle fh d body = (d', inl e) -> unchanged d d'.
Proof.
  intros Hok Hb. unfold with_handle. destruct (get_fh d fh) as [s|]; [|by intros [= <- _]].
  destruct (is_retired d _); [by intros [= <- _]|]. destruct (stale s); [by intros [= <- _]|]. apply Hb.
Qed.

(** Unfold a call of the table. *)
Lemma finish_err {A} (f : A -> reply) x d' e : (forall a, f a <> RErr e) -> finish f x = (d', RErr e) -> x = (d', inl e).
Proof. intros Hf. unfold finish. destruct x as [d1 [e1|a]]; simpl; intros [= <-]; [by subst|by edestruct Hf]. Qed.

End faults.

(** A call all of whose errors come before its changes. *)
Ltac errors_first := repeat (case_match || case_decide); by intros [= <- _].

(** C14. A call that reports an error changes nothing: whichever system calls
    failed on the way (reads of the base for a flush apart, see
    [flush_read_failure_loses_base]), every branch still shows the same files,
    every open handle the same bytes and the same state, and the invariant
    holds. *)
Theorem failed_call_changes_nothing blake3 U env c d d' e :
  collision_free blake3 U -> session_ok blake3 U d -> base_io (fe_flush env) = true ->
  exec_call blake3 env c d = (d', RErr e) -> session_ok blake3 U d' /\ abs d' = abs d.
Proof.
  intros Hcf Hok Hio. fold (unchanged blake3 U d d').
  destruct c as [path fi br|path fl br|path mode br|fh size off|fh size off|fh data off|fh|fh|fh|path br
    |path l fi br|path mask br|path br|path br|path mode br|from to flags br|target path br|path size br|path br
    |path mode br|path br]; simpl; try (by intros [= <- _]);
    try (intros H%finish_err; [|done]; revert H; unfold cas_fsync).
  - by apply getattr_unchanged.
  - by apply open_unchanged.
  - unfold cas_create. errors_first.
  - apply with_handle_unchanged; [done|]. intros br s. by destruct (overlay_read _ _ _ _ _ _).
  - destruct (cas_read_buf env fh size off d) as [d1 [e1|x]] eqn:E; intros [= <- <-]. revert E.
    apply with_handle_unchanged; [done|]. intros br s. unfold make_overlay_read_buf. errors_first.
  - by apply with_handle_unchanged.
  - by apply flush_unchanged.
  - by apply flush_unchanged.
  - unfold cas_truncate. destruct (touches_fast_control_path path); [by intros [= <- _]|].
    destruct (is_hidden path); [by intros [= <- _]|]. destruct fi as [fh|]; [by apply with_handle_unchanged|]. errors_first.
  - unfold cas_unlink, with_path. errors_first.
  - unfold cas_rmdir, with_path. errors_first.
  - unfold cas_mkdir, with_path. errors_first.
  - unfold cas_rename. errors_first.
  - unfold cas_symlink, with_path. errors_first.
  - unfold cas_chmod. errors_first.
Qed.

(** ** Where a handle publishes *)

(** A path the control file and the store have no claim on. *)
Definition plain_path (path : str) : Prop := touches_fast_control_path path = false /\ is_hidden path = false.

Section paths.
Context (blake3 : bytes -> Hash) (U : bytes -> Prop).
Context (Hcf : collision_free blake3 U).

(** A flush of a dirty file, after its name went elsewhere. *)
Lemma flush_after env d fh f t : session_ok blake3 U d -> base_io (fe_flush env) = true ->
  opens (abs d) !! fh = Some f -> o_stale f = false -> o_dirty f = true ->
  trees (abs d) !! o_branch f = Some t -> t !! o_path f = None ->
  writes blake3 U (blob_write (fe_flush env)) d (o_data f) ->
  let x := exec_call blake3 env (Flush fh) d in
  x.2 = ROk /\ trees (abs x.1) !! o_branch f = Some (<[o_path f := mkNode Blob 33188 (o_data f)]> t).
Proof.
  intros Hok Hio Hf Hst Hd Ht Hp Hw.
  assert (flush_writes blake3 U env d fh) as Hfw by (intros f' Hf' _ _; by simplify_eq).
  destruct (flush_sim blake3 U Hcf env fh d Hok Hio Hfw) as (_ & Ha & Hr).
  unfold spec_flush, spec_handle in Ha, Hr. rewrite Hf, Hst, Ht, Hd in Ha, Hr.
  change (finish (fun _ => ROk) (cas_flush blake3 env fh d)) with (exec_call blake3 env (Flush fh) d) in Ha, Hr.
  intros x. split; [exact Hr|]. unfold x. rewrite Ha. simpl. rewrite lookup_insert_eq. unfold publish_node. by rewrite Hp.
Qed.

End paths.

(** A handle publishes at the path it was opened on, wherever the file is by
    then. A file renamed while a dirty handle is open on it keeps its old bytes
    under the new name, and the flush brings the old name back with the new
    bytes; a file removed while one is open comes back the same way. Both calls
    report success. *)
Theorem flush_publishes_at_opened_path blake3 U env1 env2 flags to d fh f t n :
  collision_free blake3 U -> session_ok blake3 U d -> base_io (fe_flush env2) = true ->
  opens (abs d) !! fh = Some f -> o_stale f = false -> o_dirty f = true ->
  trees (abs d) !! o_branch f = Some t -> t !! o_path f = Some n -> n_kind n = Blob ->
  plain_path (o_path f) -> plain_path to -> to <> o_path f ->
  (let d1 := (exec_call blake3 env1 (Rename (o_path f) to flags (o_branch f)) d).1 in
   writes blake3 U (blob_write (fe_flush env2)) d1 (o_data f) ->
   let x := exec_call blake3 env2 (Flush fh) d1 in
   x.2 = ROk /\ exists t', trees (abs x.1) !! o_branch f = Some t' /\
     t' !! to = Some n /\ t' !! o_path f = Some (mkNode Blob 33188 (o_data f))) /\
  (let d1 := (exec_call blake3 env1 (Unlink (o_path f) (o_branch f)) d).1 in
   writes blake3 U (blob_write (fe_flush env2)) d1 (o_data f) ->
   let x := exec_call blake3 env2 (Flush fh) d1 in
   x.2 = ROk /\ exists t', trees (abs x.1) !! o_branch f = Some t' /\
     t' !! o_path f = Some (mkNode Blob 33188 (o_data f))).
Proof.
  intros Hcf Hok Hio Hf Hst Hd Ht Hn Hk [Hp1 Hp2] [Ht1 Ht2] Hne. split; intros d1 Hw.
  - destruct (rename_sim blake3 U (o_path f) to flags (o_branch f) d Hok) as (Hok1 & Ha & _).
    { intros t' n' Ht' Hn' Hk'. congruence. }
    change (finish (fun _ => ROk) (cas_rename (o_path f) to flags (o_branch f) d)) with
      (exec_call blake3 env1 (Rename (o_path f) to flags (o_branch f)) d) in Hok1, Ha. fold d1 in Hok1, Ha.
    unfold spec_rename in Ha. rewrite Hp1, Hp2, Ht1, Ht2, Ht, Hn in Ha. cbn [orb negb] in Ha.
    rewrite decide_False in Ha by congruence. cbn [fst] in Ha.
    destruct (flush_after blake3 U Hcf env2 d1 fh f (<[to := n]> (delete (o_path f) t)) Hok1 Hio) as [Hr Hx]; try done.
    + by rewrite Ha.
    + rewrite Ha. simpl. by rewrite lookup_insert_eq.
    + rewrite lookup_insert_ne by done. by rewrite lookup_delete_eq.
    + split; [done|]. eexists. split; [exact Hx|]. rewrite lookup_insert_ne by done. by rewrite !lookup_insert_eq.
  - destruct (unlink_sim blake3 U (o_path f) (o_branch f) d Hok) as (Hok1 & Ha & _).
    change (finish (fun _ => ROk) (cas_unlink (o_path f) (o_branch f) d)) with
      (exec_call blake3 env1 (Unlink (o_path f) (o_branch f)) d) in Hok1, Ha. fold d1 in Hok1, Ha.
    unfold spec_unlink, spec_path in Ha. rewrite Hp1, Hp2, Ht, Hn in Ha. cbn [orb negb] in Ha.
    rewrite decide_False in Ha by congruence. cbn [fst] in Ha.
    destruct (flush_after blake3 U Hcf env2 d1 fh f (delete (o_path f) t) Hok1 Hio) as [Hr Hx]; try done.
    + by rewrite Ha.
    + rewrite Ha. simpl. by rewrite lookup_insert_eq.
    + by rewrite lookup_delete_eq.
    + split; [done|]. eexists. split; [exact Hx|]. by rewrite !lookup_insert_eq.
Qed.

(** ** Failures reported as success *)

(** A truncation by path reports success whatever its input and output did:
    when the blob cannot be read the file becomes zeros of the asked length, and
    when the new blob cannot be written it becomes empty. *)
Theorem truncate_loses_content blake3 U env path length br d t n data :
  collision_free blake3 U -> session_ok blake3 U d -> plain_path path -> (0 <= length < 2 ^ 63)%Z ->
  trees (abs d) !! br = Some t -> t !! path = Some n -> n_kind n = Blob ->
  data = resize (Z.to_N length) (if fe_read env then n_data n else []) -> storable U data ->
  let x := exec_call blake3 env (Truncate path length None br) d in
  x.2 = ROk /\ exists t', trees (abs x.1) !! br = Some t' /\
    t' !! path = Some (mkNode Blob (n_mode n)
      (if decide ((write_blob blake3 data (fe_write env) (store_ d)).2 = ZERO_HASH) then [] else data)).
Proof.
  intros Hcf Hok [Hp1 Hp2] Hl Ht Hn Hk Hdata Hs. cbn [exec_call]. unfold cas_truncate, with_path.
  rewrite Hp1, Hp2.
  destruct (branch_cases d br) as [[_ Hx]|(b & Hb & Hr & -> & Hx)]; rewrite Hx in Ht; [done|].
  injection Ht as <-. rewrite (nodes_lookup _ _ _ _ Hb) in Hn.
  destruct (lookup_at d br path) as [e|] eqn:He; [|done]. injection Hn as <-. simpl in Hk.
  rewrite bool_decide_true by done. cbn [negb].
  assert (u64z length = Z.to_N length) as Hu by (unfold u64z; rewrite Z.mod_small by lia; done).
  assert (resize (u64z length) (if decide (e_hash e = ZERO_HASH) then [] else
    default [] (read_blob (store_ d) (fe_read env) (e_hash e))) = data) as ->.
  { rewrite Hu, Hdata. f_equal. cbn [n_data node_of]. rewrite Hk. unfold content. destruct (fe_read env); [done|]. by case_decide. }
  destruct (write_blob blake3 data (fe_write env) (store_ d)) as [st h] eqn:E.
  destruct (written_entry blake3 U Hcf _ _ _ _ _ (e_mode e) (so_store _ _ _ Hok) (so_sizes _ _ _ Hok) Hs E) as [B1 B2].
  destruct (write_blob_facts blake3 U Hcf _ _ _ _ _ (so_store _ _ _ Hok) (so_sizes _ _ _ Hok) Hs E) as (A1 & A2 & A3 & _).
  destruct (insert_sim blake3 U d br b st path (mkEntry Blob h (e_mode e)) ROk Hok Hb Hr A1 A2 A3 B1 eq_refl) as (_ & Ha & _).
  split; [done|]. cbn [finish fst snd] in *. rewrite Ha, B2. simpl. rewrite lookup_insert_eq.
  eexists. split; [done|]. by rewrite lookup_insert_eq.
Qed.

(** A rename does not look at its flags nor into its destination: with
    [RENAME_NOREPLACE] an existing file is replaced all the same, and a
    directory moved onto one that is not empty is merged with it, whatever
    stays there being kept unless a path that moved takes its place. Both
    report success. *)
Theorem rename_overwrites blake3 env from to flags br d b e :
  plain_path from -> plain_path to ->
  heap d !! br = Some b -> retired b = false -> wt_lookup (bc_wt b) from = Some e ->
  let x := exec_call blake3 env (Rename from to flags br) d in
  x.2 = ROk /\
  if decide (e_kind e = Tree) then
    dir_path from -> dir_path to -> under from to = false -> under to from = false ->
    forall p old, under to p = true -> wt_lookup (bc_wt b) p = Some old ->
      lookup_raw (bc_wt b) (from ++ drop (length to) p) = None -> lookup_at x.1 br p = Some old
  else lookup_at x.1 br to = Some e /\ (from <> to -> lookup_at x.1 br from = None).
Proof.
  intros [Hp1 Hp2] [Ht1 Ht2] Hb Hr He. cbn [exec_call].
  assert (cas_rename from to flags br d = (set_wt br (if decide (e_kind e = Tree) then rename_dir (bc_wt b) from to
    else rename_entry (bc_wt b) from to) d, inr ())) as ->.
  { unfold cas_rename, is_retired, lookup_at.
    by rewrite Hp1, Hp2, Ht1, Ht2, Hb, Hr, (wt_of_heap _ _ _ Hb), He. }
  split; [done|]. cbn [finish fst].
  assert (forall wt p, lookup_at (set_wt br wt d) br p = wt_lookup wt p) as Hset.
  { intros wt p. unfold lookup_at. by rewrite (wt_of_set br wt d b). }
  assert (live (bc_wt b) !! from = Some e) as Hl by by rewrite <- wt_lookup_live.
  destruct (decide (e_kind e = Tree)) as [Hk|Hk]; setoid_rewrite Hset.
  - intros Hf Ht Hft Htf p old Hup Hold Hraw. rewrite wt_lookup_live, live_rename_dir by done.
    destruct (under from p) eqn:Hfp; [destruct (under_nested _ _ _ Hf Ht Hfp Hup); congruence|].
    rewrite Hup. unfold lookup_raw in Hraw. rewrite lookup_raw_locked_raw in Hraw. rewrite Hraw. by rewrite <- wt_lookup_live.
  - rewrite !wt_lookup_live, (live_rename_entry _ _ _ _ Hl). split; [apply lookup_insert_eq|].
    intros Hne. rewrite lookup_insert_ne by done. apply lookup_delete_eq.
Qed.

(** Until the walk has listed a directory, removing it ignores what the
    source has in it: with none of its entries recorded yet [rmdir] succeeds,
    and from then on nothing under it is ever taken in from the source. *)
Theorem rmdir_before_walk blake3 env senv root path br d b e :
  plain_path path -> dir_path path -> heap d !! br = Some b -> retired b = false ->
  wt_lookup (bc_wt b) path = Some e -> e_kind e = Tree ->
  base_authoritative_ (bc_wt b) = false -> list_dir (bc_wt b) path = [] ->
  let x := exec_call blake3 env (Rmdir path br) d in
  x.2 = ROk /\ forall name st, slash ∉ name ->
    let child := path ++ slash :: name in
    ensure_path blake3 senv root child st (wt_of x.1 br) = Some (st, wt_of x.1 br, false).
Proof.
  intros [Hp1 Hp2] Hdir Hb Hr He Hk Hba Hls. cbn [exec_call].
  assert (cas_rmdir path br d = (remove_at br path d, inr ())) as ->.
  { unfold cas_rmdir, with_path, is_retired, lookup_at. rewrite Hp1, Hp2, Hb, Hr, (wt_of_heap _ _ _ Hb), He, Hls.
    by rewrite !bool_decide_true. }
  split; [done|]. intros name st Hn. unfold remove_at. cbn [finish fst]. rewrite (wt_of_set br _ d b) by done.
  rewrite (wt_of_heap _ _ _ Hb). set (child := path ++ slash :: name). set (wt := wt_remove (bc_wt b) path).
  unfold ensure_path. pose proof Hdir as [Hne Hlast].
  assert (child <> [slash] /\ child <> []) as [Hcs Hcn].
  { unfold child. destruct path as [|x [|y path]]; [done|by split|by split]. }
  rewrite decide_False by (by intros [?|?]).
  enough (climb (S (length child)) wt child = Whiteout) as -> by done.
  assert (parent_path child = path) as Hpar.
  { unfold parent_path, child. rewrite rfind_char_app by done. rewrite take_app_length. by destruct path. }
  assert (raw wt !! path = Some whiteout) as Hw by (unfold wt, wt_remove; by rewrite raw_remove_at, Hba).
  assert (path <> child) as Hpc.
  { intros Hc. apply (f_equal length) in Hc. unfold child in Hc. rewrite length_app in Hc. simpl in Hc. lia. }
  cbn [climb]. rewrite decide_False by done. unfold lookup_raw. rewrite lookup_raw_locked_raw.
  assert (raw wt !! child = raw (bc_wt b) !! child) as -> by by apply raw_remove_ne.
  destruct (raw (bc_wt b) !! child) as [x|] eqn:Hx.
  - destruct (is_deleted x) eqn:Hd; [done|]. exfalso.
    assert ((child, x) ∈ list_dir (bc_wt b) path) as Hin; [|rewrite Hls in Hin; by apply elem_of_nil in Hin].
    rewrite list_dir_entries. apply list_elem_of_filter. rewrite elem_of_entries. split; [|done].
    rewrite with_slash_dir by done. unfold direct_child, child. cbn [fst snd].
    replace (path ++ slash :: name) with ((path ++ [slash]) ++ name) by by rewrite <- app_assoc.
    split; [done|]. split; [apply has_prefix_app|]. by rewrite drop_app_length.
  - rewrite Hpar. unfold child. rewrite length_app. simpl. rewrite Nat.add_succ_r. cbn [climb].
    rewrite decide_False by (intros ->; done). unfold lookup_raw. by rewrite lookup_raw_locked_raw, Hw.
Qed.

(** ** Witnesses *)

Lemma pair_of {A B} (x : A * B) b : x.2 = b -> x = (x.1, b).
Proof. destruct x. simpl. by intros ->. Qed.

(** A file open and written, not yet flushed; and the same file released. *)
Definition fs_written : Daemon := (run_calls toy_blake3 (take 2 fs_calls) fs_daemon).1.
Definition fs_released : Daemon := (run_calls toy_blake3 (take 4 fs_calls) fs_daemon).1.

Lemma fs_prefix_ok n : session_ok toy_blake3 fs_U (run_calls toy_blake3 (take n fs_calls) fs_daemon).1.
Proof.
  apply (run_simulated toy_blake3 fs_U _ _ fs_collision_free fs_daemon_ok). apply calls_fit_take, fs_calls_fit.
Qed.

Definition full_disk : FuseEnv :=
  mkFuse (mkCaller 1000 1000) (mkOpenEnv (inr 9%Z) true true) (no_faults 5) reads_ok
    (mkFlush true (mkWriteEnv 6 None None (lit "tmp_0") None (Some (lit "No space left on device")) 6 None None))
    true [1] (true, true).

Lemma failed_call_changes_nothing_witness :
  abs (exec_call toy_blake3 full_disk (Flush 1) fs_written).1 = abs fs_written.
Proof.
  apply (failed_call_changes_nothing toy_blake3 fs_U full_disk (Flush 1) fs_written _ EIO fs_collision_free).
  - apply (fs_prefix_ok 2).
  - reflexivity.
  - apply pair_of. vm_compute. reflexivity.
Defined.

Definition fs_file : OpenFile := mkOpen (lit "/f") main_id (lit "hi") 0 true false.

Lemma flush_publishes_at_opened_path_witness :
  let d1 := (exec_call toy_blake3 fs_env (Rename (lit "/f") (lit "/g") 0 main_id) fs_written).1 in
  exists t, trees (abs (exec_call toy_blake3 fs_env (Flush 1) d1).1) !! main_id = Some t /\
    t !! lit "/g" = Some (mkNode Blob 33188 []) /\ t !! lit "/f" = Some (mkNode Blob 33188 (lit "hi")).
Proof.
  destruct (flush_publishes_at_opened_path toy_blake3 fs_U fs_env fs_env 0 (lit "/g") fs_written 1 fs_file
    {[lit "/f" := mkNode Blob 33188 []]} (mkNode Blob 33188 [])) as [[_ H] _].
  - apply fs_collision_free.
  - apply (fs_prefix_ok 2).
  - reflexivity.
  - vm_compute. reflexivity.
  - reflexivity.
  - reflexivity.
  - vm_compute. reflexivity.
  - reflexivity.
  - reflexivity.
  - split; reflexivity.
  - split; reflexivity.
  - discriminate.
  - split; [by apply fs_storable|]. vm_compute. discriminate.
  - exact H.
Defined.

Definition read_error : FuseEnv :=
  mkFuse (mkCaller 1000 1000) (mkOpenEnv (inr 9%Z) true true) (no_faults 5) reads_ok (mkFlush true (no_faults 6))
    false [1] (true, true).

Lemma truncate_loses_content_witness :
  exists t, trees (abs (exec_call toy_blake3 read_error (Truncate (lit "/f") 2 None main_id) fs_released).1) !! main_id = Some t /\
    t !! lit "/f" = Some (mkNode Blob 33188
      (if decide ((write_blob toy_blake3 (zeros 2) (no_faults 5) (store_ fs_released)).2 = ZERO_HASH) then [] else zeros 2)).
Proof.
  destruct (truncate_loses_content toy_blake3 fs_U read_error (lit "/f") 2 main_id fs_released
    {[lit "/f" := mkNode Blob 33188 (lit "hi")]} (mkNode Blob 33188 (lit "hi")) (zeros 2)) as [_ H].
  - apply fs_collision_free.
  - apply (fs_prefix_ok 4).
  - split; reflexivity.
  - lia.
  - vm_compute. reflexivity.
  - reflexivity.
  - reflexivity.
  - reflexivity.
  - by apply fs_storable.
  - exact H.
Defined.

Definition two_files : WorkingTree :=
  wt_insert (wt_insert empty_tree (lit "/a") (mkEntry Blob ZERO_HASH 420)) (lit "/b") (mkEntry Blob ZERO_HASH 384).
Definition with_tree (wt : WorkingTree) : Daemon := set_wt main_id wt fs_daemon.

(** [RENAME_NOREPLACE] is 1. *)
Lemma rename_overwrites_witness :
  lookup_at (exec_call toy_blake3 fs_env (Rename (lit "/a") (lit "/b") 1 main_id) (with_tree two_files)).1 main_id (lit "/b") =
  Some (mkEntry Blob ZERO_HASH 420).
Proof.
  destruct (rename_overwrites toy_blake3 fs_env (lit "/a") (lit "/b") 1 main_id (with_tree two_files)
    (mkBranch main_name two_files false) (mkEntry Blob ZERO_HASH 420)) as [_ [H _]].
  - split; reflexivity.
  - split; reflexivity.
  - reflexivity.
  - reflexivity.
  - reflexivity.
  - exact H.
Defined.

Definition one_dir : WorkingTree := wt_insert empty_tree (lit "/d") (mkEntry Tree ZERO_HASH 16877).

Lemma rmdir_before_walk_witness :
  let d' := (exec_call toy_blake3 fs_env (Rmdir (lit "/d") main_id) (with_tree one_dir)).1 in
  ensure_path toy_blake3 small_source small_root (lit "/d/f") (empty_store (lit "/s")) (wt_of d' main_id) =
  Some (empty_store (lit "/s"), wt_of d' main_id, false).
Proof.
  destruct (rmdir_before_walk toy_blake3 fs_env small_source small_root (lit "/d") main_id (with_tree one_dir)
    (mkBranch main_name one_dir false) (mkEntry Tree ZERO_HASH 16877)) as [_ H].
  - split; reflexivity.
  - split; discriminate.
  - reflexivity.
  - reflexivity.
  - reflexivity.
  - reflexivity.
  - reflexivity.
  - reflexivity.
  - apply (H (lit "f")). vm_compute. by apply not_elem_of_cons; split; [|apply not_elem_of_nil].
Defined.
