(* ===== verification/DaemonRuns.v ===== *)
(** Runs of the daemon: start-up, then any interleaving of what publishers, the
    collector, the router, the bootstrap and the callbacks do, whatever system
    calls fail. The tables agree with one another in every state of a run. *)

From S2P Require Import Prelude Hashes WorkingTree WriteBuffer Codec ObjectStore TreeSerialize Refs Checkpoint BranchMerge Gc BranchRouter Handles Bootstrap Daemon DaemonTables DaemonProps FuseAdapter.

(** ** What leaves the tables alone *)

Lemma store_tables st d : tables_ok d -> tables_ok (set_store st d).
Proof. by intros []; split. Qed.

Lemma refs_tables rf d : tables_ok d -> tables_ok (set_refs rf d).
Proof. by intros []; split. Qed.

Lemma router_tables r d : tables_ok d -> tables_ok (set_router r d).
Proof. by intros []; split. Qed.

Lemma wt_tables bid wt d : tables_ok d -> tables_ok (set_wt bid wt d).
Proof.
  intros Ht. eapply in_place_tables; [|exact Ht].
  pose proof (update_in_place bid (store_ d) (refs_ d) wt (fh_table_ d) d (handles_from_refl _)) as H.
  rewrite set_store_id, set_refs_id in H.
  assert (set_table (fh_table_ d) (set_wt bid wt d) = set_wt bid wt d) as E.
  { destruct (set_wt_frame bid wt d) as (_ & _ & _ & _ & _ & _ & _ & _ & <- & _). apply set_table_id. }
  by rewrite E in H.
Qed.

(** A new table whose current handles are on listed branches. *)
Lemma fhs_tables t n d : tables_ok d ->
  (forall fh s, t !! fh = Some s -> stale s = false -> fh_branch s ∈ branches_ d) -> tables_ok (set_fhs t n d).
Proof. intros [B1 B2 B3 B4 B5 B6] Ht. by split. Qed.

Lemma put_tables fh s d : tables_ok d -> (stale s = false -> fh_branch s ∈ branches_ d) -> tables_ok (put_fh fh s d).
Proof.
  intros Ht Hs. apply fhs_tables; [done|]. intros x sx [[_ <-]|[_ Hx]]%lookup_insert_Some; [done|].
  by apply (t_handles _ Ht x).
Qed.

Lemma allocate_tables s d : tables_ok d -> fh_branch s ∈ branches_ d -> tables_ok (allocate_fh s d).1.
Proof.
  intros Ht Hs. apply fhs_tables; [done|]. intros x sx [[_ <-]|[_ Hx]]%lookup_insert_Some; [done|].
  by apply (t_handles _ Ht x).
Qed.

Lemma release_tables fh d : tables_ok d -> tables_ok (release_fh fh d).
Proof.
  intros Ht. apply fhs_tables; [done|]. intros x sx [_ Hx]%lookup_delete_Some. by apply (t_handles _ Ht x).
Qed.

#[export] Hint Resolve store_tables refs_tables router_tables wt_tables release_tables : ctx.

Lemma wt_branches bid wt d : branches_ (set_wt bid wt d) = branches_ d.
Proof. by destruct (set_wt_frame bid wt d) as (_ & _ & -> & _). Qed.

(** ** The callbacks *)

Section calls.
Context (blake3 : bytes -> Hash).

Lemma insert_tables br path e st d : tables_ok d -> tables_ok (insert_at br path e (set_store st d)).
Proof. unfold insert_at. auto with ctx. Qed.

Lemma open_listed d br : tables_ok d -> is_retired d br = false -> br ∈ branches_ d.
Proof.
  intros Ht. unfold is_retired. destruct (heap d !! br) as [b|] eqn:Hb; [|done]. intros Hr.
  apply (t_listed _ Ht). by exists b.
Qed.

Lemma payload_attr_tables env h a d : tables_ok d -> tables_ok (payload_attr env h a d).1.
Proof.
  intros Ht. unfold payload_attr. case_decide; [done|]. destruct (blob_payload_size _ _ _) as [st [e|n]]; simpl; auto with ctx.
Qed.

Lemma leaf_attr_tables env path fi s br e mode d : tables_ok d -> tables_ok (leaf_attr env path fi s br e mode d).1.
Proof.
  intros Ht. unfold leaf_attr. set (a := mkAttr _ _ _ _ _). pose proof (payload_attr_tables env (e_hash e) a d Ht) as Hp.
  destruct s as [s|]; [by destruct (write_buf s)|].
  destruct (payload_attr env (e_hash e) a d) as [d1 [err|a1]]; [done|]. by destruct fi.
Qed.

Lemma getattr_tables env path fi br d : tables_ok d -> tables_ok (cas_getattr env path fi br d).1.
Proof.
  intros Ht. unfold cas_getattr. destruct (is_fast_control_path path); [done|].
  destruct (is_fast_control_descendant path); [done|]. destruct (is_hidden path); [done|].
  case_decide; [done|]. destruct (is_retired d _); [done|].
  destruct (match _ with Some s => stale s | None => false end); [done|].
  destruct (lookup_at d _ path) as [e|]; [|done]. destruct (e_kind e); try done; by apply leaf_attr_tables.
Qed.

Lemma open_tables env path flags br d : tables_ok d -> tables_ok (cas_open blake3 env path flags br d).1.
Proof.
  intros Ht. unfold cas_open. destruct (is_fast_control_path path); [by repeat case_match|].
  destruct (is_fast_control_descendant path); [done|]. destruct (is_hidden path); [done|].
  destruct (is_retired d br) eqn:Hr; [done|]. destruct (lookup_at d br path) as [e|]; [|done].
  destruct (negb _); [done|]. pose proof (open_listed _ _ Ht Hr) as Hin. destruct (o_trunc flags).
  - destruct (write_blob _ _ _ _) as [st h]. apply allocate_tables; [by apply insert_tables|].
    unfold insert_at. by rewrite wt_branches.
  - destruct (if decide _ then _ else _) as [st [err|v]]; [by apply store_tables|].
    apply allocate_tables; [by apply store_tables|done].
Qed.

Lemma create_tables env path mode br d : tables_ok d -> tables_ok (cas_create blake3 env path mode br d).1.
Proof.
  intros Ht. unfold cas_create. destruct (touches_fast_control_path path); [done|].
  destruct (is_hidden path); [done|]. destruct (is_retired d br) eqn:Hr; [done|].
  destruct (write_blob _ _ _ _) as [st h]. apply allocate_tables; [by apply insert_tables|].
  unfold insert_at. rewrite wt_branches. exact (open_listed d br Ht Hr).
Qed.

(** A call on a handle that keeps its branch and its currency. *)
Lemma with_handle_tables {A} fh d (body : N -> FhState -> Daemon * (N + A)) : tables_ok d ->
  (forall s, get_fh d fh = Some s -> fh_branch s ∈ branches_ d -> tables_ok (body (branch_for_fh d s) s).1) ->
  tables_ok (with_handle fh d body).1.
Proof.
  intros Ht Hb. unfold with_handle. destruct (get_fh d fh) as [s|] eqn:Hs; [|done].
  destruct (is_retired d _); [done|]. destruct (stale s) eqn:Hst; [done|]. apply Hb; [done|].
  by apply (t_handles _ Ht fh).
Qed.

Lemma overlay_read_tables env fh size offset s d : tables_ok d -> fh_branch s ∈ branches_ d ->
  tables_ok (overlay_read env fh size offset s d).1.
Proof.
  intros Ht Hs. apply put_tables; [done|]. intros _. unfold ensure_base_cache. by destruct (base_cache_loaded s).
Qed.

Lemma flush_tables env fh d : tables_ok d -> tables_ok (cas_flush blake3 env fh d).1.
Proof.
  intros Ht. apply with_handle_tables; [done|]. intros s Hs Hin.
  destruct (flush_handle _ _ _ _ _) as [[[st wt] s1] ok] eqn:E. apply flush_handle_from in E as (Hb & _).
  apply put_tables; [auto with ctx|]. intros _. by rewrite wt_branches, Hb.
Qed.

(** Whatever fails, a callback leaves tables that agree. *)
Lemma call_tables env c d : tables_ok d -> tables_ok (exec_call blake3 env c d).1.
Proof.
  intros Ht.
  destruct c as [path fi br|path fl br|path mode br|fh size off|fh size off|fh data off|fh|fh|fh|path br
    |path l fi br|path mask br|path br|path br|path mode br|from to flags br|target path br|path size br|path br
    |path mode br|path br]; simpl; try done.
  - by apply getattr_tables.
  - by apply open_tables.
  - by apply create_tables.
  - apply with_handle_tables; [done|]. intros s Hs Hin.
    pose proof (overlay_read_tables env fh size off s d Ht Hin) as H. by destruct (overlay_read _ _ _ _ _ _).
  - assert (tables_ok (cas_read_buf env fh size off d).1) as H; [|by destruct (cas_read_buf _ _ _ _ _)].
    apply with_handle_tables; [done|]. intros s Hs Hin. destruct (off <? 0)%Z eqn:Eo; [done|].
    destruct (fd_read_eligible s); [done|]. unfold make_overlay_read_buf. rewrite Eo.
    destruct (negb _); [done|]. destruct (_ && _); [done|].
    pose proof (overlay_read_tables env fh size off s d Ht Hin) as H. by destruct (overlay_read _ _ _ _ _ _).
  - apply with_handle_tables; [done|]. intros s Hs Hin. by apply put_tables.
  - by apply flush_tables.
  - by apply flush_tables.
  - by apply release_tables, flush_tables.
  - unfold cas_truncate. destruct (touches_fast_control_path path); [done|]. destruct (is_hidden path); [done|].
    destruct fi as [fh|].
    + apply with_handle_tables; [done|]. intros s Hs Hin. by apply put_tables.
    + destruct (is_retired d br); [done|]. destruct (lookup_at d br path) as [e|]; [|done].
      destruct (negb _); [done|]. destruct (write_blob _ _ _ _). by apply insert_tables.
  - unfold cas_unlink, with_path, remove_at. repeat (case_match || case_decide); simpl; auto with ctx.
  - unfold cas_rmdir, with_path, remove_at. repeat (case_match || case_decide); simpl; auto with ctx.
  - unfold cas_mkdir, with_path, insert_at. repeat (case_match || case_decide); simpl; auto with ctx.
  - unfold cas_rename. repeat (case_match || case_decide); simpl; auto with ctx.
  - unfold cas_symlink, with_path. do 3 (case_match; [done|]). case_decide; [done|].
    destruct (write_blob _ _ _ _). by apply insert_tables.
  - unfold cas_chmod, insert_at. repeat (case_match || case_decide); simpl; auto with ctx.
Qed.

(** ** Start-up *)

Lemma first_commit_tables env d d' ok : tables_ok d -> first_commit blake3 env d = (d', ok) ->
  tables_ok d' /\ next_branch_id_ d' = next_branch_id_ d.
Proof.
  intros Ht. unfold first_commit. intros H.
  repeat (case_match; simplify_eq/=; try (split; [by auto with ctx|done])).
Qed.

Definition persisted (env : InitEnv) : list str := list_refs_or_nothing (list_begin env) (list_entries env) (list_end env).

Lemma load_branches_ok env d d' ok : tables_ok d -> next_branch_id_ d + N.of_nat (length (persisted env)) < 2 ^ 32 ->
  load_branches blake3 env d = Some (Parsed (d', ok)) -> tables_ok d'.
Proof.
  intros Ht Hw. unfold load_branches. fold (persisted env).
  destruct (load_persisted_branches _ _ _ _) as [[d1| |]|] eqn:E; try done. intros [= <- _].
  by eapply load_branches_tables.
Qed.

Lemma initialize_tables env d0 d ok : tables_ok d0 ->
  next_branch_id_ d0 + N.of_nat (length (persisted env)) < 2 ^ 32 ->
  initialize blake3 env d0 = Some (Parsed (d, ok)) -> tables_ok d.
Proof.
  intros Ht Hw. unfold initialize. destruct (negb _); [by intros [= <- _]|].
  set (d1 := set_store _ d0). assert (tables_ok d1) as Ht1 by by apply store_tables.
  destruct (read_main _ _).
  - destruct (rebuild_branch_from_ref _ _ _ _ _) as [[[b|msg]| |]|]; try done; [|by intros [= <- _]].
    apply load_branches_ok; [auto with ctx|]. unfold set_wt. by destruct (heap d1 !! main_id).
  - destruct (first_commit blake3 env d1) as [d2 [|]] eqn:E; apply first_commit_tables in E as [Ht2 Hn]; try done.
    + apply load_branches_ok; [done|]. by rewrite Hn.
    + by intros [= <- _].
Qed.

(** ** Runs *)

(** One step of anything: outcomes of system calls are whatever they are.
    [StepRouter]: the router's own calls (routing a process, registering a
    control group, evictions). [StepIngest]: the bootstrap's. *)
Inductive dstep : Daemon -> Daemon -> Prop :=
| StepCall env c d : dstep d (exec_call blake3 env c d).1
| StepCheckpoint env name label d d' r :
    checkpoint_branch_by_name blake3 env name label d = (d', r) -> dstep d d'
| StepControl env path cmd req br d d' r :
    cas_ioctl blake3 env path cmd req br d = (d', r) -> dstep d d'
| StepRollback env name target d d' r :
    rollback_branch_to_commit blake3 env name target d = Some (Parsed (d', r)) -> dstep d d'
| StepMerge env source target label d d' r :
    merge_branch blake3 env source target label d = Some (Parsed (d', r)) -> dstep d d'
| StepCreate env name from d d' id :
    next_branch_id_ d + 1 < 2 ^ 32 -> create_branch env name from d = (d', id) -> dstep d d'
| StepDelete env name d d' b : delete_branch env name d = (d', b) -> dstep d d'
| StepCollect env policy live d d' r : mark_and_sweep env policy live d = Some (d', r) -> dstep d d'
| StepRouter r d : dstep d (set_router r d)
| StepIngest env root vpath d st wt b :
    ensure_path blake3 env root vpath (store_ d) (wt_of d main_id) = Some (st, wt, b) ->
    dstep d (set_wt main_id wt (set_store st d)).

Inductive running : Daemon -> Prop :=
| RunStart env st refs router session d :
    1 + N.of_nat (length (persisted env)) < 2 ^ 32 ->
    initialize blake3 env (new_daemon st refs router session) = Some (Parsed (d, true)) -> running d
| RunStep d d' : running d -> dstep d d' -> running d'.

Lemma checkpoint_name_tables env name label d d' r : tables_ok d ->
  checkpoint_branch_by_name blake3 env name label d = (d', r) -> tables_ok d'.
Proof.
  intros Ht. unfold checkpoint_branch_by_name. destruct (branch_by_name_locked d name); [|by intros [= <- _]].
  intros H%checkpoint_in_place. by eapply in_place_tables.
Qed.

Lemma ioctl_tables env path cmd req br d d' r : tables_ok d ->
  cas_ioctl blake3 env path cmd req br d = (d', r) -> tables_ok d'.
Proof.
  intros Ht. unfold cas_ioctl, checkpoint_branch, branch.
  repeat (case_match || case_decide); intros [= <- _]; simplify_eq; try done.
  all: eapply in_place_tables; [by eapply checkpoint_in_place|done].
Qed.

Lemma step_tables d d' : dstep d d' -> tables_ok d -> tables_ok d'.
Proof.
  intros Hs Ht. destruct Hs as [env c d|env name label d d' r H|env path cmd req br d d' r H|env name target d d' r H
    |env source target label d d' r H|env name from d d' id Hw H|env name d d' b H|env policy live d d' r H|r d
    |env root vpath d st wt b H].
  - by apply call_tables.
  - by eapply checkpoint_name_tables.
  - by eapply ioctl_tables.
  - unfold rollback_branch_to_commit in H. destruct (branch_by_name_locked d name); [|by simplify_eq].
    apply rollback_in_place in H. by eapply in_place_tables.
  - apply merge_in_place in H. by eapply in_place_tables.
  - by eapply create_branch_tables.
  - by eapply delete_branch_tables.
  - unfold mark_and_sweep in H. destruct (run _ _ _ _ _ _ _) as [[st r']|]; [|done]. simplify_eq. by apply store_tables.
  - by apply router_tables.
  - auto with ctx.
Qed.

(** A callback with its bootstrap is a run of such steps. *)
Lemma callback_runs boot env c d d' r : running d -> callback blake3 boot env c d = Some (d', r) -> running d'.
Proof.
  intros Hd. unfold callback.
  assert (forall d1, running d1 -> running (exec_call blake3 env c d1).1) as Hcall
    by (intros d1 H1; by eapply RunStep; [exact H1|apply StepCall]).
  destruct boot as [b|]; [|intros [= E]; replace d' with (exec_call blake3 env c d).1 by (by rewrite E); by apply Hcall].
  assert (forall paths d1 d2, running d1 -> take_in blake3 b paths d1 = Some d2 -> running d2) as Htake.
  { induction paths as [|p paths IH]; intros d1 d2 H1; cbn [take_in]; [by intros [= <-]|].
    destruct (ensure_path _ _ _ _ _ _) as [[[st wt] ok]|] eqn:E; [|done]. apply IH.
    eapply RunStep; [exact H1|by eapply StepIngest]. }
  destruct (take_in _ _ _ _) as [d1|] eqn:E; [|done]. intros [= E2].
  replace d' with (exec_call blake3 env c d1).1 by (by rewrite E2). apply Hcall. by eapply Htake.
Qed.

Lemma running_tables d : running d -> tables_ok d.
Proof.
  induction 1 as [env st refs router session d Hw H|d d' _ IH Hs]; [|by eapply step_tables].
  eapply initialize_tables; [apply new_daemon_tables| |exact H]. done.
Qed.

End calls.

(** C22. The daemon's tables are well formed in every state of a run, whatever
    callbacks, publishers and the collector did and whichever of their system
    calls failed: a name stands for at most one branch and a branch for one
    name, [main] is always there, exactly the branches not retired are listed,
    ids are below the next one, no reservation is left behind, and every
    current open handle is on a listed branch, so a call on it never falls back
    to [main]. *)
Theorem running_well_formed blake3 d :
  running blake3 d ->
  (forall name bid, branch_by_name d name = Some bid <->
     bid ∈ branches_ d /\ exists b, heap d !! bid = Some b /\ bc_name b = name /\ retired b = false) /\
  branch_by_name d main_name = Some main_id /\
  (forall bid b, heap d !! bid = Some b -> bid < next_branch_id_ d /\ (retired b = false <-> bid ∈ branches_ d)) /\
  branch_create_reservations_ d = ∅ /\ branch_source_reservations_ d = ∅ /\
  (forall fh s, get_fh d fh = Some s -> stale s = false ->
     branch_for_fh d s = fh_branch s /\ is_retired d (fh_branch s) = false).
Proof.
  intros Hr. pose proof (running_tables _ _ Hr) as Ht. pose proof Ht as [B1 B2 B3 B4 B5 [B6 B7]].
  split; [|split; [|split; [|split; [done|split; [done|]]]]].
  - intros name bid. rewrite (branch_by_name_spec _ _ _ Ht), B1. split.
    + intros (Hl & b & Hb & Hn). split; [done|]. exists b. split_and!; try done.
      apply B3 in Hl as (b' & Hb' & Hr'). by simplify_eq.
    + intros (Hl & b & Hb & Hn & _). split; [done|]. by exists b.
  - by apply (branch_by_name_spec _ _ _ Ht).
  - intros bid b Hb. split; [by eapply B2|]. rewrite B3. split; [intros; by exists b|].
    intros (b' & Hb' & Hr'). by simplify_eq.
  - intros fh s Hs Hst. pose proof (B5 fh s Hs Hst) as Hl. split.
    + unfold branch_for_fh, branch_or_main, branch. by rewrite decide_True.
    + apply B3 in Hl as (b & Hb & Hrt). unfold is_retired. by rewrite Hb.
Qed.

(** ** A run: start-up, a file created, a branch forked from [main] *)

Definition run_env : FuseEnv :=
  mkFuse (mkCaller 1000 1000) (mkOpenEnv (inr 9%Z) true true) (no_faults 5) reads_ok
    (mkFlush true (no_faults 6)) true [] (true, true).
Definition run_created : Daemon := (exec_call toy_blake3 run_env (Create (lit "/f") 420 main_id) blind_run).1.
Definition run_forked : Daemon := (create_branch (mkCreate reads_ok ref_writes_ok) dev_name main_name run_created).1.

Lemma blind_running : running toy_blake3 blind_run.
Proof.
  apply (RunStart toy_blake3 blind_init (empty_store (lit "/s")) old_refs small_router 9); [done|].
  vm_compute. reflexivity.
Qed.

Lemma running_well_formed_witness : running toy_blake3 run_forked /\ branch_by_name run_forked main_name = Some main_id.
Proof.
  assert (running toy_blake3 run_forked) as H.
  { apply (RunStep _ run_created).
    - apply (RunStep _ blind_run); [apply blind_running|constructor].
    - eapply StepCreate; [|apply surjective_pairing]. vm_compute. reflexivity. }
  split; [exact H|]. apply (running_well_formed toy_blake3 run_forked H).
Defined.
