(* ===== verification/ControlProtocol.v ===== *)
(** The commands of the control socket ([dispatch] in cas/control_protocol.cpp):
    one definition per command, from the line and the peer's credentials to the
    reply.

    A handler calls several components, each behind its own lock, so other
    threads can act between two calls: [others n] is what they did before the
    handler's call [n]. The handlers that block wait in the same way. Effects on
    the outside (signals, calls of telemetry backends, of the policy installer
    and of inotify) are listed in the order they happen. *)

From S2P Require Import Prelude Hashes KvCodec JsonText WorkingTree ObjectStore Codec Refs Checkpoint AgentState StateFs AgentService RuntimeState Supervisor SupervisorRuns ProcessControl Peers BranchMerge Gc BranchRouter Handles Bootstrap Daemon RuntimeOps Telemetry CgroupWatch.

(** ** The server *)

Record Server : Type := mkServer {
  sv_host : Host;
  sv_states : StateFs;
  sv_world : World;
  sv_watch : option CgroupWatch;
  sv_registry : option TelemetryRegistry;
  sv_inodes : InodeMap.inode_map;
  sv_bootstrap_pending : bool
}.

Definition sv_daemon (v : Server) : Daemon := h_daemon (sv_host v).
Definition sv_sup (v : Server) : Supervisor := h_sup (sv_host v).

Definition set_host (h : Host) (v : Server) : Server :=
  mkServer h (sv_states v) (sv_world v) (sv_watch v) (sv_registry v) (sv_inodes v) (sv_bootstrap_pending v).
Definition set_daemon (d : Daemon) (v : Server) : Server := set_host (with_daemon d (sv_host v)) v.
Definition set_sup (s : Supervisor) (v : Server) : Server := set_host (with_sup s (sv_host v)) v.
Definition set_watch (w : option CgroupWatch) (v : Server) : Server :=
  mkServer (sv_host v) (sv_states v) (sv_world v) w (sv_registry v) (sv_inodes v) (sv_bootstrap_pending v).
Definition set_inodes (m : InodeMap.inode_map) (v : Server) : Server :=
  mkServer (sv_host v) (sv_states v) (sv_world v) (sv_watch v) (sv_registry v) m (sv_bootstrap_pending v).

(** The agent state service works on the daemon's store. *)
Definition service (v : Server) : Service := mkService (store_ (sv_daemon v)) (sv_states v).
Definition set_service (s : Service) (v : Server) : Server :=
  let v' := set_daemon (set_store (svc_store s) (sv_daemon v)) v in
  mkServer (sv_host v') (svc_fs s) (sv_world v') (sv_watch v') (sv_registry v') (sv_inodes v')
    (sv_bootstrap_pending v').

(** [PolicyInstaller::Entry]. *)
Record PolicyEntry : Type := mkPolicyEntry { pe_dev : N; pe_ino : N; pe_bits : N }.

Inductive Effect : Type :=
| Signalled (s : Signal)
| BackendCalled (c : BackendCall)
| InstallerRegister (info : SessionInfo)
| InstallerUnregister (cgroup_path : str)
| InstallerEntries (entries : list PolicyEntry)
| WatchRemoved (wd : Z).

(** The answers of the policy installer, an interface of the daemon. *)
Record Installer : Type := mkInstaller {
  pi_available : bool;
  pi_drops : N;
  pi_register : bool;
  pi_unregister : bool;
  pi_install : list PolicyEntry -> N
}.

(** What the calls of a handler meet: the other threads, the kernel, the disk.
    [ce_wait t]: the other threads while the handler waits at most [t]
    milliseconds. *)
Record ControlEnv : Type := mkControlEnv {
  others : nat -> Server -> Server;
  ce_wait : N -> Server -> Server;
  ce_installer : option Installer;
  ce_heads : str -> ReadEnv;
  ce_use_count : N -> Z;
  ce_rss : N;
  ce_publish : Daemon.PublishEnv;
  ce_resolve : ResolveEnv;
  ce_rollback : RollbackEnv;
  ce_append : AppendEnv;
  ce_describe_io : bool;
  ce_latest : LatestEnv;
  ce_session_io : nat -> bool;
  ce_snapshot : SnapshotRequest -> SnapshotEnv;
  ce_restore : N -> RestoreEnv;
  ce_add_watch : str -> option Z;
  ce_backends : nat -> bool;
  ce_mount : str;
  ce_fnmatch : str -> str -> bool;
  ce_lstat : str -> option (N * N);
  ce_create : CreateEnv;
  ce_remove : RemoveRefEnv;
  ce_merge : MergeEnv;
  ce_proc : ProcessEnv;
  ce_table : ProcessTable;
  ce_gc : RunGcEnv;
  ce_verify_order : gset Hash -> list Hash;
  ce_duration_ms : N
}.

(** The server afterwards, the effects, the reply; [None] and [OutOfBounds] as
    for the operations that read commits. *)
Abbreviation answered := (option (parse (Server * list Effect * str))).

Definition reply (v : Server) (out : str) : answered := Some (Parsed (v, [], out)).
Definition reply_with (v : Server) (effects : list Effect) (out : str) : answered := Some (Parsed (v, effects, out)).
Definition refuse (v : Server) (msg : string) : answered := reply v (json_err (lit msg)).

(** ** Text *)

(** [q] with its apostrophes as quotation marks. *)
Definition jt (q : string) : str := (fun c => if decide (c = "'"%char) then quote else c) <$> lit q.

Definition json_bool (b : bool) : str := if b then lit "true" else lit "false".

(** [std::to_string] of a signed integer. *)
Definition z_to_string (z : Z) : str :=
  if (z <? 0)%Z then "-"%char :: to_string (Z.to_N (- z)) else to_string (Z.to_N z).

(** [snprintf] into a buffer of [n] bytes. *)
Definition snprintf (n : nat) (s : str) : str := take (n - 1) s.

(** Conversions of a [long]. *)
Definition to_u64 (z : Z) : N := Z.to_N (z mod 2 ^ 64).
Definition to_u8 (z : Z) : N := Z.to_N (z mod 2 ^ 8).
Definition to_long (n : N) : Z :=
  let z := (Z.of_N n mod 2 ^ 64)%Z in if (z <? 2 ^ 63)%Z then z else (z - 2 ^ 64)%Z.

Definition field (k : string) (v : str) : str := jt k ++ quoted (json_escape v).

Definition agent_state_record_to_json (r : AgentStateRecord) : str :=
  lit "{" ++ field "'state_id':" (state_id r) ++
  field ",'parent_state_id':" (parent_state_id r) ++
  field ",'snapshot_base_state_id':" (snapshot_base_state_id r) ++
  field ",'branch':" (as_branch r) ++
  field ",'fs_commit':" (hash_to_hex (as_fs_commit r)) ++
  field ",'union_state_id':" (as_union_state_id r) ++
  field ",'runtime_id':" (as_runtime_id r) ++
  field ",'agent_id':" (agent_id r) ++
  jt ",'sequence':" ++ to_string (sequence r) ++
  jt ",'kind':" ++ quoted (agent_state_kind_label (kind r)) ++
  field ",'payload_schema':" (payload_schema r) ++
  field ",'payload_inline':" (payload_inline r) ++
  field ",'payload_ref':" (payload_ref r) ++
  jt ",'timestamp_ns':" ++ to_string (as_timestamp_ns r) ++
  jt ",'boundary':" ++ json_bool (boundary r) ++ lit "}".

Definition or_default (s : str) (what : string) : str := match s with [] => lit what | _ => s end.

Section handlers.
Context (blake3 : bytes -> Hash) (env : ControlEnv).

(** ** Status *)

Definition available_installer : option Installer :=
  match ce_installer env with Some p => if pi_available p then Some p else None | None => None end.

Definition do_status (v : Server) : answered :=
  let cur := current_commit (ce_heads env main_name) main_name (refs_ (sv_daemon v)) in
  let ebpf := json_bool (bool_decide (is_Some available_installer)) in
  reply v (snprintf 1024 (
    jt "{'ok':true,'version':'cas-minimal-0.1','branch':'main','commit':" ++ quoted (hash_to_hex cur) ++
    jt ",'telemetry_drops_total':" ++ to_string (match available_installer with Some p => pi_drops p | None => 0 end) ++
    jt ",'session_active':" ++ ebpf ++
    jt ",'policy_version':" ++ to_string (policy_version_ (sv_daemon v)) ++
    jt ",'bootstrap_pending':" ++ json_bool (sv_bootstrap_pending v) ++
    jt ",'ebpf_available':" ++ ebpf ++ lit "}")).

Definition branch_stats_json (b : BranchMemoryStats) : str :=
  lit "{" ++ field "'name':" (bs_name b) ++
  jt ",'base_entries':" ++ to_string (N.of_nat (base_entries (bs_tree b))) ++
  jt ",'base_shared_by':" ++ z_to_string (base_shared_by (bs_tree b)) ++
  jt ",'delta_entries':" ++ to_string (N.of_nat (delta_entries (bs_tree b))) ++
  jt ",'delta_tombstones':" ++ to_string (N.of_nat (delta_tombstones (bs_tree b))) ++ lit "}".

Definition do_stats_memory (v : Server) : answered :=
  let ms := collect_memory_stats (ce_use_count env) (ce_rss env) (sv_daemon v) in
  reply v (
    jt "{'ok':true,'daemon_rss_kb':" ++ to_string (rss_kb ms) ++
    jt ",'rss_kb':" ++ to_string (rss_kb ms) ++
    jt ",'write_buffers':{'count':" ++ to_string (write_buffer_count ms) ++
    jt ",'dirty_bytes':" ++ to_string (write_buffer_dirty_bytes ms) ++
    jt "},'branches':[" ++ join_with (lit ",") (branch_stats_json <$> ms_branches ms) ++ lit "]}").

Definition backend_json (b : BackendRuntimeStatus) : str :=
  lit "{" ++ field "'name':" (brs_name b) ++
  jt ",'supported_ops':" ++ to_string (supported_ops (brs_capabilities b)) ++
  jt ",'pre_op_verdicts':" ++ json_bool (pre_op_verdicts (brs_capabilities b)) ++
  jt ",'started':" ++ json_bool (brs_started b) ++
  field ",'status':" (brs_status b) ++ lit "}".

Definition do_telemetry_status (v : Server) : answered :=
  reply v (jt "{'backends':[" ++
    join_with (lit ",") (match sv_registry v with Some r => backend_json <$> backend_statuses r | None => [] end) ++
    lit "]}").

(** ** Checkpoints *)

Definition do_checkpoint (rest : str) (v : Server) : answered :=
  match parse_rest_with_branch rest with
  | None => refuse v "ambiguous 'branch=' token in label"
  | Some (label, branch_name) =>
      let '(d, r) := checkpoint_branch_by_name blake3 (ce_publish env) branch_name label (sv_daemon v) in
      let v' := set_daemon d v in
      if negb (Checkpoint.ok r) then reply v' (json_err (cr_error r))
      else reply v' (json_ok_str (lit "commit") (hash_to_hex (commit_hash r)))
  end.

(** Continue after a call on the daemon that may run out of fuel, read past a
    commit's end or throw. *)
Definition on_daemon {A} (r : option (parse (Daemon * A))) (v : Server) (k : Server -> A -> answered) : answered :=
  then_walk r (fun '(d, x) => k (set_daemon d v) x).

Definition rollback_to (target branch_name : str) (v : Server) : answered :=
  match branch_by_name (sv_daemon v) branch_name with
  | None => refuse v "unknown branch"
  | Some _ =>
      let v1 := others env 0 v in
      then_walk (Some (resolve_target (ce_resolve env) target branch_name (store_ (sv_daemon v1)) (refs_ (sv_daemon v1))))
        (fun target_hash =>
          if decide (target_hash = ZERO_HASH) then refuse v1 "target commit not found"
          else
            let v2 := others env 1 v1 in
            on_daemon (rollback_branch_to_commit blake3 (ce_rollback env) branch_name target_hash (sv_daemon v2)) v2
              (fun v3 r =>
                if negb (Checkpoint.ok r) then reply v3 (json_err (cr_error r))
                else reply v3 (json_ok_str (lit "rolled_back_to") (hash_to_hex (commit_hash r)))))
  end.

Definition do_rollback (rest : str) (v : Server) : answered :=
  let '(target, s1) := next_word rest in
  let '(tok, s2) := next_word s1 in
  let '(extra, _) := next_word s2 in
  if decide (target = []) then refuse v "missing target"
  else if negb (bool_decide (extra = [])) then refuse v "rollback: unexpected extra token"
  else
    match tok with
    | [] => rollback_to target main_name v
    | _ => if negb (branch_token tok) then refuse v "rollback: expected 'branch=<name>' suffix"
           else rollback_to target (drop 7 tok) v
    end.

(** ** Agent states *)

Definition state_string (rest : str) (key : string) : result str :=
  match extract_str_checked rest (lit key) with
  | JsonText.Found v => Ok v
  | JsonText.Missing => Ok []
  | JsonText.Malformed => Err (lit "malformed " ++ lit key)
  end.

(** Negative numbers read as zero. *)
Definition state_number (rest : str) (key : string) : N := Z.to_N (Z.max 0 (extract_int rest (lit key) 0)).

Definition append_request (rest : str) : result AppendRequest :=
  let* agent := state_string rest "agent_id" in
  let* _ := (if decide (agent = []) then Err (lit "missing agent_id") else Ok ()) in
  let* branch := state_string rest "branch" in
  let* kind_text := state_string rest "kind" in
  let* k := (match kind_text with
             | [] => Ok Session
             | _ => match parse_agent_state_kind kind_text with Some k => Ok k | None => Err (lit "invalid kind") end
             end) in
  let* schema := state_string rest "payload_schema" in
  let* payload := state_string rest "payload" in
  let* pref := state_string rest "payload_ref" in
  let* parent := state_string rest "parent_state_id" in
  let* snap := state_string rest "snapshot_base_state_id" in
  let* fs_hex := state_string rest "fs_commit" in
  let* fs := (match fs_hex with
              | [] => Ok ZERO_HASH
              | _ => match hex_to_hash_strict fs_hex with Some h => Ok h | None => Err (lit "invalid fs_commit") end
              end) in
  let* uid := state_string rest "union_state_id" in
  let* rid := state_string rest "runtime_id" in
  Ok (mkRequest
        (mkAS (as_record_version fresh_agent_state) [] parent snap (or_default branch "main") fs uid rid agent
           (state_number rest "sequence") k schema payload pref [] (state_number rest "timestamp_ns")
           (extract_bool rest (lit "boundary") false))
        [] (extract_bool rest (lit "sync") false)).

Definition appended_json (res : AppendResult) : str :=
  field "'state_id':" (ar_state_id res) ++ field ",'durability':" (ar_durability res) ++ lit "}".

Definition do_state_append (rest : str) (v : Server) : answered :=
  match append_request rest with
  | Err e => reply v (json_err e)
  | Ok req =>
      let '(s, res) := AgentService.append blake3 (ce_append env) req (service v) in
      let v' := set_service s v in
      if negb (ar_ok res) then
        match ar_state_id res with
        | [] => reply v' (json_err (ar_error res))
        | _ => reply v' (jt "{'ok':false," ++ field "'error':" (ar_error res) ++ lit "," ++ appended_json res)
        end
      else reply v' (jt "{'ok':true," ++ appended_json res)
  end.

Definition state_reply (v : Server) (r : result AgentStateRecord) : answered :=
  match r with
  | Err e => reply v (json_err e)
  | Ok rec => reply v (jt "{'ok':true,'state':" ++ agent_state_record_to_json rec ++ lit "}")
  end.

Definition do_state_describe (rest : str) (v : Server) : answered :=
  match extract_str rest (lit "state_id") with
  | [] => refuse v "missing state_id"
  | sid => state_reply v (describe (ce_describe_io env) sid (service v))
  end.

Definition do_state_latest (rest : str) (v : Server) : answered :=
  match extract_str rest (lit "agent_id") with
  | [] => refuse v "missing agent_id"
  | agent =>
      state_reply v (latest (ce_latest env) agent (or_default (extract_str rest (lit "branch")) "main") (service v))
  end.

Definition session_depth : nat := 256.

Definition restore_full (rec : AgentStateRecord) (v : Server) : answered :=
  if decide (as_fs_commit rec = ZERO_HASH) then refuse v "state has no fs_commit"
  else
    on_daemon (rollback_branch_to_commit blake3 (ce_rollback env) (as_branch rec) (as_fs_commit rec) (sv_daemon v)) v
      (fun v' rb =>
        if negb (Checkpoint.ok rb) then reply v' (json_err (cr_error rb))
        else reply v' (jt "{'ok':true,'mode':'full','state':" ++ agent_state_record_to_json rec ++
               field ",'rolled_back_to':" (hash_to_hex (commit_hash rb)) ++ lit "}")).

(** The members of a successful restore, up to the closing brace. *)
Definition restored_json (r : RuntimeRestoreResult) : str :=
  field "'template_id':" (rr_template r) ++
  jt ",'target_generation':" ++ to_string (rr_target r) ++
  field ",'fs_commit':" (hash_to_hex (rr_fs_commit r)) ++
  field ",'runtime_id':" (rr_runtime r) ++
  jt ",'restore_eligibility':" ++ quoted (restore_eligibility_to_string (rr_eligibility r)) ++ lit "}".

Definition on_host (r : option (parse (Host * list Signal * RuntimeRestoreResult))) (v : Server)
    (out : RuntimeRestoreResult -> str) : answered :=
  then_walk r (fun '(h, sent, rr) => reply_with (set_host h v) (Signalled <$> sent) (out rr)).

Definition restore_runtime_mode (rec : AgentStateRecord) (timeout : N) (v : Server) : answered :=
  match as_union_state_id rec with
  | [] => refuse v "state has no union_state_id"
  | uid =>
      on_host (restore_runtime blake3 (ce_restore env timeout) uid (sv_host v)) v (fun rr =>
        jt "{'ok':" ++ json_bool (rr_success rr) ++ jt ",'mode':'runtime','state':" ++
        agent_state_record_to_json rec ++
        (if rr_success rr then jt ",'runtime':{'ok':true," ++ restored_json rr
         else match rr_partial rr with
              | [] => []
              | p => jt ",'runtime':{'ok':false," ++ field "'partial':" p ++ lit "}"
              end) ++
        (if rr_success rr then lit "}" else field ",'error':" (rr_message rr) ++ lit "}"))
  end.

Definition do_state_restore (rest : str) (v : Server) : answered :=
  match extract_str rest (lit "state_id") with
  | [] => refuse v "missing state_id"
  | sid =>
      let mode := or_default (extract_str rest (lit "mode")) "session" in
      let timeout := sanitize_timeout_ms (extract_int rest (lit "timeout_ms") 2000) 2000 in
      if decide (mode = lit "session") then
        let res := restore_session (ce_session_io env) sid session_depth (service v) in
        if negb (rr_ok res) then reply v (json_err (rr_error res))
        else reply v (jt "{'ok':true,'mode':'session','chain':[" ++
               join_with (lit ",") (agent_state_record_to_json <$> rr_chain res) ++ lit "]}")
      else
        match describe (ce_describe_io env) sid (service v) with
        | Err e => reply v (json_err e)
        | Ok rec =>
            if decide (mode = lit "full") then restore_full rec (others env 0 v)
            else if decide (mode = lit "runtime") then restore_runtime_mode rec timeout (others env 0 v)
            else refuse v "invalid mode"
        end
  end.

(** ** Sessions *)

(** The end of both session commands: the registry's answer when there is a
    registry, else the installer's. *)
Definition session_reply (v : Server) (effects : list Effect) (registry : option bool) (installer : Installer -> bool)
    (call : Effect) (failure : string) : answered :=
  match available_installer with
  | None => reply_with v effects (jt "{'ok':true,'ebpf_available':false}")
  | Some p =>
      let outcome (b : bool) := if b then jt "{'ok':true}" else json_err (lit failure) in
      match registry with
      | Some ok => reply_with v effects (outcome ok)
      | None => reply_with v (effects ++ [call]) (outcome (installer p))
      end
  end.

(** [watch && watch->watch(cg)]. *)
Definition try_watch (cg : str) (v : Server) : Server * bool :=
  match sv_watch v with
  | None => (v, false)
  | Some w =>
      let '(w', b) := watch (dirs (sv_world v) !! resolved_path cg) (ce_add_watch env) cg w in
      (set_watch (Some w') v, b)
  end.

Definition give_watch_up (cg : str) (v : Server) : Server * list Effect :=
  match sv_watch v with
  | None => (v, [])
  | Some w => let '(w', removed) := unwatch cg w in (set_watch (Some w') v, WatchRemoved <$> removed)
  end.

Definition on_router (f : BranchRouter -> BranchRouter) (v : Server) : Server :=
  set_daemon (set_router (f (router_ (sv_daemon v))) (sv_daemon v)) v.

Definition register_watched (cg : str) (branch_id : N) (v : Server) : Server * list Effect * bool :=
  let '(v1, watched) := try_watch cg v in
  let v2 := others env 1 v1 in
  let '(r, ok) := register_cgroup (sv_world v2) cg branch_id (router_ (sv_daemon v2)) in
  let v3 := on_router (fun _ => r) v2 in
  if negb ok then let '(v4, e) := if watched : bool then give_watch_up cg v3 else (v3, []) in (v4, e, false)
  else (if bool_decide (is_Some (sv_watch v)) && negb watched then on_router (set_leaf_revalidation true) v3 else v3, [], true).

Definition do_session_register (rest : str) (v : Server) : answered :=
  let cg := extract_str rest (lit "cgroup_path") in
  let branch_name := or_default (extract_str rest (lit "branch")) "main" in
  let sess := extract_int rest (lit "session_id") (to_long (session_id_ (sv_daemon v))) in
  let verbose := extract_int rest (lit "telemetry_verbosity") 1 in
  match cg with
  | [] => refuse v "missing cgroup_path"
  | _ =>
      match branch_by_name (sv_daemon v) branch_name with
      | None => refuse v "unknown branch"
      | Some bid =>
          let '(v1, effects, ok) := register_watched cg bid (others env 0 v) in
          if negb ok then reply_with v1 effects (json_err (lit "cgroup path not found or not a directory"))
          else
            let v2 := others env 2 v1 in
            let info := mkSession cg (to_u64 sess) bid (policy_version_ (sv_daemon v2)) (to_u8 verbose) in
            match sv_registry v2 with
            | Some r =>
                let '(calls, ok) := register_session (ce_backends env) info r in
                session_reply v2 (BackendCalled <$> calls) (Some ok) pi_register (InstallerRegister info)
                  "register_session failed"
            | None => session_reply v2 [] None pi_register (InstallerRegister info) "register_session failed"
            end
      end
  end.

Definition do_session_unregister (rest : str) (v : Server) : answered :=
  match extract_str rest (lit "cgroup_path") with
  | [] => refuse v "missing cgroup_path"
  | cg =>
      let v1 := on_router (fun r => (unregister_cgroup (sv_world v) cg r).1) v in
      let '(v2, effects) := give_watch_up cg (others env 0 v1) in
      match sv_registry v2 with
      | Some r =>
          let '(calls, ok) := unregister_session (ce_backends env) cg r in
          session_reply v2 (effects ++ (BackendCalled <$> calls)) (Some ok) pi_unregister (InstallerUnregister cg)
            "unregister_session failed"
      | None => session_reply v2 effects None pi_unregister (InstallerUnregister cg) "unregister_session failed"
      end
  end.
(** ** Policies *)

Definition star_suffix : str := lit "/**".

(** [Some prefix] for a pattern that ends in "/**". *)
Definition recursive_prefix (pattern : str) : option str :=
  let n := (length pattern - 3)%nat in
  if decide ((3 <= length pattern)%nat /\ drop n pattern = star_suffix) then Some (take n pattern) else None.

Definition pattern_matches (pattern rel : str) : bool :=
  match recursive_prefix pattern with
  | Some prefix => bool_decide (rel = prefix) || has_prefix (prefix ++ [slash]) rel
  | None => ce_fnmatch env pattern rel
  end.

Definition matched_vpaths (pattern : str) (wt : WorkingTree) : list str :=
  filter (fun vpath => pattern_matches pattern (drop 1 vpath) = true) (fst <$> for_each wt).

(** The entry of one path, and its inode remembered; a path that cannot be
    statted is left out. *)
Definition policy_entry (bits : N) (vpath : str) (x : InodeMap.inode_map * list PolicyEntry) :
    InodeMap.inode_map * list PolicyEntry :=
  match ce_lstat env (ce_mount env ++ vpath) with
  | None => x
  | Some (d, i) =>
      (InodeMap.set (mkInode d i 0) vpath x.1, x.2 ++ [mkPolicyEntry (u32 d) i bits])
  end.

Definition policy_entries (wt : WorkingTree) (rules : list ParsedPolicyRule) (m : InodeMap.inode_map) :
    InodeMap.inode_map * list PolicyEntry :=
  foldl (fun x rule =>
    foldl (fun x vpath => policy_entry (pr_bpf_bits rule) vpath x) x (matched_vpaths (pr_pattern rule) wt))
    (m, []) rules.

(** [bump_policy_version]. *)
Definition bump_policy_version (d : Daemon) : Daemon :=
  mkDaemon (store_ d) (refs_ d) (heap d) (branches_ d) (branch_name_ids_ d) (branch_create_reservations_ d)
    (branch_source_reservations_ d) (next_branch_id_ d) (router_ d) (fh_table_ d) (next_fh_id_ d)
    (session_id_ d) (u32 (policy_version_ d + 1)).

Definition do_policy_install (rest : str) (v : Server) : answered :=
  match parse_policy_rules rest with
  | None => refuse v "malformed policy"
  | Some (parsed_rules, rules) =>
      let told := match sv_registry v with Some r => BackendCalled <$> install_policy rules r | None => [] end in
      match available_installer with
      | None =>
          reply_with (set_daemon (bump_policy_version (sv_daemon v)) v) told
            (jt "{'ok':true,'ebpf_available':false,'entries_installed':0}")
      | Some p =>
          let v1 := others env 0 v in
          let '(inodes, entries) := policy_entries (wt_of (sv_daemon v1) main_id) parsed_rules (sv_inodes v1) in
          let v2 := set_inodes inodes v1 in
          let v3 := set_daemon (bump_policy_version (sv_daemon v2)) v2 in
          reply_with v3 (told ++ [InstallerEntries entries]) (snprintf 128 (
            jt "{'ok':true,'policy_version':" ++ to_string (policy_version_ (sv_daemon v3)) ++
            jt ",'entries_installed':" ++ to_string (pi_install p entries) ++ lit "}"))
      end
  end.

(** ** Branches *)

Definition do_branch_create (rest : str) (v : Server) : answered :=
  let name := extract_str rest (lit "name") in
  let from := or_default (extract_str rest (lit "from")) "main" in
  if negb (is_valid_branch_name name) then refuse v "invalid branch name"
  else if bool_decide (is_Some (branch_by_name (sv_daemon v) name)) then refuse v "branch exists"
  else if negb (bool_decide (is_Some (branch_by_name (sv_daemon v) from))) then refuse v "source branch not found"
  else
    let v1 := others env 0 v in
    let '(d, id) := create_branch (ce_create env) name from (sv_daemon v1) in
    let v2 := set_daemon d v1 in
    if decide (id = UINT32_MAX) then refuse v2 "create_branch failed"
    else reply v2 (snprintf 96 (jt "{'ok':true,'branch_id':" ++ to_string id ++ lit "}")).

Definition do_branch_delete (rest : str) (v : Server) : answered :=
  let name := extract_str rest (lit "name") in
  if decide (name = []) then refuse v "missing name"
  else if decide (name = main_name) then refuse v "cannot delete main"
  else
    match branch_by_name (sv_daemon v) name with
    | None => refuse v "branch not found"
    | Some bid =>
        if has_cgroup_for_branch bid (router_ (sv_daemon v)) then refuse v "branch has active sessions"
        else
          let v1 := others env 0 v in
          let '(d, ok) := delete_branch (ce_remove env) name (sv_daemon v1) in
          let v2 := set_daemon d v1 in
          if negb ok then refuse v2 "delete_branch failed" else reply v2 (jt "{'ok':true}")
    end.

Definition do_branch_merge (rest : str) (v : Server) : answered :=
  match parse_branch_merge_request rest with
  | None => refuse v "malformed request"
  | Some q =>
      if decide (mq_source q = []) then refuse v "missing source"
      else if decide (mq_target q = []) then refuse v "missing target"
      else
        on_daemon (merge_branch blake3 (ce_merge env) (mq_source q) (mq_target q) (mq_label q) (sv_daemon v)) v
          (fun v' r =>
            if negb (bmr_ok r) then
              reply v' (if decide (bmr_error r = lit "merge conflicts")
                        then json_conflict_response (bmr_conflicts r) else json_err (bmr_error r))
            else reply v' (jt "{'ok':true,'commit':" ++ quoted (hash_to_hex (bmr_commit r)) ++
                   field ",'target':" (mq_target q) ++ field ",'source':" (mq_source q) ++ lit "}"))
  end.

(** The buffer of an entry has 256 bytes, its leading comma included. *)
Definition branch_entry (first : bool) (name : str) (id : N) (commit : Hash) : str :=
  snprintf 256 ((if first then [] else lit ",") ++ jt "{'name':'" ++ c_str name ++ jt "','branch_id':" ++ to_string id ++
    jt ",'commit':" ++ quoted (hash_to_hex commit) ++ lit "}").

Fixpoint branch_entries (first : bool) (l : list N) (d : Daemon) : str :=
  match l with
  | [] => []
  | bid :: rest =>
      let name := name_of d bid in
      branch_entry first name bid (current_commit (ce_heads env name) name (refs_ d)) ++ branch_entries false rest d
  end.

Definition do_branch_list (v : Server) : answered :=
  let d := sv_daemon v in
  reply v (jt "{'ok':true,'branches':[" ++ branch_entries true (list_branches d) d ++ lit "]}").

(** ** Runtimes *)

Definition do_runtime_create (peer : PeerCredentials) (rest : str) (v : Server) : answered :=
  let q := mkCreateRequest (extract_str rest (lit "runtime_id")) (or_default (extract_str rest (lit "branch")) "main")
             (extract_int rest (lit "root_pid") (-1)) (extract_int rest (lit "process_group_id") (-1))
             (extract_str rest (lit "command_ref")) (extract_str rest (lit "cwd"))
             (extract_bool rest (lit "cooperative") false) (extract_str rest (lit "control_token")) in
  if decide (cq_id q = []) then refuse v "missing runtime_id"
  else if negb (bool_decide (is_Some (branch_by_name (sv_daemon v) (cq_branch q)))) then refuse v "unknown branch"
  else if decide (cq_token q = []) then refuse v "missing control token"
  else if negb (process_live (ce_table env) (cq_root_pid q)) then refuse v "runtime process not live"
  else if (cq_pgid q <=? 0)%Z then refuse v "invalid process group"
  else
    match require_launcher_peer (ce_table env) peer (cq_root_pid q) (cq_pgid q) with
    | Err e => reply v (json_err e)
    | Ok _ =>
        let v1 := others env 0 v in
        let '(s, r) := register_runtime (ce_proc env) q (sv_sup v1) in
        let v2 := set_sup s v1 in
        match r with
        | Err e => reply v2 (json_err e)
        | Ok _ =>
            reply v2 (snprintf 160 (jt "{'ok':true," ++ field "'runtime_id':" (cq_id q) ++ jt ",'generation':1}"))
        end
    end.

Definition template_json (t : TemplateStatus) : str :=
  lit "{" ++ field "'template_id':" (ts_template t) ++ jt ",'alive':" ++ json_bool (ts_alive t) ++ lit "}".

Definition runtime_status_json (st : RuntimeStatus) : str :=
  jt "{'ok':true," ++ field "'runtime_id':" (rs_runtime st) ++
  field ",'branch':" (rs_branch st) ++
  jt ",'root_pid':" ++ z_to_string (rs_root_pid st) ++
  jt ",'active_process_group_id':" ++ z_to_string (rs_pgid st) ++
  jt ",'generation':" ++ to_string (rs_generation st) ++
  jt ",'cooperative':" ++ json_bool (rs_cooperative st) ++
  field ",'command_ref':" (rs_command st) ++
  jt ",'restore_eligibility':" ++ quoted (restore_eligibility_to_string (rs_eligibility st)) ++
  jt ",'templates':[" ++ join_with (lit ",") (template_json <$> rs_templates st) ++ lit "]}".

Definition do_runtime_status (rest : str) (v : Server) : answered :=
  match extract_str rest (lit "runtime_id") with
  | [] => refuse v "missing runtime_id"
  | rid =>
      match Supervisor.status (ce_proc env) rid (sv_sup v) with
      | Err e => reply v (json_err e)
      | Ok st => reply v (runtime_status_json st)
      end
  end.

Definition runtime_entry_json (st : RuntimeStatus) : str :=
  lit "{" ++ field "'runtime_id':" (rs_runtime st) ++ field ",'branch':" (rs_branch st) ++
  jt ",'generation':" ++ to_string (rs_generation st) ++
  jt ",'restore_eligibility':" ++ quoted (restore_eligibility_to_string (rs_eligibility st)) ++ lit "}".

Definition do_runtime_list (v : Server) : answered :=
  reply v (jt "{'ok':true,'runtimes':[" ++
    join_with (lit ",") (runtime_entry_json <$> list_runtimes (ce_proc env) (sv_sup v)) ++ lit "]}").

Definition take_snapshot (q : SnapshotRequest) (v : Server) : answered :=
  let '(h, r) := snapshot_runtime blake3 (ce_snapshot env q) q (sv_host v) in
  let v' := set_host h v in
  if negb (sr_ok r) then reply v' (json_err (sr_error r))
  else reply v' (jt "{'ok':true," ++ field "'union_state_id':" (sr_union_state r) ++
         field ",'fs_commit':" (hash_to_hex (sr_fs_commit r)) ++
         field ",'template_id':" (sr_template r) ++
         field ",'runtime_id':" (sr_runtime r) ++
         jt ",'generation':" ++ to_string (sr_generation r) ++
         jt ",'restore_eligibility':" ++ quoted (restore_eligibility_to_string (sr_eligibility r)) ++ lit "}").

Definition do_runtime_snapshot (rest : str) (v : Server) : answered :=
  let rid := extract_str rest (lit "runtime_id") in
  let kind := or_default (extract_str rest (lit "boundary_kind")) "manual" in
  let timeout := sanitize_timeout_ms (extract_int rest (lit "timeout_ms") 1000) 1000 in
  if decide (rid = []) then refuse v "missing runtime_id"
  else
    match extract_str_checked rest (lit "agent_state_id") with
    | JsonText.Malformed => refuse v "invalid agent_state_id"
    | JsonText.Found (c :: s) =>
        if is_hex_hash (c :: s) then take_snapshot (mkSnapshotRequest rid kind (c :: s) timeout) v
        else refuse v "invalid agent_state_id"
    | _ => take_snapshot (mkSnapshotRequest rid kind [] timeout) v
    end.

Definition do_runtime_restore (rest : str) (v : Server) : answered :=
  match extract_str_checked rest (lit "union_state_id") with
  | JsonText.Malformed => refuse v "invalid union_state_id"
  | JsonText.Found (c :: s) =>
      let uid := c :: s in
      if negb (is_hex_hash uid) then refuse v "invalid union_state_id"
      else
        let timeout := sanitize_timeout_ms (extract_int rest (lit "timeout_ms") 5000) 5000 in
        on_host (restore_runtime blake3 (ce_restore env timeout) uid (sv_host v)) v (fun rr =>
          if negb (rr_success rr) then
            match rr_partial rr with
            | [] => json_err (rr_message rr)
            | p => jt "{'ok':false," ++ field "'partial':" p ++ field ",'error':" (rr_message rr) ++ lit "}"
            end
          else jt "{'ok':true," ++ restored_json rr)
  | _ => refuse v "missing union_state_id"
  end.

Definition do_runtime_drop (rest : str) (v : Server) : answered :=
  match extract_str rest (lit "template_id") with
  | [] => refuse v "missing template_id"
  | tid =>
      let '(s, r) := drop_template tid (sv_sup v) in
      match r with
      | Err e => reply (set_sup s v) (json_err e)
      | Ok _ => reply (set_sup s v) (jt "{'ok':true}")
      end
  end.

(** The thread waits at the boundary it observed. *)
Definition boundary_observed_at (boundary_id : str) (timeout : N) (v : Server) : answered :=
  let v1 := ce_wait env timeout v in
  let '(s, r) := wait_boundary_action boundary_id (sv_sup v1) in
  let v2 := set_sup s v1 in
  match r with
  | Err e => reply v2 (json_err e)
  | Ok a =>
      if decide (act a = lit "error") then reply v2 (json_err (act_error a))
      else reply v2 (jt "{'ok':true,'action':'snapshot'," ++ field "'operation_id':" (act_operation a) ++
             field ",'template_id':" (act_template a) ++ lit "}")
  end.

Definition do_runtime_boundary (peer : PeerCredentials) (rest : str) (v : Server) : answered :=
  match extract_str rest (lit "runtime_id") with
  | [] => refuse v "missing runtime_id"
  | rid =>
      let token := extract_str rest (lit "control_token") in
      let pid := extract_int rest (lit "pid") (-1) in
      let generation := to_u64 (extract_int rest (lit "generation") 0) in
      let kind := or_default (extract_str rest (lit "boundary_kind")) "manual" in
      match Supervisor.status (ce_proc env) rid (sv_sup v) with
      | Err e => reply v (json_err e)
      | Ok st =>
          match require_runtime_peer (ce_table env) peer pid st generation with
          | Err e => reply v (json_err e)
          | Ok _ =>
              let v1 := others env 0 v in
              let '(s, r) := observe_boundary rid token pid generation kind (sv_sup v1) in
              let v2 := set_sup s v1 in
              match r with
              | Err e =>
                  if decide (e = lit "no pending snapshot") then reply v2 (jt "{'ok':true,'action':'continue'}")
                  else reply v2 (json_err e)
              | Ok boundary_id =>
                  boundary_observed_at boundary_id
                    (sanitize_timeout_ms (extract_int rest (lit "timeout_ms") 5000) 5000) v2
              end
          end
      end
  end.

Definition do_template_ready (peer : PeerCredentials) (rest : str) (v : Server) : answered :=
  let rid := extract_str rest (lit "runtime_id") in
  let token := extract_str rest (lit "control_token") in
  match extract_str rest (lit "template_id") with
  | [] => refuse v "missing template_id"
  | tid =>
      let tpid := extract_int rest (lit "template_pid") (-1) in
      let tpgid := extract_int rest (lit "template_process_group_id") (-1) in
      let generation := to_u64 (extract_int rest (lit "generation") 0) in
      match require_template_peer (ce_table env) peer tpid tpgid with
      | Err e => reply v (json_err e)
      | Ok _ =>
          let '(s, r) := template_ready rid token tid tpid tpgid generation (sv_sup v) in
          let v1 := set_sup s v in
          match r with
          | Err e => reply v1 (json_err e)
          | Ok _ =>
              let v2 := ce_wait env (sanitize_timeout_ms (extract_int rest (lit "timeout_ms") 5000) 5000) v1 in
              match wait_template_published tid (sv_sup v2) with
              | Err e => reply v2 (json_err e)
              | Ok _ => reply v2 (jt "{'ok':true}")
              end
          end
      end
  end.

Definition poll_json (a : TemplateAction) : str :=
  match a with
  | ActDrop => jt "{'ok':true,'action':'drop'}"
  | ActWait => jt "{'ok':true,'action':'wait'}"
  | ActRestore target => jt "{'ok':true,'action':'restore','target_generation':" ++ to_string target ++ lit "}"
  end.

Definition do_template_poll (peer : PeerCredentials) (rest : str) (v : Server) : answered :=
  let token := extract_str rest (lit "control_token") in
  match extract_str rest (lit "template_id") with
  | [] => refuse v "missing template_id"
  | tid =>
      match template_status (ce_proc env) tid (sv_sup v) with
      | Err e => reply v (json_err e)
      | Ok tmpl =>
          match require_peer_pid peer (ts_pid tmpl) with
          | Err e => reply v (json_err e)
          | Ok _ =>
              let v1 := others env 0 v in
              let '(s, r) := template_poll tid token (sv_sup v1) in
              let v2 := set_sup s v1 in
              match r with Err e => reply v2 (json_err e) | Ok a => reply v2 (poll_json a) end
          end
      end
  end.

Definition do_generation_ready (peer : PeerCredentials) (rest : str) (v : Server) : answered :=
  match extract_str rest (lit "runtime_id") with
  | [] => refuse v "missing runtime_id"
  | rid =>
      let token := extract_str rest (lit "control_token") in
      let pid := extract_int rest (lit "pid") (-1) in
      let apgid := extract_int rest (lit "active_process_group_id") (-1) in
      let generation := to_u64 (extract_int rest (lit "generation") 0) in
      match restore_template_status (ce_proc env) rid (sv_sup v) with
      | Err e => reply v (json_err e)
      | Ok restore_template =>
          if negb (ts_alive restore_template) then refuse v "no live restore template"
          else
            match require_generation_peer (ce_table env) peer pid apgid restore_template with
            | Err e => reply v (json_err e)
            | Ok _ =>
                let v1 := others env 0 v in
                let '(s, r) := generation_ready rid token pid apgid generation (sv_sup v1) in
                let v2 := set_sup s v1 in
                match r with Err e => reply v2 (json_err e) | Ok _ => reply v2 (jt "{'ok':true}") end
            end
      end
  end.

(** ** Collecting *)

Definition gc_arg (tok : str) (pol : GcPolicy) : result GcPolicy :=
  if has_prefix (lit "keep_last=") tok then
    match parse_positive_u32_decimal (drop 10 tok) with
    | Some n => Ok (mkPolicy (Some n) (keep_labels pol) (dry_run pol))
    | None => Err (lit "invalid keep_last: expected positive u32")
    end
  else if has_prefix (lit "keep_label=") tok then
    match drop 11 tok with
    | [] => Err (lit "invalid keep_label: expected non-empty label")
    | label => Ok (mkPolicy (keep_last pol) (keep_labels pol ++ [label]) (dry_run pol))
    end
  else if has_prefix (lit "dry_run=") tok then
    let value := drop 8 tok in
    if bool_decide (value = lit "0") || bool_decide (value = lit "1")
    then Ok (mkPolicy (keep_last pol) (keep_labels pol) (bool_decide (value = lit "1")))
    else Err (lit "invalid dry_run: expected 0 or 1")
  else Err (lit "unknown gc arg: " ++ tok).

Fixpoint gc_args (toks : list str) (pol : GcPolicy) : result GcPolicy :=
  match toks with
  | [] => Ok pol
  | tok :: rest => let* pol' := gc_arg tok pol in gc_args rest pol'
  end.

Definition default_policy : GcPolicy := mkPolicy None [] false.

Definition gc_json (verify : bool) (pol : GcPolicy) (r : GcResult) : str :=
  jt "{'ok':" ++ json_bool (gc_ok r) ++
  match gc_error r with [] => [] | e => field ",'error':" e end ++
  jt ",'dry_run':" ++ json_bool (dry_run pol) ++
  jt ",'roots':{'branches':" ++ to_string (roots_branches r) ++
  jt ",'state_refs':" ++ to_string (roots_state_refs r) ++
  jt ",'runtime_states':" ++ to_string (roots_runtime_states r) ++ lit "}" ++
  jt ",'marked_objects':" ++ to_string (marked_objects r) ++
  jt ",'marked_bytes':" ++ to_string (marked_bytes r) ++
  jt ",'swept_objects':" ++ to_string (swept_objects r) ++
  jt ",'swept_bytes':" ++ to_string (swept_bytes r) ++
  jt ",'sweep_errors':" ++ to_string (sweep_errors r) ++
  jt ",'compacted_commits':" ++ to_string (compacted_commits r) ++
  jt ",'missing_objects':" ++ to_string (missing_objects r) ++
  (if verify then jt ",'missing':[" ++ join_with (lit ",") ((fun h => quoted (hash_to_hex h)) <$> gc_missing r) ++ lit "]"
   else []) ++
  jt ",'duration_ms':" ++ to_string (ce_duration_ms env) ++ lit "}".

(** The union states the supervisor's templates hold are live. *)
Definition live_union_states (s : Supervisor) : list str :=
  list_runtimes (ce_proc env) s ≫= fun rt => ts_union_state <$> rs_templates rt.

Definition gc_env (v : Server) : RunGcEnv :=
  mkRunGc (gc_fh_order (ce_gc env)) (live_union_states (sv_sup v)) (gc_reads (ce_gc env)) (gc_roots_env (ce_gc env))
    (gc_sweep_env (ce_gc env)).

Definition do_gc (verify : bool) (toks : list str) (v : Server) : answered :=
  match gc_args toks default_policy with
  | Err e => reply v (json_err e)
  | Ok pol =>
      let live := daemon_roots (gc_env v) (sv_daemon v) in
      let v1 := others env 0 v in
      if verify then
        match mark_and_verify (gc_env v) (ce_verify_order env) pol live (sv_daemon v1) with
        | Some r => reply v1 (gc_json true pol r)
        | None => None
        end
      else
        match mark_and_sweep (gc_env v) pol live (sv_daemon v1) with
        | Some (d, r) => reply (set_daemon d v1) (gc_json false pol r)
        | None => None
        end
  end.

(** ** Dispatch *)

Definition runtime_command (cmd : str) : bool := has_prefix (lit "runtime.") cmd.

Definition dispatch_runtime (peer : PeerCredentials) (cmd rest : str) (v : Server) : option answered :=
  if decide (cmd = lit "runtime.create") then Some (do_runtime_create peer rest v)
  else if decide (cmd = lit "runtime.status") then Some (do_runtime_status rest v)
  else if decide (cmd = lit "runtime.list") then Some (do_runtime_list v)
  else if decide (cmd = lit "runtime.snapshot") then Some (do_runtime_snapshot rest v)
  else if decide (cmd = lit "runtime.restore") then Some (do_runtime_restore rest v)
  else if decide (cmd = lit "runtime.drop") then Some (do_runtime_drop rest v)
  else if decide (cmd = lit "runtime.boundary") then Some (do_runtime_boundary peer rest v)
  else if decide (cmd = lit "runtime.template.ready") then Some (do_template_ready peer rest v)
  else if decide (cmd = lit "runtime.template.poll") then Some (do_template_poll peer rest v)
  else if decide (cmd = lit "runtime.generation.ready") then Some (do_generation_ready peer rest v)
  else None.

Definition dispatch_plain (cmd rest_of_line : str) (v : Server) : option answered :=
  let rest := JsonText.line_of rest_of_line in
  if decide (cmd = lit "status") then Some (do_status v)
  else if decide (cmd = lit "stats.memory") then Some (do_stats_memory v)
  else if decide (cmd = lit "telemetry.status") then Some (do_telemetry_status v)
  else if decide (cmd = lit "checkpoint") then Some (do_checkpoint rest v)
  else if decide (cmd = lit "rollback") then Some (do_rollback rest_of_line v)
  else if decide (cmd = lit "state.append") then Some (do_state_append rest v)
  else if decide (cmd = lit "state.describe") then Some (do_state_describe rest v)
  else if decide (cmd = lit "state.latest") then Some (do_state_latest rest v)
  else if decide (cmd = lit "state.restore") then Some (do_state_restore rest v)
  else if decide (cmd = lit "session.register") then Some (do_session_register rest v)
  else if decide (cmd = lit "session.unregister") then Some (do_session_unregister rest v)
  else if decide (cmd = lit "policy.install") then Some (do_policy_install rest v)
  else if decide (cmd = lit "branch.create") then Some (do_branch_create rest v)
  else if decide (cmd = lit "branch.delete") then Some (do_branch_delete rest v)
  else if decide (cmd = lit "branch.merge") then Some (do_branch_merge rest v)
  else if decide (cmd = lit "branch.list") then Some (do_branch_list v)
  else if decide (cmd = lit "gc.run") then Some (do_gc false (words rest_of_line) v)
  else if decide (cmd = lit "gc.verify") then Some (do_gc true (words rest_of_line) v)
  else None.

(** The runtime commands come after the others in the code and start with a
    check of their own; no other command has their prefix. *)
Definition dispatch (line : str) (peer : PeerCredentials) (v : Server) : answered :=
  let '(cmd, rest_of_line) := next_word line in
  if runtime_command cmd then
    match pc_supported (ce_proc env) with
    | Some e => reply v (json_err e)
    | None =>
        default (refuse v "unknown command") (dispatch_runtime peer cmd (JsonText.line_of rest_of_line) v)
    end
  else default (refuse v "unknown command") (dispatch_plain cmd rest_of_line v).

End handlers.
