(* ===== verification/JsonAcceptor.v ===== *)
(** A reference reader of JSON text: an automaton with a stack that accepts one
    value without white space, numbers being integers. The replies of the
    control socket are checked against it.

    Bytes from 128 on are taken as they are; whether they are UTF-8 is not
    looked at. *)

From S2P Require Import Prelude Hashes KvCodec JsonText JsonGrammar Telemetry TelemetryProps.

(** Where the reader is. The stack holds the open objects ([true]) and arrays. *)
Inductive mode : Type :=
| Start                              (** a value *)
| First                              (** a value, or the end of an array *)
| Key0                               (** a name, or the end of an object *)
| KeyN                               (** a name *)
| InString (key : bool)
| Escaped (key : bool)
| Hex (n : nat) (key : bool)
| Colon
| Literal (rest : str)
| Minus
| Zero
| Digits
| After.

Definition is_hex (c : ascii) : bool := bool_decide (is_Some (hex_val c)).

Definition literal_tail (c : ascii) : option str :=
  if is_char "t" c then Some (lit "rue") else if is_char "f" c then Some (lit "alse")
  else if is_char "n" c then Some (lit "ull") else None.

Definition step_value (st : list bool) (c : ascii) : option (list bool * mode) :=
  if is_char quote c then Some (st, InString false)
  else if is_char "{" c then Some (true :: st, Key0)
  else if is_char "[" c then Some (false :: st, First)
  else if is_char "-" c then Some (st, Minus)
  else if is_char "0" c then Some (st, Zero)
  else if is_digit c then Some (st, Digits)
  else (fun l => (st, Literal l)) <$> literal_tail c.

Definition step_after (st : list bool) (c : ascii) : option (list bool * mode) :=
  match st with
  | [] => None
  | b :: st' =>
      if is_char "," c then Some (st, if b : bool then KeyN else Start)
      else if is_char (if b then "}" else "]") c then Some (st', After)
      else None
  end.

Definition close_string (key : bool) : mode := if key then Colon else After.

Definition step (x : list bool * mode) (c : ascii) : option (list bool * mode) :=
  let '(st, m) := x in
  match m with
  | Start => step_value st c
  | First => if is_char "]" c then Some (drop 1 st, After) else step_value st c
  | Key0 => if is_char "}" c then Some (drop 1 st, After)
            else if is_char quote c then Some (st, InString true) else None
  | KeyN => if is_char quote c then Some (st, InString true) else None
  | InString k =>
      if is_char quote c then Some (st, close_string k)
      else if is_char backslash c then Some (st, Escaped k)
      else if N_of_ascii c <? 32 then None else Some (st, InString k)
  | Escaped k =>
      if is_char "u" c then Some (st, Hex 4 k)
      else match simple_escape c with Some _ => Some (st, InString k) | None => None end
  | Hex n k =>
      if is_hex c then Some (st, match n with S (S n') => Hex (S n') k | _ => InString k end) else None
  | Colon => if is_char ":" c then Some (st, Start) else None
  | Literal l =>
      match l with
      | x :: l' => if is_char x c then Some (st, match l' with [] => After | _ => Literal l' end) else None
      | [] => None
      end
  | Minus => if is_char "0" c then Some (st, Zero) else if is_digit c then Some (st, Digits) else None
  | Zero => step_after st c
  | Digits => if is_digit c then Some (st, Digits) else step_after st c
  | After => step_after st c
  end.

Fixpoint run (x : list bool * mode) (s : str) : option (list bool * mode) :=
  match s with
  | [] => Some x
  | c :: rest => match step x c with Some y => run y rest | None => None end
  end.

Definition finished (m : mode) : bool := match m with After | Zero | Digits => true | _ => false end.

Definition is_json (s : str) : bool :=
  match run ([], Start) s with Some ([], m) => finished m | _ => false end.

(** ** Running over text with holes *)

Lemma run_app x a b : run x (a ++ b) = (y ← run x a; run y b).
Proof.
  revert x. induction a as [|c a IH]; intros x; [done|]. cbn [app run]. destruct (step x c); [apply IH|done].
Qed.

(** A text that is one value wherever it stands. *)
Definition value (t : str) : Prop := forall st rest, run (st, Start) (t ++ rest) = run (st, After) rest.

Lemma run_escaped_char st k c rest : run (st, InString k) (escape_char c ++ rest) = run (st, InString k) rest.
Proof.
  rewrite run_app. enough (run (st, InString k) (escape_char c) = Some (st, InString k)) as -> by done.
  destruct c as [[] [] [] [] [] [] [] []]; vm_compute; reflexivity.
Qed.

Lemma run_escaped st k s rest : run (st, InString k) (json_escape s ++ rest) = run (st, InString k) rest.
Proof.
  induction s as [|c s IH]; [done|]. change (json_escape (c :: s)) with (escape_char c ++ json_escape s).
  by rewrite <- app_assoc, run_escaped_char.
Qed.

Lemma value_escaped s : value (quoted (json_escape s)).
Proof.
  intros st rest. unfold quoted. cbn [app run]. change (step (st, Start) quote) with (Some (st, InString false)).
  cbv iota. by rewrite <- app_assoc, run_escaped.
Qed.

(** Text that needs no escapes. *)
Lemma value_plain s : plain s = true -> value (quoted s).
Proof. intros H%bool_decide_eq_true. rewrite <- H. apply value_escaped. Qed.

(** A number is complete once something else follows. *)
Definition number_ends (rest : str) : Prop := rest <> [] /\ starts_with is_digit rest = false.

Lemma number_ends_cons c s : is_digit c = false -> number_ends (c :: s).
Proof. done. Qed.

Lemma run_finished st m rest : finished m = true -> number_ends rest -> run (st, m) rest = run (st, After) rest.
Proof.
  intros Hm [Hne Hd]. destruct rest as [|c rest]; [done|]. cbn [starts_with] in Hd. cbn [run].
  destruct m; try done. cbn [step]. by rewrite Hd.
Qed.

Lemma run_digits st d rest : Forall (fun c => is_digit c = true) d -> run (st, Digits) (d ++ rest) = run (st, Digits) rest.
Proof. induction 1 as [|c d Hc _ IH]; [done|]. cbn [app run step]. by rewrite Hc. Qed.

Lemma digit_step st c : is_digit c = true ->
  step_value st c = Some (st, if is_char "0" c then Zero else Digits).
Proof.
  intros Hc. unfold step_value.
  assert (implb (is_digit c) (negb (is_char quote c) && negb (is_char "{" c) && negb (is_char "[" c) && negb (is_char "-" c)) = true) as H.
  { clear Hc. revert c. apply ascii_cases. by apply (forall_below 256). }
  rewrite Hc in H. cbn [implb] in H. rewrite !andb_true_iff, !negb_true_iff in H. destruct H as [[[-> ->] ->] ->].
  rewrite Hc. by destruct (is_char "0" c).
Qed.

(** The digits of a number, up to the reader's state after them. *)
Lemma run_integer st i : integer_text i ->
  (exists m, finished m = true /\ run (st, Start) i = Some (st, m)) /\
  (exists m, finished m = true /\ run (st, Minus) i = Some (st, m)).
Proof.
  intros [->|[[Hne Hd] H0]]; [by split; exists Zero|]. destruct Hd as [|c d Hc Hd]; [done|]. cbn [starts_with] in H0.
  split; exists Digits; (split; [done|]); cbn [run step].
  - rewrite digit_step, H0 by done. cbn beta iota. rewrite <- (app_nil_r d). by rewrite run_digits.
  - rewrite H0, Hc. cbn beta iota. rewrite <- (app_nil_r d). by rewrite run_digits.
Qed.

Lemma to_string_integer n : integer_text (to_string n).
Proof.
  destruct (to_string_number n) as (sg & i & f & e & E & Hsg & Hi & Hf & He).
  pose proof (to_string_digits n) as Hd. rewrite forallb_forall in Hd.
  assert (forall c, c ∈ to_string n -> is_digit c = true) as Hall by (intros c Hc; by apply Hd, list_elem_of_In).
  rewrite E in Hall.
  destruct Hsg as [->| ->]; [|specialize (Hall "-"%char ltac:(set_solver)); done].
  destruct Hf as [->|(d & -> & _)]; [|specialize (Hall "."%char ltac:(set_solver)); done].
  destruct He as [->|(x & s & d & -> & Hx & _)].
  { rewrite E. cbn [app]. by rewrite !app_nil_r. }
  specialize (Hall x ltac:(set_solver)). by destruct Hx; subst.
Qed.

Lemma run_number st n rest : number_ends rest -> run (st, Start) (to_string n ++ rest) = run (st, After) rest.
Proof.
  intros Hr. destruct (run_integer st _ (to_string_integer n)) as [(m & Hm & E) _]. rewrite run_app, E. by apply run_finished.
Qed.

(** Values between commas. *)
Lemma value_items l st rest : l <> [] -> Forall value l ->
  run (false :: st, Start) (join_with (lit ",") l ++ rest) = run (false :: st, After) rest.
Proof.
  intros Hne Hl. induction Hl as [|t l Ht Hl IH]; [done|]. cbn [join_with]. rewrite <- app_assoc, Ht.
  destruct l as [|u l]; [done|]. rewrite <- app_assoc. apply IH. done.
Qed.

Lemma first_is_start st t rest : value t -> t <> lit "]" -> run (st, First) (t ++ rest) = run (st, Start) (t ++ rest).
Proof.
  intros Ht _. destruct t as [|c t].
  - exfalso. specialize (Ht [] (lit "1")). by vm_compute in Ht.
  - cbn [app run step]. destruct (is_char "]" c) eqn:E; [|done]. apply is_char_true in E as ->. exfalso.
    specialize (Ht [true] (lit "}")). cbn [app run] in Ht. by vm_compute in Ht.
Qed.

Lemma value_array l : Forall value l -> value (lit "[" ++ join_with (lit ",") l ++ lit "]").
Proof.
  intros Hl st rest. rewrite <- !app_assoc. cbn [lit String.list_ascii_of_string app run].
  change (step (st, Start) "[") with (Some (false :: st, First)). cbv iota.
  destruct Hl as [|t l Ht Hl]; [done|].
  assert (forall r, run (false :: st, First) (join_with (lit ",") (t :: l) ++ r) =
    run (false :: st, Start) (join_with (lit ",") (t :: l) ++ r)) as ->.
  { intros r. cbn [join_with]. rewrite <- app_assoc. apply first_is_start; [done|]. intros ->.
    specialize (Ht [] []). by vm_compute in Ht. }
  rewrite value_items by (done || by constructor). done.
Qed.

(** ** Whole texts *)

Lemma value_is_json t : value t -> is_json t = true.
Proof. intros Ht. unfold is_json. rewrite <- (app_nil_r t), Ht. done. Qed.

(** Once an object is closed nothing may follow, so no proper prefix of one is
    a value. *)
Lemma prefix_stays t st m : run ([true], Key0) t = Some (st, m) -> st = [] -> m = After.
Proof.
  revert st m. induction t as [|c t IH] using rev_ind; intros st m; [by intros [= <- <-]|].
  rewrite run_app. destruct (run ([true], Key0) t) as [[st0 m0]|] eqn:E; [|done]. cbn [mbind option_bind run].
  destruct (step (st0, m0) c) as [[st1 m1]|] eqn:Es; [|done]. intros [= <- <-] ->.
  specialize (IH st0 m0 eq_refl). destruct (decide (st0 = [])) as [->|Hst].
  - by rewrite IH in Es by done.
  - unfold step, step_value, step_after in Es.
    destruct m0; repeat (case_match; simplify_eq; try done); try (by destruct (literal_tail c); simplify_eq/=).
Qed.

Lemma proper_prefix_not_json t n : value t -> starts_with (is_char "{") t = true -> (n < length t)%nat ->
  is_json (take n t) = false.
Proof.
  intros Ht Hs Hn. apply not_true_is_false. intros Hj. unfold is_json in Hj.
  destruct (run ([], Start) (take n t)) as [[[|] m]|] eqn:E; try done.
  specialize (Ht [] []). rewrite app_nil_r in Ht. rewrite <- (take_drop n t) in Ht. rewrite run_app, E in Ht.
  cbn [mbind option_bind] in Ht. apply starts_with_char in Hs as [r ->].
  destruct n as [|n]; [by injection E as <-|]. cbn [take firstn run] in E.
  change (step ([], Start) "{") with (Some ([true], Key0)) in E. cbv iota in E.
  assert (m = After) as -> by by eapply prefix_stays.
  destruct (drop (S n) ("{"%char :: r)) as [|c s] eqn:Ed; [|done].
  apply (f_equal length) in Ed. rewrite length_drop in Ed. cbn [length] in *. lia.
Qed.
