(* ===== verification/ControlDemo.v ===== *)
(** A server at rest and an environment without faults, on which the theorems
    about the control socket are tried. *)

From S2P Require Import Prelude Hashes KvCodec JsonText WorkingTree ObjectStore Codec TreeSerialize Refs Checkpoint AgentState StateFs AgentService RuntimeState Supervisor SupervisorRuns ProcessControl Peers BranchMerge Gc GcSweep BranchRouter RouterAnswers Handles Bootstrap Daemon DaemonProps DaemonGc RuntimeOps RuntimeProps Telemetry CgroupWatch ControlProtocol.

Definition demo_load : LoadEnv := mkLoad true 8 (fun _ => true) (fun _ => StillThere).

Definition demo_merge : MergeEnv :=
  mkMergeEnv small_publish small_publish all_base_reads demo_load demo_load demo_load mc_env ref_writes_ok.

(** The processes with numbers from 1 to 999 live, each in its own group, the
    launcher 100 being their parent. *)
Definition demo_process (pid : Z) : bool := ((0 <? pid) && (pid <? 1000))%Z.

Definition demo_table : ProcessTable :=
  mkTable (fun pid _ => if demo_process pid then None else Some 3)
    (fun pid => if demo_process pid then Some pid else None)
    (fun pid => if demo_process pid then Some (lit "1 (sh) S 100 1 1 0 -1") else None).

Definition demo_control (o : nat -> Server -> Server) (add_watch : str -> option Z) : ControlEnv :=
  mkControlEnv o (fun _ v => v) None (fun _ => reads_ok) (fun _ => 1%Z) 100 small_publish
    (mkResolveEnv true (fun _ => true) reads_ok) rb_env no_append_faults true reads_well (fun _ => true)
    (fun _ => snap_env) (fun _ => demo_env) add_watch (fun _ => true) (lit "/mnt") (fun _ _ => false)
    (fun _ => Some (1, 2)) (mkCreate reads_ok ref_writes_ok) (mkRemoveRefEnv true true true true) demo_merge calm
    demo_table gc_run_env (fun s => elements s) 5.

Definition quiet_control : ControlEnv := demo_control (fun _ v => v) (fun _ => Some 1%Z).

(** The runtime of SupervisorRuns, the hierarchy of RouterAnswers, a watch. *)
Definition demo_server : Server :=
  mkServer demo_host base_fs sample_world (Some (watch_start true true no_watch).1) None ∅ false.

Definition demo_peer (pid : Z) : PeerCredentials := mkPeer false true pid 0 0.

(** The parts of an answer that was given. *)
Definition answer_of (v : Server) (a : answered) : Server * list Effect * str :=
  match a with Some (Parsed x) => x | _ => (v, [], []) end.

Lemma answer_parts v a : match a with Some (Parsed _) => true | _ => false end = true ->
  a = Some (Parsed ((answer_of v a).1.1, (answer_of v a).1.2, (answer_of v a).2)).
Proof. by destruct a as [[[[v' e] o]| |]|]. Qed.
