(* ===== verification/ControlReplies.v ===== *)
(** Every reply of the control socket is JSON, as the reference reader takes it,
    and the text members of an agent state read back as they were. *)

From S2P Require Import Prelude Hashes KvCodec JsonText JsonGrammar WorkingTree ObjectStore Codec Refs Checkpoint AgentState StateFs AgentService RuntimeState Supervisor SupervisorRuns ProcessControl Peers BranchMerge Gc BranchRouter Handles Bootstrap Daemon RuntimeOps Telemetry TelemetryProps CgroupWatch ControlProtocol JsonAcceptor ControlDemo.
From Stdlib Require Import ZifyBool.

Lemma value_bool b : value (json_bool b).
Proof. by destruct b. Qed.

Lemma run_signed st z rest : number_ends rest -> run (st, Start) (z_to_string z ++ rest) = run (st, After) rest.
Proof.
  intros Hr. unfold z_to_string. destruct (z <? 0)%Z; [|by apply run_number].
  destruct (run_integer st _ (to_string_integer (Z.to_N (- z)))) as [_ (m & Hm & E)].
  cbn [app run]. change (step (st, Start) "-") with (Some (st, Minus)). cbv iota. rewrite run_app, E. by apply run_finished.
Qed.

Lemma run_value t st rest : value t -> run (st, Start) (t ++ rest) = run (st, After) rest.
Proof. intros H. apply H. Qed.

Lemma run_array l st rest : Forall value l ->
  run (st, Start) (lit "[" ++ join_with (lit ",") l ++ lit "]" ++ rest) = run (st, After) rest.
Proof. intros H. rewrite <- (value_array l H st rest). by rewrite <- !app_assoc. Qed.

(** Over a text without holes the reader is run. *)
Lemma run_text x t y rest : run x t = Some y -> run x (t ++ rest) = run y rest.
Proof. intros H. by rewrite run_app, H. Qed.

(** Characters that stand for themselves. *)
Definition plain_char (c : ascii) : bool := bool_decide (escape_char c = [c]).

Lemma plain_chars s : forallb plain_char s = true -> plain s = true.
Proof.
  intros H. apply bool_decide_eq_true. induction s as [|c s IH]; [done|]. cbn [forallb] in H.
  apply andb_true_iff in H as [Hc%bool_decide_eq_true Hs].
  change (json_escape (c :: s)) with (escape_char c ++ json_escape s). by rewrite Hc, IH.
Qed.

Lemma hash_plain h : plain (hash_to_hex h) = true.
Proof.
  apply plain_chars. pose proof (hash_to_hex_is_hex h) as H. apply andb_true_iff in H as [_ H].
  rewrite forallb_forall in *. intros c Hc. apply H in Hc. clear H.
  assert (implb (is_hex_char c) (plain_char c) = true) as Hp; [|by rewrite Hc in Hp].
  clear Hc. revert c. apply ascii_cases. by apply (forall_below 256).
Qed.

Lemma branch_chars_plain s : forallb branch_char s = true -> plain s = true.
Proof.
  intros H. apply plain_chars. rewrite forallb_forall in *. intros c Hc%H.
  assert (implb (branch_char c) (plain_char c) = true) as Hp; [|by rewrite Hc in Hp].
  clear Hc. revert c. apply ascii_cases. by apply (forall_below 256).
Qed.

Lemma value_hash h : value (quoted (hash_to_hex h)).
Proof. apply value_plain, hash_plain. Qed.

Lemma value_kind k : value (quoted (agent_state_kind_label k)).
Proof. apply value_plain. by destruct k. Qed.

Lemma value_eligibility e : value (quoted (restore_eligibility_to_string e)).
Proof. apply value_plain. by destruct e. Qed.

Lemma number_ends_app t r : negb (bool_decide (t = [])) && negb (starts_with is_digit t) = true -> number_ends (t ++ r).
Proof.
  rewrite andb_true_iff, !negb_true_iff, bool_decide_eq_false. intros [Hne Hd]. split.
  - by destruct t.
  - by rewrite starts_with_app.
Qed.

(** Items between the brackets of an array whose ends are parts of the
    surrounding text. *)
Lemma run_items l st t r : Forall value l -> starts_with (is_char "]") t = true ->
  run (false :: st, First) (join_with (lit ",") l ++ t ++ r) = run (false :: st, After) (t ++ r).
Proof.
  intros Hl [s ->]%starts_with_char. cbn [app]. change (run (false :: st, After) ("]"%char :: s ++ r)) with (run (st, After) (s ++ r)).
  rewrite <- (run_array l st (s ++ r) Hl). done.
Qed.

Create HintDb json.
#[export] Hint Resolve value_escaped value_bool value_hash value_kind value_eligibility : json.

(** The reader over literal text, then over what stands in its holes. *)
Ltac json_text := match goal with
  | |- run ?x (?t ++ ?r) = _ =>
      match t with jt _ => idtac | lit _ => idtac end;
      let y := eval vm_compute in (run x t) in
      match y with Some ?z => rewrite (run_text x t z r) by (vm_compute; reflexivity) end
  end.

Ltac json_step := first
  [ json_text
  | rewrite run_value by (auto with json)
  | rewrite run_number by (apply number_ends_app; reflexivity)
  | rewrite run_signed by (apply number_ends_app; reflexivity)
  | rewrite run_items by (first [reflexivity | auto with json]) ].

Ltac json_value := let st := fresh in let r := fresh in intros st r; unfold field; rewrite <- ?app_assoc; repeat json_step; reflexivity.

Lemma value_err msg : value (json_err msg).
Proof.
  intros st rest. unfold json_err.
  change (lit "{" ++ quoted (lit "ok") ++ lit ":false," ++ quoted (lit "error") ++ lit ":" ++ quoted (json_escape msg) ++ lit "}")
    with (jt "{'ok':false,'error':" ++ quoted (json_escape msg) ++ lit "}").
  rewrite <- ?app_assoc. repeat json_step. reflexivity.
Qed.

Lemma value_ok_hash k h : plain k = true -> value (json_ok_str k (hash_to_hex h)).
Proof.
  intros Hk st rest. unfold json_ok_str.
  replace (quoted k ++ lit ":" ++ quoted (hash_to_hex h) ++ lit "}")
    with (lit (String (ascii_of_N 34) EmptyString) ++ k ++ jt "':" ++ quoted (hash_to_hex h) ++ lit "}")
    by (unfold quoted at 2; by rewrite <- app_comm_cons, <- app_assoc).
  apply bool_decide_eq_true in Hk. rewrite <- Hk. set (key := json_escape k).
  change (lit "{" ++ quoted (lit "ok") ++ lit ":true," ++ ?x) with (jt "{'ok':true," ++ x).
  rewrite <- ?app_assoc. do 2 json_text. subst key. rewrite run_escaped. repeat json_step. reflexivity.
Qed.

Lemma value_conflicts l : value (json_conflict_response l).
Proof.
  assert (Forall value ((fun c => quoted (json_escape c)) <$> l)) as Hl.
  { apply Forall_fmap, Forall_true. intros c. apply value_escaped. }
  intros st rest. unfold json_conflict_response. set (items := join_with _ _).
  change (lit "{" ++ quoted (lit "ok") ++ lit ":false," ++ quoted (lit "error") ++ lit ":" ++
    quoted (lit "merge conflicts") ++ lit "," ++ quoted (lit "conflicts") ++ lit ":[" ++ items ++ lit "]}")
    with (jt "{'ok':false,'error':'merge conflicts','conflicts':[" ++ items ++ lit "]}").
  subst items. rewrite <- ?app_assoc. repeat json_step. reflexivity.
Qed.

Lemma value_record r : value (agent_state_record_to_json r).
Proof. unfold agent_state_record_to_json. json_value. Qed.

(** ** Replies *)

Definition answers_json (a : answered) : Prop :=
  match a with Some (Parsed (_, _, out)) => is_json out = true | _ => True end.

Lemma answer_value v effects out : value out -> answers_json (reply_with v effects out).
Proof. apply value_is_json. Qed.

Lemma reply_value v out : value out -> answers_json (reply v out).
Proof. apply value_is_json. Qed.

Lemma answer_err v effects msg : answers_json (reply_with v effects (json_err msg)).
Proof. apply answer_value, value_err. Qed.

Lemma reply_err v msg : answers_json (reply v (json_err msg)).
Proof. apply reply_value, value_err. Qed.

Lemma refuse_json v msg : answers_json (refuse v msg).
Proof. apply reply_err. Qed.

Lemma walk_json {A} (r : option (parse A)) k : (forall x, answers_json (k x)) -> answers_json (then_walk r k).
Proof. intros H. destruct r as [[x| |]|]; [apply H|done..]. Qed.

Lemma on_daemon_json {A} (r : option (parse (Daemon * A))) v k :
  (forall v' x, answers_json (k v' x)) -> answers_json (on_daemon r v k).
Proof. intros H. apply walk_json. intros [d x]. apply H. Qed.

Lemma on_host_json r v out : (forall rr, value (out rr)) -> answers_json (on_host r v out).
Proof. intros H. apply walk_json. intros [[h sent] rr]. apply answer_value, H. Qed.

#[export] Hint Resolve reply_err refuse_json answer_err value_err : json.

Lemma snprintf_fits n s : (length s < n)%nat -> snprintf n s = s.
Proof. intros H. unfold snprintf. apply take_ge. lia. Qed.

(** A number of [k] digits. *)
Lemma dec_go_all_digits fuel k : forall n acc, n < 10 ^ N.of_nat k -> (1 <= k)%nat ->
  (length (dec_go fuel n acc) <= k + length acc)%nat.
Proof.
  revert k. induction fuel as [|fuel IH]; intros k n acc Hn Hk; cbn [dec_go]; [lia|].
  destruct (N.eqb_spec (n / 10) 0) as [Hz|Hz]; [cbn [length]; lia|].
  destruct k as [|k]; [lia|]. rewrite Nat2N.inj_succ, N.pow_succ_r' in Hn.
  assert (n / 10 < 10 ^ N.of_nat k) as Hlt by (apply N.Div0.div_lt_upper_bound; lia).
  destruct k as [|k]; [by apply N.lt_1_r in Hlt|].
  etrans; [apply (IH (S k)); [done|lia]|]. cbn [length]. lia.
Qed.

Lemma to_string_digits_u32 n : n < 2 ^ 32 -> (length (to_string n) <= 10)%nat.
Proof. intros H. etrans; [apply (dec_go_all_digits _ 10); [by eapply N.lt_trans; [exact H|]|lia]|done]. Qed.

Lemma to_string_digits_u64 n : n < 2 ^ 64 -> (length (to_string n) <= 20)%nat.
Proof. intros H. etrans; [apply (dec_go_all_digits _ 20); [by eapply N.lt_trans; [exact H|]|lia]|done]. Qed.

(** The numbers and names of the daemon, within their types. *)
Record widths (v : Server) : Prop := {
  w_policy : policy_version_ (sv_daemon v) < 2 ^ 32;
  w_next : next_branch_id_ (sv_daemon v) < 2 ^ 32;
  w_ids : forall bid, bid ∈ branches_ (sv_daemon v) -> bid < 2 ^ 32;
  w_names : forall bid, bid ∈ branches_ (sv_daemon v) ->
    (length (name_of (sv_daemon v) bid) <= 64)%nat /\ forallb branch_char (name_of (sv_daemon v) bid) = true
}.

Definition installer_widths (env : ControlEnv) : Prop :=
  forall p, ce_installer env = Some p -> pi_drops p < 2 ^ 64 /\ forall l, pi_install p l < 2 ^ 64.

Section replies.
Context (blake3 : bytes -> Hash) (env : ControlEnv).
Context (Henv : installer_widths env) (Hothers : forall n v, widths v -> widths (others env n v)).

Lemma available_widths p : available_installer env = Some p -> pi_drops p < 2 ^ 64 /\ forall l, pi_install p l < 2 ^ 64.
Proof.
  unfold available_installer. destruct (ce_installer env) as [q|] eqn:E; [|done].
  destruct (pi_available q); [|done]. intros [= <-]. by apply Henv.
Qed.

Lemma json_bool_length b : (length (json_bool b) <= 5)%nat.
Proof. destruct b; cbn; lia. Qed.

Lemma quoted_length s : length (quoted s) = (2 + length s)%nat.
Proof. unfold quoted. cbn [length]. rewrite length_app. cbn [length]. lia. Qed.

Ltac lengths := rewrite ?length_app, ?quoted_length, ?hash_to_hex_length;
  repeat match goal with |- context [length (jt ?q)] => let n := eval vm_compute in (length (jt q)) in change (length (jt q)) with n end;
  repeat match goal with |- context [length (lit ?q)] => let n := eval vm_compute in (length (lit q)) in change (length (lit q)) with n end.

Lemma status_json v : widths v -> answers_json (do_status env v).
Proof.
  intros Hv. apply reply_value. rewrite snprintf_fits.
  - json_value.
  - pose proof (to_string_digits_u32 _ (w_policy v Hv)).
    pose proof (json_bool_length (bool_decide (is_Some (available_installer env)))).
    pose proof (json_bool_length (sv_bootstrap_pending v)).
    assert (length (to_string (match available_installer env with Some p => pi_drops p | None => 0 end)) <= 20)%nat.
    { apply to_string_digits_u64. destruct (available_installer env) as [p|] eqn:E; [|lia]. by apply available_widths in E as [? _]. }
    lengths. lia.
Qed.

Lemma stats_json v : answers_json (do_stats_memory env v).
Proof.
  apply reply_value. set (ms := collect_memory_stats _ _ _).
  assert (Forall value (branch_stats_json <$> ms_branches ms)) as Hl.
  { apply Forall_fmap, Forall_true. intros b. unfold compose, branch_stats_json. json_value. }
  json_value.
Qed.

Lemma telemetry_json v : answers_json (do_telemetry_status v).
Proof.
  apply reply_value. set (items := match sv_registry v with Some _ => _ | None => _ end).
  assert (Forall value items) as Hl.
  { subst items. destruct (sv_registry v) as [r|]; [|done]. apply Forall_fmap, Forall_true.
    intros b. unfold compose, backend_json. json_value. }
  json_value.
Qed.

Lemma checkpoint_json rest v : answers_json (do_checkpoint blake3 env rest v).
Proof.
  unfold do_checkpoint. destruct (parse_rest_with_branch rest) as [[label branch]|]; [|auto with json].
  destruct (checkpoint_branch_by_name _ _ _ _ _) as [d r]. destruct (negb _); [auto with json|].
  by apply reply_value, value_ok_hash.
Qed.

Lemma rollback_to_json target branch v : answers_json (rollback_to blake3 env target branch v).
Proof.
  unfold rollback_to. destruct (branch_by_name _ _); [|auto with json]. apply walk_json. intros h.
  case_decide; [auto with json|]. apply on_daemon_json. intros v' r. destruct (negb _); [auto with json|].
  by apply reply_value, value_ok_hash.
Qed.

Lemma rollback_json rest v : answers_json (do_rollback blake3 env rest v).
Proof.
  unfold do_rollback. destruct (next_word rest) as [target s1], (next_word s1) as [tok s2], (next_word s2) as [extra s3].
  case_decide; [auto with json|]. destruct (negb _); [auto with json|].
  destruct tok; [apply rollback_to_json|]. destruct (negb _); [auto with json|apply rollback_to_json].
Qed.

Lemma appended_tail res : value (jt "{'ok':true," ++ appended_json res) /\
  value (jt "{'ok':false," ++ field "'error':" (ar_error res) ++ lit "," ++ appended_json res).
Proof. unfold appended_json. split; json_value. Qed.

Lemma append_json rest v : answers_json (do_state_append blake3 env rest v).
Proof.
  unfold do_state_append. destruct (append_request rest) as [req|e]; [|auto with json].
  destruct (append _ _ _ _) as [s res]. destruct (appended_tail res) as [H1 H2]. destruct (negb _).
  - destruct (ar_state_id res); [auto with json|]. by apply reply_value.
  - by apply reply_value.
Qed.

Lemma state_reply_json v r : answers_json (state_reply v r).
Proof.
  unfold state_reply. destruct r as [rec|e]; [|auto with json]. apply reply_value. pose proof (value_record rec). json_value.
Qed.

Lemma describe_json rest v : answers_json (do_state_describe env rest v).
Proof. unfold do_state_describe. destruct (extract_str _ _); [auto with json|apply state_reply_json]. Qed.

Lemma latest_json rest v : answers_json (do_state_latest env rest v).
Proof. unfold do_state_latest. destruct (extract_str _ _); [auto with json|apply state_reply_json]. Qed.

Lemma full_json rec v : answers_json (restore_full blake3 env rec v).
Proof.
  unfold restore_full. case_decide; [auto with json|]. apply on_daemon_json. intros v' rb.
  destruct (negb _); [auto with json|]. apply reply_value. pose proof (value_record rec). json_value.
Qed.

Lemma runtime_mode_json rec timeout v : answers_json (restore_runtime_mode blake3 env rec timeout v).
Proof.
  unfold restore_runtime_mode. destruct (as_union_state_id rec) as [|c uid]; [auto with json|].
  apply on_host_json. intros rr. pose proof (value_record rec). unfold restored_json.
  destruct (rr_success rr); [json_value|]. destruct (rr_partial rr); [rewrite app_nil_l|]; json_value.
Qed.

Lemma state_restore_json rest v : answers_json (do_state_restore blake3 env rest v).
Proof.
  unfold do_state_restore. destruct (extract_str _ _); [auto with json|]. case_decide.
  - set (res := restore_session _ _ _ _). destruct (negb _); [auto with json|]. apply reply_value.
    assert (Forall value (agent_state_record_to_json <$> rr_chain res)).
    { apply Forall_fmap, Forall_true. intros r. apply value_record. }
    json_value.
  - destruct (describe _ _ _) as [rec|e]; [|auto with json]. case_decide; [apply full_json|].
    case_decide; [apply runtime_mode_json|auto with json].
Qed.

Lemma session_reply_json v effects registry installer call failure :
  answers_json (session_reply env v effects registry installer call failure).
Proof.
  unfold session_reply. assert (forall b : bool, value (if b then jt "{'ok':true}" else json_err (lit failure))) as Ho.
  { intros []; [json_value|apply value_err]. }
  destruct (available_installer env) as [p|]; [|apply answer_value; json_value].
  destruct registry as [ok|]; apply answer_value, Ho.
Qed.

Lemma session_register_json rest v : answers_json (do_session_register env rest v).
Proof.
  unfold do_session_register. destruct (extract_str _ _); [auto with json|].
  destruct (branch_by_name _ _) as [bid|]; [|auto with json].
  destruct (register_watched _ _ _ _) as [[v1 effects] ok]. destruct (negb ok); [auto with json|].
  destruct (sv_registry _); [destruct (register_session _ _ _)|]; apply session_reply_json.
Qed.

Lemma session_unregister_json rest v : answers_json (do_session_unregister env rest v).
Proof.
  unfold do_session_unregister. destruct (extract_str _ _); [auto with json|].
  destruct (give_watch_up _ _) as [v2 effects].
  destruct (sv_registry _); [destruct (unregister_session _ _ _)|]; apply session_reply_json.
Qed.

Lemma policy_json rest v : answers_json (do_policy_install env rest v).
Proof.
  unfold do_policy_install. destruct (parse_policy_rules rest) as [[parsed rules]|]; [|auto with json].
  destruct (available_installer env) as [p|] eqn:Ep; [|apply answer_value; json_value].
  destruct (policy_entries _ _ _ _) as [inodes entries]. apply answer_value. rewrite snprintf_fits; [json_value|].
  pose proof (to_string_digits_u64 _ (proj2 (available_widths p Ep) entries)).
  match goal with |- context [policy_version_ ?d] =>
    assert (policy_version_ d < 2 ^ 32) as Hp by (by apply N.mod_lt); pose proof (to_string_digits_u32 _ Hp) end.
  lengths. lia.
Qed.

Lemma create_id e name from d : (create_branch e name from d).2 = UINT32_MAX \/
  (create_branch e name from d).2 = next_branch_id_ d.
Proof.
  unfold create_branch. destruct (reserve name from d) as [[d1 src]|] eqn:Hr; [|by left].
  assert (next_branch_id_ d1 = next_branch_id_ d) as Hn.
  { unfold reserve in Hr. repeat case_decide; try done. destruct (branch_by_name d from); [|done].
    by injection Hr as <- _. }
  destruct (read_ref _ _ _); [|by left]. destruct (write_ref _ _ _ _) as [rf []]; [|by left].
  case_decide; [by left|by right].
Qed.

Lemma branch_create_json rest v : widths v -> answers_json (do_branch_create env rest v).
Proof.
  intros Hv. unfold do_branch_create. destruct (negb (is_valid_branch_name _)); [auto with json|].
  destruct (bool_decide _); [auto with json|]. destruct (negb _); [auto with json|].
  set (d := sv_daemon (others env 0 v)). pose proof (create_id (ce_create env) (extract_str rest (lit "name"))
    (or_default (extract_str rest (lit "from")) "main") d) as Hid.
  destruct (create_branch _ _ _ d) as [d' id]. cbn [snd] in Hid. case_decide as Hm; [auto with json|].
  apply reply_value. rewrite snprintf_fits; [json_value|].
  assert (id < 2 ^ 32) as Hlt. { destruct Hid as [?| ->]; [done|]. apply (w_next _ (Hothers 0 v Hv)). }
  pose proof (to_string_digits_u32 _ Hlt). lengths. lia.
Qed.

Lemma branch_delete_json rest v : answers_json (do_branch_delete env rest v).
Proof.
  unfold do_branch_delete. do 2 (case_decide; [auto with json|]).
  destruct (branch_by_name _ _) as [bid|]; [|auto with json]. destruct (has_cgroup_for_branch _ _); [auto with json|].
  destruct (delete_branch _ _ _) as [d []]; [apply reply_value; json_value|apply refuse_json].
Qed.

Lemma branch_merge_json rest v : answers_json (do_branch_merge blake3 env rest v).
Proof.
  unfold do_branch_merge. destruct (parse_branch_merge_request rest) as [q|]; [|auto with json].
  do 2 (case_decide; [auto with json|]). apply on_daemon_json. intros v' r. destruct (negb _).
  - case_decide; [apply reply_value, value_conflicts|auto with json].
  - apply reply_value. json_value.
Qed.

(** An entry of the list, its comma aside. *)
Definition entry_object (d : Daemon) (bid : N) : str :=
  jt "{'name':" ++ quoted (name_of d bid) ++ jt ",'branch_id':" ++ to_string bid ++
  jt ",'commit':" ++ quoted (hash_to_hex (current_commit (ce_heads env (name_of d bid)) (name_of d bid) (refs_ d))) ++ lit "}".

Lemma branch_name_c_str s : forallb branch_char s = true -> c_str s = s.
Proof.
  intros H. apply c_str_clean. rewrite forallb_forall in H. intros Hz%list_elem_of_In%H. by vm_compute in Hz.
Qed.

Lemma branch_entry_object first d bid : bid < 2 ^ 32 -> (length (name_of d bid) <= 64)%nat ->
  forallb branch_char (name_of d bid) = true ->
  branch_entry first (name_of d bid) bid (current_commit (ce_heads env (name_of d bid)) (name_of d bid) (refs_ d)) =
  (if first then [] else lit ",") ++ entry_object d bid.
Proof.
  intros Hb Hl Hc. unfold branch_entry, entry_object. rewrite branch_name_c_str by done. pose proof (to_string_digits_u32 _ Hb).
  rewrite snprintf_fits.
  - f_equal. unfold quoted at 2. by rewrite <- app_comm_cons, <- app_assoc.
  - assert (length (if first then [] else lit ",") <= 1)%nat by (destruct first; cbn; lia). lengths. lia.
Qed.

Lemma branch_entries_joined d l : Forall (fun bid => bid < 2 ^ 32 /\ (length (name_of d bid) <= 64)%nat /\
    forallb branch_char (name_of d bid) = true) l ->
  branch_entries env true l d = join_with (lit ",") (entry_object d <$> l) /\
  (l <> [] -> branch_entries env false l d = lit "," ++ join_with (lit ",") (entry_object d <$> l)).
Proof.
  induction 1 as [|bid l (Hb & Hl & Hc) _ [_ IH]]; [done|]. cbn [branch_entries fmap list_fmap join_with].
  rewrite !branch_entry_object by done. destruct l as [|bid' l]; [by rewrite !app_nil_r, ?app_nil_l|].
  rewrite IH by done. split; [done|]. intros _. by rewrite <- !app_assoc.
Qed.

Lemma branch_list_json v : widths v -> answers_json (do_branch_list env v).
Proof.
  intros Hv. apply reply_value. set (d := sv_daemon v).
  assert (Forall (fun bid => bid < 2 ^ 32 /\ (length (name_of d bid) <= 64)%nat /\ forallb branch_char (name_of d bid) = true)
    (list_branches d)) as Hl.
  { apply Forall_forall. intros bid Hin. unfold list_branches, sorted_ids in Hin.
    rewrite merge_sort_Permutation, elem_of_elements in Hin. split; [by apply (w_ids v Hv)|by apply (w_names v Hv)]. }
  rewrite (proj1 (branch_entries_joined d _ Hl)).
  assert (Forall value (entry_object d <$> list_branches d)).
  { apply Forall_fmap. eapply Forall_impl; [exact Hl|]. intros bid (_ & _ & Hc).
    pose proof (value_plain _ (branch_chars_plain _ Hc)). unfold compose, entry_object. json_value. }
  json_value.
Qed.

(** The answer to a registration, before it is cut to its buffer. *)
Definition created_json (id : str) : str := jt "{'ok':true," ++ field "'runtime_id':" id ++ jt ",'generation':1}".

Lemma created_value id : value (created_json id).
Proof. unfold created_json. json_value. Qed.

Lemma created_length id : length (created_json id) = (42 + length (json_escape id))%nat.
Proof. unfold created_json, field. lengths. lia. Qed.

Lemma runtime_create_json peer rest v :
  (length (json_escape (extract_str rest (lit "runtime_id"))) <= 117)%nat ->
  answers_json (do_runtime_create env peer rest v).
Proof.
  intros Hlen. unfold do_runtime_create. cbn [cq_id cq_branch cq_token cq_root_pid cq_pgid].
  case_decide; [auto with json|]. destruct (negb _); [auto with json|]. case_decide; [auto with json|].
  destruct (negb _); [auto with json|]. destruct (_ <=? 0)%Z; [auto with json|].
  destruct (require_launcher_peer _ _ _ _) as [u|e]; [|auto with json].
  destruct (register_runtime _ _ _) as [s [u'|e]]; [|auto with json].
  fold (created_json (extract_str rest (lit "runtime_id"))). apply reply_value.
  rewrite snprintf_fits; [apply created_value|]. rewrite created_length. lia.
Qed.

Lemma runtime_status_json_ok rest v : answers_json (do_runtime_status env rest v).
Proof.
  unfold do_runtime_status. destruct (extract_str _ _); [auto with json|].
  destruct (Supervisor.status _ _ _) as [st|e]; [|auto with json]. apply reply_value. unfold runtime_status_json.
  assert (Forall value (template_json <$> rs_templates st)).
  { apply Forall_fmap, Forall_true. intros t. unfold compose, template_json. json_value. }
  json_value.
Qed.

Lemma runtime_list_json v : answers_json (do_runtime_list env v).
Proof.
  apply reply_value. assert (Forall value (runtime_entry_json <$> list_runtimes (ce_proc env) (sv_sup v))).
  { apply Forall_fmap, Forall_true. intros t. unfold compose, runtime_entry_json. json_value. }
  json_value.
Qed.

Lemma take_snapshot_json q v : answers_json (take_snapshot blake3 env q v).
Proof.
  unfold take_snapshot. destruct (snapshot_runtime _ _ _ _) as [h r]. destruct (negb _); [auto with json|].
  apply reply_value. json_value.
Qed.

Lemma runtime_snapshot_json rest v : answers_json (do_runtime_snapshot blake3 env rest v).
Proof.
  unfold do_runtime_snapshot. case_decide; [auto with json|].
  destruct (extract_str_checked _ _) as [|[|c s]|]; [apply take_snapshot_json..| |auto with json].
  destruct (is_hex_hash _); [apply take_snapshot_json|auto with json].
Qed.

Lemma runtime_restore_json rest v : answers_json (do_runtime_restore blake3 env rest v).
Proof.
  unfold do_runtime_restore. destruct (extract_str_checked _ _) as [|[|c s]|]; [auto with json|auto with json| |auto with json].
  destruct (negb _); [auto with json|]. apply on_host_json. intros rr. unfold restored_json. destruct (negb _).
  - destruct (rr_partial rr); [apply value_err|json_value].
  - json_value.
Qed.

Lemma ok_json v : answers_json (reply v (jt "{'ok':true}")).
Proof. apply reply_value. json_value. Qed.

Lemma runtime_drop_json rest v : answers_json (do_runtime_drop rest v).
Proof.
  unfold do_runtime_drop. destruct (extract_str _ _); [auto with json|].
  destruct (drop_template _ _) as [s [u|e]]; [apply ok_json|auto with json].
Qed.

Lemma boundary_json peer rest v : answers_json (do_runtime_boundary env peer rest v).
Proof.
  unfold do_runtime_boundary, boundary_observed_at. destruct (extract_str _ (lit "runtime_id")); [auto with json|].
  destruct (Supervisor.status _ _ _) as [st|e]; [|auto with json].
  destruct (require_runtime_peer _ _ _ _ _); [|auto with json]. destruct (observe_boundary _ _ _ _ _ _) as [s [bd|e]].
  - destruct (wait_boundary_action _ _) as [s' [a'|e]]; [|auto with json]. case_decide; [auto with json|].
    apply reply_value. json_value.
  - case_decide; [apply reply_value; json_value|auto with json].
Qed.

Lemma template_ready_json peer rest v : answers_json (do_template_ready env peer rest v).
Proof.
  unfold do_template_ready. destruct (extract_str _ (lit "template_id")); [auto with json|].
  destruct (require_template_peer _ _ _ _); [|auto with json]. destruct (template_ready _ _ _ _ _ _ _) as [s [u|e]]; [|auto with json].
  destruct (wait_template_published _ _); [apply ok_json|auto with json].
Qed.

Lemma poll_json_value a : value (poll_json a).
Proof. destruct a; unfold poll_json; json_value. Qed.

Lemma template_poll_json peer rest v : answers_json (do_template_poll env peer rest v).
Proof.
  unfold do_template_poll. destruct (extract_str _ (lit "template_id")); [auto with json|].
  destruct (template_status _ _ _); [|auto with json]. destruct (require_peer_pid _ _); [|auto with json].
  destruct (template_poll _ _ _) as [s' [a'|e]]; [apply reply_value, poll_json_value|auto with json].
Qed.

Lemma generation_ready_json peer rest v : answers_json (do_generation_ready env peer rest v).
Proof.
  unfold do_generation_ready. destruct (extract_str _ (lit "runtime_id")); [auto with json|].
  destruct (restore_template_status _ _ _); [|auto with json]. destruct (negb _); [auto with json|].
  destruct (require_generation_peer _ _ _ _ _); [|auto with json].
  destruct (generation_ready _ _ _ _ _ _) as [s' [a'|e]]; [apply ok_json|auto with json].
Qed.

Lemma gc_value verify pol r : value (gc_json env verify pol r).
Proof.
  assert (Forall value ((fun h => quoted (hash_to_hex h)) <$> gc_missing r)).
  { apply Forall_fmap, Forall_true. intros h. apply value_hash. }
  unfold gc_json. destruct verify, (gc_error r); rewrite ?app_nil_l; json_value.
Qed.

Lemma do_gc_json verify toks v : answers_json (do_gc env verify toks v).
Proof.
  unfold do_gc. destruct (gc_args _ _) as [pol|e]; [|auto with json].
  cbv zeta.
  destruct verify; [destruct (mark_and_verify _ _ _ _ _)|destruct (mark_and_sweep _ _ _ _) as [[]|]]; try done; apply reply_value, gc_value.
Qed.

Lemma dispatch_plain_json cmd rest v : widths v -> answers_json (default (refuse v "unknown command") (dispatch_plain blake3 env cmd rest v)).
Proof.
  intros Hv. unfold dispatch_plain. repeat case_decide; cbn [default from_option id];
    auto using status_json, stats_json, telemetry_json, checkpoint_json, rollback_json, append_json, describe_json,
      latest_json, state_restore_json, session_register_json, session_unregister_json, policy_json, branch_create_json,
      branch_delete_json, branch_merge_json, branch_list_json, do_gc_json with json.
Qed.

Lemma dispatch_runtime_json peer cmd rest v :
  (cmd = lit "runtime.create" -> (length (json_escape (extract_str rest (lit "runtime_id"))) <= 117)%nat) ->
  answers_json (default (refuse v "unknown command") (dispatch_runtime blake3 env peer cmd rest v)).
Proof.
  intros Hc. unfold dispatch_runtime. repeat case_decide; cbn [default from_option id];
    auto using runtime_create_json, runtime_status_json_ok, runtime_list_json, runtime_snapshot_json, runtime_restore_json,
      runtime_drop_json, boundary_json, template_ready_json, template_poll_json, generation_ready_json with json.
Qed.

End replies.

(** C3. Whatever line a connection sends, a malformed or unknown one included,
    the answer is one JSON value: every text in it is escaped, every object and
    array closed. The exception is the registration of a runtime whose escaped
    name has more than 117 bytes. *)
Theorem replies_are_json blake3 env line peer v v' effects out :
  installer_widths env -> (forall n v, widths v -> widths (others env n v)) -> widths v ->
  (let '(cmd, rest) := next_word line in
   cmd = lit "runtime.create" ->
   (length (json_escape (extract_str (JsonText.line_of rest) (lit "runtime_id"))) <= 117)%nat) ->
  dispatch blake3 env line peer v = Some (Parsed (v', effects, out)) -> is_json out = true.
Proof.
  intros Henv Ho Hv. unfold dispatch. destruct (next_word line) as [cmd rest]. intros Hc Hd.
  change (answers_json (Some (Parsed (v', effects, out)))). rewrite <- Hd. destruct (runtime_command cmd).
  - destruct (pc_supported _) as [e|]; [apply reply_err|]. by apply dispatch_runtime_json.
  - by apply dispatch_plain_json.
Qed.

(** The exception: the answer to a registration that succeeded is cut at
    159 bytes, inside the name or after it, and is not JSON; the launcher cannot
    read that its runtime was registered. *)
Theorem long_name_reply_is_cut env peer rest v v' effects out :
  (117 < length (json_escape (extract_str rest (lit "runtime_id"))))%nat ->
  do_runtime_create env peer rest v = Some (Parsed (v', effects, out)) ->
  runtimes (sv_sup v') !! extract_str rest (lit "runtime_id") <> None ->
  runtimes (sv_sup (others env 0 v)) !! extract_str rest (lit "runtime_id") = None ->
  runtimes (sv_sup v) !! extract_str rest (lit "runtime_id") = None ->
  is_json out = false /\ length out = 159%nat.
Proof.
  intros Hlen. unfold do_runtime_create. cbn [cq_id cq_branch cq_token cq_root_pid cq_pgid].
  set (id := extract_str rest (lit "runtime_id")) in *. intros Hd Hin Ho Hv. revert Hd.
  case_decide; [by intros [= <- _ _]|]. destruct (negb _); [by intros [= <- _ _]|]. case_decide; [by intros [= <- _ _]|].
  destruct (negb _); [by intros [= <- _ _]|]. destruct (_ <=? 0)%Z; [by intros [= <- _ _]|].
  destruct (require_launcher_peer _ _ _ _) as [u|e]; [|by intros [= <- _ _]].
  destruct (register_runtime _ _ _) as [s [u'|e]] eqn:Er.
  - fold (created_json id). intros [= _ _ <-]. unfold snprintf. split.
    + apply proper_prefix_not_json; [apply created_value|done|]. rewrite created_length. lia.
    + rewrite length_take, created_length. lia.
  - intros [= <- _ _]. exfalso. apply Hin. revert Er. unfold register_runtime.
    destruct (pc_supported _); [by intros [= <- _]|]. cbn [cq_id]. destruct id as [|c n]; [done|].
    by rewrite Ho.
Qed.

(** ** A record as an object *)

Definition state_members (r : AgentStateRecord) : list member :=
  [(lit "state_id", JStr (state_id r)); (lit "parent_state_id", JStr (parent_state_id r));
   (lit "snapshot_base_state_id", JStr (snapshot_base_state_id r)); (lit "branch", JStr (as_branch r));
   (lit "fs_commit", JStr (hash_to_hex (as_fs_commit r))); (lit "union_state_id", JStr (as_union_state_id r));
   (lit "runtime_id", JStr (as_runtime_id r)); (lit "agent_id", JStr (agent_id r));
   (lit "sequence", num (sequence r)); (lit "kind", JStr (agent_state_kind_label (kind r)));
   (lit "payload_schema", JStr (payload_schema r)); (lit "payload_inline", JStr (payload_inline r));
   (lit "payload_ref", JStr (payload_ref r)); (lit "timestamp_ns", num (as_timestamp_ns r));
   (lit "boundary", JLiteral (json_bool (boundary r)))].

Lemma state_members_writable r : Forall writable (state_members r).
Proof.
  repeat (apply Forall_cons; split; [split; [vm_compute; reflexivity|]|]); try apply Forall_nil_2; cbn [fst snd written];
    try apply str_text; try apply num_text.
  cbn [value_text]. split; [done|]. destruct (boundary r); [by left|by right; left].
Qed.

Lemma record_members r :
  agent_state_record_to_json r = lit "{" ++ join_with (lit ",") (member_json <$> state_members r) ++ lit "}".
Proof.
  unfold agent_state_record_to_json, state_members. cbn [fmap list_fmap join_with]. unfold member_json, field. cbn [fst snd written num].
  assert (quoted (json_escape (hash_to_hex (as_fs_commit r))) = json_string (hash_to_hex (as_fs_commit r))) as -> by done.
  replace (quoted (agent_state_kind_label (kind r))) with (json_string (agent_state_kind_label (kind r)))
    by (unfold json_string; f_equal; by destruct (kind r)).
  unfold json_string. rewrite <- !app_assoc. reflexivity.
Qed.

(** A text up to the comma or brace that ends it. *)
Definition ends_member (c : ascii) : Prop := c = ","%char \/ c = "}"%char.

Definition no_end (l : str) : Prop := (","%char ∉ l) /\ ("}"%char ∉ l).

Lemma literal_then_inj l1 l2 c1 c2 s1 s2 :
  no_end l1 -> no_end l2 -> ends_member c1 -> ends_member c2 ->
  l1 ++ c1 :: s1 = l2 ++ c2 :: s2 -> l1 = l2.
Proof.
  intros [H1 H1'] [H2 H2'] Hc1 Hc2. revert l2 H2 H2'.
  induction l1 as [|a l1 IH]; intros [|b l2] H2 H2'; cbn [app]; [done|..].
  - intros [= -> _]. destruct Hc1 as [->| ->]; [by destruct H2; left|by destruct H2'; left].
  - intros [= -> _]. destruct Hc2 as [->| ->]; [by destruct H1; left|by destruct H1'; left].
  - intros [= -> E]. apply not_elem_of_cons in H1 as [_ H1], H1' as [_ H1'], H2 as [_ H2], H2' as [_ H2'].
    f_equal. by apply IH.
Qed.

(** Values of one shape: both texts, or both literals that end before a comma. *)
Definition same_shape (m1 m2 : member) : Prop :=
  m1.1 = m2.1 /\
  match m1.2, m2.2 with
  | JStr _, JStr _ => True
  | JLiteral l1, JLiteral l2 => no_end l1 /\ no_end l2
  | _, _ => False
  end.

Lemma value_then_inj m1 m2 c1 c2 s1 s2 :
  same_shape m1 m2 -> ends_member c1 -> ends_member c2 ->
  member_json m1 ++ c1 :: s1 = member_json m2 ++ c2 :: s2 -> m1 = m2.
Proof.
  destruct m1 as [k [v1|l1]], m2 as [k2 [v2|l2]]; intros [Hk Hs] Hc1 Hc2; cbn in Hk, Hs; subst k2; try done;
    unfold member_json; cbn [fst snd written]; rewrite <- !app_assoc; intros E%app_inv_head%app_inv_head.
  - unfold json_string in E. apply (f_equal parse_json_string) in E. rewrite !escaped_reads_back in E.
    by injection E as -> _ _.
  - do 2 f_equal. destruct Hs. by apply (literal_then_inj l1 l2 c1 c2 s1 s2).
Qed.

(** An object written by the daemon determines its members. *)
Lemma members_inj ms1 ms2 : Forall2 same_shape ms1 ms2 ->
  join_with (lit ",") (member_json <$> ms1) ++ lit "}" = join_with (lit ",") (member_json <$> ms2) ++ lit "}" -> ms1 = ms2.
Proof.
  induction 1 as [|m1 m2 ms1 ms2 Hm Hms IH]; [done|]. cbn [fmap list_fmap join_with].
  inversion Hms as [|n1 n2 l1 l2 Hn Hl]; subst; cbn [fmap list_fmap]; rewrite <- ?app_assoc.
  - intros E. f_equal. eapply (value_then_inj m1 m2 "}"%char "}"%char [] []); [done|by right..|exact E].
  - change (lit "," ++ ?x) with (","%char :: x). cbn [app]. intros E.
    assert (m1 = m2) as -> by (eapply (value_then_inj m1 m2 ","%char ","%char); [done|by left|by left|exact E]).
    f_equal. apply IH. apply app_inv_head in E. exact (f_equal tail E).
Qed.

Lemma number_no_end n : no_end (to_string n).
Proof.
  pose proof (to_string_digits n) as H. rewrite forallb_forall in H.
  split; intros Hin; apply list_elem_of_In, H in Hin; by vm_compute in Hin.
Qed.

(** What a reply shows of a record: all but the version of its layout and the
    hashes of its dependencies. *)
Definition shown (r : AgentStateRecord) :=
  ((state_id r, parent_state_id r, snapshot_base_state_id r, as_branch r, as_fs_commit r),
   (as_union_state_id r, as_runtime_id r, agent_id r, sequence r, kind r),
   (payload_schema r, payload_inline r, payload_ref r, as_timestamp_ns r, boundary r)).

Lemma state_members_shape r1 r2 : Forall2 same_shape (state_members r1) (state_members r2).
Proof.
  unfold state_members. repeat (apply Forall2_cons; split; [|]); try apply Forall2_nil_2; (split; [done|]); cbn;
    try done; try (split; apply number_no_end).
  destruct (boundary r1), (boundary r2); vm_compute; by split_and!; intros H; repeat (apply elem_of_cons in H as [H|H]; [done|]); apply elem_of_nil in H.
Qed.

Lemma shown_of_members r1 r2 : state_members r1 = state_members r2 -> shown r1 = shown r2.
Proof.
  unfold state_members, shown, num. intros [=]. repeat match goal with
    | H : to_string _ = to_string _ |- _ => apply (f_equal dec_value) in H; rewrite !to_string_value in H
    | H : hash_to_hex _ = hash_to_hex _ |- _ => apply hash_to_hex_inj in H
    end.
  assert (kind r1 = kind r2) as Hk by (destruct (kind r1), (kind r2); done).
  assert (boundary r1 = boundary r2) as Hb by (destruct (boundary r1), (boundary r2); done).
  congruence.
Qed.

(** C30. A state record in a reply is one flat object. Each of its texts, an inline
    payload with any bytes included, reads back through the daemon's own reader
    as the record has it. And nothing shown is lost: two records with the same
    text agree in all fifteen fields of the reply, the numbers and the boundary
    flag included (the layout's version and the dependencies' hashes are not in
    the reply). *)
Theorem state_json_reads_back r :
  object_text (state_members r) (agent_state_record_to_json r) /\
  (forall key v, (key, JStr v) ∈ state_members r -> extract_str (agent_state_record_to_json r) key = v) /\
  (forall r2, agent_state_record_to_json r2 = agent_state_record_to_json r -> shown r2 = shown r).
Proof.
  assert (members_text (state_members r) (join_with (lit ",") (member_json <$> state_members r))) as Hm
    by (apply members_written; [done|apply state_members_writable]).
  split; [|split].
  - rewrite record_members. apply (full_object [] [] []); [constructor..|done].
  - rewrite record_members. intros key v Hin. unfold extract_str.
    assert (first_member key (state_members r) = JsonText.Found v) as Hf.
    { unfold state_members in *. rewrite !elem_of_cons in Hin.
      repeat (destruct Hin as [Hin|Hin]; [first [discriminate Hin|injection Hin as -> ->; reflexivity]|]). by apply not_elem_of_nil in Hin. }
    assert (forall x, extract_str_checked (lit "{" ++ x) key = extract_str_checked x key) as ->
      by (intros x; apply (extract_past key [] "{"%char); [constructor|done]).
    rewrite (scan_members key (state_members r) _ Hm) by done. by rewrite Hf.
  - intros r2. rewrite !record_members. intros E%app_inv_head. apply shown_of_members.
    by apply members_inj; [apply state_members_shape|].
Qed.

(** ** Witnesses *)

Lemma demo_widths : widths demo_server.
Proof.
  split; try done; intros bid Hb;
    change (bid ∈ ({[main_id]} : gset N)) in Hb; apply elem_of_singleton in Hb as ->; [done|]. split; [vm_compute; lia|reflexivity].
Qed.

Definition list_answer : Server * list Effect * str :=
  answer_of demo_server (dispatch toy_blake3 quiet_control (lit "branch.list") (demo_peer 7) demo_server).

Lemma replies_are_json_witness : is_json list_answer.2 = true.
Proof.
  exact (replies_are_json toy_blake3 quiet_control (lit "branch.list") (demo_peer 7) demo_server list_answer.1.1
    list_answer.1.2 list_answer.2 ltac:(intros p [=]) ltac:(intros n v Hv; exact Hv) demo_widths
    ltac:(vm_compute; discriminate)
    (answer_parts demo_server (dispatch toy_blake3 quiet_control (lit "branch.list") (demo_peer 7) demo_server) eq_refl)).
Defined.

(** A launcher registers a runtime with a name of 118 letters. *)
Definition long_name : str := repeat "a"%char 118.

Definition long_request : str :=
  jt " {'runtime_id':'" ++ long_name ++ jt "','control_token':'t','root_pid':7,'process_group_id':7}".

Definition long_answer : Server * list Effect * str :=
  answer_of demo_server (do_runtime_create quiet_control (demo_peer 100) long_request demo_server).

Lemma long_request_name : extract_str long_request (lit "runtime_id") = long_name.
Proof. vm_compute. reflexivity. Qed.

Lemma long_name_reply_is_cut_witness : is_json long_answer.2 = false /\ length long_answer.2 = 159%nat.
Proof.
  pose proof (long_name_reply_is_cut quiet_control (demo_peer 100) long_request demo_server long_answer.1.1 long_answer.1.2
    long_answer.2) as H.
  rewrite long_request_name in H. apply H.
  - vm_compute. lia.
  - exact (answer_parts demo_server (do_runtime_create quiet_control (demo_peer 100) long_request demo_server) eq_refl).
  - vm_compute. discriminate.
  - vm_compute. reflexivity.
  - vm_compute. reflexivity.
Defined.
