(* ===== verification/ControlProps.v ===== *)
(** What the control socket's commands do to the server: queries change
    nothing, what a runtime's connection does to the supervisor is what the
    snapshots and restores allow for, and it takes the runtime's token and the
    right process to do it; registered sessions are routed. *)

From S2P Require Import Prelude Hashes KvCodec JsonText JsonGrammar WorkingTree ObjectStore Codec Refs Checkpoint AgentState StateFs AgentService RuntimeState Supervisor SupervisorRuns ProcessControl Peers BranchMerge Gc BranchRouter RouterInv RouterAnswers Handles Bootstrap Daemon RuntimeOps RuntimeProps Telemetry CgroupWatch ControlProtocol ControlDemo.

(** ** Answers *)

Definition answer_ok (P : Server -> list Effect -> str -> Prop) (a : answered) : Prop :=
  match a with Some (Parsed (v, effects, out)) => P v effects out | _ => True end.

Lemma answer_ok_walk {A} P (r : option (parse A)) k :
  (forall x, r = Some (Parsed x) -> answer_ok P (k x)) -> answer_ok P (then_walk r k).
Proof. intros H. destruct r as [[x| |]|]; [by apply H|done..]. Qed.

Lemma answer_ok_daemon {A} P (r : option (parse (Daemon * A))) v k :
  (forall d x, answer_ok P (k (set_daemon d v) x)) -> answer_ok P (on_daemon r v k).
Proof. intros H. apply answer_ok_walk. intros [d x] _. apply H. Qed.

(** ** Queries *)

Definition queries : list str :=
  lit <$> ["status"; "stats.memory"; "telemetry.status"; "state.describe"; "state.latest"; "branch.list";
           "runtime.status"; "runtime.list"]%string.

Definition commands : list str :=
  queries ++ (lit <$> ["checkpoint"; "rollback"; "state.append"; "state.restore"; "session.register";
    "session.unregister"; "policy.install"; "branch.create"; "branch.delete"; "branch.merge"; "runtime.create";
    "runtime.snapshot"; "runtime.restore"; "runtime.drop"; "runtime.boundary"; "runtime.template.ready";
    "runtime.template.poll"; "runtime.generation.ready"; "gc.run"; "gc.verify"]%string).

Definition unchanged (v v' : Server) (effects : list Effect) (out : str) : Prop := v' = v /\ effects = [].

Lemma unchanged_reply v out : answer_ok (unchanged v) (reply v out).
Proof. done. Qed.

#[local] Hint Resolve unchanged_reply : core.

Lemma state_reply_unchanged v r : answer_ok (unchanged v) (state_reply v r).
Proof. by destruct r. Qed.

Ltac in_commands := match goal with |- ?P => apply (bool_decide_unpack P); vm_compute; exact I end.

(** A command that is spelled out is not a query, or is a command. *)
Ltac not_a_query := match goal with H : ?cmd = lit _, Hq : ?cmd ∈ queries |- _ => exfalso; rewrite H in Hq; revert Hq;
  match goal with |- ?P -> False => apply (bool_decide_unpack (~ P)); vm_compute; exact I end end.

Lemma query_plain blake3 env cmd rest v : cmd ∈ queries ->
  answer_ok (unchanged v) (default (refuse v "unknown command") (dispatch_plain blake3 env cmd rest v)).
Proof.
  intros Hq. unfold dispatch_plain.
  repeat (case_decide as Hx; [first [not_a_query | clear Hx Hq] | clear Hx]); cbn [default from_option id]; try done.
  - unfold do_state_describe. destruct (extract_str _ _); [done|apply state_reply_unchanged].
  - unfold do_state_latest. destruct (extract_str _ _); [done|apply state_reply_unchanged].
Qed.

Lemma query_runtime blake3 env peer cmd rest v : cmd ∈ queries ->
  answer_ok (unchanged v) (default (refuse v "unknown command") (dispatch_runtime blake3 env peer cmd rest v)).
Proof.
  intros Hq. unfold dispatch_runtime.
  repeat (case_decide as Hx; [first [not_a_query | clear Hx Hq] | clear Hx]); cbn [default from_option id]; try done.
  unfold do_runtime_status. destruct (extract_str _ _); [done|]. by destruct (Supervisor.status _ _ _).
Qed.

Lemma unknown_command blake3 env peer cmd rest rest' v : cmd ∉ commands ->
  dispatch_runtime blake3 env peer cmd rest v = None /\ dispatch_plain blake3 env cmd rest' v = None.
Proof.
  intros Hc. unfold dispatch_runtime, dispatch_plain.
  split; repeat (case_decide as Hx; [exfalso; apply Hc; rewrite Hx; in_commands|clear Hx]); done.
Qed.

(** A query reads and a command that is not in the list does nothing: the
    server is the one before, and nothing outside was called. An unknown
    command is answered as such, unless the platform supports no runtimes and
    it is spelled like a runtime command. *)
Theorem queries_change_nothing blake3 env line peer v v' effects out :
  let cmd := (next_word line).1 in
  cmd ∈ queries \/ cmd ∉ commands ->
  dispatch blake3 env line peer v = Some (Parsed (v', effects, out)) ->
  v' = v /\ effects = [] /\
  (cmd ∉ commands -> out = json_err (lit "unknown command") \/
     (runtime_command cmd = true /\ exists e, pc_supported (ce_proc env) = Some e /\ out = json_err e)).
Proof.
  unfold dispatch. destruct (next_word line) as [cmd rest]. cbn [fst]. intros Hq Hd.
  destruct (decide (cmd ∈ commands)) as [Hin|Hout].
  - destruct Hq as [Hq|]; [|done].
    assert (answer_ok (unchanged v) (Some (Parsed (v', effects, out)))) as [-> ->]; [|done].
    rewrite <- Hd. destruct (runtime_command cmd); [|by apply query_plain].
    destruct (pc_supported (ce_proc env)); [done|by apply query_runtime].
  - destruct (unknown_command blake3 env peer cmd (JsonText.line_of rest) rest v Hout) as [E1 E2]. rewrite E1, E2 in Hd.
    cbn [default from_option] in Hd. destruct (runtime_command cmd) eqn:Er.
    + destruct (pc_supported (ce_proc env)) as [e|] eqn:Ee; injection Hd as <- <- <-; (split; [done|]); (split; [done|]);
        intros _; [right; by eauto|by left].
    + injection Hd as <- <- <-. split; [done|]. split; [done|]. by left.
Qed.

(** ** What a connection does to the supervisor *)

Definition sup_moves (s s' : Supervisor) : Prop :=
  exists calls, forallb (fun x => handler_call x.2) calls = true /\ s' = (run_ops calls s).1.

Definition moves (v v' : Server) : Prop := sup_moves (sv_sup v) (sv_sup v').

Lemma moves_same v v' : sv_sup v' = sv_sup v -> moves v v'.
Proof. intros E. exists []. by rewrite E. Qed.

Lemma moves_refl v : moves v v.
Proof. by apply moves_same. Qed.

Lemma moves_trans v1 v2 v3 : moves v1 v2 -> moves v2 v3 -> moves v1 v3.
Proof.
  intros (c1 & H1 & E1) (c2 & H2 & E2). exists (c1 ++ c2). rewrite forallb_app, H1, H2. split; [done|].
  rewrite E2, E1, run_ops_app. by destruct (run_ops c1 (sv_sup v1)), (run_ops c2 _).
Qed.

Lemma moves_op env op v s : handler_call op = true -> s = (exec_op env op (sv_sup v)).1 -> moves v (set_sup s v).
Proof.
  intros Hop ->. exists [(env, op)]. cbn [forallb snd]. rewrite Hop. split; [done|]. cbn [run_ops].
  by destruct (exec_op env op (sv_sup v)).
Qed.

Definition moved (v v' : Server) (effects : list Effect) (out : str) : Prop := moves v v'.

(** The handlers of a runtime's commands and the daemon's. *)
Section moving.
Context (blake3 : bytes -> Hash) (env : ControlEnv).
Context (Hothers : forall n v, moves v (others env n v)) (Hwait : forall t v, moves v (ce_wait env t v)).

Lemma moves_daemon v d : moves v (set_daemon d v).
Proof. by apply moves_same. Qed.

Lemma give_up_sup cg v : sv_sup (give_watch_up cg v).1 = sv_sup v.
Proof. unfold give_watch_up. destruct (sv_watch v) as [w|]; [|done]. by destruct (unwatch cg w). Qed.

Lemma try_watch_sup cg v : sv_sup (try_watch env cg v).1 = sv_sup v.
Proof. unfold try_watch. destruct (sv_watch v) as [w|]; [|done]. by destruct (watch _ _ _ w). Qed.

Lemma register_watched_moves cg bid v : moves v (register_watched env cg bid v).1.1.
Proof.
  unfold register_watched. pose proof (try_watch_sup cg v) as Ht. destruct (try_watch env cg v) as [v1 watched].
  cbn [fst] in Ht. apply (moves_trans _ v1); [by apply moves_same|].
  destruct (register_cgroup _ _ _ _) as [r ok]. eapply moves_trans; [apply Hothers|]. destruct (negb ok).
  - destruct watched; [|by apply moves_same].
    pose proof (give_up_sup cg (on_router (fun _ => r) (others env 1 v1))) as Hg.
    destruct (give_watch_up _ _) as [v4 e]. by apply moves_same.
  - destruct (_ && _); by apply moves_same.
Qed.

Lemma session_reply_moved v v' effects registry installer call failure :
  moves v v' -> answer_ok (moved v) (session_reply env v' effects registry installer call failure).
Proof. intros H. unfold session_reply. by destruct (available_installer env), registry. Qed.

Lemma session_register_moved rest v : answer_ok (moved v) (do_session_register env rest v).
Proof.
  unfold do_session_register. destruct (extract_str _ _) as [|c cg]; [apply moves_refl|].
  destruct (branch_by_name _ _) as [bid|]; [|apply moves_refl].
  pose proof (register_watched_moves (c :: cg) bid (others env 0 v)) as Hr.
  destruct (register_watched _ _ _ _) as [[v1 effects] ok]. cbn [fst] in Hr.
  assert (moves v v1) as H1 by (eapply moves_trans; [apply Hothers|exact Hr]). destruct (negb ok); [done|].
  assert (moves v (others env 2 v1)) by (eapply moves_trans; [exact H1|apply Hothers]).
  destruct (sv_registry _); [destruct (register_session _ _ _)|]; by apply session_reply_moved.
Qed.

Lemma session_unregister_moved rest v : answer_ok (moved v) (do_session_unregister env rest v).
Proof.
  unfold do_session_unregister. destruct (extract_str _ _) as [|c cg]; [apply moves_refl|].
  set (v1 := on_router _ v). pose proof (give_up_sup (c :: cg) (others env 0 v1)) as Hg.
  destruct (give_watch_up _ _) as [v2 effects]. cbn [fst] in Hg.
  assert (moves v v2).
  { apply (moves_trans _ v1); [by apply moves_same|]. eapply moves_trans; [apply Hothers|]. by apply moves_same. }
  destruct (sv_registry _); [destruct (unregister_session _ _ _)|]; by apply session_reply_moved.
Qed.

Lemma policy_moved rest v : answer_ok (moved v) (do_policy_install env rest v).
Proof.
  unfold do_policy_install. destruct (parse_policy_rules rest) as [[parsed rules]|]; [|apply moves_refl].
  destruct (available_installer env) as [p|]; [|apply moves_daemon].
  destruct (policy_entries _ _ _ _) as [inodes entries]. eapply moves_trans; [apply Hothers|]. by apply moves_same.
Qed.

Lemma plain_moved cmd rest v : cmd <> lit "state.restore" ->
  answer_ok (moved v) (default (refuse v "unknown command") (dispatch_plain blake3 env cmd rest v)).
Proof.
  intros Hc. unfold dispatch_plain.
  repeat (case_decide as Hx; [first [done|clear Hx]|clear Hx]); cbn [default from_option id]; try done; try apply moves_refl;
    auto using session_register_moved, session_unregister_moved, policy_moved.
  - unfold do_checkpoint. destruct (parse_rest_with_branch _) as [[label branch]|]; [|apply moves_refl].
    destruct (checkpoint_branch_by_name _ _ _ _ _) as [d r]. destruct (negb _); apply moves_daemon.
  - unfold do_rollback. destruct (next_word rest) as [target s1], (next_word s1) as [tok s2], (next_word s2) as [extra s3].
    assert (forall b, answer_ok (moved v) (rollback_to blake3 env target b v)) as Hr.
    { intros b. unfold rollback_to. destruct (branch_by_name _ _); [|apply moves_refl]. apply answer_ok_walk. intros h _.
      case_decide; [apply Hothers|]. apply answer_ok_daemon. intros d r.
      destruct (negb _); (eapply moves_trans; [apply Hothers|]; eapply moves_trans; [apply Hothers|]; apply moves_daemon). }
    case_decide; [apply moves_refl|]. destruct (negb _); [apply moves_refl|]. destruct tok; [apply Hr|].
    destruct (negb _); [apply moves_refl|apply Hr].
  - unfold do_state_append. destruct (append_request _) as [req|e]; [|apply moves_refl].
    destruct (append _ _ _ _) as [s res]. destruct (negb _); [destruct (ar_state_id res)|]; by apply moves_same.
  - unfold do_state_describe. destruct (extract_str _ _); [apply moves_refl|]. destruct (describe _ _ _); apply moves_refl.
  - unfold do_state_latest. destruct (extract_str _ _); [apply moves_refl|]. destruct (latest _ _ _ _); apply moves_refl.
  - unfold do_branch_create. destruct (negb _); [apply moves_refl|]. destruct (bool_decide _); [apply moves_refl|].
    destruct (negb _); [apply moves_refl|]. destruct (create_branch _ _ _ _) as [d id].
    case_decide; (eapply moves_trans; [apply Hothers|]; apply moves_daemon).
  - unfold do_branch_delete. do 2 (case_decide; [apply moves_refl|]). destruct (branch_by_name _ _); [|apply moves_refl].
    destruct (has_cgroup_for_branch _ _); [apply moves_refl|]. destruct (delete_branch _ _ _) as [d ok].
    destruct (negb ok); (eapply moves_trans; [apply Hothers|]; apply moves_daemon).
  - unfold do_branch_merge. destruct (parse_branch_merge_request _); [|apply moves_refl].
    do 2 (case_decide; [apply moves_refl|]). apply answer_ok_daemon. intros d r. destruct (negb _); apply moves_daemon.
  - unfold do_gc. destruct (gc_args _ _); [|apply moves_refl]. destruct (mark_and_sweep _ _ _ _) as [[]|]; [|done].
    eapply moves_trans; [apply Hothers|]. apply moves_daemon.
  - unfold do_gc. destruct (gc_args _ _); [|apply moves_refl]. destruct (mark_and_verify _ _ _ _ _); [apply Hothers|done].
Qed.

(** After a gap, an operation of the supervisor. *)
Lemma moves_after n v e op s : handler_call op = true -> s = (exec_op e op (sv_sup (others env n v))).1 ->
  moves v (set_sup s (others env n v)).
Proof. intros Hop Hs. eapply moves_trans; [apply Hothers|]. by eapply moves_op. Qed.

Lemma create_moved peer rest v : answer_ok (moved v) (do_runtime_create env peer rest v).
Proof.
  unfold do_runtime_create. set (q := mkCreateRequest _ _ _ _ _ _ _ _).
  case_decide; [apply moves_refl|]. destruct (negb _); [apply moves_refl|]. case_decide; [apply moves_refl|].
  destruct (negb _); [apply moves_refl|]. destruct (_ <=? 0)%Z; [apply moves_refl|].
  destruct (require_launcher_peer _ _ _ _); [|apply moves_refl].
  destruct (register_runtime _ _ _) as [s r] eqn:Er.
  assert (moves v (set_sup s (others env 0 v))) by (apply (moves_after 0 v (ce_proc env) (OpRegister q)); [done|cbn; by rewrite Er]).
  by destruct r.
Qed.

Lemma drop_moved rest v : answer_ok (moved v) (do_runtime_drop rest v).
Proof.
  unfold do_runtime_drop. destruct (extract_str _ _) as [|c tid]; [apply moves_refl|].
  destruct (drop_template _ _) as [s r] eqn:Er.
  assert (moves v (set_sup s v)) by (apply (moves_op (ce_proc env) (OpDrop (c :: tid))); [done|cbn; by rewrite Er]).
  by destruct r.
Qed.

Lemma observed_moved v0 bd timeout v : moves v0 v -> answer_ok (moved v0) (boundary_observed_at env bd timeout v).
Proof.
  intros H0. unfold boundary_observed_at. destruct (wait_boundary_action _ _) as [s r] eqn:Er.
  assert (moves v0 (set_sup s (ce_wait env timeout v))).
  { eapply moves_trans; [exact H0|]. eapply moves_trans; [apply Hwait|].
    apply (moves_op (ce_proc env) (OpWaitAction bd)); [done|]. cbn. by rewrite Er. }
  destruct r; [|done]. by case_decide.
Qed.

Lemma boundary_moved peer rest v : answer_ok (moved v) (do_runtime_boundary env peer rest v).
Proof.
  unfold do_runtime_boundary. destruct (extract_str _ (lit "runtime_id")) as [|c rid]; [apply moves_refl|].
  destruct (Supervisor.status _ _ _) as [st|e]; [|apply moves_refl].
  destruct (require_runtime_peer _ _ _ _ _); [|apply moves_refl].
  set (token := extract_str _ _). set (pid := extract_int _ _ _). set (generation := to_u64 _). set (kind := or_default _ _).
  destruct (observe_boundary _ _ _ _ _ _) as [s r] eqn:Er.
  assert (moves v (set_sup s (others env 0 v)))
    by (apply (moves_after 0 v (ce_proc env) (OpObserve (c :: rid) token pid generation kind)); [done|cbn; by rewrite Er]).
  destruct r; [by apply observed_moved|]. by case_decide.
Qed.

Lemma template_ready_moved peer rest v : answer_ok (moved v) (do_template_ready env peer rest v).
Proof.
  unfold do_template_ready. destruct (extract_str _ (lit "template_id")) as [|c tid]; [apply moves_refl|].
  destruct (require_template_peer _ _ _ _); [|apply moves_refl].
  set (rid := extract_str _ _). set (token := extract_str _ (lit "control_token")).
  set (pid := extract_int _ (lit "template_pid") _). set (pgid := extract_int _ (lit "template_process_group_id") _).
  set (generation := to_u64 _). destruct (template_ready _ _ _ _ _ _ _) as [s r] eqn:Er.
  assert (moves v (set_sup s v))
    by (apply (moves_op (ce_proc env) (OpTemplateReady rid token (c :: tid) pid pgid generation)); [done|cbn; by rewrite Er]).
  destruct r; [|done]. set (v2 := ce_wait _ _ _). assert (moves v v2) by (by eapply moves_trans; [|apply Hwait]).
  by destruct (wait_template_published _ _).
Qed.

Lemma poll_moved peer rest v : answer_ok (moved v) (do_template_poll env peer rest v).
Proof.
  unfold do_template_poll. destruct (extract_str _ (lit "template_id")) as [|c tid]; [apply moves_refl|].
  destruct (template_status _ _ _); [|apply moves_refl]. destruct (require_peer_pid _ _); [|apply moves_refl].
  set (token := extract_str _ _). destruct (template_poll _ _ _) as [s r] eqn:Er.
  assert (moves v (set_sup s (others env 0 v)))
    by (apply (moves_after 0 v (ce_proc env) (OpPoll (c :: tid) token)); [done|cbn; by rewrite Er]).
  by destruct r.
Qed.

Lemma generation_moved peer rest v : answer_ok (moved v) (do_generation_ready env peer rest v).
Proof.
  unfold do_generation_ready. destruct (extract_str _ (lit "runtime_id")) as [|c rid]; [apply moves_refl|].
  destruct (restore_template_status _ _ _); [|apply moves_refl]. destruct (negb _); [apply moves_refl|].
  destruct (require_generation_peer _ _ _ _ _); [|apply moves_refl].
  set (token := extract_str _ _). set (pid := extract_int _ (lit "pid") _). set (pgid := extract_int _ _ _). set (generation := to_u64 _).
  destruct (generation_ready _ _ _ _ _ _) as [s r] eqn:Er.
  assert (moves v (set_sup s (others env 0 v)))
    by (apply (moves_after 0 v (ce_proc env) (OpGenerationReady (c :: rid) token pid pgid generation)); [done|cbn; by rewrite Er]).
  by destruct r.
Qed.

Lemma runtime_moved peer cmd rest v : cmd <> lit "runtime.snapshot" -> cmd <> lit "runtime.restore" ->
  answer_ok (moved v) (default (refuse v "unknown command") (dispatch_runtime blake3 env peer cmd rest v)).
Proof.
  intros H1 H2. unfold dispatch_runtime.
  repeat (case_decide as Hx; [first [done|clear Hx]|clear Hx]); cbn [default from_option id];
    auto using create_moved, drop_moved, boundary_moved, template_ready_moved, poll_moved, generation_moved.
  - unfold do_runtime_status. destruct (extract_str _ _); [apply moves_refl|].
    destruct (Supervisor.status _ _ _); apply moves_refl.
  - apply moves_refl.
  - apply moves_refl.
Qed.

End moving.


(** ** Who may change a runtime *)

(** The process at the other end. *)
Definition at_other_end (peer : PeerCredentials) (pid : Z) : Prop :=
  trusted peer = true \/ (available peer = true /\ (0 < pid)%Z /\ peer_pid peer = pid).

(** The live process [pid] leads or belongs to the group [pgid]. *)
Definition in_group (t : ProcessTable) (pid pgid : Z) : Prop := process_group_for_pid t pid = Some pgid.

(** Which runtime a message is for: named in it, or the one of its template. *)
Definition subject (cmd rest : str) (s : Supervisor) (rid : str) : Prop :=
  ((cmd = lit "runtime.boundary" \/ cmd = lit "runtime.generation.ready") /\
     extract_str rest (lit "runtime_id") = rid) \/
  ((cmd = lit "runtime.template.ready" \/ cmd = lit "runtime.template.poll") /\
     exists t, templates s !! extract_str rest (lit "template_id") = Some t /\ tm_runtime t = rid).

(** The process that may speak for the runtime in a message, and what the
    daemon saw of it: the root process in the runtime's own group, with the
    runtime's generation; a template in the group it claims; the template that
    is polled; the new generation in the group it claims, a child of the
    template that drives the restore. *)
Definition speaker (t : ProcessTable) (cmd rest : str) (r : Runtime) (s : Supervisor) (pid : Z) : Prop :=
  (cmd = lit "runtime.boundary" -> pid = extract_int rest (lit "pid") (-1) /\ pid = rt_root_pid r /\
     to_u64 (extract_int rest (lit "generation") 0) = rt_generation r /\ in_group t pid (rt_pgid r)) /\
  (cmd = lit "runtime.template.ready" -> pid = extract_int rest (lit "template_pid") (-1) /\
     let pgid := extract_int rest (lit "template_process_group_id") (-1) in
     (0 < pgid)%Z /\ in_group t pid pgid) /\
  (cmd = lit "runtime.template.poll" ->
     exists tm, templates s !! extract_str rest (lit "template_id") = Some tm /\ pid = tm_pid tm) /\
  (cmd = lit "runtime.generation.ready" -> pid = extract_int rest (lit "pid") (-1) /\
     (let pgid := extract_int rest (lit "active_process_group_id") (-1) in
      (0 < pgid)%Z /\ in_group t pid pgid) /\
     exists tm, templates s !! restore_template_id (rt_restore r) = Some tm /\
       parent_for_pid t pid = Some (tm_pid tm)).

Definition authentic (t : ProcessTable) (peer : PeerCredentials) (cmd rest : str) (s : Supervisor) : Prop :=
  exists rid r, subject cmd rest s rid /\ runtimes s !! rid = Some r /\ rt_token r <> [] /\
    extract_str rest (lit "control_token") = rt_token r /\
    (trusted peer = true \/ exists pid, at_other_end peer pid /\ speaker t cmd rest r s pid).

Lemma token_ok_iff r token : token_ok r token = true <-> rt_token r <> [] /\ token = rt_token r.
Proof. unfold token_ok. by rewrite andb_true_iff, negb_true_iff, bool_decide_eq_false, bool_decide_eq_true. Qed.

Lemma require_peer_pid_ok peer pid : require_peer_pid peer pid = Ok () -> at_other_end peer pid.
Proof.
  unfold require_peer_pid, peer_available_or_trusted, at_other_end. destruct (trusted peer); [by left|].
  destruct (available peer); [|done]. cbn [andb]. destruct (Z.ltb_spec 0 (peer_pid peer)); [|done]. cbn [rbind].
  destruct (Z.eqb_spec (peer_pid peer) pid); [|done]. intros _. right. by subst.
Qed.

Lemma then_ok {A B} (x : result A) (f : A -> result B) y : rbind x f = Ok y -> exists a, x = Ok a /\ f a = Ok y.
Proof. destruct x; [by eauto|done]. Qed.

Section authentic.
Context (blake3 : bytes -> Hash) (env : ControlEnv) (peer : PeerCredentials).
Context (Hothers : forall n v, others env n v = v) (Hwait : forall t v, ce_wait env t v = v).

(** Whatever changes the supervisor is authentic. *)
Definition guarded (cmd rest : str) (v v' : Server) (effects : list Effect) (out : str) : Prop :=
  sv_sup v' <> sv_sup v -> authentic (ce_table env) peer cmd rest (sv_sup v).

Lemma guarded_same cmd rest v v' out : sv_sup v' = sv_sup v -> answer_ok (guarded cmd rest v) (reply v' out).
Proof. intros H Hne. by destruct (Hne H). Qed.

Lemma guarded_by cmd rest v a : authentic (ce_table env) peer cmd rest (sv_sup v) -> answer_ok (guarded cmd rest v) a.
Proof. intros H. destruct a as [[[[v' e] o]| |]|]; [by intros _|done..]. Qed.

Lemma require_group_ok t pid pgid : require_process_group t pid pgid = Ok () -> (0 < pgid)%Z /\ in_group t pid pgid.
Proof.
  unfold require_process_group, in_group. destruct (Z.leb_spec pid 0), (Z.leb_spec pgid 0); cbn [orb]; try done.
  destruct (process_group_for_pid t pid) as [g|]; [|done]. destruct (Z.eqb_spec g pgid); [by subst|done].
Qed.

Lemma require_runtime_ok t pid st generation :
  require_runtime_peer t peer pid st generation = Ok () ->
  trusted peer = true \/ (at_other_end peer pid /\ pid = rs_root_pid st /\ generation = rs_generation st /\
    in_group t pid (rs_pgid st)).
Proof.
  unfold require_runtime_peer, in_group. intros ([] & Hpid & H)%then_ok. apply require_peer_pid_ok in Hpid.
  destruct (trusted peer); [by left|]. right. split; [done|].
  destruct (Z.eqb_spec (rs_root_pid st) pid); [|done]. destruct (N.eqb_spec (rs_generation st) generation); [|done].
  destruct (process_group_for_pid t pid) as [g|]; [|done]. destruct (Z.eqb_spec g (rs_pgid st)); [by subst|done].
Qed.

Lemma require_template_ok t pid pgid :
  require_template_peer t peer pid pgid = Ok () ->
  trusted peer = true \/ (at_other_end peer pid /\ (0 < pgid)%Z /\ in_group t pid pgid).
Proof.
  unfold require_template_peer. intros ([] & Hpid & H)%then_ok. apply require_peer_pid_ok in Hpid.
  destruct (trusted peer); [by left|]. right. split; [done|]. by apply require_group_ok.
Qed.

Lemma require_generation_ok t pid pgid ts :
  require_generation_peer t peer pid pgid ts = Ok () ->
  trusted peer = true \/ (at_other_end peer pid /\ ((0 < pgid)%Z /\ in_group t pid pgid) /\
    parent_for_pid t pid = Some (ts_pid ts)).
Proof.
  unfold require_generation_peer. intros ([] & Hpid & ([] & Hg & H)%then_ok)%then_ok.
  apply require_peer_pid_ok in Hpid. apply require_group_ok in Hg.
  destruct (trusted peer); [by left|]. right. split; [done|]. split; [done|].
  destruct (parent_for_pid t pid) as [ppid|]; [|done]. destruct (Z.eqb_spec ppid (ts_pid ts)); [by subst|done].
Qed.

Lemma boundary_guarded rest v : answer_ok (guarded (lit "runtime.boundary") rest v) (do_runtime_boundary env peer rest v).
Proof.
  unfold do_runtime_boundary. destruct (extract_str rest (lit "runtime_id")) as [|c rid0] eqn:Erid; [by apply guarded_same|].
  set (rid := c :: rid0) in *. unfold Supervisor.status. destruct (runtimes (sv_sup v) !! rid) as [r|] eqn:Hr; [|by apply guarded_same].
  set (token := extract_str rest (lit "control_token")). set (pid := extract_int rest (lit "pid") (-1)).
  destruct (require_runtime_peer _ _ _ _ _) as [[]|e] eqn:Hp; [|by apply guarded_same]. rewrite Hothers.
  unfold observe_boundary. rewrite Hr. destruct (token_ok r token) eqn:Ht; cbn [negb].
  - apply guarded_by. apply token_ok_iff in Ht as [Hne Ht]. exists rid, r.
    split; [left; split; [by left|done]|]. do 3 (split; [done|]).
    apply require_runtime_ok in Hp as [Hp|(Ho & Hpid & Hg & Hgr)]; [by left|]. right. exists pid. split; [done|].
    split; [|split; [|split]]; try done.
  - case_decide; by apply guarded_same.
Qed.

Lemma ready_guarded rest v : answer_ok (guarded (lit "runtime.template.ready") rest v) (do_template_ready env peer rest v).
Proof.
  unfold do_template_ready. destruct (extract_str rest (lit "template_id")) as [|c tid0] eqn:Etid; [by apply guarded_same|].
  destruct (require_template_peer _ _ _ _) as [[]|e] eqn:Hp; [|by apply guarded_same].
  unfold template_ready. destruct (templates (sv_sup v) !! (c :: tid0)) as [t|] eqn:Ht; [|by apply guarded_same].
  destruct (_ && _); [by apply guarded_same|].
  destruct (runtimes (sv_sup v) !! tm_runtime t) as [r|] eqn:Hr; [|by apply guarded_same].
  destruct (token_ok r _) eqn:Hk; cbn [negb]; [|by apply guarded_same]. apply guarded_by.
  apply token_ok_iff in Hk as [Hne Hk]. exists (tm_runtime t), r.
  split; [right; split; [by left|exists t; by rewrite Etid]|]. do 3 (split; [done|]).
  apply require_template_ok in Hp as [Hp|(Ho & Hg)]; [by left|]. right. eexists. split; [exact Ho|].
  split; [|split; [|split]]; try done.
Qed.

Lemma poll_guarded rest v : answer_ok (guarded (lit "runtime.template.poll") rest v) (do_template_poll env peer rest v).
Proof.
  unfold do_template_poll. destruct (extract_str rest (lit "template_id")) as [|c tid0] eqn:Etid; [by apply guarded_same|].
  unfold template_status. destruct (templates (sv_sup v) !! (c :: tid0)) as [t|] eqn:Ht; [|by apply guarded_same].
  destruct (require_peer_pid _ _) as [[]|e] eqn:Hp; [|by apply guarded_same]. rewrite Hothers. unfold template_poll. rewrite Ht.
  destruct (runtimes (sv_sup v) !! tm_runtime t) as [r|] eqn:Hr; [|by apply guarded_same].
  destruct (token_ok r _) eqn:Hk; cbn [negb]; [|by apply guarded_same]. apply guarded_by.
  apply token_ok_iff in Hk as [Hne Hk]. exists (tm_runtime t), r.
  split; [right; split; [by right|exists t; by rewrite Etid]|]. do 3 (split; [done|]).
  apply require_peer_pid_ok in Hp. right. eexists. split; [exact Hp|].
  split; [|split; [|split]]; try done. intros _. exists t. by rewrite Etid.
Qed.

Lemma generation_guarded rest v :
  answer_ok (guarded (lit "runtime.generation.ready") rest v) (do_generation_ready env peer rest v).
Proof.
  unfold do_generation_ready. destruct (extract_str rest (lit "runtime_id")) as [|c rid0] eqn:Erid; [by apply guarded_same|].
  set (rid := c :: rid0) in *. unfold restore_template_status.
  destruct (runtimes (sv_sup v) !! rid) as [r|] eqn:Hr; [|by apply guarded_same].
  destruct (_ || _); [by apply guarded_same|]. unfold template_status.
  destruct (templates (sv_sup v) !! restore_template_id (rt_restore r)) as [t|] eqn:Ht; [|by apply guarded_same].
  destruct (negb _); [by apply guarded_same|].
  destruct (require_generation_peer _ _ _ _ _) as [[]|e] eqn:Hp; [|by apply guarded_same]. rewrite Hothers.
  unfold generation_ready. rewrite Hr. destruct (token_ok r _) eqn:Hk; cbn [negb]; [|by apply guarded_same].
  apply guarded_by. apply token_ok_iff in Hk as [Hne Hk]. exists rid, r.
  split; [left; split; [by right|done]|]. do 3 (split; [done|]).
  apply require_generation_ok in Hp as [Hp|(Ho & Hg & Hpar)]; [by left|]. right. eexists. split; [exact Ho|].
  split; [|split; [|split]]; try done. intros _. split; [done|]. split; [done|]. by exists t.
Qed.

End authentic.


(** ** Witnesses *)

Definition status_answer : Server * list Effect * str :=
  answer_of demo_server (dispatch toy_blake3 quiet_control (lit "status") (demo_peer 7) demo_server).

Lemma queries_change_nothing_witness : status_answer.1.1 = demo_server /\ status_answer.1.2 = [].
Proof.
  destruct (queries_change_nothing toy_blake3 quiet_control (lit "status") (demo_peer 7) demo_server status_answer.1.1
    status_answer.1.2 status_answer.2) as (H1 & H2 & _).
  - left. vm_compute. by left.
  - exact (answer_parts demo_server (dispatch toy_blake3 quiet_control (lit "status") (demo_peer 7) demo_server) eq_refl).
  - by split.
Defined.

Definition ready_line : str :=
  lit "runtime.template.ready " ++ jt "{'runtime_id':'rt','template_id':'" ++ demo_template ++
  jt "','control_token':'secret','template_pid':210,'template_process_group_id':210,'generation':1}".

Definition ready_result : answered := dispatch toy_blake3 quiet_control ready_line (demo_peer 210) demo_server.
Definition ready_answer : Server * list Effect * str := answer_of demo_server ready_result.

Lemma ready_given : ready_result = Some (Parsed (ready_answer.1.1, ready_answer.1.2, ready_answer.2)).
Proof. apply answer_parts. vm_compute. reflexivity. Qed.


Lemma ready_changes : sv_sup ready_answer.1.1 <> sv_sup demo_server.
Proof.
  intros E. apply (f_equal (fun s => tm_pgid <$> templates s !! demo_template)) in E. revert E. vm_compute. discriminate.
Qed.

