(* ===== verification/ControlSessions.v ===== *)
(** Sessions, policies and numbers on the control socket: a registered session's
    processes are routed to its branch and its group is watched; a group that is
    removed just before it is unregistered pins its branch; a policy covers the
    paths its rules match; a number can be read from another member's text. *)

From S2P Require Import Prelude Hashes KvCodec JsonText JsonGrammar WorkingTree ObjectStore Codec Refs Checkpoint AgentState StateFs AgentService RuntimeState Supervisor SupervisorRuns ProcessControl Peers BranchMerge Gc BranchRouter RouterInv RouterAnswers Handles Bootstrap Daemon RuntimeOps RuntimeProps Telemetry TelemetryProps CgroupWatch ControlProtocol ControlDemo ControlProps.

(** ** Registering *)

(** The router after a registration has no cached answer. *)
Lemma fresh_route w r pid rel :
  world_ok w -> ids_registered w (cgroup_branch_map_ r) -> generation_ r < 2 ^ 64 ->
  path_branch_cache_ r = ∅ -> pid_fence_cache_ r = ∅ -> evictions_delivered w r ->
  members w !! pid = Some rel ->
  exists w' r', resolve w r pid = Some (w', r', branch_for_cgroup_ids (cgroup_branch_map_ r) (current_ids w rel)).
Proof.
  intros Hw Hm Hg Hp Hf He Hpid. destruct (begin_alone w r pid rel) as [Ha Hl].
  replace (branch_for_cgroup_ids _ _) with (route w r pid) by (unfold route; by rewrite Hpid).
  unfold resolve. apply (run_alone (revalidate_leaf_ r) _ _ _ _ pid rel); [|done|by intros _|done|].
  - split; cbn [world router threads]; try done.
    + by rewrite Hp.
    + by rewrite Hf.
    + apply map_Forall_singleton, begin_ok.
  - unfold resolve_fuel. rewrite (proc_cgroup_member w pid rel) by done. lia.
Qed.

Lemma current_ids_head w rel : member_path rel ->
  exists up, current_ids w rel = cgroup_id w (abs_path rel) :: up.
Proof.
  intros (Hne & _). unfold current_ids. destruct (chain_cons rel Hne) as [up ->]. by eexists.
Qed.

(** How a registration ends: either the router looks at the group at every
    call, or the group is watched: when the name of the group's directory goes
    away under the descriptor that inotify gave for its parent, the event thread
    reports the group, and its registration leaves the router. *)
Definition removal_noticed (env : ControlEnv) (v : Server) (cg : str) (inode : N) : Prop :=
  revalidate_leaf_ (router_ (sv_daemon v)) = true \/
  exists w parent name wd, sv_watch v = Some w /\ split_path cg = Some (parent, name) /\
    ce_add_watch env parent = Some wd /\
    let reported := (handle_event (NameGone wd name) w).1.2 in
    reported = [mkChild cg inode] /\
    cgroup_branch_map_ (deliver reported (router_ (sv_daemon v))) !! inode = None.

Lemma try_watch_result env cg v v1 b inode :
  try_watch env cg v = (v1, b) -> dirs (sv_world v) !! resolved_path cg = Some inode ->
  v1 = set_watch (sv_watch v1) v /\ (is_Some (sv_watch v1) <-> is_Some (sv_watch v)) /\
  (b = true -> exists w parent name wd, sv_watch v1 = Some w /\ split_path cg = Some (parent, name) /\
     ce_add_watch env parent = Some wd /\ watched wd name (mkChild cg inode) w).
Proof.
  intros Ht Hd. unfold try_watch in Ht. destruct (sv_watch v) as [w|] eqn:Ew.
  - rewrite Hd in Ht. destruct (watch (Some inode) (ce_add_watch env) cg w) as [w' b'] eqn:E. injection Ht as <- <-.
    split; [done|]. split; [done|]. intros ->. unfold watch in E.
    destruct (split_path cg) as [[parent name]|] eqn:Es; [|done]. destruct (negb _) eqn:En; [done|].
    destruct (ce_add_watch env parent) as [wd|] eqn:Ea; [|done].
    exists w', parent, name, wd. do 3 (split; [done|]). eapply (watch_makes_watched (Some inode) (ce_add_watch env) cg w w'); [done..|].
    unfold watch. by rewrite Es, En, Ea.
  - injection Ht as <- <-. split; [by destruct v; cbn in Ew |- *; rewrite Ew|]. by rewrite Ew.
Qed.

Definition registered (env : ControlEnv) (v v1 : Server) (cg : str) (inode bid : N) : Prop :=
  sv_world v1 = sv_world v /\
  (exists b, sv_daemon v1 = set_router (mkRouter (<[inode := bid]> (cgroup_branch_map_ (router_ (sv_daemon v)))) ∅ ∅
     (bump (router_ (sv_daemon v))) b (fence_on (router_ (sv_daemon v)))) (sv_daemon v)) /\
  (is_Some (sv_watch v) -> removal_noticed env v1 cg inode).

Lemma register_watched_registers env cg bid v inode :
  (forall n v, others env n v = v) -> world_ok (sv_world v) -> dirs (sv_world v) !! resolved_path cg = Some inode ->
  exists v1, register_watched env cg bid v = (v1, [], true) /\ registered env v v1 cg inode bid.
Proof.
  intros Ho Hw Hd. unfold register_watched. destruct (try_watch env cg v) as [v1 b] eqn:Et.
  destruct (try_watch_result _ _ _ _ _ _ Et Hd) as (Ev & Hiff & Hwatch). rewrite Ho.
  assert (sv_world v1 = sv_world v /\ sv_daemon v1 = sv_daemon v) as [Ew Ed] by (by rewrite Ev).
  unfold register_cgroup. rewrite Ew, Ed. unfold cgroup_id. rewrite Hd. cbn [default from_option id].
  destruct (ids_used _ Hw _ _ Hd) as [Hpos _]. rewrite decide_False by lia. cbn [negb].
  eexists. split; [reflexivity|]. destruct (bool_decide (is_Some (sv_watch v)) && negb b) eqn:E.
  - split; [done|]. split; [|intros _; by left]. exists true. cbn. by rewrite Ed.
  - split; [done|]. split.
    + exists (revalidate_leaf_ (router_ (sv_daemon v))). cbn. by rewrite Ed.
    + intros Hs. rewrite bool_decide_eq_true_2 in E by done. destruct b; [|done]. right.
      destruct (Hwatch eq_refl) as (w & parent & name & wd & H1 & H2 & H3 & [Hrep _]%deleted_calls_back).
      exists w, parent, name, wd. do 3 (split; [done|]). cbv zeta. rewrite Hrep. split; [done|].
      cbn. by rewrite lookup_delete_eq.
Qed.


(** ** Unregistering a removed group *)

Lemma unwatch_forgets cg parent name wd w :
  split_path cg = Some (parent, name) -> wd_by_parent_ w !! parent = Some wd ->
  forall c, ~ watched wd name c (unwatch cg w).1.
Proof.
  intros Hs Hp c. unfold unwatch. rewrite Hs, Hp. destruct (by_wd_ w !! wd) as [p|] eqn:Hw.
  - case_decide; cbn [fst]; unfold watched.
    + unfold children_of. cbn [by_wd_]. by rewrite lookup_delete_eq, lookup_empty.
    + rewrite children_insert, decide_True by done. cbn [pa_children]. by rewrite lookup_delete_eq.
  - cbn [fst]. unfold watched, children_of. by rewrite Hw, lookup_empty.
Qed.

Lemma unwatched_unreported wd name w : (forall c, ~ watched wd name c w) -> handle_event (NameGone wd name) w = (w, [], []).
Proof.
  intros H. cbn [handle_event]. destruct (by_wd_ w !! wd) as [p|] eqn:Hp; [|done].
  destruct (pa_children p !! name) as [c|] eqn:Hc; [|done]. destruct (H c). unfold watched, children_of. by rewrite Hp.
Qed.

(** A registered group is removed and its session unregistered before the
    event thread has seen the removal. The router no longer finds the directory
    and keeps the registration, and the watch is given up, so the removal that
    is still queued evicts nothing. The registration is left, and in this and
    every later state in which it still is, the deletion of its branch is refused
    because of active sessions. *)
Theorem late_unregister_pins_branch env rest v v' effects out w parent name wd inode bid :
  (forall n v, others env n v = v) ->
  let cg := extract_str rest (lit "cgroup_path") in
  cg <> [] -> split_path cg = Some (parent, name) ->
  sv_watch v = Some w -> wd_by_parent_ w !! parent = Some wd -> watched wd name (mkChild cg inode) w ->
  cgroup_branch_map_ (router_ (sv_daemon v)) !! inode = Some bid ->
  dirs (sv_world v) !! resolved_path cg = None ->
  do_session_unregister env rest v = Some (Parsed (v', effects, out)) ->
  (exists w', sv_watch v' = Some w' /\ handle_event (NameGone wd name) w' = (w', [], [])) /\
  router_ (sv_daemon v') = router_ (sv_daemon v) /\
  cgroup_branch_map_ (router_ (sv_daemon v')) !! inode = Some bid /\
  (forall v2 line, cgroup_branch_map_ (router_ (sv_daemon v2)) !! inode = Some bid ->
     extract_str line (lit "name") <> main_name ->
     branch_by_name (sv_daemon v2) (extract_str line (lit "name")) = Some bid ->
     extract_str line (lit "name") <> [] ->
     do_branch_delete env line v2 = refuse v2 "branch has active sessions").
Proof.
  intros Ho cg Hcg Hs Hw Hp Hwd Hin Hd. unfold do_session_unregister. fold cg.
  destruct cg as [|c cg0] eqn:Ecg; [done|]. rewrite Ho.
  assert (on_router (fun r => (unregister_cgroup (sv_world v) (c :: cg0) r).1) v = on_router (fun r => r) v) as ->.
  { unfold on_router, unregister_cgroup, cgroup_id. rewrite Hd. cbn [default from_option id]. by rewrite decide_True. }
  unfold give_watch_up. cbn [sv_watch on_router set_daemon set_host]. rewrite Hw.
  pose proof (unwatch_forgets (c :: cg0) parent name wd w Hs Hp) as Hf.
  destruct (unwatch (c :: cg0) w) as [w' removed]. cbn [fst] in Hf.
  set (v2 := set_watch (Some w') (on_router (fun r => r) v)). intros H.
  assert (v' = v2) as ->.
  { assert (forall a, answer_ok (fun v0 _ _ => v0 = v2) a -> a = Some (Parsed (v', effects, out)) -> v' = v2) as Hgive
      by (intros a Ha ->; exact Ha).
    eapply Hgive; [|exact H]. unfold session_reply.
    destruct (sv_registry v2); [destruct (unregister_session _ _ _)|]; by destruct (available_installer env). }
  clear H. split; [|split; [|split]].
  - exists w'. split; [done|]. by apply unwatched_unreported.
  - done.
  - done.
  - intros v3 line Hi Hm Hb Hne. unfold do_branch_delete. rewrite !decide_False, Hb by done.
    assert (has_cgroup_for_branch bid (router_ (sv_daemon v3)) = true) as ->; [|done].
    apply has_cgroup_spec. by exists inode.
Qed.

(** ** Policies *)

(** The paths of the branch a rule is about. *)
Definition covers (env : ControlEnv) (wt : WorkingTree) (rule : ParsedPolicyRule) (vpath : str) : Prop :=
  vpath ∈ (for_each wt).*1 /\ pattern_matches env (pr_pattern rule) (drop 1 vpath) = true.

Lemma policy_entry_keeps env bits vpath x e : e ∈ (policy_entry env bits vpath x).2 <->
  e ∈ x.2 \/ exists d i, ce_lstat env (ce_mount env ++ vpath) = Some (d, i) /\ e = mkPolicyEntry (u32 d) i bits.
Proof.
  unfold policy_entry. destruct (ce_lstat _ _) as [[d i]|]; cbn [snd].
  - rewrite elem_of_app, list_elem_of_singleton. naive_solver.
  - naive_solver.
Qed.

Lemma path_entries_in env bits l x e : e ∈ (foldl (fun x vpath => policy_entry env bits vpath x) x l).2 <->
  e ∈ x.2 \/ exists vpath d i, vpath ∈ l /\ ce_lstat env (ce_mount env ++ vpath) = Some (d, i) /\ e = mkPolicyEntry (u32 d) i bits.
Proof.
  revert x. induction l as [|p l IH]; intros x; cbn [foldl].
  - split; [by left|]. intros [?|(vpath & _ & _ & Hin & _)]; [done|by apply not_elem_of_nil in Hin].
  - rewrite IH, policy_entry_keeps. setoid_rewrite elem_of_cons. naive_solver.
Qed.

Lemma inodes_kept (P : InodeKey -> str -> Prop) env bits l x :
  (forall k p, x.1 !! k = Some p -> P k p) ->
  (forall p d i, p ∈ l -> ce_lstat env (ce_mount env ++ p) = Some (d, i) -> P (mkInode d i 0) p) ->
  forall k p, (foldl (fun x vpath => policy_entry env bits vpath x) x l).1 !! k = Some p -> P k p.
Proof.
  revert x. induction l as [|q l IH]; intros x Hx Hl; [done|]. cbn [foldl]. apply IH.
  - unfold policy_entry. destruct (ce_lstat env (ce_mount env ++ q)) as [[d i]|] eqn:E; [|done]. cbn [fst].
    intros k p. unfold InodeMap.set. intros [[<- <-]|[_ Hk]]%lookup_insert_Some; [|by apply Hx].
    apply Hl; [by left|done].
  - intros p d i Hp. apply Hl. by right.
Qed.

(** What a policy installs is what it says: an entry for each path of the
    branch that one of its rules matches, with the inode the mount shows for it
    and the rule's operations, and for nothing else; every inode it adds to the
    map is that of such a path. *)
Theorem policy_covers_matches env wt rules m :
  let '(inodes, entries) := policy_entries env wt rules m in
  (forall e, e ∈ entries <-> exists rule vpath d i, rule ∈ rules /\ covers env wt rule vpath /\
     ce_lstat env (ce_mount env ++ vpath) = Some (d, i) /\ e = mkPolicyEntry (u32 d) i (pr_bpf_bits rule)) /\
  (forall k p, inodes !! k = Some p -> m !! k = Some p \/
     exists rule, rule ∈ rules /\ covers env wt rule p /\ ce_lstat env (ce_mount env ++ p) = Some (dev k, ino k)).
Proof.
  unfold policy_entries. set (one x rule := foldl (fun x vpath => policy_entry env (pr_bpf_bits rule) vpath x) x
    (matched_vpaths env (pr_pattern rule) wt)).
  assert (forall rule vpath, vpath ∈ matched_vpaths env (pr_pattern rule) wt <-> covers env wt rule vpath) as Hc.
  { intros rule vpath. unfold matched_vpaths, covers. rewrite list_elem_of_filter. tauto. }
  assert (forall x, let y := foldl one x rules in
    (forall e, e ∈ y.2 <-> e ∈ x.2 \/ exists rule vpath d i, rule ∈ rules /\ covers env wt rule vpath /\
       ce_lstat env (ce_mount env ++ vpath) = Some (d, i) /\ e = mkPolicyEntry (u32 d) i (pr_bpf_bits rule)) /\
    (forall k p, y.1 !! k = Some p -> x.1 !! k = Some p \/
       exists rule, rule ∈ rules /\ covers env wt rule p /\ ce_lstat env (ce_mount env ++ p) = Some (dev k, ino k))) as H.
  { induction rules as [|rule rules IH]; intros x; cbn [foldl]; cbv zeta.
    - split; [|by left]. intros e. split; [by left|]. intros [?|(rule & _ & _ & _ & Hin & _)]; [done|by apply not_elem_of_nil in Hin].
    - destruct (IH (one x rule)) as [IH1 IH2]. split.
      + intros e. rewrite IH1. unfold one at 1. rewrite path_entries_in. setoid_rewrite Hc. setoid_rewrite elem_of_cons.
        split.
        * intros [[?|(p & d & i & H1 & H2 & H3)]|(r & p & d & i & H1 & H2)]; [by left|right; exists rule; eauto 8|right; exists r; eauto 8].
        * intros [?|(r & p & d & i & [->|H1] & H2 & H3 & H4)]; [by left; left|left; right; eauto 8|right; exists r; eauto 8].
      + intros k p [Hk|(r & H1 & H2)]%IH2; [|right; exists r; split; [by right|done]].
        revert k p Hk. apply (inodes_kept (fun k p => x.1 !! k = Some p \/ _)); [by left|].
        intros p d i Hp Hl. right. exists rule. split; [by left|]. split; [by apply Hc|done]. }
  destruct (H (m, [])) as [H1 H2]. destruct (foldl one (m, []) rules) as [inodes entries]. cbn [fst snd] in *. split; [|done].
  intros e. rewrite H1. split; [|by right]. intros [Hin|?]; [by apply not_elem_of_nil in Hin|done].
Qed.

(** ** Numbers *)

Definition misread_request (n : N) : str :=
  jt "{'agent_id':'sequence','timestamp_ns':" ++ to_string n ++ jt ",'sequence':1}".

Definition misread_members (n : N) : list member :=
  [(lit "agent_id", JStr (lit "sequence")); (lit "timestamp_ns", num n); (lit "sequence", num 1)].

(** The numbers of a request are looked for by the quoted name alone, which
    another member can have as its text: a well-formed request of the agent
    called "sequence" with sequence number 1 is read with its time stamp as the
    sequence number. *)
Theorem number_read_from_text n : (Z.of_N n <= LONG_MAX)%Z ->
  object_text (misread_members n) (misread_request n) /\ state_number (misread_request n) "sequence" = n.
Proof.
  intros Hn. split.
  - assert (members_text (misread_members n) (join_with (lit ",") (member_json <$> misread_members n))) as Hm.
    { apply members_written; [done|]. repeat (apply Forall_cons; split; [split; [vm_compute; reflexivity|]|]);
        try apply Forall_nil_2; cbn [fst snd written]; try apply num_text. apply str_text. }
    replace (misread_request n) with ("{"%char :: join_with (lit ",") (member_json <$> misread_members n) ++ "}"%char :: []).
    { by apply (full_object [] [] []); [constructor..|]. }
    unfold misread_request, misread_members. cbn [fmap list_fmap join_with]. unfold member_json. cbn [fst snd written num].
    change (jt "{'agent_id':'sequence','timestamp_ns':") with
      ("{"%char :: (quoted (lit "agent_id") ++ lit ":" ++ json_string (lit "sequence")) ++ lit "," ++ quoted (lit "timestamp_ns") ++ lit ":").
    rewrite <- !app_assoc. reflexivity.
  - unfold state_number, extract_int.
    assert (after_key (misread_request n) (lit "sequence") = Some (skip_while is_blank (to_string n ++ jt ",'sequence':1}"))) as ->
      by reflexivity.
    assert (skip_while is_blank (to_string n ++ jt ",'sequence':1}") = to_string n ++ jt ",'sequence':1}") as ->.
    { destruct (to_string_cons n) as (c & s & E & Hc). rewrite E. cbn [app skip_while].
      assert (implb (is_digit c) (negb (is_blank c)) = true) as H. { clear E Hc. revert c. apply ascii_cases. by apply (forall_below 256). }
      rewrite Hc in H. cbn [implb] in H. apply negb_true_iff in H. by rewrite H. }
    cbn [mbind option_bind]. rewrite strtol_to_string by done. cbn [default from_option id]. lia.
Qed.

(** ** Witnesses *)

Definition job_request : str := jt "{'cgroup_path':'/sys/fs/cgroup/jobs/a'}".

Lemma job_request_path : extract_str job_request (lit "cgroup_path") = job_dir.
Proof. vm_compute. reflexivity. Qed.

Definition register_result : answered := do_session_register quiet_control job_request demo_server.
Definition register_answer : Server * list Effect * str := answer_of demo_server register_result.

Lemma register_given : register_result = Some (Parsed (register_answer.1.1, register_answer.1.2, register_answer.2)).
Proof. apply answer_parts. vm_compute. reflexivity. Qed.


(** The group of the session is gone; the event is not handled yet. *)
Definition gone_watch : CgroupWatch := (watch (Some 3) (fun _ => Some 1%Z) job_dir (watch_start true true no_watch).1).1.

Definition gone_server : Server :=
  mkServer (with_daemon (set_router (register_locked 3 5 (new_router false false)) (sv_daemon demo_server)) demo_host)
    base_fs (remove_dir job_dir sample_world) (Some gone_watch) None ∅ false.

Definition unregister_result : answered := do_session_unregister quiet_control job_request gone_server.
Definition unregister_answer : Server * list Effect * str := answer_of gone_server unregister_result.

Lemma unregister_given :
  unregister_result = Some (Parsed (unregister_answer.1.1, unregister_answer.1.2, unregister_answer.2)).
Proof. apply answer_parts. vm_compute. reflexivity. Qed.

Lemma late_unregister_pins_branch_witness :
  router_ (sv_daemon unregister_answer.1.1) = router_ (sv_daemon gone_server).
Proof.
  destruct (late_unregister_pins_branch quiet_control job_request gone_server unregister_answer.1.1 unregister_answer.1.2
    unregister_answer.2 gone_watch jobs_dir (lit "a") 1 3 5) as (_ & H & _).
  - done.
  - rewrite job_request_path. discriminate.
  - rewrite job_request_path. vm_compute. reflexivity.
  - reflexivity.
  - vm_compute. reflexivity.
  - rewrite job_request_path. vm_compute. reflexivity.
  - vm_compute. reflexivity.
  - rewrite job_request_path. vm_compute. reflexivity.
  - exact unregister_given.
  - exact H.
Defined.

Lemma number_read_from_text_witness : state_number (misread_request 7) "sequence" = 7.
Proof. destruct (number_read_from_text 7 ltac:(vm_compute; discriminate)) as [_ H]. exact H. Defined.
