(* ===== verification/ControlSocket.v ===== *)
(** The lines of the control socket: how the daemon reads requests from a
    connection and answers them (cas/control_socket.cpp), and how a program
    sends one and reads the answer (runtime/runtime_io.h).

    A connection carries bytes. Reading ends at the end of the bytes that come,
    whether by the end of the stream or by an error; reads that are interrupted
    are repeated and not visible. *)

From S2P Require Import Prelude Hashes KvCodec JsonText Codec Supervisor SupervisorRuns Peers Daemon RuntimeOps ControlProtocol.

(** The cap of both sides on the length of a line. *)
Definition kMaxLine : N := 64 * 1024.

Definition line_length (s : str) : N := N.of_nat (length s).

(** ** The daemon's side *)

(** [getsockopt] gives the process, user and group of the peer, or fails. *)
Definition peer_credentials_for_fd (cred : option (Z * Z * Z)) : PeerCredentials :=
  match cred with
  | Some (pid, uid, gid) => mkPeer false true pid uid gid
  | None => mkPeer false false (-1) (-1) (-1)
  end.

Section serving.
Context {S : Type} (handler : nat -> str -> S -> option (S * str)).

(** [handler i line]: the answer to the [i]-th request of the connection;
    [None] when the handler does not return. [buf] is the line read so far. The
    output is what is written to the connection before it is closed. *)
Fixpoint serve_client (i : nat) (buf input : str) (st : S) : option (S * str) :=
  match input with
  | [] => Some (st, [])
  | ch :: rest =>
      if decide (ch = newline) then
        '(st1, resp) ← handler i buf st;
        '(st2, out) ← serve_client (1 + i) [] rest st1;
        Some (st2, resp ++ newline :: out)
      else
        let buf' := buf ++ [ch] in
        if kMaxLine <? line_length buf' then Some (st, []) else serve_client i buf' rest st
  end.

(** The requests one after the other, each with its answer. *)
Fixpoint answer_lines (i : nat) (lines : list str) (st : S) : option (S * list str) :=
  match lines with
  | [] => Some (st, [])
  | line :: rest =>
      '(st1, resp) ← handler i line st;
      '(st2, resps) ← answer_lines (1 + i) rest st1;
      Some (st2, resp :: resps)
  end.

End serving.

(** Lines as they are sent. *)
Definition unlines (lines : list str) : str := mjoin ((fun l => l ++ [newline]) <$> lines).

(** ** The other side *)

(** A line and what was not read, [size] bytes of it read before. *)
Fixpoint read_line_fd (size : N) (s : str) : option (str * str) :=
  match s with
  | [] => None
  | ch :: rest =>
      if decide (ch = newline) then Some ([], rest)
      else if kMaxLine <? size + 1 then None
      else '(out, r) ← read_line_fd (size + 1) rest; Some (ch :: out, r)
  end.

(** What a program meets: [socket] fails, [connect] or [write] fails, or the
    bytes that come back. *)
Record Transport : Type := mkTransport {
  tr_socket : option str;
  tr_exchange : str -> result str
}.

(** [sizeof(sockaddr_un::sun_path)]. *)
Definition sun_path_size : nat := 108.

Definition control_request (t : Transport) (sock_path line : str) : result str :=
  match tr_socket t with
  | Some e => Err e
  | None =>
      if (sun_path_size <=? length sock_path)%nat then Err (lit "socket path too long")
      else
        let* bytes := tr_exchange t (line ++ [newline]) in
        match read_line_fd 0 bytes with
        | Some (response, _) => Ok response
        | None => Err (lit "no response line")
        end
  end.

(** ** Whole lines *)

(** A line that is read as one. *)
Definition line_ok (line : str) : Prop := (newline ∉ line) /\ line_length line <= kMaxLine.

#[export] Instance line_ok_dec line : Decision (line_ok line) := _.

(** What is left of the input when no further line is complete: too few bytes,
    or more bytes without a line feed than a line may have. *)
Definition no_line (rest : str) : Prop := (newline ∉ take (N.to_nat kMaxLine + 1) rest) /\
  (kMaxLine < line_length rest \/ (newline ∉ rest)).

Lemma line_length_app a b : line_length (a ++ b) = line_length a + line_length b.
Proof. unfold line_length. rewrite length_app. lia. Qed.

Lemma line_length_cons c s : line_length (c :: s) = 1 + line_length s.
Proof. unfold line_length. simpl length. lia. Qed.

Lemma newline_cons c s : newline ∉ c :: s <-> c <> newline /\ (newline ∉ s).
Proof. rewrite not_elem_of_cons. naive_solver. Qed.

(** The request of a program over a connection of its own to the daemon, which
    is reached: the state of the daemon afterwards and what the program gets. *)
Definition exchange {S : Type} (handler : nat -> str -> S -> option (S * str)) (sock_path line : str) (st : S) :
    option (S * result str) :=
  '(st', bytes) ← serve_client handler 0 [] (line ++ [newline]) st;
  Some (st', control_request (mkTransport None (fun _ => Ok bytes)) sock_path line).

(** The daemon's handler on a connection: [env i] is what the [i]-th request
    meets. *)
Definition dispatch_handler (blake3 : bytes -> Hash) (env : nat -> ControlEnv) (peer : PeerCredentials)
    (i : nat) (line : str) (v : Server) : option (Server * str) :=
  match dispatch blake3 (env i) line peer v with
  | Some (Parsed (v', _, out)) => Some (v', out)
  | _ => None
  end.

Section serving_lines.
Context {S : Type} (handler : nat -> str -> S -> option (S * str)).

(** Reading on from [buf] up to the end of a line. *)
Lemma serve_reads line : forall i buf rest st,
  newline ∉ line -> line_length (buf ++ line) <= kMaxLine ->
  serve_client handler i buf (line ++ newline :: rest) st =
    ('(st1, resp) ← handler i (buf ++ line) st;
     '(st2, out) ← serve_client handler (1 + i) [] rest st1;
     Some (st2, resp ++ newline :: out)).
Proof.
  induction line as [|c line IH]; intros i buf rest st Hn Hl; cbn [app serve_client].
  - by rewrite decide_True, app_nil_r.
  - apply newline_cons in Hn as [Hc Hn]. rewrite decide_False by done.
    assert (line_length ((buf ++ [c]) ++ line) <= kMaxLine) as Hl' by (by rewrite <- app_assoc).
    rewrite (proj2 (N.ltb_ge _ _)) by (rewrite line_length_app in Hl'; lia).
    rewrite IH by done. by rewrite <- app_assoc.
Qed.

(** An input without a complete line is answered by closing. *)
Lemma serve_stops rest : forall i buf st, line_length buf <= kMaxLine ->
  newline ∉ take (N.to_nat (kMaxLine - line_length buf) + 1) rest ->
  (kMaxLine < line_length (buf ++ rest) \/ newline ∉ rest) ->
  serve_client handler i buf rest st = Some (st, []).
Proof.
  induction rest as [|c rest IH]; intros i buf st Hb Hn Hr; cbn [serve_client]; [done|].
  rewrite Nat.add_comm in Hn. cbn [Nat.add take] in Hn. apply newline_cons in Hn as [Hc Hn].
  rewrite decide_False by done. assert (line_length (buf ++ [c]) = line_length buf + 1) as El by (by rewrite line_length_app).
  destruct (N.ltb_spec kMaxLine (line_length (buf ++ [c]))) as [|Hle]; [done|].
  apply IH; [done| |rewrite <- app_assoc; destruct Hr as [|[_ Hr]%newline_cons]; auto].
  rewrite El. by replace (N.to_nat (kMaxLine - (line_length buf + 1)) + 1)%nat
    with (N.to_nat (kMaxLine - line_length buf)) by lia.
Qed.

Lemma serve_lines lines : forall i rest st, Forall line_ok lines -> no_line rest ->
  serve_client handler i [] (unlines lines ++ rest) st =
    ('(st', resps) ← answer_lines handler i lines st; Some (st', unlines resps)).
Proof.
  induction lines as [|l lines IH]; intros i rest st Hl Hr.
  - destruct Hr as [H1 H2]. unfold unlines. cbn. apply serve_stops; [done| |done].
    change (line_length []) with 0. by rewrite N.sub_0_r.
  - apply Forall_cons in Hl as [[Hn Hc] Hl]. unfold unlines. cbn [fmap list_fmap mjoin list_join].
    rewrite <- !app_assoc. cbn [app]. rewrite (serve_reads l) by done. cbn [app answer_lines].
    destruct (handler i l st) as [[st1 resp]|]; [|done]. cbn [mbind option_bind].
    change (mjoin _ ++ rest) with (unlines lines ++ rest). rewrite IH by done.
    destruct (answer_lines handler (1 + i) lines st1) as [[st2 resps]|]; [|done]. cbn [mbind option_bind fmap list_fmap mjoin list_join].
    by rewrite <- !app_assoc.
Qed.

(** Every input is complete lines and a rest. *)
Lemma split_lines input : exists lines rest, input = unlines lines ++ rest /\ Forall line_ok lines /\ no_line rest.
Proof.
  remember (length input) as n eqn:En. revert input En. induction n as [n IH] using lt_wf_ind. intros input ->.
  destruct (find_char newline input) as [i|] eqn:Hf.
  - apply find_char_Some in Hf as (a & b & -> & Hi & Ha).
    destruct (decide (line_length a <= kMaxLine)) as [Hl|Hl].
    + destruct (IH (length b)) with (input := b) as (lines & rest & -> & Hls & Hr);
        [rewrite length_app; simpl; lia|done|].
      exists (a :: lines), rest. split; [|split; [by apply Forall_cons|done]].
      unfold unlines. cbn [fmap list_fmap mjoin list_join]. by rewrite <- !app_assoc.
    + exists [], (a ++ newline :: b). split; [done|]. split; [done|]. split.
      * intros Hin. apply Ha. rewrite take_app_le in Hin by (unfold line_length in Hl; lia).
        by eapply subseteq_take.
      * left. rewrite line_length_app. lia.
  - apply find_char_None in Hf. exists [], input. split; [done|]. split; [done|]. split; [|by right].
    intros Hin. apply Hf. by eapply subseteq_take.
Qed.

(** Whatever bytes come on a connection, the daemon answers its complete
    lines, in order, each with one line of its own, and nothing else: an
    unfinished line at the end is dropped, and a line of more than 64 KiB ends
    the connection. *)
Theorem connection_answers_its_lines input st :
  exists lines rest, input = unlines lines ++ rest /\ Forall line_ok lines /\ no_line rest /\
    serve_client handler 0 [] input st =
      ('(st', resps) ← answer_lines handler 0 lines st; Some (st', unlines resps)).
Proof.
  destruct (split_lines input) as (lines & rest & -> & Hl & Hr). exists lines, rest.
  split_and!; [done..|by apply serve_lines].
Qed.

End serving_lines.

(** ** One request *)

Lemma read_line_go line : forall size rest, newline ∉ line -> size + line_length line <= kMaxLine ->
  read_line_fd size (line ++ newline :: rest) = Some (line, rest).
Proof.
  induction line as [|c line IH]; intros size rest Hn Hl; cbn [app read_line_fd]; [by rewrite decide_True|].
  apply newline_cons in Hn as [Hc Hn]. rewrite line_length_cons in Hl. rewrite decide_False by done.
  rewrite (proj2 (N.ltb_ge _ _)) by lia. rewrite IH by (done || lia). done.
Qed.

Lemma read_line_long line : forall size rest, newline ∉ line -> size <= kMaxLine -> kMaxLine < size + line_length line ->
  read_line_fd size (line ++ newline :: rest) = None.
Proof.
  induction line as [|c line IH]; intros size rest Hn Hs Hl; cbn [app read_line_fd].
  - change (line_length []) with 0 in Hl. lia.
  - apply newline_cons in Hn as [Hc Hn]. rewrite line_length_cons in Hl. rewrite decide_False by done.
    destruct (N.ltb_spec kMaxLine (size + 1)); [done|]. rewrite IH by (done || lia). done.
Qed.

Definition no_response : result str := Err (lit "no response line").

(** A program whose request is a line gets the daemon's answer as it is when
    that is one line of at most 64 KiB, and an error when it is longer; the
    daemon has handled the request in either case. *)
Lemma exchange_answer {S : Type} (handler : nat -> str -> S -> option (S * str)) sock_path line st st' resp :
  (length sock_path < sun_path_size)%nat -> line_ok line -> handler 0%nat line st = Some (st', resp) -> newline ∉ resp ->
  exchange handler sock_path line st =
    Some (st', if decide (line_length resp <= kMaxLine) then Ok resp else no_response).
Proof.
  intros Hp [Hn Hl] Hh Hr. unfold exchange.
  rewrite (serve_reads handler line 0 [] [] st) by done. cbn [app]. rewrite Hh. cbn [mbind option_bind serve_client].
  f_equal. f_equal. unfold control_request. cbn [tr_socket tr_exchange]. rewrite (proj2 (Nat.leb_gt _ _)) by done.
  cbn [rbind]. destruct (decide (line_length resp <= kMaxLine)).
  - by rewrite read_line_go.
  - rewrite read_line_long; [done|done|done|lia].
Qed.
