(* ===== verification/RuntimeClient.v ===== *)
(** The cooperative runtime and its launcher (runtime/runtime_client.cpp,
    runtime/agentvfs_run.cpp, the text helpers of runtime/runtime_io.h): what a
    program that announces its boundaries sends to the daemon, how it reads the
    answers, and what it, the template it forks and the restored process do.

    [fork] returns in both processes; the functions here follow one of them. An
    answer is what [control_request] gives for a request. [json_escape] of
    runtime_io.h is the same text as that of the daemon. *)

From S2P Require Import Prelude Hashes KvCodec JsonText Supervisor ControlProtocol.

(** ** Reading answers *)

(** The text from the colon on that follows the first occurrence of the quoted
    key. *)
Definition at_colon (json key : str) : option str :=
  s ← find_str (quoted key) json;
  let s := drop (length (quoted key)) s in
  i ← find_char ":"%char s;
  Some (drop i s).

Definition extract_bool (json key : str) (dflt : bool) : bool :=
  match at_colon json key with
  | None => dflt
  | Some s =>
      let s := skip_while is_blank (drop 1 s) in
      if has_prefix (lit "true") s then true
      else if has_prefix (lit "false") s then false
      else dflt
  end.

(** Up to the next quotation mark, escapes not looked at. *)
Definition extract_str (json key : str) : str :=
  default [] (
    s ← at_colon json key;
    i ← find_char quote s;
    let s := drop (i + 1) s in
    j ← find_char quote s;
    Some (take j s)).

Definition ULLONG_MAX : N := 2 ^ 64 - 1.

(** [strtoull(s, &end, 10)] with [end != s]. *)
Definition strtoull (s : str) : option N :=
  let s := skip_while is_space s in
  let negative := starts_with (is_char "-") s in
  let s := skip_if (fun c => is_char "+" c || is_char "-" c) s in
  match take_while is_digit s with
  | [] => None
  | ds =>
      let v := dec_value ds in
      Some (if ULLONG_MAX <? v then ULLONG_MAX else if negative then (2 ^ 64 - v) mod 2 ^ 64 else v)
  end.

Definition extract_uint64 (json key : str) : option N :=
  s ← at_colon json key;
  strtoull (skip_while is_blank (drop 1 s)).

(** A variable of the environment, absent or empty. *)
Definition given (e : option str) : option str := match e with Some (c :: s) => Some (c :: s) | _ => None end.

Definition load_initial_generation (e : option str) : N :=
  match given e with Some s => default 0 (strtoull s) | None => 0 end.

(** The contents of the caller's buffer, of [error_len] bytes when there is
    one. *)
Definition set_error (error_len : option N) (msg : str) : option str :=
  match error_len with
  | Some n => if n =? 0 then None else Some (snprintf (N.to_nat n) msg)
  | None => None
  end.

(** ** Requests *)

Definition boundary_request (runtime_id token : str) (pid : Z) (generation : N) (kind : str) : str :=
  lit "runtime.boundary {" ++ field "'runtime_id':" runtime_id ++ field ",'control_token':" token ++
  jt ",'pid':" ++ z_to_string pid ++ jt ",'generation':" ++ to_string generation ++
  field ",'boundary_kind':" kind ++ lit "}".

Definition template_ready_request (runtime_id token template_id : str) (pid pgid : Z) (generation : N) : str :=
  lit "runtime.template.ready {" ++ field "'runtime_id':" runtime_id ++ field ",'control_token':" token ++
  field ",'template_id':" template_id ++ jt ",'template_pid':" ++ z_to_string pid ++
  jt ",'template_process_group_id':" ++ z_to_string pgid ++ jt ",'generation':" ++ to_string generation ++ lit "}".

Definition poll_request (template_id token : str) : str :=
  lit "runtime.template.poll {" ++ field "'template_id':" template_id ++ field ",'control_token':" token ++ lit "}".

Definition generation_ready_request (runtime_id token : str) (pid pgid : Z) (target : N) : str :=
  lit "runtime.generation.ready {" ++ field "'runtime_id':" runtime_id ++ field ",'control_token':" token ++
  jt ",'pid':" ++ z_to_string pid ++ jt ",'active_process_group_id':" ++ z_to_string pgid ++
  jt ",'generation':" ++ to_string target ++ lit "}".

(** ** The boundary *)

Definition ok_answer (answer : result str) : bool :=
  match answer with Ok resp => extract_bool resp (lit "ok") false | Err _ => false end.

(** What the answer to an announced boundary tells the program. *)
Inductive Announced : Type := Fails (msg : str) | Continues | Snapshots (template_id : str).

Definition announced (answer : result str) : Announced :=
  match answer with
  | Err e => Fails (lit "runtime.boundary transport: " ++ e)
  | Ok resp =>
      if negb (extract_bool resp (lit "ok") false) then
        Fails (lit "runtime.boundary: " ++ match extract_str resp (lit "error") with [] => resp | e => e end)
      else
        let action := extract_str resp (lit "action") in
        if decide (action = lit "continue") then Continues
        else if negb (bool_decide (action = lit "snapshot"))
        then Fails (lit "runtime.boundary: unknown action '" ++ action ++ lit "'")
        else
          match extract_str resp (lit "template_id") with
          | [] => Fails (lit "runtime.boundary: snapshot response missing template_id")
          | template_id => Snapshots template_id
          end
  end.

(** [fork], followed in one process; the child has put itself in a group of its
    own. *)
Inductive Fork : Type := ForkFailed (err : str) | InParent | InChild (pid pgid : Z).

(** How the call ends in a process: back to the program, with the contents of
    the error buffer and the process's generation from then on; the process
    exits; it is still parked after the rounds that were given, with so many
    failures in a row. *)
Inductive Outcome : Type :=
| Returns (rc : Z) (error : option str) (generation : N)
| Exits (code : Z)
| StillParked (failures : N).

(** *** The parked template *)

Definition kPollGiveUpFailures : N := 200.

Inductive PollStep : Type := Again (failures : N) | Leaves (code : Z) | Restores (target : N).

Definition failed_poll (failures : N) : PollStep :=
  if kPollGiveUpFailures <=? failures + 1 then Leaves 0 else Again (failures + 1).

Definition poll_step (failures : N) (answer : result str) : PollStep :=
  match answer with
  | Err _ => failed_poll failures
  | Ok presp =>
      if negb (extract_bool presp (lit "ok") false) then failed_poll failures
      else
        let paction := extract_str presp (lit "action") in
        if decide (paction = lit "wait") then Again 0
        else if decide (paction = lit "drop") then Leaves 0
        else if decide (paction = lit "restore") then
          match extract_uint64 presp (lit "target_generation") with Some target => Restores target | None => Again 0 end
        else Again 0
  end.

(** One round of the loop: the answer to its poll and, when it restores, the
    fork and the answer to the restored process. *)
Record PollRound : Type := mkRound {
  pr_poll : str -> result str;
  pr_fork : Fork;
  pr_ready : str -> result str
}.

(** The restored process: back in the program, or gone. *)
Definition resume (runtime_id token : str) (pid pgid : Z) (target : N) (ready : str -> result str) : Outcome :=
  if ok_answer (ready (generation_ready_request runtime_id token pid pgid target))
  then Returns 0 None target else Exits 1.

Fixpoint poll_loop (runtime_id token template_id : str) (rounds : list PollRound) (failures : N) : Outcome :=
  match rounds with
  | [] => StillParked failures
  | r :: rest =>
      match poll_step failures (pr_poll r (poll_request template_id token)) with
      | Again n => poll_loop runtime_id token template_id rest n
      | Leaves code => Exits code
      | Restores target =>
          match pr_fork r with
          | InChild pid pgid => resume runtime_id token pid pgid target (pr_ready r)
          | _ => poll_loop runtime_id token template_id rest 0
          end
      end
  end.

(** What a call meets, in the process that is followed. *)
Record ClientEnv : Type := mkClientEnv {
  cl_sock : option str;
  cl_runtime_id : option str;
  cl_token : option str;
  cl_pid : Z;
  cl_boundary : str -> result str;
  cl_pipe : option str;
  cl_fork : Fork;
  cl_ready : str -> result str;
  cl_rounds : list PollRound
}.

(** The forked template: announced, then parked. *)
Definition park (e : ClientEnv) (runtime_id token template_id : str) (pid pgid : Z) (generation : N) : Outcome :=
  if ok_answer (cl_ready e (template_ready_request runtime_id token template_id pid pgid generation))
  then poll_loop runtime_id token template_id (cl_rounds e) 0
  else Exits 1.

(** The active process waits for its template to be announced and goes on. *)
Definition agentvfs_runtime_boundary (e : ClientEnv) (generation : N) (boundary_kind : option str)
    (error_len : option N) : Outcome :=
  let fails msg := Returns (-1) (set_error error_len msg) generation in
  match given (cl_sock e), given (cl_runtime_id e), given (cl_token e) with
  | Some _, Some rid, Some token =>
      match announced (cl_boundary e (boundary_request rid token (cl_pid e) generation (default [] boundary_kind))) with
      | Fails msg => fails msg
      | Continues => Returns 0 None generation
      | Snapshots template_id =>
          match cl_pipe e with
          | Some err => fails (lit "pipe: " ++ err)
          | None =>
              match cl_fork e with
              | ForkFailed err => fails (lit "fork: " ++ err)
              | InParent => Returns 0 None generation
              | InChild pid pgid => park e rid token template_id pid pgid generation
              end
          end
      end
  | _, _, _ => fails (lit "AGENTVFS_SOCK/AGENTVFS_RUNTIME_ID/AGENTVFS_RUNTIME_TOKEN not set")
  end.

(** ** The launcher *)

Record LaunchArgs : Type := mkArgs { la_sock : str; la_branch : str; la_id : str; la_dashdash : bool; la_cmd : list str }.

Definition no_args : LaunchArgs := mkArgs [] [] [] false [].

Definition needs_value (flag : str) : str := lit "agentvfs-run: " ++ flag ++ lit " requires a value".

(** The arguments after the program's name. *)
Fixpoint parse_args (argv : list str) (a : LaunchArgs) : result LaunchArgs :=
  match argv with
  | [] => Ok a
  | x :: rest =>
      if la_dashdash a then
        parse_args rest (mkArgs (la_sock a) (la_branch a) (la_id a) true (la_cmd a ++ [x]))
      else if decide (x = lit "--") then
        parse_args rest (mkArgs (la_sock a) (la_branch a) (la_id a) true (la_cmd a))
      else if decide (x = lit "--sock") then
        match rest with
        | [] => Err (needs_value x)
        | y :: rest => parse_args rest (mkArgs y (la_branch a) (la_id a) false (la_cmd a))
        end
      else if decide (x = lit "--branch") then
        match rest with
        | [] => Err (needs_value x)
        | y :: rest => parse_args rest (mkArgs (la_sock a) y (la_id a) false (la_cmd a))
        end
      else if decide (x = lit "--id") then
        match rest with
        | [] => Err (needs_value x)
        | y :: rest => parse_args rest (mkArgs (la_sock a) (la_branch a) y false (la_cmd a))
        end
      else Err (lit "agentvfs-run: unexpected argument '" ++ x ++ lit "'")
  end.

Definition args_complete (a : LaunchArgs) : bool :=
  negb (bool_decide (la_sock a = [])) && negb (bool_decide (la_branch a = [])) && la_dashdash a &&
  negb (bool_decide (la_cmd a = [])).

(** "%016llx". *)
Definition hex64 (v : N) : str := hex16 v.

(** Two random words. *)
Definition make_token (random : option (N * N)) : option str := '(a, b) ← random; Some (hex64 a ++ hex64 b).

(** The id that was given, or one of the process and the clock, in seconds and
    nanoseconds. *)
Definition launch_id (a : LaunchArgs) (pid : Z) (clock : option (N * N)) : option str :=
  match la_id a with
  | [] =>
      '(sec, nsec) ← clock;
      Some (snprintf 64 (lit "rt-" ++ z_to_string pid ++ lit "-" ++ to_string ((sec * 1000000000 + nsec) mod 2 ^ 64)))
  | id => Some id
  end.

(** The variables the launcher sets for the program. *)
Definition launch_environment (sock id token : str) : list (str * str) :=
  [(lit "AGENTVFS_SOCK", sock); (lit "AGENTVFS_RUNTIME_ID", id); (lit "AGENTVFS_RUNTIME_TOKEN", token);
   (lit "AGENTVFS_RUNTIME_GENERATION", lit "1")].

Definition create_request (id branch token command : str) (pid pgid : Z) : str :=
  lit "runtime.create {" ++ field "'runtime_id':" id ++ field ",'branch':" branch ++
  jt ",'root_pid':" ++ z_to_string pid ++ jt ",'process_group_id':" ++ z_to_string pgid ++
  field ",'command_ref':" (lit "argv:" ++ command) ++ field ",'control_token':" token ++
  jt ",'cooperative':true}".

Inductive WaitStatus : Type := Exited (code : Z) | Signaled (signal : Z) | OtherStatus.

(** What the launcher meets; [le_fork] is the child it forked. *)
Record LaunchEnv : Type := mkLaunchEnv {
  le_clock : option (N * N);
  le_pid : Z;
  le_random : option (N * N);
  le_fork : option Z;
  le_pgid : option Z;
  le_create : str -> result str;
  le_wait : option WaitStatus
}.

(** The launcher after the fork: the exit status and what was printed. *)
Definition launched (env : LaunchEnv) (a : LaunchArgs) (id token : str) (child : Z) : Z * option str :=
  let pgid := default child (le_pgid env) in
  let create_ok := ok_answer (le_create env (create_request id (la_branch a) token (default [] (head (la_cmd a))) child pgid)) in
  (match le_wait env with
   | None => 1
   | Some status =>
       if negb create_ok then 1
       else match status with Exited code => code | Signaled sig => 128 + sig | OtherStatus => 1 end
   end%Z, Some id).

Definition agentvfs_run (argv : list str) (env : LaunchEnv) : Z * option str :=
  match parse_args argv no_args with
  | Err _ => (2%Z, None)
  | Ok a =>
      if negb (args_complete a) then (2%Z, None)
      else
        match launch_id a (le_pid env) (le_clock env) with
        | None => (2%Z, None)
        | Some id =>
            match make_token (le_random env) with
            | None => (1%Z, None)
            | Some token =>
                match le_fork env with
                | None => (1%Z, None)
                | Some child => launched env a id token child
                end
            end
        end
  end.
