(* ===== verification/WireText.v ===== *)
(** Requests as they are written and read: the members of a request, among them
    numbers, which the daemon looks for by the quoted name alone. *)

From S2P Require Import Prelude Hashes KvCodec JsonText JsonGrammar Telemetry TelemetryProps Supervisor Peers ControlProtocol.

(** ** A request as a command and members *)

Definition request_text (cmd : string) (ms : list member) : str :=
  lit cmd ++ lit " " ++ lit "{" ++ join_with (lit ",") (member_json <$> ms) ++ lit "}".

Definition arguments (ms : list member) : str :=
  lit " " ++ lit "{" ++ join_with (lit ",") (member_json <$> ms) ++ lit "}".

Definition one_word (cmd : str) : bool := forallb (fun c => negb (is_space c)) cmd && negb (bool_decide (cmd = [])).

Lemma take_while_word w s : forallb (fun c => negb (is_space c)) w = true -> starts_with is_space s = true ->
  take_while (fun c => negb (is_space c)) (w ++ s) = w /\ skip_while (fun c => negb (is_space c)) (w ++ s) = s.
Proof.
  intros Hw Hs. induction w as [|c w IH]; cbn [app take_while skip_while].
  - destruct s as [|c s]; [done|]. change (is_space c = true) in Hs. cbn [take_while skip_while]. by rewrite Hs.
  - cbn [forallb] in Hw. apply andb_true_iff in Hw as [Hc Hw]. rewrite Hc. destruct (IH Hw) as [-> ->]. done.
Qed.

Lemma request_command cmd ms : one_word (lit cmd) = true ->
  next_word (request_text cmd ms) = (lit cmd, arguments ms).
Proof.
  intros [Hw Hne]%andb_true_iff. unfold next_word, request_text.
  change (lit " " ++ lit "{" ++ _) with (arguments ms).
  assert (skip_while is_space (lit cmd ++ arguments ms) = lit cmd ++ arguments ms) as ->.
  { destruct (lit cmd) as [|c w]; [done|]. cbn [forallb] in Hw. apply andb_true_iff in Hw as [Hc%negb_true_iff _].
    cbn [app skip_while]. by rewrite Hc. }
  by destruct (take_while_word (lit cmd) (arguments ms) Hw) as [-> ->].
Qed.

(** A member on one line. *)
Definition one_line (m : member) : Prop := (newline ∉ m.1) /\ (newline ∉ written m.2).

Lemma arguments_clean ms : Forall one_line ms -> newline ∉ arguments ms.
Proof.
  intros H. unfold arguments. rewrite !elem_of_app.
  intros [Hn|[Hn|[Hn|Hn]]]; [by apply lit_clean in Hn..| |by apply lit_clean in Hn].
  revert Hn. apply join_clean, Forall_fmap. eapply Forall_impl; [exact H|]. intros m [H1 H2]. by apply member_clean.
Qed.

Lemma line_of_clean s : newline ∉ s -> JsonText.line_of s = s.
Proof.
  intros H. unfold JsonText.line_of. induction s as [|c s IH]; [done|]. apply not_elem_of_cons in H as [Hc Hs].
  cbn [take_while]. rewrite bool_decide_false by done. cbn [negb]. by rewrite IH.
Qed.

Lemma arguments_object ms : ms <> [] -> Forall writable ms -> object_text ms (arguments ms).
Proof.
  intros Hne Hms. unfold arguments.
  apply (full_object (lit " ") [] [] ms (join_with (lit ",") (member_json <$> ms)));
    [by repeat constructor|constructor..|by apply members_written].
Qed.

(** The daemon reads each text member. *)
Lemma reads_text ms key v : ms <> [] -> Forall writable ms -> first_member key ms = JsonText.Found v ->
  extract_str (arguments ms) key = v.
Proof.
  intros Hne Hms Hf. unfold extract_str. rewrite (extract_str_exact ms) by by apply arguments_object. by rewrite Hf.
Qed.

(** ** Looking for a quoted name *)

Lemma escape_char_no_quote c : c <> quote -> quote ∉ escape_char c.
Proof.
  intros Hc. assert (bool_decide (c = quote) || bool_decide (quote ∉ escape_char c) = true) as H.
  { clear Hc. revert c. apply ascii_cases. by apply (forall_below 256). }
  apply orb_true_iff in H as [H|H]; by apply bool_decide_eq_true in H.
Qed.

Lemma escape_no_quote v : quote ∉ v -> quote ∉ json_escape v.
Proof.
  intros Hv Hq. unfold json_escape in Hq. apply list_elem_of_join in Hq as (l & Hq & Hl).
  apply list_elem_of_fmap in Hl as (c & -> & Hc). revert Hq. apply escape_char_no_quote. by intros ->.
Qed.

Lemma escape_inj v w : json_escape v = json_escape w -> v = w.
Proof.
  intros E. pose proof (escaped_reads_back v []) as H. rewrite E, escaped_reads_back in H. by injection H.
Qed.

Lemma has_prefix_quote k c s : c <> quote -> has_prefix (quoted k) (c :: s) = false.
Proof. intros Hc. unfold quoted. cbn [has_prefix]. by rewrite bool_decide_false by done. Qed.

Lemma find_no_quote k w s : quote ∉ w -> find_str (quoted k) (w ++ s) = find_str (quoted k) s.
Proof.
  induction w as [|c w IH]; [done|]. intros [Hc Hw]%not_elem_of_cons. cbn [app find_str].
  rewrite has_prefix_quote by done. by apply IH.
Qed.

(** A text up to its first quotation mark. *)
Lemma quote_inj k v s t : quote ∉ k -> quote ∉ v -> k ++ quote :: s = v ++ quote :: t -> k = v.
Proof.
  revert v. induction k as [|c k IH]; intros [|d v] Hk Hv; cbn [app]; [done|..].
  - intros [= <- _]. by destruct Hv; left.
  - intros [= -> _]. by destruct Hk; left.
  - intros [= -> E]. apply not_elem_of_cons in Hk as [_ Hk], Hv as [_ Hv]. f_equal. by apply (IH v).
Qed.

Lemma lit_no_quote s : forallb (fun c => negb (is_char quote c)) s = true -> quote ∉ s.
Proof. rewrite forallb_forall. intros H Hn%list_elem_of_In%H. by rewrite (proj2 (is_char_true quote quote)) in Hn. Qed.

(** A quoted text that is not the name is passed, closing mark included. *)
Lemma find_past_quoted k v c s : quote ∉ k -> quote ∉ v -> v <> k -> starts_with (is_char c) k = false -> k <> [] ->
  find_str (quoted k) (quoted v ++ c :: s) = find_str (quoted k) (c :: s).
Proof.
  intros Hk Hv Hne Hc Hnil.
  assert (quoted v ++ c :: s = quote :: v ++ quote :: c :: s) as -> by (unfold quoted; by rewrite <- app_comm_cons, <- app_assoc).
  assert (has_prefix (quoted k) (quote :: v ++ quote :: c :: s) = false) as Hp.
  { apply not_true_is_false. intros [t E]%has_prefix_spec. unfold quoted in E.
    rewrite <- app_comm_cons, <- app_assoc in E. injection E as E. cbn [app] in E. by apply quote_inj in E. }
  cbn [find_str]. rewrite Hp, find_no_quote by done. cbn [find_str].
  assert (has_prefix (quoted k) (quote :: c :: s) = false) as ->; [|done].
  unfold quoted. destruct k as [|h k]; [done|]. cbn [app has_prefix]. rewrite (bool_decide_true (quote = quote)) by done.
  cbn [andb]. rewrite bool_decide_false; [done|]. intros ->. cbn in Hc. by rewrite (proj2 (is_char_true c c)) in Hc.
Qed.

(** A name that is looked for. *)
Definition name_ok (k : str) : bool :=
  bool_decide (quote ∉ k) && bool_decide (":"%char ∉ k) && bool_decide (k <> []) &&
  negb (starts_with (is_char ":") k) && negb (starts_with (is_char ",") k) && negb (starts_with (is_char "}") k).

Lemma name_ok_facts k : name_ok k = true ->
  (quote ∉ k) /\ (":"%char ∉ k) /\ k <> [] /\ starts_with (is_char ":") k = false /\ starts_with (is_char ",") k = false /\
  starts_with (is_char "}") k = false.
Proof.
  unfold name_ok. rewrite !andb_true_iff, !negb_true_iff, !bool_decide_eq_true. tauto.
Qed.

(** A member that does not show the name in quotes. *)
Definition hides (key : str) (m : member) : Prop :=
  (quote ∉ m.1) /\ m.1 <> key /\
  match m.2 with JStr v => (quote ∉ v) /\ v <> key | JLiteral l => quote ∉ l end.

Lemma find_past_member key m s : name_ok key = true -> plain key = true -> hides key m ->
  find_str (quoted key) (member_json m ++ ","%char :: s) = find_str (quoted key) s.
Proof.
  intros (Hk & _ & Hnil & Hcolon & Hcomma & _)%name_ok_facts Hp (Hq & Hne & Hx). unfold member_json.
  rewrite <- !app_assoc. change (lit ":" ++ ?x) with (":"%char :: x). rewrite find_past_quoted by done.
  change (":"%char :: ?x) with (lit ":" ++ x). rewrite find_no_quote by by apply lit_no_quote.
  destruct (m.2) as [v|l]; cbn [written].
  - destruct Hx as [Hv Hvk]. unfold json_string. rewrite find_past_quoted.
    + change (","%char :: s) with (lit "," ++ s). by apply find_no_quote, lit_no_quote.
    + done.
    + by apply escape_no_quote.
    + intros E. apply bool_decide_eq_true in Hp. rewrite <- Hp in E. by apply escape_inj in E.
    + done.
    + done.
  - change (l ++ ","%char :: s) with (l ++ lit "," ++ s). rewrite app_assoc. apply find_no_quote.
    rewrite elem_of_app. intros [H|H]; [by apply Hx|]. by apply lit_no_quote in H.
Qed.

(** What follows a member. *)
Definition after_member (s : str) : Prop := exists c r, s = c :: r /\ (c = ","%char \/ c = "}"%char).

Lemma find_wire_member key x before after : name_ok key = true -> plain key = true -> Forall (hides key) before ->
  exists rest, after_member rest /\
    find_str (quoted key) (arguments (before ++ (key, x) :: after)) = Some (member_json (key, x) ++ rest).
Proof.
  intros Hk Hp Hb. unfold arguments.
  assert (forall s, find_str (quoted key) (lit " " ++ lit "{" ++ s) = find_str (quoted key) s) as Hstart.
  { intros s. rewrite app_assoc. by apply find_no_quote, lit_no_quote. }
  rewrite Hstart. clear Hstart. induction Hb as [|m before Hm _ IH].
  - exists (match after with [] => [] | _ => lit "," ++ join_with (lit ",") (member_json <$> after) end ++ lit "}").
    split; [destruct after; eexists _, _; (split; [reflexivity|]); auto|].
    cbn [app fmap list_fmap join_with]. rewrite <- app_assoc.
    assert (forall t, find_str (quoted key) (member_json (key, x) ++ t) = Some (member_json (key, x) ++ t)) as ->; [|by destruct after].
    intros t. unfold member_json. cbn [fst]. rewrite <- app_assoc.
    assert (forall u, find_str (quoted key) (quoted key ++ u) = Some (quoted key ++ u)) as Hu; [|apply Hu].
    intros u. destruct (quoted key ++ u) as [|c w] eqn:E; [by destruct key|]. cbn [find_str]. by rewrite <- E, has_prefix_app.
  - destruct IH as (rest & Hr & IH). exists rest. split; [done|]. rewrite <- IH. clear IH.
    cbn [app fmap list_fmap join_with].
    assert (exists m' l, before ++ (key, x) :: after = m' :: l) as (m' & l & ->) by (destruct before; eauto).
    cbn [fmap list_fmap]. rewrite <- !app_assoc. change (lit "," ++ ?z) with (","%char :: z). by rewrite find_past_member.
Qed.

(** ** Reading numbers *)

Lemma after_member_no_digit s : after_member s -> starts_with is_digit s = false.
Proof. by intros (c & r & -> & [->| ->]). Qed.

Lemma skip_blanks_number n s : skip_while is_blank (to_string n ++ s) = to_string n ++ s.
Proof.
  destruct (to_string_cons n) as (c & d & E & Hc). rewrite E. cbn [app skip_while].
  assert (implb (is_digit c) (negb (is_blank c)) = true) as H.
  { clear E Hc. revert c. apply ascii_cases. by apply (forall_below 256). }
  rewrite Hc in H. cbn [implb] in H. apply negb_true_iff in H. by rewrite H.
Qed.

Lemma find_colon k s : ":"%char ∉ k -> find_char ":"%char (quoted k ++ ":"%char :: s) = Some (length (quoted k)).
Proof.
  intros Hk. apply find_char_app. unfold quoted. rewrite elem_of_cons, elem_of_app, list_elem_of_singleton.
  intros [H|[H|H]]; [by vm_compute in H|by apply Hk|by vm_compute in H].
Qed.

(** The first member of the name, when the members before it do not show the
    name. *)
Lemma reads_number key n before after dflt :
  name_ok key = true -> plain key = true -> Forall (hides key) before -> (Z.of_N n <= LONG_MAX)%Z ->
  extract_int (arguments (before ++ (key, num n) :: after)) key dflt = Z.of_N n.
Proof.
  intros Hk Hp Hb Hn. pose proof (name_ok_facts key Hk) as (_ & Hcolon & _).
  destruct (find_wire_member key (num n) before after Hk Hp Hb) as (rest & Hr & Hf).
  unfold extract_int, after_key. rewrite Hf. cbn [mbind option_bind]. unfold member_json. cbn [fst snd written num].
  rewrite <- !app_assoc. change (lit ":" ++ ?x) with (":"%char :: x). rewrite find_colon by done. cbn [mbind option_bind].
  rewrite <- drop_drop, drop_app_length. change (drop 1 (":"%char :: ?x)) with x.
  rewrite skip_blanks_number, strtol_to_string by (done || by apply after_member_no_digit). done.
Qed.

(** A text that shows none of the names that the daemon looks for in quotes:
    those of numbers and flags. *)
Definition scanned_names : list str :=
  lit <$> ["pid"; "generation"; "template_pid"; "template_process_group_id"; "active_process_group_id"; "root_pid";
           "process_group_id"; "cooperative"]%string.

Definition quiet (v : str) : Prop := (quote ∉ v) /\ (v ∉ scanned_names).

#[export] Instance quiet_dec v : Decision (quiet v) := _.

Lemma quiet_hides k v key : quiet v -> key ∈ scanned_names -> (quote ∉ k) -> k <> key -> hides key (k, JStr v).
Proof. intros [Hq Hn] Hk Hk1 Hk2. split_and!; [done|done|]. cbn [snd]. split; [done|]. by intros ->. Qed.

Lemma number_hides k n key : (quote ∉ k) -> k <> key -> hides key (k, num n).
Proof.
  intros Hk Hne. split_and!; [done|done|]. cbn [snd num]. intros Hq. pose proof (to_string_digits n) as H.
  rewrite forallb_forall in H. apply list_elem_of_In, H in Hq. by vm_compute in Hq.
Qed.

Lemma z_to_string_pos z : (0 <= z)%Z -> z_to_string z = to_string (Z.to_N z).
Proof. intros H. unfold z_to_string. by rewrite (proj2 (Z.ltb_ge z 0)). Qed.

(** The first flag of the name, under the same condition. *)
Lemma reads_true key before after :
  name_ok key = true -> plain key = true -> Forall (hides key) before ->
  JsonText.extract_bool (arguments (before ++ (key, JLiteral (lit "true")) :: after)) key false = true.
Proof.
  intros Hk Hp Hb. pose proof (name_ok_facts key Hk) as (_ & Hcolon & _).
  destruct (find_wire_member key (JLiteral (lit "true")) before after Hk Hp Hb) as (rest & Hr & Hf).
  unfold JsonText.extract_bool, after_key. rewrite Hf. cbn [mbind option_bind]. unfold member_json. cbn [fst snd written].
  rewrite <- !app_assoc. change (lit ":" ++ ?x) with (":"%char :: x). rewrite find_colon by done. cbn [mbind option_bind].
  rewrite <- drop_drop, drop_app_length. change (drop 1 (":"%char :: ?x)) with x. reflexivity.
Qed.
