(* ===== verification/RuntimeWire.v ===== *)
(** The cooperative runtime and the daemon over the control socket: a runtime's
    requests are read as they were written, its template and its restored
    processes do what the supervisor decided, the launcher registers what it
    started, and a parked template ends when it is told or when the daemon is
    gone. *)

From S2P Require Import Prelude Hashes KvCodec JsonText JsonGrammar Telemetry TelemetryProps ObjectStore Codec Refs Checkpoint RuntimeState Supervisor SupervisorRuns ProcessControl Peers BranchMerge GcSweep BranchRouter RouterAnswers Handles Daemon RuntimeOps RuntimeProps CgroupWatch ControlProtocol ControlDemo ControlReplies ControlProps ControlSocket RuntimeClient WireText.

(** ** The requests as members *)

Definition boundary_members (rid token : str) (pid : Z) (generation : N) (kind : str) : list member :=
  [(lit "runtime_id", JStr rid); (lit "control_token", JStr token); (lit "pid", num (Z.to_N pid));
   (lit "generation", num generation); (lit "boundary_kind", JStr kind)].

Definition ready_members (rid token tid : str) (pid pgid : Z) (generation : N) : list member :=
  [(lit "runtime_id", JStr rid); (lit "control_token", JStr token); (lit "template_id", JStr tid);
   (lit "template_pid", num (Z.to_N pid)); (lit "template_process_group_id", num (Z.to_N pgid));
   (lit "generation", num generation)].

Definition poll_members (tid token : str) : list member :=
  [(lit "template_id", JStr tid); (lit "control_token", JStr token)].

Definition generation_members (rid token : str) (pid pgid : Z) (target : N) : list member :=
  [(lit "runtime_id", JStr rid); (lit "control_token", JStr token); (lit "pid", num (Z.to_N pid));
   (lit "active_process_group_id", num (Z.to_N pgid)); (lit "generation", num target)].

Definition create_members (id branch token command : str) (pid pgid : Z) : list member :=
  [(lit "runtime_id", JStr id); (lit "branch", JStr branch); (lit "root_pid", num (Z.to_N pid));
   (lit "process_group_id", num (Z.to_N pgid)); (lit "command_ref", JStr (lit "argv:" ++ command));
   (lit "control_token", JStr token); (lit "cooperative", JLiteral (lit "true"))].

Ltac as_members :=
  unfold request_text; cbn [fmap list_fmap join_with]; unfold member_json, field; cbn [fst snd written num];
  unfold json_string; rewrite <- !app_assoc; reflexivity.

Lemma boundary_text rid token pid generation kind : (0 <= pid)%Z ->
  boundary_request rid token pid generation kind =
  request_text "runtime.boundary" (boundary_members rid token pid generation kind).
Proof. intros H. unfold boundary_request, boundary_members. rewrite z_to_string_pos by done. as_members. Qed.

Lemma ready_text rid token tid pid pgid generation : (0 <= pid)%Z -> (0 <= pgid)%Z ->
  template_ready_request rid token tid pid pgid generation =
  request_text "runtime.template.ready" (ready_members rid token tid pid pgid generation).
Proof. intros H1 H2. unfold template_ready_request, ready_members. rewrite !z_to_string_pos by done. as_members. Qed.

Lemma poll_text tid token : poll_request tid token = request_text "runtime.template.poll" (poll_members tid token).
Proof. unfold poll_request, poll_members. as_members. Qed.

Lemma generation_text rid token pid pgid target : (0 <= pid)%Z -> (0 <= pgid)%Z ->
  generation_ready_request rid token pid pgid target =
  request_text "runtime.generation.ready" (generation_members rid token pid pgid target).
Proof. intros H1 H2. unfold generation_ready_request, generation_members. rewrite !z_to_string_pos by done. as_members. Qed.

Lemma create_text id branch token command pid pgid : (0 <= pid)%Z -> (0 <= pgid)%Z ->
  create_request id branch token command pid pgid =
  request_text "runtime.create" (create_members id branch token command pid pgid).
Proof. intros H1 H2. unfold create_request, create_members. rewrite !z_to_string_pos by done. as_members. Qed.

Lemma true_text : value_text (lit "true") (JLiteral (lit "true")).
Proof. split; [done|by left]. Qed.

Ltac members_ok :=
  repeat (apply Forall_cons; split); try apply Forall_nil_2; split; cbn [fst snd written num];
  first [by vm_compute | apply str_text | apply num_text | apply true_text | apply json_string_clean
        | apply to_string_clean | by apply lit_clean].

Lemma boundary_writable rid token pid g kind : Forall writable (boundary_members rid token pid g kind).
Proof. members_ok. Qed.
Lemma ready_writable rid token tid pid pgid g : Forall writable (ready_members rid token tid pid pgid g).
Proof. members_ok. Qed.
Lemma poll_writable tid token : Forall writable (poll_members tid token).
Proof. members_ok. Qed.
Lemma generation_writable rid token pid pgid g : Forall writable (generation_members rid token pid pgid g).
Proof. members_ok. Qed.
Lemma create_writable id branch token command pid pgid : Forall writable (create_members id branch token command pid pgid).
Proof. members_ok. Qed.

Lemma boundary_line rid token pid g kind : Forall one_line (boundary_members rid token pid g kind).
Proof. members_ok. Qed.
Lemma ready_line rid token tid pid pgid g : Forall one_line (ready_members rid token tid pid pgid g).
Proof. members_ok. Qed.
Lemma poll_line tid token : Forall one_line (poll_members tid token).
Proof. members_ok. Qed.
Lemma generation_line rid token pid pgid g : Forall one_line (generation_members rid token pid pgid g).
Proof. members_ok. Qed.
Lemma create_line id branch token command pid pgid : Forall one_line (create_members id branch token command pid pgid).
Proof. members_ok. Qed.

(** ** What the daemon reads *)

Definition command (line : str) : str := (next_word line).1.
Definition sent_arguments (line : str) : str := JsonText.line_of (next_word line).2.

Lemma request_parts cmd ms : one_word (lit cmd) = true -> Forall one_line ms ->
  command (request_text cmd ms) = lit cmd /\ sent_arguments (request_text cmd ms) = arguments ms.
Proof.
  intros Hc Hm. unfold command, sent_arguments. rewrite request_command by done. cbn [fst snd].
  split; [done|]. by apply line_of_clean, arguments_clean.
Qed.

(** Numbers that a [long] holds. *)
Definition is_long (z : Z) : Prop := (0 <= z <= LONG_MAX)%Z.

Ltac name_known := match goal with |- ?P => apply (bool_decide_unpack P) end; vm_compute; exact I.

Ltac hides_all :=
  repeat (apply Forall_cons; split); try apply Forall_nil_2;
  first [apply quiet_hides; [done|name_known..] | apply number_hides; name_known].

Lemma reads_long key z before after dflt :
  name_ok key = true -> plain key = true -> Forall (hides key) before -> is_long z ->
  extract_int (arguments (before ++ (key, num (Z.to_N z)) :: after)) key dflt = z.
Proof. intros Hk Hp Hb [H1 H2]. rewrite reads_number by (done || lia). lia. Qed.

Lemma reads_u64 key g before after :
  name_ok key = true -> plain key = true -> Forall (hides key) before -> is_long (Z.of_N g) ->
  to_u64 (extract_int (arguments (before ++ (key, num g) :: after)) key 0) = g.
Proof.
  intros Hk Hp Hb [H1 H2]. rewrite reads_number by done. unfold to_u64, LONG_MAX in *. rewrite Z.mod_small by lia. lia.
Qed.

(** The members of [ms] in turn: texts, or the number at place [i]. *)
Ltac texts ms := apply (reads_text ms); [done|first [solve [auto]|members_ok]|reflexivity].
Ltac long_at ms i := apply (reads_long _ _ (take i ms) (drop (S i) ms)); [by vm_compute|by vm_compute|hides_all|done].
Ltac u64_at ms i := apply (reads_u64 _ _ (take i ms) (drop (S i) ms)); [by vm_compute|by vm_compute|hides_all|done].

#[local] Hint Resolve boundary_writable ready_writable poll_writable generation_writable create_writable : core.

Section reading.
Context (rid token tid : str) (pid pgid : Z) (g : N).
Context (Hrid : quiet rid) (Htoken : quiet token) (Htid : quiet tid).
Context (Hpid : is_long pid) (Hpgid : is_long pgid) (Hg : is_long (Z.of_N g)).

Lemma boundary_read kind :
  let ms := boundary_members rid token pid g kind in let a := arguments ms in
  JsonText.extract_str a (lit "runtime_id") = rid /\ JsonText.extract_str a (lit "control_token") = token /\
  JsonText.extract_str a (lit "boundary_kind") = kind /\ extract_int a (lit "pid") (-1) = pid /\
  to_u64 (extract_int a (lit "generation") 0) = g.
Proof. intros ms a. split_and!; [texts ms..|long_at ms 2%nat|u64_at ms 3%nat]. Qed.

Lemma ready_read :
  let ms := ready_members rid token tid pid pgid g in let a := arguments ms in
  JsonText.extract_str a (lit "runtime_id") = rid /\ JsonText.extract_str a (lit "control_token") = token /\
  JsonText.extract_str a (lit "template_id") = tid /\ extract_int a (lit "template_pid") (-1) = pid /\
  extract_int a (lit "template_process_group_id") (-1) = pgid /\ to_u64 (extract_int a (lit "generation") 0) = g.
Proof. intros ms a. split_and!; [texts ms..|long_at ms 3%nat|long_at ms 4%nat|u64_at ms 5%nat]. Qed.

Lemma generation_read :
  let ms := generation_members rid token pid pgid g in let a := arguments ms in
  JsonText.extract_str a (lit "runtime_id") = rid /\ JsonText.extract_str a (lit "control_token") = token /\
  extract_int a (lit "pid") (-1) = pid /\ extract_int a (lit "active_process_group_id") (-1) = pgid /\
  to_u64 (extract_int a (lit "generation") 0) = g.
Proof. intros ms a. split_and!; [texts ms..|long_at ms 2%nat|long_at ms 3%nat|u64_at ms 4%nat]. Qed.

Lemma create_read branch cmd : quiet branch ->
  let ms := create_members rid branch token cmd pid pgid in let a := arguments ms in
  JsonText.extract_str a (lit "runtime_id") = rid /\ JsonText.extract_str a (lit "control_token") = token /\
  JsonText.extract_str a (lit "branch") = branch /\ JsonText.extract_str a (lit "command_ref") = lit "argv:" ++ cmd /\
  JsonText.extract_str a (lit "cwd") = [] /\ extract_int a (lit "root_pid") (-1) = pid /\
  extract_int a (lit "process_group_id") (-1) = pgid.
Proof.
  intros Hb ms a. split_and!; [texts ms..| |long_at ms 2%nat|long_at ms 3%nat].
  unfold JsonText.extract_str. rewrite (extract_str_exact ms); [done|]. apply arguments_object; [done|members_ok].
Qed.

End reading.

Lemma poll_read tid token : let a := arguments (poll_members tid token) in
  JsonText.extract_str a (lit "template_id") = tid /\ JsonText.extract_str a (lit "control_token") = token.
Proof. split; texts (poll_members tid token). Qed.

(** What a runtime sends is what the daemon reads: in each of its messages
    the command, the ids, the token and the numbers arrive as they were sent,
    for ids and tokens that hold no quotation mark and are not spelled like the
    name of a number. *)
Theorem runtime_messages_read_back rid token tid pid pgid g kind :
  quiet rid -> quiet token -> quiet tid -> is_long pid -> is_long pgid -> is_long (Z.of_N g) ->
  (let line := boundary_request rid token pid g kind in let a := sent_arguments line in
   command line = lit "runtime.boundary" /\
   JsonText.extract_str a (lit "runtime_id") = rid /\ JsonText.extract_str a (lit "control_token") = token /\
   JsonText.extract_str a (lit "boundary_kind") = kind /\ extract_int a (lit "pid") (-1) = pid /\
   to_u64 (extract_int a (lit "generation") 0) = g) /\
  (let line := template_ready_request rid token tid pid pgid g in let a := sent_arguments line in
   command line = lit "runtime.template.ready" /\
   JsonText.extract_str a (lit "runtime_id") = rid /\ JsonText.extract_str a (lit "control_token") = token /\
   JsonText.extract_str a (lit "template_id") = tid /\ extract_int a (lit "template_pid") (-1) = pid /\
   extract_int a (lit "template_process_group_id") (-1) = pgid /\ to_u64 (extract_int a (lit "generation") 0) = g) /\
  (let line := poll_request tid token in let a := sent_arguments line in
   command line = lit "runtime.template.poll" /\
   JsonText.extract_str a (lit "template_id") = tid /\ JsonText.extract_str a (lit "control_token") = token) /\
  (let line := generation_ready_request rid token pid pgid g in let a := sent_arguments line in
   command line = lit "runtime.generation.ready" /\
   JsonText.extract_str a (lit "runtime_id") = rid /\ JsonText.extract_str a (lit "control_token") = token /\
   extract_int a (lit "pid") (-1) = pid /\ extract_int a (lit "active_process_group_id") (-1) = pgid /\
   to_u64 (extract_int a (lit "generation") 0) = g).
Proof.
  intros Hr Ht Hi Hp Hg Hn. rewrite boundary_text by apply Hp. rewrite ready_text, generation_text by (apply Hp || apply Hg).
  rewrite poll_text. cbv zeta.
  destruct (request_parts "runtime.boundary" (boundary_members rid token pid g kind)) as [-> ->]; [done|apply boundary_line|].
  destruct (request_parts "runtime.template.ready" (ready_members rid token tid pid pgid g)) as [-> ->]; [done|apply ready_line|].
  destruct (request_parts "runtime.template.poll" (poll_members tid token)) as [-> ->]; [done|apply poll_line|].
  destruct (request_parts "runtime.generation.ready" (generation_members rid token pid pgid g)) as [-> ->];
    [done|apply generation_line|].
  split; [split; [done|by apply boundary_read]|]. split; [split; [done|by apply ready_read]|].
  split; [split; [done|apply poll_read]|]. split; [done|by apply generation_read].
Qed.

(** ** Requests over a connection *)

Section over_the_wire.
Context (blake3 : bytes -> Hash) (env : nat -> ControlEnv) (peer : PeerCredentials) (sock : str).
Context (Hsock : (length sock < sun_path_size)%nat).

Definition sent (line : str) (v : Server) : option (Server * result str) :=
  exchange (dispatch_handler blake3 env peer) sock line v.

Lemma dispatch_request cmd ms v a :
  one_word (lit cmd) = true -> Forall one_line ms -> runtime_command (lit cmd) = true ->
  dispatch_runtime blake3 (env 0%nat) peer (lit cmd) (arguments ms) v = Some a ->
  dispatch blake3 (env 0%nat) (request_text cmd ms) peer v =
    match pc_supported (ce_proc (env 0%nat)) with Some e => reply v (json_err e) | None => a end.
Proof.
  intros Hc Hm Hr Ha. unfold dispatch. rewrite request_command, Hr by done.
  destruct (pc_supported _); [done|]. by rewrite line_of_clean, Ha by by apply arguments_clean.
Qed.

(** What a program gets for a reply. *)
Definition got (out : str) : result str := if decide (line_length out <= kMaxLine) then Ok out else no_response.

Lemma sent_gets line v v' e out : line_ok line -> newline ∉ out ->
  dispatch blake3 (env 0%nat) line peer v = Some (Parsed (v', e, out)) -> sent line v = Some (v', got out).
Proof.
  intros Hl Hn Hd. unfold sent. apply exchange_answer; [done..| |done]. unfold dispatch_handler. by rewrite Hd.
Qed.

(** A handler's answer on the way to the program. *)
Definition delivered (a : answered) : option (Server * result str) :=
  match a with Some (Parsed (v', _, out)) => Some (v', got out) | _ => None end.

Definition one_line_reply (a : answered) : Prop := answer_ok (fun _ _ out => newline ∉ out) a.

Lemma sent_delivers line v a : line_ok line -> one_line_reply a -> dispatch blake3 (env 0%nat) line peer v = a ->
  sent line v = delivered a.
Proof.
  intros Hl Hr Hd. destruct a as [[[[v' e] out]| |]|]; cbn [delivered]; [by eapply sent_gets| | |];
    (assert (dispatch_handler blake3 env peer 0 line v = None) as Hn by (unfold dispatch_handler; by rewrite Hd);
     unfold sent, exchange; rewrite (serve_reads _ line 0 [] [] v) by apply Hl; cbn [app]; by rewrite Hn).
Qed.

End over_the_wire.

(** ** Replies as a runtime reads them *)

Lemma json_err_clean e : newline ∉ json_err e.
Proof.
  unfold json_err. rewrite !elem_of_app.
  intros [H|[H|[H|[H|[H|[H|H]]]]]]; first [by apply lit_clean in H|by revert H; apply quoted_clean, lit_clean|
    by revert H; apply quoted_clean, json_escape_clean].
Qed.

Lemma refused_not_ok e : ok_answer (got (json_err e)) = false.
Proof. unfold got. by case_decide. Qed.

Lemma refused_poll e failures : poll_step failures (got (json_err e)) = failed_poll failures.
Proof. unfold got. by case_decide. Qed.

Lemma refused_boundary e : exists msg, announced (got (json_err e)) = Fails msg.
Proof. unfold got. case_decide; unfold announced; eauto. Qed.

Lemma got_short out : line_length out <= kMaxLine -> got out = Ok out.
Proof. intros H. unfold got. by rewrite decide_True. Qed.

Lemma strtoull_to_string n s : n < 2 ^ 64 -> starts_with is_digit s = false -> strtoull (to_string n ++ s) = Some n.
Proof.
  intros Hn Hs. unfold strtoull. destruct (to_string_cons n) as (c & d & E & Hc).
  destruct (digit_facts c Hc) as (H1 & H2 & H3 & _).
  assert (skip_while is_space (to_string n ++ s) = to_string n ++ s) as -> by by rewrite E; cbn; rewrite H1.
  assert (starts_with (is_char "-") (to_string n ++ s) = false) as -> by by rewrite E; cbn.
  unfold skip_if. assert (starts_with (fun c => is_char "+" c || is_char "-" c) (to_string n ++ s) = false) as ->
    by by rewrite E; cbn; rewrite H2, H3.
  rewrite take_while_app by (done || apply to_string_digits). rewrite E, <- E, to_string_value. f_equal.
  unfold ULLONG_MAX. by destruct (N.ltb_spec (2 ^ 64 - 1) n); [lia|].
Qed.

Lemma line_clean_app a b : newline ∉ a -> newline ∉ b -> newline ∉ a ++ b.
Proof. intros Ha Hb [H|H]%elem_of_app; auto. Qed.

Lemma jt_clean q : forallb (fun c => negb (is_char newline c)) (jt q) = true -> newline ∉ jt q.
Proof. rewrite forallb_forall. intros H Hn%list_elem_of_In%H. by rewrite (proj2 (is_char_true newline newline)) in Hn. Qed.

Lemma field_clean k v : forallb (fun c => negb (is_char newline c)) (jt k) = true -> newline ∉ field k v.
Proof. intros H. apply line_clean_app; [by apply jt_clean|apply json_string_clean]. Qed.

Lemma poll_json_clean a : newline ∉ poll_json a.
Proof.
  destruct a as [|target|]; cbn [poll_json]; [by apply jt_clean| |by apply jt_clean].
  apply line_clean_app; [by apply jt_clean|]. apply line_clean_app; [apply to_string_clean|by apply lit_clean].
Qed.

(** What the supervisor answers to a poll, as the loop of the template takes
    it. *)
Definition poll_outcome (failures : N) (r : result TemplateAction) : PollStep :=
  match r with
  | Ok ActDrop => Leaves 0
  | Ok ActWait => Again 0
  | Ok (ActRestore target) => Restores target
  | Err _ => failed_poll failures
  end.

Lemma restore_read target : target < 2 ^ 64 ->
  got (poll_json (ActRestore target)) = Ok (poll_json (ActRestore target)) /\
  extract_uint64 (poll_json (ActRestore target)) (lit "target_generation") = Some target.
Proof.
  intros H. split.
  - apply got_short. cbn [poll_json]. rewrite !line_length_app. unfold line_length at 2.
    pose proof (to_string_digits_u64 target H). unfold kMaxLine. vm_compute (line_length (jt _)). vm_compute (line_length (lit _)). lia.
  - unfold extract_uint64.
    assert (at_colon (poll_json (ActRestore target)) (lit "target_generation") = Some (":"%char :: to_string target ++ lit "}")) as ->
      by reflexivity.
    cbn [mbind option_bind]. change (drop 1 (":"%char :: ?x)) with x.
    by rewrite skip_blanks_number, strtoull_to_string.
Qed.

Lemma poll_read_back failures a : (forall target, a = ActRestore target -> target < 2 ^ 64) ->
  poll_step failures (got (poll_json a)) = poll_outcome failures (Ok a).
Proof.
  intros H. destruct a as [|target|]; [reflexivity| |reflexivity]. destruct (restore_read target) as [-> E]; [by apply H|].
  unfold poll_step.
  assert (extract_bool (poll_json (ActRestore target)) (lit "ok") false = true) as -> by reflexivity.
  assert (extract_str (poll_json (ActRestore target)) (lit "action") = lit "restore") as -> by reflexivity.
  cbn [negb]. rewrite decide_False, decide_False, decide_True, E by done. done.
Qed.

(** *** A boundary that is answered *)

(** Text that is written as it is. *)
Definition clear (s : str) : bool := forallb (fun c => bool_decide (escape_char c = [c])) s.

Lemma clear_facts s : clear s = true -> json_escape s = s /\ (quote ∉ s).
Proof.
  induction s as [|c s IH]; [by intros _; split; [|apply not_elem_of_nil]|].
  intros [Hc%bool_decide_eq_true Hs]%andb_true_iff. destruct (IH Hs) as [E Hq].
  change (json_escape (c :: s)) with (escape_char c ++ json_escape s). rewrite Hc, E. split; [done|].
  rewrite not_elem_of_cons. split; [|done]. intros <-. by vm_compute in Hc.
Qed.

Lemma hex16_clear n : clear (hex16 n) = true /\ length (hex16 n) = 16%nat.
Proof.
  split; [|done]. unfold clear. rewrite forallb_forall. intros c Hc%list_elem_of_In. unfold hex16 in Hc.
  apply list_elem_of_join in Hc as (l & Hc & Hl). apply list_elem_of_fmap in Hl as (b & -> & _).
  assert (forallb (fun c => bool_decide (escape_char c = [c])) (byte_to_hex b) = true) as H.
  { clear Hc. revert b. apply ascii_cases. by apply (forall_below 256). }
  rewrite forallb_forall in H. by apply H, list_elem_of_In.
Qed.

Lemma made_id_clear prefix n : clear (lit prefix) = true -> clear (make_id prefix n) = true.
Proof. intros H. unfold make_id, clear. rewrite forallb_app, andb_true_iff. split; [done|apply hex16_clear]. Qed.

Definition snapshot_reply (operation template_id : str) : str :=
  jt "{'ok':true,'action':'snapshot'," ++ field "'operation_id':" operation ++ field ",'template_id':" template_id ++ lit "}".

(** The answer to a boundary that was released. *)
Lemma snapshot_read operation template_id :
  clear operation = true -> operation <> lit "template_id" -> clear template_id = true -> template_id <> [] ->
  line_length operation <= 100 -> line_length template_id <= 100 ->
  announced (got (snapshot_reply operation template_id)) = Snapshots template_id.
Proof.
  intros [Eo Ho]%clear_facts Hne [Et Ht]%clear_facts Hnil Hlo Hlt.
  assert (got (snapshot_reply operation template_id) = Ok (snapshot_reply operation template_id)) as ->.
  { apply got_short. unfold snapshot_reply, field, quoted. rewrite Eo, Et. rewrite !line_length_app.
    rewrite !(line_length_cons quote), !line_length_app. unfold kMaxLine.
    vm_compute (line_length (jt _)). vm_compute (line_length (lit _)). vm_compute (line_length [quote]). lia. }
  unfold announced.
  assert (extract_bool (snapshot_reply operation template_id) (lit "ok") false = true) as -> by reflexivity.
  assert (extract_str (snapshot_reply operation template_id) (lit "action") = lit "snapshot") as -> by reflexivity.
  cbn [negb]. rewrite decide_False, bool_decide_true by done. cbn [negb].
  set (before := [(lit "ok", JLiteral (lit "true")); (lit "action", JStr (lit "snapshot")); (lit "operation_id", JStr operation)]).
  destruct (find_wire_member (lit "template_id") (JStr template_id) before []) as (rest & _ & Hf); [by vm_compute..| |].
  { repeat (apply Forall_cons; split); try apply Forall_nil_2; (split; [name_known|]); (split; [name_known|]); cbn [snd];
      [name_known|split; name_known|done]. }
  assert (find_str (quoted (lit "template_id")) (snapshot_reply operation template_id) =
    Some (member_json (lit "template_id", JStr template_id) ++ rest)) as Hs.
  { rewrite <- Hf. rewrite <- (find_no_quote (lit "template_id") (lit " ")) by by apply lit_no_quote. f_equal.
    unfold snapshot_reply, arguments, before. cbn [app fmap list_fmap join_with]. unfold member_json, field. cbn [fst snd written].
    unfold json_string. rewrite <- !app_assoc. reflexivity. }
  assert (extract_str (snapshot_reply operation template_id) (lit "template_id") = template_id) as ->; [|by destruct template_id].
  unfold extract_str, at_colon. rewrite Hs. cbn [mbind option_bind]. unfold member_json. cbn [fst snd written].
  rewrite <- !app_assoc, drop_app_length. cbn [app]. unfold json_string. rewrite Et.
  change (find_char ":"%char (lit ":" ++ ?x)) with (Some 0%nat). cbn [mbind option_bind]. rewrite drop_0.
  unfold quoted. rewrite <- app_comm_cons.
  change (find_char quote (lit ":" ++ quote :: ?x)) with (Some 1%nat). cbn [mbind option_bind].
  change (drop (1 + 1) (lit ":" ++ quote :: ?x)) with x. rewrite <- app_assoc. cbn [app].
  rewrite find_char_app by done. cbn [mbind option_bind default from_option id]. by rewrite take_app_length.
Qed.

(** ** The template *)

Section followed.
Context (blake3 : bytes -> Hash) (env : nat -> ControlEnv) (peer : PeerCredentials) (sock : str).
Context (Hsock : (length sock < sun_path_size)%nat).
Let control := env 0%nat.

(** The daemon lets the connection speak for the template. *)
Definition poll_admitted (v : Server) (tid : str) : Prop :=
  pc_supported (ce_proc control) = None /\
  exists t, template_status (ce_proc control) tid (sv_sup v) = Ok t /\ require_peer_pid peer (ts_pid t) = Ok ().

Lemma poll_dispatched tid token v : tid <> [] ->
  exists a, dispatch blake3 control (poll_request tid token) peer v = a /\ one_line_reply a /\
  ((poll_admitted v tid /\
    let v1 := others control 0 v in let '(s, r) := template_poll tid token (sv_sup v1) in
    a = reply (set_sup s v1) (match r with Err e => json_err e | Ok x => poll_json x end)) \/
   (~ poll_admitted v tid /\ exists e, a = reply v (json_err e))).
Proof.
  intros Htid. eexists. split; [reflexivity|]. destruct (poll_read tid token) as [E1 E2].
  rewrite poll_text, (dispatch_request blake3 env peer _ _ _ (do_template_poll control peer (arguments (poll_members tid token)) v))
    by (done || apply poll_line). fold control.
  destruct (pc_supported (ce_proc control)) as [e|] eqn:Hs.
  { split; [apply json_err_clean|]. right. split; [by intros (? & _); congruence|eauto]. }
  unfold do_template_poll. rewrite E1, E2. destruct tid as [|c tid0]; [done|]. set (tid := c :: tid0) in *.
  destruct (template_status (ce_proc control) tid (sv_sup v)) as [t|e] eqn:Ht.
  2:{ split; [apply json_err_clean|]. right. split; [by intros (_ & t & ? & _); congruence|eauto]. }
  destruct (require_peer_pid peer (ts_pid t)) as [[]|e] eqn:Hp.
  2:{ split; [apply json_err_clean|]. right. split; [by intros (_ & t' & ? & ?); congruence|eauto]. }
  destruct (template_poll tid token _) as [s r]. split.
  - destruct r; [apply poll_json_clean|apply json_err_clean].
  - left. split; [by split; eauto|]. by destruct r.
Qed.

(** A parked template does what the supervisor decided: the answer its loop
    acts on is that of the supervisor's poll, made on the state the other
    connections left, and a template the daemon does not recognise counts a
    failure and changes nothing. *)
Theorem template_follows_supervisor tid token v v' answer :
  tid <> [] -> line_ok (poll_request tid token) ->
  (forall target, (template_poll tid token (sv_sup (others control 0 v))).2 = Ok (ActRestore target) -> target < 2 ^ 64) ->
  sent blake3 env peer sock (poll_request tid token) v = Some (v', answer) ->
  (poll_admitted v tid /\
   v' = set_sup (template_poll tid token (sv_sup (others control 0 v))).1 (others control 0 v) /\
   forall failures, poll_step failures answer = poll_outcome failures (template_poll tid token (sv_sup (others control 0 v))).2) \/
  (~ poll_admitted v tid /\ v' = v /\ forall failures, poll_step failures answer = failed_poll failures).
Proof.
  intros Htid Hl Ht. destruct (poll_dispatched tid token v Htid) as (a & Hd & Hc & Ha).
  rewrite (sent_delivers blake3 env peer sock Hsock _ _ a) by done.
  destruct Ha as [[Hadm Ha]|[Hadm [e ->]]].
  - cbv zeta in Ha. destruct (template_poll tid token _) as [s r]. rewrite Ha. cbn [fst snd] in *.
    unfold delivered, reply; intros [= <- <-]. left. split; [done|]. split; [done|]. intros failures. destruct r as [x|e]; [|by apply refused_poll].
    apply poll_read_back. intros target ->. by apply Ht.
  - unfold delivered, reply; intros [= <- <-]. right. split; [done|]. split; [done|]. intros failures. apply refused_poll.
Qed.

(** ** The restored process *)

Definition generation_admitted (v : Server) (rid : str) (pid pgid : Z) : Prop :=
  pc_supported (ce_proc control) = None /\
  exists t, restore_template_status (ce_proc control) rid (sv_sup v) = Ok t /\ ts_alive t = true /\
    require_generation_peer (ce_table control) peer pid pgid t = Ok ().

Lemma generation_dispatched rid token pid pgid g v :
  rid <> [] -> quiet rid -> quiet token -> is_long pid -> is_long pgid -> is_long (Z.of_N g) ->
  exists a, dispatch blake3 control (generation_ready_request rid token pid pgid g) peer v = a /\ one_line_reply a /\
  ((generation_admitted v rid pid pgid /\
    let v1 := others control 0 v in let '(s, r) := generation_ready rid token pid pgid g (sv_sup v1) in
    a = reply (set_sup s v1) (match r with Err e => json_err e | Ok _ => jt "{'ok':true}" end)) \/
   (~ generation_admitted v rid pid pgid /\ exists e, a = reply v (json_err e))).
Proof.
  intros Hrid Hr Htk Hp Hg Hn. eexists. split; [reflexivity|].
  destruct (generation_read rid token pid pgid g Hr Htk Hp Hg Hn) as (E1 & E2 & E3 & E4 & E5).
  rewrite generation_text by (apply Hp || apply Hg).
  rewrite (dispatch_request blake3 env peer _ _ _ (do_generation_ready control peer (arguments (generation_members rid token pid pgid g)) v))
    by (done || apply generation_line). fold control.
  destruct (pc_supported (ce_proc control)) as [e|] eqn:Hs.
  { split; [apply json_err_clean|]. right. split; [by intros (? & _); congruence|eauto]. }
  unfold do_generation_ready. rewrite E1, E2, E3, E4, E5. destruct rid as [|c rid0]; [done|]. set (rid := c :: rid0) in *.
  destruct (restore_template_status (ce_proc control) rid (sv_sup v)) as [t|e] eqn:Ht.
  2:{ split; [apply json_err_clean|]. right. split; [by intros (_ & t & ? & _); congruence|eauto]. }
  destruct (ts_alive t) eqn:Halive; cbn [negb].
  2:{ split; [apply json_err_clean|]. right. split; [|unfold refuse; eauto]. intros (_ & t' & ? & ? & _). congruence. }
  destruct (require_generation_peer _ peer pid pgid t) as [[]|e] eqn:Hq.
  2:{ split; [apply json_err_clean|]. right. split; [by intros (_ & t' & ? & _ & ?); congruence|eauto]. }
  destruct (generation_ready rid token pid pgid g _) as [s r]. split.
  - destruct r; [by apply jt_clean|apply json_err_clean].
  - left. split; [by split; eauto|]. by destruct r.
Qed.

(** The runtime's active process. *)
Definition active_is (s : Supervisor) (rid : str) (pid pgid : Z) (g : N) : Prop :=
  exists r, runtimes s !! rid = Some r /\ rt_root_pid r = pid /\ rt_pgid r = pgid /\ rt_generation r = g.


(** ** The boundary *)

Definition boundary_admitted (v : Server) (rid : str) (pid : Z) (g : N) : Prop :=
  pc_supported (ce_proc control) = None /\
  exists st, Supervisor.status (ce_proc control) rid (sv_sup v) = Ok st /\
    require_runtime_peer (ce_table control) peer pid st g = Ok ().

(** What the program is told about an action of the supervisor. *)
Definition tells (r : result BoundaryAction) (x : Announced) : Prop :=
  match r with
  | Ok a => if decide (act a = lit "error") then exists msg, x = Fails msg else x = Snapshots (act_template a)
  | Err _ => exists msg, x = Fails msg
  end.

(** Operations are named by the supervisor. *)
Definition operations_named (s : Supervisor) : Prop :=
  forall id b, boundaries s !! id = Some b -> exists k, bd_operation b = make_id "op-" k.

(** The outcome of an admitted boundary at the supervisor: not waited for, or
    waited for at most [timeout]. *)
Definition boundary_outcome (rid token : str) (pid : Z) (g : N) (kind : str) (timeout : N) (v v' : Server)
    (x : Announced) : Prop :=
  let v1 := others control 0 v in
  let '(s, r) := observe_boundary rid token pid g (or_default kind "manual") (sv_sup v1) in
  match r with
  | Err e => v' = set_sup s v1 /\
      (if decide (e = lit "no pending snapshot") then x = Continues else exists msg, x = Fails msg)
  | Ok id =>
      let v2 := ce_wait control timeout (set_sup s v1) in
      let '(s2, r2) := wait_boundary_action id (sv_sup v2) in
      v' = set_sup s2 v2 /\ (sup_ok (sv_sup v2) -> operations_named (sv_sup v2) -> tells r2 x)
  end.

Lemma made_id_short prefix k : (length (lit prefix) <= 84)%nat -> line_length (make_id prefix k) <= 100.
Proof.
  intros H. unfold make_id. rewrite line_length_app. unfold line_length. pose proof (proj2 (hex16_clear k)). lia.
Qed.

Lemma waited_reply id timeout v :
  exists v2 out, boundary_observed_at control id timeout v = reply v2 out /\ (newline ∉ out) /\
    let v1 := ce_wait control timeout v in let '(s, r) := wait_boundary_action id (sv_sup v1) in
    v2 = set_sup s v1 /\ (sup_ok (sv_sup v1) -> operations_named (sv_sup v1) -> tells r (announced (got out))).
Proof.
  unfold boundary_observed_at. cbv zeta. set (v1 := ce_wait control timeout v).
  assert (forall s a, wait_boundary_action id (sv_sup v1) = (s, Ok a) ->
    exists b, boundaries (sv_sup v1) !! id = Some b /\ bd_action b = Some a) as Hb.
  { intros s a. unfold wait_boundary_action. destruct (boundaries (sv_sup v1) !! id) as [b|]; [|done].
    destruct (bd_action b) eqn:E; [|done]. intros [= _ <-]. by exists b. }
  destruct (wait_boundary_action id (sv_sup v1)) as [s [a|e]] eqn:Ew.
  2:{ eexists _, _. split; [reflexivity|]. split; [apply json_err_clean|]. split; [done|]. intros _ _. apply refused_boundary. }
  unfold tells. destruct (decide (act a = lit "error")).
  { eexists _, _. split; [reflexivity|]. split; [apply json_err_clean|]. split; [done|]. intros _ _. apply refused_boundary. }
  exists (set_sup s v1), (snapshot_reply (act_operation a) (act_template a)). split; [done|]. split.
  { unfold snapshot_reply. apply line_clean_app; [by apply jt_clean|].
    apply line_clean_app; [by apply field_clean|]. apply line_clean_app; [by apply field_clean|by apply lit_clean]. }
  split; [done|]. intros Hok Hops. destruct (Hb s a eq_refl) as (b & Hl & Ha).
  destruct (bo_action _ _ _ _ _ (so_boundaries _ Hok id b Hl) a Ha) as (Eo & [(_ & _ & _ & k & _ & _ & Et)|[? _]]); [|done].
  destruct (Hops id b Hl) as [j Ej]. rewrite Eo, Ej, Et.
  apply snapshot_read; [by apply made_id_clear|done|by apply made_id_clear|apply make_id_ne|apply made_id_short; cbn; lia..].
Qed.

Lemma boundary_sent rid token pid g kind v v' answer :
  rid <> [] -> quiet rid -> quiet token -> is_long pid -> is_long (Z.of_N g) ->
  line_ok (boundary_request rid token pid g kind) ->
  sent blake3 env peer sock (boundary_request rid token pid g kind) v = Some (v', answer) ->
  (boundary_admitted v rid pid g /\
   exists timeout, boundary_outcome rid token pid g kind timeout v v' (announced answer)) \/
  (~ boundary_admitted v rid pid g /\ v' = v /\ exists msg, announced answer = Fails msg).
Proof.
  intros Hrid Hr Htk Hp Hn Hl. destruct (boundary_read rid token pid g Hr Htk Hp Hn kind) as (E1 & E2 & E3 & E4 & E5).
  rewrite boundary_text in * by apply Hp. set (ms := boundary_members rid token pid g kind) in *.
  assert (forall a, one_line_reply a -> match pc_supported (ce_proc control) with Some e => reply v (json_err e)
    | None => do_runtime_boundary control peer (arguments ms) v end = a ->
    sent blake3 env peer sock (request_text "runtime.boundary" ms) v = delivered a) as Hsent.
  { intros a Ha E. apply sent_delivers; [done..|]. rewrite <- E. unfold control.
    apply dispatch_request; [done|apply boundary_line|done..]. }
  assert (forall e, ~ boundary_admitted v rid pid g -> delivered (reply v (json_err e)) = Some (v', answer) ->
    ~ boundary_admitted v rid pid g /\ v' = v /\ exists msg, announced answer = Fails msg) as Hrefused.
  { intros e Hna. unfold delivered, reply. intros [= <- <-]. split; [done|]. split; [done|]. apply refused_boundary. }
  destruct (pc_supported (ce_proc control)) as [e|] eqn:Hs.
  { rewrite (Hsent (reply v (json_err e))) by (done || apply json_err_clean). intros H. right. revert H. apply Hrefused.
    intros [? _]. congruence. }
  unfold do_runtime_boundary in Hsent. rewrite E1, E2, E3, E4, E5 in Hsent. destruct rid as [|c rid0]; [done|].
  set (rid := c :: rid0) in *.
  destruct (Supervisor.status (ce_proc control) rid (sv_sup v)) as [st|e] eqn:Hst.
  2:{ rewrite (Hsent (reply v (json_err e))) by (done || apply json_err_clean). intros H. right. revert H. apply Hrefused.
      intros (_ & st & ? & _). congruence. }
  destruct (require_runtime_peer (ce_table control) peer pid st g) as [[]|e] eqn:Hq.
  2:{ rewrite (Hsent (reply v (json_err e))) by (done || apply json_err_clean). intros H. right. revert H. apply Hrefused.
      intros (_ & st' & ? & ?). congruence. }
  set (timeout := sanitize_timeout_ms _ _) in Hsent. intros H. left. split; [by split; eauto|]. exists timeout. revert H.
  unfold boundary_outcome. destruct (observe_boundary rid token pid g _ _) as [s [id|e]].
  - destruct (waited_reply id timeout (set_sup s (others control 0 v))) as (v2 & out & Ew & Hc & Hout).
    rewrite (Hsent (reply v2 out)) by done. unfold delivered, reply. intros [= <- <-]. done.
  - case_decide.
    + rewrite (Hsent (reply (set_sup s (others control 0 v)) (jt "{'ok':true,'action':'continue'}"))) by (done || by apply jt_clean).
      unfold delivered, reply. intros [= <- <-]. done.
    + rewrite (Hsent (reply (set_sup s (others control 0 v)) (json_err e))) by (done || apply json_err_clean).
      unfold delivered, reply. intros [= <- <-]. split; [done|]. apply refused_boundary.
Qed.

(** At a boundary the program is told what the supervisor decided: to go on
    when no snapshot is pending, to fork the template the supervisor named when
    its snapshot was released, and a failure otherwise; a program the daemon
    does not recognise as the runtime's active process is refused and changes
    nothing. *)
Theorem boundary_follows_supervisor rid token pid g kind v v' answer :
  rid <> [] -> quiet rid -> quiet token -> is_long pid -> is_long (Z.of_N g) ->
  line_ok (boundary_request rid token pid g kind) ->
  sent blake3 env peer sock (boundary_request rid token pid g kind) v = Some (v', answer) ->
  (boundary_admitted v rid pid g /\
   exists timeout, boundary_outcome rid token pid g kind timeout v v' (announced answer)) \/
  (~ boundary_admitted v rid pid g /\ v' = v /\ exists msg, announced answer = Fails msg).
Proof. apply boundary_sent. Qed.

(** ** The launcher *)

(** The runtime the launcher asks for. *)
Definition started (id branch token command : str) (pid pgid : Z) : Runtime :=
  mkRuntime id branch pid pgid 1 (lit "argv:" ++ command) [] true token [] no_snapshot [] no_restore.

Lemma created_ok x : got (snprintf 160 (jt "{'ok':true," ++ x)) = Ok (snprintf 160 (jt "{'ok':true," ++ x)) /\
  ok_answer (got (snprintf 160 (jt "{'ok':true," ++ x))) = true.
Proof.
  assert (got (snprintf 160 (jt "{'ok':true," ++ x)) = Ok (snprintf 160 (jt "{'ok':true," ++ x))) as E; [|by rewrite E].
  apply got_short. unfold snprintf, line_length, kMaxLine. rewrite length_take. lia.
Qed.

Lemma take_clean n s : newline ∉ s -> newline ∉ snprintf n s.
Proof. intros H Hn. apply H. by eapply subseteq_take. Qed.

(** A case in which the command is refused before anything changes. *)
Ltac refuse_create Hsent Hrefused :=
  match type of Hsent with
  | forall a, _ -> reply ?w (json_err ?e) = a -> _ =>
      rewrite (Hsent (reply w (json_err e))) by (done || apply json_err_clean); intros H; right; revert H; apply Hrefused; auto
  | forall a, _ -> refuse ?w ?e = a -> _ =>
      rewrite (Hsent (refuse w e)) by (done || apply json_err_clean); intros H; right; revert H; apply Hrefused; auto
  end.

Lemma registration_sent id branch token cmd pid pgid v v' answer :
  id <> [] -> branch <> [] -> token <> [] -> quiet id -> quiet branch -> quiet token -> (quote ∉ cmd) -> is_long pid -> is_long pgid ->
  line_ok (create_request id branch token cmd pid pgid) ->
  sent blake3 env peer sock (create_request id branch token cmd pid pgid) v = Some (v', answer) ->
  (ok_answer answer = true /\ runtimes (sv_sup v') !! id = Some (started id branch token cmd pid pgid) /\
   runtimes (sv_sup (others control 0 v)) !! id = None /\
   require_launcher_peer (ce_table control) peer pid pgid = Ok ()) \/
  (ok_answer answer = false /\ (sv_sup v' = sv_sup v \/ sv_sup v' = sv_sup (others control 0 v))).
Proof.
  intros Hid Hbr Htk Qi Qb Qt Hcmd Hp Hg Hl.
  destruct (create_read id token pid pgid Qi Hp Hg branch cmd Qb) as (E1 & E2 & E3 & E4 & E5 & E6 & E7).
  rewrite create_text in * by (apply Hp || apply Hg). set (ms := create_members id branch token cmd pid pgid) in *.
  assert (JsonText.extract_bool (arguments ms) (lit "cooperative") false = true) as E8.
  { apply (reads_true (lit "cooperative") (take 6 ms) []); [by vm_compute..|].
    repeat (apply Forall_cons; split); try apply Forall_nil_2;
      first [apply quiet_hides; [done|name_known..]|apply number_hides; name_known|idtac].
    split; [name_known|]. split; [name_known|]. cbn [snd]. split; [|done]. apply not_elem_of_app. split; [by apply lit_no_quote|done]. }
  assert (forall a, one_line_reply a -> match pc_supported (ce_proc control) with Some e => reply v (json_err e)
    | None => do_runtime_create control peer (arguments ms) v end = a ->
    sent blake3 env peer sock (request_text "runtime.create" ms) v = delivered a) as Hsent.
  { intros a Ha E. apply sent_delivers; [done..|]. rewrite <- E. unfold control.
    apply dispatch_request; [done|apply create_line|done..]. }
  assert (forall w e, (sv_sup w = sv_sup v \/ sv_sup w = sv_sup (others control 0 v)) ->
    delivered (reply w (json_err e)) = Some (v', answer) -> ok_answer answer = false /\
      (sv_sup v' = sv_sup v \/ sv_sup v' = sv_sup (others control 0 v))) as Hrefused.
  { intros w e Hw. unfold delivered, reply. intros [= <- <-]. split; [apply refused_not_ok|done]. }
  destruct (pc_supported (ce_proc control)) as [e|] eqn:Hs; [refuse_create Hsent Hrefused|].
  unfold do_runtime_create in Hsent. rewrite E1, E2, E3, E4, E5, E6, E7, E8 in Hsent.
  cbn [cq_id cq_branch cq_token cq_root_pid cq_pgid] in Hsent.
  destruct (decide (id = [])); [done|]. replace (or_default branch "main") with branch in Hsent by by destruct branch.
  match type of Hsent with context [bool_decide (is_Some ?x)] => destruct (bool_decide (is_Some x)) end;
    cbn [negb] in Hsent; [|refuse_create Hsent Hrefused].
  destruct (decide (token = [])); [done|].
  destruct (process_live (ce_table control) pid); cbn [negb] in Hsent; [|refuse_create Hsent Hrefused].
  destruct (pgid <=? 0)%Z; [refuse_create Hsent Hrefused|].
  destruct (require_launcher_peer (ce_table control) peer pid pgid) as [[]|e] eqn:Hq; [|refuse_create Hsent Hrefused].
  unfold register_runtime in Hsent. rewrite Hs in Hsent. cbn [cq_id] in Hsent. destruct id as [|c id0]; [done|].
  set (id := c :: id0) in *. cbv zeta iota beta in Hsent.
  destruct (runtimes (sv_sup (others control 0 v)) !! id) as [r|] eqn:Er.
  { refuse_create Hsent Hrefused. }
  set (w := set_sup _ _) in Hsent. set (x := field "'runtime_id':" id ++ jt ",'generation':1}").
  rewrite (Hsent (reply w (snprintf 160 (jt "{'ok':true," ++ x)))).
  - unfold delivered, reply. intros [= <- <-]. left. split; [apply created_ok|]. split; [|done].
    unfold w. cbn. by rewrite lookup_insert_eq.
  - apply take_clean. apply line_clean_app; [by apply jt_clean|]. apply line_clean_app; [by apply field_clean|by apply jt_clean].
  - done.
Qed.

(** The launcher's exit status for a program that was registered. *)
Definition program_status (w : option WaitStatus) : Z :=
  match w with
  | Some (Exited code) => code
  | Some (Signaled sig) => 128 + sig
  | _ => 1
  end%Z.

(** The launcher registers the program it started: either the daemon knows a
    new runtime with the id, branch, token, process and group the launcher sent
    and the launcher ends as the program does, or nothing changed at the
    supervisor and the launcher ends with status 1. In both cases it prints the
    id. *)
Theorem launcher_registers_its_program le a id token child cmd rest v v' answer :
  la_cmd a = cmd :: rest -> le_create le = (fun _ => answer) ->
  let pgid := default child (le_pgid le) in let line := create_request id (la_branch a) token cmd child pgid in
  id <> [] -> la_branch a <> [] -> token <> [] -> quiet id -> quiet (la_branch a) -> quiet token -> (quote ∉ cmd) ->
  is_long child -> is_long pgid -> line_ok line ->
  sent blake3 env peer sock line v = Some (v', answer) ->
  (runtimes (sv_sup v') !! id = Some (started id (la_branch a) token cmd child pgid) /\
   runtimes (sv_sup (others control 0 v)) !! id = None /\
   launched le a id token child = (program_status (le_wait le), Some id)) \/
  ((sv_sup v' = sv_sup v \/ sv_sup v' = sv_sup (others control 0 v)) /\ launched le a id token child = (1%Z, Some id)).
Proof.
  intros Ha Hle pgid line Hid Hb Htk Qi Qb Qt Hc Hp Hg Hl Hs.
  destruct (registration_sent id (la_branch a) token cmd child pgid v v' answer) as [(Hok & Hr & Hn & _)|[Hok Hsame]];
    [done..| |]; [left|right]; unfold launched; rewrite Ha, Hle; change (default [] (head (cmd :: rest))) with cmd; fold pgid; rewrite Hok; cbn [negb].
  - split_and!; [done..|]. by destruct (le_wait le) as [[]|].
  - split; [done|]. by destruct (le_wait le) as [[]|].
Qed.

(** A variable that the launcher set. *)
Fixpoint variable (name : string) (vars : list (str * str)) : option str :=
  match vars with
  | [] => None
  | (k, x) :: rest => if decide (k = lit name) then Some x else variable name rest
  end.

(** The started program at a boundary. *)
Definition program_env (id token : str) (pid : Z) (boundary : str -> result str) (pipe : option str) (fork : Fork)
    (ready : str -> result str) (rounds : list PollRound) : ClientEnv :=
  let vars := launch_environment sock id token in
  mkClientEnv (variable "AGENTVFS_SOCK" vars) (variable "AGENTVFS_RUNTIME_ID" vars) (variable "AGENTVFS_RUNTIME_TOKEN" vars)
    pid boundary pipe fork ready rounds.

Definition program_generation (id token : str) : N :=
  load_initial_generation (variable "AGENTVFS_RUNTIME_GENERATION" (launch_environment sock id token)).

(** A program that was launched and registered passes its boundaries: while
    no snapshot is pending, the call returns to the program at once, in the
    process the launcher started and with the generation it set. *)
Theorem launched_program_passes_its_boundary id branch token cmd pid pgid kind error_len pipe fork ready rounds v v' answer :
  sock <> [] -> id <> [] -> token <> [] -> quiet id -> quiet token -> is_long pid ->
  line_ok (boundary_request id token pid 1 (default [] kind)) ->
  pc_supported (ce_proc control) = None ->
  runtimes (sv_sup v) !! id = Some (started id branch token cmd pid pgid) ->
  runtimes (sv_sup (others control 0 v)) !! id = Some (started id branch token cmd pid pgid) ->
  at_other_end peer pid -> process_group_for_pid (ce_table control) pid = Some pgid ->
  sent blake3 env peer sock (boundary_request id token pid 1 (default [] kind)) v = Some (v', answer) ->
  agentvfs_runtime_boundary (program_env id token pid (fun _ => answer) pipe fork ready rounds) (program_generation id token)
    kind error_len = Returns 0 None 1 /\ sv_sup v' = sv_sup (others control 0 v).
Proof.
  intros Hsk Hid Htk Qi Qt Hp Hl Hsup Hr Hr1 Hend Hgrp Hs.
  apply boundary_sent in Hs as [(_ & timeout & Ho)|(Hna & _)]; [|exfalso; apply Hna|done..].
  2:{ split; [done|]. unfold Supervisor.status. rewrite Hr. eexists. split; [reflexivity|]. unfold require_runtime_peer.
      assert (require_peer_pid peer pid = Ok ()) as ->.
      { unfold require_peer_pid, peer_available_or_trusted. destruct Hend as [->|(-> & H1 & H2)]; [done|].
        destruct (trusted peer); [done|]. rewrite H2. apply Z.ltb_lt in H1. rewrite H1. cbn [andb rbind]. by rewrite Z.eqb_refl. }
      cbn [rbind]. destruct (trusted peer); [done|]. cbn [rs_root_pid build_status rt_root_pid started]. rewrite Z.eqb_refl.
      cbn [negb rs_generation rt_generation rs_pgid rt_pgid]. by rewrite Hgrp, Z.eqb_refl. }
  revert Ho. unfold boundary_outcome, observe_boundary. rewrite Hr1.
  assert (token_ok (started id branch token cmd pid pgid) token = true) as -> by (by apply token_ok_iff).
  cbn [negb started rt_snapshot no_snapshot has_pending_snapshot orb]. rewrite decide_True by done. intros [-> Hc].
  split; [|by destruct (others control 0 v) as [[]]].
  unfold agentvfs_runtime_boundary, program_env, program_generation, launch_environment. cbn [cl_sock cl_runtime_id cl_token cl_boundary].
  assert (given (Some sock) = Some sock) as Gs by (by destruct sock). assert (given (Some id) = Some id) as Gi by (by destruct id).
  assert (given (Some token) = Some token) as Gt by (by destruct token).
  assert (forall a b c d, variable "AGENTVFS_SOCK" [(lit "AGENTVFS_SOCK", a); (lit "AGENTVFS_RUNTIME_ID", b);
    (lit "AGENTVFS_RUNTIME_TOKEN", c); (lit "AGENTVFS_RUNTIME_GENERATION", d)] = Some a) as -> by reflexivity.
  assert (forall a b c d, variable "AGENTVFS_RUNTIME_ID" [(lit "AGENTVFS_SOCK", a); (lit "AGENTVFS_RUNTIME_ID", b);
    (lit "AGENTVFS_RUNTIME_TOKEN", c); (lit "AGENTVFS_RUNTIME_GENERATION", d)] = Some b) as -> by reflexivity.
  assert (forall a b c d, variable "AGENTVFS_RUNTIME_TOKEN" [(lit "AGENTVFS_SOCK", a); (lit "AGENTVFS_RUNTIME_ID", b);
    (lit "AGENTVFS_RUNTIME_TOKEN", c); (lit "AGENTVFS_RUNTIME_GENERATION", d)] = Some c) as -> by reflexivity.
  rewrite Gs, Gi, Gt, Hc. reflexivity.
Qed.

End followed.

(** ** The loop of the template *)

Section loop.
Context (rid token tid : str).

Definition answered_to (r : PollRound) : result str := pr_poll r (poll_request tid token).

(** A round whose poll failed; one that tells the template to leave; one whose
    restored process is followed and accepted. *)
Definition failing (r : PollRound) : Prop := ok_answer (answered_to r) = false.
Definition leaving (r : PollRound) : Prop := ok_answer (answered_to r) = true /\ poll_step 0 (answered_to r) = Leaves 0.
Definition restoring (r : PollRound) (pid pgid : Z) (target : N) : Prop :=
  poll_step 0 (answered_to r) = Restores target /\ pr_fork r = InChild pid pgid.

(** A step looks at the failures so far only when it fails. *)
Lemma step_cases n answer :
  (ok_answer answer = false /\ poll_step n answer = failed_poll n) \/
  (ok_answer answer = true /\ poll_step n answer = poll_step 0 answer /\
     (poll_step 0 answer = Again 0 \/ poll_step 0 answer = Leaves 0 \/ exists target, poll_step 0 answer = Restores target)).
Proof.
  unfold ok_answer, poll_step. destruct answer as [resp|e]; [|by left]. destruct (extract_bool resp (lit "ok") false); [|by left].
  right. split; [done|]. split; [done|]. cbn [negb]. repeat (case_decide; [eauto|]); try by auto.
  case_match; eauto.
Qed.

Lemma run_of_failures rounds rest n :
  Forall failing rounds -> n + N.of_nat (length rounds) < kPollGiveUpFailures ->
  poll_loop rid token tid (rounds ++ rest) n = poll_loop rid token tid rest (n + N.of_nat (length rounds)).
Proof.
  revert n. induction rounds as [|r rounds IH]; intros n Hf Hn; cbn [app length]; [by rewrite N.add_0_r|].
  apply Forall_cons in Hf as [Hr Hf]. cbn [length] in Hn. cbn [poll_loop]. fold (answered_to r).
  destruct (step_cases n (answered_to r)) as [[_ ->]|[Hok _]]; [|by unfold failing in Hr; congruence].
  unfold failed_poll. rewrite (proj2 (N.leb_gt _ _)) by lia. rewrite IH by (done || lia). f_equal. lia.
Qed.

(** Failures that run out, from a count below the limit. *)
Lemma failures_run_out rounds rest n :
  n < kPollGiveUpFailures -> Forall failing rounds -> n + N.of_nat (length rounds) = kPollGiveUpFailures ->
  poll_loop rid token tid (rounds ++ rest) n = Exits 0.
Proof.
  intros Hn Hf Hl. induction rounds as [|r rounds _] using rev_ind; [cbn in Hl; lia|].
  apply Forall_app in Hf as [Hf [Hr _]%Forall_cons]. rewrite length_app in Hl. cbn [length] in Hl.
  rewrite <- app_assoc, run_of_failures by (done || lia). cbn [app poll_loop]. fold (answered_to r).
  destruct (step_cases (n + N.of_nat (length rounds)) (answered_to r)) as [[_ ->]|[Hok _]]; [|by unfold failing in Hr; congruence].
  unfold failed_poll. rewrite (proj2 (N.leb_le _ _)) by lia. done.
Qed.

(** The count of a template that is still parked is below the limit. *)
Lemma parked_below rounds : forall n m, n < kPollGiveUpFailures ->
  poll_loop rid token tid rounds n = StillParked m -> m < kPollGiveUpFailures.
Proof.
  induction rounds as [|r rounds IH]; intros n m Hn; cbn [poll_loop]; [by intros [= <-]|]. fold (answered_to r).
  destruct (step_cases n (answered_to r)) as [[_ ->]|(_ & -> & [->|[->|[target ->]]])].
  - unfold failed_poll. destruct (N.leb_spec kPollGiveUpFailures (n + 1)); [done|]. by apply IH.
  - by apply IH.
  - done.
  - destruct (pr_fork r); [by apply IH..|]. unfold resume. by case_match.
Qed.

Lemma loop_split before after n :
  poll_loop rid token tid (before ++ after) n =
  match poll_loop rid token tid before n with StillParked m => poll_loop rid token tid after m | o => o end.
Proof.
  revert n. induction before as [|r before IH]; intros n; [done|]. cbn [app poll_loop].
  destruct (poll_step n _); [by apply IH|done|]. destruct (pr_fork r); [by apply IH..|]. unfold resume. by case_match.
Qed.

(** How a loop that starts with [n] failures can end. *)
Definition ended (rounds : list PollRound) (n : N) (o : Outcome) : Prop :=
  match o with
  | StillParked _ => True
  | Exits code =>
      (code = 0%Z /\ ((exists r, r ∈ rounds /\ leaving r) \/
        (exists before fails after, rounds = before ++ fails ++ after /\ Forall failing fails /\
           (N.of_nat (length fails) = kPollGiveUpFailures \/
            before = [] /\ n + N.of_nat (length fails) = kPollGiveUpFailures)))) \/
      (code = 1%Z /\ exists r pid pgid target, r ∈ rounds /\ restoring r pid pgid target /\
        ok_answer (pr_ready r (generation_ready_request rid token pid pgid target)) = false)
  | Returns rc error g =>
      rc = 0%Z /\ error = None /\ exists r pid pgid, r ∈ rounds /\ restoring r pid pgid g /\
        ok_answer (pr_ready r (generation_ready_request rid token pid pgid g)) = true
  end.

(** A round before. *)
Lemma ended_later r rounds n n' o : failing r /\ n' = n + 1 \/ n' = 0 ->
  ended rounds n' o -> ended (r :: rounds) n o.
Proof.
  intros Hr. destruct o as [rc error g|code|]; cbn [ended]; [| |done].
  - intros (-> & -> & x & pid & pgid & Hx & H). split_and!; [done..|]. exists x, pid, pgid. split; [by right|done].
  - intros [[-> [(x & Hx & H)|(before & fails & after & -> & Hf & Hl)]]|[-> (x & pid & pgid & t & Hx & H)]].
    + left. split; [done|]. left. exists x. split; [by right|done].
    + left. split; [done|]. right. destruct Hl as [Hl|[-> Hl]].
      * exists (r :: before), fails, after. split_and!; [done..|by left].
      * destruct Hr as [[Hr ->]| ->].
        -- exists [], (r :: fails), after. split; [done|]. split; [by apply Forall_cons|]. right. split; [done|]. cbn [length]. lia.
        -- exists [r], fails, after. split_and!; [done..|]. left. lia.
    + right. split; [done|]. exists x, pid, pgid, t. split; [by right|done].
Qed.

Lemma loop_ends rounds : forall n, n < kPollGiveUpFailures -> ended rounds n (poll_loop rid token tid rounds n).
Proof.
  induction rounds as [|r rounds IH]; intros n Hn; cbn [poll_loop]; [done|]. fold (answered_to r).
  destruct (step_cases n (answered_to r)) as [[Hr ->]|(Hok & -> & [->|[E|[target E]]])].
  - unfold failed_poll. destruct (N.leb_spec kPollGiveUpFailures (n + 1)) as [Hle|Hlt].
    + left. split; [done|]. right. exists [], [r], rounds. split; [done|]. split; [by apply Forall_singleton|].
      right. split; [done|]. cbn [length]. lia.
    + eapply ended_later; [|by apply IH]. by left.
  - eapply ended_later; [|by apply IH]. by right.
  - rewrite E. left. split; [done|]. left. exists r. split; [by left|done].
  - rewrite E. destruct (pr_fork r) as [e| |pid pgid] eqn:Ef; [by eapply ended_later; [by right|by apply IH]..|].
    unfold resume. destruct (ok_answer (pr_ready r _)) eqn:Ea.
    + split_and!; [done..|]. exists r, pid, pgid. split; [by left|done].
    + right. split; [done|]. exists r, pid, pgid, target. split; [by left|done].
Qed.


End loop.

(** ** Witnesses *)

Definition dead_round : PollRound := mkRound (fun _ => Err (lit "connection refused")) InParent (fun _ => Err []).


(** The runtime of SupervisorRuns while its template drives a restore. *)
Definition restoring_server : Server :=
  set_sup (run_ops (pair calm <$> [OpBeginRestore (mkIntent demo_rid demo_template 2); OpPoll demo_template demo_token;
    OpPublishRestore demo_rid; OpPoll demo_template demo_token]) (sv_sup demo_server)).1 demo_server.

Definition resumed_result : option (Server * result str) :=
  sent toy_blake3 (fun _ => quiet_control) trusted_peer (lit "/run/s")
    (generation_ready_request demo_rid demo_token 250 250 2) restoring_server.
Definition resumed_answer : Server * result str := default (restoring_server, Err []) resumed_result.

Lemma resumed_given : resumed_result = Some (resumed_answer.1, resumed_answer.2).
Proof. apply (run_parts resumed_result). vm_compute. reflexivity. Qed.


